(* ===== verification/_CoqProject ===== *)
-Q . S2P
Prelude.v
Bytes.v
Json.v
JsonFacts.v
Codec.v
Sha256.v
Hasher.v
HashTree.v
DataHash.v
Merkle.v
MerkleFacts.v
MerkleCompare.v
Bolt.v
Keys.v
Storage.v
TableView.v
StorageFacts.v
BoltStore.v
BoltStoreFacts.v
AnyData.v
Fsm.v
Node.v
FsmFacts.v
Replication.v
Handler.v
HandlerFacts.v
Verifier.v
VerifierFacts.v
Threads.v
Submitted.v
Buckets.v
ThreadFacts.v
Cluster.v
Agreement.v
RecordIds.v
Alert.v
Replica.v
Manager.v
Stream.v
VerdictFacts.v
Verdict.v
Pipeline.v
Process.v
Isolation.v
Replicated.v
Config.v
Commands.v
Running.v
