(* ===== verification/Prelude.v ===== *)
(** * Verification of witnz: PostgreSQL tamper detection

    witnz watches append-only PostgreSQL tables.  Every node reads the
    logical replication stream, hashes each inserted row, records the hash in
    a bbolt file (in a cluster: through a Raft log) and treats an update or a
    delete as tampering.  From time to time it compares the Merkle root of
    the rows a query returns with the root of what it recorded.

    ** Parts, and the files that model them

    The names are those of the Go code; a suffix or prefix (mt_, verifier_,
    raft_, rotator_) tells homonyms apart.  A method takes its receiver as an
    argument and returns it, a call that can fail returns [result]: a value,
    an error, or a panic with its reason.

    - Rows and hashes (src/internal/hash): Hasher (algorithms, the class
      [HashFunction]), Sha256, HashTree (HashChain and the level-by-level
      MerkleTree of hash.go), DataHash (CalculateDataHash), Merkle
      (MerkleTreeBuilder, proofs) with MerkleFacts, MerkleCompare (the
      comparison of trees and of leaf maps).
    - Text: Bytes (hex, big-endian integers), Json and JsonFacts (the
      encoder and the decoder of encoding/json on bytes), Codec (the class
      [JsonCodec] of a type with its JSON form, [RoundTrips] its law),
      AnyData (map[string]interface values, numbers as float64).  The decoder
      reads what other programs may write too: fractions and exponents,
      field names in other letter case, several members of one name, and
      it refuses what is nested more than 10,000 deep.
    - Storage (src/internal/storage): Bolt (bbolt as a class [Bolt] with its
      laws), Keys (keys table:sequence and prefix scans), Storage; TableView
      and StorageFacts relate it to the abstract store, a finite map per
      table.
    - Consensus (src/internal/consensus): BoltStore and BoltStoreFacts (the
      Raft log store), Fsm (the state machine), Node (the Raft node, the
      rotator; hashicorp/raft as a class [RaftLib] with laws), FsmFacts,
      Replication.
    - Replication stream (src/internal/cdc, src/internal/alert): Replica (the
      client), Manager (handlers, receive loop), Stream, Alert.
    - Verification (src/internal/verify): Handler and HandlerFacts, Verifier
      and VerifierFacts, RecordIds, VerdictFacts, Verdict, Pipeline.
    - Configuration and commands (src/internal/config, src/cmd/witnz):
      Config, Commands, Running.
    - Interleaving: Threads (the calls of the goroutines as programs of
      single actions: a transaction of the store, a call of Raft), ThreadFacts
      (what holds of every action), Process (one process: the stream and the
      verifications), Isolation (the tables of a process), Submitted and
      Buckets (what a node submits and what the log stands for), Cluster (the
      steps of all nodes), Agreement, Replicated.

    Calls go as in the code: a message of the stream is decoded by
    [ReceiveMessage], which gives an event to [Manager_HandleChange], which
    runs [HandleChange] (alone) or [raft_HandleChange] (in a cluster); the
    latter submits a log with [ApplyLog], which Raft gives to [Apply] on
    every node; [VerifyTable] reads the same storage, asks PostgreSQL and
    saves or replicates a checkpoint.  [start_command] puts them together.

    ** What the theorems show

    - The verdict (Verdict, Pipeline): what [VerifyTable] answers, branch by
      branch; that after one to ten recorded inserts it accepts exactly the
      untouched tables; the count of the detailed verification; the two ways
      it goes wrong, after the tenth insert and for rows that are only in a
      checkpoint.
    - One process (Process): in any interleaving of single actions, which
      add up to the calls ([calls_run_alone]), verifications leave what the stream records as it
      is, and a verification is not disturbed by events and verifications of
      other tables (Isolation); but an insert of its own table that is
      handled in the middle of it is claimed by its checkpoint and can be
      deleted unnoticed.
    - The cluster (Agreement): in every reachable state of any interleaving
      of single actions, members that have applied the log agree on the hash
      entries, every stored pair is the record of an insert into a protected
      table, numbered from 1 to 10 without a gap, and every member can catch
      up without a panic, from where it is or from any snapshot.  The
      definitions [agreed_chain] and [caught] are the abstract state and the
      invariant.  Replicated composes this with the verdict: under a steady
      leader, every member that catches up verifies exactly.
    - Refinements: the storage implements a map per table, the Raft store a
      map from indexes to logs, a replicated insert or checkpoint is the one
      a local call would have saved.  Of a deletion of logs, which changes a
      bucket under a cursor, what holds for every cursor is proved.
    - Binding: under [collision_free], on the strings hashed, equal Merkle
      roots, hash chains or data hashes come from equal data; proofs verify
      for the leaves of the tree and, with the widths checked, for nothing
      else; the two Merkle trees are equivalent; the comparison of two trees
      can miss an added record.
    - The stream: an insert message is recorded under the id the verification
      finds, an update or a delete of a protected table is alerted and not
      stored; the waits of the receive loop, with their int64 overflow.
    - Round trips: logs, snapshots; errors: when [Apply] and the status
      command panic; termination: the wait for a leader.
    - Commands: what a successful [start] has wired, and that it never sends
      an alert; that a failed start leaves nothing open and that [verify]
      exits with 0 whatever it found; that a configuration which loads is
      usable.

    ** Parameters

    Code outside src/ is an argument.  [Bolt], [RaftLib], [ReplLib]
    (pglogrepl, pgconn, pgtype), [HttpClient] and [ViperLib] are classes; the
    laws a theorem needs are separate classes ([BoltLaws], [RaftLaws]), each
    with an instance ([map_bolt], [list_raft], ...) that the witnesses use.
    [HashFunction] is any function with digests of fixed width: SHA-256 is an
    instance, computed, and the other algorithms are third-party.  What
    PostgreSQL answers, the clock, the outcome of a commit and the files are
    arguments of the operations that meet them.  Go leaves the order of a
    range over a map open: [RangeOrder] is any order, chosen anew at each
    loop.  A conversion of a float64 that does not fit is [FloatConversion].

    ** Bounds and fuel

    Integers are [N] or [Z] with the wrap of their width written out
    ([u64_add], [i64_wrap]).  The JSON parser recurses on fuel: the length of
    the text plus one is enough for what the encoder wrote ([cost_le_length],
    [parse_document_print]).  Building a tree takes one unit of fuel per
    level and gets one per leaf; [calculateRoot_fuel] and [Build_cases] show
    that it never runs out.  The polling loop counts down its
    retries.  The receive loop and the periodic verifications never end by
    themselves: they are functions of the list of their turns.

    ** Not modelled

    - Smaller steps than a transaction of the store or a call of Raft: bbolt
      serializes its transactions, and the future of a submission answers in
      the action that submits, while the leader's own state machine applies
      the log in a later step (hashicorp/raft answers after it: one of the
      interleavings).  [Restore] is one step of the cluster.  The
      cluster lets any number of events be handled at once on a node, where
      the code handles one after the other.  Mutexes guard only fields that
      do not change while calls run; wait groups and cancellation are left
      out.
    - Failing writes of the state machine in the cluster: the code drops the
      error, and such a member has lost the entry.
    - Truncation of the Raft log after a snapshot: the cluster keeps the
      whole log, of which a member applies the part after its snapshot.
    - Of encoding/json: that -0 is no unsigned integer, and what becomes of
      the elements of an array that comes twice in one snapshot.
    - Printing and logging (but for the report of status and the texts of
      errors and alerts), sleeping, cobra, signals, TLS and
      timeouts of the libraries.
    - Scripts, containers and tests. *)

From stdpp Require Export base gmap strings sorting pretty fin_maps option list.

(** ** Go values the whole development shares *)

(** Go's [error] interface.  [Errorf] is [fmt.Errorf] with no wrapped error
    (its text), [Wrap] is [fmt.Errorf("prefix: %w", inner)], [Tampering] is
    the [*TamperingError] of internal/verify/errors.go, [External] an error
    value made by a library. *)
Inductive error : Type :=
  | Errorf (msg : string)
  | Wrap (prefix : string) (inner : error)
  | Tampering (table operation : string)
  | External (msg : string).

#[export] Instance error_eq_dec : EqDecision error.
Proof. solve_decision. Defined.

(** A Go call returns a value, returns an error, or panics. *)
Inductive result (A : Type) : Type :=
  | Ok (a : A)
  | Err (e : error)
  | Panic (why : string).
Arguments Ok {A} a.
Arguments Err {A} e.
Arguments Panic {A} why.

#[export] Instance result_eq_dec `{EqDecision A} : EqDecision (result A).
Proof. solve_decision. Defined.

#[export] Instance result_ret : MRet result := @Ok.
#[export] Instance result_bind : MBind result := fun A B f m =>
  match m with
  | Ok a => f a
  | Err e => Err e
  | Panic w => Panic w
  end.
#[export] Instance result_fmap : FMap result := fun A B f m =>
  match m with
  | Ok a => Ok (f a)
  | Err e => Err e
  | Panic w => Panic w
  end.

Lemma Ok_bind {A B} (a : A) (f : A -> result B) : Ok a ≫= f = f a.
Proof. done. Qed.

(** [if err != nil { return fmt.Errorf("prefix: %w", err) }] *)
Definition wrap_err {A} (prefix : string) (m : result A) : result A :=
  match m with
  | Err e => Err (Wrap prefix e)
  | _ => m
  end.

Definition is_Ok {A} (m : result A) : bool :=
  match m with Ok _ => true | _ => false end.

Definition is_Panic {A} (m : result A) : bool :=
  match m with Panic _ => true | _ => false end.

Declare Scope witnz_scope.
Delimit Scope witnz_scope with witnz.
Notation "'let!' x ':=' m 'in' k" := (mbind (M:=result) (fun x => k) m)
  (at level 10, x pattern, m at level 100, k at level 200) : witnz_scope.

(** ** Machine integers *)

(** Go's [uint64]: an [N] below [2^64], arithmetic wraps. *)
Definition u64_modulus : N := 2 ^ 64.
Definition u64_wrap (n : N) : N := n mod u64_modulus.
Definition u64_add (a b : N) : N := u64_wrap (a + b).

(** Go's [int64]: a [Z] in [[-2^63, 2^63)], arithmetic wraps. *)
Definition i64_wrap (z : Z) : Z :=
  ((z + 2 ^ 63) mod 2 ^ 64 - 2 ^ 63)%Z.

(** ** Map iteration *)

(** Go does not specify the order in which [range] visits a map, and two
    loops over one map may differ.  [range_map site m] is the order the loop
    at [site] sees; every theorem holds for every instance. *)
Class RangeOrder := {
  range_map : forall {V : Type}, nat -> gmap string V -> list (string * V);
  range_map_perm : forall (V : Type) (site : nat) (m : gmap string V),
    range_map site m ≡ₚ map_to_list m
}.

(** One concrete order, for the witnesses. *)
Definition canonical_order : RangeOrder :=
  {| range_map V _ m := map_to_list m;
     range_map_perm V _ m := reflexivity (map_to_list m) |}.

(** ** Strings *)

(** [sort.Strings]: ascending bytewise order. *)
Definition sort_strings (l : list string) : list string := merge_sort String.le l.

(** ** The development's hint database and tactics *)

Create HintDb witnz.
Create Rewrite HintDb witnz_str.

Ltac destruct_result m :=
  let E := fresh "E" in destruct m eqn:E; simplify_eq/=.

(** A closed decidable statement, by evaluation. *)
Ltac by_decide := apply (bool_decide_unpack _); vm_compute; exact I.

(** A closed equation, by evaluating both sides. *)
Ltac by_vm := match goal with |- ?x = _ => vm_cast_no_check (eq_refl x) end.

(** Splits every [Forall] over a cons in the context. *)
Ltac forall_cons := repeat match goal with
  | H : Forall _ (_ :: _) |- _ => apply Forall_cons in H as [? H]
  end.

(** Case analysis on the innermost scrutinee of the goal or a hypothesis. *)
Ltac go_cases := repeat (case_match; simplify_eq/=; try done).

Section strings.
Implicit Types s p : string.

Lemma string_app_nil_r s : s +:+ "" = s.
Proof. induction s as [|a s IH]; [done|]. unfold String.append in *. by f_equal. Qed.

Lemma string_app_assoc s1 s2 s3 : (s1 +:+ s2) +:+ s3 = s1 +:+ (s2 +:+ s3).
Proof. induction s1 as [|a s1 IH]; [done|]. unfold String.append in *. by f_equal. Qed.

Lemma string_app_cons a s1 s2 : String a s1 +:+ s2 = String a (s1 +:+ s2).
Proof. done. Qed.

Lemma string_app_nil_l s : "" +:+ s = s.
Proof. done. Qed.

Lemma string_length_app s1 s2 :
  String.length (s1 +:+ s2) = String.length s1 + String.length s2.
Proof.
  induction s1 as [|a s1 IH]; [done|].
  rewrite string_app_cons. simpl. by rewrite IH.
Qed.

(** Two concatenations whose first halves have one length split alike. *)
Lemma string_app_inj s1 s2 t1 t2 :
  String.length s1 = String.length t1 ->
  s1 +:+ s2 = t1 +:+ t2 -> s1 = t1 /\ s2 = t2.
Proof.
  revert t1. induction s1 as [|a s1 IH]; intros [|b t1] Hlen Heq; try done.
  simpl in Hlen. rewrite !string_app_cons in Heq. simplify_eq.
  destruct (IH t1) as [-> ->]; auto with lia.
Qed.

Lemma string_app_inj_r s1 s2 t :
  s1 +:+ t = s2 +:+ t -> s1 = s2.
Proof.
  intros Heq. apply (string_app_inj s1 t s2 t); [|done].
  apply (f_equal String.length) in Heq. rewrite !string_length_app in Heq. lia.
Qed.

Lemma string_app_inj_l p s1 s2 : p +:+ s1 = p +:+ s2 -> s1 = s2.
Proof. intros Heq. by apply (string_app_inj p s1 p s2) in Heq as [_ ?]. Qed.

(** Bytewise comparison skips a common prefix. *)
Lemma string_compare_app p s1 s2 :
  String.compare (p +:+ s1) (p +:+ s2) = String.compare s1 s2.
Proof.
  induction p as [|a p IH]; [done|].
  rewrite !string_app_cons. simpl.
  replace (Ascii.compare a a) with Eq; [done|].
  symmetry. unfold Ascii.compare. apply N.compare_refl.
Qed.
End strings.

#[export] Hint Rewrite string_app_nil_r string_app_assoc string_length_app : witnz_str.

Section sorting.
Implicit Types l : list string.

Lemma sort_strings_perm l : sort_strings l ≡ₚ l.
Proof. apply merge_sort_Permutation. Qed.

Lemma sort_strings_sorted l : StronglySorted String.le (sort_strings l).
Proof. apply (StronglySorted_merge_sort _). Qed.

(** Sorting depends on the multiset of its input only. *)
Lemma sort_strings_proper l1 l2 :
  l1 ≡ₚ l2 -> sort_strings l1 = sort_strings l2.
Proof.
  intros Hp. apply (StronglySorted_unique String.le).
  - apply sort_strings_sorted.
  - apply sort_strings_sorted.
  - by rewrite !sort_strings_perm.
Qed.

Lemma sort_strings_inj l1 l2 :
  sort_strings l1 = sort_strings l2 -> l1 ≡ₚ l2.
Proof. intros H. by rewrite <-(sort_strings_perm l1), H, sort_strings_perm. Qed.

Lemma length_sort_strings l : length (sort_strings l) = length l.
Proof. apply Permutation_length, sort_strings_perm. Qed.

Lemma elem_of_sort_strings x l : x ∈ sort_strings l <-> x ∈ l.
Proof. by rewrite sort_strings_perm. Qed.

(** A greatest element sorts last, and once more after it when repeated. *)
Lemma sort_strings_max l x :
  x ∈ l -> Forall (fun y => String.le y x) l ->
  exists l', sort_strings l = l' ++ [x] /\ sort_strings (l ++ [x]) = l' ++ [x; x].
Proof.
  intros Hin Hmax. apply elem_of_Permutation in Hin as [k Hk].
  assert (Forall (fun y => String.le y x) (sort_strings k)) as Hkmax.
  { rewrite sort_strings_perm. rewrite Hk in Hmax. by apply Forall_cons in Hmax as [_ ?]. }
  assert (forall t, StronglySorted String.le t -> Forall (fun y => y = x) t ->
    StronglySorted String.le (sort_strings k ++ t)) as Happ.
  { intros t Ht Hall. apply StronglySorted_app_2; auto using sort_strings_sorted.
    intros a b Ha Hb. rewrite Forall_forall in Hkmax, Hall.
    rewrite (Hall b) by done. by apply Hkmax. }
  exists (sort_strings k). split; apply (StronglySorted_unique String.le);
    try apply sort_strings_sorted.
  - apply Happ; repeat constructor.
  - by rewrite !sort_strings_perm, Hk, <-Permutation_cons_append.
  - apply Happ; repeat constructor. done.
  - rewrite !sort_strings_perm, Hk. simpl.
    by rewrite (Permutation_cons_append (k ++ [x]) x), <-(assoc (++)).
Qed.
End sorting.

#[export] Instance sort_strings_Proper : Proper ((≡ₚ) ==> (=)) sort_strings.
Proof. exact sort_strings_proper. Qed.

#[export] Hint Resolve sort_strings_perm sort_strings_sorted : witnz.

Section range.
Context `{!RangeOrder} {V : Type}.
Implicit Types m : gmap string V.

Lemma elem_of_range_map site k v m :
  (k, v) ∈ range_map site m <-> m !! k = Some v.
Proof. rewrite range_map_perm. apply elem_of_map_to_list. Qed.

Lemma NoDup_fst_range_map site m : NoDup (range_map site m).*1.
Proof. rewrite range_map_perm. apply NoDup_fst_map_to_list. Qed.

Lemma list_to_map_range_map site m :
  list_to_map (range_map site m) = m.
Proof.
  rewrite <-(list_to_map_to_list m) at 2. apply list_to_map_proper.
  - apply NoDup_fst_range_map.
  - apply range_map_perm.
Qed.

Lemma length_range_map site m : length (range_map site m) = size m.
Proof. rewrite range_map_perm. apply length_map_to_list. Qed.
End range.
