(* ===== verification/Bytes.v ===== *)
(** * Byte strings: encoding/binary, encoding/hex and slicing

    A Go [[]byte] and a Go [string] are both a Rocq [string], a sequence of
    8-bit characters.  This file holds what the program uses of the standard
    library on them: big-endian integers ([binary.BigEndian.PutUint64],
    [PutUint32], [Uint64], [Uint32]), [hex.EncodeToString] and slice
    expressions, with their round trips and the fact BoltDB's key order rests
    on: big-endian keys sort as the integers they encode. *)

From Stdlib Require Import Ascii NArith Lia.
From S2P Require Import Prelude.

Local Open Scope N_scope.

(** The [n] low-order bytes of [w], most significant first. *)
Fixpoint be_bytes (n : nat) (w : N) : string :=
  match n with
  | O => EmptyString
  | S k => String (ascii_of_N ((w / 256 ^ N.of_nat k) mod 256)) (be_bytes k w)
  end.

Fixpoint be_value_from (acc : N) (s : string) : N :=
  match s with
  | EmptyString => acc
  | String a r => be_value_from (acc * 256 + N_of_ascii a) r
  end.

Definition be_value (s : string) : N := be_value_from 0 s.

Definition PutUint64 (w : N) : string := be_bytes 8 w.
Definition PutUint32 (w : N) : string := be_bytes 4 w.

(** [s[lo:hi]]: a run-time panic unless [lo <= hi <= len(s)]. *)
Definition go_slice (s : string) (lo hi : nat) : result string :=
  if decide (lo <= hi /\ hi <= String.length s)%nat
  then Ok (String.substring lo (hi - lo) s)
  else Panic "slice bounds out of range".

(** [binary.BigEndian.Uint64(b)] panics on fewer than 8 bytes. *)
Definition Uint64 (b : string) : result N :=
  if decide (8 <= String.length b)%nat
  then Ok (be_value (String.substring 0 8 b))
  else Panic "index out of range".

Definition Uint32 (b : string) : result N :=
  if decide (4 <= String.length b)%nat
  then Ok (be_value (String.substring 0 4 b))
  else Panic "index out of range".

(** [hex.EncodeToString] *)
Definition hex_digit (n : N) : ascii :=
  if n <? 10 then ascii_of_N (48 + n) else ascii_of_N (87 + n).

Fixpoint EncodeToString (s : string) : string :=
  match s with
  | EmptyString => EmptyString
  | String a r =>
      String (hex_digit (N_of_ascii a / 16))
        (String (hex_digit (N_of_ascii a mod 16)) (EncodeToString r))
  end.

(** ** Big-endian integers *)

Lemma N_of_ascii_lt (a : ascii) : N_of_ascii a < 256.
Proof. apply N_ascii_bounded. Qed.

Lemma N_of_ascii_of_N n : n < 256 -> N_of_ascii (ascii_of_N n) = n.
Proof. apply N_ascii_embedding. Qed.

Lemma length_be_bytes n w : String.length (be_bytes n w) = n.
Proof. induction n as [|n IH]; simpl; congruence. Qed.

Lemma be_value_from_shift acc s :
  be_value_from acc s = acc * 256 ^ N.of_nat (String.length s) + be_value s.
Proof.
  revert acc. unfold be_value. induction s as [|a s IH]; intros acc.
  { simpl. lia. }
  cbn [be_value_from String.length].
  rewrite (IH (acc * 256 + N_of_ascii a)), (IH (0 * 256 + N_of_ascii a)).
  rewrite Nat2N.inj_succ, N.pow_succ_r'. lia.
Qed.

Lemma be_value_cons a s :
  be_value (String a s) = N_of_ascii a * 256 ^ N.of_nat (String.length s) + be_value s.
Proof. unfold be_value at 1. simpl. by rewrite be_value_from_shift. Qed.

Lemma be_value_lt s : be_value s < 256 ^ N.of_nat (String.length s).
Proof.
  induction s as [|a s IH]; [done|].
  rewrite be_value_cons. simpl String.length.
  rewrite Nat2N.inj_succ, N.pow_succ_r'. pose proof (N_of_ascii_lt a). nia.
Qed.

Lemma be_value_be_bytes n w : be_value (be_bytes n w) = w mod 256 ^ N.of_nat n.
Proof.
  induction n as [|n IH].
  { simpl. by rewrite N.mod_1_r. }
  cbn [be_bytes]. rewrite be_value_cons, length_be_bytes, IH, N_of_ascii_of_N.
  - rewrite Nat2N.inj_succ, N.pow_succ_r', (N.mul_comm 256).
    rewrite N.Div0.mod_mul_r. lia.
  - by apply N.mod_lt.
Qed.

Lemma be_value_be_bytes_small n w :
  w < 256 ^ N.of_nat n -> be_value (be_bytes n w) = w.
Proof. intros. rewrite be_value_be_bytes. by apply N.mod_small. Qed.

Lemma be_value_inj s t :
  String.length s = String.length t -> be_value s = be_value t -> s = t.
Proof.
  revert t. induction s as [|a s IH]; intros [|b t] Hlen Hv; try done.
  simpl in Hlen. injection Hlen as Hlen.
  rewrite !be_value_cons, Hlen in Hv.
  pose proof (be_value_lt s) as Hs. pose proof (be_value_lt t) as Ht.
  rewrite Hlen in Hs.
  set (P := 256 ^ N.of_nat (String.length t)) in *.
  assert (N_of_ascii a = N_of_ascii b /\ be_value s = be_value t) as [Ha Hst].
  { rewrite (N.mul_comm _ P), (N.mul_comm _ P) in Hv.
    apply (N.div_mod_unique P) in Hv; naive_solver. }
  f_equal; [|by apply IH].
  rewrite <-(ascii_N_embedding a), <-(ascii_N_embedding b). by f_equal.
Qed.

Lemma be_bytes_be_value s : be_bytes (String.length s) (be_value s) = s.
Proof.
  apply be_value_inj; [apply length_be_bytes|].
  apply be_value_be_bytes_small, be_value_lt.
Qed.

Lemma be_bytes_inj n a b :
  a < 256 ^ N.of_nat n -> b < 256 ^ N.of_nat n ->
  be_bytes n a = be_bytes n b -> a = b.
Proof.
  intros Ha Hb Heq. rewrite <-(be_value_be_bytes_small n a), Heq by done.
  by apply be_value_be_bytes_small.
Qed.

(** Keys of one length compare as the integers they encode. *)
Lemma be_value_compare s t :
  String.length s = String.length t ->
  String.compare s t = N.compare (be_value s) (be_value t).
Proof.
  revert t. induction s as [|a s IH]; intros [|b t] Hlen; try done.
  simpl in Hlen. injection Hlen as Hlen. simpl.
  rewrite !be_value_cons, Hlen.
  pose proof (be_value_lt s) as Hs. pose proof (be_value_lt t) as Ht. rewrite Hlen in Hs.
  set (P := 256 ^ N.of_nat (String.length t)) in *.
  unfold Ascii.compare. rewrite (IH t Hlen).
  destruct (N.compare_spec (N_of_ascii a) (N_of_ascii b)) as [Hab|Hab|Hab].
  - rewrite Hab. symmetry.
    destruct (N.compare_spec (be_value s) (be_value t));
      [apply N.compare_eq_iff|apply N.compare_lt_iff|apply N.compare_gt_iff]; lia.
  - symmetry. apply N.compare_lt_iff. nia.
  - symmetry. apply N.compare_gt_iff. nia.
Qed.

Lemma PutUint64_compare a b :
  a < u64_modulus -> b < u64_modulus ->
  String.compare (PutUint64 a) (PutUint64 b) = N.compare a b.
Proof.
  intros. unfold PutUint64.
  by rewrite be_value_compare, !be_value_be_bytes_small by (by rewrite ?length_be_bytes).
Qed.

(** ** Slices *)

Lemma substring_app_l s t :
  String.substring 0 (String.length s) (s +:+ t) = s.
Proof.
  induction s as [|a s IH]; [by destruct t|].
  rewrite string_app_cons. simpl. by rewrite IH.
Qed.

Lemma substring_app_skip s t lo len :
  String.substring (String.length s + lo) len (s +:+ t) = String.substring lo len t.
Proof. induction s as [|a s IH]; [done|]. rewrite string_app_cons. simpl. apply IH. Qed.

Lemma substring_all s : String.substring 0 (String.length s) s = s.
Proof. rewrite <-(string_app_nil_r s) at 2. apply substring_app_l. Qed.

Lemma Uint64_PutUint64 w rest :
  w < u64_modulus -> Uint64 (PutUint64 w +:+ rest) = Ok w.
Proof.
  intros Hw. unfold Uint64, PutUint64.
  rewrite decide_True by (rewrite string_length_app, length_be_bytes; lia).
  f_equal. transitivity (be_value (be_bytes 8 w)); [|by apply be_value_be_bytes_small].
  f_equal. pose proof (substring_app_l (be_bytes 8 w) rest) as E.
  by rewrite length_be_bytes in E.
Qed.

Lemma Uint32_PutUint32 w rest :
  w < 2 ^ 32 -> Uint32 (PutUint32 w +:+ rest) = Ok w.
Proof.
  intros Hw. unfold Uint32, PutUint32.
  rewrite decide_True by (rewrite string_length_app, length_be_bytes; lia).
  f_equal. transitivity (be_value (be_bytes 4 w)); [|by apply be_value_be_bytes_small].
  f_equal. pose proof (substring_app_l (be_bytes 4 w) rest) as E.
  by rewrite length_be_bytes in E.
Qed.

(** ** Hexadecimal *)

Lemma length_EncodeToString s :
  String.length (EncodeToString s) = (2 * String.length s)%nat.
Proof. induction s as [|a s IH]; simpl; [done|]. rewrite IH. lia. Qed.

Lemma hex_digit_inj m n :
  m < 16 -> n < 16 -> hex_digit m = hex_digit n -> m = n.
Proof.
  intros Hm Hn H. apply (f_equal N_of_ascii) in H. unfold hex_digit in H.
  destruct (N.ltb_spec m 10), (N.ltb_spec n 10);
    rewrite !N_of_ascii_of_N in H; lia.
Qed.

Lemma EncodeToString_inj s t : EncodeToString s = EncodeToString t -> s = t.
Proof.
  revert t. induction s as [|a s IH]; intros [|b t] H; try done.
  simpl in H. injection H as H1 H2 H.
  pose proof (N_of_ascii_lt a) as Ha. pose proof (N_of_ascii_lt b) as Hb.
  apply hex_digit_inj in H1;
    [|apply N.Div0.div_lt_upper_bound; lia|apply N.Div0.div_lt_upper_bound; lia].
  apply hex_digit_inj in H2; [|by apply N.mod_lt..].
  f_equal; [|by apply IH].
  rewrite <-(ascii_N_embedding a), <-(ascii_N_embedding b). f_equal.
  rewrite (N.div_mod (N_of_ascii a) 16), (N.div_mod (N_of_ascii b) 16) by done. lia.
Qed.

#[export] Hint Rewrite length_be_bytes length_EncodeToString : witnz_str.
