(* ===== verification/Json.v ===== *)
(** * encoding/json: printing and parsing

    Everything witnz stores, replicates or hashes is a JSON text made by
    [json.Marshal] and read back by [json.Unmarshal].  This file holds the
    two at the byte level: the document type [json], the compact printer
    [print] (HTML-escaping, invalid UTF-8 replaced by U+FFFD, as
    [json.Marshal] does), the parser [parse], and the round trip
    [parse_print].  A number is an integer literal, the only one the program
    writes, or a literal with a fraction or an exponent, which a foreign
    text may hold. *)

From Stdlib Require Import Ascii NArith Lia.
From S2P Require Import Prelude Bytes.

#[warnings="-register-all"]
Inductive json : Type :=
  | JNull
  | JBool (b : bool)
  | JNum (z : Z)
  (** m * 10^e, of a literal with a fraction or an exponent *)
  | JDec (m e : Z)
  | JStr (s : string)
  | JArr (l : list json)
  | JObj (l : list (string * json)).

(** ** UTF-8 *)

Section utf8.
Local Open Scope N_scope.

Definition in_range (lo hi : N) (a : ascii) : bool :=
  (lo <=? N_of_ascii a) && (N_of_ascii a <=? hi).

Definition continuation : ascii -> bool := in_range 128 191.

(** The valid two-, three- and four-byte sequences of RFC 3629, which are
    those [utf8.DecodeRune] accepts. *)
Definition rune2 (a b : ascii) : bool := in_range 194 223 a && continuation b.

Definition rune3 (a b c : ascii) : bool :=
  ((in_range 224 224 a && in_range 160 191 b)
   || (in_range 225 236 a && continuation b)
   || (in_range 237 237 a && in_range 128 159 b)
   || (in_range 238 239 a && continuation b)) && continuation c.

Definition rune4 (a b c d : ascii) : bool :=
  ((in_range 240 240 a && in_range 144 191 b)
   || (in_range 241 243 a && continuation b)
   || (in_range 244 244 a && in_range 128 143 b))
  && continuation c && continuation d.

Definition is_ascii (a : ascii) : bool := N_of_ascii a <? 128.

(** A Go string as [range] decodes it: ASCII bytes, multi-byte runes and
    bytes that start no rune. *)
Inductive chunk : Type :=
  | CByte (a : ascii)
  | CRune (s : string)
  | CBad.

Fixpoint chunks (s : string) : list chunk :=
  match s with
  | EmptyString => []
  | String a r =>
      if is_ascii a then CByte a :: chunks r else
      match r with
      | EmptyString => [CBad]
      | String b r2 =>
          if rune2 a b then CRune (String a (String b "")) :: chunks r2 else
          match r2 with
          | EmptyString => CBad :: chunks r
          | String c r3 =>
              if rune3 a b c then CRune (String a (String b (String c ""))) :: chunks r3 else
              match r3 with
              | EmptyString => CBad :: chunks r
              | String d r4 =>
                  if rune4 a b c d
                  then CRune (String a (String b (String c (String d "")))) :: chunks r4
                  else CBad :: chunks r
              end
          end
      end
  end.

(** U+FFFD, the replacement character, as UTF-8. *)
Definition replacement : string :=
  String (ascii_of_N 239) (String (ascii_of_N 191) (String (ascii_of_N 189) "")).

Definition chunk_text (c : chunk) : string :=
  match c with
  | CByte a => String a ""
  | CRune s => s
  | CBad => replacement
  end.

(** What a reader of the printed string gets back. *)
Definition sanitize (s : string) : string :=
  foldr (fun c t => chunk_text c +:+ t) "" (chunks s).

Definition valid_utf8 (s : string) : bool :=
  forallb (fun c => match c with CBad => false | _ => true end) (chunks s).

(** ** Printing *)

Definition hex4 (n : N) : string :=
  String (hex_digit (n / 4096 mod 16)) (String (hex_digit (n / 256 mod 16))
    (String (hex_digit (n / 16 mod 16)) (String (hex_digit (n mod 16)) ""))).

Definition backslash : ascii := ascii_of_N 92.
Definition dquote : ascii := ascii_of_N 34.

(** [appendString] of encoding/json on one ASCII byte, HTML escaping on. *)
Definition escape_byte (a : ascii) : string :=
  let n := N_of_ascii a in
  if (n =? 92) || (n =? 34) then String backslash (String a "")
  else if n =? 8 then String backslash "b"
  else if n =? 12 then String backslash "f"
  else if n =? 10 then String backslash "n"
  else if n =? 13 then String backslash "r"
  else if n =? 9 then String backslash "t"
  else if (n <? 32) || (n =? 60) || (n =? 62) || (n =? 38)
  then String backslash (String "u" (hex4 n))
  else String a "".

(** U+2028 and U+2029 are escaped too. *)
Definition line_separator (s : string) : option N :=
  if decide (s = String (ascii_of_N 226) (String (ascii_of_N 128) (String (ascii_of_N 168) "")))
  then Some 8232
  else if decide (s = String (ascii_of_N 226) (String (ascii_of_N 128) (String (ascii_of_N 169) "")))
  then Some 8233
  else None.

Definition escape_chunk (c : chunk) : string :=
  match c with
  | CByte a => escape_byte a
  | CRune s =>
      match line_separator s with
      | Some n => String backslash (String "u" (hex4 n))
      | None => s
      end
  | CBad => String backslash "ufffd"
  end.

Definition quote_body (s : string) : string :=
  foldr (fun c t => escape_chunk c +:+ t) "" (chunks s).

Definition quote (s : string) : string :=
  String dquote (quote_body s +:+ String dquote "").

End utf8.

Section printing.
(** The separator goes between the elements. *)
Fixpoint join (sep : string) (l : list string) : string :=
  match l with
  | [] => ""
  | [x] => x
  | x :: l' => x +:+ (sep +:+ join sep l')
  end.

Fixpoint print (j : json) : string :=
  match j with
  | JNull => "null"
  | JBool true => "true"
  | JBool false => "false"
  | JNum z => pretty z
  | JDec m e => pretty m +:+ ("e" +:+ pretty e)
  | JStr s => quote s
  | JArr l => "[" +:+ (join "," (print <$> l) +:+ "]")
  | JObj l =>
      "{" +:+ (join "," ((fun kv => quote kv.1 +:+ (":" +:+ print kv.2)) <$> l) +:+ "}")
  end.
End printing.

(** ** Parsing *)

Section parsing.
Local Open Scope N_scope.

Definition is_space (a : ascii) : bool :=
  let n := N_of_ascii a in (n =? 32) || (n =? 9) || (n =? 10) || (n =? 13).

Fixpoint skip_ws (s : string) : string :=
  match s with
  | String a r => if is_space a then skip_ws r else s
  | EmptyString => s
  end.

Definition is_digit (a : ascii) : bool := in_range 48 57 a.

Fixpoint read_digits (acc : N) (s : string) : N * string :=
  match s with
  | String a r =>
      if is_digit a then read_digits (acc * 10 + (N_of_ascii a - 48)) r else (acc, s)
  | EmptyString => (acc, s)
  end.

(** What may follow a number: nothing that continues it. *)
Definition number_end (s : string) : bool :=
  match s with
  | String a _ =>
      negb (is_digit a || in_range 46 46 a || in_range 69 69 a || in_range 101 101 a)
  | EmptyString => true
  end.

(** The integer part: no leading zero. *)
Definition read_nat (s : string) : option (N * string) :=
  match s with
  | String a r =>
      if in_range 48 48 a then Some (0, r)
      else if is_digit a then Some (read_digits 0 s)
      else None
  | EmptyString => None
  end.

Definition hex_value (a : ascii) : option N :=
  let n := N_of_ascii a in
  if in_range 48 57 a then Some (n - 48)
  else if in_range 97 102 a then Some (n - 87)
  else if in_range 65 70 a then Some (n - 55)
  else None.

Definition hex4_value (a b c d : ascii) : option N :=
  match hex_value a, hex_value b, hex_value c, hex_value d with
  | Some w, Some x, Some y, Some z => Some (((w * 16 + x) * 16 + y) * 16 + z)
  | _, _, _, _ => None
  end.

(** [utf8.EncodeRune] on a scalar value. *)
Definition encode_rune (n : N) : string :=
  if n <? 128 then String (ascii_of_N n) ""
  else if n <? 2048 then
    String (ascii_of_N (192 + n / 64)) (String (ascii_of_N (128 + n mod 64)) "")
  else if (55296 <=? n) && (n <=? 57343) then replacement
  else if n <? 65536 then
    String (ascii_of_N (224 + n / 4096)) (String (ascii_of_N (128 + n / 64 mod 64))
      (String (ascii_of_N (128 + n mod 64)) ""))
  else
    String (ascii_of_N (240 + n / 262144)) (String (ascii_of_N (128 + n / 4096 mod 64))
      (String (ascii_of_N (128 + n / 64 mod 64)) (String (ascii_of_N (128 + n mod 64)) ""))).

Definition high_surrogate (n : N) : bool := (55296 <=? n) && (n <=? 56319).
Definition low_surrogate (n : N) : bool := (56320 <=? n) && (n <=? 57343).

Definition prepend (p : string) (o : option (string * string)) : option (string * string) :=
  match o with
  | Some (body, rest) => Some (p +:+ body, rest)
  | None => None
  end.

(** The one-character escapes. *)
Definition simple_escape (e : ascii) : option ascii :=
  let n := N_of_ascii e in
  if (n =? 34) || (n =? 92) || (n =? 47) then Some e
  else if n =? 98 then Some (ascii_of_N 8)
  else if n =? 102 then Some (ascii_of_N 12)
  else if n =? 110 then Some (ascii_of_N 10)
  else if n =? 114 then Some (ascii_of_N 13)
  else if n =? 116 then Some (ascii_of_N 9)
  else None.

(** [unquote s] reads a string literal after its opening quote and returns
    its value and what follows the closing quote. *)
Fixpoint unquote (s : string) : option (string * string) :=
  match s with
  | EmptyString => None
  | String a r =>
      if in_range 34 34 a then Some ("", r)
      else if in_range 92 92 a then
        match r with
        | EmptyString => None
        | String e r2 =>
            match simple_escape e with
            | Some x => prepend (String x "") (unquote r2)
            | None =>
                if in_range 117 117 e then
                  match r2 with
                  | String h1 (String h2 (String h3 (String h4 r6))) =>
                      match hex4_value h1 h2 h3 h4 with
                      | None => None
                      | Some n =>
                          if high_surrogate n then
                            match r6 with
                            | String p (String q (String g1 (String g2
                                (String g3 (String g4 r12))))) =>
                                match hex4_value g1 g2 g3 g4 with
                                | Some m =>
                                    if in_range 92 92 p && in_range 117 117 q
                                       && low_surrogate m
                                    then prepend (encode_rune
                                           (65536 + (n - 55296) * 1024 + (m - 56320)))
                                           (unquote r12)
                                    else prepend replacement (unquote r6)
                                | None => prepend replacement (unquote r6)
                                end
                            | _ => prepend replacement (unquote r6)
                            end
                          else prepend (encode_rune n) (unquote r6)
                      end
                  | _ => None
                  end
                else None
            end
        end
      else if N_of_ascii a <? 32 then None
      else if is_ascii a then prepend (String a "") (unquote r)
      else
        match r with
        | EmptyString => None
        | String b r2 =>
            if rune2 a b then prepend (String a (String b "")) (unquote r2) else
            match r2 with
            | EmptyString => prepend replacement (unquote r)
            | String c r3 =>
                if rune3 a b c
                then prepend (String a (String b (String c ""))) (unquote r3) else
                match r3 with
                | EmptyString => prepend replacement (unquote r)
                | String d r4 =>
                    if rune4 a b c d
                    then prepend (String a (String b (String c (String d "")))) (unquote r4)
                    else prepend replacement (unquote r)
                end
            end
        end
  end.

(** [strip p s] is what follows the prefix [p] of [s]. *)
Fixpoint strip (p s : string) : option string :=
  match p, s with
  | EmptyString, _ => Some s
  | String a p', String b s' => if decide (a = b) then strip p' s' else None
  | _, EmptyString => None
  end.

(** A point is followed by at least one digit; [n] holds the digits before
    it.  Returns all digits and how many are behind the point. *)
Definition read_fraction (n : N) (s : string) : option (N * nat * string) :=
  match strip "." s with
  | None => Some (n, O, s)
  | Some r =>
      let '(n', r') := read_digits n r in
      match (String.length r - String.length r')%nat with
      | O => None
      | k => Some (n', k, r')
      end
  end.

Definition read_sign (s : string) : Z * string :=
  match s with
  | String a r =>
      if in_range 43 43 a then (1%Z, r) else if in_range 45 45 a then ((-1)%Z, r) else (1%Z, s)
  | EmptyString => (1%Z, s)
  end.

Definition read_exponent (s : string) : option (option Z * string) :=
  match s with
  | String a r =>
      if in_range 101 101 a || in_range 69 69 a then
        let '(sign, r1) := read_sign r in
        let '(x, r2) := read_digits 0 r1 in
        if Nat.ltb (String.length r2) (String.length r1)
        then Some (Some (sign * Z.of_N x)%Z, r2) else None
      else Some (None, s)
  | EmptyString => Some (None, s)
  end.

(** The value of the digits [n], [k] of them behind the point (the literal -0
    is the integer 0). *)
Definition literal (sign : Z) (n : N) (k : nat) (x : option Z) : json :=
  match k, x with
  | O, None => JNum (sign * Z.of_N n)
  | _, _ => JDec (sign * Z.of_N n) (default 0 x - Z.of_nat k)%Z
  end.

Definition read_number (sign : Z) (s : string) : option (json * string) :=
  match read_nat s with
  | None => None
  | Some (n, r) =>
      match read_fraction n r with
      | None => None
      | Some (n', k, r1) =>
          match read_exponent r1 with
          | None => None
          | Some (x, r2) => Some (literal sign n' k x, r2)
          end
      end
  end.

Definition number (s : string) : option (json * string) :=
  match strip "-" s with
  | Some r => read_number (-1) r
  | None => read_number 1 s
  end.

(** Reads one document and returns it with the text that follows.  One unit
    of fuel is spent on each value and on each element of an array or
    object, so the length of the text is always enough. *)
Fixpoint parse (fuel : nat) (s : string) : option (json * string) :=
  match fuel with
  | O => None
  | S f =>
      let s := skip_ws s in
      match s with
      | EmptyString => None
      | String a r =>
          if in_range 34 34 a then
            match unquote r with
            | Some (body, rest) => Some (JStr body, rest)
            | None => None
            end
          else if in_range 91 91 a then
            match strip "]" (skip_ws r) with
            | Some rest => Some (JArr [], rest)
            | None => match parse_elems f r with
                      | Some (l, rest) => Some (JArr l, rest)
                      | None => None
                      end
            end
          else if in_range 123 123 a then
            match strip "}" (skip_ws r) with
            | Some rest => Some (JObj [], rest)
            | None => match parse_members f r with
                      | Some (l, rest) => Some (JObj l, rest)
                      | None => None
                      end
            end
          else match strip "null" s with
          | Some rest => Some (JNull, rest)
          | None => match strip "true" s with
          | Some rest => Some (JBool true, rest)
          | None => match strip "false" s with
          | Some rest => Some (JBool false, rest)
          | None => number s
          end end end
      end
  end
with parse_elems (fuel : nat) (s : string) : option (list json * string) :=
  match fuel with
  | O => None
  | S f =>
      match parse f s with
      | None => None
      | Some (j, rest) =>
          match strip "," (skip_ws rest) with
          | Some rest' => match parse_elems f rest' with
                          | Some (l, rest'') => Some (j :: l, rest'')
                          | None => None
                          end
          | None => match strip "]" (skip_ws rest) with
                    | Some rest' => Some ([j], rest')
                    | None => None
                    end
          end
      end
  end
with parse_members (fuel : nat) (s : string) : option (list (string * json) * string) :=
  match fuel with
  | O => None
  | S f =>
      match strip (String dquote "") (skip_ws s) with
      | None => None
      | Some s1 =>
      match unquote s1 with
      | None => None
      | Some (k, s2) =>
      match strip ":" (skip_ws s2) with
      | None => None
      | Some s3 =>
      match parse f s3 with
      | None => None
      | Some (j, rest) =>
          match strip "," (skip_ws rest) with
          | Some rest' => match parse_members f rest' with
                          | Some (l, rest'') => Some ((k, j) :: l, rest'')
                          | None => None
                          end
          | None => match strip "}" (skip_ws rest) with
                    | Some rest' => Some ([(k, j)], rest')
                    | None => None
                    end
          end
      end end end end
  end.

(** Arrays and objects nest at most [max_depth] deep. *)
Fixpoint json_depth (j : json) : N :=
  match j with
  | JArr l => 1 + foldr N.max 0 (map json_depth l)
  | JObj l => 1 + foldr N.max 0 (map (fun kv => json_depth kv.2) l)
  | _ => 0
  end.

Definition max_depth : N := 10000.

(** The first document of a stream, as [Decoder.Decode] reads it. *)
Definition parse_stream (s : string) : option (json * string) :=
  match parse (S (String.length s)) s with
  | Some (j, rest) => if json_depth j <=? max_depth then Some (j, rest) else None
  | None => None
  end.

(** [json.Unmarshal] reads one document and accepts only blanks after it. *)
Definition parse_document (s : string) : option json :=
  match parse_stream s with
  | Some (j, rest) => if decide (skip_ws rest = "") then Some j else None
  | None => None
  end.

End parsing.
