(* ===== verification/JsonFacts.v ===== *)
(** * The round trip of encoding/json

    [parse] reads back what [print] wrote, with every string as a reader
    sees it ([sanitize], the identity on valid UTF-8). *)

From Stdlib Require Import Ascii NArith Lia ZifyBool.
From S2P Require Import Prelude Bytes Json.

(** Decides a byte test from the byte tests of the context. *)
Ltac byte_lia :=
  unfold rune4, rune3, rune2, continuation, is_ascii, in_range in *; lia.

(** ** Strings *)

(** What [chunks] guarantees of each of its chunks. *)
Definition chunk_ok (c : chunk) : Prop :=
  match c with
  | CByte a => is_ascii a = true
  | CRune (String a (String b "")) => is_ascii a = false /\ rune2 a b = true
  | CRune (String a (String b (String c ""))) => is_ascii a = false /\ rune3 a b c = true
  | CRune (String a (String b (String c (String d "")))) =>
      is_ascii a = false /\ rune4 a b c d = true
  | CRune _ => False
  | CBad => True
  end.

(** One step of the decoder. *)
Lemma chunks_step s :
  (s = "" /\ chunks s = []) \/
  exists c rest, chunks s = c :: chunks rest /\ chunk_ok c
    /\ (c <> CBad -> s = chunk_text c +:+ rest)
    /\ String.length rest < String.length s.
Proof.
  destruct s as [|a r]; [by left|right]. cbn [chunks].
  destruct (is_ascii a) eqn:Ha.
  { exists (CByte a), r. repeat split; [done|simpl; lia]. }
  destruct r as [|b r2].
  { exists CBad, "". repeat split; [done|simpl; lia]. }
  destruct (rune2 a b) eqn:H2.
  { eexists (CRune (String a (String b ""))), r2. repeat split; auto. simpl; lia. }
  destruct r2 as [|c r3].
  { exists CBad, (String b ""). repeat split; [done|simpl; lia]. }
  destruct (rune3 a b c) eqn:H3.
  { eexists (CRune (String a (String b (String c "")))), r3.
    repeat split; auto. simpl; lia. }
  destruct r3 as [|d r4].
  { exists CBad, (String b (String c "")). repeat split; [done|simpl; lia]. }
  destruct (rune4 a b c d) eqn:H4.
  { eexists (CRune (String a (String b (String c (String d ""))))), r4.
    repeat split; auto. simpl; lia. }
  exists CBad, (String b (String c (String d r4))). repeat split; [done|simpl; lia].
Qed.

(** Induction along the decoder. *)
Lemma chunks_ind (P : string -> list chunk -> Prop) :
  P "" [] ->
  (forall s c rest, chunk_ok c -> (c <> CBad -> s = chunk_text c +:+ rest) ->
     P rest (chunks rest) -> P s (c :: chunks rest)) ->
  forall s, P s (chunks s).
Proof.
  intros Hnil Hcons s. remember (String.length s) as n eqn:Hn. revert s Hn.
  induction (lt_wf n) as [n _ IH]; intros s ->.
  destruct (chunks_step s) as [[-> ->]|(c & rest & -> & Hc & Hs & Hlt)]; [done|].
  apply Hcons; [done..|]. by eapply IH.
Qed.

Lemma chunks_ok s : Forall chunk_ok (chunks s).
Proof. apply (chunks_ind (fun _ l => Forall chunk_ok l)); auto. Qed.

Lemma sanitize_valid s : valid_utf8 s = true -> sanitize s = s.
Proof.
  unfold valid_utf8, sanitize.
  apply (chunks_ind (fun s l => forallb _ l = true -> foldr _ "" l = s)); [done|].
  intros s' c rest _ Hs IH Hv. simpl in Hv. apply andb_prop in Hv as [Hc Hv].
  simpl. rewrite IH by done. symmetry. apply Hs. by intros ->.
Qed.

Lemma unquote_rune s t :
  chunk_ok (CRune s) -> unquote (s +:+ t) = prepend s (unquote t).
Proof.
  intros H.
  destruct s as [|a [|b [|c [|d [|e r]]]]]; try done; destruct H as [Ha Hr];
    rewrite ?string_app_cons, string_app_nil_l; cbn [unquote].
  all: replace (in_range 34 34 a) with false by byte_lia.
  all: replace (in_range 92 92 a) with false by byte_lia.
  all: replace (N_of_ascii a <? 32)%N with false by byte_lia.
  all: rewrite Ha.
  - by rewrite Hr.
  - replace (rune2 a b) with false by byte_lia. by rewrite Hr.
  - replace (rune2 a b) with false by byte_lia.
    replace (rune3 a b c) with false by byte_lia. by rewrite Hr.
Qed.

Lemma unquote_ascii a t :
  is_ascii a = true -> unquote (escape_byte a +:+ t) = prepend (String a "") (unquote t).
Proof. destruct a as [[] [] [] [] [] [] [] []]; intros H; try discriminate H; reflexivity. Qed.

Lemma unquote_escape c t :
  chunk_ok c -> unquote (escape_chunk c +:+ t) = prepend (chunk_text c) (unquote t).
Proof.
  destruct c as [a|s|]; intros H.
  - by apply unquote_ascii.
  - simpl. unfold line_separator. repeat case_decide; subst; [reflexivity..|].
    by apply unquote_rune.
  - reflexivity.
Qed.

(** A printed string is read back as its sanitised self. *)
Lemma unquote_quote_body s rest :
  unquote (quote_body s +:+ String dquote rest) = Some (sanitize s, rest).
Proof.
  unfold quote_body, sanitize. pose proof (chunks_ok s) as H.
  induction H as [|c l Hc Hl IH]; cbn [foldr]; [reflexivity|].
  rewrite string_app_assoc, unquote_escape, IH by done. reflexivity.
Qed.

Lemma quote_app s rest :
  quote s +:+ rest = String dquote (quote_body s +:+ String dquote rest).
Proof. unfold quote. by rewrite string_app_cons, string_app_assoc. Qed.

(** ** Numbers *)

Lemma read_digits_char acc x r :
  (x < 10)%N -> read_digits acc (String (pretty_N_char x) r) = read_digits (acc * 10 + x)%N r.
Proof.
  intros Hx.
  assert (x = 0 \/ x = 1 \/ x = 2 \/ x = 3 \/ x = 4 \/ x = 5 \/ x = 6 \/ x = 7
          \/ x = 8 \/ x = 9)%N as Hcases by lia.
  by repeat destruct Hcases as [->|Hcases]; [..|rewrite Hcases].
Qed.

Lemma read_digits_go x r : read_digits 0 (pretty_N_go x r) = read_digits x r.
Proof.
  revert r. induction (N.lt_wf_0 x) as [x _ IH]; intros r.
  destruct (decide (x = 0%N)) as [->|Hx]; [done|].
  rewrite pretty_N_go_step by lia.
  rewrite IH by (apply N.div_lt; lia).
  rewrite read_digits_char by (by apply N.mod_lt).
  f_equal. rewrite (N.div_mod x 10) at 3 by done. lia.
Qed.

(** The decimal text of a positive number starts with a non-zero digit. *)
Lemma pretty_N_go_head x r :
  (0 < x)%N -> exists a r', pretty_N_go x r = String a r' /\ in_range 49 57 a = true.
Proof.
  revert r. induction (N.lt_wf_0 x) as [x _ IH]; intros r Hx.
  rewrite pretty_N_go_step by lia.
  destruct (decide (x < 10)%N) as [Hlt|Hge].
  - rewrite N.div_small, pretty_N_go_0, N.mod_small by done.
    eexists _, _. split; [done|].
    assert (x = 1 \/ x = 2 \/ x = 3 \/ x = 4 \/ x = 5 \/ x = 6 \/ x = 7
            \/ x = 8 \/ x = 9)%N as Hcases by lia.
    by repeat destruct Hcases as [->|Hcases]; [..|rewrite Hcases].
  - apply IH; [apply N.div_lt; lia|apply N.div_str_pos; lia].
Qed.

(** The text does not go on with a digit. *)
Definition no_digit (s : string) : bool :=
  match s with String a _ => negb (is_digit a) | EmptyString => true end.

Lemma number_end_no_digit rest : number_end rest = true -> no_digit rest = true.
Proof. destruct rest as [|a r]; [done|]. simpl. by destruct (is_digit a). Qed.

Lemma read_digits_end n rest : no_digit rest = true -> read_digits n rest = (n, rest).
Proof. destruct rest as [|a r]; [done|]. simpl. by destruct (is_digit a). Qed.

Lemma pretty_N_go_app x r rest :
  pretty_N_go x r +:+ rest = pretty_N_go x (r +:+ rest).
Proof.
  revert r. induction (N.lt_wf_0 x) as [x _ IH]; intros r.
  destruct (decide (x = 0%N)) as [->|Hx]; [done|].
  rewrite !(pretty_N_go_step x) by lia.
  by rewrite IH by (apply N.div_lt; lia).
Qed.

Lemma read_digits_pretty x rest :
  no_digit rest = true -> read_digits 0 (pretty x +:+ rest) = (x, rest).
Proof.
  intros Hr. unfold pretty, pretty_N. case_decide as Hx; subst.
  { rewrite string_app_cons, string_app_nil_l. simpl. by apply read_digits_end. }
  by rewrite pretty_N_go_app, string_app_nil_l, read_digits_go, read_digits_end.
Qed.

Lemma read_nat_pretty x rest :
  no_digit rest = true -> read_nat (pretty x +:+ rest) = Some (x, rest).
Proof.
  intros Hr. pose proof (read_digits_pretty x rest Hr) as Hd. revert Hd.
  unfold pretty, pretty_N. case_decide as Hx; subst; [done|].
  rewrite pretty_N_go_app, string_app_nil_l.
  destruct (pretty_N_go_head x rest) as (a & r' & E & Ha); [lia|].
  unfold read_nat. rewrite E. intros Hd.
  replace (in_range 48 48 a) with false by byte_lia.
  replace (is_digit a) with true by (unfold is_digit; byte_lia). by rewrite Hd.
Qed.

(** The decimal text of a natural number is digits. *)
Lemma pretty_N_head (n : N) : exists a r, pretty n = String a r /\ is_digit a = true.
Proof.
  unfold pretty, pretty_N. case_decide as Hn; [by eexists _, _|].
  destruct (pretty_N_go_head n "") as (a & r & E & Ha); [lia|].
  exists a, r. split; [done|]. unfold is_digit. byte_lia.
Qed.

Definition sign_of (z : Z) : Z := if decide (z < 0)%Z then (-1)%Z else 1%Z.

Lemma sign_of_abs z : (sign_of z * Z.of_N (Z.abs_N z))%Z = z.
Proof. unfold sign_of. case_decide; lia. Qed.

(** The text of an integer: a minus sign for the negative ones, then digits. *)
Lemma pretty_Z_cases (z : Z) :
  (sign_of z = (-1)%Z /\ pretty z = String "-" (pretty (Z.abs_N z)))
  \/ (sign_of z = 1%Z /\ pretty z = pretty (Z.abs_N z)).
Proof. by destruct z; [right|right|left]. Qed.

Lemma strip_digit p a r : is_digit a = true -> is_digit p = false -> strip (String p "") (String a r) = None.
Proof. intros Ha Hp. cbn [strip]. case_decide; [congruence|done]. Qed.

Lemma number_pretty_app z t :
  number (pretty z +:+ t) = read_number (sign_of z) (pretty (Z.abs_N z) +:+ t).
Proof.
  unfold number. destruct (pretty_Z_cases z) as [[-> ->]|[-> ->]]; [done|].
  destruct (pretty_N_head (Z.abs_N z)) as (a & r & -> & Ha). rewrite string_app_cons.
  by rewrite strip_digit.
Qed.

Lemma read_fraction_none n rest :
  number_end rest = true \/ (exists r, rest = String "e" r) ->
  read_fraction n rest = Some (n, O, rest).
Proof.
  unfold read_fraction. intros [Hr|[r ->]]; [|done]. destruct rest as [|a r]; [done|].
  cbn [strip]. case_decide as Ha; [by subst a|done].
Qed.

Lemma read_exponent_none rest : number_end rest = true -> read_exponent rest = Some (None, rest).
Proof.
  destruct rest as [|a r]; [done|]. simpl. intros H.
  replace (in_range 101 101 a || in_range 69 69 a) with false; [done|].
  destruct (in_range 101 101 a), (in_range 69 69 a), (is_digit a), (in_range 46 46 a); done.
Qed.

Lemma read_exponent_pretty (e : Z) rest :
  no_digit rest = true -> read_exponent ("e" +:+ (pretty e +:+ rest)) = Some (Some e, rest).
Proof.
  intros Hr. rewrite string_app_cons, string_app_nil_l. cbn [read_exponent].
  change (in_range 101 101 "e" || in_range 69 69 "e") with true. cbv iota.
  assert (read_sign (pretty e +:+ rest) = (sign_of e, pretty (Z.abs_N e) +:+ rest)) as ->.
  { destruct (pretty_Z_cases e) as [[-> ->]|[-> ->]]; [done|].
    destruct (pretty_N_head (Z.abs_N e)) as (a & r & -> & Ha). rewrite string_app_cons.
    unfold read_sign. unfold is_digit in Ha.
    replace (in_range 43 43 a) with false by byte_lia.
    by replace (in_range 45 45 a) with false by byte_lia. }
  rewrite read_digits_pretty by done. rewrite string_length_app.
  destruct (pretty_N_head (Z.abs_N e)) as (a & r & Ep & _).
  replace (_ <? _) with true; [by rewrite sign_of_abs|].
  symmetry. apply Nat.ltb_lt. rewrite Ep. simpl. lia.
Qed.

Lemma number_pretty z rest :
  number_end rest = true -> number (pretty z +:+ rest) = Some (JNum z, rest).
Proof.
  intros Hr. rewrite number_pretty_app. unfold read_number.
  rewrite read_nat_pretty, read_fraction_none, read_exponent_none
    by auto using number_end_no_digit.
  simpl. by rewrite sign_of_abs.
Qed.

Lemma number_decimal m e rest :
  number_end rest = true ->
  number (pretty m +:+ ("e" +:+ (pretty e +:+ rest))) = Some (JDec m e, rest).
Proof.
  intros Hr. rewrite number_pretty_app. unfold read_number.
  rewrite read_nat_pretty, read_fraction_none, read_exponent_pretty
    by eauto using number_end_no_digit.
  simpl. rewrite sign_of_abs. do 3 f_equal. lia.
Qed.

(** ** Documents *)

(** What a reader of [print j] gets: every string sanitised. *)
Fixpoint sanitize_json (j : json) : json :=
  match j with
  | JStr s => JStr (sanitize s)
  | JArr l => JArr (sanitize_json <$> l)
  | JObj l => JObj ((fun kv => (sanitize kv.1, sanitize_json kv.2)) <$> l)
  | _ => j
  end.

(** Fuel that [parse] needs for [print j]. *)
Fixpoint cost (j : json) : nat :=
  match j with
  | JArr l => 1 + sum_list ((fun x => 1 + cost x) <$> l)
  | JObj l => 1 + sum_list ((fun kv => 1 + cost kv.2) <$> l)
  | _ => 1
  end.

Section json_induction.
Variable P : json -> Prop.
Hypothesis Hnull : P JNull.
Hypothesis Hbool : forall b, P (JBool b).
Hypothesis Hnum : forall z, P (JNum z).
Hypothesis Hdec : forall m e, P (JDec m e).
Hypothesis Hstr : forall s, P (JStr s).
Hypothesis Harr : forall l, Forall P l -> P (JArr l).
Hypothesis Hobj : forall l, Forall (fun kv => P kv.2) l -> P (JObj l).

Fixpoint json_nested_ind (j : json) : P j :=
  match j with
  | JNull => Hnull
  | JBool b => Hbool b
  | JNum z => Hnum z
  | JDec m e => Hdec m e
  | JStr s => Hstr s
  | JArr l => Harr l (list_ind (Forall P) (Forall_nil_2 P)
      (fun x _ IH => Forall_cons_2 P _ _ (json_nested_ind x) IH) l)
  | JObj l => Hobj l (list_ind (Forall (fun kv => P kv.2)) (Forall_nil_2 _)
      (fun kv _ IH => Forall_cons_2 (fun kv => P kv.2) _ _ (json_nested_ind kv.2) IH) l)
  end.
End json_induction.

(** The first byte of a printed document: not a blank, not a closing
    bracket. *)
Definition head_byte (a : ascii) : bool :=
  negb (is_space a || in_range 93 93 a || in_range 125 125 a).

Lemma pretty_Z_head (z : Z) :
  exists a r, pretty z = String a r /\ is_digit a || in_range 45 45 a = true.
Proof.
  destruct (pretty_Z_cases z) as [[_ ->]|[_ ->]]; [by eexists _, _|].
  destruct (pretty_N_head (Z.abs_N z)) as (a & r & -> & Ha). eexists _, _. by rewrite Ha.
Qed.

Lemma digit_head_byte a : is_digit a || in_range 45 45 a = true -> head_byte a = true.
Proof. unfold head_byte, is_space, is_digit in *. intros H. byte_lia. Qed.

Lemma print_head j : exists a r, print j = String a r /\ head_byte a = true.
Proof.
  destruct j as [|[]|z|m e|s|l|l]; simpl; try (eexists _, _; split; reflexivity).
  - destruct (pretty_Z_head z) as (a & r & -> & Ha). eauto using digit_head_byte.
  - destruct (pretty_Z_head m) as (a & r & -> & Ha). rewrite string_app_cons.
    eauto using digit_head_byte.
Qed.

Lemma skip_ws_id a r : is_space a = false -> skip_ws (String a r) = String a r.
Proof. intros H. simpl. by rewrite H. Qed.

Lemma strip_app p s : strip p (p +:+ s) = Some s.
Proof.
  induction p as [|a p IH]; [done|]. rewrite string_app_cons. cbn [strip].
  by rewrite decide_True.
Qed.

Lemma head_skip a r : head_byte a = true -> skip_ws (String a r) = String a r.
Proof. unfold head_byte. intros H. apply skip_ws_id. destruct (is_space a); done. Qed.

Lemma head_not_closing a r :
  head_byte a = true ->
  strip "]" (skip_ws (String a r)) = None /\ strip "}" (skip_ws (String a r)) = None.
Proof.
  intros H. rewrite head_skip by done.
  by destruct a as [[] [] [] [] [] [] [] []].
Qed.

Lemma skip_ws_print j rest : skip_ws (print j +:+ rest) = print j +:+ rest.
Proof.
  destruct (print_head j) as (a & r & -> & Ha). rewrite string_app_cons. by apply head_skip.
Qed.

Lemma join_cons sep x l :
  join sep (x :: l) = match l with [] => x | _ => x +:+ (sep +:+ join sep l) end.
Proof. by destruct l. Qed.

(** A digit or a minus sign sends [parse] to [number]. *)
Lemma parse_number f s a r :
  s = String a r -> is_digit a || in_range 45 45 a = true -> parse (S f) s = number s.
Proof.
  intros -> Ha. cbn [parse].
  rewrite head_skip by (by apply digit_head_byte). revert Ha.
  destruct a as [[] [] [] [] [] [] [] []]; intros Ha; try discriminate Ha; reflexivity.
Qed.

Lemma parse_JNum f z rest :
  number_end rest = true -> parse (S f) (print (JNum z) +:+ rest) = Some (JNum z, rest).
Proof.
  intros Hr. rewrite <-(number_pretty z rest Hr). simpl print.
  destruct (pretty_Z_head z) as (a & r & E & Ha).
  rewrite E, string_app_cons. by eapply parse_number.
Qed.

Lemma parse_JDec f m e rest :
  number_end rest = true ->
  parse (S f) (print (JDec m e) +:+ rest) = Some (JDec m e, rest).
Proof.
  intros Hr. rewrite <-(number_decimal m e rest Hr). simpl print.
  destruct (pretty_Z_head m) as (a & r & E & Ha).
  rewrite !string_app_assoc, E, string_app_cons. by eapply parse_number.
Qed.

Lemma parse_JStr f s rest :
  parse (S f) (quote s +:+ rest) = Some (JStr (sanitize s), rest).
Proof.
  rewrite quote_app. cbn [parse]. rewrite skip_ws_id by done.
  cbn [in_range]. change (in_range 34 34 dquote) with true. cbv iota.
  by rewrite unquote_quote_body.
Qed.

Definition parses (j : json) : Prop := forall f rest,
  cost j <= f -> number_end rest = true ->
  parse f (print j +:+ rest) = Some (sanitize_json j, rest).

Lemma parse_elems_print l f rest :
  l <> [] -> Forall parses l -> sum_list ((fun x => 1 + cost x) <$> l) <= f ->
  parse_elems f (join "," (print <$> l) +:+ ("]" +:+ rest))
  = Some (sanitize_json <$> l, rest).
Proof.
  intros Hne HP. revert f Hne.
  induction HP as [|x l Hx Hl IH]; intros f Hne Hf; [done|].
  destruct f as [|f]; [simpl in Hf; lia|].
  change (S (cost x) + sum_list ((fun x => 1 + cost x) <$> l) <= S f) in Hf.
  rewrite fmap_cons, join_cons. cbn [parse_elems]. destruct l as [|y l].
  - cbn [fmap list_fmap]. rewrite Hx by (auto; lia).
    change (strip "," (skip_ws ("]" +:+ rest))) with (@None string).
    change (skip_ws ("]" +:+ rest)) with ("]" +:+ rest). by rewrite strip_app.
  - rewrite fmap_cons at 1. rewrite !string_app_assoc.
    rewrite Hx by (auto; lia).
    change (skip_ws ("," +:+ ?t)) with ("," +:+ t). rewrite strip_app.
    rewrite IH by (done || lia). done.
Qed.

Lemma parse_members_print l f rest :
  l <> [] -> Forall (fun kv => parses kv.2) l ->
  sum_list ((fun kv => 1 + cost kv.2) <$> l) <= f ->
  parse_members f
    (join "," ((fun kv => quote kv.1 +:+ (":" +:+ print kv.2)) <$> l) +:+ ("}" +:+ rest))
  = Some ((fun kv => (sanitize kv.1, sanitize_json kv.2)) <$> l, rest).
Proof.
  intros Hne HP. revert f Hne.
  induction HP as [|[k x] l Hx Hl IH]; intros f Hne Hf; [done|].
  destruct f as [|f]; [simpl in Hf; lia|]. simpl in Hx.
  change (S (cost x) + sum_list ((fun kv => 1 + cost kv.2) <$> l) <= S f) in Hf.
  rewrite fmap_cons, join_cons. cbn [parse_members]. destruct l as [|y l].
  - cbn [fmap list_fmap fst snd]. rewrite !string_app_assoc, quote_app, skip_ws_id by done.
    change (strip (String dquote "") (String dquote ?t)) with (Some t). cbv iota beta.
    rewrite unquote_quote_body.
    change (skip_ws (":" +:+ ?t)) with (":" +:+ t). rewrite strip_app.
    rewrite Hx by (auto; lia).
    change (strip "," (skip_ws ("}" +:+ rest))) with (@None string).
    change (skip_ws ("}" +:+ rest)) with ("}" +:+ rest). by rewrite strip_app.
  - rewrite fmap_cons at 1. cbn [fst snd]. rewrite !string_app_assoc, quote_app, skip_ws_id by done.
    change (strip (String dquote "") (String dquote ?t)) with (Some t). cbv iota beta.
    rewrite unquote_quote_body.
    change (skip_ws (":" +:+ ?t)) with (":" +:+ t). rewrite strip_app.
    rewrite Hx by (auto; lia).
    change (skip_ws ("," +:+ ?t)) with ("," +:+ t). rewrite strip_app.
    rewrite IH by (done || lia). done.
Qed.

Lemma parse_print j : parses j.
Proof.
  induction j as [|b|z|m e|s|l IH|l IH] using json_nested_ind; intros [|f] rest Hf Hr;
    try (simpl in Hf; lia).
  - reflexivity.
  - by destruct b.
  - by apply parse_JNum.
  - by apply parse_JDec.
  - apply parse_JStr.
  - destruct l as [|x l]; [reflexivity|].
    change (print (JArr (x :: l))) with ("[" +:+ (join "," (print <$> x :: l) +:+ "]")).
    rewrite !string_app_assoc, string_app_cons, string_app_nil_l. cbn [parse].
    rewrite skip_ws_id by done. change (in_range 34 34 "[") with false.
    change (in_range 91 91 "[") with true. cbv iota.
    destruct (print_head x) as (a & r & Ex & Ha).
    rewrite parse_elems_print by (done || (simpl in *; lia)).
    rewrite fmap_cons, join_cons, Ex.
    destruct l; rewrite ?fmap_cons; cbn [fmap list_fmap];
      rewrite !string_app_cons, (proj1 (head_not_closing _ _ Ha)); done.
  - destruct l as [|[k x] l]; [reflexivity|].
    change (print (JObj ((k, x) :: l))) with
      ("{" +:+ (join "," ((fun kv => quote kv.1 +:+ (":" +:+ print kv.2)) <$> (k, x) :: l)
                +:+ "}")).
    rewrite !string_app_assoc, string_app_cons, string_app_nil_l. cbn [parse].
    rewrite skip_ws_id by done. change (in_range 34 34 "{") with false.
    change (in_range 91 91 "{") with false. change (in_range 123 123 "{") with true.
    cbv iota.
    rewrite parse_members_print by (done || (simpl in *; lia)).
    rewrite fmap_cons, join_cons.
    destruct l; rewrite ?fmap_cons; cbn [fmap list_fmap fst snd];
      rewrite !string_app_assoc, quote_app; reflexivity.
Qed.

(** [parse_document] never runs out of fuel on a printed document. *)
Lemma length_join_le {A} (f : A -> string) (c : A -> nat) (l : list A) :
  Forall (fun x => c x <= String.length (f x)) l ->
  sum_list ((fun x => 1 + c x) <$> l) <= S (String.length (join "," (f <$> l))).
Proof.
  induction 1 as [|x l Hx Hl IH]; [simpl; lia|].
  change (S (c x) + sum_list ((fun x => 1 + c x) <$> l)
    <= S (String.length (join "," (f x :: (f <$> l))))).
  rewrite join_cons. destruct l as [|y l]; [simpl; lia|].
  rewrite !fmap_cons in *. cbv iota. rewrite !string_length_app.
  change (String.length ",") with 1. simpl sum_list in *. lia.
Qed.

Lemma cost_le_length j : cost j <= String.length (print j).
Proof.
  induction j as [|b|z|m e|s|l IH|l IH] using json_nested_ind.
  - simpl; lia.
  - destruct b; simpl; lia.
  - destruct (print_head (JNum z)) as (a & r & -> & _). simpl; lia.
  - destruct (print_head (JDec m e)) as (a & r & -> & _). simpl; lia.
  - simpl; lia.
  - change (print (JArr l)) with ("[" +:+ (join "," (print <$> l) +:+ "]")).
    apply (length_join_le print cost) in IH. rewrite !string_length_app. simpl in *. lia.
  - change (print (JObj l)) with
      ("{" +:+ (join "," ((fun kv => quote kv.1 +:+ (":" +:+ print kv.2)) <$> l) +:+ "}")).
    assert (sum_list ((fun kv => 1 + cost kv.2) <$> l) <=
      S (String.length (join ","
        ((fun kv => quote kv.1 +:+ (":" +:+ print kv.2)) <$> l)))) as Hle.
    { apply (length_join_le (fun kv : string * json => quote kv.1 +:+ (":" +:+ print kv.2))
        (fun kv => cost kv.2)).
      refine (List.Forall_impl _ _ IH). intros [k x]. cbn [fst snd].
      rewrite !string_length_app. lia. }
    rewrite !string_length_app. simpl in *. lia.
Qed.

(** The fuel of [parse_document] is enough for a printed document. *)
Lemma parse_whole j tail :
  number_end tail = true ->
  parse (S (String.length (print j +:+ tail))) (print j +:+ tail) = Some (sanitize_json j, tail).
Proof.
  intros Hend. apply parse_print; [|done].
  rewrite string_length_app. pose proof (cost_le_length j). lia.
Qed.

Lemma sanitize_json_depth j : json_depth (sanitize_json j) = json_depth j.
Proof.
  induction j as [|b|z|m e|s|l IH|l IH] using json_nested_ind; try done;
    cbn [sanitize_json json_depth]; change (map ?f ?l) with (f <$> l);
    rewrite <-list_fmap_compose; do 2 f_equal; by apply Forall_fmap_ext_1.
Qed.

Lemma depth_arr_le l n :
  Forall (fun j => (json_depth j <= n)%N) l -> (json_depth (JArr l) <= 1 + n)%N.
Proof. intros H. cbn [json_depth]. induction H; simpl in *; lia. Qed.

Lemma depth_obj_le l n :
  Forall (fun kv => (json_depth kv.2 <= n)%N) l -> (json_depth (JObj l) <= 1 + n)%N.
Proof. intros H. cbn [json_depth]. induction H; simpl in *; lia. Qed.

(** [Decoder.Decode] of what [json.Marshal] (or [Encoder.Encode], which adds
    a newline) wrote; [json.Unmarshal] of it. *)
Lemma parse_stream_print j tail :
  (json_depth j <= max_depth)%N -> number_end tail = true ->
  parse_stream (print j +:+ tail) = Some (sanitize_json j, tail).
Proof.
  intros Hd Hend. unfold parse_stream.
  by rewrite parse_whole, sanitize_json_depth, (proj2 (N.leb_le _ _) Hd).
Qed.

Lemma parse_document_print j tail :
  (json_depth j <= max_depth)%N -> skip_ws tail = "" -> number_end tail = true ->
  parse_document (print j +:+ tail) = Some (sanitize_json j).
Proof.
  intros Hd Htail Hend. unfold parse_document.
  by rewrite parse_stream_print, decide_True.
Qed.

(** Every string of a document is valid UTF-8. *)
Fixpoint json_valid (j : json) : bool :=
  match j with
  | JStr s => valid_utf8 s
  | JArr l => forallb json_valid l
  | JObj l => forallb (fun kv => valid_utf8 kv.1 && json_valid kv.2) l
  | _ => true
  end.

Lemma sanitize_json_valid j : json_valid j = true -> sanitize_json j = j.
Proof.
  induction j as [|b|z|m e|s|l IH|l IH] using json_nested_ind; intros Hv; try done.
  - simpl. by rewrite sanitize_valid.
  - change (JArr (sanitize_json <$> l) = JArr l). f_equal.
    induction IH as [|x l Hx _ IHl]; [done|].
    simpl in Hv. apply andb_prop in Hv as [? ?]. rewrite fmap_cons. f_equal; auto.
  - change (JObj ((fun kv => (sanitize kv.1, sanitize_json kv.2)) <$> l) = JObj l). f_equal.
    induction IH as [|[k x] l Hx _ IHl]; [done|].
    simpl in Hv. apply andb_prop in Hv as [[? ?]%andb_prop ?].
    rewrite fmap_cons. simpl in *. rewrite sanitize_valid by done. f_equal; [f_equal|]; auto.
Qed.

(** On valid UTF-8 the printed text determines the document. *)
Lemma print_inj j1 j2 :
  json_valid j1 = true -> json_valid j2 = true -> print j1 = print j2 -> j1 = j2.
Proof.
  intros H1 H2 Heq.
  pose proof (parse_whole j1 "" eq_refl) as P1. pose proof (parse_whole j2 "" eq_refl) as P2.
  rewrite Heq, P2, !sanitize_json_valid in P1 by done. congruence.
Qed.
