(* ===== verification/Codec.v ===== *)
(** * Marshalling Go values: the interface between data and JSON text

    [JsonCodec A] is what a Go type offers to [json.Marshal] and
    [json.Unmarshal]; [RoundTrips A ok] is the promise its clients rely on:
    an [ok] value is written and read back unchanged.  The storage, the Raft
    log and the hash functions are written against this interface, and the
    types of the program (HashEntry, MerkleCheckpoint, LogEntry, ...)
    discharge it in their own files.  [Unmarshal] decodes a struct member by
    member: a member whose name is a field's up to letter case is stored in
    that field, [null] leaves the field as it is (and clears a map), several
    members of one field are stored in turn (into a map: added to it), and a
    value of another JSON type is an error.  A field no member names keeps
    its zero value. *)

From Stdlib Require Import Ascii NArith.

From S2P Require Import Prelude Bytes Json JsonFacts.

Class JsonCodec (A : Type) := {
  to_json : A -> result json;
  of_json : json -> result A
}.

Class RoundTrips (A : Type) `{!JsonCodec A} (ok : A -> Prop) :=
  round_trips : forall a, ok a ->
    exists j, to_json a = Ok j /\ (json_depth j <= max_depth)%N
      /\ of_json (sanitize_json j) = Ok a.

Definition Marshal `{JsonCodec A} (a : A) : result string := print <$> to_json a.

Definition Unmarshal `{JsonCodec A} (s : string) : result A :=
  match parse_document s with
  | Some j => of_json j
  | None => Err (External "invalid JSON")
  end.

Lemma Unmarshal_Marshal `{RoundTrips A ok} (a : A) :
  ok a -> exists s, Marshal a = Ok s /\ Unmarshal s = Ok a.
Proof.
  intros Ha. destruct (round_trips a Ha) as (j & Hto & Hd & Hof).
  exists (print j). unfold Marshal, Unmarshal. rewrite Hto. split; [done|].
  rewrite <-(string_app_nil_r (print j)).
  by rewrite parse_document_print.
Qed.

(** ** Fields of a struct *)

(** [foldName]: letters are compared without regard to case.  Two runes
    beyond ASCII fold to an ASCII letter: U+017F to s, U+212A to k. *)
Definition upper (a : ascii) : ascii :=
  if in_range 97 122 a then ascii_of_N (N_of_ascii a - 32) else a.

Definition long_s : string := String (ascii_of_N 197) (String (ascii_of_N 191) "").
Definition kelvin : string :=
  String (ascii_of_N 226) (String (ascii_of_N 132) (String (ascii_of_N 170) "")).

Definition fold_chunk (c : chunk) : string :=
  match c with
  | CByte a => String (upper a) ""
  | CRune s => if decide (s = long_s) then "S" else if decide (s = kelvin) then "K" else s
  | CBad => replacement
  end.

Definition foldName (s : string) : string := foldr (fun c t => fold_chunk c +:+ t) "" (chunks s).

(** The field names of the program's structs are lower-case ASCII, and no two
    of a struct are equal up to case. *)
Definition same_name (key name : string) : bool := String.eqb (foldName key) (foldName name).

(** The values of the members that are stored in a field. *)
Definition field (name : string) (l : list (string * json)) : list json :=
  snd <$> filter (fun kv => same_name kv.1 name = true) l.

Lemma field_nil name : field name [] = [].
Proof. done. Qed.

Lemma field_app name l1 l2 : field name (l1 ++ l2) = field name l1 ++ field name l2.
Proof. unfold field. by rewrite filter_app, fmap_app. Qed.

Lemma field_cons name k v l :
  field name ((k, v) :: l) = if same_name k name then v :: field name l else field name l.
Proof.
  unfold field. rewrite filter_cons. simpl.
  destruct (same_name k name) eqn:E; [by rewrite decide_True|by rewrite decide_False].
Qed.

(** Reads the fields of a literal object. *)
Ltac same_names :=
  repeat match goal with
  | |- context [same_name ?k ?n] =>
      let b := eval vm_compute in (same_name k n) in change (same_name k n) with b
  end.

Ltac json_fields := rewrite ?field_app, ?field_cons, ?field_nil; same_names; cbv iota.

Definition members (j : json) : result (list (string * json)) :=
  match j with
  | JObj l => Ok l
  | JNull => Ok []
  | _ => Err (External "cannot unmarshal into Go struct")
  end.

(** Stores values one after the other in a variable of value [zero]. *)
Definition store_all {A} (store : A -> json -> result A) (zero : A) (vs : list json) : result A :=
  foldl (fun r v => r ≫= fun a => store a v) (Ok zero) vs.

Lemma store_all_one {A} (store : A -> json -> result A) zero v :
  store_all store zero [v] = store zero v.
Proof. done. Qed.

Definition store_string (a : string) (v : json) : result string :=
  match v with
  | JStr s => Ok s
  | JNull => Ok a
  | _ => Err (External "cannot unmarshal into Go value of type string")
  end.

Definition store_uint64 (a : N) (v : json) : result N :=
  match v with
  | JNum z =>
      if decide (0 <= z < 2 ^ 64)%Z then Ok (Z.to_N z)
      else Err (External "cannot unmarshal number into Go value of type uint64")
  | JNull => Ok a
  | _ => Err (External "cannot unmarshal into Go value of type uint64")
  end.

Definition store_int (a : Z) (v : json) : result Z :=
  match v with
  | JNum z =>
      if decide (- 2 ^ 63 <= z < 2 ^ 63)%Z then Ok z
      else Err (External "cannot unmarshal number into Go value of type int")
  | JNull => Ok a
  | _ => Err (External "cannot unmarshal into Go value of type int")
  end.

Definition string_of_json : list json -> result string := store_all store_string "".
Definition uint64_of_json : list json -> result N := store_all store_uint64 0%N.
Definition int_of_json : list json -> result Z := store_all store_int 0%Z.

(** A store that does not panic makes a decoder that does not. *)
Lemma store_all_no_panic {A} (store : A -> json -> result A) zero vs w :
  (forall a v w, store a v <> Panic w) -> store_all store zero vs <> Panic w.
Proof.
  intros Hs. unfold store_all.
  assert (forall r, (forall w, r <> Panic w) ->
    foldl (fun r v => r ≫= fun a => store a v) r vs <> Panic w) as H; [|by apply H].
  induction vs as [|v vs IH]; intros r Hr; [apply Hr|].
  apply IH. intros w'. destruct r as [a|e|w'']; [apply Hs|done|by destruct (Hr w'')].
Qed.

(** ** map[string]string *)

(** encoding/json writes the keys in ascending order. *)
Definition sorted_pairs (m : gmap string string) : list (string * string) :=
  (fun k => (k, default "" (m !! k))) <$> sort_strings (elements (dom m)).

Definition json_of_map (m : gmap string string) : json :=
  JObj ((fun kv => (kv.1, JStr kv.2)) <$> sorted_pairs m).

Fixpoint map_of_members (l : list (string * json)) (m : gmap string string)
    : result (gmap string string) :=
  match l with
  | [] => Ok m
  | (k, v) :: l' =>
      match store_string "" v with
      | Ok s => map_of_members l' (<[k := s]> m)
      | Err e => Err e
      | Panic w => Panic w
      end
  end.

Definition store_map (m : gmap string string) (v : json) : result (gmap string string) :=
  match v with
  | JObj l => map_of_members l m
  | JNull => Ok ∅
  | _ => Err (External "cannot unmarshal into Go value of type map[string]string")
  end.

Definition map_of_json : list json -> result (gmap string string) := store_all store_map ∅.

#[export] Instance map_codec : JsonCodec (gmap string string) :=
  {| to_json m := Ok (json_of_map m); of_json j := map_of_json [j] |}.

(** Keys and values are valid UTF-8. *)
Definition map_valid (m : gmap string string) : Prop :=
  map_Forall (fun k v => valid_utf8 k = true /\ valid_utf8 v = true) m.

#[export] Instance map_valid_dec m : Decision (map_valid m).
Proof. unfold map_valid. apply _. Defined.

Lemma elem_of_sorted_pairs k v m : (k, v) ∈ sorted_pairs m <-> m !! k = Some v.
Proof.
  unfold sorted_pairs. rewrite list_elem_of_fmap. split.
  - intros (k' & [= -> ->] & Hk).
    rewrite elem_of_sort_strings, elem_of_elements, elem_of_dom in Hk.
    by destruct Hk as [v ->].
  - intros Hv. exists k. rewrite Hv. split; [done|].
    rewrite elem_of_sort_strings, elem_of_elements. by apply elem_of_dom_2 in Hv.
Qed.

Lemma sorted_pairs_fst m : (sorted_pairs m).*1 = sort_strings (elements (dom m)).
Proof.
  unfold sorted_pairs. rewrite <-list_fmap_compose.
  transitivity (id <$> sort_strings (elements (dom m))); [done|]. apply list_fmap_id.
Qed.

Lemma NoDup_sorted_pairs m : NoDup (sorted_pairs m).*1.
Proof. rewrite sorted_pairs_fst, sort_strings_perm. apply NoDup_elements. Qed.

Lemma list_to_map_sorted_pairs m : list_to_map (sorted_pairs m) = m.
Proof.
  apply map_eq. intros k. apply option_eq. intros v.
  rewrite <-elem_of_list_to_map by apply NoDup_sorted_pairs. apply elem_of_sorted_pairs.
Qed.

Lemma sorted_pairs_inj m1 m2 : sorted_pairs m1 = sorted_pairs m2 -> m1 = m2.
Proof. intros H. by rewrite <-(list_to_map_sorted_pairs m1), H, list_to_map_sorted_pairs. Qed.

Lemma map_of_members_strings l m :
  NoDup l.*1 -> (forall k v, (k, v) ∈ l -> m !! k = None) ->
  map_of_members ((fun kv => (kv.1, JStr kv.2)) <$> l) m = Ok (list_to_map l ∪ m).
Proof.
  revert m. induction l as [|[k v] l IH]; intros m Hnd Hfresh.
  { simpl. by rewrite (left_id_L ∅ (∪)). }
  rewrite fmap_cons in Hnd. apply NoDup_cons in Hnd as [Hk Hnd]. simpl in Hk.
  rewrite fmap_cons. cbn [map_of_members store_string fst snd]. rewrite IH; [|done|].
  - f_equal. rewrite list_to_map_cons.
    rewrite <-insert_union_l, <-insert_union_r; [done|].
    by apply not_elem_of_list_to_map.
  - intros k' v' Hin. rewrite lookup_insert_ne; [by eapply Hfresh, list_elem_of_further|].
    intros <-. apply Hk. apply list_elem_of_fmap. by exists (k, v').
Qed.

Lemma map_of_json_of_map m : map_of_json [json_of_map m] = Ok m.
Proof.
  unfold map_of_json. rewrite store_all_one. simpl. rewrite map_of_members_strings.
  - by rewrite list_to_map_sorted_pairs, (right_id_L ∅ (∪)).
  - apply NoDup_sorted_pairs.
  - intros. apply lookup_empty.
Qed.

Lemma json_of_map_depth m : (json_depth (json_of_map m) <= 1)%N.
Proof.
  apply (depth_obj_le _ 0), Forall_fmap. by apply Forall_true.
Qed.

Lemma json_of_map_valid m : map_valid m -> json_valid (json_of_map m) = true.
Proof.
  intros Hm. simpl. apply forallb_forall. intros [k j] Hin%list_elem_of_In.
  apply list_elem_of_fmap in Hin as ([k' v] & [= -> ->] & Hin).
  apply elem_of_sorted_pairs in Hin. destruct (Hm _ _ Hin) as [Hk Hv]. simpl.
  by rewrite Hk, Hv.
Qed.

#[export] Instance map_round_trips : RoundTrips (gmap string string) map_valid.
Proof.
  intros m Hm. eexists. split; [done|]. split; [by transitivity 1%N; [apply json_of_map_depth|]|].
  rewrite sanitize_json_valid by (by apply json_of_map_valid). apply map_of_json_of_map.
Qed.

(** The JSON text of a map determines it. *)
Lemma print_map_inj m1 m2 :
  map_valid m1 -> map_valid m2 ->
  print (json_of_map m1) = print (json_of_map m2) -> m1 = m2.
Proof.
  intros H1 H2 Heq.
  apply print_inj in Heq; [|by apply json_of_map_valid..].
  assert (Ok m1 = Ok m2) as [=] by (rewrite <-!map_of_json_of_map; congruence). done.
Qed.
