(* ===== verification/Sha256.v ===== *)
(** * crypto/sha256

    [Sum256], executable: FIPS 180-4 on byte strings.  It is the program's
    default hash function, so the witnesses of this development compute real
    digests.  The two published test vectors at the end check it. *)

From S2P Require Import Prelude Bytes.

Local Open Scope N_scope.

Definition w32 (n : N) : N := N.land n 4294967295.
Definition add32 (a b : N) : N := w32 (a + b).
Definition rotr (x n : N) : N := N.lor (N.shiftr x n) (w32 (N.shiftl x (32 - n))).

(** The standard derives its constants from the primes: the first 32 bits
    after the point of the cube roots of the first 64 of them, and of the
    square roots of the first eight. *)
Definition is_prime (n : N) : bool :=
  forallb (fun d => negb (n mod N.of_nat d =? 0)) (seq 2 (N.to_nat n - 2)).

Definition first_primes (count : nat) : list N :=
  take count (filter (fun n => Is_true (is_prime n)) (N.of_nat <$> seq 2 320)).

(** The integer cube root of [n], bit by bit from [2 ^ bits]. *)
Fixpoint cube_root (bits : nat) (root n : N) : N :=
  match bits with
  | O => root
  | S bits' =>
      let root' := root + 2 ^ N.of_nat bits' in
      cube_root bits' (if root' * root' * root' <=? n then root' else root) n
  end.

Definition round_constants : list N :=
  Eval vm_compute in (fun p => w32 (cube_root 36 0 (N.shiftl p 96))) <$> first_primes 64.

Definition initial_state : list N :=
  Eval vm_compute in (fun p => w32 (N.sqrt (N.shiftl p 64))) <$> first_primes 8.

Definition sigma0 (x : N) : N := N.lxor (N.lxor (rotr x 7) (rotr x 18)) (N.shiftr x 3).
Definition sigma1 (x : N) : N := N.lxor (N.lxor (rotr x 17) (rotr x 19)) (N.shiftr x 10).
Definition Sigma0 (x : N) : N := N.lxor (N.lxor (rotr x 2) (rotr x 13)) (rotr x 22).
Definition Sigma1 (x : N) : N := N.lxor (N.lxor (rotr x 6) (rotr x 11)) (rotr x 25).
Definition Ch (x y z : N) : N := N.lxor (N.land x y) (N.land (N.lxor x 4294967295) z).
Definition Maj (x y z : N) : N := N.lxor (N.lxor (N.land x y) (N.land x z)) (N.land y z).

(** One round per constant; the window holds the next 16 schedule words. *)
Fixpoint rounds (ks window st : list N) : list N :=
  match ks with
  | [] => st
  | k :: ks' =>
      match st with
      | [a; b; c; d; e; f; g; h] =>
          let w := nth 0 window 0 in
          let t1 := add32 (add32 (add32 (add32 h (Sigma1 e)) (Ch e f g)) k) w in
          let t2 := add32 (Sigma0 a) (Maj a b c) in
          let next := add32 (add32 (add32 (sigma1 (nth 14 window 0)) (nth 9 window 0))
                        (sigma0 (nth 1 window 0))) w in
          rounds ks' (tail window ++ [next]) [add32 t1 t2; a; b; c; add32 d t1; e; f; g]
      | _ => st
      end
  end.

Definition compress (st block : list N) : list N :=
  zip_with add32 st (rounds round_constants block st).

(** The message, 0x80, zeros, and the bit length on 8 bytes. *)
Definition zeros (n : nat) : string := be_bytes n 0.

Definition padded (s : string) : string :=
  let len := String.length s in
  s +:+ (String (Ascii.ascii_of_N 128)
    (zeros ((119 - len mod 64) mod 64) +:+ PutUint64 (8 * N.of_nat len))).

Fixpoint words (s : string) : list N :=
  match s with
  | String a (String b (String c (String d r))) =>
      be_value (String a (String b (String c (String d "")))) :: words r
  | _ => []
  end.

Fixpoint blocks (n : nat) (ws st : list N) : list N :=
  match n with
  | O => st
  | S n' => blocks n' (drop 16 ws) (compress st (take 16 ws))
  end.

Definition Sum256 (s : string) : string :=
  let ws := words (padded s) in
  foldr (fun w t => PutUint32 w +:+ t) "" (blocks (length ws / 16) ws initial_state).

(** ** The digest has 32 bytes *)

Lemma length_rounds ks window st : length (rounds ks window st) = length st.
Proof.
  revert window st. induction ks as [|k ks IH]; intros window st; [done|].
  destruct st as [|a [|b [|c [|d [|e [|f [|g [|h [|]]]]]]]]]; try done.
  cbn [rounds]. by rewrite IH.
Qed.

Lemma length_blocks n ws st : length (blocks n ws st) = length st.
Proof.
  revert ws st. induction n as [|n IH]; intros ws st; [done|]. cbn [blocks].
  rewrite IH. unfold compress. rewrite length_zip_with, length_rounds. lia.
Qed.

Lemma length_words32 l :
  String.length (foldr (fun w t => PutUint32 w +:+ t) "" l) = (4 * length l)%nat.
Proof.
  induction l as [|w l IH]; [done|]. cbn [foldr length].
  rewrite string_length_app, IH. unfold PutUint32. rewrite length_be_bytes. lia.
Qed.

Lemma length_Sum256 s : String.length (Sum256 s) = 32%nat.
Proof. unfold Sum256. by rewrite length_words32, length_blocks. Qed.

(** ** Published test vectors *)

Example Sum256_empty :
  EncodeToString (Sum256 "")
  = "e3b0c44298fc1c149afbf4c8996fb92427ae41e4649b934ca495991b7852b855".
Proof. by_vm. Qed.

Example Sum256_abc :
  EncodeToString (Sum256 "abc")
  = "ba7816bf8f01cfea414140de5dae2223b00361a396177a9cb410ff61f20015ad".
Proof. by_vm. Qed.

Example Sum256_two_blocks :
  EncodeToString (Sum256 "abcdbcdecdefdefgefghfghighijhijkijkljklmklmnlmnomnopnopq")
  = "248d6a61d20638b8e5c026930c3e6039a33ce45964ff2167f6ecedd419db06c1".
Proof. by_vm. Qed.
