(* ===== verification/Hasher.v ===== *)
(** * Hash algorithms (internal/hash/hash.go, lines 17 to 134)

    The five [Hasher] implementations, the global hasher that [Initialize]
    sets and [GetHasher] reads, and [Calculate]/[CalculateString].  SHA-256
    is computed ([Sha256.Sum256]); xxhash, blake2b and blake3 are third-party
    code and enter as the record [Digests].

    The rest of the development is written against the interface
    [HashFunction]: a hash function on strings whose outputs have one fixed
    width, which is the hasher [GetHasher] returns.  No theorem assumes the
    function injective; where collisions matter the hypothesis is
    [collision_free qs], on the finitely many strings hashed. *)

From S2P Require Import Prelude Bytes Json JsonFacts Codec Sha256.

(** ** The interface *)

Class HashFunction := {
  hash : string -> string;
  hash_width : nat;
  hash_width_pos : 0 < hash_width;
  length_hash : forall s, String.length (hash s) = hash_width
}.

(** No two of the strings [qs] collide. *)
Definition collision_free `{HashFunction} (qs : list string) : Prop :=
  forall x y, x ∈ qs -> y ∈ qs -> hash x = hash y -> x = y.

(** Decided by hashing each string once. *)
Definition collision_check `{HashFunction} (qs : list string) : Prop :=
  let hs := (fun x => (x, hash x)) <$> qs in
  Forall (fun p => Forall (fun q => p.2 = q.2 -> p.1 = q.1) hs) hs.

Lemma collision_check_spec `{HashFunction} qs : collision_check qs <-> collision_free qs.
Proof.
  unfold collision_check, collision_free. rewrite Forall_fmap, Forall_forall.
  setoid_rewrite Forall_fmap. setoid_rewrite Forall_forall. naive_solver.
Qed.

#[export] Instance collision_free_dec `{HashFunction} qs : Decision (collision_free qs).
Proof.
  refine (let hs := (fun x => (x, hash x)) <$> qs in
    cast_if (decide (Forall (fun p => Forall (fun q => p.2 = q.2 -> p.1 = q.1) hs) hs)));
    by apply collision_check_spec || (intros Hc; apply collision_check_spec in Hc).
Defined.

Lemma collision_free_mono `{HashFunction} qs qs' :
  collision_free qs' -> qs ⊆ qs' -> collision_free qs.
Proof. intros Hcf Hsub x y Hx Hy. apply Hcf; by apply Hsub. Qed.

(** ** Third-party digests *)

(** xxhash.Sum64, xxhash.New/Write/Sum(nil), blake2b.Sum256 and
    blake3.Sum256. *)
Record Digests := {
  xxhash_Sum64 : string -> N;
  xxhash_Sum : string -> string;
  blake2b_Sum256 : string -> string;
  blake3_Sum256 : string -> string
}.

(** What their documentation promises: a 64-bit value, its 8 bytes, and
    32-byte arrays. *)
Class DigestWidths (D : Digests) := {
  xxhash_Sum_width : forall s, String.length (xxhash_Sum D s) = 8;
  blake2b_width : forall s, String.length (blake2b_Sum256 D s) = 32;
  blake3_width : forall s, String.length (blake3_Sum256 D s) = 32
}.

(** ** Hasher implementations *)

Inductive Hasher : Type :=
  | xxHash64Hasher
  | xxHash128Hasher
  | sha256Hasher
  | blake2b256Hasher
  | blake3Hasher.

#[export] Instance Hasher_eq_dec : EqDecision Hasher.
Proof. solve_decision. Defined.

Definition Hash (D : Digests) (h : Hasher) (data : string) : string :=
  match h with
  | xxHash64Hasher => EncodeToString (PutUint64 (xxhash_Sum64 D data))
  | xxHash128Hasher =>
      EncodeToString (xxhash_Sum D data)
      +:+ EncodeToString (xxhash_Sum D (String (Ascii.ascii_of_N 1) data))
  | sha256Hasher => EncodeToString (Sum256 data)
  | blake2b256Hasher => EncodeToString (blake2b_Sum256 D data)
  | blake3Hasher => EncodeToString (blake3_Sum256 D data)
  end.

Definition Name (h : Hasher) : string :=
  match h with
  | xxHash64Hasher => "xxhash64"
  | xxHash128Hasher => "xxhash128"
  | sha256Hasher => "sha256"
  | blake2b256Hasher => "blake2b_256"
  | blake3Hasher => "blake3"
  end.

(** The package variable [globalHasher]; [None] is nil. *)
Definition Initialize (algorithm : string) (globalHasher : option Hasher)
    : result unit * option Hasher :=
  if decide (algorithm = "xxhash64") then (Ok tt, Some xxHash64Hasher)
  else if decide (algorithm = "xxhash128") then (Ok tt, Some xxHash128Hasher)
  else if decide (algorithm = "sha256") then (Ok tt, Some sha256Hasher)
  else if decide (algorithm = "blake2b_256") then (Ok tt, Some blake2b256Hasher)
  else if decide (algorithm = "blake3") then (Ok tt, Some blake3Hasher)
  else (Err (Errorf ("unsupported hash algorithm: " +:+ algorithm)), globalHasher).

Definition GetHasher (globalHasher : option Hasher) : Hasher :=
  match globalHasher with
  | None => sha256Hasher
  | Some h => h
  end.

(** ** Hashing data *)

Section calculate.
Context `{HashFunction}.

(** [data interface{}] is any value encoding/json can be asked to
    marshal: a type with a [JsonCodec]. *)
Definition Calculate `{JsonCodec A} (data : A) : result string :=
  hash <$> wrap_err "failed to marshal data" (Marshal data).

Definition CalculateString (data : string) : string := hash data.
End calculate.

(** ** Width of the outputs *)

Definition hasher_width (h : Hasher) : nat :=
  match h with
  | xxHash64Hasher => 16
  | xxHash128Hasher => 32
  | _ => 64
  end.

Definition lower_hex (a : Ascii.ascii) : bool :=
  in_range 48 57 a || in_range 97 102 a.

Definition all_bytes (P : Ascii.ascii -> bool) (s : string) : bool :=
  forallb P (String.list_ascii_of_string s).

Lemma all_bytes_cons P a s : all_bytes P (String a s) = P a && all_bytes P s.
Proof. done. Qed.

Lemma all_bytes_app P s t : all_bytes P (s +:+ t) = all_bytes P s && all_bytes P t.
Proof.
  induction s as [|a s IH]; [done|].
  rewrite string_app_cons, !all_bytes_cons, IH. by rewrite andb_assoc.
Qed.

Lemma hex_digit_lower n : (n < 16)%N -> lower_hex (hex_digit n) = true.
Proof.
  intros Hn. unfold lower_hex, in_range, hex_digit. case_match.
  all: rewrite N_of_ascii_of_N by lia; lia.
Qed.

Lemma EncodeToString_lower s : all_bytes lower_hex (EncodeToString s) = true.
Proof.
  induction s as [|a s IH]; [done|]. cbn [EncodeToString].
  rewrite !all_bytes_cons, IH. pose proof (N_of_ascii_lt a).
  rewrite !hex_digit_lower; [done|by apply N.mod_lt|].
  apply N.Div0.div_lt_upper_bound. lia.
Qed.

Section hasher_function.
Context (D : Digests) `{!DigestWidths D} (h : Hasher).

Lemma length_Hash s : String.length (Hash D h s) = hasher_width h.
Proof.
  destruct h; cbn [Hash hasher_width];
    rewrite ?string_length_app, ?length_EncodeToString.
  - done.
  - by rewrite !xxhash_Sum_width.
  - by rewrite length_Sum256.
  - by rewrite blake2b_width.
  - by rewrite blake3_width.
Qed.

Lemma Hash_lower s : all_bytes lower_hex (Hash D h s) = true.
Proof.
  destruct h; unfold Hash; rewrite ?all_bytes_app; by rewrite !EncodeToString_lower.
Qed.

Lemma hasher_width_pos : 0 < hasher_width h.
Proof. destruct h; simpl; lia. Qed.

(** Every hasher of the package is a [HashFunction]. *)
Definition hasher_function : HashFunction := {|
  hash := Hash D h;
  hash_width := hasher_width h;
  hash_width_pos := hasher_width_pos;
  length_hash := length_Hash
|}.
End hasher_function.

(** Concrete digests for the witnesses: the third-party ones are stood in
    for by slices of SHA-256. *)
Definition test_digests : Digests := {|
  xxhash_Sum64 s := be_value (String.substring 0 8 (Sum256 s));
  xxhash_Sum s := be_bytes 8 (be_value (String.substring 0 8 (Sum256 s)));
  blake2b_Sum256 s := Sum256 (String (Ascii.ascii_of_N 2) s);
  blake3_Sum256 s := Sum256 (String (Ascii.ascii_of_N 3) s)
|}.

#[export] Instance test_digest_widths : DigestWidths test_digests.
Proof.
  split; intros s; [done|apply length_Sum256..].
Qed.

(** SHA-256 as the interface's instance for the witnesses. *)
Definition sha256_function : HashFunction := hasher_function test_digests sha256Hasher.

(** ** Properties *)

(** [Initialize] accepts exactly the five algorithm names.  On success
    [GetHasher] returns the hasher of that name; on an unknown name it
    returns the error and leaves the global hasher as it was, and with no
    hasher set the default is SHA-256. *)
Lemma Initialize_spec (algorithm : string) (g : option Hasher) :
  match Initialize algorithm g with
  | (Ok _, g') => Name (GetHasher g') = algorithm
  | (Err e, g') =>
      e = Errorf ("unsupported hash algorithm: " +:+ algorithm) /\ g' = g
      /\ forall h, Name h <> algorithm
  | (Panic _, _) => False
  end /\ GetHasher None = sha256Hasher.
Proof.
  split; [|done]. unfold Initialize. repeat case_decide; subst; try done.
  repeat split; try done. intros []; simpl; congruence.
Qed.

(** Whatever the algorithm and the input, a hash is lower-case
    hexadecimal of a width fixed by the algorithm: 16, 32 or 64 characters. *)
Lemma Hash_format (D : Digests) (W : DigestWidths D) (h : Hasher) (data : string) :
  String.length (Hash D h data) = hasher_width h
  /\ all_bytes lower_hex (Hash D h data) = true.
Proof. split; [by apply length_Hash|apply Hash_lower]. Qed.

