(* ===== verification/HashTree.v ===== *)
(** * Hash chain and Merkle root (internal/hash/hash.go, lines 136 to 233)

    [HashChain] links each datum to the previous hash; [MerkleTree] computes
    a root over sorted leaves, level by level, an odd last node being paired
    with itself.  Both are proved binding: equal heads (equal roots over
    equally many leaves) mean equal contents, unless two of the strings the
    computation hashed collide.  The hash function is the [HashFunction]
    interface of Hasher.v. *)

From S2P Require Import Prelude Bytes Json JsonFacts Codec Sha256 Hasher.

(** ** HashChain *)

Record HashChain := { previousHash : string }.

Definition NewHashChain (initialHash : string) : HashChain :=
  {| previousHash := initialHash |}.

Definition GetPreviousHash (hc : HashChain) : string := previousHash hc.

Definition SetPreviousHash (hc : HashChain) (h : string) : HashChain :=
  {| previousHash := h |}.

Section chain.
Context `{HashFunction} `{JsonCodec A}.

Definition Add (hc : HashChain) (data : A) : result string * HashChain :=
  match Calculate data with
  | Ok dataHash =>
      let combined := previousHash hc +:+ dataHash in
      let newHash := CalculateString combined in
      (Ok newHash, {| previousHash := newHash |})
  | Err e => (Err e, hc)
  | Panic w => (Panic w, hc)
  end.

(** Adding a sequence of data. *)
Fixpoint AddAll (hc : HashChain) (data : list A) : HashChain :=
  match data with
  | [] => hc
  | d :: ds => AddAll (Add hc d).2 ds
  end.

(** The strings hashed when the texts [ts] are added after the hash [p]. *)
Fixpoint chain_queries (p : string) (ts : list string) : list string :=
  match ts with
  | [] => []
  | t :: ts' => t :: (p +:+ hash t) :: chain_queries (hash (p +:+ hash t)) ts'
  end.

Fixpoint chain_head (p : string) (ts : list string) : string :=
  match ts with
  | [] => p
  | t :: ts' => chain_head (hash (p +:+ hash t)) ts'
  end.

Definition marshals (ds : list A) (ts : list string) : Prop :=
  Forall2 (fun d t => Marshal d = Ok t) ds ts.

Lemma Add_Ok hc d t :
  Marshal d = Ok t ->
  Add hc d = (Ok (hash (previousHash hc +:+ hash t)),
              {| previousHash := hash (previousHash hc +:+ hash t) |}).
Proof. intros E. unfold Add, Calculate, CalculateString. by rewrite E. Qed.

Lemma marshals_inj {ok} {RT : RoundTrips A ok} ds1 ds2 ts :
  Forall ok ds1 -> Forall ok ds2 -> marshals ds1 ts -> marshals ds2 ts -> ds1 = ds2.
Proof.
  intros Hok1 Hok2 Hm1. revert ds2 Hok2.
  induction Hm1 as [|d1 t ds1 ts Hd1 _ IH]; intros ds2 Hok2 Hm2;
    inversion Hm2 as [|d2 ? ds2' ? Hd2 Hm2']; subst; [done|]. forall_cons.
  destruct (Unmarshal_Marshal d1) as (s1 & E1 & U1); [done|].
  destruct (Unmarshal_Marshal d2) as (s2 & E2 & U2); [done|].
  f_equal; [congruence|]. by apply IH.
Qed.

Lemma AddAll_head hc ds ts :
  marshals ds ts -> previousHash (AddAll hc ds) = chain_head (previousHash hc) ts.
Proof.
  intros Hm. revert hc. induction Hm as [|d t ds ts Hd _ IH]; intros hc; [done|].
  cbn [AddAll chain_head]. by rewrite (Add_Ok hc d t Hd), IH.
Qed.

Lemma chain_head_inj ts1 ts2 p1 p2 :
  length ts1 = length ts2 -> String.length p1 = String.length p2 ->
  collision_free (chain_queries p1 ts1 ++ chain_queries p2 ts2) ->
  chain_head p1 ts1 = chain_head p2 ts2 -> p1 = p2 /\ ts1 = ts2.
Proof.
  revert ts2 p1 p2. induction ts1 as [|t1 ts1 IH]; intros [|t2 ts2] p1 p2 Hlen Hp Hcf Heq;
    try done.
  cbn [chain_queries chain_head length] in *. injection Hlen as Hlen.
  destruct (IH ts2 (hash (p1 +:+ hash t1)) (hash (p2 +:+ hash t2))) as [Hh ->]; auto.
  { by rewrite !length_hash. }
  { eapply collision_free_mono; [exact Hcf|]. set_solver-. }
  apply Hcf in Hh; [|set_solver-..].
  apply string_app_inj in Hh as [-> Hh]; [|done].
  apply Hcf in Hh as ->; [done|set_solver-..].
Qed.
End chain.

(** ** MerkleTree *)

Record MerkleTree := { mt_leaves : list string }.

Definition NewMerkleTree : MerkleTree := {| mt_leaves := [] |}.

Definition mt_AddLeafHash (mt : MerkleTree) (h : string) : MerkleTree :=
  {| mt_leaves := mt_leaves mt ++ [h] |}.

Definition mt_Reset (mt : MerkleTree) : MerkleTree := {| mt_leaves := [] |}.

Definition LeafCount (mt : MerkleTree) : nat := length (mt_leaves mt).

Section tree.
Context `{HashFunction}.

Definition mt_AddLeaf `{JsonCodec A} (mt : MerkleTree) (data : A) : result unit * MerkleTree :=
  match Calculate data with
  | Ok h => (Ok tt, mt_AddLeafHash mt h)
  | Err e => (Err e, mt)
  | Panic w => (Panic w, mt)
  end.

(** The loop [for i := 0; i < len(hashes); i += 2] of [calculateRoot]. *)
Fixpoint next_level (hashes : list string) : list string :=
  match hashes with
  | [] => []
  | [x] => [CalculateString (x +:+ x)]
  | x :: y :: rest => CalculateString (x +:+ y) :: next_level rest
  end.

(** One unit of fuel per level; [None] when it runs out. *)
Fixpoint calculateRoot (fuel : nat) (hashes : list string) : option string :=
  match fuel with
  | O => None
  | S f =>
      match hashes with
      | [] => Some ""
      | [x] => Some x
      | _ => calculateRoot f (next_level hashes)
      end
  end.

Definition mt_GetRoot (mt : MerkleTree) : option string :=
  match mt_leaves mt with
  | [] => Some ""
  | _ =>
      let sortedLeaves := sort_strings (mt_leaves mt) in
      calculateRoot (length sortedLeaves) sortedLeaves
  end.

(** The specification the implementations are compared with: the root of a
    list of leaves, in this order. *)
Definition merkle_root (leaves : list string) : string :=
  default "" (calculateRoot (length leaves) leaves).

(** The strings hashed on one level, and on all of them. *)
Fixpoint level_queries (hashes : list string) : list string :=
  match hashes with
  | [] => []
  | [x] => [x +:+ x]
  | x :: y :: rest => (x +:+ y) :: level_queries rest
  end.

Fixpoint root_queries (fuel : nat) (hashes : list string) : list string :=
  match fuel with
  | O => []
  | S f =>
      match hashes with
      | [] | [_] => []
      | _ => level_queries hashes ++ root_queries f (next_level hashes)
      end
  end.

Definition merkle_queries (leaves : list string) : list string :=
  root_queries (length leaves) leaves.

(** *** Levels *)

(** Induction two elements at a time. *)
Lemma pairs_ind {B} (P : list B -> Prop) :
  P [] -> (forall x, P [x]) -> (forall x y l, P l -> P (x :: y :: l)) -> forall l, P l.
Proof.
  intros H0 H1 H2. fix IH 1. intros [|x [|y l]]; [apply H0|apply H1|apply H2, IH].
Qed.

Lemma next_level_queries l : next_level l = hash <$> level_queries l.
Proof.
  induction l as [|x|x y l IH] using pairs_ind; [done..|].
  cbn [next_level level_queries]. by rewrite fmap_cons, IH.
Qed.

Lemma length_level_queries l : length (level_queries l) = Nat.div2 (S (length l)).
Proof.
  induction l as [|x|x y l IH] using pairs_ind; [done..|].
  cbn [level_queries length]. rewrite IH. done.
Qed.

Lemma length_next_level l : length (next_level l) = Nat.div2 (S (length l)).
Proof. by rewrite next_level_queries, length_fmap, length_level_queries. Qed.

Lemma div2_lt n : 2 <= n -> Nat.div2 (S n) < n.
Proof. intros. rewrite Nat.div2_div. apply Nat.Div0.div_lt_upper_bound. lia. Qed.

Lemma div2_pos n : 1 <= n -> 1 <= Nat.div2 (S n).
Proof. intros. rewrite Nat.div2_div. apply Nat.div_le_lower_bound; lia. Qed.

Lemma length_next_level_lt l : 2 <= length l -> length (next_level l) < length l.
Proof. intros. rewrite length_next_level. by apply div2_lt. Qed.

Lemma next_level_app_even l1 l2 :
  Nat.Even (length l1) -> next_level (l1 ++ l2) = next_level l1 ++ next_level l2.
Proof.
  induction l1 as [|x|x y l1 IH] using pairs_ind; intros He; [done| |].
  - destruct He as [k Hk]. simpl in Hk. lia.
  - cbn [app next_level]. rewrite IH; [done|].
    destruct He as [k Hk]. exists (k - 1). simpl in Hk. lia.
Qed.

(** *** Termination *)

Lemma calculateRoot_fuel f l :
  length l <= f -> 1 <= f -> calculateRoot f l = calculateRoot (S (length l)) l.
Proof.
  revert f. remember (length l) as n eqn:Hn. revert l Hn.
  induction (lt_wf n) as [n _ IH]; intros l -> f Hf H1.
  destruct f as [|f]; [lia|]. cbn [calculateRoot].
  destruct l as [|x [|y l]]; [done..|].
  assert (length (next_level (x :: y :: l)) < length (x :: y :: l)) as Hlt.
  { apply length_next_level_lt. simpl. lia. }
  assert (1 <= length (next_level (x :: y :: l))) as Hpos.
  { rewrite length_next_level. apply div2_pos. simpl. lia. }
  rewrite (IH _ Hlt _ eq_refl f), (IH _ Hlt _ eq_refl (length (x :: y :: l))); try done; lia.
Qed.

Lemma calculateRoot_step x y l :
  calculateRoot (length (x :: y :: l)) (x :: y :: l)
  = calculateRoot (length (next_level (x :: y :: l))) (next_level (x :: y :: l)).
Proof.
  assert (length (next_level (x :: y :: l)) < length (x :: y :: l)) as Hlt.
  { apply length_next_level_lt. simpl. lia. }
  assert (1 <= length (next_level (x :: y :: l))) as Hpos.
  { rewrite length_next_level. apply div2_pos. simpl. lia. }
  change (calculateRoot (length (y :: l)) (next_level (x :: y :: l))
    = calculateRoot (length (next_level (x :: y :: l))) (next_level (x :: y :: l))).
  rewrite (calculateRoot_fuel (length (y :: l))) by (simpl in *; lia).
  by rewrite (calculateRoot_fuel (length (next_level _))) by lia.
Qed.

(** Induction along the levels of the tree. *)
Lemma levels_ind (P : list string -> Prop) :
  P [] -> (forall x, P [x]) ->
  (forall x y l, P (next_level (x :: y :: l)) -> P (x :: y :: l)) -> forall l, P l.
Proof.
  intros H0 H1 H2 l. remember (length l) as n eqn:Hn. revert l Hn.
  induction (lt_wf n) as [n _ IH]; intros [|x [|y l]] ->; [done..|].
  apply H2. eapply IH; [|done]. apply length_next_level_lt. simpl. lia.
Qed.

Lemma calculateRoot_total l : l <> [] -> is_Some (calculateRoot (length l) l).
Proof.
  induction l as [|x|x y l IH] using levels_ind; intros Hne; [done|by eexists|].
  rewrite calculateRoot_step. apply IH. intros E. apply (f_equal length) in E.
  rewrite length_next_level in E. simpl in E. discriminate.
Qed.

Lemma merkle_root_step x y l : merkle_root (x :: y :: l) = merkle_root (next_level (x :: y :: l)).
Proof. unfold merkle_root. by rewrite calculateRoot_step. Qed.

Lemma calculateRoot_merkle_root l :
  l <> [] -> calculateRoot (length l) l = Some (merkle_root l).
Proof. intros Hl. unfold merkle_root. by destruct (calculateRoot_total l Hl) as [? ->]. Qed.

(** *** Binding *)

(** Hashes of the width of the hash function. *)
Definition hashes (l : list string) : Prop :=
  Forall (fun x => String.length x = hash_width) l.

Lemma hashes_next_level l : hashes (next_level l).
Proof.
  rewrite next_level_queries. apply Forall_fmap, Forall_true. intros x. apply length_hash.
Qed.

Lemma level_queries_inj l1 l2 :
  hashes l1 -> hashes l2 -> length l1 = length l2 ->
  level_queries l1 = level_queries l2 -> l1 = l2.
Proof.
  unfold hashes. revert l2.
  induction l1 as [|x1|x1 y1 l1 IH] using pairs_ind; intros [|x2 [|y2 l2]] H1 H2 Hlen Heq;
    try done; forall_cons.
  - injection Heq as Heq. apply string_app_inj in Heq as [-> _]; congruence.
  - injection Heq as Heq Hl. apply string_app_inj in Heq as [-> ->]; [|congruence].
    f_equal. f_equal. simpl in Hlen. apply IH; auto with lia.
Qed.

Lemma fmap_hash_inj q1 q2 :
  collision_free (q1 ++ q2) -> length q1 = length q2 -> hash <$> q1 = hash <$> q2 -> q1 = q2.
Proof.
  revert q2. induction q1 as [|x q1 IH]; intros [|y q2] Hcf Hlen Heq; try done.
  rewrite !fmap_cons in Heq. injection Heq as Hxy Heq. f_equal.
  - apply Hcf; [set_solver-..|done].
  - apply IH; [|by injection Hlen|done].
    eapply collision_free_mono; [exact Hcf|]. set_solver-.
Qed.

Lemma next_level_inj l1 l2 :
  hashes l1 -> hashes l2 -> length l1 = length l2 ->
  collision_free (level_queries l1 ++ level_queries l2) ->
  next_level l1 = next_level l2 -> l1 = l2.
Proof.
  intros H1 H2 Hlen Hcf Heq. rewrite !next_level_queries in Heq.
  apply level_queries_inj; try done. apply fmap_hash_inj; try done.
  by rewrite !length_level_queries, Hlen.
Qed.

Lemma root_queries_fuel f l :
  length l <= f -> root_queries f l = root_queries (length l) l.
Proof.
  revert f. remember (length l) as n eqn:Hn. revert l Hn.
  induction (lt_wf n) as [n _ IH]; intros [|x [|y l]] -> f Hf; destruct f as [|f]; try done;
    try (simpl in Hf; lia).
  assert (length (next_level (x :: y :: l)) < length (x :: y :: l)) as Hlt.
  { apply length_next_level_lt. simpl. lia. }
  change (root_queries (length (x :: y :: l)) (x :: y :: l))
    with (level_queries (x :: y :: l) ++ root_queries (length (y :: l)) (next_level (x :: y :: l))).
  cbn [root_queries]. f_equal.
  rewrite (IH _ Hlt _ eq_refl f), (IH _ Hlt _ eq_refl (length (y :: l)));
    simpl in *; try done; lia.
Qed.

Lemma merkle_queries_step x y l :
  merkle_queries (x :: y :: l)
  = level_queries (x :: y :: l) ++ merkle_queries (next_level (x :: y :: l)).
Proof.
  unfold merkle_queries.
  change (root_queries (length (x :: y :: l)) (x :: y :: l))
    with (level_queries (x :: y :: l) ++ root_queries (length (y :: l)) (next_level (x :: y :: l))).
  f_equal. apply root_queries_fuel.
  assert (length (next_level (x :: y :: l)) < length (x :: y :: l)); [|simpl in *; lia].
  apply length_next_level_lt. simpl. lia.
Qed.

Lemma merkle_root_inj l1 l2 :
  hashes l1 -> hashes l2 -> length l1 = length l2 ->
  collision_free (merkle_queries l1 ++ merkle_queries l2) ->
  merkle_root l1 = merkle_root l2 -> l1 = l2.
Proof.
  revert l2. induction l1 as [|x1|x1 y1 l1 IH] using levels_ind;
    intros [|x2 [|y2 l2]] H1 H2 Hlen Hcf Heq; try done.
  { unfold merkle_root in Heq. simpl in Heq. by simplify_eq. }
  rewrite !merkle_root_step in Heq. rewrite !merkle_queries_step in Hcf.
  apply next_level_inj; try done.
  { eapply collision_free_mono; [exact Hcf|]. set_solver-. }
  apply IH; try done.
  - apply hashes_next_level.
  - apply hashes_next_level.
  - by rewrite !length_next_level, Hlen.
  - eapply collision_free_mono; [exact Hcf|]. set_solver-.
Qed.

Lemma hashes_sort l : hashes l -> hashes (sort_strings l).
Proof. unfold hashes. by rewrite sort_strings_perm. Qed.

Lemma mt_GetRoot_sorted mt : mt_GetRoot mt = Some (merkle_root (sort_strings (mt_leaves mt))).
Proof.
  unfold mt_GetRoot. destruct (mt_leaves mt) as [|x l] eqn:E; [done|].
  apply calculateRoot_merkle_root. intros Hs. apply (f_equal length) in Hs.
  by rewrite length_sort_strings in Hs.
Qed.

(** An odd last leaf and the same leaf twice give one level. *)
Lemma next_level_duplicate l x :
  Nat.Even (length l) -> next_level (l ++ [x; x]) = next_level (l ++ [x]).
Proof. intros He. by rewrite !next_level_app_even. Qed.

Lemma merkle_root_duplicate l x :
  Nat.Even (length l) -> l <> [] -> merkle_root (l ++ [x; x]) = merkle_root (l ++ [x]).
Proof.
  intros He Hl. pose proof (next_level_duplicate l x He) as E.
  destruct l as [|a [|b l]]; [done|by destruct He; simpl in *; lia|].
  cbn [app] in *. by rewrite !merkle_root_step, E.
Qed.

Lemma merkle_root_sorted_duplicate l x :
  Nat.Odd (length l) -> 3 <= length l -> x ∈ l -> Forall (fun y => String.le y x) l ->
  merkle_root (sort_strings (l ++ [x])) = merkle_root (sort_strings l).
Proof.
  intros [k Hk] H3 Hin Hmax. destruct (sort_strings_max l x Hin Hmax) as (l' & E & E').
  pose proof (length_sort_strings l) as Hl. rewrite E, length_app in Hl. simpl in Hl.
  rewrite E', E. apply merkle_root_duplicate; [exists k; lia|].
  intros ->. simpl in Hl. lia.
Qed.
End tree.

(** ** Properties *)

(** The hash chain is binding.  Two chains of equally many data that
    start from equally long hashes and end in the same head started from the
    same hash and hold the same data, unless two of the strings they hashed
    collide. *)
Lemma AddAll_binding {HF : HashFunction} {A} {JC : JsonCodec A} {ok} {RT : RoundTrips A ok}
    (hc1 hc2 : HashChain) (ds1 ds2 : list A) (ts1 ts2 : list string) :
  Forall ok ds1 -> Forall ok ds2 -> marshals ds1 ts1 -> marshals ds2 ts2 ->
  length ds1 = length ds2 ->
  String.length (previousHash hc1) = String.length (previousHash hc2) ->
  collision_free (chain_queries (previousHash hc1) ts1
                  ++ chain_queries (previousHash hc2) ts2) ->
  previousHash (AddAll hc1 ds1) = previousHash (AddAll hc2 ds2) ->
  hc1 = hc2 /\ ds1 = ds2.
Proof.
  intros Hok1 Hok2 Hm1 Hm2 Hlen Hp Hcf Heq.
  rewrite (AddAll_head hc1 ds1 ts1 Hm1), (AddAll_head hc2 ds2 ts2 Hm2) in Heq.
  pose proof (Forall2_length _ _ _ Hm1) as L1. pose proof (Forall2_length _ _ _ Hm2) as L2.
  apply chain_head_inj in Heq as [Hprev ->]; [|congruence|done|done].
  split; [destruct hc1, hc2; simpl in *; by subst|].
  by eapply marshals_inj.
Qed.

(** C18: equal Merkle roots over equally many leaves, all of the hash width,
    mean the same multiset of leaves, unless two of the strings the
    computations hashed collide. *)
Theorem mt_GetRoot_binding {HF : HashFunction} (mt1 mt2 : MerkleTree) :
  hashes (mt_leaves mt1) -> hashes (mt_leaves mt2) ->
  LeafCount mt1 = LeafCount mt2 ->
  collision_free (merkle_queries (sort_strings (mt_leaves mt1))
                  ++ merkle_queries (sort_strings (mt_leaves mt2))) ->
  mt_GetRoot mt1 = mt_GetRoot mt2 ->
  mt_leaves mt1 ≡ₚ mt_leaves mt2.
Proof.
  intros H1 H2 Hlen Hcf Heq. rewrite !mt_GetRoot_sorted in Heq. injection Heq as Heq.
  apply sort_strings_inj, merkle_root_inj; try done.
  - by apply hashes_sort.
  - by apply hashes_sort.
  - by rewrite !length_sort_strings.
Qed.

Theorem mt_GetRoot_binding_witness :
  let l1 := [hash (HashFunction := sha256_function) "a"; hash (HashFunction := sha256_function) "b";
             hash (HashFunction := sha256_function) "c"] in
  l1 ≡ₚ reverse l1.
Proof.
  refine (mt_GetRoot_binding (HF := sha256_function)
    {| mt_leaves := [hash (HashFunction := sha256_function) "a";
         hash (HashFunction := sha256_function) "b"; hash (HashFunction := sha256_function) "c"] |}
    {| mt_leaves := reverse [hash (HashFunction := sha256_function) "a";
         hash (HashFunction := sha256_function) "b"; hash (HashFunction := sha256_function) "c"] |}
    _ _ _ _ _).
  - repeat constructor; apply (length_hash (HashFunction := sha256_function)).
  - repeat constructor; apply (length_hash (HashFunction := sha256_function)).
  - reflexivity.
  - by_decide.
  - by_vm.
Defined.

(** The root does not count its leaves.  When the number of leaves is
    odd and at least three, repeating the greatest leaf once more gives the
    same root, whatever the hash function. *)
Lemma mt_GetRoot_duplicate {HF : HashFunction} (mt : MerkleTree) (x : string) :
  Nat.Odd (LeafCount mt) -> 3 <= LeafCount mt ->
  x ∈ mt_leaves mt -> Forall (fun y => String.le y x) (mt_leaves mt) ->
  mt_GetRoot (mt_AddLeafHash mt x) = mt_GetRoot mt.
Proof.
  intros. rewrite !mt_GetRoot_sorted. f_equal. by apply merkle_root_sorted_duplicate.
Qed.

