(* ===== verification/DataHash.v ===== *)
(** * Hashing a row (internal/hash/merkle.go, lines 466 to 509)

    [CalculateDataHash] turns a row, a map from column names to Go values,
    into the hash of a canonical JSON text: the timestamp columns dropped,
    every value in text form, the keys sorted.  The file also holds what fmt's
    [%v] verb prints for the values the program formats, which is how record
    IDs are made. *)

From S2P Require Import Prelude Bytes Json JsonFacts Codec Sha256 Hasher.

(** An [interface{}] holding a column value.  [VOther] is a value of any
    other Go type (float, time, numeric, array, ...), represented by the text
    [%v] prints for it, the only thing the program ever does with it. *)
Inductive GoValue : Type :=
  | VNil
  | VBytes (b : string)
  | VString (s : string)
  | VInt (z : Z)
  | VBool (b : bool)
  | VOther (text : string).

#[export] Instance GoValue_eq_dec : EqDecision GoValue.
Proof. solve_decision. Defined.

(** fmt.Sprintf with the verb v: a byte slice prints as its decimal elements
    in brackets, nil as <nil>. *)
Definition byte_decimals (b : string) : list string :=
  (fun a => pretty (Ascii.N_of_ascii a)) <$> String.list_ascii_of_string b.

Definition sprint_v (v : GoValue) : string :=
  match v with
  | VNil => "<nil>"
  | VBytes b => "[" +:+ (join " " (byte_decimals b) +:+ "]")
  | VString s => s
  | VInt z => pretty z
  | VBool true => "true"
  | VBool false => "false"
  | VOther text => text
  end.

(** The same verb on a map: the entries in ascending key order. *)
Definition sprint_map (m : gmap string GoValue) : string :=
  "map[" +:+ (join " "
    ((fun k => k +:+ (":" +:+ sprint_v (default VNil (m !! k))))
       <$> sort_strings (elements (dom m))) +:+ "]").

Definition normalizeValue (v : GoValue) : string :=
  match v with
  | VNil => "<nil>"
  | VBytes val => EncodeToString val
  | VString val => val
  | _ => sprint_v v
  end.

Section data_hash.
Context `{RO : RangeOrder}.

Definition NormalizeForHash (data : gmap string GoValue) : gmap string string :=
  foldl (fun result kv =>
      if decide (kv.1 = "created_at" \/ kv.1 = "updated_at") then result
      else <[kv.1 := normalizeValue kv.2]> result)
    ∅ (range_map 0 data).

Definition CalculateDataHash `{HF : HashFunction} (data : gmap string GoValue) : string :=
  let normalized := NormalizeForHash data in
  let jsonData := print (json_of_map normalized) in
  hash jsonData.

(** ** What the loop computes *)

Definition hashed_column (k : string) : Prop := k <> "created_at" /\ k <> "updated_at".

Lemma normalize_fold l (acc : gmap string string) k :
  NoDup l.*1 ->
  foldl (fun result (kv : string * GoValue) =>
      if decide (kv.1 = "created_at" \/ kv.1 = "updated_at") then result
      else <[kv.1 := normalizeValue kv.2]> result) acc l !! k
  = if decide (hashed_column k) then
      match (list_to_map l : gmap string GoValue) !! k with
      | Some v => Some (normalizeValue v)
      | None => acc !! k
      end
    else acc !! k.
Proof.
  revert acc. induction l as [|[k' v] l IH]; intros acc Hnd.
  { simpl. rewrite lookup_empty. by case_decide. }
  rewrite fmap_cons in Hnd. apply NoDup_cons in Hnd as [Hk Hnd]. simpl in Hk.
  cbn [foldl fst snd]. rewrite IH by done. rewrite list_to_map_cons. unfold hashed_column.
  destruct (decide (k = k')) as [->|Hne].
  - rewrite lookup_insert_eq, not_elem_of_list_to_map_1 by done.
    repeat case_decide; rewrite ?lookup_insert_eq; naive_solver.
  - rewrite lookup_insert_ne by done.
    repeat case_decide; rewrite ?lookup_insert_ne by done; done.
Qed.

Lemma NormalizeForHash_lookup data k :
  NormalizeForHash data !! k
  = if decide (hashed_column k) then normalizeValue <$> data !! k else None.
Proof.
  unfold NormalizeForHash. rewrite normalize_fold by apply NoDup_fst_range_map.
  rewrite list_to_map_range_map, lookup_empty.
  case_decide; [|done]. by destruct (data !! k).
Qed.

(** Two rows with the same text in every hashed column. *)
Definition same_text (d1 d2 : gmap string GoValue) : Prop :=
  forall k, hashed_column k -> normalizeValue <$> d1 !! k = normalizeValue <$> d2 !! k.

#[export] Instance same_text_equivalence : Equivalence same_text.
Proof.
  split; [intros ?? ?; done|intros ?? Hs ??; symmetry; auto|].
  intros ??? H1 H2 k Hk. rewrite H1 by done. auto.
Qed.

Lemma NormalizeForHash_same_text d1 d2 :
  same_text d1 d2 <-> NormalizeForHash d1 = NormalizeForHash d2.
Proof.
  split.
  - intros Hs. apply map_eq. intros k. rewrite !NormalizeForHash_lookup.
    case_decide; auto.
  - intros Heq k Hk. pose proof (f_equal (fun m => m !! k) Heq) as E. cbv beta in E.
    rewrite !NormalizeForHash_lookup in E. by rewrite !decide_True in E by done.
Qed.

#[export] Instance CalculateDataHash_Proper `{HF : HashFunction} :
  Proper (same_text ==> (=)) CalculateDataHash.
Proof.
  intros d1 d2 Hs%NormalizeForHash_same_text. unfold CalculateDataHash. by rewrite Hs.
Qed.

(** The string that is hashed. *)
Definition data_query (data : gmap string GoValue) : string :=
  print (json_of_map (NormalizeForHash data)).
End data_hash.

(** ** Properties *)

(** C21: rows that print the same text in every column except [created_at]
    and [updated_at] have the same hash, whatever order Go iterates the two
    maps in: the timestamps and the Go types of the values do not matter. *)
Theorem CalculateDataHash_ignores {RO1 RO2 : RangeOrder} {HF : HashFunction}
    (d1 d2 : gmap string GoValue) :
  same_text d1 d2 ->
  CalculateDataHash (RO := RO1) d1 = CalculateDataHash (RO := RO2) d2.
Proof.
  intros Hs. transitivity (CalculateDataHash (RO := RO1) d2); [by rewrite Hs|].
  unfold CalculateDataHash. do 3 f_equal. apply map_eq. intros k.
  by rewrite !NormalizeForHash_lookup.
Qed.

Theorem CalculateDataHash_ignores_witness :
  let d1 : gmap string GoValue :=
    {[ "id" := VInt 1; "name" := VString "Alice"; "created_at" := VString "2024-01-01" ]} in
  let d2 : gmap string GoValue :=
    {[ "id" := VString "1"; "name" := VString "Alice"; "updated_at" := VNil ]} in
  CalculateDataHash (RO := canonical_order) (HF := sha256_function) d1
  = CalculateDataHash (RO := canonical_order) (HF := sha256_function) d2.
Proof.
  apply CalculateDataHash_ignores. intros k [Hc Hu].
  destruct (decide (k = "id")) as [->|]; [reflexivity|].
  destruct (decide (k = "name")) as [->|]; [reflexivity|].
  by simplify_map_eq.
Defined.

(** C20: the hash binds the row.  If two rows of valid UTF-8 text have the
    same hash and their canonical JSON texts do not collide, then they print
    the same text in every hashed column. *)
Theorem CalculateDataHash_binding {RO : RangeOrder} {HF : HashFunction}
    (d1 d2 : gmap string GoValue) :
  map_valid (NormalizeForHash d1) -> map_valid (NormalizeForHash d2) ->
  collision_free [data_query d1; data_query d2] ->
  CalculateDataHash d1 = CalculateDataHash d2 ->
  same_text d1 d2.
Proof.
  intros H1 H2 Hcf Heq. apply NormalizeForHash_same_text, print_map_inj; [done..|].
  apply Hcf; [set_solver-..|done].
Qed.

Theorem CalculateDataHash_binding_witness :
  same_text {[ "id" := VInt 1; "ok" := VBool true ]} {[ "id" := VString "1"; "ok" := VString "true" ]}.
Proof.
  apply (CalculateDataHash_binding (RO := canonical_order) (HF := sha256_function)).
  - by_decide.
  - by_decide.
  - by_decide.
  - by_vm.
Defined.

(** A NULL and the text <nil> are the same to the hash: replacing one by
    the other in a column goes unnoticed. *)
Lemma CalculateDataHash_null_text {RO : RangeOrder} {HF : HashFunction}
    (data : gmap string GoValue) (column : string) :
  CalculateDataHash (<[column := VNil]> data)
  = CalculateDataHash (<[column := VString "<nil>"]> data).
Proof.
  apply CalculateDataHash_Proper. intros k _.
  destruct (decide (k = column)) as [->|]; by simplify_map_eq.
Qed.

(** A boolean column hashes differently when it is read from the
    replication stream, where PostgreSQL sends the text t, and when it is
    read by a query, where the driver returns a bool: over valid UTF-8 the
    two hashes agree only if the two JSON texts collide. *)
Lemma CalculateDataHash_bool_mismatch {RO : RangeOrder} {HF : HashFunction}
    (data : gmap string GoValue) (column : string) (b : bool) :
  hashed_column column ->
  map_valid (NormalizeForHash (<[column := VBool b]> data)) ->
  collision_free [data_query (<[column := VString (if b then "t" else "f")]> data);
                  data_query (<[column := VBool b]> data)] ->
  CalculateDataHash (<[column := VString (if b then "t" else "f")]> data)
  <> CalculateDataHash (<[column := VBool b]> data).
Proof.
  intros Hc Hv Hcf Heq.
  assert (same_text (<[column := VString (if b then "t" else "f")]> data)
            (<[column := VBool b]> data)) as Hs.
  { apply NormalizeForHash_same_text, print_map_inj; [|done|apply Hcf; [set_solver-..|done]].
    intros k v. revert Hv.
    unfold map_valid, map_Forall. intros Hv. specialize (Hv k).
    rewrite NormalizeForHash_lookup in Hv |- *.
    destruct (decide (hashed_column k)) as [Hk|]; [|done].
    destruct (decide (k = column)) as [->|].
    - rewrite lookup_insert_eq in Hv |- *. intros [= <-].
      destruct (Hv _ eq_refl) as [-> _]. by destruct b.
    - rewrite lookup_insert_ne in Hv |- * by done. auto. }
  specialize (Hs column Hc). rewrite !lookup_insert_eq in Hs. by destruct b.
Qed.

