(* ===== verification/Merkle.v ===== *)
(** * Merkle tree builder and proofs (internal/hash/merkle.go, lines 10 to 300)

    [MerkleTreeBuilder] collects leaves with their record IDs, builds the
    tree over the sorted leaves, and answers proofs, tampered indices and the
    map of internal nodes.  A [*MerkleNode] is a tree whose nodes carry their
    allocation number [ptr]: the code compares node pointers
    ([node.Right != node.Left]) to recognise the shared child of an odd
    level, and pointer equality is equality of [ptr].  The nil pointer is
    [nilNode]. *)

From S2P Require Import Prelude Bytes Json JsonFacts Codec Sha256 Hasher HashTree DataHash.

Inductive MerkleNode : Type :=
  | nilNode
  | Node (ptr : nat) (node_Hash : string) (Left Right : MerkleNode).

Definition node_hash (n : MerkleNode) : string :=
  match n with nilNode => "" | Node _ h _ _ => h end.

(** Go's [==] on two node pointers. *)
Definition ptr_eqb (a b : MerkleNode) : bool :=
  match a, b with
  | nilNode, nilNode => true
  | Node p _ _ _, Node q _ _ _ => bool_decide (p = q)
  | _, _ => false
  end.

Definition is_nil (n : MerkleNode) : bool := ptr_eqb n nilNode.

Record MerkleProof := {
  LeafHash : string;
  LeafIndex : Z;
  Siblings : list string;
  Directions : list bool
}.

Record MerkleTreeBuilder := {
  leaves : list string;
  leafDataMap : gmap string string;
  hashToID : gmap string string;
  root : MerkleNode
}.

Definition NewMerkleTreeBuilder : MerkleTreeBuilder :=
  {| leaves := []; leafDataMap := ∅; hashToID := ∅; root := nilNode |}.

Definition AddLeafHash (mtb : MerkleTreeBuilder) (recordID h : string) : MerkleTreeBuilder :=
  {| leaves := leaves mtb ++ [h];
     leafDataMap := <[recordID := h]> (leafDataMap mtb);
     hashToID := <[h := recordID]> (hashToID mtb);
     root := root mtb |}.

Definition GetRecordIDByHash (mtb : MerkleTreeBuilder) (h : string) : option string :=
  hashToID mtb !! h.

Definition GetSortedLeaves (mtb : MerkleTreeBuilder) : list string :=
  sort_strings (leaves mtb).

Definition GetRecordIDByIndex (mtb : MerkleTreeBuilder) (index : Z) : option string :=
  let sortedLeaves := GetSortedLeaves mtb in
  if decide (index < 0 \/ Z.of_nat (length sortedLeaves) <= index)%Z then None
  else match sortedLeaves !! Z.to_nat index with
       | Some h => GetRecordIDByHash mtb h
       | None => None
       end.

Definition GetLeafCount (mtb : MerkleTreeBuilder) : nat := length (leaves mtb).

Definition GetLeafMap `{RangeOrder} (mtb : MerkleTreeBuilder) : gmap string string :=
  foldl (fun leafMap kv => <[kv.1 := kv.2]> leafMap) ∅ (range_map 0 (leafDataMap mtb)).

Definition GetRoot (mtb : MerkleTreeBuilder) : string :=
  match root mtb with
  | nilNode => ""
  | Node _ h _ _ => h
  end.

Section merkle.
Context `{HF : HashFunction}.

Definition AddLeaf `{RangeOrder} (mtb : MerkleTreeBuilder) (recordID : string)
    (data : gmap string GoValue) : result unit * MerkleTreeBuilder :=
  (Ok tt, AddLeafHash mtb recordID (CalculateDataHash data)).

(** ** Building *)

(** One pass of the loop of [buildTree]; [next] is the next free allocation
    number. *)
Fixpoint build_level (next : nat) (nodes : list MerkleNode) : nat * list MerkleNode :=
  match nodes with
  | [] => (next, [])
  | [l] => (S next, [Node next (hash (node_hash l +:+ node_hash l)) l l])
  | l :: r :: rest =>
      let parent := Node next (hash (node_hash l +:+ node_hash r)) l r in
      let '(next', level) := build_level (S next) rest in
      (next', parent :: level)
  end.

(** One unit of fuel per level; [None] when it runs out. *)
Fixpoint buildTree (fuel next : nat) (nodes : list MerkleNode) : option MerkleNode :=
  match fuel with
  | O => None
  | S f =>
      match nodes with
      | [n] => Some n
      | _ => let '(next', nextLevel) := build_level next nodes in buildTree f next' nextLevel
      end
  end.

Definition leaf_nodes (sorted : list string) : list MerkleNode :=
  imap (fun i leaf => Node i leaf nilNode nilNode) sorted.

Definition Build (mtb : MerkleTreeBuilder) : result unit * MerkleTreeBuilder :=
  match leaves mtb with
  | [] => (Err (Errorf "no leaves to build tree"), mtb)
  | _ =>
      let sortedLeaves := sort_strings (leaves mtb) in
      let nodes := leaf_nodes sortedLeaves in
      match buildTree (length nodes) (length nodes) nodes with
      | Some n =>
          (Ok tt, {| leaves := leaves mtb; leafDataMap := leafDataMap mtb;
                     hashToID := hashToID mtb; root := n |})
      | None => (Panic "stack overflow", mtb)
      end
  end.

(** ** Proofs *)

(** [buildProof] appends to the proof's two slices. *)
Fixpoint buildProof (node : MerkleNode) (targetHash : string)
    (proof : list string * list bool) (start stop : Z) : bool * (list string * list bool) :=
  match node with
  | nilNode => (false, proof)
  | Node _ h l r =>
      if is_nil l && is_nil r then (bool_decide (h = targetHash), proof) else
      let mid := Z.quot (start + stop) 2 in
      let '(found, proof) := buildProof l targetHash proof start mid in
      if found then
        (true, if is_nil r then proof else (proof.1 ++ [node_hash r], proof.2 ++ [true]))
      else
        let '(found, proof) := buildProof r targetHash proof (mid + 1) stop in
        if found then
          (true, if is_nil l then proof else (proof.1 ++ [node_hash l], proof.2 ++ [false]))
        else (false, proof)
  end.

(** The index of the first occurrence. *)
Definition first_index (h : string) (l : list string) : option nat :=
  fst <$> list_find (fun leaf => leaf = h) l.

Definition GetProof (mtb : MerkleTreeBuilder) (recordID : string) : result MerkleProof :=
  match leafDataMap mtb !! recordID with
  | None => Err (Errorf ("record not found in tree: " +:+ recordID))
  | Some leafHash =>
      match root mtb with
      | nilNode => Err (Errorf "tree not built")
      | _ =>
          let sortedLeaves := sort_strings (leaves mtb) in
          match first_index leafHash sortedLeaves with
          | None => Err (Errorf "leaf hash not found in sorted leaves")
          | Some leafIndex =>
              let '(_, (siblings, directions)) :=
                buildProof (root mtb) leafHash ([], []) 0 (Z.of_nat (length sortedLeaves) - 1) in
              Ok {| LeafHash := leafHash; LeafIndex := Z.of_nat leafIndex;
                    Siblings := siblings; Directions := directions |}
          end
      end
  end.

(** The loop of [Verify]; [Directions[i]] panics past its end. *)
Fixpoint verify_path (currentHash : string) (siblings : list string) (directions : list bool)
    : result string :=
  match siblings, directions with
  | [], _ => Ok currentHash
  | _ :: _, [] => Panic "index out of range"
  | sibling :: ss, isRight :: ds =>
      let combined := if (isRight : bool) then currentHash +:+ sibling
                      else sibling +:+ currentHash in
      verify_path (hash combined) ss ds
  end.

Definition Verify (mp : MerkleProof) (expectedRoot : string) : result bool :=
  (fun h => bool_decide (h = expectedRoot)) <$>
    verify_path (LeafHash mp) (Siblings mp) (Directions mp).
End merkle.

(** ** Tampered leaves and internal nodes *)

Fixpoint findTamperedLeavesRecursive (node : MerkleNode) (start stop : Z)
    (tamperedIndices : list Z) : list Z :=
  match node with
  | nilNode => tamperedIndices
  | Node _ _ l r =>
      if is_nil l && is_nil r then tamperedIndices ++ [start] else
      let mid := Z.quot (start + stop) 2 in
      let tamperedIndices :=
        if is_nil l then tamperedIndices
        else findTamperedLeavesRecursive l start mid tamperedIndices in
      if is_nil r || ptr_eqb r l then tamperedIndices
      else findTamperedLeavesRecursive r (mid + 1) stop tamperedIndices
  end.

Definition FindTamperedLeaves (mtb : MerkleTreeBuilder) (storedRoot : string)
    : result (list Z) :=
  match root mtb with
  | nilNode => Err (Errorf "tree not built")
  | n =>
      let currentRoot := node_hash n in
      if decide (currentRoot = storedRoot) then Ok []
      else Ok (findTamperedLeavesRecursive n 0 (Z.of_nat (length (leaves mtb)) - 1) [])
  end.

Fixpoint collectInternalNodes (node : MerkleNode) (path : string)
    (nodes : gmap string string) : gmap string string :=
  match node with
  | nilNode => nodes
  | Node _ h l r =>
      let nodes := <[path := h]> nodes in
      let nodes := if is_nil l then nodes
                   else collectInternalNodes l (path +:+ "/L") nodes in
      if is_nil r || ptr_eqb r l then nodes
      else collectInternalNodes r (path +:+ "/R") nodes
  end.

Definition GetInternalNodes (mtb : MerkleTreeBuilder) : gmap string string :=
  match root mtb with
  | nilNode => ∅
  | n => collectInternalNodes n "root" ∅
  end.
