(* ===== verification/MerkleFacts.v ===== *)
(** * The Merkle tree builder is correct

    The shape invariant [tree_ok] of the trees [Build] makes, the agreement
    of the pointer tree with the level-by-level root of HashTree.v, and what
    proofs, tampered indices and internal-node maps say about a built tree. *)

From S2P Require Import Prelude Bytes Json JsonFacts Codec Sha256 Hasher HashTree DataHash Merkle.

Section facts.
Context `{HF : HashFunction}.

Definition node_ptr (n : MerkleNode) : nat :=
  match n with nilNode => 0 | Node p _ _ _ => p end.

(** A tree of the given height as [buildTree] makes it: the two children of
    an inner node have one height, and are either distinct objects or one
    shared object. *)
Inductive tree_ok : nat -> MerkleNode -> Prop :=
  | ok_leaf p h : tree_ok 0 (Node p h nilNode nilNode)
  | ok_shared n p c :
      tree_ok n c -> tree_ok (S n) (Node p (hash (node_hash c +:+ node_hash c)) c c)
  | ok_pair n p l r :
      tree_ok n l -> tree_ok n r -> node_ptr l <> node_ptr r ->
      tree_ok (S n) (Node p (hash (node_hash l +:+ node_hash r)) l r).

(** The leaf hashes, a shared child counted once. *)
Fixpoint node_leaves (n : MerkleNode) : list string :=
  match n with
  | nilNode => []
  | Node _ h l r =>
      if is_nil l && is_nil r then [h]
      else node_leaves l ++ (if ptr_eqb r l then [] else node_leaves r)
  end.

Lemma tree_ok_not_nil k n : tree_ok k n -> is_nil n = false.
Proof. by destruct 1. Qed.

Lemma ptr_eqb_refl n : ptr_eqb n n = true.
Proof. destruct n; [done|]. simpl. by apply bool_decide_eq_true. Qed.

Lemma ptr_eqb_ok k1 k2 a b :
  tree_ok k1 a -> tree_ok k2 b -> ptr_eqb a b = bool_decide (node_ptr a = node_ptr b).
Proof. by destruct 1, 1. Qed.

Lemma ptr_eqb_distinct k a b :
  tree_ok k a -> tree_ok k b -> node_ptr a <> node_ptr b -> ptr_eqb b a = false.
Proof.
  intros Ha Hb Hne. rewrite (ptr_eqb_ok k k) by done. apply bool_decide_eq_false. congruence.
Qed.

Lemma node_leaves_shared k p h c :
  tree_ok k c -> node_leaves (Node p h c c) = node_leaves c.
Proof.
  intros Hc. cbn [node_leaves]. rewrite (tree_ok_not_nil _ _ Hc), ptr_eqb_refl.
  by rewrite app_nil_r.
Qed.

Lemma node_leaves_pair k p h l r :
  tree_ok k l -> tree_ok k r -> node_ptr l <> node_ptr r ->
  node_leaves (Node p h l r) = node_leaves l ++ node_leaves r.
Proof.
  intros Hl Hr Hne. cbn [node_leaves].
  by rewrite (tree_ok_not_nil _ _ Hl), (ptr_eqb_distinct k l r).
Qed.

(** ** One level of the tree *)

(** A list of subtrees of one height, distinct objects allocated before
    [next]. *)
Record level_ok (k next : nat) (ns : list MerkleNode) : Prop := {
  level_trees : Forall (tree_ok k) ns;
  level_distinct : NoDup (node_ptr <$> ns);
  level_old : Forall (fun n => node_ptr n < next) ns
}.

Lemma build_level_fresh next ns :
  let '(next', ns') := build_level next ns in
  next <= next' /\ Forall (fun n => next <= node_ptr n < next') ns'
  /\ NoDup (node_ptr <$> ns').
Proof.
  revert next. induction ns as [|x|x y ns IH] using pairs_ind; intros next; cbn [build_level].
  - repeat constructor.
  - repeat split; [lia|by repeat constructor|by apply NoDup_singleton].
  - specialize (IH (S next)). destruct (build_level (S next) ns) as [next' ns'].
    destruct IH as (Hle & Hall & Hnd). repeat split; [lia| |].
    + constructor; [simpl; lia|]. eapply List.Forall_impl; [|exact Hall]. simpl; intros; lia.
    + rewrite fmap_cons. constructor; [|done]. intros Hin.
      apply list_elem_of_fmap in Hin as (n & Hp & Hin).
      rewrite Forall_forall in Hall. specialize (Hall n Hin). simpl in Hp. lia.
Qed.

Lemma build_level_trees k next ns :
  Forall (tree_ok k) ns -> NoDup (node_ptr <$> ns) ->
  let ns' := (build_level next ns).2 in
  Forall (tree_ok (S k)) ns'
  /\ node_hash <$> ns' = next_level (node_hash <$> ns)
  /\ concat (node_leaves <$> ns') = concat (node_leaves <$> ns).
Proof.
  revert next. induction ns as [|x|x y ns IH] using pairs_ind;
    intros next Hok Hnd; cbn [build_level].
  - done.
  - forall_cons. repeat split.
    + repeat constructor. done.
    + cbn [snd fmap list_fmap concat]. by rewrite (node_leaves_shared k).
  - rewrite !fmap_cons, !NoDup_cons in Hnd. destruct Hnd as (Hx & Hy & Hnd). forall_cons.
    specialize (IH (S next) Hok Hnd). destruct (build_level (S next) ns) as [next' ns'].
    cbn [snd] in *. destruct IH as (Hok' & Hhash & Hleaves).
    assert (node_ptr x <> node_ptr y) as Hne.
    { intros E. apply Hx. rewrite E. left. }
    repeat split.
    + constructor; [by constructor|done].
    + rewrite !fmap_cons. cbn [next_level node_hash]. by rewrite Hhash.
    + rewrite !fmap_cons. cbn [concat]. rewrite Hleaves, (node_leaves_pair k) by done.
      by rewrite (assoc (++)).
Qed.

Lemma build_level_ok k next ns :
  level_ok k next ns ->
  let '(next', ns') := build_level next ns in
  level_ok (S k) next' ns'
  /\ node_hash <$> ns' = next_level (node_hash <$> ns)
  /\ concat (node_leaves <$> ns') = concat (node_leaves <$> ns).
Proof.
  intros [Hok Hnd Hold]. pose proof (build_level_fresh next ns) as Hf.
  pose proof (build_level_trees k next ns Hok Hnd) as Ht.
  destruct (build_level next ns) as [next' ns']. simpl in Ht.
  destruct Hf as (Hle & Hnew & Hnd'), Ht as (Hok' & Hh & Hl).
  split; [|done]. split; [done..|]. eapply List.Forall_impl; [|exact Hnew]. simpl; lia.
Qed.

(** ** The whole tree *)

Lemma log2_up_step n : 2 <= n -> Nat.log2_up n = S (Nat.log2_up (Nat.div2 (S n))).
Proof.
  intros Hn. rewrite Nat.div2_div.
  destruct (Nat.Even_Odd_dec n) as [[m ->]|[m ->]].
  - replace (S (2 * m) / 2) with m by (apply (Nat.div_unique _ _ _ 1); lia).
    rewrite Nat.log2_up_double by lia. done.
  - replace (S (2 * m + 1) / 2) with (S m) by (apply (Nat.div_unique _ _ _ 0); lia).
    rewrite (Nat.log2_up_eqn (2 * m + 1)), (Nat.log2_up_eqn (S m)) by lia.
    replace (Nat.pred (2 * m + 1)) with (2 * m) by lia.
    by rewrite Nat.log2_double by lia.
Qed.

Lemma buildTree_ok f k next ns :
  level_ok k next ns -> 1 <= length ns <= f ->
  exists n, buildTree f next ns = Some n
    /\ tree_ok (k + Nat.log2_up (length ns)) n
    /\ node_hash n = merkle_root (node_hash <$> ns)
    /\ node_leaves n = concat (node_leaves <$> ns).
Proof.
  revert f k next. remember (length ns) as m eqn:Hm. revert ns Hm.
  induction (lt_wf m) as [m _ IH]; intros ns -> f k next Hok [H1 Hf].
  destruct f as [|f]; [lia|]. cbn [buildTree].
  destruct ns as [|x [|y ns]]; [simpl in H1; lia| |].
  - exists x. destruct Hok as [Hok _ _]. forall_cons. cbn [length fmap list_fmap concat].
    rewrite Nat.add_0_r, app_nil_r. done.
  - pose proof (build_level_ok k next _ Hok) as Hb.
    destruct (build_level next (x :: y :: ns)) as [next' ns'].
    destruct Hb as (Hok' & Hh & Hl).
    assert (length ns' = Nat.div2 (S (length (x :: y :: ns)))) as Hlen.
    { apply (f_equal length) in Hh.
      by rewrite length_fmap, length_next_level, length_fmap in Hh. }
    assert (length ns' < length (x :: y :: ns)) as Hlt.
    { rewrite Hlen. apply div2_lt. simpl. lia. }
    assert (1 <= length ns') as Hpos.
    { rewrite Hlen. apply div2_pos. simpl. lia. }
    destruct (IH _ Hlt ns' eq_refl f (S k) next') as (n & Hbt & Hn & Hr & Hls); [done|lia|].
    exists n. split; [done|]. repeat split.
    + rewrite (log2_up_step (length (x :: y :: ns))) by (simpl; lia).
      rewrite <-Hlen. by rewrite Nat.add_succ_r.
    + rewrite Hr, Hh, !fmap_cons. by rewrite merkle_root_step.
    + by rewrite Hls.
Qed.

(** *** The leaves *)

Lemma leaf_nodes_hash l : node_hash <$> leaf_nodes l = l.
Proof.
  unfold leaf_nodes. rewrite fmap_imap. transitivity (id <$> l); [|apply list_fmap_id].
  rewrite <-imap_const. by apply imap_ext.
Qed.

Lemma leaf_nodes_ok l : level_ok 0 (length l) (leaf_nodes l).
Proof.
  unfold leaf_nodes. split.
  - apply Forall_lookup_2. intros i n Hi. apply list_lookup_imap_Some in Hi as (h & _ & ->).
    constructor.
  - rewrite fmap_imap. rewrite (imap_ext _ (fun j _ => j)) by done.
    rewrite (imap_seq_0 l (fun j => j)), list_fmap_id. apply NoDup_seq.
  - apply Forall_lookup_2. intros i n Hi. apply list_lookup_imap_Some in Hi as (h & Hh & ->).
    simpl. by eapply lookup_lt_Some.
Qed.

Lemma leaf_nodes_leaves l : concat (node_leaves <$> leaf_nodes l) = l.
Proof.
  unfold leaf_nodes. rewrite fmap_imap.
  rewrite (imap_ext _ (const (fun h => [h]))) by done. rewrite imap_const.
  induction l as [|h l IH]; [done|]. rewrite fmap_cons. simpl. by rewrite IH.
Qed.

Lemma length_leaf_nodes l : length (leaf_nodes l) = length l.
Proof. apply length_imap. Qed.

(** What [Build] makes of a non-empty list of sorted leaves. *)
Lemma buildTree_leaves l :
  l <> [] ->
  exists n, buildTree (length (leaf_nodes l)) (length (leaf_nodes l)) (leaf_nodes l) = Some n
    /\ tree_ok (Nat.log2_up (length l)) n
    /\ node_hash n = merkle_root l /\ node_leaves n = l.
Proof.
  intros Hl. rewrite length_leaf_nodes.
  destruct (buildTree_ok (length l) 0 (length l) (leaf_nodes l)) as (n & H1 & H2 & H3 & H4).
  - apply leaf_nodes_ok.
  - rewrite length_leaf_nodes. destruct l; [done|]. simpl; lia.
  - exists n. rewrite length_leaf_nodes in H2. rewrite leaf_nodes_hash in H3.
    rewrite leaf_nodes_leaves in H4. done.
Qed.

(** ** The builder *)

(** The maps of the builder name its leaves. *)
Record builder_ok (mtb : MerkleTreeBuilder) : Prop := {
  data_map_leaves : forall id h, leafDataMap mtb !! id = Some h -> h ∈ leaves mtb;
  reverse_map_leaves : forall h, is_Some (hashToID mtb !! h) <-> h ∈ leaves mtb
}.

(** The root is the tree of the current leaves. *)
Record built (mtb : MerkleTreeBuilder) : Prop := {
  built_tree : tree_ok (Nat.log2_up (length (leaves mtb))) (root mtb);
  built_hash : node_hash (root mtb) = merkle_root (sort_strings (leaves mtb));
  built_leaves : node_leaves (root mtb) = sort_strings (leaves mtb)
}.

Lemma NewMerkleTreeBuilder_ok : builder_ok NewMerkleTreeBuilder.
Proof.
  split; simpl; [by intros ? ? ?%lookup_empty_Some|].
  intros h. rewrite lookup_empty. split; [by intros []|set_solver-].
Qed.

Lemma AddLeafHash_ok mtb id h : builder_ok mtb -> builder_ok (AddLeafHash mtb id h).
Proof.
  intros [Hd Hr]. split; simpl.
  - intros id' h'. rewrite lookup_insert_Some, elem_of_app. intros [[_ ->]|[_ Hin]].
    + right. set_solver-.
    + left. by eapply Hd.
  - intros h'. rewrite lookup_insert_is_Some, elem_of_app, Hr, list_elem_of_singleton.
    destruct (decide (h = h')); naive_solver.
Qed.

Lemma AddLeaf_ok `{RangeOrder} mtb id data : builder_ok mtb -> builder_ok (AddLeaf mtb id data).2.
Proof. apply AddLeafHash_ok. Qed.

Lemma Build_cases mtb :
  (leaves mtb = [] /\ Build mtb = (Err (Errorf "no leaves to build tree"), mtb))
  \/ exists mtb', Build mtb = (Ok tt, mtb') /\ built mtb' /\ leaves mtb <> []
     /\ leaves mtb' = leaves mtb /\ leafDataMap mtb' = leafDataMap mtb
     /\ hashToID mtb' = hashToID mtb.
Proof.
  unfold Build. destruct (leaves mtb) as [|x l] eqn:E; [by left|right].
  assert (sort_strings (x :: l) <> []) as Hne.
  { intros Hs. apply (f_equal length) in Hs. by rewrite length_sort_strings in Hs. }
  destruct (buildTree_leaves _ Hne) as (n & Hb & Ht & Hh & Hl). rewrite Hb.
  eexists. repeat split; simpl; try done.
  by rewrite length_sort_strings in Ht.
Qed.

Lemma Build_ok mtb : builder_ok mtb -> builder_ok (Build mtb).2.
Proof.
  intros [Hd Hr]. destruct (Build_cases mtb) as [[_ ->]|(mtb' & -> & _ & _ & El & Ed & Eh)];
    [done|]. split; simpl; rewrite El, ?Ed, ?Eh; auto.
Qed.

Lemma built_GetRoot mtb : built mtb -> GetRoot mtb = merkle_root (sort_strings (leaves mtb)).
Proof. intros [_ <- _]. unfold GetRoot. by destruct (root mtb). Qed.

(** ** Proofs *)

Lemma verify_path_snoc x ss ds s d :
  length ss = length ds ->
  verify_path x (ss ++ [s]) (ds ++ [d])
  = (fun h => hash (if (d : bool) then h +:+ s else s +:+ h)) <$> verify_path x ss ds.
Proof.
  revert x ds. induction ss as [|s' ss IH]; intros x [|d' ds] Hlen; try done.
  simpl. apply IH. by injection Hlen.
Qed.

(** [buildProof] finds the target exactly when it is a leaf hash; the path it
    then appends has the height of the tree and leads to the root. *)
Lemma buildProof_ok k n target proof start stop :
  tree_ok k n ->
  let '(found, proof') := buildProof n target proof start stop in
  found = bool_decide (target ∈ node_leaves n) /\
  if found then
    exists ss ds, proof' = (proof.1 ++ ss, proof.2 ++ ds)
      /\ length ss = k /\ length ds = k /\ verify_path target ss ds = Ok (node_hash n)
  else proof' = proof.
Proof.
  intros Hn. revert proof start stop.
  induction Hn as [p h|k p c Hc IH|k p l r Hl IHl Hr IHr Hne]; intros proof start stop.
  - cbn [buildProof is_nil ptr_eqb node_leaves andb]. split.
    + apply bool_decide_ext. rewrite list_elem_of_singleton. naive_solver.
    + case_bool_decide as Ht; [|done]. exists [], []. rewrite !app_nil_r, Ht.
      by destruct proof.
  - rewrite (node_leaves_shared k) by done. cbn [buildProof node_hash].
    rewrite (tree_ok_not_nil _ _ Hc). cbn [andb].
    specialize (IH proof start (Z.quot (start + stop) 2)) as IH1.
    destruct (buildProof c target proof _ _) as [found proof'].
    destruct IH1 as [-> IH1]. case_bool_decide as Hin.
    + split; [done|]. destruct IH1 as (ss & ds & -> & Hss & Hds & Hv). simpl.
      exists (ss ++ [node_hash c]), (ds ++ [true]).
      rewrite !(assoc (++)), !length_app, verify_path_snoc, Hv by congruence.
      repeat split; simpl; lia.
    + subst proof'.
      specialize (IH proof (Z.quot (start + stop) 2 + 1)%Z stop) as IH2.
      destruct (buildProof c target proof _ _) as [found proof'].
      by destruct IH2 as [-> IH2].
  - rewrite (node_leaves_pair k) by done. cbn [buildProof node_hash].
    rewrite (tree_ok_not_nil _ _ Hl), (tree_ok_not_nil _ _ Hr). cbn [andb].
    specialize (IHl proof start (Z.quot (start + stop) 2)).
    destruct (buildProof l target proof _ _) as [found proof'].
    destruct IHl as [-> IHl]. destruct (decide (target ∈ node_leaves l)) as [Hin|Hin];
      [rewrite (bool_decide_eq_true_2 _ Hin) in *|rewrite (bool_decide_eq_false_2 _ Hin) in *].
    + rewrite bool_decide_eq_true_2 by (apply elem_of_app; by left).
      split; [done|]. destruct IHl as (ss & ds & -> & Hss & Hds & Hv). simpl.
      exists (ss ++ [node_hash r]), (ds ++ [true]).
      rewrite !(assoc (++)), !length_app, verify_path_snoc, Hv by congruence.
      repeat split; simpl; lia.
    + subst proof'.
      specialize (IHr proof (Z.quot (start + stop) 2 + 1)%Z stop).
      destruct (buildProof r target proof _ _) as [found proof'].
      destruct IHr as [-> IHr].
      rewrite (bool_decide_ext (target ∈ _ ++ _) (target ∈ node_leaves r))
        by (rewrite elem_of_app; tauto).
      case_bool_decide as Hinr; [|done].
      split; [done|]. destruct IHr as (ss & ds & -> & Hss & Hds & Hv). simpl.
      exists (ss ++ [node_hash l]), (ds ++ [false]).
      rewrite !(assoc (++)), !length_app, verify_path_snoc, Hv by congruence.
      repeat split; simpl; lia.
Qed.
End facts.

Section soundness.
Context `{HF : HashFunction}.

(** The strings [Verify] hashes along a path, and those the tree hashed. *)
Fixpoint path_queries (x : string) (ss : list string) (ds : list bool) : list string :=
  match ss, ds with
  | s :: ss', d :: ds' =>
      let c := if (d : bool) then x +:+ s else s +:+ x in c :: path_queries (hash c) ss' ds'
  | _, _ => []
  end.

Fixpoint node_queries (n : MerkleNode) : list string :=
  match n with
  | nilNode => []
  | Node _ _ l r =>
      if is_nil l && is_nil r then []
      else (node_hash l +:+ node_hash r) :: node_queries l ++ node_queries r
  end.

Lemma path_queries_snoc x ss ds s d :
  length ss = length ds ->
  path_queries x (ss ++ [s]) (ds ++ [d])
  = path_queries x ss ds ++
    match verify_path x ss ds with
    | Ok v => [if (d : bool) then v +:+ s else s +:+ v]
    | _ => []
    end.
Proof.
  revert x ds. induction ss as [|s' ss IH]; intros x [|d' ds] Hlen; try done.
  cbn [app path_queries verify_path]. by rewrite IH by (by injection Hlen).
Qed.

Lemma verify_path_width x ss ds v :
  String.length x = hash_width -> verify_path x ss ds = Ok v -> String.length v = hash_width.
Proof.
  revert x ds. induction ss as [|s ss IH]; intros x [|d ds] Hx Hv; simplify_eq/=; try done.
  eapply IH; [|exact Hv]. apply length_hash.
Qed.

Lemma verify_path_no_panic x ss ds :
  length ss = length ds -> exists v, verify_path x ss ds = Ok v.
Proof.
  revert x ds. induction ss as [|s ss IH]; intros x [|d ds] Hlen; try done; [by eexists|].
  apply IH. by injection Hlen.
Qed.

Lemma node_hash_width k n :
  tree_ok k n -> hashes (node_leaves n) -> String.length (node_hash n) = hash_width.
Proof. destruct 1; simpl; intros Hw; [by inversion Hw|apply length_hash..]. Qed.

Lemma list_snoc {A} (l : list A) k : length l = S k -> exists l' x, l = l' ++ [x] /\ length l' = k.
Proof.
  intros Hl. destruct l as [|x l _] using rev_ind; [done|].
  exists l, x. rewrite length_app in Hl. simpl in Hl. split; [done|lia].
Qed.

(** A path of the height of the tree that leads to its root starts at a
    leaf. *)
Lemma verify_path_sound k n x ss ds :
  tree_ok k n -> length ss = k -> length ds = k ->
  String.length x = hash_width -> hashes ss -> hashes (node_leaves n) ->
  collision_free (node_queries n ++ path_queries x ss ds) ->
  verify_path x ss ds = Ok (node_hash n) -> x ∈ node_leaves n.
Proof.
  intros Hn. revert ss ds.
  induction Hn as [p h|k p c Hc IH|k p l r Hl IHl Hr IHr Hne]; intros ss ds Hss Hds Hx Hw Hlw Hcf Hv.
  { destruct ss; [|done]. simpl in *. simplify_eq. set_solver-. }
  all: apply list_snoc in Hss as (ss' & s & -> & Hss).
  all: apply list_snoc in Hds as (ds' & d & -> & Hds).
  all: rewrite path_queries_snoc in Hcf by congruence.
  all: rewrite verify_path_snoc in Hv by congruence.
  all: destruct (verify_path_no_panic x ss' ds') as [v Ev]; [congruence|].
  all: rewrite Ev in Hcf, Hv; simpl in Hv; injection Hv as Hv.
  all: apply Forall_app in Hw as [Hw' Hs]; forall_cons.
  all: pose proof (verify_path_width _ _ _ _ Hx Ev) as Hvw.
  all: cbn [node_queries] in Hcf.
  - rewrite (node_leaves_shared k) in Hlw |- * by done.
    rewrite (tree_ok_not_nil _ _ Hc) in Hcf. cbn [andb] in Hcf.
    pose proof (node_hash_width _ _ Hc Hlw) as Hcw.
    apply Hcf in Hv; [|set_solver-..].
    apply (IH ss' ds'); try done.
    { eapply collision_free_mono; [exact Hcf|]. set_solver-. }
    rewrite Ev. f_equal. destruct d; apply string_app_inj in Hv as [? ?]; congruence.
  - rewrite (node_leaves_pair k) in Hlw |- * by done. apply Forall_app in Hlw as [Hlw Hrw].
    rewrite (tree_ok_not_nil _ _ Hl) in Hcf. cbn [andb] in Hcf.
    pose proof (node_hash_width _ _ Hl Hlw). pose proof (node_hash_width _ _ Hr Hrw).
    apply Hcf in Hv; [|set_solver-..]. apply elem_of_app.
    destruct d; apply string_app_inj in Hv as [? ?]; try congruence; subst.
    + left. apply (IHl ss' ds'); try done.
      eapply collision_free_mono; [exact Hcf|]. set_solver-.
    + right. apply (IHr ss' ds'); try done.
      eapply collision_free_mono; [exact Hcf|]. set_solver-.
Qed.
End soundness.

(** ** Tampered indices *)

Section tampered.
Context `{HF : HashFunction}.

Lemma node_leaves_bounds k n :
  tree_ok k n -> 1 <= length (node_leaves n) <= 2 ^ k.
Proof.
  induction 1 as [p h|k p c Hc IH|k p l r Hl IHl Hr IHr Hne].
  - simpl. lia.
  - rewrite (node_leaves_shared k) by done. simpl. lia.
  - rewrite (node_leaves_pair k), length_app by done. simpl. lia.
Qed.

(** One index per leaf; and, on a tree without shared children, the
    positions of the leaves. *)
Lemma findTamperedLeavesRecursive_ok k n start stop acc :
  tree_ok k n ->
  exists idx, findTamperedLeavesRecursive n start stop acc = acc ++ idx
    /\ length idx = length (node_leaves n)
    /\ (length (node_leaves n) = 2 ^ k -> (0 <= start)%Z -> (stop = start + 2 ^ Z.of_nat k - 1)%Z ->
        idx = seqZ start (2 ^ Z.of_nat k)).
Proof.
  intros Hn. revert start stop acc.
  induction Hn as [p h|k p c Hc IH|k p l r Hl IHl Hr IHr Hne]; intros start stop acc.
  - exists [start]. split; [done|]. split; [done|]. intros _ _ _. done.
  - rewrite (node_leaves_shared k) by done. cbn [findTamperedLeavesRecursive].
    rewrite (tree_ok_not_nil _ _ Hc), ptr_eqb_refl. cbn [andb orb].
    destruct (IH start (Z.quot (start + stop) 2) acc) as (idx & -> & Hlen & _).
    exists idx. split; [done|]. split; [done|]. intros Hfull.
    pose proof (node_leaves_bounds _ _ Hc). simpl in Hfull. lia.
  - rewrite (node_leaves_pair k), length_app by done. cbn [findTamperedLeavesRecursive].
    rewrite (tree_ok_not_nil _ _ Hl), (tree_ok_not_nil _ _ Hr), (ptr_eqb_distinct k l r) by done.
    cbn [andb orb].
    destruct (IHl start (Z.quot (start + stop) 2) acc) as (il & -> & Hil & Hpl).
    destruct (IHr (Z.quot (start + stop) 2 + 1)%Z stop (acc ++ il)) as (ir & -> & Hir & Hpr).
    exists (il ++ ir). split; [by rewrite (assoc (++))|]. rewrite length_app.
    split; [lia|]. intros Hfull Hst ->.
    pose proof (node_leaves_bounds _ _ Hl). pose proof (node_leaves_bounds _ _ Hr).
    simpl in Hfull. rewrite Nat2Z.inj_succ, Z.pow_succ_r in * by lia.
    set (P := (2 ^ Z.of_nat k)%Z) in *. assert (0 < P)%Z by (unfold P; lia).
    assert (Z.quot (start + (start + 2 * P - 1)) 2 = start + P - 1)%Z as Hmid.
    { rewrite Z.quot_div_nonneg by lia. symmetry.
      apply (Z.div_unique _ _ _ 1); lia. }
    rewrite Hmid in *. rewrite Hpl, Hpr by lia.
    replace (start + P - 1 + 1)%Z with (start + P)%Z by lia.
    rewrite <-seqZ_app by lia. f_equal. lia.
Qed.
End tampered.

(** ** Internal nodes *)

Section internal.

Fixpoint path_string (p : list bool) : string :=
  match p with
  | [] => ""
  | isLeft :: p' => (if (isLeft : bool) then "/L" else "/R") +:+ path_string p'
  end.

(** The node a path leads to; the shared child is reached on the left only. *)
Fixpoint node_at (n : MerkleNode) (p : list bool) : option MerkleNode :=
  match n with
  | nilNode => None
  | Node _ _ l r =>
      match p with
      | [] => Some n
      | true :: p' => node_at l p'
      | false :: p' => if ptr_eqb r l then None else node_at r p'
      end
  end.

Lemma path_string_child path b p :
  (path +:+ (if (b : bool) then "/L" else "/R")) +:+ path_string p
  = path +:+ path_string (b :: p).
Proof. by rewrite string_app_assoc. Qed.

Lemma path_string_inj p q : path_string p = path_string q -> p = q.
Proof.
  revert q. induction p as [|[] p IH]; intros [|[] q] Hpq; try done.
  all: simpl in Hpq; apply string_app_inj_l in Hpq; f_equal; auto.
Qed.

Lemma collect_nil path nodes : collectInternalNodes nilNode path nodes = nodes.
Proof. done. Qed.

Lemma collect_guard n b path nodes :
  (if is_nil n || b then nodes else collectInternalNodes n path nodes)
  = if (b : bool) then nodes else collectInternalNodes n path nodes.
Proof. by destruct n, b. Qed.

Lemma collectInternalNodes_lookup n path nodes :
  (forall p, collectInternalNodes n path nodes !! (path +:+ path_string p)
     = match node_at n p with
       | Some n' => Some (node_hash n')
       | None => nodes !! (path +:+ path_string p)
       end)
  /\ (forall k, (forall p, k <> path +:+ path_string p) ->
        collectInternalNodes n path nodes !! k = nodes !! k).
Proof.
  revert path nodes. induction n as [|p0 h l IHl r IHr]; intros path nodes; [done|].
  cbn [collectInternalNodes]. rewrite collect_guard.
  replace (if is_nil l then <[path:=h]> nodes
           else collectInternalNodes l (path +:+ "/L") (<[path:=h]> nodes))
    with (collectInternalNodes l (path +:+ "/L") (<[path:=h]> nodes)) by (by destruct l).
  destruct (IHl (path +:+ "/L") (<[path:=h]> nodes)) as [Hl1 Hl2].
  destruct (IHr (path +:+ "/R")
    (collectInternalNodes l (path +:+ "/L") (<[path:=h]> nodes))) as [Hr1 Hr2].
  set (nl := collectInternalNodes l _ _) in *.
  assert (forall k, (forall p, k <> path +:+ path_string (false :: p)) ->
    (if ptr_eqb r l then nl else collectInternalNodes r (path +:+ "/R") nl) !! k = nl !! k) as HR.
  { intros k Hk. destruct (ptr_eqb r l); [done|]. apply Hr2. intros q.
    rewrite (path_string_child path false). apply Hk. }
  assert (forall k, (forall p, k <> path +:+ path_string (true :: p)) ->
    nl !! k = <[path:=h]> nodes !! k) as HL.
  { intros k Hk. apply Hl2. intros q. rewrite (path_string_child path true). apply Hk. }
  assert (forall p q, p <> q -> path +:+ path_string p <> path +:+ path_string q) as Hpq.
  { intros p q Hne E%string_app_inj_l%path_string_inj. done. }
  split.
  - intros [|[] p].
    + rewrite HR, HL by (intros q; apply Hpq; done). simpl.
      by rewrite string_app_nil_r, lookup_insert_eq.
    + rewrite HR by (intros q; apply Hpq; done).
      rewrite <-(path_string_child path true), Hl1. cbn [node_at]. destruct (node_at l p); [done|].
      apply lookup_insert_ne. rewrite (path_string_child path true).
      rewrite <-(string_app_nil_r path) at 1. by apply (Hpq []).
    + assert (nl !! (path +:+ path_string (false :: p)) = nodes !! (path +:+ path_string (false :: p)))
        as Hnl.
      { rewrite HL by (intros q; apply Hpq; done). apply lookup_insert_ne.
        rewrite <-(string_app_nil_r path) at 1. by apply (Hpq []). }
      cbn [node_at]. destruct (ptr_eqb r l); [done|].
      rewrite <-(path_string_child path false) in Hnl |- *. rewrite Hr1, Hnl. done.
  - intros k Hk. rewrite HR, HL by (intros; apply Hk).
    apply lookup_insert_ne. intros <-. apply (Hk []). by rewrite string_app_nil_r.
Qed.

Lemma collectInternalNodes_keys n path nodes k v :
  collectInternalNodes n path nodes !! k = Some v ->
  nodes !! k = Some v \/ exists p, k = path +:+ path_string p.
Proof.
  revert path nodes. induction n as [|p0 h l IHl r IHr]; intros path nodes Hk; [by left|].
  cbn [collectInternalNodes] in Hk. rewrite collect_guard in Hk.
  assert (forall b p, exists q, (path +:+ (if (b : bool) then "/L" else "/R")) +:+ path_string p
    = path +:+ path_string q) as Hchild.
  { intros b p. exists (b :: p). apply path_string_child. }
  assert (forall m, (if is_nil l then m else collectInternalNodes l (path +:+ "/L") m)
    = collectInternalNodes l (path +:+ "/L") m) as E by (by destruct l).
  rewrite E in Hk. clear E.
  assert (collectInternalNodes l (path +:+ "/L") (<[path := h]> nodes) !! k = Some v
    \/ exists p, k = path +:+ path_string p) as [Hl|]; [|clear Hk|by right].
  { destruct (ptr_eqb r l); [by left|]. apply IHr in Hk as [|[p ->]]; [by left|right].
    apply (Hchild false). }
  apply IHl in Hl as [Hl|[p ->]]; [|right; apply (Hchild true)].
  apply lookup_insert_Some in Hl as [[<- _]|[_ Hl]]; [right|by left].
  exists []. by rewrite string_app_nil_r.
Qed.
End internal.

(** ** Properties *)

(** C19: [Build] fails exactly on an empty builder, never runs out of stack,
    and otherwise leaves a tree whose root is the one [MerkleTree.GetRoot]
    computes for the same leaves: the pointer tree and the level-by-level
    loop are equivalent implementations, independent of insertion order. *)
Theorem Build_equivalent {HF : HashFunction} (mtb : MerkleTreeBuilder) (mt : MerkleTree) :
  leaves mtb ≡ₚ mt_leaves mt ->
  match Build mtb with
  | (Err e, mtb') => leaves mtb = [] /\ mtb' = mtb /\ e = Errorf "no leaves to build tree"
  | (Ok _, mtb') => leaves mtb <> [] /\ mt_GetRoot mt = Some (GetRoot mtb')
  | (Panic _, _) => False
  end.
Proof.
  intros Hp. destruct (Build_cases mtb) as [[Hnil ->]|(mtb' & -> & Hb & Hne & El & _)]; [done|].
  split; [done|]. by rewrite mt_GetRoot_sorted, (built_GetRoot mtb' Hb), El, Hp.
Qed.

(** A builder over the digests of a, b and c, for the witnesses. *)
Definition digest (s : string) : string := hash (HashFunction := sha256_function) s.

Definition example_builder : MerkleTreeBuilder :=
  AddLeafHash (AddLeafHash (AddLeafHash NewMerkleTreeBuilder
    "1" (digest "a")) "2" (digest "b")) "3" (digest "c").

Definition example_built : MerkleTreeBuilder := (Build (HF := sha256_function) example_builder).2.

Lemma example_builder_ok : builder_ok example_builder.
Proof. repeat apply AddLeafHash_ok. apply NewMerkleTreeBuilder_ok. Qed.

Theorem Build_equivalent_witness :
  match Build (HF := sha256_function) example_builder with
  | (Err e, mtb') =>
      leaves example_builder = [] /\ mtb' = example_builder
      /\ e = Errorf "no leaves to build tree"
  | (Ok _, mtb') =>
      leaves example_builder <> []
      /\ mt_GetRoot (H := sha256_function) {| mt_leaves := leaves example_builder |}
         = Some (GetRoot mtb')
  | (Panic _, _) => False
  end.
Proof. by apply (Build_equivalent (HF := sha256_function) example_builder {| mt_leaves := _ |}). Defined.

(** C17: proofs are complete.  After [Build], every record the builder knows
    has a proof; the proof carries the record's leaf hash and the position of
    that hash among the sorted leaves, its path has exactly the height
    [log2_up n] of the tree, and [Verify] accepts it for the root. *)
Theorem GetProof_Verify {HF : HashFunction} (mtb mtb' : MerkleTreeBuilder)
    (recordID leafHash : string) :
  builder_ok mtb -> Build mtb = (Ok tt, mtb') ->
  leafDataMap mtb !! recordID = Some leafHash ->
  exists p, GetProof mtb' recordID = Ok p
    /\ LeafHash p = leafHash
    /\ GetSortedLeaves mtb' !! Z.to_nat (LeafIndex p) = Some leafHash
    /\ length (Siblings p) = Nat.log2_up (GetLeafCount mtb)
    /\ Verify p (GetRoot mtb') = Ok true.
Proof.
  intros Hok HB Hid.
  destruct (Build_cases mtb) as [[_ E]|(m & E & Hb & Hne & El & Ed & _)]; [congruence|].
  rewrite HB in E. injection E as <-. unfold GetProof, GetSortedLeaves. rewrite Ed, Hid, El.
  assert (leafHash ∈ sort_strings (leaves mtb)) as Hin.
  { rewrite elem_of_sort_strings. by eapply data_map_leaves. }
  destruct Hb as [Ht Hh Hl]. rewrite El in Ht, Hh, Hl.
  assert (exists i, first_index leafHash (sort_strings (leaves mtb)) = Some i
    /\ sort_strings (leaves mtb) !! i = Some leafHash) as (i & -> & Hi).
  { unfold first_index.
    destruct (list_find_elem_of (fun leaf => leaf = leafHash) _ _ Hin eq_refl) as [[i h] Ei].
    exists i. rewrite Ei. apply list_find_Some in Ei as (Hi & -> & _). done. }
  pose proof (buildProof_ok _ _ leafHash ([], []) 0
    (Z.of_nat (length (sort_strings (leaves mtb))) - 1) Ht) as Hbp.
  rewrite Hl in Hbp.
  destruct (root mtb') as [|p0 h0 l0 r0] eqn:Er; [by inversion Ht|]. rewrite <-Er in *.
  destruct (buildProof (root mtb') leafHash _ _ _) as [found [ss ds]].
  destruct Hbp as [-> Hbp]. rewrite bool_decide_eq_true_2 in Hbp by done.
  destruct Hbp as (ss' & ds' & Heq & Hss & Hds & Hv). simpl in Heq. simplify_eq.
  eexists. split; [done|]. simpl. rewrite Nat2Z.id. repeat split; [done|done|].
  unfold Verify. simpl. rewrite Hv. simpl. f_equal. apply bool_decide_eq_true.
  unfold GetRoot. rewrite Er. done.
Qed.

Theorem GetProof_Verify_witness :
  exists p, GetProof example_built "2" = Ok p
    /\ LeafHash p = digest "b"
    /\ GetSortedLeaves example_built !! Z.to_nat (LeafIndex p) = Some (digest "b")
    /\ length (Siblings p) = Nat.log2_up (GetLeafCount example_builder)
    /\ Verify (HF := sha256_function) p (GetRoot example_built) = Ok true.
Proof.
  apply (GetProof_Verify (HF := sha256_function) example_builder).
  - apply example_builder_ok.
  - by_vm.
  - by_vm.
Defined.

(** C16: proofs are sound, for hashes of one width.  Let a built tree have
    leaves of the hash width, and let a proof have a leaf hash and siblings
    of that width and a path of the height of the tree.  If [Verify] accepts
    it, its leaf hash is one of the builder's leaves, unless two of the
    strings hashed by the tree and by the path collide.  [Verify] itself
    checks neither the widths nor the height, so that a caller has to. *)
Theorem Verify_sound {HF : HashFunction} (mtb mtb' : MerkleTreeBuilder) (p : MerkleProof) :
  Build mtb = (Ok tt, mtb') ->
  hashes (leaves mtb) -> String.length (LeafHash p) = hash_width -> hashes (Siblings p) ->
  length (Siblings p) = Nat.log2_up (GetLeafCount mtb) ->
  length (Directions p) = Nat.log2_up (GetLeafCount mtb) ->
  collision_free (node_queries (root mtb')
                  ++ path_queries (LeafHash p) (Siblings p) (Directions p)) ->
  Verify p (GetRoot mtb') = Ok true ->
  LeafHash p ∈ leaves mtb.
Proof.
  intros HB Hw Hlh Hsw Hss Hds Hcf Hv.
  destruct (Build_cases mtb) as [[_ E]|(m & E & Hb & Hne & El & _)]; [congruence|].
  rewrite HB in E. injection E as <-.
  pose proof Hb as [Ht Hh Hl]. rewrite El in Ht, Hl.
  rewrite <-elem_of_sort_strings, <-Hl.
  apply (verify_path_sound _ _ _ (Siblings p) (Directions p) Ht); try done.
  { rewrite Hl. by apply hashes_sort. }
  unfold Verify in Hv. destruct (verify_path _ _ _) as [h| |]; try done.
  injection Hv as Hv. apply bool_decide_eq_true in Hv. rewrite Hv.
  rewrite (built_GetRoot mtb' Hb), <-(built_hash mtb' Hb). done.
Qed.

Definition example_proof : MerkleProof :=
  match GetProof example_built "2" with
  | Ok p => p
  | _ => {| LeafHash := ""; LeafIndex := 0; Siblings := []; Directions := [] |}
  end.

(** The widths matter: for the leaves a and b, a prefix of a as leaf hash and
    the rest of it before b as sibling hash to the root. *)
Example Verify_checks_no_width {HF : HashFunction} :
  let b := (Build (AddLeafHash (AddLeafHash NewMerkleTreeBuilder "1" "aa") "2" "bb")).2 in
  Verify {| LeafHash := "a"; LeafIndex := 0; Siblings := ["abb"]; Directions := [true] |} (GetRoot b)
  = Ok true /\ "a" ∉ leaves b.
Proof.
  split; [|simpl; set_solver]. unfold Verify. simpl verify_path. cbn [fmap result_fmap].
  f_equal. by apply bool_decide_eq_true.
Qed.

Theorem Verify_sound_witness : LeafHash example_proof ∈ leaves example_builder.
Proof.
  apply (Verify_sound (HF := sha256_function) example_builder example_built example_proof).
  - by_vm.
  - by_decide.
  - by_vm.
  - by_decide.
  - by_vm.
  - by_vm.
  - by_decide.
  - by_vm.
Defined.

(** [FindTamperedLeaves] does not compare leaves: whenever the stored
    root differs from the tree's, it reports every leaf exactly once, and
    when the number of leaves is a power of two the indices are the positions
    [0 .. n-1] of the leaves. *)
Lemma FindTamperedLeaves_all {HF : HashFunction} (mtb mtb' : MerkleTreeBuilder)
    (storedRoot : string) :
  Build mtb = (Ok tt, mtb') -> storedRoot <> GetRoot mtb' ->
  exists idx, FindTamperedLeaves mtb' storedRoot = Ok idx
    /\ length idx = GetLeafCount mtb
    /\ (GetLeafCount mtb = 2 ^ Nat.log2_up (GetLeafCount mtb) ->
        idx = seqZ 0 (Z.of_nat (GetLeafCount mtb))).
Proof.
  intros HB Hne.
  destruct (Build_cases mtb) as [[_ E]|(m & E & Hb & _ & El & _)]; [congruence|].
  rewrite HB in E. injection E as <-. pose proof Hb as [Ht Hh Hl]. rewrite El in Ht, Hl.
  unfold FindTamperedLeaves, GetLeafCount. rewrite El.
  destruct (findTamperedLeavesRecursive_ok _ _ 0 (Z.of_nat (length (leaves mtb)) - 1) [] Ht)
    as (idx & Hidx & Hlen & Hpow).
  rewrite Hl, length_sort_strings in Hlen, Hpow. simpl in Hidx.
  destruct (root mtb') as [|p h l r] eqn:Er; [by inversion Ht|]. rewrite <-Er in *.
  rewrite decide_False.
  - exists idx. rewrite Hidx. repeat split; [done|]. intros Hp.
    assert (Z.of_nat (length (leaves mtb))
      = 2 ^ Z.of_nat (Nat.log2_up (length (leaves mtb))))%Z as Hz.
    { rewrite Hp at 1. by rewrite Nat2Z.inj_pow. }
    rewrite Hz. apply Hpow; lia.
  - intros E. apply Hne. unfold GetRoot. rewrite Er in *. by rewrite <-E.
Qed.

(** With five leaves the indices [FindTamperedLeaves] reports are wrong:
    the fifth leaf is reported as index 3 and index 4 never appears, because
    the recursion halves the index range while the tree pairs from the
    left. *)
Lemma FindTamperedLeaves_five {HF : HashFunction} (mtb mtb' : MerkleTreeBuilder)
    (storedRoot : string) :
  Build mtb = (Ok tt, mtb') -> GetLeafCount mtb = 5 -> storedRoot <> GetRoot mtb' ->
  FindTamperedLeaves mtb' storedRoot = Ok [0; 1; 2; 3; 3]%Z.
Proof.
  unfold GetLeafCount. intros HB H5 Hne. unfold Build in HB.
  pose proof (length_sort_strings (leaves mtb)) as Hls. rewrite H5 in Hls.
  destruct (leaves mtb) as [|x xs] eqn:El; [done|].
  destruct (sort_strings (x :: xs)) as [|a [|b [|c [|d [|e []]]]]]; try done.
  cbn -[hash String.append] in HB. injection HB as <-.
  unfold FindTamperedLeaves. cbn [root leaves].
  rewrite decide_False by (intros E; apply Hne; by rewrite <-E). rewrite H5. reflexivity.
Qed.

(** [GetInternalNodes] maps paths to node hashes: on a built tree the
    key root followed by a path of /L and /R steps holds the hash of the node
    the path leads to, a shared child being named by its left path only; no
    other key is present, and the key root holds the root. *)
Lemma GetInternalNodes_spec (mtb : MerkleTreeBuilder) :
  (forall p, GetInternalNodes mtb !! ("root" +:+ path_string p)
             = node_hash <$> node_at (root mtb) p)
  /\ (forall key, is_Some (GetInternalNodes mtb !! key) ->
        exists p, key = "root" +:+ path_string p)
  /\ (root mtb <> nilNode -> GetInternalNodes mtb !! "root" = Some (GetRoot mtb)).
Proof.
  unfold GetInternalNodes, GetRoot.
  destruct (root mtb) as [|p0 h l r]; [split_and!; [done|by intros ? []|done]|].
  pose proof (collectInternalNodes_lookup (Node p0 h l r) "root" ∅) as [H1 H2].
  split_and!.
  - intros p. rewrite H1, lookup_empty. by destruct (node_at _ p).
  - intros key [v Hk].
    apply collectInternalNodes_keys in Hk as [Hk|]; [|done]. by rewrite lookup_empty in Hk.
  - intros _. specialize (H1 []). by rewrite string_app_nil_r in H1.
Qed.

Theorem GetInternalNodes_spec_witness :
  (forall p, GetInternalNodes example_built !! ("root" +:+ path_string p)
             = node_hash <$> node_at (root example_built) p)
  /\ (forall key, is_Some (GetInternalNodes example_built !! key) ->
        exists p, key = "root" +:+ path_string p)
  /\ (root example_built <> nilNode ->
      GetInternalNodes example_built !! "root" = Some (GetRoot example_built)).
Proof. exact (GetInternalNodes_spec example_built). Defined.
