(* ===== verification/MerkleCompare.v ===== *)
(** * internal/hash/merkle.go, lines 302-464: comparing two sets of leaves

    [CompareLeafMaps] is what the detailed verification reports from;
    [CompareTrees], [CompareTreesDetailed] and [CompareLeafMapsWithNodes] put
    a comparison of roots before it.  A nil pointer or a nil map is [None];
    every [range] loop has its own iteration order. *)

From S2P Require Import Prelude Bytes Json JsonFacts Codec Sha256 Hasher HashTree DataHash Merkle.
From S2P Require Import MerkleFacts.

Record DifferingRecord := {
  RecordID : string;
  ExpectedHash : string;
  ActualHash : string;
  Type_ : string
}.

#[export] Instance DifferingRecord_eq_dec : EqDecision DifferingRecord.
Proof. solve_decision. Defined.

Definition missing_in_actual (recordID expectedHash : string) : DifferingRecord :=
  {| RecordID := recordID; ExpectedHash := expectedHash; ActualHash := "";
     Type_ := "missing_in_actual" |}.

Definition modified (recordID expectedHash actualHash : string) : DifferingRecord :=
  {| RecordID := recordID; ExpectedHash := expectedHash; ActualHash := actualHash;
     Type_ := "modified" |}.

Definition missing_in_expected (recordID actualHash : string) : DifferingRecord :=
  {| RecordID := recordID; ExpectedHash := ""; ActualHash := actualHash;
     Type_ := "missing_in_expected" |}.

Section compare.
Context `{RO : RangeOrder}.

(** The body of the loop over the expected records. *)
Definition compare_expected (actual : gmap string string) (differing : list DifferingRecord)
    (kv : string * string) : list DifferingRecord :=
  let '(recordID, expectedHash) := kv in
  match actual !! recordID with
  | None => differing ++ [missing_in_actual recordID expectedHash]
  | Some actualHash =>
      if decide (expectedHash <> actualHash)
      then differing ++ [modified recordID expectedHash actualHash]
      else differing
  end.

(** The body of the loop over the actual records. *)
Definition compare_actual (expected : gmap string string) (differing : list DifferingRecord)
    (kv : string * string) : list DifferingRecord :=
  let '(recordID, actualHash) := kv in
  match expected !! recordID with
  | None => differing ++ [missing_in_expected recordID actualHash]
  | Some _ => differing
  end.

Definition CompareLeafMaps (expected actual : gmap string string) : list DifferingRecord :=
  let differing := foldl (compare_expected actual) [] (range_map 0 expected) in
  foldl (compare_actual expected) differing (range_map 1 actual).

(** The quick check of [CompareLeafMapsWithNodes] on the two root entries. *)
Definition root_entries_match (expectedNodes actualNodes : option (gmap string string)) : bool :=
  match expectedNodes, actualNodes with
  | Some en, Some an =>
      match en !! "root", an !! "root" with
      | Some expectedRoot, Some actualRoot => bool_decide (expectedRoot = actualRoot)
      | _, _ => false
      end
  | _, _ => false
  end.

(** A nil or empty map of nodes. *)
Definition no_nodes (nodes : option (gmap string string)) : bool :=
  match nodes with
  | None => true
  | Some m => bool_decide (size m = 0)
  end.

Definition CompareLeafMapsWithNodes (expected actual : gmap string string)
    (expectedNodes actualNodes : option (gmap string string)) : list DifferingRecord :=
  if root_entries_match expectedNodes actualNodes then []
  else if no_nodes expectedNodes || no_nodes actualNodes then CompareLeafMaps expected actual
  else CompareLeafMaps expected actual.

(** [expected.root != nil && actual.root != nil && expected.root.Hash == actual.root.Hash] *)
Definition roots_match (expected actual : MerkleTreeBuilder) : bool :=
  negb (is_nil (root expected)) && negb (is_nil (root actual))
  && bool_decide (node_hash (root expected) = node_hash (root actual)).

Definition CompareTreesDetailed (expected actual : option MerkleTreeBuilder)
    : option (list DifferingRecord) :=
  match expected, actual with
  | Some e, Some a =>
      if roots_match e a then Some []
      else
        let differing := foldl (compare_expected (leafDataMap a)) [] (range_map 2 (leafDataMap e)) in
        Some (foldl (compare_actual (leafDataMap e)) differing (range_map 3 (leafDataMap a)))
  | _, _ => None
  end.

(** [for i, h := range actualLeaves { actualHashToIdx[h] = i }] *)
Fixpoint hash_to_idx (i : nat) (actualLeaves : list string) (m : gmap string nat)
    : gmap string nat :=
  match actualLeaves with
  | [] => m
  | h :: rest => hash_to_idx (S i) rest (<[h := i]> m)
  end.

Definition compareByRecordID (expected actual : MerkleTreeBuilder) : list nat :=
  let actualHashToIdx := hash_to_idx 0 (GetSortedLeaves actual) ∅ in
  foldl (fun differing kv =>
    let '(recordID, expectedHash) := kv in
    let actualHash := default "" (leafDataMap actual !! recordID) in
    if bool_decide (leafDataMap actual !! recordID = None)
       || bool_decide (expectedHash <> actualHash)
    then if decide (actualHash <> "")
         then match actualHashToIdx !! actualHash with
              | Some idx => differing ++ [idx]
              | None => differing
              end
         else differing
    else differing) [] (range_map 4 (leafDataMap expected)).

Definition CompareTrees (expected actual : option MerkleTreeBuilder) : option (list nat) :=
  match expected, actual with
  | Some e, Some a => if roots_match e a then Some [] else Some (compareByRecordID e a)
  | _, _ => None
  end.

(** ** What a comparison should report

    The difference of two maps at one record, if there is one. *)
Definition difference_at (expected actual : gmap string string) (recordID : string)
    : option DifferingRecord :=
  match expected !! recordID, actual !! recordID with
  | Some e, Some a => if decide (e = a) then None else Some (modified recordID e a)
  | Some e, None => Some (missing_in_actual recordID e)
  | None, Some a => Some (missing_in_expected recordID a)
  | None, None => None
  end.

(** [l] lists every difference of the two maps once, and nothing else. *)
Definition exact_differences (expected actual : gmap string string)
    (l : list DifferingRecord) : Prop :=
  NoDup (RecordID <$> l)
  /\ forall r, r ∈ l <-> difference_at expected actual (RecordID r) = Some r.

(** Each loop appends what its body finds, in the order of the range. *)
Definition expected_part (actual : gmap string string) (kv : string * string)
    : option DifferingRecord :=
  match actual !! kv.1 with
  | None => Some (missing_in_actual kv.1 kv.2)
  | Some a => if decide (kv.2 = a) then None else Some (modified kv.1 kv.2 a)
  end.

Definition actual_part (expected : gmap string string) (kv : string * string)
    : option DifferingRecord :=
  match expected !! kv.1 with
  | None => Some (missing_in_expected kv.1 kv.2)
  | Some _ => None
  end.

Lemma foldl_omap {A B} (f : list B -> A -> list B) (g : A -> option B) :
  (forall acc x, f acc x = acc ++ option_list (g x)) ->
  forall l acc, foldl f acc l = acc ++ omap g l.
Proof.
  intros Hf l. induction l as [|x l IH]; intros acc; cbn [foldl omap list_omap].
  - by rewrite app_nil_r.
  - rewrite IH, Hf, <-app_assoc. simpl. by destruct (g x).
Qed.

Lemma compare_loops site1 site2 expected actual :
  foldl (compare_actual expected)
    (foldl (compare_expected actual) [] (range_map site1 expected)) (range_map site2 actual)
  = omap (expected_part actual) (range_map site1 expected)
    ++ omap (actual_part expected) (range_map site2 actual).
Proof.
  rewrite (foldl_omap _ (actual_part expected)), (foldl_omap _ (expected_part actual)); [done|..];
    intros acc [k v]; unfold compare_expected, compare_actual, expected_part, actual_part; simpl;
    destruct (_ !! k); simpl; try (by rewrite app_nil_r); try done.
  destruct (decide (v = s)) as [->|]; destruct (decide _); simpl; naive_solver eauto using app_nil_r.
Qed.

Lemma NoDup_omap_key (g : string * string -> option DifferingRecord) l :
  (forall kv r, g kv = Some r -> RecordID r = kv.1) ->
  NoDup l.*1 -> NoDup (RecordID <$> omap g l).
Proof.
  intros Hg. induction l as [|kv l IH]; intros Hnd; [constructor|].
  rewrite fmap_cons in Hnd. apply NoDup_cons in Hnd as [Hnin Hnd].
  cbn [omap list_omap]. destruct (g kv) as [r|] eqn:E; [|by apply IH].
  rewrite fmap_cons. constructor; [|by apply IH].
  intros (r' & Hid & (kv' & Hin & E')%list_elem_of_omap)%list_elem_of_fmap.
  apply Hnin. rewrite (Hg _ _ E), (Hg _ _ E') in Hid. rewrite Hid. apply list_elem_of_fmap. eauto.
Qed.

Lemma compare_loops_exact site1 site2 expected actual :
  exact_differences expected actual
    (omap (expected_part actual) (range_map site1 expected)
     ++ omap (actual_part expected) (range_map site2 actual)).
Proof.
  assert (forall kv r, expected_part actual kv = Some r -> RecordID r = kv.1) as He.
  { intros [k v] r E. unfold expected_part in E. go_cases. }
  assert (forall kv r, actual_part expected kv = Some r -> RecordID r = kv.1) as Ha.
  { intros [k v] r E. unfold actual_part in E. go_cases. }
  assert (forall r, r ∈ omap (expected_part actual) (range_map site1 expected) <->
    exists e, expected !! RecordID r = Some e
      /\ expected_part actual (RecordID r, e) = Some r) as Hine.
  { intros r. rewrite list_elem_of_omap. split.
    - intros ([k v] & Hin%elem_of_range_map & E). pose proof (He _ _ E) as ->. eauto.
    - intros (e & Hl & E). exists (RecordID r, e). by rewrite elem_of_range_map. }
  assert (forall r, r ∈ omap (actual_part expected) (range_map site2 actual) <->
    exists a, actual !! RecordID r = Some a
      /\ actual_part expected (RecordID r, a) = Some r) as Hina.
  { intros r. rewrite list_elem_of_omap. split.
    - intros ([k v] & Hin%elem_of_range_map & E). pose proof (Ha _ _ E) as ->. eauto.
    - intros (e & Hl & E). exists (RecordID r, e). by rewrite elem_of_range_map. }
  split.
  - rewrite fmap_app. apply NoDup_app. split; [|split].
    + apply NoDup_omap_key; [done|apply NoDup_fst_range_map].
    + intros k (r & -> & (e & Hl & _)%Hine)%list_elem_of_fmap
             (r' & Hid & (a & _ & E)%Hina)%list_elem_of_fmap.
      unfold actual_part in E. simpl in E. by rewrite <-Hid, Hl in E.
    + apply NoDup_omap_key; [done|apply NoDup_fst_range_map].
  - intros r. rewrite elem_of_app, Hine, Hina.
    unfold difference_at, expected_part, actual_part. simpl.
    destruct (expected !! RecordID r) as [e|], (actual !! RecordID r) as [a|];
      (split; [intros [(x & [= <-] & E)|(x & [= <-] & E)]; done|intros E; try done; eauto]).
Qed.

Lemma exact_differences_nil expected actual :
  exact_differences expected actual [] <-> expected = actual.
Proof.
  split.
  - intros [_ Hr]. apply map_eq. intros k.
    destruct (difference_at expected actual k) as [r|] eqn:E.
    + assert (RecordID r = k) as <- by (unfold difference_at in E; go_cases).
      apply Hr in E. set_solver.
    + unfold difference_at in E. go_cases.
  - intros ->. split; [constructor|]. intros r. split; [set_solver|].
    intros E. unfold difference_at in E. go_cases.
Qed.

Lemma CompareLeafMaps_exact expected actual :
  exact_differences expected actual (CompareLeafMaps expected actual).
Proof. unfold CompareLeafMaps. rewrite compare_loops. apply compare_loops_exact. Qed.

(** ** Positions in the actual tree *)

(** [h] occurs last at [i]. *)
Definition last_at (l : list string) (h : string) (i : nat) : Prop :=
  l !! i = Some h /\ forall j, i < j -> l !! j <> Some h.

Lemma hash_to_idx_spec l i m h idx :
  hash_to_idx i l m !! h = Some idx <->
  (exists j, last_at l h j /\ idx = i + j) \/ (h ∉ l /\ m !! h = Some idx).
Proof.
  revert i m. induction l as [|x l IH]; intros i m; cbn [hash_to_idx].
  { split; [intros Hm; right; split; [set_solver|done]|].
    intros [(j & [Hj _] & _)|[_ Hm]]; done. }
  rewrite IH, lookup_insert_Some, not_elem_of_cons. split.
  - intros [(j & [Hj Hlast] & ->)|[Hnin [[-> <-]|[Hne Hm]]]]; [left..|right; split; auto].
    + exists (S j). split; [|lia]. split; [done|]. intros [|j'] Hlt; [lia|]. apply Hlast. lia.
    + exists 0. split; [|lia]. split; [done|]. intros [|j'] Hlt; [lia|].
      intros Hj. apply Hnin. by eapply list_elem_of_lookup_2.
  - intros [(j & [Hj Hlast] & ->)|[[Hne Hnin] Hm]]; [|right; split; auto].
    destruct j as [|j].
    + injection Hj as ->. right. split; [|left; split; [done|lia]].
      intros [j Hj]%list_elem_of_lookup_1. by apply (Hlast (S j) ltac:(lia)).
    + left. exists j. split; [|lia]. split; [done|]. intros j' Hlt. by apply (Hlast (S j') ltac:(lia)).
Qed.

Lemma compareByRecordID_spec expected actual idx :
  idx ∈ compareByRecordID expected actual <->
  exists recordID e a,
    difference_at (leafDataMap expected) (leafDataMap actual) recordID
    = Some (modified recordID e a)
    /\ a <> "" /\ last_at (GetSortedLeaves actual) a idx.
Proof.
  unfold compareByRecordID.
  set (m := hash_to_idx _ _ _).
  rewrite (foldl_omap _ (fun kv =>
    match leafDataMap actual !! kv.1 with
    | Some a => if decide (kv.2 <> a /\ a <> "") then m !! a else None
    | None => None
    end)); cycle 1.
  { intros acc [k v]. simpl. destruct (leafDataMap actual !! k) as [a|]; simpl;
      repeat (case_decide || case_bool_decide || case_match); naive_solver eauto using app_nil_r. }
  simpl. rewrite list_elem_of_omap. unfold difference_at. split.
  - intros ([k v] & Hin%elem_of_range_map & E). simpl in E.
    destruct (leafDataMap actual !! k) as [a|] eqn:Ea; [|done].
    case_decide as Hd; [|done]. destruct Hd as [Hne Hn0].
    apply hash_to_idx_spec in E as [(j & Hj & ->)|[_ E]]; [|by rewrite lookup_empty in E].
    exists k, v, a. rewrite Hin, Ea. by rewrite decide_False.
  - intros (k & e & a & Hd & Hn0 & Hlast).
    destruct (leafDataMap expected !! k) as [e'|] eqn:Ee, (leafDataMap actual !! k) as [a'|] eqn:Ea;
      try done. case_decide; simplify_eq. exists (k, e). rewrite elem_of_range_map. split; [done|].
    simpl. rewrite Ea, decide_True by done. apply hash_to_idx_spec. left. by exists idx.
Qed.
End compare.

(** ** Properties *)

(** C32: [CompareLeafMaps] has no false positives and no false negatives:
    whatever order Go iterates the maps in, it lists each record at which the
    two maps differ exactly once, with the right kind and the two hashes, and
    it is empty exactly when the maps are equal. *)
Theorem CompareLeafMaps_spec {RO : RangeOrder} (expected actual : gmap string string) :
  exact_differences expected actual (CompareLeafMaps expected actual)
  /\ (CompareLeafMaps expected actual = [] <-> expected = actual).
Proof.
  pose proof (CompareLeafMaps_exact expected actual) as Hx. split; [done|].
  split; [intros E; rewrite E in Hx; by apply exact_differences_nil|].
  intros ->. apply elem_of_nil_inv. intros r Hr. apply Hx in Hr.
  unfold difference_at in Hr. go_cases.
Qed.

(** When the two roots differ, [CompareTrees] reports exactly the
    positions, among the actual tree's sorted leaves, of the leaves of the
    modified records: a record that was deleted or added is never reported,
    so two trees that differ only so compare as if they were equal. *)
Lemma CompareTrees_modified_only {RO : RangeOrder} (expected actual : MerkleTreeBuilder) :
  roots_match expected actual = false ->
  exists l, CompareTrees (Some expected) (Some actual) = Some l
    /\ (forall idx, idx ∈ l <->
          exists recordID e a,
            difference_at (leafDataMap expected) (leafDataMap actual) recordID
            = Some (modified recordID e a)
            /\ a <> "" /\ last_at (GetSortedLeaves actual) a idx)
    /\ ((forall recordID e a, leafDataMap expected !! recordID = Some e ->
          leafDataMap actual !! recordID = Some a -> e = a) -> l = []).
Proof.
  intros Hr. exists (compareByRecordID expected actual). unfold CompareTrees. rewrite Hr.
  split; [done|]. split; [intros idx; apply compareByRecordID_spec|].
  intros Hsame. apply elem_of_nil_inv. intros idx (k & e & a & Hd & _)%compareByRecordID_spec.
  unfold difference_at in Hd. repeat case_match; simplify_eq/=. naive_solver.
Qed.

(** C33: the quick check on roots can hide an added record.  If a built tree
    has an odd number of at least three leaves and one more record, under an
    ID it does not have, is added whose leaf is the greatest leaf again, then
    the two roots are equal and [CompareTreesDetailed] reports no difference,
    whatever the hash function, although comparing the two leaf maps reports
    exactly that record. *)
Theorem CompareTreesDetailed_duplicate {RO : RangeOrder} {HF : HashFunction}
    (mtb expected actual : MerkleTreeBuilder) (recordID x : string) :
  Build mtb = (Ok tt, expected) ->
  Build (AddLeafHash mtb recordID x) = (Ok tt, actual) ->
  Nat.Odd (GetLeafCount mtb) -> 3 <= GetLeafCount mtb ->
  x ∈ leaves mtb -> Forall (fun y => String.le y x) (leaves mtb) ->
  leafDataMap mtb !! recordID = None ->
  CompareTreesDetailed (Some expected) (Some actual) = Some []
  /\ CompareLeafMaps (leafDataMap expected) (leafDataMap actual)
     = [missing_in_expected recordID x].
Proof.
  intros He Ha Hodd H3 Hin Hmax Hid.
  destruct (Build_cases mtb) as [[_ E]|(e & E & Hbe & _ & Ele & Ede & _)]; [congruence|].
  destruct (Build_cases (AddLeafHash mtb recordID x))
    as [[_ E']|(a & E' & Hba & _ & Ela & Eda & _)]; [congruence|].
  rewrite He in E. rewrite Ha in E'. injection E as <-. injection E' as <-. split.
  - unfold CompareTreesDetailed, roots_match.
    rewrite (tree_ok_not_nil _ _ (built_tree _ Hbe)), (tree_ok_not_nil _ _ (built_tree _ Hba)).
    rewrite (built_hash _ Hbe), (built_hash _ Hba), Ele, Ela. simpl.
    rewrite merkle_root_sorted_duplicate by done. by rewrite bool_decide_eq_true_2.
  - rewrite Ede, Eda. simpl.
    pose proof (CompareLeafMaps_exact (leafDataMap mtb) (<[recordID := x]> (leafDataMap mtb)))
      as [Hnd Hx].
    apply Permutation_singleton_r, NoDup_Permutation.
    + by eapply NoDup_fmap_1, Hnd.
    + apply NoDup_singleton.
    + intros r. rewrite Hx, list_elem_of_singleton. unfold difference_at. split.
      * destruct (decide (RecordID r = recordID)) as [Er|Hne].
        -- rewrite Er, Hid, lookup_insert_eq. congruence.
        -- rewrite lookup_insert_ne by done. go_cases.
      * intros ->. simpl. by rewrite Hid, lookup_insert_eq.
Qed.

(** Three records, and a fourth with the hash of the third. *)
Definition three_records : MerkleTreeBuilder :=
  AddLeafHash (AddLeafHash (AddLeafHash NewMerkleTreeBuilder "1" "aa") "2" "bb") "3" "cc".

Theorem CompareTreesDetailed_duplicate_witness :
  let expected := (Build (HF := sha256_function) three_records).2 in
  let actual := (Build (HF := sha256_function) (AddLeafHash three_records "4" "cc")).2 in
  CompareTreesDetailed (RO := canonical_order) (Some expected) (Some actual) = Some []
  /\ CompareLeafMaps (RO := canonical_order) (leafDataMap expected) (leafDataMap actual)
     = [missing_in_expected "4" "cc"].
Proof.
  apply (CompareTreesDetailed_duplicate (RO := canonical_order) (HF := sha256_function)
    three_records).
  - by_vm.
  - by_vm.
  - by exists 1.
  - by_decide.
  - by_decide.
  - by_decide.
  - reflexivity.
Defined.

