(* ===== verification/Bolt.v ===== *)
(** * The bbolt database the program stores in

    bbolt is a library: a bucket is abstract here, and [BoltLaws] states what
    its documentation promises.  [contents] is the map a bucket stands for;
    [Get] and [Put] are lookup and insert on it, a blank or too large key or
    a too large value is refused, and cursors visit the pairs in bytewise
    order of their keys.  [map_bolt] is one implementation, for the
    witnesses.  Transactions follow [DB.Update] and [DB.View]: a closed
    database refuses both, an error or a panic in the function rolls back,
    and so does a failing commit, whose outcome is the argument [io]. *)

From S2P Require Import Prelude Bytes Json JsonFacts Codec.

Class Bolt := {
  bucket : Type;
  new_bucket : bucket;
  contents : bucket -> gmap string string;
  Get : bucket -> string -> option string;
  Put : bucket -> string -> string -> result bucket;
  Delete : bucket -> string -> result bucket;
  pairs : bucket -> list (string * string)
}.

(** [MaxKeySize] and [MaxValueSize] of bbolt. *)
Definition storable (k v : string) : Prop :=
  k <> "" /\ (N.of_nat (String.length k) <= 32768)%N /\ (N.of_nat (String.length v) <= 2147483646)%N.

#[export] Instance storable_dec k v : Decision (storable k v).
Proof. unfold storable. apply _. Defined.

Class BoltLaws (B : Bolt) : Prop := {
  contents_new : contents new_bucket = ∅;
  Get_contents : forall b k, Get b k = contents b !! k;
  Put_contents : forall b k v, storable k v ->
    exists b', Put b k v = Ok b' /\ contents b' = <[k := v]> (contents b);
  Put_refuses : forall b k v, ~ storable k v -> exists e, Put b k v = Err e;
  Delete_contents : forall b k,
    exists b', Delete b k = Ok b' /\ contents b' = delete k (contents b);
  pairs_contents : forall b, pairs b = sorted_pairs (contents b)
}.

(** ** One implementation *)

Definition map_bolt : Bolt := {|
  bucket := gmap string string;
  new_bucket := ∅;
  contents := id;
  Get b k := b !! k;
  Put b k v := if decide (storable k v) then Ok (<[k := v]> b) else Err (External "refused");
  Delete b k := Ok (delete k b);
  pairs := sorted_pairs
|}.

#[export] Instance map_bolt_laws : BoltLaws map_bolt.
Proof.
  split; try done; intros b k; simpl.
  - intros v Hs. rewrite decide_True by done. eauto.
  - intros v Hs. rewrite decide_False by done. eauto.
  - eauto.
Qed.

(** ** Databases and transactions *)

Section db.
Context `{B : Bolt}.

Record DB := { db_open : bool; db_buckets : gmap string bucket }.

Definition not_open : error := External "database not open".

Definition Update (io : option error) (fn : gmap string bucket -> result (gmap string bucket))
    (db : DB) : result unit * DB :=
  if db_open db then
    match fn (db_buckets db) with
    | Ok bs =>
        match io with
        | None => (Ok tt, {| db_open := true; db_buckets := bs |})
        | Some e => (Err e, db)
        end
    | Err e => (Err e, db)
    | Panic w => (Panic w, db)
    end
  else (Err not_open, db).

Definition View {A} (fn : gmap string bucket -> result A) (db : DB) : result A :=
  if db_open db then fn (db_buckets db) else Err not_open.

Definition CloseDB (db : DB) : DB := {| db_open := false; db_buckets := db_buckets db |}.

(** [tx.Bucket(name)], used without a nil check: a method of a nil bucket
    dereferences nil. *)
Definition tx_bucket (name : string) (bs : gmap string bucket) : result bucket :=
  match bs !! name with
  | Some b => Ok b
  | None => Panic "nil pointer dereference"
  end.

Definition CreateBucketIfNotExists (name : string) (bs : gmap string bucket)
    : gmap string bucket :=
  match bs !! name with
  | Some _ => bs
  | None => <[name := new_bucket]> bs
  end.

(** [bucket.Put] on the bucket of that name. *)
Definition tx_put (name k v : string) (bs : gmap string bucket) : result (gmap string bucket) :=
  match tx_bucket name bs with
  | Ok b =>
      match Put b k v with
      | Ok b' => Ok (<[name := b']> bs)
      | Err e => Err e
      | Panic w => Panic w
      end
  | Err e => Err e
  | Panic w => Panic w
  end.

(** [cursor.Seek(k)] and the pairs [Next] returns after it. *)
Definition seek (b : bucket) (k : string) : list (string * string) :=
  filter (fun kv => String.le k kv.1) (pairs b).

(** The map of the bucket of that name. *)
Definition bucket_map (db : DB) (name : string) : gmap string string :=
  match db_buckets db !! name with
  | Some b => contents b
  | None => ∅
  end.

(** Open, and the named buckets exist. *)
Definition ready (names : list string) (db : DB) : Prop :=
  db_open db = true /\ Forall (fun n => is_Some (db_buckets db !! n)) names.

Context {BL : BoltLaws B}.

(** A transaction that puts one pair changes one entry of one bucket, or
    nothing at all. *)
Lemma Update_put io name k v db names :
  ready names db -> name ∈ names ->
  let '(r, db') := Update io (tx_put name k v) db in
  ready names db'
  /\ match r with
     | Ok _ => storable k v /\ io = None
         /\ bucket_map db' name = <[k := v]> (bucket_map db name)
         /\ (forall n, n <> name -> bucket_map db' n = bucket_map db n)
     | Err _ => db' = db /\ (storable k v -> is_Some io)
     | Panic _ => False
     end.
Proof.
  intros [Ho Hb] Hin. assert (is_Some (db_buckets db !! name)) as [b Eb].
  { rewrite Forall_forall in Hb. by apply Hb. }
  unfold Update, tx_put, tx_bucket. rewrite Ho, Eb.
  destruct (decide (storable k v)) as [Hs|Hs].
  - destruct (Put_contents b k v Hs) as (b' & -> & Hc).
    destruct io as [e|]; [split; [done|]; split; [done|eauto]|].
    split; [split; [done|]|].
    + simpl. eapply List.Forall_impl; [|exact Hb]. intros n Hn.
      rewrite lookup_insert_is_Some. destruct (decide (name = n)); auto.
    + split_and!; try done; unfold bucket_map; simpl.
      * by rewrite lookup_insert_eq, Eb.
      * intros n Hne. by rewrite lookup_insert_ne.
  - destruct (Put_refuses b k v Hs) as [e ->]. done.
Qed.

(** The same as a function of the outcome of the commit and of the pair. *)
Lemma Update_put_cases io name k v db names :
  ready names db -> name ∈ names ->
  let '(r, db') := Update io (tx_put name k v) db in
  ready names db'
  /\ is_Panic r = false /\ (r = Ok tt <-> io = None /\ storable k v)
  /\ bucket_map db' name
     = (if decide (io = None /\ storable k v) then <[k := v]> (bucket_map db name)
        else bucket_map db name)
  /\ (forall n, n <> name -> bucket_map db' n = bucket_map db n)
  /\ (r <> Ok tt -> db' = db).
Proof.
  intros Hb Hin. pose proof (Update_put io name k v db names Hb Hin) as H.
  destruct (Update io _ db) as [r db']. destruct H as [Hb' H].
  destruct r as [[]|e|w]; [|destruct H as [-> He]|done].
  - destruct H as (Hs & -> & Hm & Ho). rewrite decide_True by done. split_and!; done.
  - assert (~ (io = None /\ storable k v)) as Hn.
    { intros [-> Hs]. by destruct (He Hs). }
    rewrite decide_False by done. by split_and!.
Qed.

Lemma View_ready {A} (fn : gmap string bucket -> result A) names db :
  ready names db -> View fn db = fn (db_buckets db).
Proof. intros [Ho _]. unfold View. by rewrite Ho. Qed.

Lemma tx_bucket_ready name names db :
  ready names db -> name ∈ names ->
  exists b, tx_bucket name (db_buckets db) = Ok b /\ contents b = bucket_map db name.
Proof.
  intros [Ho Hb] Hin. assert (is_Some (db_buckets db !! name)) as [b Eb].
  { rewrite Forall_forall in Hb. by apply Hb. }
  exists b. unfold tx_bucket, bucket_map. by rewrite Eb.
Qed.

Lemma seek_contents b k :
  seek b k = filter (fun kv => String.le k kv.1) (sorted_pairs (contents b)).
Proof. unfold seek. by rewrite pairs_contents. Qed.
End db.
Arguments DB : clear implicits.
Arguments DB B : rename.
