(* ===== verification/Keys.v ===== *)
(** * Keys of the form table:sequence, and scans over a prefix of keys

    Every bucket of internal/storage is keyed by
    [fmt.Sprintf("%s:%d", table, seq)] and read by a cursor that seeks
    [table:] and stops at the first key without that prefix.  The key is
    injective, for every table name; the scan visits exactly the keys with
    the prefix, in bytewise order, which is not the order of the sequence
    numbers. *)

From Stdlib Require Import Ascii NArith.
From S2P Require Import Prelude Bytes Json JsonFacts Codec Bolt.

(** [fmt.Sprintf("%s:%d", table, n)] *)
Definition table_key (table : string) (n : N) : string := table +:+ ":" +:+ pretty n.

(** [tableName + ":"] *)
Definition table_prefix (table : string) : string := table +:+ ":".

(** [strings.HasPrefix] *)
Definition has_prefix (p s : string) : bool := String.prefix p s.

Fixpoint take_while {A} (P : A -> bool) (l : list A) : list A :=
  match l with
  | [] => []
  | x :: l' => if P x then x :: take_while P l' else []
  end.

(** [for k, v := cursor.Seek(prefix); k != nil && HasPrefix(k, prefix); k, v = cursor.Next()] *)
Definition prefix_scan `{Bolt} (b : bucket) (p : string) : list (string * string) :=
  take_while (fun kv => has_prefix p kv.1) (seek b p).

Section prefixes.
Implicit Types p s t : string.

Lemma has_prefix_spec p s : has_prefix p s = true <-> exists r, s = p +:+ r.
Proof.
  unfold has_prefix. revert s. induction p as [|a p IH]; intros s.
  - split; [by exists s|]. by destruct s.
  - destruct s as [|b s]; simpl.
    + split; [done|]. intros [r Hr]. rewrite string_app_cons in Hr. done.
    + destruct (ascii_dec a b) as [->|Hne].
      * rewrite IH. split; intros [r Hr]; exists r; rewrite string_app_cons in *; congruence.
      * split; [done|]. intros [r Hr]. rewrite string_app_cons in Hr. congruence.
Qed.

Lemma has_prefix_app p s : has_prefix p (p +:+ s) = true.
Proof. apply has_prefix_spec. by exists s. Qed.

Lemma string_le_app p s t : String.le (p +:+ s) (p +:+ t) <-> String.le s t.
Proof. unfold String.le, String.leb. by rewrite string_compare_app. Qed.

Lemma string_le_nil s : String.le "" s.
Proof. unfold String.le, String.leb. by destruct s. Qed.

Lemma string_le_app_r p s : String.le p (p +:+ s).
Proof. rewrite <-(string_app_nil_r p) at 1. apply string_le_app, string_le_nil. Qed.

Lemma string_compare_cons a b s t :
  String.compare (String a s) (String b t)
  = match N.compare (N_of_ascii a) (N_of_ascii b) with
    | Eq => String.compare s t | Lt => Lt | Gt => Gt end.
Proof. reflexivity. Qed.

(** The keys between a prefix and a key with that prefix have it too. *)
Lemma has_prefix_between p s k :
  String.le p k -> String.le k (p +:+ s) -> has_prefix p k = true.
Proof.
  unfold String.le, String.leb, has_prefix. revert k.
  induction p as [|a p IH]; intros k H1 H2; [by destruct k|].
  destruct k as [|b k]; [done|]. rewrite string_app_cons, !string_compare_cons in *.
  destruct (N.compare_spec (N_of_ascii a) (N_of_ascii b)) as [E|Hlt|Hlt];
    [|rewrite (proj2 (N.compare_gt_iff _ _) Hlt) in H2; done|done].
  rewrite E, N.compare_refl in H2.
  apply (f_equal ascii_of_N) in E. rewrite !ascii_N_embedding in E. subst b.
  simpl. destruct (ascii_dec a a); [|done]. by apply IH.
Qed.
End prefixes.

Section take_while.
Context {A} (P : A -> bool).

Lemma take_while_filter l :
  (forall l1 x l2, l = l1 ++ x :: l2 -> P x = true -> Forall (fun y => P y = true) l1) ->
  take_while P l = filter (fun x => P x = true) l.
Proof.
  induction l as [|x l IH]; intros Hc; [done|]. simpl.
  rewrite filter_cons. destruct (P x) eqn:E.
  - rewrite decide_True by done. f_equal. apply IH. intros l1 y l2 -> Hy.
    specialize (Hc (x :: l1) y l2 eq_refl Hy). by apply Forall_cons in Hc as [_ ?].
  - rewrite decide_False by done. symmetry. apply elem_of_nil_inv. intros y.
    rewrite list_elem_of_filter. intros [Hy (l1 & l2 & ->)%list_elem_of_split].
    specialize (Hc (x :: l1) y l2 eq_refl Hy). apply Forall_cons in Hc as [Hx _]. congruence.
Qed.
End take_while.

(** ** Scans *)

Lemma sorted_pairs_sorted m : StronglySorted String.le (sorted_pairs m).*1.
Proof. rewrite sorted_pairs_fst. apply sort_strings_sorted. Qed.

Lemma StronglySorted_filter_fst {B} (P : string * B -> Prop) `{!forall x, Decision (P x)} l :
  StronglySorted String.le l.*1 -> StronglySorted String.le (filter P l).*1.
Proof.
  induction l as [|x l IH]; intros Hs; [constructor|].
  rewrite fmap_cons in Hs. apply StronglySorted_inv in Hs as [Hs Hall].
  rewrite filter_cons. destruct (decide (P x)); [|by apply IH].
  rewrite fmap_cons. constructor; [by apply IH|].
  rewrite Forall_forall in Hall |- *. intros k (y & -> & Hy)%list_elem_of_fmap.
  apply list_elem_of_filter in Hy as [_ Hy]. apply Hall. by apply list_elem_of_fmap_2.
Qed.

Lemma prefix_scan_contents {B : Bolt} {BL : BoltLaws B} (b : bucket) p :
  prefix_scan b p = filter (fun kv => has_prefix p kv.1 = true) (sorted_pairs (contents b)).
Proof.
  unfold prefix_scan. rewrite seek_contents, take_while_filter.
  - apply list_filter_filter_l. intros [k v] [r Hr]%has_prefix_spec. simpl in Hr |- *. rewrite Hr.
    apply string_le_app_r.
  - intros l1 [k v] l2 E [r Hr]%has_prefix_spec. simpl in Hr. subst k. rewrite Forall_forall. intros [k' v'] Hin.
    pose proof (sorted_pairs_sorted (contents b)) as Hs.
    apply (StronglySorted_filter_fst (fun kv => String.le p kv.1)) in Hs.
    rewrite E, fmap_app in Hs. simpl in Hs |- *.
    apply (has_prefix_between p r).
    + assert ((k', v') ∈ filter (fun kv : string * string => String.le p kv.1)
        (sorted_pairs (contents b))) as Hf by (rewrite E; set_solver).
      by apply list_elem_of_filter in Hf as [? _].
    + eapply (StronglySorted_app_1_elem_of String.le); [exact Hs|..|by left].
      by apply (list_elem_of_fmap_2 fst _ (k', v')).
Qed.

(** ** The keys *)

Section keys.
Implicit Types t : string.

(** Neither an identifier nor a number contains a colon. *)
Definition no_colon (s : string) : bool :=
  forallb (fun a => negb (Ascii.eqb a ":")) (String.list_ascii_of_string s).

Lemma no_colon_cons a s : no_colon (String a s) = negb (Ascii.eqb a ":") && no_colon s.
Proof. done. Qed.

Lemma no_colon_go x s : no_colon s = true -> no_colon (pretty_N_go x s) = true.
Proof.
  revert s. induction (N.lt_wf_0 x) as [x _ IH]. intros s Hs.
  destruct (decide (x = 0)%N) as [->|Hx]; [by rewrite pretty_N_go_0|].
  rewrite pretty_N_go_step by lia. apply IH; [apply N.div_lt; lia|].
  rewrite no_colon_cons, Hs.
  pose proof (N.mod_lt x 10 ltac:(lia)) as Hm. revert Hm. generalize (x mod 10)%N. intros n Hn.
  assert (n ∈ N.of_nat <$> seq 0 10) as Hin.
  { apply list_elem_of_fmap. exists (N.to_nat n). rewrite elem_of_seq. lia. }
  clear Hn. revert n Hin. apply Forall_forall. repeat constructor.
Qed.

Lemma no_colon_pretty (n : N) : no_colon (pretty n) = true.
Proof. unfold pretty, pretty_N. case_decide; [done|]. by apply no_colon_go. Qed.

Lemma no_colon_split s d e : no_colon e = true -> e <> s +:+ ":" +:+ d.
Proof.
  revert e. induction s as [|b s IH]; intros [|c e] He E;
    rewrite ?string_app_nil_l, ?string_app_cons, ?no_colon_cons in *; try done.
  - by injection E as -> _.
  - injection E as _ E. apply andb_prop in He as [_ He]. by eapply IH.
Qed.

(** What follows the last colon determines both halves of a key. *)
Lemma colon_split_inj t t' d d' :
  no_colon d = true -> no_colon d' = true ->
  t +:+ ":" +:+ d = t' +:+ ":" +:+ d' -> t = t' /\ d = d'.
Proof.
  intros Hd Hd'. revert t'.
  induction t as [|a t IH]; intros [|a' t'] E; rewrite ?string_app_nil_l, ?string_app_cons in E.
  - by injection E.
  - injection E as _ E. by destruct (no_colon_split t' d' d Hd).
  - injection E as _ E. symmetry in E. by destruct (no_colon_split t d d' Hd').
  - injection E as -> E. destruct (IH t' E) as [-> ->]. done.
Qed.

Lemma table_key_inj t t' n n' : table_key t n = table_key t' n' -> t = t' /\ n = n'.
Proof.
  intros [-> E]%colon_split_inj; [|apply no_colon_pretty..]. split; [done|].
  by apply (inj pretty) in E.
Qed.

Lemma table_key_prefix t n : table_key t n = table_prefix t +:+ pretty n.
Proof. unfold table_key, table_prefix. by rewrite !string_app_assoc. Qed.

Lemma has_prefix_key t n : has_prefix (table_prefix t) (table_key t n) = true.
Proof. rewrite table_key_prefix. apply has_prefix_app. Qed.

(** A key of one table never starts with the prefix of another, as long as
    the name of the other holds no colon. *)
Lemma has_prefix_other t t' n :
  no_colon t = true -> no_colon t' = true ->
  has_prefix (table_prefix t') (table_key t n) = true -> t = t'.
Proof.
  unfold table_prefix, table_key. intros Ht Ht' [r E]%has_prefix_spec.
  rewrite string_app_assoc in E. revert t' Ht' E.
  induction t as [|a t IH]; intros [|a' t'] Ht' E;
    rewrite ?string_app_nil_l, ?string_app_cons, ?no_colon_cons in *; try done.
  - injection E as <- _. done.
  - injection E as -> _. done.
  - injection E as -> E. apply andb_prop in Ht as [_ Ht], Ht' as [_ Ht']. f_equal. by apply (IH Ht t').
Qed.

Lemma length_pretty_go k x s :
  (x < 10 ^ N.of_nat k)%N -> String.length (pretty_N_go x s) <= k + String.length s.
Proof.
  revert x s. induction k as [|k IH]; intros x s Hx.
  { replace x with 0%N by (simpl in Hx; lia). by rewrite pretty_N_go_0. }
  destruct (decide (x = 0)%N) as [->|Hne]; [rewrite pretty_N_go_0; lia|].
  rewrite pretty_N_go_step by lia. rewrite IH; [simpl; lia|].
  apply N.Div0.div_lt_upper_bound. rewrite Nat2N.inj_succ, N.pow_succ_r' in Hx. lia.
Qed.

(** A key of a uint64 sequence number is at most 21 bytes longer than the
    table name. *)
Lemma length_table_key t n :
  (n < u64_modulus)%N -> 0 < String.length (table_key t n) <= String.length t + 21.
Proof.
  intros Hn. unfold table_key. rewrite !string_length_app. simpl.
  assert (String.length (pretty n) <= 20); [|lia].
  unfold pretty, pretty_N. case_decide; [simpl; lia|].
  transitivity (20 + String.length ""); [|simpl; lia]. apply length_pretty_go.
  unfold u64_modulus in Hn. simpl. lia.
Qed.
End keys.
