(* ===== verification/Storage.v ===== *)
(** * internal/storage/storage.go: hash entries, checkpoints and metadata

    [Storage] is the open database with its three buckets.  [HashEntry] and
    [MerkleCheckpoint] are stored as JSON under keys table:sequence; the
    readers scan a prefix.  A [time.Time] is its RFC 3339 text, which is the
    form it is stored in and the only one the program moves around. *)

From Stdlib Require Import Ascii NArith Lia.
From S2P Require Import Prelude Bytes Json JsonFacts Codec Bolt Keys.

Definition HashChainBucket : string := "hashchain".
Definition MetadataBucket : string := "metadata".
Definition MerkleCheckpointBucket : string := "merkle_checkpoint".

Definition storage_buckets : list string :=
  [HashChainBucket; MetadataBucket; MerkleCheckpointBucket].

(** ** time.Time *)

Definition Time : Type := string.

(** The zero [time.Time]. *)
Definition zero_time : Time := "0001-01-01T00:00:00Z".

Definition two_digits (s : string) : option N :=
  match s with
  | String a (String b "") =>
      if is_digit a && is_digit b
      then Some (10 * (N_of_ascii a - 48) + (N_of_ascii b - 48))%N else None
  | _ => None
  end.

(** Two digits of [s] at [i], in the given range. *)
Definition digits_in (s : string) (i : nat) (lo hi : N) : bool :=
  match two_digits (String.substring i 2 s) with
  | Some n => (lo <=? n)%N && (n <=? hi)%N
  | None => false
  end.

Definition days_in (year month : N) : N :=
  if (month =? 2)%N then
    if ((year mod 4 =? 0) && (negb (year mod 100 =? 0) || (year mod 400 =? 0)))%N then 29 else 28
  else if existsb (N.eqb month) [4; 6; 9; 11]%N then 30 else 31.

Fixpoint skip_digits (s : string) : string :=
  match s with
  | String a r => if is_digit a then skip_digits r else s
  | "" => ""
  end.

(** The zone: [Z] or a signed offset. *)
Definition rfc3339_zone (s : string) : bool :=
  bool_decide (s = "Z")
  || (Nat.eqb (String.length s) 6
      && existsb (String.eqb (String.substring 0 1 s)) ["+"; "-"]
      && digits_in s 1 0 23 && String.eqb (String.substring 3 1 s) ":" && digits_in s 4 0 59).

(** The optional fraction: a point and at least one digit. *)
Definition rfc3339_rest (s : string) : bool :=
  match s with
  | String a (String b r) =>
      if Ascii.eqb a "." then is_digit b && rfc3339_zone (skip_digits r) else rfc3339_zone s
  | _ => rfc3339_zone s
  end.

(** What [time.Time.UnmarshalJSON] accepts. *)
Definition rfc3339 (s : string) : bool :=
  match two_digits (String.substring 0 2 s), two_digits (String.substring 2 2 s),
        two_digits (String.substring 5 2 s) with
  | Some c, Some y, Some m =>
      String.eqb (String.substring 4 1 s) "-" && (1 <=? m)%N && (m <=? 12)%N
      && String.eqb (String.substring 7 1 s) "-"
      && digits_in s 8 1 (days_in (100 * c + y) m)
      && String.eqb (String.substring 10 1 s) "T"
      && digits_in s 11 0 23 && String.eqb (String.substring 13 1 s) ":"
      && digits_in s 14 0 59 && String.eqb (String.substring 16 1 s) ":"
      && digits_in s 17 0 59
      && rfc3339_rest (String.substring 19 (String.length s - 19) s)
  | _, _, _ => false
  end.

Definition store_time (t : Time) (v : json) : result Time :=
  match v with
  | JStr s => if rfc3339 s then Ok s else Err (External "cannot parse as RFC 3339")
  | JNull => Ok t
  | _ => Err (External "Time.UnmarshalJSON: input is not a JSON string")
  end.

Definition time_of_json : list json -> result Time := store_all store_time zero_time.

(** ** The stored records *)

Record HashEntry := {
  he_TableName : string;
  he_SequenceNum : N;
  he_DataHash : string;
  he_Timestamp : Time;
  he_OperationType : string;
  he_RecordID : string
}.

Record MerkleCheckpoint := {
  mc_TableName : string;
  mc_SequenceNum : N;
  mc_MerkleRoot : string;
  mc_Timestamp : Time;
  mc_RecordCount : Z;
  mc_HashAlgorithm : string;
  mc_LeafMap : gmap string string;
  mc_InternalNodes : gmap string string
}.

#[export] Instance HashEntry_eq_dec : EqDecision HashEntry.
Proof. solve_decision. Defined.
#[export] Instance MerkleCheckpoint_eq_dec : EqDecision MerkleCheckpoint.
Proof. solve_decision. Defined.

Definition uint64_json (n : N) : json := JNum (Z.of_N n).

(** A field tagged [omitempty]. *)
Definition omitempty_map (name : string) (m : gmap string string) : list (string * json) :=
  if decide (m = ∅) then [] else [(name, json_of_map m)].

Local Open Scope witnz_scope.

#[export] Instance HashEntry_codec : JsonCodec HashEntry := {|
  to_json e := Ok (JObj [
    ("table_name", JStr (he_TableName e)); ("sequence_num", uint64_json (he_SequenceNum e));
    ("data_hash", JStr (he_DataHash e)); ("timestamp", JStr (he_Timestamp e));
    ("operation_type", JStr (he_OperationType e)); ("record_id", JStr (he_RecordID e))]);
  of_json j :=
    let! l := members j in
    let! t := string_of_json (field "table_name" l) in
    let! n := uint64_of_json (field "sequence_num" l) in
    let! h := string_of_json (field "data_hash" l) in
    let! ts := time_of_json (field "timestamp" l) in
    let! op := string_of_json (field "operation_type" l) in
    let! id := string_of_json (field "record_id" l) in
    Ok {| he_TableName := t; he_SequenceNum := n; he_DataHash := h; he_Timestamp := ts;
          he_OperationType := op; he_RecordID := id |}
|}.

Definition mc_members (c : MerkleCheckpoint) : list (string * json) :=
  [("table_name", JStr (mc_TableName c)); ("sequence_num", uint64_json (mc_SequenceNum c));
   ("merkle_root", JStr (mc_MerkleRoot c)); ("timestamp", JStr (mc_Timestamp c));
   ("record_count", JNum (mc_RecordCount c)); ("hash_algorithm", JStr (mc_HashAlgorithm c))]
  ++ (omitempty_map "leaf_map" (mc_LeafMap c)
      ++ omitempty_map "internal_nodes" (mc_InternalNodes c)).

#[export] Instance MerkleCheckpoint_codec : JsonCodec MerkleCheckpoint := {|
  to_json c := Ok (JObj (mc_members c));
  of_json j :=
    let! l := members j in
    let! t := string_of_json (field "table_name" l) in
    let! n := uint64_of_json (field "sequence_num" l) in
    let! r := string_of_json (field "merkle_root" l) in
    let! ts := time_of_json (field "timestamp" l) in
    let! cnt := int_of_json (field "record_count" l) in
    let! alg := string_of_json (field "hash_algorithm" l) in
    let! lm := map_of_json (field "leaf_map" l) in
    let! ns := map_of_json (field "internal_nodes" l) in
    Ok {| mc_TableName := t; mc_SequenceNum := n; mc_MerkleRoot := r; mc_Timestamp := ts;
          mc_RecordCount := cnt; mc_HashAlgorithm := alg; mc_LeafMap := lm;
          mc_InternalNodes := ns |}
|}.

(** What Go can hold in the two records and JSON can carry: valid UTF-8,
    machine-width numbers, well-formed times. *)
Definition entry_ok (e : HashEntry) : Prop :=
  valid_utf8 (he_TableName e) = true /\ (he_SequenceNum e < u64_modulus)%N
  /\ valid_utf8 (he_DataHash e) = true
  /\ valid_utf8 (he_Timestamp e) = true /\ rfc3339 (he_Timestamp e) = true
  /\ valid_utf8 (he_OperationType e) = true /\ valid_utf8 (he_RecordID e) = true.

Definition checkpoint_ok (c : MerkleCheckpoint) : Prop :=
  valid_utf8 (mc_TableName c) = true /\ (mc_SequenceNum c < u64_modulus)%N
  /\ valid_utf8 (mc_MerkleRoot c) = true
  /\ valid_utf8 (mc_Timestamp c) = true /\ rfc3339 (mc_Timestamp c) = true
  /\ (- 2 ^ 63 <= mc_RecordCount c < 2 ^ 63)%Z
  /\ valid_utf8 (mc_HashAlgorithm c) = true
  /\ map_valid (mc_LeafMap c) /\ map_valid (mc_InternalNodes c).

#[export] Instance entry_ok_dec e : Decision (entry_ok e).
Proof. unfold entry_ok. apply _. Defined.
#[export] Instance checkpoint_ok_dec c : Decision (checkpoint_ok c).
Proof. unfold checkpoint_ok. apply _. Defined.

Lemma uint64_round n : (n < u64_modulus)%N -> uint64_of_json [uint64_json n] = Ok n.
Proof.
  intros Hn. unfold uint64_of_json, uint64_json. rewrite store_all_one. cbn [store_uint64]. unfold u64_modulus in Hn.
  rewrite decide_True by lia. by rewrite N2Z.id.
Qed.

Lemma int_round z : (- 2 ^ 63 <= z < 2 ^ 63)%Z -> int_of_json [JNum z] = Ok z.
Proof. intros Hz. unfold int_of_json. rewrite store_all_one. cbn [store_int]. by rewrite decide_True. Qed.

Lemma time_round t : rfc3339 t = true -> time_of_json [JStr t] = Ok t.
Proof. intros Ht. unfold time_of_json. rewrite store_all_one. cbn [store_time]. by rewrite Ht. Qed.

#[export] Instance HashEntry_round_trips : RoundTrips HashEntry entry_ok.
Proof.
  intros [t n h ts op id] (Ht & Hn & Hh & Hu & Hts & Hop & Hid). simpl in *.
  eexists. split; [reflexivity|]. split; [done|].
  rewrite sanitize_json_valid by (simpl; by rewrite Ht, Hh, Hu, Hop, Hid).
  cbn -[uint64_of_json uint64_json time_of_json field]. json_fields.
  by rewrite uint64_round, time_round.
Qed.

Lemma omitempty_map_valid name m :
  valid_utf8 name = true -> map_valid m ->
  forallb (fun kv => valid_utf8 kv.1 && json_valid kv.2) (omitempty_map name m) = true.
Proof.
  intros Hn Hm. unfold omitempty_map. case_decide; [done|]. cbn [forallb fst snd].
  by rewrite Hn, json_of_map_valid.
Qed.

Lemma field_omitempty name name' m :
  field name (omitempty_map name' m)
  = if same_name name' name then (if decide (m = ∅) then [] else [json_of_map m]) else [].
Proof. unfold omitempty_map. case_decide; [by case_match|]. by rewrite field_cons, field_nil. Qed.

Lemma map_of_omitempty m :
  map_of_json (if decide (m = ∅) then [] else [json_of_map m]) = Ok m.
Proof. case_decide; [by subst|apply map_of_json_of_map]. Qed.

Lemma mc_members_depth c : (json_depth (JObj (mc_members c)) <= max_depth)%N.
Proof.
  transitivity (1 + 1)%N; [|done]. apply depth_obj_le. unfold mc_members, omitempty_map.
  rewrite !Forall_app. split; [by repeat constructor|].
  split; case_decide; repeat constructor; apply json_of_map_depth.
Qed.

#[export] Instance MerkleCheckpoint_round_trips : RoundTrips MerkleCheckpoint checkpoint_ok.
Proof.
  intros [t n r ts cnt alg lm ns] (Ht & Hn & Hr & Hu & Hts & Hc & Ha & Hlm & Hns). simpl in *.
  exists (JObj (mc_members {| mc_TableName := t; mc_SequenceNum := n; mc_MerkleRoot := r;
    mc_Timestamp := ts; mc_RecordCount := cnt; mc_HashAlgorithm := alg; mc_LeafMap := lm;
    mc_InternalNodes := ns |})).
  split; [reflexivity|]. unfold mc_members.
  split; [by apply mc_members_depth|]. rewrite sanitize_json_valid; cycle 1.
  { cbn [json_valid]. rewrite !forallb_app, !omitempty_map_valid by done. simpl.
    by rewrite Ht, Hr, Hu, Ha. }
  cbn -[uint64_of_json uint64_json time_of_json int_of_json map_of_json json_of_map field app
        omitempty_map].
  json_fields. rewrite !field_omitempty. same_names. cbv iota.
  rewrite ?app_nil_l, ?app_nil_r.
  rewrite uint64_round, time_round, int_round by done.
  rewrite !map_of_omitempty. reflexivity.
Qed.

(** ** The operations *)

Section storage.
Context `{B : Bolt}.

Definition Storage : Type := DB B.

(** [New]: [opened] is what [bolt.Open] returned, the buckets of the file. *)
Definition New (opened : result (gmap string bucket)) (io : option error) : result Storage :=
  let! bs := wrap_err "failed to open database" opened in
  match Update io (fun tx => Ok (foldl (fun tx name => CreateBucketIfNotExists name tx) tx
                                   storage_buckets))
               {| db_open := true; db_buckets := bs |} with
  | (Ok _, db) => Ok db
  | (Err e, _) => Err e
  | (Panic w, _) => Panic w
  end.

Definition Close (s : Storage) : Storage := CloseDB s.

Definition SaveHashEntry (io : option error) (entry : HashEntry) (s : Storage)
    : result unit * Storage :=
  Update io (fun tx =>
    let key := table_key (he_TableName entry) (he_SequenceNum entry) in
    let! data := wrap_err "failed to marshal hash entry" (Marshal entry) in
    tx_put HashChainBucket key data tx) s.

Definition GetHashEntry (s : Storage) (tableName : string) (seqNum : N) : result HashEntry :=
  View (fun tx =>
    let! bucket := tx_bucket HashChainBucket tx in
    match Get bucket (table_key tableName seqNum) with
    | None => Err (Errorf "hash entry not found")
    | Some data => Unmarshal data
    end) s.

(** The body of the loops that keep the last record that decodes. *)
Definition keep_latest {A} `{JsonCodec A} (latest : option A) (kv : string * string) : option A :=
  match Unmarshal kv.2 with
  | Ok entry => Some entry
  | _ => latest
  end.

(** The body of the loops that collect what decodes. *)
Definition collect {A} `{JsonCodec A} (entries : list A) (kv : string * string) : list A :=
  match Unmarshal kv.2 with
  | Ok entry => entries ++ [entry]
  | _ => entries
  end.

Definition GetLatestHashEntry (s : Storage) (tableName : string) : result HashEntry :=
  let! latestEntry := View (fun tx =>
    let! bucket := tx_bucket HashChainBucket tx in
    Ok (foldl keep_latest None (prefix_scan bucket (table_prefix tableName)))) s in
  match latestEntry with
  | None => Err (Errorf ("no hash entries found for table " +:+ tableName))
  | Some entry => Ok entry
  end.

Definition SetMetadata (io : option error) (key value : string) (s : Storage)
    : result unit * Storage :=
  Update io (tx_put MetadataBucket key value) s.

Definition GetMetadata (s : Storage) (key : string) : result string :=
  View (fun tx =>
    let! bucket := tx_bucket MetadataBucket tx in
    match Get bucket key with
    | None => Err (Errorf ("metadata key not found: " +:+ key))
    | Some data => Ok data
    end) s.

Definition SaveMerkleCheckpoint (io : option error) (checkpoint : MerkleCheckpoint) (s : Storage)
    : result unit * Storage :=
  Update io (fun tx =>
    let key := table_key (mc_TableName checkpoint) (mc_SequenceNum checkpoint) in
    let! data := wrap_err "failed to marshal checkpoint" (Marshal checkpoint) in
    tx_put MerkleCheckpointBucket key data tx) s.

Definition GetLatestMerkleCheckpoint (s : Storage) (tableName : string)
    : result MerkleCheckpoint :=
  let! latestCheckpoint := View (fun tx =>
    let! bucket := tx_bucket MerkleCheckpointBucket tx in
    Ok (foldl keep_latest None (prefix_scan bucket (table_prefix tableName)))) s in
  match latestCheckpoint with
  | None => Err (Errorf ("no checkpoints found for table " +:+ tableName))
  | Some checkpoint => Ok checkpoint
  end.

Definition GetAllHashEntries (s : Storage) (tableName : string) : result (list HashEntry) :=
  View (fun tx =>
    let! bucket := tx_bucket HashChainBucket tx in
    Ok (foldl collect [] (prefix_scan bucket (table_prefix tableName)))) s.

Definition GetAllHashEntriesAllTables (s : Storage) : result (list HashEntry) :=
  View (fun tx =>
    match tx !! HashChainBucket with
    | None => Ok []
    | Some bucket => Ok (foldl collect [] (pairs bucket))
    end) s.
End storage.
Arguments Storage : clear implicits.
Arguments Storage B : rename.
