(* ===== verification/TableView.v ===== *)
(** * What a bucket stores for one table

    The abstract view of a bucket of JSON records keyed table:sequence is,
    for each table, a finite map from sequence numbers to records.
    [table_rep m t f] relates the two; saving a record is an insert in the
    map of its table and leaves those of the other tables alone, a scan of
    the table's prefix visits the map in the bytewise order [seq_le] of the
    decimal numbers. *)

From S2P Require Import Prelude Bytes Json JsonFacts Codec Bolt Keys Storage.

(** The order of the keys of one table. *)
Definition seq_le (n m : N) : Prop := String.le (pretty n) (pretty m).

#[export] Instance seq_le_dec : RelDecision seq_le.
Proof. unfold seq_le. intros n m. apply _. Defined.

Lemma seq_le_antisymm n m : seq_le n m -> seq_le m n -> n = m.
Proof. intros H1 H2. apply (inj pretty). by apply (anti_symm String.le). Qed.

Lemma seq_le_key t n m : String.le (table_key t n) (table_key t m) <-> seq_le n m.
Proof. rewrite !table_key_prefix. apply string_le_app. Qed.

Section view.
Context {A : Type} `{JC : JsonCodec A}.
Implicit Types (m : gmap string string) (t : string) (f : gmap N A).

Record table_rep m t f : Prop := {
  rep_stored : forall n a, f !! n = Some a ->
    exists v, m !! table_key t n = Some v /\ Unmarshal v = Ok a;
  rep_keys : forall k v, m !! k = Some v -> has_prefix (table_prefix t) k = true ->
    exists n, k = table_key t n /\ is_Some (f !! n)
}.

(** The record a reader that keeps the last one finds. *)
Definition is_latest f (n : N) (a : A) : Prop :=
  f !! n = Some a /\ forall n', is_Some (f !! n') -> seq_le n' n.

Lemma is_latest_unique f n a n' a' : is_latest f n a -> is_latest f n' a' -> n = n' /\ a = a'.
Proof.
  intros [H1 M1] [H2 M2].
  assert (n = n') as -> by (apply seq_le_antisymm; [apply M2|apply M1]; eauto).
  split; [done|]. congruence.
Qed.

Lemma table_rep_empty t : table_rep ∅ t ∅.
Proof. split; intros ? ? Hl; by rewrite lookup_empty in Hl. Qed.

Lemma table_rep_insert m t f n v a :
  table_rep m t f -> Unmarshal v = Ok a ->
  table_rep (<[table_key t n := v]> m) t (<[n := a]> f).
Proof.
  intros [Hs Hk] Hv. split.
  - intros n' a' [[<- <-]|[Hne Hl]]%lookup_insert_Some.
    + exists v. by rewrite lookup_insert_eq.
    + rewrite lookup_insert_ne by (by intros [_ E]%table_key_inj). by apply Hs.
  - intros k v' [[<- <-]|[Hne Hl]]%lookup_insert_Some Hp.
    + exists n. by rewrite lookup_insert_eq.
    + destruct (Hk k v' Hl Hp) as (n' & -> & Hn'). exists n'. split; [done|].
      rewrite lookup_insert_is_Some. destruct (decide (n = n')); auto.
Qed.

Lemma table_rep_other m t t' f n v :
  no_colon t = true -> no_colon t' = true -> t <> t' ->
  table_rep m t' f -> table_rep (<[table_key t n := v]> m) t' f.
Proof.
  intros Ht Ht' Hne [Hs Hk]. split.
  - intros n' a Hl. rewrite lookup_insert_ne by (by intros [E _]%table_key_inj). by apply Hs.
  - intros k v' [[<- <-]|[Hk' Hl]]%lookup_insert_Some Hp.
    + by apply has_prefix_other in Hp.
    + by eapply Hk.
Qed.

Lemma table_rep_lookup m t f n :
  table_rep m t f ->
  match m !! table_key t n with
  | Some v => exists a, f !! n = Some a /\ Unmarshal v = Ok a
  | None => f !! n = None
  end.
Proof.
  intros [Hs Hk]. destruct (m !! table_key t n) as [v|] eqn:E.
  - destruct (Hk _ _ E (has_prefix_key t n)) as (n' & [_ <-]%table_key_inj & [a Ha]).
    exists a. split; [done|]. destruct (Hs _ _ Ha) as (v' & E' & Hv). congruence.
  - destruct (f !! n) as [a|] eqn:Ef; [|done]. destruct (Hs _ _ Ef) as (v & E' & _). congruence.
Qed.

(** ** Scans *)

(** A stored pair and the entry of the map it stands for. *)
Definition pair_rep t (kv : string * string) (na : N * A) : Prop :=
  kv.1 = table_key t na.1 /\ Unmarshal kv.2 = Ok na.2.

Lemma Forall_exists_Forall2 {X Y} (R : X -> Y -> Prop) (l : list X) :
  (forall x, x ∈ l -> exists y, R x y) -> exists k, Forall2 R l k.
Proof.
  induction l as [|x l IH]; intros H; [by exists []|].
  destruct (H x ltac:(set_solver)) as [y Hy]. destruct IH as [k Hk]; [set_solver|].
  exists (y :: k). by constructor.
Qed.

Lemma Forall2_elem_l {X Y} (R : X -> Y -> Prop) l k x :
  Forall2 R l k -> x ∈ l -> exists y, R x y /\ y ∈ k.
Proof.
  intros Hr [i Hi]%list_elem_of_lookup_1. destruct (Forall2_lookup_l _ _ _ _ _ Hr Hi) as (y & Hy & H).
  exists y. split; [done|]. by eapply list_elem_of_lookup_2.
Qed.

Lemma Forall2_elem_r {X Y} (R : X -> Y -> Prop) l k y :
  Forall2 R l k -> y ∈ k -> exists x, R x y /\ x ∈ l.
Proof.
  intros Hr [i Hi]%list_elem_of_lookup_1. destruct (Forall2_lookup_r _ _ _ _ _ Hr Hi) as (x & Hx & H).
  exists x. split; [done|]. by eapply list_elem_of_lookup_2.
Qed.

Lemma pair_rep_sorted t l k :
  Forall2 (pair_rep t) l k -> StronglySorted String.le l.*1 -> StronglySorted seq_le k.*1.
Proof.
  induction 1 as [|[x v] [n a] l k [Hx _] Hl IH]; intros Hs; [constructor|].
  rewrite fmap_cons in *. apply StronglySorted_inv in Hs as [Hs Hall]. simpl in *.
  constructor; [by apply IH|]. clear IH Hs. subst x.
  induction Hl as [|[x v'] [n' a'] l k [Hx _] Hl IH]; [constructor|].
  rewrite fmap_cons in *. apply Forall_cons in Hall as [H1 Hall]. simpl in *.
  constructor; [|by apply IH]. subst x. by apply seq_le_key in H1.
Qed.

Lemma table_rep_scan m t f :
  table_rep m t f ->
  exists l, Forall2 (pair_rep t)
      (filter (fun kv => has_prefix (table_prefix t) kv.1 = true) (sorted_pairs m)) l
    /\ l ≡ₚ map_to_list f /\ StronglySorted seq_le l.*1.
Proof.
  intros Hrep. set (L := filter _ _).
  assert (StronglySorted String.le L.*1) as HsL
    by apply StronglySorted_filter_fst, sorted_pairs_sorted.
  assert (forall k v, (k, v) ∈ L <-> has_prefix (table_prefix t) k = true /\ m !! k = Some v) as HL.
  { intros k v. unfold L. by rewrite list_elem_of_filter, elem_of_sorted_pairs. }
  destruct (Forall_exists_Forall2 (pair_rep t) L) as [l Hl].
  { intros [k v] [Hp Hm]%HL. destruct (rep_keys _ _ _ Hrep k v Hm Hp) as (n & -> & [a Ha]).
    destruct (rep_stored _ _ _ Hrep n a Ha) as (v' & Hm' & Hv). exists (n, a).
    split; [done|]. simpl in *. congruence. }
  exists l. split; [done|]. split; [|by eapply pair_rep_sorted].
  apply NoDup_Permutation; [|apply NoDup_map_to_list|].
  - assert (L.*1 = table_key t <$> l.*1) as E.
    { clear -Hl. induction Hl as [|kv na L l [Hk _] Hl IH]; [done|].
      rewrite !fmap_cons. by f_equal. }
    eapply (NoDup_fmap_1 fst), (NoDup_fmap_1 (table_key t)). rewrite <-E.
    unfold L. eapply sublist_NoDup; [apply (NoDup_sorted_pairs m)|].
    apply fmap_sublist, sublist_filter.
  - intros [n a]. rewrite elem_of_map_to_list. split.
    + intros Hin. destruct (Forall2_elem_r _ _ _ _ Hl Hin) as ([k v] & [Hk Hv] & [_ Hm]%HL).
      simpl in *. subst k. pose proof (table_rep_lookup m t f n Hrep) as Hl'. rewrite Hm in Hl'.
      destruct Hl' as (a' & -> & ?). congruence.
    + intros Hf. destruct (rep_stored _ _ _ Hrep n a Hf) as (v & Hm & Hv).
      assert ((table_key t n, v) ∈ L) as Hin by (apply HL; split; [apply has_prefix_key|done]).
      destruct (Forall2_elem_l _ _ _ _ Hl Hin) as ([n' a'] & [Hk Hv'] & Hin').
      simpl in *. apply table_key_inj in Hk as [_ <-]. congruence.
Qed.

Lemma foldl_keep_latest t L l (o : option A) :
  Forall2 (pair_rep t) L l ->
  foldl keep_latest o L = match last l with Some na => Some na.2 | None => o end.
Proof.
  intros H. revert o. induction H as [|kv na L l [_ Hv] Hl IH]; intros o; [done|].
  cbn [foldl]. rewrite IH, last_cons. unfold keep_latest. rewrite Hv. by destruct (last l).
Qed.

Lemma foldl_collect t L l (acc : list A) :
  Forall2 (pair_rep t) L l -> foldl collect acc L = acc ++ l.*2.
Proof.
  intros H. revert acc. induction H as [|kv na L l [_ Hv] Hl IH]; intros acc.
  { simpl. by rewrite app_nil_r. }
  cbn [foldl]. rewrite IH. unfold collect. rewrite Hv, fmap_cons, <-app_assoc. done.
Qed.

Lemma last_is_latest f l na :
  l ≡ₚ map_to_list f -> StronglySorted seq_le l.*1 -> last l = Some na ->
  is_latest f na.1 na.2.
Proof.
  intros Hp Hs (l' & ->)%last_Some. destruct na as [n a]. split.
  - apply elem_of_map_to_list. rewrite <-Hp. set_solver.
  - intros n' [a' Hn']. apply elem_of_map_to_list in Hn'. rewrite <-Hp in Hn'.
    apply elem_of_app in Hn' as [Hin|[= -> ->]%list_elem_of_singleton].
    + rewrite fmap_app in Hs. eapply (StronglySorted_app_1_elem_of seq_le); [exact Hs|..|set_solver].
      by apply (list_elem_of_fmap_2 fst _ (n', a')).
    + unfold seq_le. reflexivity.
Qed.

Section bolt.
Context {B : Bolt} {BL : BoltLaws B}.

(** The scan loops of the storage, on the abstract view. *)
Lemma scan_latest (b : bucket) t f :
  table_rep (contents b) t f ->
  match foldl keep_latest None (prefix_scan b (table_prefix t)) with
  | Some a => exists n, is_latest f n a
  | None => f = ∅
  end.
Proof.
  intros Hrep. rewrite prefix_scan_contents.
  destruct (table_rep_scan _ _ _ Hrep) as (l & Hl & Hp & Hs).
  rewrite (foldl_keep_latest t _ l) by done. destruct (last l) as [na|] eqn:E.
  - exists na.1. by eapply last_is_latest.
  - apply last_None in E as ->. apply map_to_list_empty_iff. symmetry. by apply Permutation_nil_l.
Qed.

Lemma scan_collect (b : bucket) t f :
  table_rep (contents b) t f ->
  exists l, foldl collect [] (prefix_scan b (table_prefix t)) = l.*2
    /\ l ≡ₚ map_to_list f /\ StronglySorted seq_le l.*1.
Proof.
  intros Hrep. rewrite prefix_scan_contents.
  destruct (table_rep_scan _ _ _ Hrep) as (l & Hl & Hp & Hs).
  exists l. split; [|done]. by rewrite (foldl_collect t _ l).
Qed.
End bolt.
End view.

(** ** Decimal order

    Among the numbers below 90, 9 is the greatest in the order of the keys. *)
Lemma seq_le_nine n : (n < 90)%N -> seq_le n 9.
Proof.
  intros Hn. assert (n ∈ N.of_nat <$> seq 0 90) as Hin.
  { apply list_elem_of_fmap. exists (N.to_nat n). rewrite elem_of_seq. lia. }
  clear Hn. revert n Hin. apply Forall_forall. by_decide.
Qed.

(** Up to nine the two orders agree. *)
Lemma seq_le_small n m : (n <= m)%N -> (m <= 9)%N -> seq_le n m.
Proof.
  intros Hnm Hm. assert (forall k, (k <= 9)%N -> k ∈ N.of_nat <$> seq 0 10) as Hin.
  { intros k Hk. apply list_elem_of_fmap. exists (N.to_nat k). rewrite elem_of_seq. lia. }
  assert (Forall (fun j => Forall (fun i => (i <= j)%N -> seq_le i j) (N.of_nat <$> seq 0 10))
    (N.of_nat <$> seq 0 10)) as H by by_decide.
  rewrite Forall_forall in H. specialize (H m (Hin m Hm)).
  rewrite Forall_forall in H. apply H; [apply Hin; lia|done].
Qed.
