(* ===== verification/StorageFacts.v ===== *)
(** * The storage implements maps keyed by table and sequence number

    Each operation of Storage.v on the abstract view of TableView.v, in the
    form the handler, the state machine and the verifier use, and the
    properties of the storage as a whole. *)

From S2P Require Import Prelude Bytes Json JsonFacts Codec Bolt Keys Storage TableView.

(** The two buckets of records. *)
Definition chain `{B : Bolt} (s : Storage B) : gmap string string := bucket_map s HashChainBucket.
Definition checkpoints `{B : Bolt} (s : Storage B) : gmap string string :=
  bucket_map s MerkleCheckpointBucket.

(** The JSON text of a record and its key are within bbolt's limits. *)
Definition fits {A} `{JsonCodec A} (table : string) (a : A) : Prop :=
  (N.of_nat (String.length table) <= 32000)%N
  /\ match Marshal a with
     | Ok data => (N.of_nat (String.length data) <= 2147483646)%N
     | _ => True
     end.

#[export] Instance fits_dec {A} `{JsonCodec A} table (a : A) : Decision (fits table a).
Proof. unfold fits. apply and_dec; [apply _|]. destruct (Marshal a); apply _. Defined.

Definition storable_entry (e : HashEntry) : Prop :=
  entry_ok e /\ fits (he_TableName e) e /\ no_colon (he_TableName e) = true.

#[export] Instance storable_entry_dec e : Decision (storable_entry e).
Proof. unfold storable_entry. apply _. Defined.

Definition storable_checkpoint (c : MerkleCheckpoint) : Prop :=
  checkpoint_ok c /\ fits (mc_TableName c) c /\ no_colon (mc_TableName c) = true.

#[export] Instance storable_checkpoint_dec c : Decision (storable_checkpoint c).
Proof. unfold storable_checkpoint. apply _. Defined.

Section facts.
Context {B : Bolt} {BL : BoltLaws B}.
Implicit Types (s : Storage B) (t : string) (io : option error).

Lemma table_key_put {A} `{RoundTrips A ok} (a : A) t n :
  ok a -> fits t a -> (n < u64_modulus)%N ->
  exists data, Marshal a = Ok data /\ Unmarshal data = Ok a /\ storable (table_key t n) data.
Proof.
  intros Ha [Ht Hf] Hn. destruct (Unmarshal_Marshal a Ha) as (data & Hm & Hu).
  exists data. rewrite Hm in Hf. split_and!; [done..|].
  pose proof (length_table_key t n Hn) as Hl. unfold storable. split_and!; [|lia|done].
  intros E. rewrite E in Hl. simpl in Hl. lia.
Qed.

Lemma storage_bucket_in name : name ∈ storage_buckets ->
  name = HashChainBucket \/ name = MetadataBucket \/ name = MerkleCheckpointBucket.
Proof. unfold storage_buckets. set_solver. Qed.

(** A save that goes through is an insert in the map of its table. *)
Definition saves {A} `{JsonCodec A} (view : Storage B -> gmap string string) (io : option error)
    (t : string) (n : N) (a : A) (s s' : Storage B) (r : result unit) : Prop :=
  ready storage_buckets s' /\
  match r with
  | Ok _ => io = None
      /\ (forall f, table_rep (view s) t f -> table_rep (view s') t (<[n := a]> f))
      /\ (forall t' f, no_colon t' = true -> t' <> t ->
           table_rep (A := A) (view s) t' f -> table_rep (view s') t' f)
  | Err _ => s' = s /\ is_Some io
  | Panic _ => False
  end.

Lemma SaveHashEntry_saves io e s :
  ready storage_buckets s -> storable_entry e ->
  let '(r, s') := SaveHashEntry io e s in
  saves chain io (he_TableName e) (he_SequenceNum e) e s s' r
  /\ checkpoints s' = checkpoints s.
Proof.
  intros Hs (Ho & Hf & Hc). destruct (table_key_put e (he_TableName e) (he_SequenceNum e) Ho Hf)
    as (data & Hm & Hu & Hst); [apply Ho|].
  pose proof (Update_put io HashChainBucket (table_key (he_TableName e) (he_SequenceNum e)) data s
    storage_buckets Hs ltac:(set_solver)) as Hup.
  unfold SaveHashEntry. rewrite Hm. simpl. destruct (Update _ _ s) as [r s'].
  destruct Hup as [Hr' Hup]. unfold saves. destruct r as [[]|err|w]; [|naive_solver|done].
  destruct Hup as (_ & -> & Hin & Hother). split; [|by apply Hother].
  split; [done|]. unfold chain. rewrite Hin. split_and!; [done|..].
  - intros f Hrep. by apply table_rep_insert.
  - intros t f Ht Hne Hrep. by apply table_rep_other.
Qed.

Lemma SaveMerkleCheckpoint_saves io c s :
  ready storage_buckets s -> storable_checkpoint c ->
  let '(r, s') := SaveMerkleCheckpoint io c s in
  saves checkpoints io (mc_TableName c) (mc_SequenceNum c) c s s' r
  /\ chain s' = chain s.
Proof.
  intros Hs (Ho & Hf & Hc). destruct (table_key_put c (mc_TableName c) (mc_SequenceNum c) Ho Hf)
    as (data & Hm & Hu & Hst); [apply Ho|].
  pose proof (Update_put io MerkleCheckpointBucket
    (table_key (mc_TableName c) (mc_SequenceNum c)) data s
    storage_buckets Hs ltac:(set_solver)) as Hup.
  unfold SaveMerkleCheckpoint. rewrite Hm. simpl. destruct (Update _ _ s) as [r s'].
  destruct Hup as [Hr' Hup]. unfold saves. destruct r as [[]|err|w]; [|naive_solver|done].
  destruct Hup as (_ & -> & Hin & Hother). split; [|by apply Hother].
  split; [done|]. unfold checkpoints. rewrite Hin. split_and!; [done|..].
  - intros f Hrep. by apply table_rep_insert.
  - intros t f Ht Hne Hrep. by apply table_rep_other.
Qed.

Lemma GetHashEntry_rep s t f n :
  ready storage_buckets s -> table_rep (chain s) t f ->
  GetHashEntry s t n
  = match f !! n with Some e => Ok e | None => Err (Errorf "hash entry not found") end.
Proof.
  intros Hs Hrep. unfold GetHashEntry. rewrite (View_ready _ _ _ Hs).
  destruct (tx_bucket_ready HashChainBucket _ _ Hs ltac:(set_solver)) as (b & -> & Hb).
  simpl. rewrite Get_contents, Hb. pose proof (table_rep_lookup _ _ _ n Hrep) as Hl.
  fold (chain s). destruct (chain s !! table_key t n); [|by rewrite Hl].
  destruct Hl as (a & -> & ->). done.
Qed.

Lemma GetLatestHashEntry_rep s t f :
  ready storage_buckets s -> table_rep (chain s) t f ->
  match GetLatestHashEntry s t with
  | Ok e => exists n, is_latest f n e
  | Err e => f = ∅ /\ e = Errorf ("no hash entries found for table " +:+ t)
  | Panic _ => False
  end.
Proof.
  intros Hs Hrep. unfold GetLatestHashEntry. rewrite (View_ready _ _ _ Hs).
  destruct (tx_bucket_ready HashChainBucket _ _ Hs ltac:(set_solver)) as (b & -> & Hb).
  simpl. fold (chain s) in Hb. rewrite <-Hb in Hrep. pose proof (scan_latest b t f Hrep) as H.
  by destruct (foldl _ _ _).
Qed.

Lemma GetLatestMerkleCheckpoint_rep s t f :
  ready storage_buckets s -> table_rep (checkpoints s) t f ->
  match GetLatestMerkleCheckpoint s t with
  | Ok c => exists n, is_latest f n c
  | Err e => f = ∅ /\ e = Errorf ("no checkpoints found for table " +:+ t)
  | Panic _ => False
  end.
Proof.
  intros Hs Hrep. unfold GetLatestMerkleCheckpoint. rewrite (View_ready _ _ _ Hs).
  destruct (tx_bucket_ready MerkleCheckpointBucket _ _ Hs ltac:(set_solver)) as (b & -> & Hb).
  simpl. fold (checkpoints s) in Hb. rewrite <-Hb in Hrep.
  pose proof (scan_latest b t f Hrep) as H. by destruct (foldl _ _ _).
Qed.

Lemma GetAllHashEntries_rep s t f :
  ready storage_buckets s -> table_rep (chain s) t f ->
  exists l, GetAllHashEntries s t = Ok (l.*2)
    /\ l ≡ₚ map_to_list f /\ StronglySorted seq_le l.*1.
Proof.
  intros Hs Hrep. unfold GetAllHashEntries. rewrite (View_ready _ _ _ Hs).
  destruct (tx_bucket_ready HashChainBucket _ _ Hs ltac:(set_solver)) as (b & -> & Hb).
  simpl. fold (chain s) in Hb. rewrite <-Hb in Hrep.
  destruct (scan_collect b t f Hrep) as (l & -> & Hl). eauto.
Qed.

(** The latest entry of a map, as a function. *)
Lemma GetLatestHashEntry_is s t f n e :
  ready storage_buckets s -> table_rep (chain s) t f -> is_latest f n e ->
  GetLatestHashEntry s t = Ok e.
Proof.
  intros Hs Hrep Hl. pose proof (GetLatestHashEntry_rep s t f Hs Hrep) as H.
  destruct (GetLatestHashEntry s t) as [e'|err|w]; [|destruct H as [-> _]|done].
  - destruct H as [n' Hl']. f_equal. by eapply is_latest_unique.
  - destruct Hl as [Hl _]. by rewrite lookup_empty in Hl.
Qed.

Lemma Create_same name (bs : gmap string bucket) :
  is_Some (CreateBucketIfNotExists name bs !! name).
Proof.
  unfold CreateBucketIfNotExists. destruct (bs !! name) eqn:E; [by rewrite E|].
  by rewrite lookup_insert_eq.
Qed.

Lemma Create_keep name name' (bs : gmap string bucket) :
  is_Some (bs !! name') -> is_Some (CreateBucketIfNotExists name bs !! name').
Proof.
  intros H. unfold CreateBucketIfNotExists. destruct (bs !! name); [done|].
  rewrite lookup_insert_is_Some. destruct (decide (name = name')); auto.
Qed.

Lemma Create_contents name name' (bs : gmap string bucket) :
  default ∅ (contents <$> CreateBucketIfNotExists name bs !! name')
  = default ∅ (contents <$> bs !! name').
Proof.
  unfold CreateBucketIfNotExists. destruct (bs !! name) eqn:E; [done|].
  destruct (decide (name = name')) as [<-|Hne]; [|by rewrite lookup_insert_ne].
  rewrite lookup_insert_eq, E. simpl. apply contents_new.
Qed.

(** [New] on any database file creates the missing buckets and keeps what
    the file holds. *)
Lemma New_ready bs : exists s, New (Ok bs) None = Ok s /\ ready storage_buckets s
  /\ (forall name, bucket_map s name = default ∅ (contents <$> bs !! name)).
Proof.
  eexists. split; [reflexivity|]. split.
  - split; [done|]. simpl.
    apply Forall_cons; split; [|apply Forall_cons; split; [|apply Forall_singleton]];
      auto using Create_same, Create_keep.
  - intros name. unfold bucket_map. simpl.
    rewrite <-(Create_contents HashChainBucket name bs), <-(Create_contents MetadataBucket name),
      <-(Create_contents MerkleCheckpointBucket name). by destruct (_ !! name).
Qed.
End facts.

(** ** Properties *)

(** What a list of saves leaves for a table: the last entry of each number. *)
Definition saved_entries (t : string) (es : list HashEntry) : gmap N HashEntry :=
  foldl (fun f e => if decide (he_TableName e = t) then <[he_SequenceNum e := e]> f else f) ∅ es.

Definition save_all `{B : Bolt} (es : list HashEntry) (s : Storage B) : Storage B :=
  foldl (fun s e => (SaveHashEntry None e s).2) s es.

Lemma save_all_rep {B : Bolt} {BL : BoltLaws B} (es : list HashEntry) (s0 : Storage B) t :
  New (Ok ∅) None = Ok s0 -> Forall storable_entry es -> no_colon t = true ->
  ready storage_buckets (save_all es s0)
  /\ table_rep (chain (save_all es s0)) t (saved_entries t es).
Proof.
  intros Hnew Hes Ht. destruct (New_ready ∅) as (s0' & Hnew' & Hs0 & Hb).
  rewrite Hnew in Hnew'. injection Hnew' as <-.
  assert (table_rep (A := HashEntry) (chain s0) t ∅) as H0.
  { unfold chain. rewrite Hb, lookup_empty. apply table_rep_empty. }
  unfold save_all, saved_entries. clear Hnew Hb. revert s0 Hs0 H0.
  generalize (∅ : gmap N HashEntry).
  induction Hes as [|e es He Hes IH]; intros f s0 Hs0 Hrep; [done|]. cbn [foldl].
  pose proof (SaveHashEntry_saves None e s0 Hs0 He) as Hsv.
  destruct (SaveHashEntry None e s0) as [r s1]. destruct Hsv as [[Hs1 Hr] _].
  destruct r as [[]|err|w]; [|by destruct Hr as [_ []]|done].
  destruct Hr as (_ & Hsame & Hother). apply IH; [done|]. simpl. case_decide as Et.
  - subst t. by apply Hsame.
  - by apply Hother.
Qed.

(** C12: the storage refines one map per table.  Opening an empty file and
    saving any list of entries leaves a store in which, for every table,
    [GetHashEntry] returns the last entry saved under a sequence number or
    the not-found error, and [GetAllHashEntries] returns exactly the last
    entry of each number, in the bytewise order of the decimal numbers;
    tables do not see each other's entries. *)
Theorem Storage_refines {B : Bolt} {BL : BoltLaws B} (es : list HashEntry) (s0 : Storage B) :
  New (Ok ∅) None = Ok s0 -> Forall storable_entry es ->
  let s := save_all es s0 in
  forall t, no_colon t = true ->
  (forall n, GetHashEntry s t n
     = match saved_entries t es !! n with
       | Some e => Ok e
       | None => Err (Errorf "hash entry not found")
       end)
  /\ exists l, GetAllHashEntries s t = Ok (l.*2)
       /\ l ≡ₚ map_to_list (saved_entries t es) /\ StronglySorted seq_le l.*1.
Proof.
  intros Hnew Hes s t Ht. destruct (save_all_rep es s0 t Hnew Hes Ht) as [Hs Hrep].
  split; [intros n; by apply GetHashEntry_rep|by apply GetAllHashEntries_rep].
Qed.

(** Entries for the witnesses. *)
Definition example_entry (t : string) (n : N) (h : string) : HashEntry := {|
  he_TableName := t; he_SequenceNum := n; he_DataHash := h;
  he_Timestamp := "2024-05-06T07:08:09.123456789+02:00";
  he_OperationType := "INSERT"; he_RecordID := "42" |}.

Definition example_entries : list HashEntry :=
  [example_entry "users" 1 "aa"; example_entry "orders" 1 "bb"; example_entry "users" 2 "cc";
   example_entry "users" 1 "dd"].

Definition empty_storage : Storage map_bolt :=
  match New (B := map_bolt) (Ok ∅) None with
  | Ok s => s
  | _ => {| db_open := false; db_buckets := ∅ |}
  end.

Theorem Storage_refines_witness :
  let s := save_all example_entries empty_storage in
  (forall n, GetHashEntry s "users" n
     = match saved_entries "users" example_entries !! n with
       | Some e => Ok e
       | None => Err (Errorf "hash entry not found")
       end)
  /\ exists l, GetAllHashEntries s "users" = Ok (l.*2)
       /\ l ≡ₚ map_to_list (saved_entries "users" example_entries)
       /\ StronglySorted seq_le l.*1.
Proof.
  apply (Storage_refines (B := map_bolt) example_entries empty_storage).
  - reflexivity.
  - by_decide.
  - reflexivity.
Defined.

(** [GetLatestHashEntry] returns the entry whose key is bytewise
    greatest, and the not-found error exactly when the table has no entry.
    The latest sequence number is therefore found only up to nine: as soon as
    an entry 9 exists, it is returned whatever entries 10 to 89 there are,
    because the key t:10 sorts before t:9. *)
Lemma GetLatestHashEntry_bytewise {B : Bolt} {BL : BoltLaws B} (s : Storage B)
    (t : string) (f : gmap N HashEntry) :
  ready storage_buckets s -> table_rep (chain s) t f ->
  match GetLatestHashEntry s t with
  | Ok e => exists n, is_latest f n e
  | Err e => f = ∅ /\ e = Errorf ("no hash entries found for table " +:+ t)
  | Panic _ => False
  end
  /\ forall e9, f !! 9%N = Some e9 -> (forall n, is_Some (f !! n) -> (n < 90)%N) ->
     GetLatestHashEntry s t = Ok e9.
Proof.
  intros Hs Hrep. split; [by apply GetLatestHashEntry_rep|].
  intros e9 H9 Hall. apply (GetLatestHashEntry_is s t f 9 e9 Hs Hrep).
  split; [done|]. intros n Hn. by apply seq_le_nine, Hall.
Qed.

(** A store with the entries 8, 9 and 10 of a table. *)
Definition nine_ten : list HashEntry :=
  [example_entry "users" 8 "aa"; example_entry "users" 9 "bb"; example_entry "users" 10 "cc"].

Definition nine_ten_storage : Storage map_bolt := save_all nine_ten empty_storage.

Lemma nine_ten_rep :
  ready storage_buckets nine_ten_storage
  /\ table_rep (chain nine_ten_storage) "users" (saved_entries "users" nine_ten).
Proof. apply (save_all_rep (B := map_bolt)); [done|by_decide|done]. Qed.

(** Setting a metadata value changes one value or nothing.  On an open
    store it fails exactly when the commit fails or bbolt refuses the pair,
    and then the store is unchanged; otherwise the value is read back, and
    other metadata, the hash entries and the checkpoints stay as they were. *)
Lemma SetMetadata_spec {B : Bolt} {BL : BoltLaws B} (io : option error) (key value : string)
    (s : Storage B) :
  ready storage_buckets s ->
  let '(r, s') := SetMetadata io key value s in
  ready storage_buckets s'
  /\ match r with
     | Ok _ => io = None /\ storable key value
         /\ GetMetadata s' key = Ok value
         /\ (forall k, k <> key -> GetMetadata s' k = GetMetadata s k)
         /\ chain s' = chain s /\ checkpoints s' = checkpoints s
     | Err _ => s' = s /\ (is_Some io \/ ~ storable key value)
     | Panic _ => False
     end.
Proof.
  intros Hs. unfold SetMetadata.
  pose proof (Update_put io MetadataBucket key value s storage_buckets Hs ltac:(set_solver)) as Hup.
  destruct (Update _ _ s) as [r s']. destruct Hup as [Hs' Hup]. split; [done|].
  destruct r as [[]|err|w]; [|destruct Hup as [-> Hup]|done].
  - destruct Hup as (Hst & -> & Hin & Hother).
    assert (forall k (s : Storage B), ready storage_buckets s ->
      GetMetadata s k = match bucket_map s MetadataBucket !! k with
        | Some v => Ok v | None => Err (Errorf ("metadata key not found: " +:+ k)) end) as Hget.
    { intros k s1 Hs1. unfold GetMetadata. rewrite (View_ready _ _ _ Hs1).
      destruct (tx_bucket_ready MetadataBucket _ _ Hs1 ltac:(set_solver)) as (b & -> & Hb).
      simpl. by rewrite Get_contents, Hb. }
    split_and!; [done..| | | |]; try by apply Hother.
    + by rewrite Hget, Hin, lookup_insert_eq.
    + intros k Hk. by rewrite !Hget, Hin, lookup_insert_ne.
  - split; [done|]. destruct (decide (storable key value)); [left|right]; auto.
Qed.

