(* ===== verification/BoltStore.v ===== *)
(** * internal/consensus/bbolt_store.go: the Raft log and stable stores

    [BoltStore] keeps the Raft log in the bucket logs, under 8-byte
    big-endian indices, and Raft's own values in the bucket stable.
    [raft.Log] is the library's struct; the encoding keeps four of its
    fields.  Go's out parameter [log *raft.Log] is an argument and a result.

    [DeleteRange] deletes from the bucket while it walks it with a cursor.
    bbolt documents the key [Seek] returns and leaves open what a cursor
    returns after the bucket has changed, so the keys the loop visits are the
    parameter [cursor_keys], of which the theorems assume the first only. *)

From Stdlib Require Import Ascii NArith Lia.
From S2P Require Import Prelude Bytes Json JsonFacts Codec Bolt Keys Storage.

Definition logsBucket : string := "logs".
Definition stableBucket : string := "stable".
Definition raft_buckets : list string := [logsBucket; stableBucket].

(** [raft.Log] of github.com/hashicorp/raft. *)
Record Log := {
  l_Index : N;
  l_Term : N;
  l_Type : N;
  l_Data : string;
  l_Extensions : string;
  l_AppendedAt : Time
}.

#[export] Instance Log_eq_dec : EqDecision Log.
Proof. solve_decision. Defined.

Definition set_Index (i : N) (l : Log) : Log :=
  {| l_Index := i; l_Term := l_Term l; l_Type := l_Type l; l_Data := l_Data l;
     l_Extensions := l_Extensions l; l_AppendedAt := l_AppendedAt l |}.
Definition set_Term (t : N) (l : Log) : Log :=
  {| l_Index := l_Index l; l_Term := t; l_Type := l_Type l; l_Data := l_Data l;
     l_Extensions := l_Extensions l; l_AppendedAt := l_AppendedAt l |}.
Definition set_Type (ty : N) (l : Log) : Log :=
  {| l_Index := l_Index l; l_Term := l_Term l; l_Type := ty; l_Data := l_Data l;
     l_Extensions := l_Extensions l; l_AppendedAt := l_AppendedAt l |}.
Definition set_Data (d : string) (l : Log) : Log :=
  {| l_Index := l_Index l; l_Term := l_Term l; l_Type := l_Type l; l_Data := d;
     l_Extensions := l_Extensions l; l_AppendedAt := l_AppendedAt l |}.

(** [raft.ErrLogNotFound] *)
Definition ErrLogNotFound : error := External "log not found".

Local Open Scope witnz_scope.

(** index (8), term (8), type (1), data length (4), data *)
Definition encodeLog (log : Log) : result string :=
  Ok (PutUint64 (l_Index log) +:+ PutUint64 (l_Term log)
      +:+ String (ascii_of_N (l_Type log)) ""
      +:+ PutUint32 (N.of_nat (String.length (l_Data log)) mod 2 ^ 32)
      +:+ l_Data log).

(** [data[offset:]] *)
Definition slice_from (data : string) (offset : nat) : result string :=
  go_slice data offset (String.length data).

Definition byte_at (data : string) (offset : nat) : result N :=
  match String.get offset data with
  | Some a => Ok (N_of_ascii a)
  | None => Panic "index out of range"
  end.

(** Runs [m]; on a value, goes on with it and the log. *)
Definition step {A} (m : result A) (log : Log) (k : A -> result unit * Log)
    : result unit * Log :=
  match m with
  | Ok a => k a
  | Err e => (Err e, log)
  | Panic w => (Panic w, log)
  end.

Definition decodeLog (data : string) (log : Log) : result unit * Log :=
  if decide (String.length data < 21)%nat
  then (Err (Errorf ("log data too short: " +:+ pretty (String.length data) +:+ " bytes")), log)
  else
  step (slice_from data 0 ≫= Uint64) log (fun index =>
  let log := set_Index index log in
  step (slice_from data 8 ≫= Uint64) log (fun term =>
  let log := set_Term term log in
  step (byte_at data 16) log (fun ty =>
  let log := set_Type ty log in
  step (slice_from data 17 ≫= Uint32) log (fun dataLen =>
  if decide (String.length data < 21 + N.to_nat dataLen)%nat
  then (Err (Errorf ("log data incomplete: expected " +:+ pretty (21 + dataLen)%N
          +:+ " bytes, got " +:+ pretty (String.length data))), log)
  else step (go_slice data 21 (21 + N.to_nat dataLen)) log (fun d =>
  (Ok tt, set_Data d log)))))).

Section bolt_store.
Context `{B : Bolt}.

Definition BoltStore : Type := DB B.

Definition initialize (io : option error) (db : DB B) : result unit * DB B :=
  Update io (fun tx =>
    Ok (CreateBucketIfNotExists stableBucket (CreateBucketIfNotExists logsBucket tx))) db.

Definition NewBoltStore (opened : result (gmap string bucket)) (io : option error)
    : result BoltStore :=
  let! bs := wrap_err "failed to open bolt database" opened in
  match initialize io {| db_open := true; db_buckets := bs |} with
  | (Ok _, db) => Ok db
  | (Err e, _) => Err (Wrap "failed to initialize buckets" e)
  | (Panic w, _) => Panic w
  end.

Definition CloseStore (b : BoltStore) : BoltStore := CloseDB b.

Definition FirstIndex (b : BoltStore) : result N :=
  View (fun tx =>
    let! bucket := tx_bucket logsBucket tx in
    match head (pairs bucket) with
    | None => Ok 0%N
    | Some (k, _) => Uint64 k
    end) b.

Definition LastIndex (b : BoltStore) : result N :=
  View (fun tx =>
    let! bucket := tx_bucket logsBucket tx in
    match last (pairs bucket) with
    | None => Ok 0%N
    | Some (k, _) => Uint64 k
    end) b.

Definition GetLog (b : BoltStore) (index : N) (log : Log) : result unit * Log :=
  step (View (fun tx =>
    let! bucket := tx_bucket logsBucket tx in
    match Get bucket (PutUint64 index) with
    | None => Err ErrLogNotFound
    | Some val => Ok val
    end) b) log (fun val => decodeLog val log).

Fixpoint store_logs (logs : list Log) (tx : gmap string bucket) : result (gmap string bucket) :=
  match logs with
  | [] => Ok tx
  | log :: rest =>
      let! val := wrap_err "failed to encode log" (encodeLog log) in
      let! tx' := wrap_err "failed to store log"
                    (tx_put logsBucket (PutUint64 (l_Index log)) val tx) in
      store_logs rest tx'
  end.

Definition StoreLogs (io : option error) (logs : list Log) (b : BoltStore)
    : result unit * BoltStore :=
  Update io (store_logs logs) b.

Definition StoreLog (io : option error) (log : Log) (b : BoltStore) : result unit * BoltStore :=
  StoreLogs io [log] b.

(** [cursor_keys b k]: the keys a cursor returns from [Seek k] on while the
    loop deletes. *)
Variable cursor_keys : bucket -> string -> list string.

Fixpoint delete_keys (max : N) (keys : list string) (b : bucket) : result bucket :=
  match keys with
  | [] => Ok b
  | k :: rest =>
      let! i := Uint64 k in
      if (i <=? max)%N then
        let! b' := wrap_err "failed to delete log entry" (Delete b k) in
        delete_keys max rest b'
      else Ok b
  end.

Definition DeleteRange (io : option error) (min max : N) (b : BoltStore)
    : result unit * BoltStore :=
  Update io (fun tx =>
    let! bucket := tx_bucket logsBucket tx in
    let! bucket' := delete_keys max (cursor_keys bucket (PutUint64 min)) bucket in
    Ok (<[logsBucket := bucket']> tx)) b.

(** ** The stable store *)

Definition Set_ (io : option error) (key val : string) (b : BoltStore)
    : result unit * BoltStore :=
  Update io (tx_put stableBucket key val) b.

(** A missing key is the nil slice, which is empty. *)
Definition Get_ (b : BoltStore) (key : string) : result string :=
  View (fun tx =>
    let! bucket := tx_bucket stableBucket tx in
    Ok (default "" (Get bucket key))) b.

Definition SetUint64 (io : option error) (key : string) (val : N) (b : BoltStore)
    : result unit * BoltStore :=
  Set_ io key (PutUint64 val) b.

Definition GetUint64 (b : BoltStore) (key : string) : result N :=
  let! val := Get_ b key in
  if decide (String.length val = 0%nat) then Ok 0%N
  else if decide (String.length val <> 8%nat)
  then Err (Errorf ("invalid uint64 value length: " +:+ pretty (String.length val)))
  else Uint64 val.
End bolt_store.
Arguments BoltStore : clear implicits.
Arguments BoltStore B : rename.
