(* ===== verification/BoltStoreFacts.v ===== *)
(** * The Raft log store implements a finite map of logs

    [log_rep m f]: the bucket of logs holds exactly the logs of the map [f],
    each under its index.  Storing is insertion, deleting a range is a
    filter, the first and last indices are the least and the greatest. *)

From Stdlib Require Import Ascii NArith Lia.
From S2P Require Import Prelude Bytes Json JsonFacts Codec Bolt Keys Storage BoltStore.

(** The widths of Go's fields, and data that fits in a bbolt value. *)
Definition log_ok (l : Log) : Prop :=
  (l_Index l < u64_modulus)%N /\ (l_Term l < u64_modulus)%N /\ (l_Type l < 256)%N
  /\ (N.of_nat (String.length (l_Data l)) <= 2147483625)%N.

#[export] Instance log_ok_dec l : Decision (log_ok l).
Proof. unfold log_ok. apply _. Defined.

(** What survives the encoding. *)
Definition stored_log (l into : Log) : Log :=
  {| l_Index := l_Index l; l_Term := l_Term l; l_Type := l_Type l; l_Data := l_Data l;
     l_Extensions := l_Extensions into; l_AppendedAt := l_AppendedAt into |}.

Definition log_text (l : Log) : string :=
  PutUint64 (l_Index l) +:+ PutUint64 (l_Term l) +:+ String (ascii_of_N (l_Type l)) ""
  +:+ PutUint32 (N.of_nat (String.length (l_Data l)) mod 2 ^ 32) +:+ l_Data l.

Lemma go_slice_app s t hi :
  hi <= String.length t ->
  go_slice (s +:+ t) (String.length s) (String.length s + hi) = Ok (String.substring 0 hi t).
Proof.
  intros Hhi. unfold go_slice. rewrite decide_True by (rewrite string_length_app; lia).
  f_equal. replace (String.length s + hi - String.length s) with hi by lia.
  replace (String.length s) with (String.length s + 0) by lia. apply substring_app_skip.
Qed.

Lemma slice_from_app s t n : n = String.length s -> slice_from (s +:+ t) n = Ok t.
Proof.
  intros ->. unfold slice_from. rewrite string_length_app, go_slice_app by lia.
  by rewrite substring_all.
Qed.

Lemma byte_at_app s a t n : n = String.length s -> byte_at (s +:+ String a t) n = Ok (N_of_ascii a).
Proof.
  intros ->. unfold byte_at. induction s as [|b s IH]; [done|]. rewrite string_app_cons. apply IH.
Qed.

Lemma length_PutUint64 n : String.length (PutUint64 n) = 8.
Proof. apply length_be_bytes. Qed.

Lemma length_PutUint32 n : String.length (PutUint32 n) = 4.
Proof. apply length_be_bytes. Qed.

Lemma length_log_text l : String.length (log_text l) = 21 + String.length (l_Data l).
Proof.
  unfold log_text. rewrite !string_length_app, !length_PutUint64, length_PutUint32. simpl. lia.
Qed.

Lemma decodeLog_log_text l into :
  log_ok l -> decodeLog (log_text l) into = (Ok tt, stored_log l into).
Proof.
  intros (Hi & Ht & Hy & Hd). unfold decodeLog.
  rewrite decide_False by (rewrite length_log_text; lia).
  pose proof (slice_from_app "" (log_text l) 0 eq_refl) as E0.
  rewrite string_app_nil_l in E0. rewrite E0. rewrite Ok_bind.
  unfold log_text at 1. rewrite Uint64_PutUint64 by done. cbn [step].
  unfold log_text at 1.
  rewrite slice_from_app by (by rewrite length_PutUint64). rewrite Ok_bind.
  rewrite Uint64_PutUint64 by done. cbn [step].
  assert (log_text l = (PutUint64 (l_Index l) +:+ PutUint64 (l_Term l))
    +:+ String (ascii_of_N (l_Type l))
          (PutUint32 (N.of_nat (String.length (l_Data l)) mod 2 ^ 32) +:+ l_Data l)) as E16.
  { unfold log_text. by rewrite !string_app_assoc, string_app_cons, string_app_nil_l. }
  rewrite E16 at 1.
  rewrite byte_at_app by (by rewrite string_length_app, !length_PutUint64).
  rewrite N_of_ascii_of_N by done. cbn [step].
  assert (log_text l = (PutUint64 (l_Index l) +:+ PutUint64 (l_Term l)
      +:+ String (ascii_of_N (l_Type l)) "")
    +:+ (PutUint32 (N.of_nat (String.length (l_Data l)) mod 2 ^ 32) +:+ l_Data l)) as E17.
  { unfold log_text. by rewrite !string_app_assoc. }
  rewrite E17 at 1.
  rewrite slice_from_app by (by rewrite !string_length_app, !length_PutUint64). rewrite Ok_bind.
  rewrite (N.mod_small _ (2 ^ 32)) in * by lia.
  rewrite Uint32_PutUint32 by lia. cbn [step].
  rewrite decide_False by (rewrite length_log_text; lia).
  assert (log_text l = (PutUint64 (l_Index l) +:+ PutUint64 (l_Term l)
      +:+ String (ascii_of_N (l_Type l)) ""
      +:+ PutUint32 (N.of_nat (String.length (l_Data l)))) +:+ l_Data l) as E21.
  { rewrite E17. by rewrite !string_app_assoc. }
  rewrite E21, Nat2N.id.
  assert (String.length (PutUint64 (l_Index l) +:+ PutUint64 (l_Term l)
      +:+ String (ascii_of_N (l_Type l)) ""
      +:+ PutUint32 (N.of_nat (String.length (l_Data l)))) = 21) as Hp.
  { by rewrite !string_length_app, !length_PutUint64, length_PutUint32. }
  rewrite <-Hp at 1 2. rewrite go_slice_app by done. by rewrite substring_all.
Qed.

(** ** Decoding never panics *)

Lemma length_substring lo n s :
  String.length (String.substring lo n s) = Nat.min n (String.length s - lo).
Proof.
  revert lo n. induction s as [|a s IH]; intros [|lo] [|n]; simpl; rewrite ?IH;
    try case_match; lia.
Qed.

Lemma slice_from_Ok data n :
  n <= String.length data ->
  exists s, slice_from data n = Ok s /\ String.length s = String.length data - n.
Proof.
  intros Hn. unfold slice_from, go_slice. rewrite decide_True by lia. eexists. split; [done|].
  rewrite length_substring. lia.
Qed.

Lemma get_Some s n : n < String.length s -> exists a, String.get n s = Some a.
Proof.
  revert n. induction s as [|a s IH]; intros [|n] Hn; simpl in *; try lia; [eauto|].
  apply IH. lia.
Qed.

Lemma decodeLog_no_panic data into : is_Panic (decodeLog data into).1 = false.
Proof.
  unfold decodeLog. case_decide; [done|].
  destruct (slice_from_Ok data 0) as (s0 & -> & L0); [lia|].
  destruct (slice_from_Ok data 8) as (s8 & -> & L8); [lia|].
  destruct (slice_from_Ok data 17) as (s17 & -> & L17); [lia|]. rewrite !Ok_bind.
  unfold Uint64, Uint32. rewrite !decide_True by lia. cbn [step].
  unfold byte_at. destruct (get_Some data 16) as [a ->]; [lia|]. cbn [step].
  case_decide; [done|]. unfold go_slice. rewrite decide_True by lia. done.
Qed.

(** ** The abstract log *)

Record log_rep (m : gmap string string) (f : gmap N Log) : Prop := {
  log_stored : forall i l, f !! i = Some l ->
    log_ok l /\ l_Index l = i /\ m !! PutUint64 i = Some (log_text l);
  log_keys : forall k v, m !! k = Some v -> exists i, k = PutUint64 i /\ is_Some (f !! i)
}.

(** Storing logs in order. *)
Definition insert_logs (logs : list Log) (f : gmap N Log) : gmap N Log :=
  foldl (fun f l => <[l_Index l := l]> f) f logs.

Lemma log_index_lt m f i : log_rep m f -> is_Some (f !! i) -> (i < u64_modulus)%N.
Proof. intros Hr [l Hl]. destruct (log_stored _ _ Hr i l Hl) as ((Hi & _) & <- & _). done. Qed.

Lemma PutUint64_inj i j :
  (i < u64_modulus)%N -> (j < u64_modulus)%N -> PutUint64 i = PutUint64 j -> i = j.
Proof. apply (be_bytes_inj 8). Qed.

Lemma PutUint64_le i j :
  (i < u64_modulus)%N -> (j < u64_modulus)%N ->
  String.le (PutUint64 i) (PutUint64 j) <-> (i <= j)%N.
Proof.
  intros Hi Hj. unfold String.le, String.leb. rewrite PutUint64_compare by done.
  destruct (N.compare_spec i j); simpl; split; intros; try done; lia.
Qed.

Lemma log_rep_empty : log_rep ∅ ∅.
Proof. split; intros ? ? H; by rewrite lookup_empty in H. Qed.

Lemma log_rep_lookup m f i :
  log_rep m f -> (i < u64_modulus)%N -> m !! PutUint64 i = log_text <$> f !! i.
Proof.
  intros Hr Hi. destruct (f !! i) as [l|] eqn:E.
  - by apply (log_stored _ _ Hr) in E as (_ & _ & ->).
  - destruct (m !! PutUint64 i) as [v|] eqn:Em; [|done].
    destruct (log_keys _ _ Hr _ _ Em) as (j & Hj & Hs).
    apply PutUint64_inj in Hj as <-; [by destruct Hs as [? Hs]; rewrite E in Hs|done|].
    by eapply log_index_lt.
Qed.

Lemma log_rep_insert m f l :
  log_rep m f -> log_ok l ->
  log_rep (<[PutUint64 (l_Index l) := log_text l]> m) (<[l_Index l := l]> f).
Proof.
  intros Hr Hl. split.
  - intros i l' [[<- <-]|[Hne Hf]]%lookup_insert_Some; [by rewrite lookup_insert_eq|].
    destruct (log_stored _ _ Hr i l' Hf) as (Hok & <- & Hm). split_and!; [done..|].
    rewrite lookup_insert_ne; [done|]. intros E. apply Hne, PutUint64_inj; [apply Hl|apply Hok|done].
  - intros k v [[<- <-]|[Hne Hm]]%lookup_insert_Some.
    + exists (l_Index l). by rewrite lookup_insert_eq.
    + destruct (log_keys _ _ Hr k v Hm) as (i & -> & Hs). exists i. split; [done|].
      rewrite lookup_insert_is_Some. destruct (decide (l_Index l = i)); auto.
Qed.

(** The indices behind a list of stored pairs. *)
Lemma log_indices m f (L : list (string * string)) :
  log_rep m f -> (forall k v, (k, v) ∈ L -> m !! k = Some v) ->
  exists idx, L.*1 = PutUint64 <$> idx /\ Forall (fun i => is_Some (f !! i)) idx.
Proof.
  intros Hr. induction L as [|[k v] L IH]; intros HL; [by exists []|].
  destruct IH as (idx & E & His); [set_solver|].
  destruct (log_keys _ _ Hr k v) as (i & -> & Hs); [apply HL; set_solver|].
  exists (i :: idx). rewrite fmap_cons, E. split; [done|by constructor].
Qed.

Lemma indices_sorted m f idx :
  log_rep m f -> Forall (fun i => is_Some (f !! i)) idx ->
  StronglySorted String.le (PutUint64 <$> idx) -> StronglySorted N.le idx.
Proof.
  intros Hr. induction 1 as [|i idx Hi His IH]; intros Hs; [constructor|].
  rewrite fmap_cons in Hs. apply StronglySorted_inv in Hs as [Hs Hall].
  constructor; [by apply IH|]. rewrite Forall_fmap in Hall.
  rewrite Forall_forall in His, Hall |- *. intros j Hj.
  apply PutUint64_le; [by eapply log_index_lt|eapply log_index_lt; [done|]; auto|]. by apply Hall.
Qed.

(** ** The operations on the abstract log *)

Section ops.
Context {B : Bolt} {BL : BoltLaws B}.
Implicit Types (b : BoltStore B) (f : gmap N Log).

Definition logs_of b : gmap string string := bucket_map b logsBucket.

Lemma logs_bucket b : ready raft_buckets b ->
  exists bk, tx_bucket logsBucket (db_buckets b) = Ok bk /\ contents bk = logs_of b.
Proof. intros Hb. apply (tx_bucket_ready logsBucket _ _ Hb). set_solver. Qed.

Lemma log_storable l : log_ok l -> storable (PutUint64 (l_Index l)) (log_text l).
Proof.
  intros (_ & _ & _ & Hd). split_and!; [by intros E; discriminate E| |].
  - rewrite length_PutUint64. lia.
  - rewrite length_log_text. lia.
Qed.

(** The loop of [StoreLogs] inserts its logs in order. *)
Lemma store_logs_spec logs (tx : gmap string bucket) bk f :
  tx !! logsBucket = Some bk -> log_rep (contents bk) f -> Forall log_ok logs ->
  exists tx' bk', store_logs logs tx = Ok tx' /\ tx' !! logsBucket = Some bk'
    /\ log_rep (contents bk') (insert_logs logs f)
    /\ (forall n, n <> logsBucket -> tx' !! n = tx !! n).
Proof.
  revert tx bk f. induction logs as [|l logs IH]; intros tx bk f Hbk Hr Hok.
  { exists tx, bk. done. }
  apply Forall_cons in Hok as [Hl Hok]. cbn [store_logs].
  destruct (Put_contents bk _ _ (log_storable l Hl)) as (bk1 & Hput & Hc).
  change (encodeLog l) with (Ok (log_text l)). cbn [wrap_err]. rewrite Ok_bind.
  unfold tx_put, tx_bucket. rewrite Hbk, Hput. cbn [wrap_err]. rewrite Ok_bind.
  destruct (IH (<[logsBucket := bk1]> tx) bk1 (<[l_Index l := l]> f))
    as (tx' & bk' & -> & Hbk' & Hr' & Ho).
  - by rewrite lookup_insert_eq.
  - rewrite Hc. by apply log_rep_insert.
  - done.
  - exists tx', bk'. split_and!; [done..|]. intros n Hn. rewrite Ho, lookup_insert_ne by done. done.
Qed.

Lemma StoreLogs_rep io logs b f :
  ready raft_buckets b -> log_rep (logs_of b) f -> Forall log_ok logs ->
  let '(r, b') := StoreLogs io logs b in
  ready raft_buckets b' /\
  match io with
  | None => r = Ok tt /\ log_rep (logs_of b') (insert_logs logs f)
  | Some e => r = Err e /\ b' = b
  end.
Proof.
  intros Hb Hr Hok. destruct Hb as [Ho Hbs]. unfold StoreLogs, Update. rewrite Ho.
  assert (is_Some (db_buckets b !! logsBucket)) as [bk Hbk].
  { rewrite Forall_forall in Hbs. apply Hbs. set_solver. }
  unfold logs_of, bucket_map in Hr. rewrite Hbk in Hr.
  destruct (store_logs_spec logs _ bk f Hbk Hr Hok) as (tx' & bk' & -> & Hbk' & Hr' & Hother).
  destruct io as [e|]; [done|]. split.
  - split; [done|]. eapply List.Forall_impl; [|exact Hbs]. intros n Hn. simpl.
    destruct (decide (n = logsBucket)) as [->|Hne]; [by exists bk'|by rewrite Hother].
  - split; [done|]. unfold logs_of, bucket_map. simpl. by rewrite Hbk'.
Qed.

Lemma GetLog_rep b f i into :
  ready raft_buckets b -> log_rep (logs_of b) f -> (i < u64_modulus)%N ->
  GetLog b i into
  = match f !! i with
    | Some l => (Ok tt, stored_log l into)
    | None => (Err ErrLogNotFound, into)
    end.
Proof.
  intros Hb Hr Hi. unfold GetLog. rewrite (View_ready _ _ _ Hb).
  destruct (logs_bucket b Hb) as (bk & -> & Hc). rewrite Ok_bind, Get_contents, Hc.
  rewrite (log_rep_lookup _ f) by done. destruct (f !! i) as [l|] eqn:E; [|done].
  simpl. apply decodeLog_log_text. by eapply (log_stored _ _ Hr).
Qed.

(** The pairs a cursor walks, as indices in ascending order. *)
Lemma pairs_indices b f bk :
  log_rep (logs_of b) f -> contents bk = logs_of b ->
  exists idx, (pairs bk).*1 = PutUint64 <$> idx /\ StronglySorted N.le idx
    /\ forall i, i ∈ idx <-> is_Some (f !! i).
Proof.
  intros Hr Hc. rewrite pairs_contents, Hc.
  destruct (log_indices _ _ (sorted_pairs (logs_of b)) Hr) as (idx & E & Hidx).
  { intros k v. by rewrite elem_of_sorted_pairs. }
  exists idx. split; [done|]. split.
  - eapply indices_sorted; [done..|]. rewrite <-E. apply sorted_pairs_sorted.
  - intros i. split; [rewrite Forall_forall in Hidx; apply Hidx|]. intros Hs.
    pose proof (log_index_lt _ _ i Hr Hs) as Hi. destruct Hs as [l Hl].
    apply (log_stored _ _ Hr) in Hl as (_ & _ & Hm). apply elem_of_sorted_pairs in Hm.
    apply (list_elem_of_fmap_2 fst) in Hm. rewrite E in Hm.
    apply list_elem_of_fmap in Hm as (j & Hj & Hin). rewrite Forall_forall in Hidx.
    apply PutUint64_inj in Hj as <-; [done..|]. by eapply log_index_lt, Hidx.
Qed.

Lemma sorted_last {X} (R : X -> X -> Prop) (Hrefl : forall x, R x x) l x :
  StronglySorted R l -> last l = Some x -> forall y, y ∈ l -> R y x.
Proof.
  intros Hs (l' & ->)%last_Some y [Hy|Hy%list_elem_of_singleton]%elem_of_app; [|by subst].
  eapply (StronglySorted_app_1_elem_of R); [done..|]. set_solver.
Qed.

Lemma Uint64_key i : (i < u64_modulus)%N -> Uint64 (PutUint64 i) = Ok i.
Proof. intros Hi. rewrite <-(string_app_nil_r (PutUint64 i)). by apply Uint64_PutUint64. Qed.

Lemma FirstIndex_rep b f :
  ready raft_buckets b -> log_rep (logs_of b) f ->
  exists i, FirstIndex b = Ok i
    /\ (f = ∅ /\ i = 0%N \/ is_Some (f !! i) /\ forall j, is_Some (f !! j) -> (i <= j)%N).
Proof.
  intros Hb Hr. unfold FirstIndex. rewrite (View_ready _ _ _ Hb).
  destruct (logs_bucket b Hb) as (bk & -> & Hc). rewrite Ok_bind.
  destruct (pairs_indices b f bk Hr Hc) as (idx & E & Hs & Hidx).
  destruct (pairs bk) as [|[k v] L], idx as [|i idx]; try done; simpl.
  - exists 0%N. split; [done|]. left. split; [|done]. apply map_empty. intros i.
    destruct (f !! i) eqn:Ef; [|done]. assert (i ∈ @nil N) by (apply Hidx; eauto). set_solver.
  - injection E as -> E. assert (is_Some (f !! i)) as Hi by (apply Hidx; set_solver).
    exists i. split; [by eapply Uint64_key, log_index_lt|]. right. split; [done|].
    intros j Hj. apply Hidx in Hj. apply StronglySorted_inv in Hs as [_ Hall].
    rewrite Forall_forall in Hall. apply elem_of_cons in Hj as [->|Hj]; [lia|auto].
Qed.

Lemma LastIndex_rep b f :
  ready raft_buckets b -> log_rep (logs_of b) f ->
  exists i, LastIndex b = Ok i
    /\ (f = ∅ /\ i = 0%N \/ is_Some (f !! i) /\ forall j, is_Some (f !! j) -> (j <= i)%N).
Proof.
  intros Hb Hr. unfold LastIndex. rewrite (View_ready _ _ _ Hb).
  destruct (logs_bucket b Hb) as (bk & -> & Hc). rewrite Ok_bind.
  destruct (pairs_indices b f bk Hr Hc) as (idx & E & Hs & Hidx).
  pose proof (f_equal last E) as El. rewrite !fmap_last in El.
  destruct (last (pairs bk)) as [[k v]|] eqn:Ep, (last idx) as [i|] eqn:Ei; try done; simpl in El.
  - injection El as ->. assert (i ∈ idx) as Hin.
    { apply last_Some in Ei as [l' ->]. set_solver. }
    assert (is_Some (f !! i)) as Hi by by apply Hidx.
    exists i. split; [by eapply Uint64_key, log_index_lt|]. right. split; [done|].
    intros j Hj%Hidx. by eapply (sorted_last N.le N.le_refl).
  - exists 0%N. split; [done|]. left. split; [|done]. apply last_None in Ei as ->.
    apply map_empty. intros i. destruct (f !! i) eqn:Ef; [|done].
    assert (i ∈ @nil N) by (apply Hidx; eauto). set_solver.
Qed.

(** ** Deleting a range *)

Lemma delete_keys_spec max idx (bk : bucket) :
  Forall (fun i => (i < u64_modulus)%N) idx -> StronglySorted N.le idx ->
  exists bk', delete_keys max (PutUint64 <$> idx) bk = Ok bk'
    /\ forall k, contents bk' !! k
       = if decide (k ∈ PutUint64 <$> filter (fun i => (i <= max)%N) idx)
         then None else contents bk !! k.
Proof.
  intros Hlt. revert bk. induction Hlt as [|i idx Hi Hlt IH]; intros bk Hs.
  { exists bk. split; [done|]. intros k. by rewrite decide_False by set_solver. }
  apply StronglySorted_inv in Hs as [Hs Hall]. rewrite fmap_cons. cbn [delete_keys].
  rewrite Uint64_key, Ok_bind by done. destruct (N.leb_spec i max) as [Hle|Hgt].
  - destruct (Delete_contents bk (PutUint64 i)) as (bk1 & -> & Hc). cbn [wrap_err].
    rewrite Ok_bind. destruct (IH bk1 Hs) as (bk' & -> & Hk). exists bk'. split; [done|].
    intros k. rewrite Hk, Hc, filter_cons, (decide_True (P := (i <= max)%N)) by done.
    rewrite fmap_cons.
    destruct (decide (k = PutUint64 i)) as [->|Hne].
    + rewrite (decide_True (P := PutUint64 i ∈ _ :: _)) by set_solver.
      case_decide; [done|]. apply lookup_delete_eq.
    + rewrite lookup_delete_ne by done. repeat case_decide; set_solver.
  - exists bk. split; [done|]. intros k. rewrite decide_False; [done|].
    rewrite filter_cons, (decide_False (P := (i <= max)%N)) by lia. intros (j & _ & Hj)%list_elem_of_fmap.
    apply list_elem_of_filter in Hj as [Hj Hin]. rewrite Forall_forall in Hall.
    specialize (Hall j Hin). lia.
Qed.

(** The keys from [min] on, as indices in ascending order. *)
Lemma seek_indices b f bk min :
  log_rep (logs_of b) f -> contents bk = logs_of b -> (min < u64_modulus)%N ->
  exists idx, (seek bk (PutUint64 min)).*1 = PutUint64 <$> idx /\ StronglySorted N.le idx
    /\ Forall (fun i => (i < u64_modulus)%N) idx
    /\ forall i, i ∈ idx <-> is_Some (f !! i) /\ (min <= i)%N.
Proof.
  intros Hr Hc Hmin. rewrite seek_contents, Hc.
  set (L := filter _ _).
  assert (forall k v, (k, v) ∈ L <-> String.le (PutUint64 min) k /\ logs_of b !! k = Some v) as HL.
  { intros k v. unfold L. by rewrite list_elem_of_filter, elem_of_sorted_pairs. }
  destruct (log_indices _ _ L Hr) as (idx & E & Hidx); [by intros k v [_ ?]%HL|].
  rewrite Forall_forall in Hidx.
  exists idx. split_and!; [done| | |].
  - eapply indices_sorted; [done|by apply Forall_forall|]. rewrite <-E.
    apply StronglySorted_filter_fst, sorted_pairs_sorted.
  - apply Forall_forall. intros i Hi. by eapply log_index_lt, Hidx.
  - intros i. split.
    + intros Hi. split; [by apply Hidx|]. apply (list_elem_of_fmap_2 PutUint64) in Hi as Hk.
      rewrite <-E in Hk. apply list_elem_of_fmap in Hk as ([k v] & Hk & [Hle _]%HL).
      simpl in Hk. subst k. apply PutUint64_le; [done|by eapply log_index_lt, Hidx|done].
    + intros [Hs Hle]. pose proof (log_index_lt _ _ i Hr Hs) as Hi. destruct Hs as [l Hl].
      apply (log_stored _ _ Hr) in Hl as (_ & _ & Hm).
      assert (PutUint64 i ∈ L.*1) as Hin.
      { apply (list_elem_of_fmap_2 fst _ (PutUint64 i, log_text l)), HL.
        split; [by apply PutUint64_le|done]. }
      rewrite E in Hin. apply list_elem_of_fmap in Hin as (j & Hj & Hin).
      apply PutUint64_inj in Hj as <-; [done..|]. by eapply log_index_lt, Hidx.
Qed.

Lemma log_rep_delete m m' f min max (idx : list N) :
  log_rep m f -> (forall i, i ∈ idx <-> is_Some (f !! i) /\ (min <= i)%N) ->
  (forall k, m' !! k = if decide (k ∈ PutUint64 <$> filter (fun i => (i <= max)%N) idx)
                       then None else m !! k) ->
  log_rep m' (filter (fun il => ~ (min <= il.1 /\ il.1 <= max)%N) f).
Proof.
  intros Hr Hidx Hm'. split.
  - intros i l [Hl Hout]%map_lookup_filter_Some.
    destruct (log_stored _ _ Hr i l Hl) as (Hok & Hi & Hm). split_and!; [done..|].
    rewrite Hm', decide_False; [done|]. intros (j & Hj & Hin)%list_elem_of_fmap.
    apply list_elem_of_filter in Hin as [Hle Hin]. apply Hidx in Hin as [Hs Hge].
    apply PutUint64_inj in Hj as <-; [|eapply log_index_lt; eauto..].
    apply Hout. simpl. lia.
  - intros k v Hk. rewrite Hm' in Hk. case_decide as Hnin; [done|].
    destruct (log_keys _ _ Hr k v Hk) as (i & -> & [l Hl]). exists i. split; [done|].
    exists l. apply map_lookup_filter_Some. split; [done|]. simpl. intros [Hge Hle].
    apply Hnin, list_elem_of_fmap_2, list_elem_of_filter. split; [done|].
    apply Hidx. split; [eauto|done].
Qed.

Lemma DeleteRange_rep cursor_keys io min max b f :
  (forall bk k, cursor_keys bk k = (seek bk k).*1) ->
  ready raft_buckets b -> log_rep (logs_of b) f -> (min < u64_modulus)%N ->
  let '(r, b') := DeleteRange cursor_keys io min max b in
  ready raft_buckets b' /\
  match io with
  | None => r = Ok tt
      /\ log_rep (logs_of b') (filter (fun il => ~ (min <= il.1 /\ il.1 <= max)%N) f)
  | Some e => r = Err e /\ b' = b
  end.
Proof.
  intros Hcur Hb Hr Hmin. pose proof Hb as [Ho Hbs]. unfold DeleteRange, Update. rewrite Ho.
  destruct (logs_bucket b Hb) as (bk & -> & Hc). rewrite Ok_bind, Hcur.
  destruct (seek_indices b f bk min Hr Hc Hmin) as (idx & -> & Hs & Hlt & Hidx).
  destruct (delete_keys_spec max idx bk Hlt Hs) as (bk' & -> & Hk). rewrite Ok_bind.
  destruct io as [e|]; [done|]. split.
  - split; [done|]. eapply List.Forall_impl; [|exact Hbs]. intros n Hn. simpl.
    rewrite lookup_insert_is_Some. destruct (decide (logsBucket = n)); auto.
  - split; [done|]. unfold logs_of at 1, bucket_map. simpl. rewrite lookup_insert_eq.
    eapply log_rep_delete; [exact Hr|done|]. intros k. by rewrite Hk, Hc.
Qed.
(** Whatever keys the cursor returns: only keys up to [max] are deleted, and
    the first one is if it is not beyond [max]. *)
Lemma delete_keys_any max keys (bk : bucket) :
  match delete_keys max keys bk with
  | Ok bk' => (forall k, contents bk' !! k = contents bk !! k
                \/ contents bk' !! k = None /\ exists i, Uint64 k = Ok i /\ (i <= max)%N)
      /\ (forall k i, head keys = Some k -> Uint64 k = Ok i -> (i <= max)%N ->
           contents bk' !! k = None)
  | _ => True
  end.
Proof.
  revert bk. induction keys as [|k keys IH]; intros bk; cbn [delete_keys].
  { split; [auto|done]. }
  destruct (Uint64 k) as [i|e|w] eqn:Ek; [|done..]. rewrite Ok_bind.
  destruct (N.leb_spec i max) as [Hle|Hgt].
  - destruct (Delete_contents bk k) as (bk1 & -> & Hc). cbn [wrap_err]. rewrite Ok_bind.
    specialize (IH bk1). destruct (delete_keys max keys bk1) as [bk'| |]; [|done..].
    destruct IH as [Hk _]. rewrite Hc in Hk. split.
    + intros k'. destruct (Hk k') as [->|?]; [|by right].
      destruct (decide (k = k')) as [<-|Hne]; [right|left; by apply lookup_delete_ne].
      split; [apply lookup_delete_eq|eauto].
    + intros k' i' [= <-] _ _. destruct (Hk k) as [->|[? _]]; [apply lookup_delete_eq|done].
  - split; [by left|]. intros k' i' [= <-] Ek' Hle. rewrite Ek in Ek'. injection Ek' as <-. lia.
Qed.

(** A first key beyond [max], or none, ends the loop at once. *)
Lemma delete_keys_stops max keys (bk : bucket) :
  (forall k, head keys = Some k -> exists i, Uint64 k = Ok i /\ (max < i)%N) ->
  delete_keys max keys bk = Ok bk.
Proof.
  destruct keys as [|k keys]; [done|]. intros H. destruct (H k eq_refl) as (i & Ek & Hi).
  cbn [delete_keys]. rewrite Ek, Ok_bind. by destruct (N.leb_spec i max); [lia|].
Qed.

Lemma delete_keys_Ok max keys (bk : bucket) :
  (forall k, k ∈ keys -> exists i, Uint64 k = Ok i) ->
  exists bk', delete_keys max keys bk = Ok bk'.
Proof.
  revert bk. induction keys as [|k keys IH]; intros bk Hk; [by eexists|]. cbn [delete_keys].
  destruct (Hk k) as [i ->]; [set_solver|]. rewrite Ok_bind.
  destruct (i <=? max)%N; [|by eexists].
  destruct (Delete_contents bk k) as (bk1 & -> & _). cbn [wrap_err]. rewrite Ok_bind.
  apply IH. set_solver.
Qed.

(** [DeleteRange] is the loop on the bucket of logs, committed or rolled
    back. *)
Lemma DeleteRange_run cursor_keys io min max b :
  ready raft_buckets b ->
  exists bk, contents bk = logs_of b
  /\ let '(r, b') := DeleteRange cursor_keys io min max b in
     match delete_keys max (cursor_keys bk (PutUint64 min)) bk, io with
     | Ok bk', None => r = Ok tt /\ ready raft_buckets b' /\ logs_of b' = contents bk'
     | _, _ => r <> Ok tt /\ b' = b
     end.
Proof.
  intros Hb. pose proof Hb as [Ho Hbs]. destruct (logs_bucket b Hb) as (bk & Hbk & Hc).
  exists bk. split; [done|]. unfold DeleteRange, Update. rewrite Ho, Hbk, Ok_bind.
  destruct (delete_keys _ _ bk) as [bk'| |]; [|done..]. rewrite Ok_bind.
  destruct io as [e|]; [done|]. split; [done|]. split.
  - split; [done|]. eapply List.Forall_impl; [|exact Hbs]. intros n Hn. simpl.
    rewrite lookup_insert_is_Some. destruct (decide (logsBucket = n)); auto.
  - unfold logs_of, bucket_map. simpl. by rewrite lookup_insert_eq.
Qed.

(** [GetLog] looks at one key of the bucket of logs. *)
Lemma GetLog_logs b b' i into :
  ready raft_buckets b -> ready raft_buckets b' ->
  logs_of b' !! PutUint64 i = logs_of b !! PutUint64 i -> GetLog b' i into = GetLog b i into.
Proof.
  intros Hb Hb' E. unfold GetLog. rewrite (View_ready _ _ _ Hb), (View_ready _ _ _ Hb').
  destruct (logs_bucket b Hb) as (bk & -> & Hc), (logs_bucket b' Hb') as (bk' & -> & Hc').
  by rewrite !Ok_bind, !Get_contents, Hc, Hc', E.
Qed.

Lemma GetLog_missing b i into :
  ready raft_buckets b -> logs_of b !! PutUint64 i = None ->
  GetLog b i into = (Err ErrLogNotFound, into).
Proof.
  intros Hb E. unfold GetLog. rewrite (View_ready _ _ _ Hb).
  destruct (logs_bucket b Hb) as (bk & -> & Hc). by rewrite Ok_bind, Get_contents, Hc, E.
Qed.

(** The first key a cursor returns at [Seek]. *)
Lemma seek_head b f bk min k :
  log_rep (logs_of b) f -> contents bk = logs_of b -> (min < u64_modulus)%N ->
  head (seek bk (PutUint64 min)).*1 = Some k ->
  exists i, k = PutUint64 i /\ Uint64 k = Ok i /\ is_Some (f !! i) /\ (min <= i)%N.
Proof.
  intros Hr Hc Hmin. destruct (seek_indices b f bk min Hr Hc Hmin) as (idx & -> & _ & Hlt & Hidx).
  destruct idx as [|i idx]; [done|]. intros [= <-]. exists i.
  destruct (Hidx i) as [Hi _]. apply Forall_cons in Hlt as [Hlt _].
  split; [done|]. split; [by apply Uint64_key|]. apply Hi. set_solver.
Qed.
(** It is that of the first log from [min] on. *)
Lemma seek_first b f bk min i :
  log_rep (logs_of b) f -> contents bk = logs_of b -> (min < u64_modulus)%N ->
  is_Some (f !! i) -> (min <= i)%N -> (forall j, is_Some (f !! j) -> (min <= j)%N -> (i <= j)%N) ->
  head (seek bk (PutUint64 min)).*1 = Some (PutUint64 i).
Proof.
  intros Hr Hc Hmin Hi Hge Hleast.
  destruct (seek_indices b f bk min Hr Hc Hmin) as (idx & -> & Hs & _ & Hidx).
  assert (i ∈ idx) as Hin by by apply Hidx.
  destruct idx as [|j idx]; [set_solver|]. simpl. do 2 f_equal.
  destruct (Hidx j) as [[Hj Hjge] _]; [set_solver|]. specialize (Hleast j Hj Hjge).
  apply StronglySorted_inv in Hs as [_ Hall]. rewrite Forall_forall in Hall.
  apply elem_of_cons in Hin as [->|Hin]; [done|]. specialize (Hall i Hin). lia.
Qed.

(** The deletion of a range on a cursor of which only the first key is known. *)
Lemma delete_range_keys cursor_keys min max b f bk bk' :
  (forall bk k, head (cursor_keys bk k) = head (seek bk k).*1) ->
  log_rep (logs_of b) f -> contents bk = logs_of b -> (min < u64_modulus)%N ->
  delete_keys max (cursor_keys bk (PutUint64 min)) bk = Ok bk' ->
  (forall i, (i < u64_modulus)%N -> contents bk' !! PutUint64 i = logs_of b !! PutUint64 i
     \/ contents bk' !! PutUint64 i = None /\ (i <= max)%N)
  /\ (forall i, is_Some (f !! i) -> (min <= i <= max)%N ->
       (forall j, is_Some (f !! j) -> (min <= j)%N -> (i <= j)%N) ->
       contents bk' !! PutUint64 i = None)
  /\ ((forall i, is_Some (f !! i) -> ~ (min <= i <= max)%N) -> bk' = bk).
Proof.
  intros Hcur Hr Hc Hmin E.
  pose proof (delete_keys_any max (cursor_keys bk (PutUint64 min)) bk) as Hany.
  rewrite E in Hany. destruct Hany as [Hk Hfirst]. rewrite Hc in Hk. split_and!.
  - intros i Hi. destruct (Hk (PutUint64 i)) as [?|(Hn & j & Hj & Hle)]; [by left|right].
    split; [done|]. rewrite Uint64_key in Hj by done. by injection Hj as <-.
  - intros i Hi [Hge Hle] Hleast. apply (Hfirst _ i).
    + rewrite Hcur. by eapply seek_first.
    + by eapply Uint64_key, log_index_lt.
    + done.
  - intros Hnone. rewrite delete_keys_stops in E; [by injection E as <-|].
    intros k Hhd. rewrite Hcur in Hhd.
    destruct (seek_head b f bk min k Hr Hc Hmin Hhd) as (i & _ & Hu & Hi & Hge).
    exists i. split; [done|]. specialize (Hnone i Hi). lia.
Qed.
End ops.

(** ** Properties *)

(** C28: the log encoding round-trips.  Decoding what [encodeLog] wrote
    gives back the index, the term, the type and the data of every log whose
    fields have Go's widths, and leaves the two fields the encoding drops,
    Extensions and AppendedAt, as the caller's struct had them.  On
    arbitrary bytes [decodeLog] returns nil or an error and never panics. *)
Theorem encodeLog_decodeLog (l into : Log) :
  log_ok l ->
  (exists data, encodeLog l = Ok data /\ decodeLog data into = (Ok tt, stored_log l into))
  /\ forall data, is_Panic (decodeLog data into).1 = false.
Proof.
  intros Hl. split; [|intros data; apply decodeLog_no_panic].
  exists (log_text l). split; [done|]. by apply decodeLog_log_text.
Qed.

Definition example_log (i : N) (d : string) : Log :=
  {| l_Index := i; l_Term := 3; l_Type := 0; l_Data := d; l_Extensions := "";
     l_AppendedAt := zero_time |}.

Theorem encodeLog_decodeLog_witness :
  (exists data, encodeLog (example_log 258 "hello") = Ok data
     /\ decodeLog data (example_log 0 "")
        = (Ok tt, stored_log (example_log 258 "hello") (example_log 0 "")))
  /\ forall data, is_Panic (decodeLog data (example_log 0 "")).1 = false.
Proof. apply (encodeLog_decodeLog (example_log 258 "hello") (example_log 0 "")). by_decide. Defined.

(** C26: [BoltStore] implements Raft's log store.  On a store that holds the
    map [f] of logs, [StoreLogs] inserts its logs in order, all of them or,
    when the commit fails, none; afterwards [GetLog] returns the log last
    stored under an index or ErrLogNotFound, [FirstIndex] is the least index
    and [LastIndex] the greatest, and both are 0 when no log is stored. *)
Theorem StoreLogs_refines {B : Bolt} {BL : BoltLaws B} (io : option error) (logs : list Log)
    (b : BoltStore B) (f : gmap N Log) :
  ready raft_buckets b -> log_rep (logs_of b) f -> Forall log_ok logs ->
  let '(r, b') := StoreLogs io logs b in
  match io with
  | Some e => r = Err e /\ b' = b
  | None => r = Ok tt
      /\ let f' := insert_logs logs f in
         (forall i into, (i < u64_modulus)%N ->
            GetLog b' i into = match f' !! i with
                               | Some l => (Ok tt, stored_log l into)
                               | None => (Err ErrLogNotFound, into)
                               end)
         /\ (exists i, FirstIndex b' = Ok i /\ (f' = ∅ /\ i = 0%N
                \/ is_Some (f' !! i) /\ forall j, is_Some (f' !! j) -> (i <= j)%N))
         /\ (exists i, LastIndex b' = Ok i /\ (f' = ∅ /\ i = 0%N
                \/ is_Some (f' !! i) /\ forall j, is_Some (f' !! j) -> (j <= i)%N))
  end.
Proof.
  intros Hb Hr Hok. pose proof (StoreLogs_rep io logs b f Hb Hr Hok) as H.
  destruct (StoreLogs io logs b) as [r b']. destruct H as [Hb' H].
  destruct io as [e|]; [done|]. destruct H as [-> Hr']. split; [done|]. cbv zeta.
  split_and!; [intros; by apply GetLog_rep|by apply FirstIndex_rep|by apply LastIndex_rep].
Qed.

(** C27: what a deletion of an inclusive range of indices does, whatever the
    cursor returns once the bucket under it has changed.  bbolt documents
    only the first key, that of [Seek].  The store is open and holds a map of
    logs.  When the call does not succeed, the
    store is as before; that is so when the commit fails.  When it succeeds,
    a log above the range is as before, every other log is as before or gone,
    the first log of the range is gone, and nothing at all is gone if the
    range holds no log.  It succeeds when the commit does and the cursor
    returns only keys the bucket had; and if the cursor goes on with the keys
    that were there at [Seek], every log of the range is gone. *)
Theorem DeleteRange_safe {B : Bolt} {BL : BoltLaws B}
    (cursor_keys : bucket -> string -> list string) (io : option error) (min max : N)
    (b : BoltStore B) (f : gmap N Log) :
  (forall bk k, head (cursor_keys bk k) = head (seek bk k).*1) ->
  ready raft_buckets b -> log_rep (logs_of b) f -> (min < u64_modulus)%N ->
  let '(r, b') := DeleteRange cursor_keys io min max b in
  (r <> Ok tt -> b' = b) /\ (is_Some io -> r <> Ok tt)
  /\ (forall i into, (max < i < u64_modulus)%N -> GetLog b' i into = GetLog b i into)
  /\ (forall i into, (i < u64_modulus)%N ->
        GetLog b' i into = GetLog b i into \/ GetLog b' i into = (Err ErrLogNotFound, into))
  /\ (r = Ok tt -> forall i into, is_Some (f !! i) -> (min <= i <= max)%N ->
        (forall j, is_Some (f !! j) -> (min <= j)%N -> (i <= j)%N) ->
        GetLog b' i into = (Err ErrLogNotFound, into))
  /\ ((forall i, is_Some (f !! i) -> ~ (min <= i <= max)%N) ->
        forall i into, GetLog b' i into = GetLog b i into)
  /\ ((forall bk k key, key ∈ cursor_keys bk k -> is_Some (contents bk !! key)) -> io = None ->
        r = Ok tt)
  /\ ((forall bk k, cursor_keys bk k = (seek bk k).*1) -> r = Ok tt ->
        forall i into, (min <= i <= max)%N -> (i < u64_modulus)%N ->
        GetLog b' i into = (Err ErrLogNotFound, into)).
Proof.
  intros Hcur Hb Hr Hmin.
  pose proof (DeleteRange_rep cursor_keys io min max b f) as Hexact.
  destruct (DeleteRange_run cursor_keys io min max b Hb) as (bk & Hc & H).
  destruct (DeleteRange _ io min max b) as [r b'].
  destruct (delete_keys _ _ bk) as [bk'|e|w] eqn:E; [destruct io as [e|]|..].
  2: { destruct H as (-> & Hb' & Hl).
    destruct (delete_range_keys cursor_keys min max b f bk bk' Hcur Hr Hc Hmin E)
      as (Hk & Hfirst & Hnone). rewrite <-Hl in Hk, Hfirst. split_and!; try done.
    - intros i into Hi. apply GetLog_logs; [done..|]. destruct (Hk i) as [|[_ ?]]; [lia|done|lia].
    - intros i into Hi. destruct (Hk i Hi) as [?|[? _]]; [left; by apply GetLog_logs|right].
      by apply GetLog_missing.
    - intros _ i into Hi Hin Hleast. by apply GetLog_missing, Hfirst.
    - intros Hn i into. apply GetLog_logs; [done..|]. by rewrite Hl, (Hnone Hn), Hc.
    - intros Hall _ i into Hin Hi. destruct (Hexact Hall Hb Hr Hmin) as (_ & _ & Hr').
      rewrite (GetLog_rep b' _ i into Hb' Hr' Hi), map_lookup_filter_None_2; [done|].
      right. intros l' _. simpl. naive_solver. }
  all: destruct H as [Hne ->]; split_and!; try done; try (by intros []); try (by left).
  all: intros Hin ->; destruct (delete_keys_Ok max (cursor_keys bk (PutUint64 min)) bk)
    as [? E']; [|congruence]; intros k Hk%Hin; rewrite Hc in Hk; destruct Hk as [v Hk];
    destruct (log_keys _ _ Hr k v Hk) as (i & -> & Hi); exists i;
    by eapply Uint64_key, log_index_lt.
Qed.

(** A store with three logs, for the witnesses. *)
Definition three_logs : list Log :=
  [example_log 1 "a"; example_log 2 "b"; example_log 3 "c"].

Definition empty_store : BoltStore map_bolt :=
  {| db_open := true; db_buckets := {[ logsBucket := ∅; stableBucket := ∅ ]} |}.

Lemma empty_store_ready : ready raft_buckets empty_store.
Proof. split; by_decide. Qed.

Lemma empty_store_rep : log_rep (logs_of empty_store) ∅.
Proof. exact log_rep_empty. Qed.

Definition three_store : BoltStore map_bolt := (StoreLogs None three_logs empty_store).2.

Lemma three_store_rep :
  ready raft_buckets three_store
  /\ log_rep (logs_of three_store) (insert_logs three_logs ∅).
Proof.
  pose proof (StoreLogs_rep None three_logs empty_store ∅ empty_store_ready empty_store_rep
    ltac:(by_decide)) as H. unfold three_store.
  destruct (StoreLogs None three_logs empty_store) as [r b]. destruct H as (Hb & _ & Hr). done.
Qed.

Theorem StoreLogs_refines_witness :
  let '(r, b') := StoreLogs None three_logs empty_store in
  r = Ok tt
  /\ let f' := insert_logs three_logs ∅ in
     (forall i into, (i < u64_modulus)%N ->
        GetLog b' i into = match f' !! i with
                           | Some l => (Ok tt, stored_log l into)
                           | None => (Err ErrLogNotFound, into)
                           end)
     /\ (exists i, FirstIndex b' = Ok i /\ (f' = ∅ /\ i = 0%N
            \/ is_Some (f' !! i) /\ forall j, is_Some (f' !! j) -> (i <= j)%N))
     /\ (exists i, LastIndex b' = Ok i /\ (f' = ∅ /\ i = 0%N
            \/ is_Some (f' !! i) /\ forall j, is_Some (f' !! j) -> (j <= i)%N)).
Proof.
  apply (StoreLogs_refines (B := map_bolt) None three_logs empty_store ∅).
  - apply empty_store_ready.
  - apply empty_store_rep.
  - by_decide.
Defined.

(** A cursor that misses every second key once keys are deleted: the first log
    of the range is gone, the second is not. *)
Fixpoint every_second {A} (l : list A) : list A :=
  match l with
  | x :: _ :: l' => x :: every_second l'
  | _ => l
  end.

Definition skipping_cursor (bk : gmap string string) (k : string) : list string :=
  every_second (seek (B := map_bolt) bk k).*1.

Lemma skipping_cursor_head bk k :
  head (skipping_cursor bk k) = head (seek (B := map_bolt) bk k).*1.
Proof. unfold skipping_cursor. by destruct (seek _ k).*1 as [|? []]. Qed.

Example DeleteRange_skips :
  let '(r, b') := DeleteRange (B := map_bolt) skipping_cursor None 1 2 three_store in
  r = Ok tt /\ (GetLog b' 1 (example_log 0 "")).1 = Err ErrLogNotFound
  /\ (GetLog b' 2 (example_log 0 "")).1 = Ok tt.
Proof. vm_compute. done. Qed.

Theorem DeleteRange_safe_witness :
  let f := insert_logs three_logs ∅ in
  let '(r, b') := DeleteRange (B := map_bolt) skipping_cursor None 1 2 three_store in
  (r <> Ok tt -> b' = three_store) /\ (is_Some (@None error) -> r <> Ok tt)
  /\ (forall i into, (2 < i < u64_modulus)%N -> GetLog b' i into = GetLog three_store i into)
  /\ (forall i into, (i < u64_modulus)%N ->
        GetLog b' i into = GetLog three_store i into
        \/ GetLog b' i into = (Err ErrLogNotFound, into))
  /\ (r = Ok tt -> forall i into, is_Some (f !! i) -> (1 <= i <= 2)%N ->
        (forall j, is_Some (f !! j) -> (1 <= j)%N -> (i <= j)%N) ->
        GetLog b' i into = (Err ErrLogNotFound, into))
  /\ ((forall i, is_Some (f !! i) -> ~ (1 <= i <= 2)%N) ->
        forall i into, GetLog b' i into = GetLog three_store i into)
  /\ ((forall bk k key, key ∈ skipping_cursor bk k -> is_Some (contents (Bolt := map_bolt) bk !! key))
        -> @None error = None -> r = Ok tt)
  /\ ((forall bk k, skipping_cursor bk k = (seek (B := map_bolt) bk k).*1) -> r = Ok tt ->
        forall i into, (1 <= i <= 2)%N -> (i < u64_modulus)%N ->
        GetLog b' i into = (Err ErrLogNotFound, into)).
Proof.
  apply (DeleteRange_safe (B := map_bolt) skipping_cursor None 1 2 three_store).
  - exact skipping_cursor_head.
  - apply three_store_rep.
  - apply three_store_rep.
  - reflexivity.
Defined.
