(* ===== verification/AnyData.v ===== *)
(** * map[string]interface{} through JSON

    The payload of a Raft log entry is a Go map of arbitrary values.
    [json.Marshal] writes its keys in ascending order; [json.Unmarshal] reads
    every number as a float64, so that an integer above [2^53] comes back
    rounded to the nearest float, ties to even.  A float64 that holds an
    integer is that integer, [JNum z]; any other is its exact decimal value,
    [JDec m e]. *)

From Stdlib Require Import ZArith Lia.
From S2P Require Import Prelude Bytes Json JsonFacts Codec.

(** ** Numbers as float64 *)

Section float.
Local Open Scope Z_scope.

(** The float64 nearest to an integer: 53 significant bits, ties to even. *)
Definition float64_of_Z (z : Z) : Z :=
  let a := Z.abs z in
  if a <? 2 ^ 53 then z else
  let ulp := 2 ^ (Z.log2 a - 52) in
  let q := a / ulp in
  let r := a mod ulp in
  let q' := if (ulp <? 2 * r) || ((ulp =? 2 * r) && Z.odd q) then q + 1 else q in
  Z.sgn z * (q' * ulp).

Lemma float64_of_Z_small z : - 2 ^ 53 <= z <= 2 ^ 53 -> float64_of_Z z = z.
Proof.
  intros Hz. unfold float64_of_Z. destruct (Z.ltb_spec (Z.abs z) (2 ^ 53)) as [|Hge]; [done|].
  assert (Z.abs z = 2 ^ 53) as Ha by lia.
  rewrite Ha. change (Z.log2 (2 ^ 53)) with 53.
  destruct (Z.abs_eq_or_opp z) as [E|E]; rewrite E in Ha.
  - subst z. reflexivity.
  - replace z with (- 2 ^ 53) by lia. reflexivity.
Qed.

(** The largest finite float64 has fewer than 1024 bits. *)
Definition float64_range (z : Z) : bool := Z.abs (float64_of_Z z) <? 2 ^ 1024.

(** The float64 nearest to the fraction [num / den] is [q * 2 ^ k] of the
    result [(q, k)]: 53 significant bits, no exponent below that of the
    subnormal numbers, ties to even. *)
Definition binary64 (num den : Z) : Z * Z :=
  let l := Z.log2 num - Z.log2 den in
  let l := if num * 2 ^ Z.max 0 (- l) <? den * 2 ^ Z.max 0 l then l - 1 else l in
  let k := Z.max (l - 52) (-1074) in
  let n := num * 2 ^ Z.max 0 (- k) in
  let d := den * 2 ^ Z.max 0 k in
  let q := n / d in
  let r := n mod d in
  (if (d <? 2 * r) || ((d =? 2 * r) && Z.odd q) then q + 1 else q, k).

(** [strconv.ParseFloat] of a literal of value [m * 10 ^ e]. *)
Definition float64_of_decimal (m e : Z) : json :=
  let '(q, k) := binary64 (Z.abs m * 10 ^ Z.max 0 e) (10 ^ Z.max 0 (- e)) in
  let q := Z.sgn m * q in
  if 0 <=? k then JNum (q * 2 ^ k)
  else if q mod 2 ^ (- k) =? 0 then JNum (q / 2 ^ (- k))
  else JDec (q * 5 ^ (- k)) k.

Definition decimal_range (m e : Z) : bool :=
  match float64_of_decimal m e with
  | JNum z => Z.abs z <? 2 ^ 1024
  | _ => true
  end.

(** The value without its fraction, as a conversion to an integer type takes
    it. *)
Definition truncated (m e : Z) : Z := Z.quot (m * 10 ^ Z.max 0 e) (10 ^ Z.max 0 (- e)).
End float.

(** A JSON value as [interface{}]: every number a float64. *)
Fixpoint float_values (j : json) : json :=
  match j with
  | JNum z => JNum (float64_of_Z z)
  | JDec m e => float64_of_decimal m e
  | JArr l => JArr (map float_values l)
  | JObj l => JObj (map (fun kv => (kv.1, float_values kv.2)) l)
  | _ => j
  end.

Fixpoint in_float_range (j : json) : bool :=
  match j with
  | JNum z => float64_range z
  | JDec m e => decimal_range m e
  | JArr l => forallb in_float_range l
  | JObj l => forallb (fun kv => in_float_range kv.2) l
  | _ => true
  end.

(** ** Maps of any value *)

(** The pairs of a map in ascending order of the keys. *)
Definition data_pairs {V} (m : gmap string V) : list (string * V) :=
  omap (fun k => pair k <$> m !! k) (sort_strings (elements (dom m))).

(** A JSON object read into a map: the last of several members wins. *)
Definition map_of_pairs {V} (l : list (string * V)) : gmap string V :=
  foldl (fun m kv => <[kv.1 := kv.2]> m) ∅ l.

Definition json_of_data (m : gmap string json) : json := JObj (data_pairs m).

Definition store_data (m : gmap string json) (v : json) : result (gmap string json) :=
  match v with
  | JObj l =>
      if in_float_range (JObj l) then Ok ((float_values <$> map_of_pairs l) ∪ m)
      else Err (External "cannot unmarshal number into Go value of type float64")
  | JNull => Ok ∅
  | _ => Err (External "cannot unmarshal into Go value of type map[string]interface {}")
  end.

Definition data_of_json : list json -> result (gmap string json) := store_all store_data ∅.

Lemma data_of_json_one l :
  data_of_json [JObj l]
  = if in_float_range (JObj l) then Ok (float_values <$> map_of_pairs l)
    else Err (External "cannot unmarshal number into Go value of type float64").
Proof.
  unfold data_of_json. rewrite store_all_one. cbn [store_data].
  by rewrite (right_id_L ∅ (∪)).
Qed.

Section pairs.
Context {V : Type}.
Implicit Types m : gmap string V.

Lemma elem_of_data_pairs k v m : (k, v) ∈ data_pairs m <-> m !! k = Some v.
Proof.
  unfold data_pairs. rewrite list_elem_of_omap. split.
  - intros (k' & _ & E). destruct (m !! k') eqn:Hk; simplify_eq/=. done.
  - intros Hk. exists k. rewrite Hk. split; [|done].
    rewrite elem_of_sort_strings, elem_of_elements, elem_of_dom. eauto.
Qed.

Lemma data_pairs_fst m : (data_pairs m).*1 = sort_strings (elements (dom m)).
Proof.
  unfold data_pairs. assert (forall l, (forall k, k ∈ l -> is_Some (m !! k)) ->
    (omap (fun k => pair k <$> m !! k) l).*1 = l) as H.
  { induction l as [|k l IH]; intros Hl; [done|].
    destruct (Hl k ltac:(set_solver)) as [v Hv]. cbn [omap list_omap]. rewrite Hv. simpl.
    f_equal. apply IH. set_solver. }
  apply H. intros k. by rewrite elem_of_sort_strings, elem_of_elements, elem_of_dom.
Qed.

Lemma NoDup_data_pairs m : NoDup (data_pairs m).*1.
Proof. rewrite data_pairs_fst, sort_strings_perm. apply NoDup_elements. Qed.

Lemma map_of_pairs_snoc (l : list (string * V)) kv :
  map_of_pairs (l ++ [kv]) = <[kv.1 := kv.2]> (map_of_pairs l).
Proof. unfold map_of_pairs. by rewrite foldl_app. Qed.

Lemma map_of_pairs_lookup (l : list (string * V)) k v :
  NoDup l.*1 -> map_of_pairs l !! k = Some v <-> (k, v) ∈ l.
Proof.
  induction l as [|[k' v'] l IH] using rev_ind; intros Hnd.
  { unfold map_of_pairs. simpl. rewrite lookup_empty. set_solver. }
  rewrite fmap_app in Hnd. apply NoDup_app in Hnd as (Hnd & Hdis & _). simpl in Hdis.
  rewrite map_of_pairs_snoc, lookup_insert_Some, elem_of_app, list_elem_of_singleton, IH by done.
  simpl. split.
  - intros [[<- <-]|[_ Hin]]; auto.
  - intros [Hin|[= -> ->]]; [right|by left]. split; [|done]. intros <-.
    apply (Hdis k'); [by apply (list_elem_of_fmap_2 fst _ (k', v))|set_solver].
Qed.

Lemma map_of_data_pairs m : map_of_pairs (data_pairs m) = m.
Proof.
  apply map_eq. intros k. apply option_eq. intros v.
  rewrite map_of_pairs_lookup by apply NoDup_data_pairs. apply elem_of_data_pairs.
Qed.
End pairs.

(** Keys and values of valid UTF-8, numbers that fit, values nested so that
    the log entry around them is not too deep. *)
Definition data_valid (m : gmap string json) : Prop :=
  map_Forall (fun k j => valid_utf8 k = true /\ json_valid j = true /\ in_float_range j = true
                         /\ (json_depth j <= max_depth - 2)%N) m.

#[export] Instance data_valid_dec m : Decision (data_valid m).
Proof. unfold data_valid. apply _. Defined.

Lemma json_of_data_valid m : data_valid m -> json_valid (json_of_data m) = true.
Proof.
  intros Hm. simpl. apply forallb_forall. intros [k j] Hin%list_elem_of_In.
  apply elem_of_data_pairs, Hm in Hin as (Hk & Hj & _). simpl. by rewrite Hk, Hj.
Qed.

Lemma json_of_data_depth m :
  data_valid m -> (json_depth (json_of_data m) <= max_depth - 1)%N.
Proof.
  intros Hm. change (max_depth - 1)%N with (1 + (max_depth - 2))%N. apply depth_obj_le.
  apply Forall_forall. intros [k j] Hin. by apply elem_of_data_pairs, Hm in Hin as (_ & _ & _ & ?).
Qed.

Lemma data_of_json_of_data m :
  data_valid m -> data_of_json [json_of_data m] = Ok (float_values <$> m).
Proof.
  intros Hm. unfold json_of_data. rewrite data_of_json_one.
  assert (in_float_range (JObj (data_pairs m)) = true) as ->.
  { simpl. apply forallb_forall. intros [k j] Hin%list_elem_of_In.
    by apply elem_of_data_pairs, Hm in Hin as (_ & _ & ? & _). }
  by rewrite map_of_data_pairs.
Qed.
