(* ===== verification/Fsm.v ===== *)
(** * internal/consensus/types.go and fsm.go: the replicated state machine

    [LogEntry] is what a Raft log carries; [Apply] decodes one and saves a
    hash entry or a checkpoint; [Persist] writes the hash entries of the
    live storage as a snapshot, [Restore] saves those of a snapshot.  A
    failed type assertion [x.(T)] is a panic.  [io] is the outcome of the
    commits of the storage. *)

From Stdlib Require Import ZArith Lia.
From S2P Require Import Prelude Bytes Json JsonFacts Codec Bolt Keys Storage BoltStore AnyData.

Definition LogEntryHashChain : string := "hash_chain".
Definition LogEntryCheckpoint : string := "checkpoint".

Record LogEntry := {
  le_Type : string;
  le_TableName : string;
  le_Data : gmap string json;
  le_Timestamp : Time
}.

Local Open Scope witnz_scope.

#[export] Instance LogEntry_codec : JsonCodec LogEntry := {|
  to_json e := Ok (JObj [
    ("type", JStr (le_Type e)); ("table_name", JStr (le_TableName e));
    ("data", json_of_data (le_Data e)); ("timestamp", JStr (le_Timestamp e))]);
  of_json j :=
    let! l := members j in
    let! ty := string_of_json (field "type" l) in
    let! t := string_of_json (field "table_name" l) in
    let! d := data_of_json (field "data" l) in
    let! ts := time_of_json (field "timestamp" l) in
    Ok {| le_Type := ty; le_TableName := t; le_Data := d; le_Timestamp := ts |}
|}.

(** [x.(string)], [x.(float64)] and their forms with [ok].  Of a float64 only
    the integer part is kept: each one asserted is converted to an integer
    type at once, which discards the fraction. *)
Definition as_string (o : option json) : option string :=
  match o with Some (JStr s) => Some s | _ => None end.

Definition as_float (o : option json) : option Z :=
  match o with
  | Some (JNum z) => Some z
  | Some (JDec m e) => Some (truncated m e)
  | _ => None
  end.

Definition as_map (o : option json) : option (gmap string json) :=
  match o with Some (JObj l) => Some (map_of_pairs l) | _ => None end.

Definition assert_type {A} (o : option A) : result A :=
  match o with Some a => Ok a | None => Panic "interface conversion" end.

(** A conversion of a float64 that does not fit the integer type is
    implementation-defined. *)
Class FloatConversion := {
  uint64_unfit : Z -> N;
  int_unfit : Z -> Z
}.

Definition uint64_of_float `{FloatConversion} (z : Z) : N :=
  if decide (0 <= z < 2 ^ 64)%Z then Z.to_N z else uint64_unfit z.

Definition int_of_float `{FloatConversion} (z : Z) : Z :=
  if decide (- 2 ^ 63 <= z < 2 ^ 63)%Z then z else int_unfit z.

(** [make(map[string]string)] filled with the values that are strings. *)
Definition string_values (m : gmap string json) : gmap string string :=
  omap (fun j => as_string (Some j)) m.

Section fsm.
Context `{FloatConversion} `{B : Bolt}.

Definition hash_entry_of (entry : LogEntry) : result HashEntry :=
  let dataHash := default "" (as_string (le_Data entry !! "data_hash")) in
  let! seq := assert_type (as_float (le_Data entry !! "sequence_num")) in
  let! op := assert_type (as_string (le_Data entry !! "operation_type")) in
  let! id := assert_type (as_string (le_Data entry !! "record_id")) in
  Ok {| he_TableName := le_TableName entry; he_SequenceNum := uint64_of_float seq;
        he_DataHash := dataHash; he_Timestamp := le_Timestamp entry;
        he_OperationType := op; he_RecordID := id |}.

Definition applyHashChain (io : option error) (entry : LogEntry) (s : Storage B)
    : result unit * Storage B :=
  match hash_entry_of entry with
  | Ok hashEntry => SaveHashEntry io hashEntry s
  | Err e => (Err e, s)
  | Panic w => (Panic w, s)
  end.

Definition checkpoint_of (entry : LogEntry) : result MerkleCheckpoint :=
  let! seq := assert_type (as_float (le_Data entry !! "sequence_num")) in
  let! root := assert_type (as_string (le_Data entry !! "merkle_root")) in
  let! count := assert_type (as_float (le_Data entry !! "record_count")) in
  let! alg := assert_type (as_string (le_Data entry !! "hash_algorithm")) in
  Ok {| mc_TableName := le_TableName entry; mc_SequenceNum := uint64_of_float seq;
        mc_MerkleRoot := root; mc_Timestamp := le_Timestamp entry;
        mc_RecordCount := int_of_float count; mc_HashAlgorithm := alg;
        mc_LeafMap := default ∅ (string_values <$> as_map (le_Data entry !! "leaf_map"));
        mc_InternalNodes :=
          default ∅ (string_values <$> as_map (le_Data entry !! "internal_nodes")) |}.

Definition applyCheckpoint (io : option error) (entry : LogEntry) (s : Storage B)
    : result unit * Storage B :=
  match checkpoint_of entry with
  | Ok checkpoint => SaveMerkleCheckpoint io checkpoint s
  | Err e => (Err e, s)
  | Panic w => (Panic w, s)
  end.

Definition Apply (io : option error) (log : Log) (s : Storage B) : result unit * Storage B :=
  match Unmarshal (A := LogEntry) (l_Data log) with
  | Ok entry =>
      if decide (le_Type entry = LogEntryHashChain) then applyHashChain io entry s
      else if decide (le_Type entry = LogEntryCheckpoint) then applyCheckpoint io entry s
      else (Err (Errorf ("unknown log entry type: " +:+ le_Type entry)), s)
  | Err e => (Err (Wrap "failed to unmarshal log entry" e), s)
  | Panic w => (Panic w, s)
  end.

(** ** Snapshots *)

(** [struct { HashEntries []storage.HashEntry `json:"hash_entries"` }] *)
Fixpoint entries_to_json (entries : list HashEntry) : result (list json) :=
  match entries with
  | [] => Ok []
  | e :: rest =>
      let! j := to_json e in
      let! js := entries_to_json rest in
      Ok (j :: js)
  end.

Fixpoint entries_of_json (js : list json) : result (list HashEntry) :=
  match js with
  | [] => Ok []
  | j :: rest =>
      let! e := of_json j in
      let! es := entries_of_json rest in
      Ok (e :: es)
  end.

(** The elements of a second array of that name would be stored into those
    of the first; the model has the last array alone. *)
Definition store_entries (es : list HashEntry) (v : json) : result (list HashEntry) :=
  match v with
  | JArr js => entries_of_json js
  | JNull => Ok []
  | _ => Err (External "cannot unmarshal into Go value of type []storage.HashEntry")
  end.

Definition snapshot_of_json (j : json) : result (list HashEntry) :=
  let! l := members j in store_all store_entries [] (field "hash_entries" l).

(** [encoder.Encode] ends the document with a newline. *)
Definition encode_snapshot (entries : list HashEntry) : result string :=
  let! js := entries_to_json entries in
  Ok (print (JObj [("hash_entries", JArr js)]) +:+ String (Ascii.ascii_of_nat 10) "").

(** [decoder.Decode] reads the first document of the stream. *)
Definition decode_snapshot (text : string) : result (list HashEntry) :=
  match parse_stream text with
  | Some (j, _) => snapshot_of_json j
  | None => Err (External "invalid JSON")
  end.

(** [Snapshot] keeps a pointer to the live storage: [Persist] reads the
    storage as it is when Raft calls it. *)
Definition Snapshot (s : Storage B) : Storage B := s.

(** What is written to the sink; [sink] and [close] are the outcomes of the
    sink's Write and Close. *)
Definition Persist (sink close : option error) (s : Storage B) : result string :=
  let! entries := wrap_err "failed to get hash entries for snapshot"
                    (GetAllHashEntriesAllTables s) in
  let! text := wrap_err "failed to encode snapshot"
                 match encode_snapshot entries, sink with
                 | Ok _, Some e => Err e
                 | r, _ => r
                 end in
  match close with
  | Some e => Err (Wrap "failed to close snapshot sink" e)
  | None => Ok text
  end.

(** [io i] is the outcome of the [i]-th commit. *)
Fixpoint restore_entries (io : nat -> option error) (i : nat) (entries : list HashEntry)
    (s : Storage B) : result unit * Storage B :=
  match entries with
  | [] => (Ok tt, s)
  | entry :: rest =>
      match SaveHashEntry (io i) entry s with
      | (Ok _, s') => restore_entries io (S i) rest s'
      | (Err e, s') => (Err (Wrap "failed to restore hash entry" e), s')
      | (Panic w, s') => (Panic w, s')
      end
  end.

Definition Restore (io : nat -> option error) (text : string) (s : Storage B)
    : result unit * Storage B :=
  match decode_snapshot text with
  | Ok entries => restore_entries io 0 entries s
  | Err e => (Err (Wrap "failed to decode snapshot" e), s)
  | Panic w => (Panic w, s)
  end.
End fsm.
