(* ===== verification/Node.v ===== *)
(** * internal/consensus/node.go and leadership_transfer.go

    hashicorp/raft is a library: [RaftLib] is the part of it the program
    calls, [RaftLaws] what its documentation promises of [Apply], and
    [list_raft] one implementation, for the witnesses.  The system calls of
    [Start] and what a polling loop sees over time are arguments.  Sleeping
    has no effect on the state and is left out; a loop returns how often it
    polled. *)

From Stdlib Require Import ZArith Lia.
From S2P Require Import Prelude Bytes Json JsonFacts Codec Bolt Keys Storage BoltStore AnyData Fsm.

Record NodeConfig := {
  nc_NodeID : string;
  nc_BindAddr : string;
  nc_DataDir : string;
  nc_Bootstrap : bool;
  nc_Peers : list string;
  nc_PeerAddrs : gmap string string;
  nc_JoinRetries : Z;
  nc_JoinRetryWait : Z
}.

(** [raft.Server] *)
Record Server := { sv_ID : string; sv_Address : string }.

#[export] Instance Server_eq_dec : EqDecision Server.
Proof. solve_decision. Defined.

Class RaftLib := {
  Raft : Type;
  (** [State() == raft.Leader] *)
  is_leader_state : Raft -> bool;
  (** [Leader()] and the address of [LeaderWithID()] *)
  leader_addr : Raft -> string;
  (** [Apply(data, timeout)] and the error of its future *)
  raft_apply : Raft -> string -> option error * Raft;
  (** [LeadershipTransfer()], [AddVoter], [RemoveServer], [Shutdown] *)
  leadership_transfer : Raft -> option error * Raft;
  add_voter : Raft -> string -> string -> option error * Raft;
  remove_server : Raft -> string -> option error * Raft;
  shutdown : Raft -> option error * Raft;
  raft_stats : Raft -> gmap string string;
  (** the data of the logs the cluster has committed, in order *)
  committed : Raft -> list string;
  (** the data this node submitted whose fate it does not know *)
  in_doubt : Raft -> list string
}.

(** "Apply is used to apply a command to the FSM in a highly consistent
    manner.  ... This must be run on the leader or it will fail."  When the
    future has an error, as on a lost leadership, the log is not known to be
    committed, but may be later. *)
Class RaftLaws (R : RaftLib) : Prop := {
  apply_leader : forall r data, is_leader_state r = false ->
    exists e, raft_apply r data = (Some e, r);
  apply_commits : forall r data r', raft_apply r data = (None, r') ->
    committed r' = committed r ++ [data] /\ in_doubt r' = in_doubt r;
  apply_doubts : forall r data e r', raft_apply r data = (Some e, r') ->
    committed r' = committed r
    /\ (in_doubt r' = in_doubt r \/ in_doubt r' = in_doubt r ++ [data])
}.

(** A cluster of one, whose log is a list. *)
Definition list_raft : RaftLib := {|
  Raft := bool * list string;
  is_leader_state r := r.1;
  leader_addr r := if r.1 : bool then "127.0.0.1:7000" else "";
  raft_apply r data :=
    if r.1 : bool then (None, (r.1, r.2 ++ [data])) else (Some (External "node is not the leader"), r);
  leadership_transfer r := (None, (false, r.2));
  add_voter r _ _ := (None, r);
  remove_server r _ := (None, r);
  shutdown r := (None, r);
  raft_stats r := ∅;
  committed r := r.2;
  in_doubt r := []
|}.

#[export] Instance list_raft_laws : RaftLaws list_raft.
Proof.
  split; intros [[] log] data; simpl; try naive_solver.
Qed.

Section node.
Context `{R : RaftLib}.

(** [n.storage] and [n.fsm] are the caller's; [node_raft] is nil before
    [Start]. *)
Record Node := { node_config : NodeConfig; node_raft : option Raft }.

Definition NewNode (cfg : NodeConfig) : result Node :=
  Ok {| node_config := cfg; node_raft := None |}.

Definition set_raft (n : Node) (r : Raft) : Node :=
  {| node_config := node_config n; node_raft := Some r |}.

(** ** waitForLeader

    [poll i] is what the [i]-th iteration sees: the leader's address and the
    servers of the configuration, or the error of its future. *)
Fixpoint wait_loop (NodeID : string) (poll : nat -> string * result (list Server))
    (i retries : nat) : bool * nat :=
  match retries with
  | O => (false, i)
  | S retries' =>
      let '(leader, configuration) := poll i in
      if decide (leader <> "") then
        match configuration with
        | Ok servers =>
            if decide (NodeID ∈ sv_ID <$> servers) then (true, S i)
            else wait_loop NodeID poll (S i) retries'
        | _ => wait_loop NodeID poll (S i) retries'
        end
      else wait_loop NodeID poll (S i) retries'
  end.

(** The configured number of retries, 30 when it is zero. *)
Definition join_retries (cfg : NodeConfig) : Z :=
  if decide (nc_JoinRetries cfg = 0)%Z then 30%Z else nc_JoinRetries cfg.

Definition waitForLeader (n : Node) (poll : nat -> string * result (list Server))
    : result unit * nat :=
  let retries := join_retries (node_config n) in
  match wait_loop (nc_NodeID (node_config n)) poll 0 (Z.to_nat retries) with
  | (true, polls) => (Ok tt, polls)
  | (false, polls) =>
      (Err (Errorf ("timeout waiting for leader after " +:+ pretty retries +:+ " retries")), polls)
  end.

(** ** Start *)

(** What the system calls and the library's constructors return. *)
Record StartEnv := {
  env_mkdir : result unit;
  env_log_store : result unit;
  env_stable_store : result unit;
  env_snapshot_store : result unit;
  env_resolve : result unit;
  env_transport : result string; (** [transport.LocalAddr()] *)
  env_new_raft : result Raft;
  env_has_state : result bool;
  env_bootstrap : Raft -> list Server -> option error * Raft;
  env_poll : nat -> string * result (list Server)
}.

Local Open Scope witnz_scope.

(** The servers of a new cluster: this node first, then the peers in the
    order of the range. *)
Definition bootstrap_servers `{RangeOrder} (cfg : NodeConfig) (localAddr : string) : list Server :=
  foldl (fun servers kv => servers ++ [{| sv_ID := kv.1; sv_Address := kv.2 |}])
    [{| sv_ID := nc_NodeID cfg; sv_Address := localAddr |}]
    (range_map 5 (nc_PeerAddrs cfg)).

(** The end of [Start], once [n.raft] is set. *)
Definition start_cluster `{RangeOrder} (env : StartEnv) (localAddr : string) (n : Node) (ra : Raft)
    : result unit * Node :=
  let n := set_raft n ra in
  if nc_Bootstrap (node_config n) then
    match wrap_err "failed to check existing state" (env_has_state env) with
    | Err e => (Err e, n)
    | Panic w => (Panic w, n)
    | Ok true => (Ok tt, n)
    | Ok false =>
        match env_bootstrap env ra (bootstrap_servers (node_config n) localAddr) with
        | (Some e, ra') => (Err (Wrap "failed to bootstrap cluster" e), set_raft n ra')
        | (None, ra') => (Ok tt, set_raft n ra')
        end
    end
  else if decide (0 < size (nc_PeerAddrs (node_config n))) then
    (wrap_err "failed to wait for leader" (waitForLeader n (env_poll env)).1, n)
  else (Ok tt, n).

Definition Start `{RangeOrder} (env : StartEnv) (n : Node) : result unit * Node :=
  let opened :=
    let! _ := wrap_err "failed to create raft directory" (env_mkdir env) in
    let! _ := wrap_err "failed to create log store" (env_log_store env) in
    let! _ := wrap_err "failed to create stable store" (env_stable_store env) in
    let! _ := wrap_err "failed to create snapshot store" (env_snapshot_store env) in
    let! _ := wrap_err "failed to resolve address" (env_resolve env) in
    let! localAddr := wrap_err "failed to create transport" (env_transport env) in
    let! ra := wrap_err "failed to create raft" (env_new_raft env) in
    Ok (localAddr, ra) in
  match opened with
  | Ok (localAddr, ra) => start_cluster env localAddr n ra
  | Err e => (Err e, n)
  | Panic w => (Panic w, n)
  end.

Definition Stop (n : Node) : result unit * Node :=
  match node_raft n with
  | None => (Ok tt, n)
  | Some r =>
      match shutdown r with
      | (Some e, r') => (Err (Wrap "failed to shutdown raft" e), set_raft n r')
      | (None, r') => (Ok tt, set_raft n r')
      end
  end.

(** ** Replication *)

(** A nil [n.raft] is dereferenced. *)
Definition ApplyLog (entry : LogEntry) (n : Node) : result unit * Node :=
  match node_raft n with
  | None => (Panic "nil pointer dereference", n)
  | Some r =>
      if negb (is_leader_state r) then (Err (Errorf "not the leader"), n)
      else match wrap_err "failed to marshal log entry" (Marshal entry) with
      | Ok data =>
          match raft_apply r data with
          | (Some e, r') => (Err (Wrap "failed to apply log" e), set_raft n r')
          | (None, r') => (Ok tt, set_raft n r')
          end
      | Err e => (Err e, n)
      | Panic w => (Panic w, n)
      end
  end.

(** A [map[string]string] as an [interface{}] that is marshalled. *)
Definition json_of_strings (m : gmap string string) : json := json_of_map m.

Definition checkpoint_data (checkpoint : MerkleCheckpoint) : gmap string json :=
  let data : gmap string json := {[
    "sequence_num" := uint64_json (mc_SequenceNum checkpoint);
    "merkle_root" := JStr (mc_MerkleRoot checkpoint);
    "record_count" := JNum (mc_RecordCount checkpoint);
    "hash_algorithm" := JStr (mc_HashAlgorithm checkpoint)]} in
  let data := if decide (0 < size (mc_LeafMap checkpoint))
    then <["leaf_map" := json_of_strings (mc_LeafMap checkpoint)]> data else data in
  if decide (0 < size (mc_InternalNodes checkpoint))
  then <["internal_nodes" := json_of_strings (mc_InternalNodes checkpoint)]> data else data.

Definition checkpoint_log_entry (checkpoint : MerkleCheckpoint) : LogEntry := {|
  le_Type := LogEntryCheckpoint; le_TableName := mc_TableName checkpoint;
  le_Data := checkpoint_data checkpoint; le_Timestamp := mc_Timestamp checkpoint |}.

Definition ApplyCheckpoint (checkpoint : MerkleCheckpoint) (n : Node) : result unit * Node :=
  match node_raft n with
  | None => (Panic "nil pointer dereference", n)
  | Some r =>
      if negb (is_leader_state r)
      then (Err (Errorf "not the leader, cannot replicate checkpoint"), n)
      else ApplyLog (checkpoint_log_entry checkpoint) n
  end.

(** ** Queries and membership *)

Definition IsLeader (n : Node) : bool :=
  match node_raft n with Some r => is_leader_state r | None => false end.

Definition Leader (n : Node) : string :=
  match node_raft n with Some r => leader_addr r | None => "" end.

Definition future_error (o : option error) : result unit :=
  match o with Some e => Err e | None => Ok tt end.

Definition AddPeer (id addr : string) (n : Node) : result unit * Node :=
  match node_raft n with
  | None => (Err (Errorf "raft not initialized"), n)
  | Some r => let '(e, r') := add_voter r id addr in (future_error e, set_raft n r')
  end.

Definition RemovePeer (id : string) (n : Node) : result unit * Node :=
  match node_raft n with
  | None => (Err (Errorf "raft not initialized"), n)
  | Some r => let '(e, r') := remove_server r id in (future_error e, set_raft n r')
  end.

Definition Stats (n : Node) : gmap string string :=
  match node_raft n with
  | None => {[ "state" := "not initialized" ]}
  | Some r => raft_stats r
  end.

Definition TransferLeadership (n : Node) : result unit * Node :=
  match node_raft n with
  | None => (Err (Errorf "raft not initialized"), n)
  | Some r =>
      if negb (is_leader_state r) then (Err (Errorf "not the leader, cannot transfer"), n)
      else let '(e, r') := leadership_transfer r in
           (wrap_err "leadership transfer failed" (future_error e), set_raft n r')
  end.

Definition SyncHashChainFromLeader (n : Node) : result unit :=
  if IsLeader n then Ok tt
  else if decide (Leader n = "") then Err (Errorf "no leader elected yet, cannot sync hash chain")
  else Ok tt.

(** ** LeadershipRotator

    The node is an argument.  The loop of [Start] takes the events its select
    receives, in order; with no more events it is still waiting, which is
    [None].  A failed transfer is only logged. *)
Record LeadershipRotator := {
  lr_interval : Z;
  (** whether [stopCh] is closed *)
  lr_stopped : bool
}.

Definition NewLeadershipRotator (interval : Z) : LeadershipRotator :=
  {| lr_interval := interval; lr_stopped := false |}.

Inductive rotator_event : Type :=
  | Tick
  | StopCh
  | CtxDone (err : error).

Definition transferLeadership (n : Node) : result unit * Node :=
  match node_raft n with
  | None => (Ok tt, n)
  | Some r =>
      if negb (is_leader_state r) then (Ok tt, n)
      else let '(e, r') := leadership_transfer r in
           (wrap_err "leadership transfer failed" (future_error e), set_raft n r')
  end.

Fixpoint rotator_loop (events : list rotator_event) (n : Node) : option (result unit) * Node :=
  match events with
  | [] => (None, n)
  | Tick :: rest => rotator_loop rest (transferLeadership n).2
  | StopCh :: _ => (Some (Ok tt), n)
  | CtxDone e :: _ => (Some (Err e), n)
  end.

Definition rotator_Start (lr : LeadershipRotator) (events : list rotator_event) (n : Node)
    : option (result unit) * Node :=
  if decide (lr_interval lr <= 0)%Z then (Some (Err (Errorf "invalid interval")), n)
  else rotator_loop events n.

(** Closing a closed channel panics. *)
Definition rotator_Stop (lr : LeadershipRotator) : result unit * LeadershipRotator :=
  if lr_stopped lr then (Panic "close of closed channel", lr)
  else (Ok tt, {| lr_interval := lr_interval lr; lr_stopped := true |}).
End node.
