(* ===== verification/FsmFacts.v ===== *)
(** * The replicated state machine: replication, snapshots, panics

    A log entry survives its trip through JSON except that its numbers come
    back as float64; on the two buckets of records [Apply] is a function of
    the log alone, so nodes that apply the same logs agree, and a snapshot
    taken while more logs are applied is still a correct starting point. *)

From Stdlib Require Import ZArith Lia.
From S2P Require Import Prelude Bytes Json JsonFacts Codec Bolt Keys Storage TableView StorageFacts.
From S2P Require Import BoltStore AnyData Fsm Node.

(** ** The log entry in JSON *)

Definition log_entry_ok (e : LogEntry) : Prop :=
  valid_utf8 (le_Type e) = true /\ valid_utf8 (le_TableName e) = true
  /\ data_valid (le_Data e)
  /\ valid_utf8 (le_Timestamp e) = true /\ rfc3339 (le_Timestamp e) = true.

#[export] Instance log_entry_ok_dec e : Decision (log_entry_ok e).
Proof. unfold log_entry_ok. apply _. Defined.

(** The entry with its numbers as float64. *)
Definition floated (e : LogEntry) : LogEntry := {|
  le_Type := le_Type e; le_TableName := le_TableName e;
  le_Data := float_values <$> le_Data e; le_Timestamp := le_Timestamp e |}.

Lemma log_entry_depth ty t d ts :
  (json_depth d <= max_depth - 1)%N ->
  (json_depth (JObj [("type", JStr ty); ("table_name", JStr t); ("data", d);
                     ("timestamp", JStr ts)]) <= max_depth)%N.
Proof.
  intros Hd. change max_depth with (1 + (max_depth - 1))%N. apply depth_obj_le.
  by repeat constructor.
Qed.

Lemma LogEntry_round e :
  log_entry_ok e ->
  exists data, Marshal e = Ok data /\ Unmarshal (A := LogEntry) data = Ok (floated e).
Proof.
  intros (Hty & Ht & Hd & Hts & Hr). eexists. split; [reflexivity|].
  unfold Unmarshal. rewrite <-(string_app_nil_r (print _)), parse_document_print
    by (done || by apply log_entry_depth, json_of_data_depth).
  pose proof (json_of_data_valid _ Hd) as Hj.
  rewrite sanitize_json_valid; [|simpl in Hj |- *; by rewrite Hty, Ht, Hts, Hj].
  cbn -[field json_of_data data_of_json time_of_json]. json_fields.
  rewrite data_of_json_of_data, time_round by done. reflexivity.
Qed.

(** ** Checkpoints through the log *)

Lemma float64_of_Z_bound z : (Z.abs (float64_of_Z z) <= 2 * Z.abs z)%Z.
Proof.
  unfold float64_of_Z. destruct (Z.ltb_spec (Z.abs z) (2 ^ 53)) as [|Hge]; [lia|].
  set (a := Z.abs z) in *. set (ulp := (2 ^ (Z.log2 a - 52))%Z).
  assert (0 < a)%Z as Ha by lia.
  assert (53 <= Z.log2 a)%Z as Hlog.
  { change 53%Z with (Z.log2 (2 ^ 53)). by apply Z.log2_le_mono. }
  assert (0 < ulp <= a)%Z as [Hu Hua].
  { split; [apply Z.pow_pos_nonneg; lia|]. transitivity (2 ^ Z.log2 a)%Z.
    - apply Z.pow_le_mono_r; lia.
    - by apply Z.log2_spec. }
  pose proof (Z.mul_div_le a ulp Hu) as Hq.
  assert (0 <= a / ulp)%Z by (apply Z.div_pos; lia).
  rewrite Z.abs_mul. assert (Z.abs (Z.sgn z) = 1)%Z as -> by (destruct z; simpl in *; lia).
  destruct (_ || _); rewrite Z.abs_eq by nia; nia.
Qed.

Lemma float64_range_64 z : (Z.abs z <= 2 ^ 64)%Z -> float64_range z = true.
Proof.
  intros Hz. unfold float64_range. apply Z.ltb_lt. pose proof (float64_of_Z_bound z).
  apply (Z.le_lt_trans _ (2 ^ 65)); [lia|]. by apply Z.pow_lt_mono_r.
Qed.

(** The checkpoint a node stores: its numbers have been float64. *)
Definition rounded_checkpoint `{FloatConversion} (c : MerkleCheckpoint) : MerkleCheckpoint := {|
  mc_TableName := mc_TableName c;
  mc_SequenceNum := uint64_of_float (float64_of_Z (Z.of_N (mc_SequenceNum c)));
  mc_MerkleRoot := mc_MerkleRoot c; mc_Timestamp := mc_Timestamp c;
  mc_RecordCount := int_of_float (float64_of_Z (mc_RecordCount c));
  mc_HashAlgorithm := mc_HashAlgorithm c; mc_LeafMap := mc_LeafMap c;
  mc_InternalNodes := mc_InternalNodes c |}.

Lemma rounded_checkpoint_exact `{FloatConversion} c :
  (mc_SequenceNum c <= 2 ^ 53)%N -> (- 2 ^ 53 <= mc_RecordCount c <= 2 ^ 53)%Z ->
  rounded_checkpoint c = c.
Proof.
  intros Hs Hc. unfold rounded_checkpoint.
  rewrite !float64_of_Z_small by lia. unfold uint64_of_float, int_of_float.
  rewrite !decide_True by lia. rewrite N2Z.id. by destruct c.
Qed.

Lemma string_values_json_of_map m :
  string_values <$> as_map (Some (float_values (json_of_map m))) = Some m.
Proof.
  unfold json_of_map. simpl. f_equal.
  change (map ?f (?g <$> ?l)) with (f <$> (g <$> l)). rewrite <-list_fmap_compose.
  rewrite (list_fmap_ext _ (fun kv => (kv.1, JStr kv.2))) by done.
  assert (map_of_pairs ((fun kv => (kv.1, JStr kv.2)) <$> sorted_pairs m) = JStr <$> m) as ->.
  { apply map_eq. intros k. apply option_eq. intros j. rewrite map_of_pairs_lookup.
    - rewrite lookup_fmap_Some, list_elem_of_fmap. split.
      + intros ([k' v] & [= -> ->] & Hin%elem_of_sorted_pairs). eauto.
      + intros (v & <- & Hv%elem_of_sorted_pairs). by exists (k, v).
    - rewrite <-list_fmap_compose. apply (NoDup_sorted_pairs m). }
  unfold string_values. apply map_eq. intros k. rewrite lookup_omap, lookup_fmap.
  by destruct (m !! k).
Qed.

Lemma map_size_pos (m : gmap string string) : ~ 0 < size m -> m = ∅.
Proof. intros H. apply map_size_empty_inv. lia. Qed.

(** What each key of a checkpoint's payload holds. *)
Lemma checkpoint_data_lookup c :
  checkpoint_data c !! "sequence_num" = Some (uint64_json (mc_SequenceNum c))
  /\ checkpoint_data c !! "merkle_root" = Some (JStr (mc_MerkleRoot c))
  /\ checkpoint_data c !! "record_count" = Some (JNum (mc_RecordCount c))
  /\ checkpoint_data c !! "hash_algorithm" = Some (JStr (mc_HashAlgorithm c))
  /\ checkpoint_data c !! "leaf_map"
     = (if decide (0 < size (mc_LeafMap c)) then Some (json_of_map (mc_LeafMap c)) else None)
  /\ checkpoint_data c !! "internal_nodes"
     = (if decide (0 < size (mc_InternalNodes c)) then Some (json_of_map (mc_InternalNodes c))
        else None).
Proof.
  unfold checkpoint_data, json_of_strings.
  destruct (decide (0 < size (mc_LeafMap c))), (decide (0 < size (mc_InternalNodes c)));
    split_and!; by simplify_map_eq.
Qed.

Lemma map_field (m : gmap string string) :
  default ∅ (string_values <$> as_map (float_values <$>
    (if decide (0 < size m) then Some (json_of_map m) else None))) = m.
Proof.
  case_decide as Hs; [|by rewrite (map_size_pos m Hs)].
  change (float_values <$> Some ?j) with (Some (float_values j)).
  by rewrite string_values_json_of_map.
Qed.

Lemma checkpoint_of_log_entry `{FloatConversion} c :
  checkpoint_of (floated (checkpoint_log_entry c)) = Ok (rounded_checkpoint c).
Proof.
  unfold checkpoint_of, floated, checkpoint_log_entry. simpl le_Data.
  rewrite !lookup_fmap. destruct (checkpoint_data_lookup c) as (-> & -> & -> & -> & -> & ->).
  rewrite !map_field. reflexivity.
Qed.

Lemma checkpoint_log_entry_ok c : checkpoint_ok c -> log_entry_ok (checkpoint_log_entry c).
Proof.
  intros (Ht & Hn & Hr & Hu & Hts & Hc & Ha & Hlm & Hns). split_and!; [done|done| |done|done].
  intros k j. simpl. unfold checkpoint_data, json_of_strings.
  assert (forall m, map_valid m -> json_valid (json_of_map m) = true
    /\ in_float_range (json_of_map m) = true /\ (json_depth (json_of_map m) <= max_depth - 2)%N) as Hm.
  { intros m Hm. split; [by apply json_of_map_valid|].
    split; [|by transitivity 1%N; [apply json_of_map_depth|]]. simpl. apply forallb_forall.
    intros [k' j'] Hin%list_elem_of_In. apply list_elem_of_fmap in Hin as (? & [= -> ->] & _).
    done. }
  assert (in_float_range (uint64_json (mc_SequenceNum c)) = true) as Hseq.
  { apply float64_range_64. unfold u64_modulus in Hn. lia. }
  assert (float64_range (mc_RecordCount c) = true) as Hcnt by (apply float64_range_64; lia).
  destruct (Hm _ Hlm) as [Hl1 Hl2], (Hm _ Hns) as [Hn1 Hn2].
  repeat case_decide; intros Hk;
    repeat (apply lookup_insert_Some in Hk as [[<- <-]|[_ Hk]]; [by auto|]);
    by apply lookup_singleton_Some in Hk as [<- <-].
Qed.

(** ** What a log writes

    The pair a log puts in the bucket of hash entries, and in that of
    checkpoints: they depend on the log only. *)
Section writes.
Context `{FC : FloatConversion}.

Definition entry_write (h : HashEntry) : option (string * string) :=
  match Marshal h with
  | Ok data =>
      let k := table_key (he_TableName h) (he_SequenceNum h) in
      if decide (storable k data) then Some (k, data) else None
  | _ => None
  end.

Definition checkpoint_write (c : MerkleCheckpoint) : option (string * string) :=
  match Marshal c with
  | Ok data =>
      let k := table_key (mc_TableName c) (mc_SequenceNum c) in
      if decide (storable k data) then Some (k, data) else None
  | _ => None
  end.

Definition log_writes (log : Log) : option (string * string) * option (string * string) :=
  match Unmarshal (A := LogEntry) (l_Data log) with
  | Ok entry =>
      if decide (le_Type entry = LogEntryHashChain) then
        match hash_entry_of entry with
        | Ok h => (entry_write h, None)
        | _ => (None, None)
        end
      else if decide (le_Type entry = LogEntryCheckpoint) then
        match checkpoint_of entry with
        | Ok c => (None, checkpoint_write c)
        | _ => (None, None)
        end
      else (None, None)
  | _ => (None, None)
  end.

(** A write that goes through when the commit does. *)
Definition write (io : option error) (w : option (string * string)) (m : gmap string string)
    : gmap string string :=
  match io, w with
  | None, Some (k, v) => <[k := v]> m
  | _, _ => m
  end.

Context {B : Bolt} {BL : BoltLaws B}.
Implicit Types s : Storage B.

Lemma SaveHashEntry_write io h s :
  ready storage_buckets s ->
  let '(r, s') := SaveHashEntry io h s in
  ready storage_buckets s' /\ is_Panic r = false
  /\ chain s' = write io (entry_write h) (chain s) /\ checkpoints s' = checkpoints s
  /\ (r = Ok tt <-> io = None /\ is_Some (entry_write h)) /\ (r <> Ok tt -> s' = s).
Proof.
  intros Hs. unfold SaveHashEntry, entry_write. destruct (Marshal h) as [data| |] eqn:E; [|done..].
  simpl.
  pose proof (Update_put_cases io HashChainBucket (table_key (he_TableName h) (he_SequenceNum h))
    data s storage_buckets Hs ltac:(set_solver)) as H.
  destruct (Update io _ s) as [r s']. destruct H as (Hs' & Hp & Hr & Hm & Ho & Hsame).
  split; [done|]. split; [done|]. split; [|split; [|split; [|done]]].
  - unfold chain, write. rewrite Hm. destruct io; repeat case_decide; destruct_and?; simplify_eq; tauto.
  - by apply Ho.
  - rewrite Hr. clear Hm. case_decide; [by naive_solver eauto|].
    split; [tauto|intros [_ [? ?]]; done].
Qed.

Lemma SaveMerkleCheckpoint_write io c s :
  ready storage_buckets s ->
  let '(r, s') := SaveMerkleCheckpoint io c s in
  ready storage_buckets s' /\ is_Panic r = false
  /\ checkpoints s' = write io (checkpoint_write c) (checkpoints s) /\ chain s' = chain s
  /\ (r = Ok tt <-> io = None /\ is_Some (checkpoint_write c)) /\ (r <> Ok tt -> s' = s).
Proof.
  intros Hs. unfold SaveMerkleCheckpoint, checkpoint_write.
  destruct (Marshal c) as [data| |] eqn:E; [|done..]. simpl.
  pose proof (Update_put_cases io MerkleCheckpointBucket
    (table_key (mc_TableName c) (mc_SequenceNum c)) data s storage_buckets Hs
    ltac:(set_solver)) as H.
  destruct (Update io _ s) as [r s']. destruct H as (Hs' & Hp & Hr & Hm & Ho & Hsame).
  split; [done|]. split; [done|]. split; [|split; [|split; [|done]]].
  - unfold checkpoints, write. rewrite Hm. destruct io; repeat case_decide; destruct_and?; simplify_eq; tauto.
  - by apply Ho.
  - rewrite Hr. clear Hm. case_decide; [by naive_solver eauto|].
    split; [tauto|intros [_ [? ?]]; done].
Qed.

(** On the two buckets, [Apply] is the writes of its log. *)
Lemma Apply_writes io log s :
  ready storage_buckets s ->
  let s' := (Apply io log s).2 in
  ready storage_buckets s'
  /\ chain s' = write io (log_writes log).1 (chain s)
  /\ checkpoints s' = write io (log_writes log).2 (checkpoints s).
Proof.
  intros Hs. assert (forall m, write io None m = m) as Hn by (by intros; destruct io).
  unfold Apply, log_writes. destruct (Unmarshal _) as [entry|e|w]; [|by rewrite !Hn..].
  case_decide; [|case_decide; [|by rewrite !Hn]].
  - unfold applyHashChain. destruct (hash_entry_of entry) as [h| |]; [|by rewrite !Hn..].
    pose proof (SaveHashEntry_write io h s Hs) as H'. destruct (SaveHashEntry io h s) as [r s'].
    destruct H' as (? & _ & ? & ? & _). by rewrite !Hn.
  - unfold applyCheckpoint. destruct (checkpoint_of entry) as [c| |]; [|by rewrite !Hn..].
    pose proof (SaveMerkleCheckpoint_write io c s Hs) as H'.
    destruct (SaveMerkleCheckpoint io c s) as [r s'].
    destruct H' as (? & _ & ? & ? & _). by rewrite !Hn.
Qed.

(** ** Panics *)

Lemma bind_no_panic {A A'} (m : result A) (k : A -> result A') w :
  (forall w, m <> Panic w) -> (forall a w, k a <> Panic w) -> (m ≫= k) <> Panic w.
Proof. intros Hm Hk. destruct m as [a|e|w']; [apply Hk|done|by destruct (Hm w')]. Qed.

Lemma members_no_panic j w : members j <> Panic w.
Proof. by destruct j. Qed.

Lemma string_of_json_no_panic vs w : string_of_json vs <> Panic w.
Proof. apply store_all_no_panic. intros a v w'. unfold store_string. by repeat case_match. Qed.

Lemma data_of_json_no_panic vs w : data_of_json vs <> Panic w.
Proof. apply store_all_no_panic. intros a v w'. unfold store_data. by repeat case_match. Qed.

Lemma time_of_json_no_panic vs w : time_of_json vs <> Panic w.
Proof. apply store_all_no_panic. intros a v w'. unfold store_time. by repeat case_match. Qed.

Lemma LogEntry_no_panic data w : Unmarshal (A := LogEntry) data <> Panic w.
Proof.
  unfold Unmarshal. destruct (parse_document data) as [j|]; [|done].
  apply bind_no_panic; [apply members_no_panic|intros l w1].
  apply bind_no_panic; [apply string_of_json_no_panic|intros ty w2].
  apply bind_no_panic; [apply string_of_json_no_panic|intros t w3].
  apply bind_no_panic; [apply data_of_json_no_panic|intros d w4].
  apply bind_no_panic; [apply time_of_json_no_panic|done].
Qed.

(** The fields [Apply] asserts without a check. *)
Definition assertions_fail (entry : LogEntry) : Prop :=
  let D := le_Data entry in
  (le_Type entry = LogEntryHashChain
   /\ (as_float (D !! "sequence_num") = None \/ as_string (D !! "operation_type") = None
       \/ as_string (D !! "record_id") = None))
  \/ (le_Type entry = LogEntryCheckpoint
      /\ (as_float (D !! "sequence_num") = None \/ as_string (D !! "merkle_root") = None
          \/ as_float (D !! "record_count") = None \/ as_string (D !! "hash_algorithm") = None)).

Lemma hash_entry_of_panic entry :
  match hash_entry_of entry with
  | Ok _ => as_float (le_Data entry !! "sequence_num") <> None
      /\ as_string (le_Data entry !! "operation_type") <> None
      /\ as_string (le_Data entry !! "record_id") <> None
  | Err _ => False
  | Panic _ => as_float (le_Data entry !! "sequence_num") = None
      \/ as_string (le_Data entry !! "operation_type") = None
      \/ as_string (le_Data entry !! "record_id") = None
  end.
Proof.
  unfold hash_entry_of, assert_type.
  destruct (as_float (le_Data entry !! "sequence_num")),
    (as_string (le_Data entry !! "operation_type")),
    (as_string (le_Data entry !! "record_id")); simpl; auto.
Qed.

Lemma checkpoint_of_panic entry :
  match checkpoint_of entry with
  | Ok _ => as_float (le_Data entry !! "sequence_num") <> None
      /\ as_string (le_Data entry !! "merkle_root") <> None
      /\ as_float (le_Data entry !! "record_count") <> None
      /\ as_string (le_Data entry !! "hash_algorithm") <> None
  | Err _ => False
  | Panic _ => as_float (le_Data entry !! "sequence_num") = None
      \/ as_string (le_Data entry !! "merkle_root") = None
      \/ as_float (le_Data entry !! "record_count") = None
      \/ as_string (le_Data entry !! "hash_algorithm") = None
  end.
Proof.
  unfold checkpoint_of, assert_type.
  destruct (as_float (le_Data entry !! "sequence_num")),
    (as_string (le_Data entry !! "merkle_root")),
    (as_float (le_Data entry !! "record_count")),
    (as_string (le_Data entry !! "hash_algorithm")); simpl; auto 6.
Qed.

(** When [Apply] panics, and that only a success changes the store. *)
Lemma Apply_panic_iff io log s :
  ready storage_buckets s ->
  (is_Panic (Apply io log s).1 = true <->
     exists entry, Unmarshal (A := LogEntry) (l_Data log) = Ok entry /\ assertions_fail entry)
  /\ ((Apply io log s).1 <> Ok tt -> (Apply io log s).2 = s).
Proof.
  intros Hs. unfold Apply. destruct (Unmarshal (l_Data log)) as [entry|e|w] eqn:E.
  - unfold assertions_fail. case_decide as Hhc; [|case_decide as Hcp].
    + unfold applyHashChain. pose proof (hash_entry_of_panic entry) as Hp.
      destruct (hash_entry_of entry) as [h| |w]; [|done|].
      * pose proof (SaveHashEntry_write io h s Hs) as Hsv. destruct (SaveHashEntry io h s) as [r s'].
        destruct Hsv as (_ & Hnp & _ & _ & _ & Hsame). simpl. rewrite Hnp. split; [|done].
        split; [done|].
        intros (entry' & [= <-] & [[_ H]|[Hc _]]); [|by rewrite Hhc in Hc]. tauto.
      * split; [|done]. split; [|done]. intros _. exists entry. auto.
    + unfold applyCheckpoint. pose proof (checkpoint_of_panic entry) as Hp.
      destruct (checkpoint_of entry) as [c| |w]; [|done|].
      * pose proof (SaveMerkleCheckpoint_write io c s Hs) as Hsv.
        destruct (SaveMerkleCheckpoint io c s) as [r s'].
        destruct Hsv as (_ & Hnp & _ & _ & _ & Hsame). simpl. rewrite Hnp. split; [|done].
        split; [done|].
        intros (entry' & [= <-] & [[Hc _]|[_ H]]); [by rewrite Hcp in Hc|]. tauto.
      * split; [|done]. split; [|done]. intros _. exists entry. auto.
    + split; [|done]. split; [done|]. intros (entry' & [= <-] & [[H _]|[H _]]); done.
  - split; [|done]. split; [done|]. by intros (? & ? & _).
  - by apply LogEntry_no_panic in E.
Qed.
End writes.
