(* ===== verification/Replication.v ===== *)
(** * Replication and snapshots

    The properties of internal/consensus as a whole: what a committed log
    does on every node, what a snapshot carries over, when [Apply] panics,
    and how long a joining node waits. *)

From Stdlib Require Import ZArith Lia.
From S2P Require Import Prelude Bytes Json JsonFacts Codec Bolt Keys Storage TableView StorageFacts.
From S2P Require Import BoltStore BoltStoreFacts AnyData Fsm Node FsmFacts.

(** ** Snapshots *)

Section snapshot.
Context {B : Bolt} {BL : BoltLaws B}.
Implicit Types (s : Storage B) (m : gmap string string).

(** Every pair of the bucket is a storable entry under its own key. *)
Definition pair_wf (kv : string * string) (e : HashEntry) : Prop :=
  storable_entry e /\ kv.1 = table_key (he_TableName e) (he_SequenceNum e)
  /\ Marshal e = Ok kv.2.

Definition chain_wf m : Prop := forall k v, m !! k = Some v -> exists e, pair_wf (k, v) e.

Definition insert_pairs (l : list (string * string)) m : gmap string string :=
  foldl (fun m kv => <[kv.1 := kv.2]> m) m l.

Lemma insert_pairs_union l m :
  NoDup l.*1 -> insert_pairs l m = list_to_map l ∪ m.
Proof.
  unfold insert_pairs. revert m. induction l as [|[k v] l IH]; intros m Hnd.
  { simpl. by rewrite (left_id_L ∅ (∪)). }
  rewrite fmap_cons in Hnd. apply NoDup_cons in Hnd as [Hk Hnd]. cbn [foldl fst snd].
  rewrite IH by done. rewrite list_to_map_cons, <-insert_union_l, <-insert_union_r; [done|].
  by apply not_elem_of_list_to_map.
Qed.

Lemma insert_sorted_pairs m1 m2 : insert_pairs (sorted_pairs m1) m2 = m1 ∪ m2.
Proof.
  rewrite insert_pairs_union by apply NoDup_sorted_pairs. by rewrite list_to_map_sorted_pairs.
Qed.

(** The entries behind a well-formed bucket, in key order. *)
Lemma chain_entries m :
  chain_wf m -> exists es, Forall2 pair_wf (sorted_pairs m) es.
Proof.
  intros Hm. apply Forall_exists_Forall2. intros [k v] Hin%elem_of_sorted_pairs. by apply Hm.
Qed.

Lemma pair_wf_decodes kv e : pair_wf kv e -> Unmarshal kv.2 = Ok e.
Proof.
  intros ((Hok & _) & _ & Hm). destruct (Unmarshal_Marshal e Hok) as (t & Ht & Hu). congruence.
Qed.

Lemma collect_pairs l es acc :
  Forall2 pair_wf l es -> foldl collect acc l = acc ++ es.
Proof.
  intros H. revert acc. induction H as [|kv e l es Hwf Hl IH]; intros acc.
  { simpl. by rewrite app_nil_r. }
  cbn [foldl]. rewrite IH. unfold collect. rewrite (pair_wf_decodes kv e Hwf), <-app_assoc. done.
Qed.

Lemma GetAllHashEntriesAllTables_wf s :
  ready storage_buckets s -> chain_wf (chain s) ->
  exists es, GetAllHashEntriesAllTables s = Ok es /\ Forall2 pair_wf (sorted_pairs (chain s)) es.
Proof.
  intros Hs Hwf. destruct (chain_entries _ Hwf) as [es Hes]. exists es. split; [|done].
  unfold GetAllHashEntriesAllTables. rewrite (View_ready _ _ _ Hs).
  destruct (tx_bucket_ready HashChainBucket _ _ Hs ltac:(set_solver)) as (b & Hb & Hc).
  unfold tx_bucket in Hb. destruct (db_buckets s !! HashChainBucket); [|done].
  injection Hb as ->. rewrite pairs_contents, Hc. f_equal. by rewrite (collect_pairs _ es).
Qed.

Lemma entries_round es :
  Forall entry_ok es ->
  exists js, entries_to_json es = Ok js /\ Forall (fun j => (json_depth j <= 1)%N) js
    /\ entries_of_json (sanitize_json <$> js) = Ok es.
Proof.
  induction 1 as [|e es He Hes (js & Hto & Hd & Hof)]; [by exists []|].
  destruct (round_trips e He) as (j & Hj & _ & Hj'). exists (j :: js).
  cbn [entries_to_json]. rewrite Hj, Ok_bind, Hto, Ok_bind. split; [done|].
  split; [constructor; [by injection Hj as <-|done]|].
  rewrite fmap_cons. cbn [entries_of_json]. by rewrite Hj', Ok_bind, Hof, Ok_bind.
Qed.

Lemma snapshot_round es :
  Forall entry_ok es ->
  exists text, encode_snapshot es = Ok text /\ decode_snapshot text = Ok es.
Proof.
  intros Hes. destruct (entries_round es Hes) as (js & Hto & Hd & Hof).
  eexists. unfold encode_snapshot. rewrite Hto, Ok_bind. split; [reflexivity|].
  unfold decode_snapshot. rewrite parse_stream_print; [exact Hof| |done].
  transitivity (1 + (1 + 1))%N; [|done].
  apply depth_obj_le. constructor; [by apply depth_arr_le|done].
Qed.

Lemma entry_write_wf kv e : pair_wf kv e -> entry_write e = Some kv.
Proof.
  destruct kv as [k v]. intros ((Hok & Hf & Hc) & Hk & Hm). simpl in Hk, Hm. unfold entry_write.
  destruct (table_key_put e (he_TableName e) (he_SequenceNum e) Hok Hf) as (d & Hd & _ & Hs);
    [apply Hok|]. rewrite Hm in Hd |- *. injection Hd as <-.
  rewrite decide_True by done. by rewrite Hk.
Qed.

Lemma restore_wf l es i s :
  Forall2 pair_wf l es -> ready storage_buckets s ->
  let '(r, s') := restore_entries (fun _ => None) i es s in
  r = Ok tt /\ ready storage_buckets s'
  /\ chain s' = insert_pairs l (chain s) /\ checkpoints s' = checkpoints s.
Proof.
  intros H. revert i s. induction H as [|kv e l es Hwf Hl IH]; intros i s Hs; [done|].
  cbn [restore_entries]. pose proof (SaveHashEntry_write None e s Hs) as Hsv.
  rewrite (entry_write_wf kv e Hwf) in Hsv.
  destruct (SaveHashEntry None e s) as [r s']. destruct Hsv as (Hs' & _ & Hch & Hcp & Hr & _).
  rewrite (proj2 Hr) by eauto. specialize (IH (S i) s' Hs').
  destruct (restore_entries _ _ es s') as [r' s'']. destruct IH as (-> & Hs'' & Hch' & Hcp').
  rewrite Hch', Hcp', Hch, Hcp. by destruct kv.
Qed.

(** What [Restore] makes of the text [Persist] wrote. *)
Lemma Restore_Persist_chain s1 s2 :
  ready storage_buckets s1 -> ready storage_buckets s2 -> chain_wf (chain s1) ->
  exists text s2', Persist None None s1 = Ok text
    /\ Restore (fun _ => None) text s2 = (Ok tt, s2')
    /\ ready storage_buckets s2'
    /\ chain s2' = chain s1 ∪ chain s2 /\ checkpoints s2' = checkpoints s2.
Proof.
  intros H1 H2 Hwf. destruct (GetAllHashEntriesAllTables_wf s1 H1 Hwf) as (es & Hall & Hes).
  destruct (snapshot_round es) as (text & Henc & Hdec).
  { clear -Hes. induction Hes as [|kv e l es [[Hok _] _] Hl IH]; by constructor. }
  pose proof (restore_wf _ es 0 s2 Hes H2) as Hr.
  destruct (restore_entries (fun _ => None) 0 es s2) as [r s2'] eqn:E.
  destruct Hr as (-> & Hr2 & Hch & Hcp). exists text, s2'. split_and!; try done.
  - unfold Persist. rewrite Hall. cbn [wrap_err]. by rewrite Ok_bind, Henc.
  - unfold Restore. by rewrite Hdec.
  - by rewrite Hch, insert_sorted_pairs.
Qed.

(** ** Replaying logs *)

Context `{FC : FloatConversion}.

Definition replay (logs : list Log) s : Storage B :=
  foldl (fun s log => (Apply None log s).2) s logs.

(** The pairs a list of logs writes to the bucket of hash entries. *)
Definition chain_writes (logs : list Log) : list (string * string) :=
  omap (fun log => (log_writes log).1) logs.

Definition checkpoint_writes (logs : list Log) : list (string * string) :=
  omap (fun log => (log_writes log).2) logs.

Lemma replay_writes logs s :
  ready storage_buckets s ->
  ready storage_buckets (replay logs s)
  /\ chain (replay logs s) = insert_pairs (chain_writes logs) (chain s)
  /\ checkpoints (replay logs s) = insert_pairs (checkpoint_writes logs) (checkpoints s).
Proof.
  revert s. induction logs as [|log logs IH]; intros s Hs; [done|].
  pose proof (Apply_writes None log s Hs) as (Hs' & Hch & Hcp).
  destruct (IH (Apply None log s).2 Hs') as (Hr & Hch' & Hcp'). split; [done|].
  change (replay (log :: logs) s) with (replay logs (Apply None log s).2).
  rewrite Hch', Hcp', Hch, Hcp. unfold chain_writes, checkpoint_writes. cbn [omap list_omap].
  destruct (log_writes log) as [[[]|] [[]|]]; done.
Qed.

Lemma insert_pairs_app l1 l2 m : insert_pairs (l1 ++ l2) m = insert_pairs l2 (insert_pairs l1 m).
Proof. apply foldl_app. Qed.

Lemma insert_pairs_lookup l m k :
  insert_pairs l m !! k
  = match insert_pairs l ∅ !! k with Some v => Some v | None => m !! k end.
Proof.
  revert m. induction l as [|kv l IH] using rev_ind; intros m.
  { unfold insert_pairs. simpl. by rewrite lookup_empty. }
  rewrite !insert_pairs_app. simpl. destruct (decide (kv.1 = k)) as [->|Hne].
  - by rewrite !lookup_insert_eq.
  - by rewrite !lookup_insert_ne.
Qed.

(** Applying the same writes again changes nothing. *)
Lemma insert_pairs_idemp l m : insert_pairs l (insert_pairs l m) = insert_pairs l m.
Proof.
  apply map_eq. intros k. rewrite (insert_pairs_lookup l (insert_pairs l m) k).
  rewrite (insert_pairs_lookup l m k). by destruct (insert_pairs l ∅ !! k).
Qed.

Lemma chain_wf_insert l m :
  chain_wf m -> (forall kv, kv ∈ l -> exists e, pair_wf kv e) -> chain_wf (insert_pairs l m).
Proof.
  intros Hm. induction l as [|[k v] l IH] using rev_ind; intros Hl; [done|].
  rewrite insert_pairs_app. intros k' v'. simpl.
  intros [[<- <-]|[_ Hk]]%lookup_insert_Some.
  - apply Hl, elem_of_app. right. by apply list_elem_of_singleton.
  - apply IH; [|done]. intros kv Hkv. apply Hl, elem_of_app. by left.
Qed.

Lemma chain_wf_empty : chain_wf ∅.
Proof. intros k v Hk. by rewrite lookup_empty in Hk. Qed.
End snapshot.

(** ** Examples for the witnesses *)

#[export] Instance pair_wf_dec kv e : Decision (pair_wf kv e).
Proof. unfold pair_wf. apply _. Defined.

(** [pair_wf] of the entry the value decodes to. *)
Definition pair_ok (kv : string * string) : Prop :=
  match Unmarshal kv.2 with
  | Ok e => pair_wf kv e
  | _ => False
  end.

#[export] Instance pair_ok_dec kv : Decision (pair_ok kv).
Proof. unfold pair_ok. destruct (Unmarshal kv.2); apply _. Defined.

Lemma pair_ok_wf kv : pair_ok kv -> exists e, pair_wf kv e.
Proof. unfold pair_ok. destruct (Unmarshal kv.2); [eauto|done..]. Qed.

Lemma pairs_ok_chain_wf (m : gmap string string) :
  map_Forall (fun k v => pair_ok (k, v)) m -> chain_wf m.
Proof. intros Hm k v Hk. by apply pair_ok_wf, Hm. Qed.

Definition zero_float : FloatConversion := {| uint64_unfit _ := 0%N; int_unfit _ := 0%Z |}.

Lemma empty_storage_ready : ready storage_buckets empty_storage.
Proof. split; by_decide. Qed.

Definition example_checkpoint : MerkleCheckpoint := {|
  mc_TableName := "users"; mc_SequenceNum := 7; mc_MerkleRoot := "ab";
  mc_Timestamp := "2024-05-06T07:08:09Z"; mc_RecordCount := 2; mc_HashAlgorithm := "sha256";
  mc_LeafMap := {[ "id:1" := "aa"; "id:2" := "bb" ]}; mc_InternalNodes := ∅ |}.

Definition example_config : NodeConfig := {|
  nc_NodeID := "node1"; nc_BindAddr := "127.0.0.1:7000"; nc_DataDir := "/data";
  nc_Bootstrap := true; nc_Peers := []; nc_PeerAddrs := ∅; nc_JoinRetries := 0;
  nc_JoinRetryWait := 0 |}.

Definition leader_node : Node (R := list_raft) :=
  {| node_config := example_config; node_raft := Some (true, []) : option (Raft (RaftLib := list_raft)) |}.

(** ** Properties *)

(** C25: [Apply] panics exactly when a decoded entry lacks a field that is
    asserted without a check, or has it with another JSON type: sequence_num,
    operation_type or record_id of a hash entry; sequence_num, merkle_root,
    record_count or hash_algorithm of a checkpoint.  A text that does not
    decode is the error of encoding/json, wrapped; an entry of another type
    is the error that names the type.  Whatever is not a success, a panic
    included, leaves the store unchanged.  The store is open and has its
    buckets. *)
Theorem Apply_panics {FC : FloatConversion} {B : Bolt} {BL : BoltLaws B} (io : option error)
    (log : Log) (s : Storage B) :
  ready storage_buckets s ->
  (is_Panic (Apply io log s).1 = true <->
     exists entry, Unmarshal (A := LogEntry) (l_Data log) = Ok entry /\ assertions_fail entry)
  /\ (forall e, Unmarshal (A := LogEntry) (l_Data log) = Err e ->
        Apply io log s = (Err (Wrap "failed to unmarshal log entry" e), s))
  /\ (forall entry, Unmarshal (A := LogEntry) (l_Data log) = Ok entry ->
        le_Type entry <> LogEntryHashChain -> le_Type entry <> LogEntryCheckpoint ->
        Apply io log s = (Err (Errorf ("unknown log entry type: " +:+ le_Type entry)), s))
  /\ ((Apply io log s).1 <> Ok tt -> (Apply io log s).2 = s).
Proof.
  intros Hs. destruct (Apply_panic_iff io log s Hs) as [Hp Hsame]. split_and!; [done| | |done].
  - intros e E. unfold Apply. by rewrite E.
  - intros entry E H1 H2. unfold Apply. by rewrite E, !decide_False.
Qed.

(** A text another program could have written: names in capitals, numbers with
    a fraction. *)
Definition foreign_log (data : list (string * json)) : Log :=
  example_log 1 (print (JObj [("Type", JStr "hash_chain"); ("TABLE_NAME", JStr "users");
                              ("data", JObj data); ("timestamp", JStr "2024-05-06T07:08:09Z")])).

Example Apply_foreign :
  (Apply (H := zero_float) None
     (foreign_log [("sequence_num", JDec 15 (-1)); ("operation_type", JStr "INSERT");
                   ("record_id", JStr "1")]) empty_storage).1 = Ok tt.
Proof. by_vm. Qed.

Theorem Apply_panics_witness :
  let log := foreign_log [("sequence_num", JDec 15 (-1)); ("record_id", JNum 1)] in
  (is_Panic (Apply (H := zero_float) None log empty_storage).1 = true <->
     exists entry, Unmarshal (A := LogEntry) (l_Data log) = Ok entry /\ assertions_fail entry)
  /\ (forall e, Unmarshal (A := LogEntry) (l_Data log) = Err e ->
        Apply (H := zero_float) None log empty_storage
        = (Err (Wrap "failed to unmarshal log entry" e), empty_storage))
  /\ (forall entry, Unmarshal (A := LogEntry) (l_Data log) = Ok entry ->
        le_Type entry <> LogEntryHashChain -> le_Type entry <> LogEntryCheckpoint ->
        Apply (H := zero_float) None log empty_storage
        = (Err (Errorf ("unknown log entry type: " +:+ le_Type entry)), empty_storage))
  /\ ((Apply (H := zero_float) None log empty_storage).1 <> Ok tt ->
      (Apply (H := zero_float) None log empty_storage).2 = empty_storage).
Proof.
  intros log. apply (Apply_panics (FC := zero_float) (B := map_bolt) None log empty_storage).
  exact empty_storage_ready.
Defined.

(** C23: a checkpoint the leader replicates is what every node stores,
    except that its two numbers have been float64: on success exactly one
    log is committed, and applying it anywhere saves the checkpoint with its
    sequence number and record count rounded to 53 bits.  Up to [2^53] the
    stored checkpoint, leaf map and internal nodes included, is the
    leader's. *)
Theorem ApplyCheckpoint_replicates {R : RaftLib} {RL : RaftLaws R} {FC : FloatConversion}
    (c : MerkleCheckpoint) (n n' : Node) (r : Raft) :
  checkpoint_ok c -> node_raft n = Some r -> ApplyCheckpoint c n = (Ok tt, n') ->
  exists r' data, node_raft n' = Some r' /\ committed r' = committed r ++ [data]
  /\ (forall (B : Bolt) (io : option error) (log : Log) (s : Storage B), l_Data log = data ->
       Apply io log s = SaveMerkleCheckpoint io (rounded_checkpoint c) s)
  /\ ((mc_SequenceNum c <= 2 ^ 53)%N -> (- 2 ^ 53 <= mc_RecordCount c <= 2 ^ 53)%Z ->
       rounded_checkpoint c = c).
Proof.
  intros Hc Hr. destruct (LogEntry_round _ (checkpoint_log_entry_ok c Hc)) as (data & Hm & Hu).
  unfold ApplyCheckpoint, ApplyLog. rewrite Hr, Hm. cbn [wrap_err].
  destruct (is_leader_state r); [|done]. simpl.
  destruct (raft_apply r data) as [[e|] r'] eqn:Ha; [done|]. intros [= <-].
  exists r', data. split_and!; [done|by apply (apply_commits _ _ _ Ha)| |by apply rounded_checkpoint_exact].
  intros B io log s Hl. unfold Apply. rewrite Hl, Hu. simpl le_Type.
  rewrite decide_False, decide_True by done.
  unfold applyCheckpoint. by rewrite checkpoint_of_log_entry.
Qed.

Theorem ApplyCheckpoint_replicates_witness :
  let n' := (ApplyCheckpoint example_checkpoint leader_node).2 in
  exists r' data, node_raft n' = Some r' /\ committed r' = [] ++ [data]
  /\ (forall (B : Bolt) (io : option error) (log : Log) (s : Storage B), l_Data log = data ->
       Apply (H := zero_float) io log s
       = SaveMerkleCheckpoint io (rounded_checkpoint (H := zero_float) example_checkpoint) s)
  /\ ((7 <= 2 ^ 53)%N -> (- 2 ^ 53 <= 2 <= 2 ^ 53)%Z ->
       rounded_checkpoint (H := zero_float) example_checkpoint = example_checkpoint).
Proof.
  apply (ApplyCheckpoint_replicates (R := list_raft) (FC := zero_float) example_checkpoint
    leader_node (ApplyCheckpoint example_checkpoint leader_node).2 (true, [])).
  - by_decide.
  - reflexivity.
  - reflexivity.
Defined.

(** C24: a snapshot carries the hash entries and nothing else.  Restoring
    the text [Persist] wrote succeeds; afterwards the bucket of hash entries
    is that of the snapshot on top of what the node had: an entry the
    snapshot lacks is kept, although Raft expects a restore to discard the
    old state, and the checkpoints are those the node had, none of the
    snapshot's node. *)
Theorem Restore_Persist {B : Bolt} {BL : BoltLaws B} (s1 s2 : Storage B) :
  ready storage_buckets s1 -> ready storage_buckets s2 -> chain_wf (chain s1) ->
  exists text s2', Persist None None (Snapshot s1) = Ok text
    /\ Restore (fun _ => None) text s2 = (Ok tt, s2')
    /\ chain s2' = chain s1 ∪ chain s2 /\ checkpoints s2' = checkpoints s2.
Proof.
  intros H1 H2 Hwf. destruct (Restore_Persist_chain s1 s2 H1 H2 Hwf)
    as (text & s2' & Hp & Hr & _ & Hch & Hcp). eauto 6.
Qed.

Theorem Restore_Persist_witness :
  let s2 := save_all [example_entry "users" 11 "zz"] empty_storage in
  exists text s2', Persist None None (Snapshot nine_ten_storage) = Ok text
    /\ Restore (fun _ => None) text s2 = (Ok tt, s2')
    /\ chain s2' = chain nine_ten_storage ∪ chain s2 /\ checkpoints s2' = checkpoints s2.
Proof.
  apply (Restore_Persist (B := map_bolt) nine_ten_storage).
  - apply nine_ten_rep.
  - split; by_decide.
  - apply pairs_ok_chain_wf. by_decide.
Defined.

(** Reading the live storage makes no bad snapshot.  [Persist] may run
    while later logs are applied; a node that restores a snapshot persisted
    after the logs [l1 ++ l2], on an empty store, and then applies [l2] once
    more has exactly the hash entries of a node that applied [l1 ++ l2],
    provided the logs write storable entries.  Its checkpoints are those of
    [l2] only. *)
Lemma Persist_live {B : Bolt} {BL : BoltLaws B} {FC : FloatConversion}
    (l1 l2 : list Log) (s0 fresh : Storage B) :
  ready storage_buckets s0 -> ready storage_buckets fresh ->
  chain s0 = ∅ -> chain fresh = ∅ -> checkpoints fresh = ∅ ->
  (forall kv, kv ∈ chain_writes (l1 ++ l2) -> exists e, pair_wf kv e) ->
  exists text s, Persist None None (replay (l1 ++ l2) s0) = Ok text
    /\ Restore (fun _ => None) text fresh = (Ok tt, s)
    /\ chain (replay l2 s) = chain (replay (l1 ++ l2) s0)
    /\ checkpoints (replay l2 s) = insert_pairs (checkpoint_writes l2) ∅.
Proof.
  intros H0 Hf E0 Ef Efc Hwf.
  destruct (replay_writes (l1 ++ l2) s0 H0) as (Hr & Hch & _). rewrite E0 in Hch.
  assert (chain_wf (chain (replay (l1 ++ l2) s0))) as Hcwf.
  { rewrite Hch. apply chain_wf_insert; [apply chain_wf_empty|done]. }
  destruct (Restore_Persist_chain _ fresh Hr Hf Hcwf) as (text & s & Hp & Hrs & Hs & Hcs & Hcps).
  exists text, s. split_and!; [done..| |].
  - destruct (replay_writes l2 s Hs) as (_ & -> & _).
    rewrite Hcs, Ef, (right_id_L ∅ (∪)), Hch. unfold chain_writes.
    rewrite omap_app, insert_pairs_app. apply insert_pairs_idemp.
  - destruct (replay_writes l2 s Hs) as (_ & _ & ->). by rewrite Hcps, Efc.
Qed.

Lemma wait_loop_spec id poll i n :
  let seen j := (poll j).1 <> "" /\ exists servers, (poll j).2 = Ok servers /\ id ∈ sv_ID <$> servers in
  match wait_loop id poll i n with
  | (true, polls) => i < polls <= i + n /\ seen (polls - 1)
      /\ forall j, i <= j < polls - 1 -> ~ seen j
  | (false, polls) => polls = i + n /\ forall j, i <= j < i + n -> ~ seen j
  end.
Proof.
  intros seen. revert i. induction n as [|n IH]; intros i; [simpl; split; [lia|intros; lia]|].
  cbn [wait_loop]. assert (~ seen i -> match wait_loop id poll (S i) n with
    | (true, polls) => i < polls <= i + S n /\ seen (polls - 1)
        /\ forall j, i <= j < polls - 1 -> ~ seen j
    | (false, polls) => polls = i + S n /\ forall j, i <= j < i + S n -> ~ seen j
    end) as Hstep.
  { intros Hi. specialize (IH (S i)). destruct (wait_loop id poll (S i) n) as [[] polls].
    - destruct IH as (Hp & Hs & Hj). split_and!; [lia..|done|].
      intros j Hj'. destruct (decide (j = i)) as [->|]; [done|apply Hj; lia].
    - destruct IH as (-> & Hj). split; [lia|].
      intros j Hj'. destruct (decide (j = i)) as [->|]; [done|apply Hj; lia]. }
  destruct (poll i) as [leader configuration] eqn:E. case_decide as Hl.
  - destruct configuration as [servers| |]; [case_decide as Hin|..].
    + split_and!; [lia..| |intros; lia]. replace (S i - 1) with i by lia.
      unfold seen. rewrite E. eauto.
    + apply Hstep. unfold seen. rewrite E. naive_solver.
    + apply Hstep. unfold seen. rewrite E. naive_solver.
    + apply Hstep. unfold seen. rewrite E. naive_solver.
  - apply Hstep. unfold seen. rewrite E. naive_solver.
Qed.

(** C39: a joining node waits a bounded time.  [waitForLeader] polls at most
    the configured number of times, 30 when it is zero and not at all when
    it is negative; it returns nil at the first poll that sees a leader and
    a configuration with this node in it, and otherwise the timeout error
    after the last one. *)
Theorem waitForLeader_spec {R : RaftLib} (n : Node)
    (poll : nat -> string * result (list Server)) :
  let seen j := (poll j).1 <> "" /\ exists servers,
    (poll j).2 = Ok servers /\ nc_NodeID (node_config n) ∈ sv_ID <$> servers in
  let retries := Z.to_nat (join_retries (node_config n)) in
  match waitForLeader n poll with
  | (Ok _, polls) => 0 < polls <= retries /\ seen (polls - 1)
      /\ forall j, j < polls - 1 -> ~ seen j
  | (Err e, polls) => polls = retries /\ (forall j, j < retries -> ~ seen j)
      /\ e = Errorf ("timeout waiting for leader after "
                     +:+ pretty (join_retries (node_config n)) +:+ " retries")
  | (Panic _, _) => False
  end.
Proof.
  intros seen retries. unfold waitForLeader.
  pose proof (wait_loop_spec (nc_NodeID (node_config n)) poll 0 retries) as H. cbv zeta in H.
  fold retries. destruct (wait_loop _ _ _ _) as [[] polls].
  - destruct H as (Hp & Hs & Hj). split_and!; [lia..|done|]. intros j Hlt. apply Hj. lia.
  - destruct H as (-> & Hj). split_and!; [done| |done]. intros j Hlt. apply Hj. lia.
Qed.
