(* ===== verification/Handler.v ===== *)
(** * internal/verify: errors.go, handler.go and handler_raft.go

    What happens to a change event: an insert into a protected table is
    hashed and stored under the next sequence number, locally or through
    Raft; an update or a delete is a tampering error; events of other tables
    are ignored.  [now] is what [time.Now] returns. *)

From Stdlib Require Import Ascii NArith ZArith Lia.
From S2P Require Import Prelude Bytes Json JsonFacts Codec Hasher DataHash Bolt Keys Storage.
From S2P Require Import BoltStore AnyData Fsm Node.

(** ** internal/cdc/types.go *)

Definition OperationInsert : string := "INSERT".
Definition OperationUpdate : string := "UPDATE".
Definition OperationDelete : string := "DELETE".

(** A nil map is the empty map: the program only reads these. *)
Record ChangeEvent := {
  ev_TableName : string;
  ev_Operation : string;
  ev_Timestamp : Time;
  ev_NewData : gmap string GoValue;
  ev_OldData : gmap string GoValue;
  ev_PrimaryKey : gmap string GoValue;
  ev_TransactionID : N;
  ev_LSN : N
}.

#[export] Instance ChangeEvent_eq_dec : EqDecision ChangeEvent.
Proof. solve_decision. Defined.

(** ** errors.go *)

Definition NewTamperingError (tableName operation : string) : error :=
  Tampering tableName operation.

Definition TamperingError_Error (tableName operation : string) : string :=
  "TAMPERING DETECTED: " +:+ operation +:+ " operation on table " +:+ tableName.

(** The methods of [cdc.TamperingDetector], which only [TamperingError] has. *)
Definition IsTampering (err : error) : bool :=
  match err with Tampering _ _ => true | _ => false end.

Definition GetTableName (err : error) : option string :=
  match err with Tampering t _ => Some t | _ => None end.

Definition GetOperation (err : error) : option string :=
  match err with Tampering _ op => Some op | _ => None end.

(** The type assertion looks at the outermost error only. *)
Definition IsTamperingError (err : error) : bool :=
  match err with Tampering _ _ => true | _ => false end.

Definition AsTamperingError (err : error) : option (string * string) :=
  match err with Tampering t op => Some (t, op) | _ => None end.

(** ** handler.go *)

Record TableConfig := { tc_Name : string; tc_VerifyInterval : string }.

Definition name_start (a : Ascii.ascii) : bool :=
  in_range 97 122 a || in_range 65 90 a || Ascii.eqb a "_".

Definition name_char (a : Ascii.ascii) : bool := name_start a || is_digit a.

(** The regexp [^[a-zA-Z_][a-zA-Z0-9_]*$] *)
Definition validTableName (name : string) : bool :=
  match name with
  | "" => false
  | String a rest => name_start a && forallb name_char (String.list_ascii_of_string rest)
  end.

Definition tableConfigs : Type := gmap string TableConfig.

(** The map of a new handler; the store it is given is passed to each call. *)
Definition NewHashChainHandler : tableConfigs := ∅.

Definition AddTable (config : TableConfig) (h : tableConfigs) : result unit * tableConfigs :=
  if negb (validTableName (tc_Name config))
  then (Err (Errorf ("invalid table name: " +:+ tc_Name config)), h)
  else (Ok tt, <[tc_Name config := config]> h).

Section handler.
Context `{RO : RangeOrder} `{HF : HashFunction} `{B : Bolt}.

Definition is_update_or_delete (event : ChangeEvent) : bool :=
  bool_decide (ev_Operation event = OperationUpdate)
  || bool_decide (ev_Operation event = OperationDelete).

Definition calculateDataHash (data : gmap string GoValue) : string := CalculateDataHash data.

(** [latestEntry, _ := GetLatestHashEntry(table)] and the number after it,
    which is 1 when there is no latest entry. *)
Definition next_sequence (s : Storage B) (tableName : string) : result N :=
  match GetLatestHashEntry s tableName with
  | Ok latestEntry => Ok (u64_add (he_SequenceNum latestEntry) 1)
  | Err _ => Ok 1%N
  | Panic w => Panic w
  end.

Definition event_entry (now : Time) (seqNum : N) (event : ChangeEvent) : HashEntry := {|
  he_TableName := ev_TableName event; he_SequenceNum := seqNum;
  he_DataHash := calculateDataHash (ev_NewData event); he_Timestamp := now;
  he_OperationType := ev_Operation event; he_RecordID := sprint_map (ev_PrimaryKey event) |}.

Definition HandleChange (h : tableConfigs) (now : Time) (io : option error)
    (event : ChangeEvent) (s : Storage B) : result unit * Storage B :=
  match h !! ev_TableName event with
  | None => (Ok tt, s)
  | Some _ =>
      if is_update_or_delete event
      then (Err (NewTamperingError (ev_TableName event) (ev_Operation event)), s)
      else match next_sequence s (ev_TableName event) with
      | Ok seqNum => SaveHashEntry io (event_entry now seqNum event) s
      | Err e => (Err e, s)
      | Panic w => (Panic w, s)
      end
  end.

Definition VerifyHashChain (h : tableConfigs) (s : Storage B) (tableName : string) : result unit :=
  match h !! tableName with
  | None => Err (Errorf ("table not configured: " +:+ tableName))
  | Some _ =>
      match GetLatestHashEntry s tableName with
      | Ok _ => Ok tt
      | Err _ => Err (Errorf ("no hash entries found for table " +:+ tableName))
      | Panic w => Panic w
      end
  end.

(** ** handler_raft.go *)

Context `{R : RaftLib}.

Definition event_log_entry (now : Time) (seqNum : N) (event : ChangeEvent) : LogEntry := {|
  le_Type := LogEntryHashChain; le_TableName := ev_TableName event;
  le_Data := {[
    "sequence_num" := JNum (float64_of_Z (Z.of_N seqNum));
    "data_hash" := JStr (calculateDataHash (ev_NewData event));
    "operation_type" := JStr (ev_Operation event);
    "record_id" := JStr (sprint_map (ev_PrimaryKey event))]};
  le_Timestamp := now |}.

(** The node is nil when Raft is off. *)
Definition raft_HandleChange (h : tableConfigs) (now : Time) (io : option error)
    (event : ChangeEvent) (s : Storage B) (raftNode : option Node)
    : result unit * Storage B * option Node :=
  match h !! ev_TableName event with
  | None => (Ok tt, s, raftNode)
  | Some _ =>
      if is_update_or_delete event
      then (Err (NewTamperingError (ev_TableName event) (ev_Operation event)), s, raftNode)
      else match raftNode with
      | None => (HandleChange h now io event s, None)
      | Some n =>
          match h !! ev_TableName event with
          | None =>
              (Err (Errorf ("table not configured: " +:+ ev_TableName event)), s, raftNode)
          | Some _ =>
          match next_sequence s (ev_TableName event) with
          | Ok seqNum =>
              match ApplyLog (event_log_entry now seqNum event) n with
              | (Ok _, n') => (Ok tt, s, Some n')
              | (Err e, n') =>
                  if negb (IsLeader n') then (Ok tt, s, Some n')
                  else (Err (Wrap "failed to replicate via raft" e), s, Some n')
              | (Panic w, n') => (Panic w, s, Some n')
              end
          | Err e => (Err e, s, raftNode)
          | Panic w => (Panic w, s, raftNode)
          end
          end
      end
  end.
End handler.
