(* ===== verification/HandlerFacts.v ===== *)
(** * What the handlers do to the store, one event and many

    A single event on each branch; a run of inserts, which goes wrong after
    the tenth; and the same insert through Raft. *)

From Stdlib Require Import Ascii NArith ZArith Lia.
From S2P Require Import Prelude Bytes Json JsonFacts Codec Sha256 Hasher DataHash Bolt Keys Storage.
From S2P Require Import TableView StorageFacts BoltStore BoltStoreFacts AnyData Fsm Node FsmFacts.
From S2P Require Import Replication Handler.

(** ** Table names *)

(** A valid table name contains no colon. *)
Lemma validTableName_no_colon name : validTableName name = true -> no_colon name = true.
Proof.
  assert (forall a, name_char a = true -> Ascii.eqb a ":" = false) as Hc.
  { intros a Ha. destruct (Ascii.eqb_spec a ":") as [->|]; [by vm_compute in Ha|done]. }
  destruct name as [|a rest]; [done|]. simpl. intros [Ha Hr]%andb_prop.
  rewrite no_colon_cons, Hc by (unfold name_char; by rewrite Ha). simpl.
  unfold no_colon. apply forallb_forall. intros b Hb.
  rewrite forallb_forall in Hr. by rewrite Hc by auto.
Qed.

Definition changes_rows (event : ChangeEvent) : Prop :=
  ev_Operation event = OperationUpdate \/ ev_Operation event = OperationDelete.

#[export] Instance changes_rows_dec event : Decision (changes_rows event).
Proof. unfold changes_rows. apply _. Defined.

Lemma is_update_or_delete_spec event : is_update_or_delete event = true <-> changes_rows event.
Proof. unfold is_update_or_delete, changes_rows. rewrite orb_true_iff, !bool_decide_eq_true. done. Qed.

Lemma is_update_or_delete_decide event :
  is_update_or_delete event = bool_decide (changes_rows event).
Proof. apply eq_bool_prop_intro. rewrite !Is_true_true, bool_decide_eq_true. apply is_update_or_delete_spec. Qed.

Section handler_facts.
Context `{RO : RangeOrder} `{HF : HashFunction} {B : Bolt} {BL : BoltLaws B}.
Implicit Types (s : Storage B) (f : gmap N HashEntry).

(** The sequence number after the latest entry of a map. *)
Definition next_of f (seq : N) : Prop :=
  f = ∅ /\ seq = 1%N \/ exists n e, is_latest f n e /\ seq = u64_add (he_SequenceNum e) 1.

Lemma next_sequence_rep s t f :
  ready storage_buckets s -> table_rep (chain s) t f ->
  exists seq, next_sequence s t = Ok seq /\ next_of f seq.
Proof.
  intros Hs Hr. pose proof (GetLatestHashEntry_rep s t f Hs Hr) as H. unfold next_sequence.
  destruct (GetLatestHashEntry s t) as [e|e|w]; [|destruct H as [-> _]|done].
  - destruct H as [n Hn]. eexists. split; [done|]. right. eauto.
  - eexists. split; [done|]. by left.
Qed.

Lemma next_of_latest s t f n e :
  ready storage_buckets s -> table_rep (chain s) t f -> is_latest f n e ->
  next_sequence s t = Ok (u64_add (he_SequenceNum e) 1).
Proof.
  intros Hs Hr Hl. unfold next_sequence. by rewrite (GetLatestHashEntry_is s t f n e).
Qed.

Lemma next_of_empty s t :
  ready storage_buckets s -> table_rep (A := HashEntry) (chain s) t ∅ ->
  next_sequence s t = Ok 1%N.
Proof.
  intros Hs Hr. destruct (next_sequence_rep s t ∅ Hs Hr) as (seq & -> & [[_ ->]|(n & e & [H _] & _)]);
    [done|]. by rewrite lookup_empty in H.
Qed.

(** An insert that reaches the store. *)
Lemma HandleChange_insert h now io event s f seq :
  is_Some (h !! ev_TableName event) -> is_update_or_delete event = false ->
  ready storage_buckets s -> table_rep (chain s) (ev_TableName event) f ->
  next_sequence s (ev_TableName event) = Ok seq ->
  storable_entry (event_entry now seq event) ->
  let '(r, s') := HandleChange h now io event s in
  match io with
  | None => r = Ok tt /\ ready storage_buckets s'
      /\ table_rep (chain s') (ev_TableName event) (<[seq := event_entry now seq event]> f)
      /\ (forall t f', no_colon t = true -> t <> ev_TableName event ->
            table_rep (A := HashEntry) (chain s) t f' -> table_rep (chain s') t f')
  | Some _ => (exists e, r = Err e) /\ s' = s
  end.
Proof.
  intros [cfg Hc] Hop Hs Hr Hseq Hok. unfold HandleChange. rewrite Hc, Hop, Hseq.
  pose proof (SaveHashEntry_saves io (event_entry now seq event) s Hs Hok) as H.
  destruct (SaveHashEntry io _ s) as [r s']. destruct H as [[Hs' H] _].
  destruct r as [[]|e|w]; [|destruct H as [-> [e' ->]]; eauto|done].
  destruct H as (-> & Hsame & Hother). split_and!; [done..| |done].
  by apply (Hsame f).
Qed.

(** ** A run of inserts *)

Definition insert_all (h : tableConfigs) (evs : list (Time * ChangeEvent)) s : Storage B :=
  foldl (fun s te => (HandleChange h te.1 None te.2 s).2) s evs.

(** The number the code gives to the insert that follows [n] others. *)
Definition saturated (n : nat) : N := N.of_nat (Nat.min (S n) 10).

Definition insert_ok (t : string) (te : Time * ChangeEvent) : Prop :=
  ev_TableName te.2 = t /\ is_update_or_delete te.2 = false
  /\ Forall (fun n => storable_entry (event_entry te.1 (saturated n) te.2)) (seq 0 10).

#[export] Instance insert_ok_dec t te : Decision (insert_ok t te).
Proof. unfold insert_ok. apply _. Defined.

(** The map after [evs]. *)
Record inserted (evs : list (Time * ChangeEvent)) f : Prop := {
  inserted_keys : forall k, is_Some (f !! k) <-> (1 <= k <= N.of_nat (Nat.min (length evs) 10))%N;
  inserted_numbers : forall k e, f !! k = Some e -> he_SequenceNum e = k;
  inserted_first : forall i te, evs !! i = Some te -> i < 9 ->
    f !! N.of_nat (S i) = Some (event_entry te.1 (N.of_nat (S i)) te.2);
  inserted_last : forall te, last evs = Some te ->
    let k := N.of_nat (Nat.min (length evs) 10) in f !! k = Some (event_entry te.1 k te.2)
}.

Lemma inserted_nil : inserted [] ∅.
Proof.
  split; try done. intros k. rewrite lookup_empty. simpl. split; [by intros []|lia].
Qed.

(** The latest entry after [n] inserts is number [min n 9]. *)
Lemma inserted_latest evs f :
  inserted evs f -> evs <> [] ->
  exists e, is_latest f (N.of_nat (Nat.min (length evs) 9)) e
    /\ he_SequenceNum e = N.of_nat (Nat.min (length evs) 9).
Proof.
  intros [Hk Hn _ _] Hne. assert (1 <= length evs) as Hl by (destruct evs; simpl; [done|lia]).
  assert (is_Some (f !! N.of_nat (Nat.min (length evs) 9))) as [e He] by (apply Hk; lia).
  exists e. split; [|by apply Hn]. split; [done|]. intros k Hs. apply Hk in Hs.
  destruct (decide (length evs <= 9)).
  - apply seq_le_small; lia.
  - replace (Nat.min (length evs) 9) with 9 by lia. apply seq_le_nine. lia.
Qed.

Lemma inserted_snoc evs f te :
  inserted evs f ->
  let k := saturated (length evs) in
  inserted (evs ++ [te]) (<[k := event_entry te.1 k te.2]> f).
Proof.
  intros [Hk Hn Hf Hl] k. unfold saturated in k. split.
  - intros j. rewrite lookup_insert_is_Some, Hk, length_app. simpl. unfold k.
    destruct (decide (length evs < 10)); split; intros; destruct (decide (k = j)); lia.
  - intros j e [[<- <-]|[_ He]]%lookup_insert_Some; [done|by apply Hn].
  - intros i te' Hi Hi9. destruct (decide (i < length evs)) as [Hlt|Hge].
    + rewrite lookup_app_l in Hi by lia. rewrite lookup_insert_ne by (unfold k; lia). by apply Hf.
    + rewrite lookup_app_r in Hi by lia. apply list_lookup_singleton_Some in Hi as [Hi <-].
      assert (k = N.of_nat (S i)) as -> by (unfold k; lia). by rewrite lookup_insert_eq.
  - intros te' Hlast. rewrite last_snoc in Hlast. injection Hlast as <-.
    rewrite length_app. simpl. replace (length evs + 1) with (S (length evs)) by lia.
    fold k. by rewrite lookup_insert_eq.
Qed.

(** The number of the next insert. *)
Lemma inserted_next s t evs f :
  ready storage_buckets s -> table_rep (chain s) t f -> inserted evs f ->
  next_sequence s t = Ok (saturated (length evs)).
Proof.
  intros Hs Hr Hin. destruct (decide (evs = [])) as [->|Hne].
  - apply next_of_empty; [done|]. assert (f = ∅) as <-; [|done].
    apply map_empty. intros k. destruct (f !! k) eqn:E; [|done].
    assert (is_Some (f !! k)) as H by eauto. apply (inserted_keys _ _ Hin) in H. simpl in H. lia.
  - destruct (inserted_latest evs f Hin Hne) as (e & Hl & Hnum).
    rewrite (next_of_latest s t f _ e Hs Hr Hl), Hnum. f_equal.
    unfold u64_add, u64_wrap, saturated. rewrite N.mod_small by (unfold u64_modulus; simpl; lia).
    lia.
Qed.

Lemma insert_ok_storable t te n :
  insert_ok t te -> storable_entry (event_entry te.1 (saturated n) te.2).
Proof.
  intros (_ & _ & Hst). rewrite Forall_forall in Hst. destruct (decide (n < 10)).
  - apply Hst. rewrite elem_of_seq. lia.
  - replace (saturated n) with (saturated 9) by (unfold saturated; f_equal; lia).
    apply Hst. rewrite elem_of_seq. lia.
Qed.

Lemma insert_all_rep h t evs s :
  is_Some (h !! t) -> Forall (insert_ok t) evs ->
  ready storage_buckets s -> table_rep (A := HashEntry) (chain s) t ∅ ->
  exists f, ready storage_buckets (insert_all h evs s)
    /\ table_rep (chain (insert_all h evs s)) t f /\ inserted evs f.
Proof.
  intros Hc Hok Hs Hr. induction evs as [|te evs IH] using rev_ind.
  { exists ∅. split_and!; [done..|apply inserted_nil]. }
  apply Forall_app in Hok as [Hok [Hte _]%Forall_cons]. pose proof Hte as (Ht & Hop & _).
  destruct (IH Hok) as (f & Hs' & Hr' & Hin). unfold insert_all. rewrite foldl_app. simpl.
  fold (insert_all h evs s). set (s1 := insert_all h evs s) in *.
  exists (<[saturated (length evs) := event_entry te.1 (saturated (length evs)) te.2]> f).
  pose proof (inserted_next s1 t evs f Hs' Hr' Hin) as Hseq.
  pose proof (insert_ok_storable t te (length evs) Hte) as Hstor. subst t.
  pose proof (HandleChange_insert h te.1 None te.2 s1 f _ Hc Hop Hs' Hr' Hseq Hstor) as H.
  destruct (HandleChange h te.1 None te.2 s1) as [r s2].
  destruct H as (_ & Hs2 & Hr2 & _). split_and!; [done..|]. by apply inserted_snoc.
Qed.
End handler_facts.

(** ** The insert as a Raft log *)

Lemma hash_entry_of_event `{RO : RangeOrder} `{HF : HashFunction} `{FC : FloatConversion}
    now seq event :
  (seq <= 2 ^ 53)%N ->
  hash_entry_of (floated (event_log_entry now seq event)) = Ok (event_entry now seq event).
Proof.
  intros Hs. unfold hash_entry_of, floated, event_log_entry. simpl le_Data.
  rewrite !lookup_fmap. simplify_map_eq. simpl.
  rewrite !float64_of_Z_small by (rewrite ?float64_of_Z_small; lia).
  unfold uint64_of_float. rewrite decide_True by lia. by rewrite N2Z.id.
Qed.

Lemma event_log_entry_ok `{RO : RangeOrder} `{HF : HashFunction} now seq event :
  (seq <= 2 ^ 53)%N -> entry_ok (event_entry now seq event) ->
  log_entry_ok (event_log_entry now seq event).
Proof.
  intros Hs (Ht & _ & Hh & Hu & Hts & Hop & Hid). simpl in *. split_and!; [done|done| |done|done].
  intros k j Hk. simpl in Hk.
  assert (float64_range (float64_of_Z (Z.of_N seq)) = true) as Hr.
  { apply float64_range_64. rewrite float64_of_Z_small; lia. }
  repeat (apply lookup_insert_Some in Hk as [[<- <-]|[_ Hk]]; [by auto|]).
  by apply lookup_singleton_Some in Hk as [<- <-].
Qed.

(** The log of an insert, applied anywhere, saves the insert's entry. *)
Lemma event_log_applies `{RO : RangeOrder} `{HF : HashFunction} `{FC : FloatConversion}
    now seq event :
  (seq <= 2 ^ 53)%N -> entry_ok (event_entry now seq event) ->
  exists data, Marshal (event_log_entry now seq event) = Ok data
  /\ forall (B : Bolt) io log (s : Storage B), l_Data log = data ->
       Apply io log s = SaveHashEntry io (event_entry now seq event) s.
Proof.
  intros Hle Hok.
  destruct (LogEntry_round _ (event_log_entry_ok now seq event Hle Hok)) as (data & Hm & Hu).
  exists data. split; [done|]. intros B io log s Hd. unfold Apply. rewrite Hd, Hu. simpl le_Type.
  rewrite decide_True by done. unfold applyHashChain. by rewrite hash_entry_of_event.
Qed.

(** ** Examples for the witnesses *)

(** A hash function that is cheap to evaluate: the length of the text. *)
Definition length_hash_function : HashFunction.
Proof.
  refine {| hash s := EncodeToString (PutUint32 (N.of_nat (String.length s))); hash_width := 8 |}.
  - lia.
  - intros s. by rewrite length_EncodeToString, length_PutUint32.
Defined.

Definition users_config : tableConfigs :=
  {[ "users" := {| tc_Name := "users"; tc_VerifyInterval := "5m" |} ]}.

Definition user_event (op : string) (id : Z) (name : string) : ChangeEvent := {|
  ev_TableName := "users"; ev_Operation := op; ev_Timestamp := zero_time;
  ev_NewData := {[ "id" := VInt id; "name" := VString name ]}; ev_OldData := ∅;
  ev_PrimaryKey := {[ "id" := VInt id ]}; ev_TransactionID := 0; ev_LSN := 0 |}.

Definition noon : Time := "2024-05-06T12:00:00Z".

Definition twelve_inserts : list (Time * ChangeEvent) :=
  (fun i => (noon, user_event OperationInsert (Z.of_nat i) "someone")) <$> seq 1 12.

Lemma empty_store_chain :
  ready storage_buckets empty_storage
  /\ forall t, table_rep (A := HashEntry) (chain empty_storage) t ∅.
Proof. split; [split; by_decide|]. intros t. apply table_rep_empty. Qed.

(** ** Properties *)

(** C13: the handler on every branch.  An event of a table that is not
    configured changes nothing; an update or a delete of a configured table
    is a tampering error that names the table and the operation, and changes
    nothing; any other event stores the hash of the new row under the number
    after the latest entry, 1 for the first, or fails and changes nothing
    when the commit fails.  The entries of other tables are not touched. *)
Theorem HandleChange_spec {RO : RangeOrder} {HF : HashFunction} {B : Bolt} {BL : BoltLaws B}
    (h : tableConfigs) (now : Time) (io : option error) (event : ChangeEvent) (s : Storage B)
    (f : gmap N HashEntry) :
  ready storage_buckets s -> table_rep (chain s) (ev_TableName event) f ->
  let '(r, s') := HandleChange h now io event s in
  if decide (h !! ev_TableName event = None) then r = Ok tt /\ s' = s
  else if decide (changes_rows event)
  then r = Err (Tampering (ev_TableName event) (ev_Operation event)) /\ s' = s
  else exists seq, next_of f seq /\ (storable_entry (event_entry now seq event) ->
    match io with
    | Some _ => (exists e, r = Err e) /\ s' = s
    | None => r = Ok tt
        /\ table_rep (chain s') (ev_TableName event) (<[seq := event_entry now seq event]> f)
        /\ forall t f', no_colon t = true -> t <> ev_TableName event ->
             table_rep (A := HashEntry) (chain s) t f' -> table_rep (chain s') t f'
    end).
Proof.
  intros Hs Hr. destruct (HandleChange h now io event s) as [r s'] eqn:E.
  case_decide as Hc.
  { unfold HandleChange in E. rewrite Hc in E. by injection E as <- <-. }
  apply not_eq_None_Some in Hc.
  pose proof (is_update_or_delete_decide event) as Hop.
  destruct (decide (changes_rows event)) as [Hch|Hch].
  { rewrite bool_decide_eq_true_2 in Hop by done. unfold HandleChange in E. destruct Hc as [c Hc]. rewrite Hc, Hop in E. by injection E as <- <-. }
  rewrite bool_decide_eq_false_2 in Hop by done.
  destruct (next_sequence_rep s _ f Hs Hr) as (seq & Hseq & Hnext). exists seq. split; [done|].
  intros Hok. pose proof (HandleChange_insert h now io event s f seq Hc Hop Hs Hr Hseq Hok) as H.
  rewrite E in H. destruct io; [done|]. by destruct H as (? & _ & ? & ?).
Qed.

Theorem HandleChange_spec_witness :
  let event := user_event OperationInsert 1 "Alice" in
  let '(r, s') := HandleChange (RO := canonical_order) (HF := length_hash_function)
                    users_config noon None event empty_storage in
  if decide (users_config !! ev_TableName event = None) then r = Ok tt /\ s' = empty_storage
  else if decide (changes_rows event)
  then r = Err (Tampering (ev_TableName event) (ev_Operation event)) /\ s' = empty_storage
  else exists seq, next_of ∅ seq /\ (storable_entry (event_entry (RO := canonical_order)
                                       (HF := length_hash_function) noon seq event) ->
    r = Ok tt
    /\ table_rep (chain s') (ev_TableName event)
         (<[seq := event_entry (RO := canonical_order) (HF := length_hash_function)
                     noon seq event]> ∅)
    /\ forall t f', no_colon t = true -> t <> ev_TableName event ->
         table_rep (A := HashEntry) (chain empty_storage) t f' -> table_rep (chain s') t f').
Proof.
  apply (HandleChange_spec (RO := canonical_order) (HF := length_hash_function) (B := map_bolt)
    users_config noon None (user_event OperationInsert 1 "Alice") empty_storage ∅).
  - apply empty_store_chain.
  - apply empty_store_chain.
Defined.

(** C29: the hash chain of a table stops at ten entries.  After any number
    of inserts into a table that starts empty, the store holds
    [min n 10] entries for it: the first nine inserts under 1 to 9, and under
    10 the last insert, which has overwritten all those between.  The latest
    sequence number is found in the bytewise order of the keys, where 10
    comes before 9, so every insert after the ninth is number 10. *)
Theorem HandleChange_saturates {RO : RangeOrder} {HF : HashFunction} {B : Bolt} {BL : BoltLaws B}
    (h : tableConfigs) (t : string) (evs : list (Time * ChangeEvent)) (s : Storage B) :
  is_Some (h !! t) -> Forall (insert_ok t) evs ->
  ready storage_buckets s -> table_rep (A := HashEntry) (chain s) t ∅ ->
  exists f, table_rep (chain (insert_all h evs s)) t f
    /\ (forall k, is_Some (f !! k) <-> (1 <= k <= N.of_nat (Nat.min (length evs) 10))%N)
    /\ (forall i te, evs !! i = Some te -> i < 9 ->
          f !! N.of_nat (S i) = Some (event_entry te.1 (N.of_nat (S i)) te.2))
    /\ (forall te, last evs = Some te -> 10 <= length evs ->
          f !! 10%N = Some (event_entry te.1 10 te.2)).
Proof.
  intros Hc Hok Hs Hr. destruct (insert_all_rep h t evs s Hc Hok Hs Hr) as (f & _ & Hr' & Hin).
  exists f. destruct Hin as [Hk _ Hf Hl]. split_and!; [done..|].
  intros te Hte H10. specialize (Hl te Hte). cbv zeta in Hl.
  by replace (Nat.min (length evs) 10) with 10 in Hl by lia.
Qed.

Theorem HandleChange_saturates_witness :
  let s' := insert_all (RO := canonical_order) (HF := length_hash_function)
              users_config twelve_inserts empty_storage in
  exists f, table_rep (chain s') "users" f
    /\ (forall k, is_Some (f !! k) <-> (1 <= k <= 10)%N)
    /\ (forall i te, twelve_inserts !! i = Some te -> i < 9 ->
          f !! N.of_nat (S i) = Some (event_entry (RO := canonical_order)
            (HF := length_hash_function) te.1 (N.of_nat (S i)) te.2))
    /\ (forall te, last twelve_inserts = Some te -> 10 <= 12 ->
          f !! 10%N = Some (event_entry (RO := canonical_order) (HF := length_hash_function)
            te.1 10 te.2)).
Proof.
  apply (HandleChange_saturates (RO := canonical_order) (HF := length_hash_function)
    (B := map_bolt) users_config "users" twelve_inserts empty_storage).
  - by_decide.
  - by_decide.
  - apply empty_store_chain.
  - apply empty_store_chain.
Defined.

(** C22: an insert into a protected table through Raft, with a number of at
    most [2^53] and an entry JSON can hold.  The handler never writes to its
    own store.  On a node that is not the leader it returns nil and changes
    nothing, the entry will arrive through Raft.  When the leader's handler
    returns nil, either exactly one log was committed, and applying it on any
    node saves the very entry the local handler would have saved; or Raft
    failed to apply the log and the node was no longer the leader afterwards,
    in which case the failure is swallowed and nothing tells whether the
    insert is in any log.  An error is the wrapped failure to replicate, and
    there is no panic. *)
Theorem raft_HandleChange_replicates {RO : RangeOrder} {HF : HashFunction} {R : RaftLib}
    {RL : RaftLaws R} {FC : FloatConversion} {B : Bolt}
    (h : tableConfigs) (now : Time) (io : option error) (event : ChangeEvent) (s : Storage B)
    (n : Node) (r : Raft) (seq : N) :
  is_Some (h !! ev_TableName event) -> ~ changes_rows event ->
  node_raft n = Some r -> next_sequence s (ev_TableName event) = Ok seq ->
  (seq <= 2 ^ 53)%N -> entry_ok (event_entry now seq event) ->
  let '(res, s', n') := raft_HandleChange h now io event s (Some n) in
  s' = s /\
  if is_leader_state r then
    match res with
    | Ok _ => (exists r' data, n' = Some (set_raft n r') /\ committed r' = committed r ++ [data]
        /\ forall (B' : Bolt) (io' : option error) (log : Log) (s2 : Storage B'),
             l_Data log = data -> Apply io' log s2 = SaveHashEntry io' (event_entry now seq event) s2)
        \/ exists e r', raft_apply r (default "" (match Marshal (event_log_entry now seq event) with
                          | Ok d => Some d | _ => None end)) = (Some e, r')
             /\ is_leader_state r' = false
    | Err e => exists e', e = Wrap "failed to replicate via raft" e'
    | Panic _ => False
    end
  else res = Ok tt /\ n' = Some n.
Proof.
  intros [cfg Hc] Hop Hr Hseq Hle Hok.
  apply (bool_decide_eq_false_2 _) in Hop. rewrite <-is_update_or_delete_decide in Hop.
  destruct (event_log_applies now seq event Hle Hok) as (data & Hm & Happ).
  unfold raft_HandleChange. rewrite Hc, Hop, Hseq. unfold ApplyLog. rewrite Hr.
  destruct (is_leader_state r) eqn:Hl; cbn [negb].
  - rewrite Hm. cbn [wrap_err default]. destruct (raft_apply r data) as [[e|] r'] eqn:Ha.
    + unfold IsLeader. simpl. destruct (is_leader_state r') eqn:Hl'; simpl; [by eauto|].
      split; [done|]. right. eauto.
    + split; [done|]. left. exists r', data. split_and!; [done|by apply (apply_commits _ _ _ Ha)|].
      intros B' io' log s2. apply Happ.
  - unfold IsLeader. rewrite Hr, Hl. simpl. done.
Qed.

Theorem raft_HandleChange_replicates_witness :
  let event := user_event OperationInsert 1 "Alice" in
  let '(res, s', n') := raft_HandleChange (RO := canonical_order) (HF := length_hash_function)
        (R := list_raft) users_config noon None event empty_storage (Some leader_node) in
  s' = empty_storage /\
  match res with
  | Ok _ => (exists r' data, n' = Some (set_raft leader_node r') /\ committed r' = [] ++ [data]
      /\ forall (B' : Bolt) (io' : option error) (log : Log) (s2 : Storage B'),
           l_Data log = data -> Apply (H := zero_float) io' log s2
           = SaveHashEntry io' (event_entry (RO := canonical_order) (HF := length_hash_function)
               noon 1 event) s2)
      \/ exists e r', raft_apply (RaftLib := list_raft) (true, []) (default ""
           (match Marshal (event_log_entry (RO := canonical_order) (HF := length_hash_function)
                noon 1 event) with Ok d => Some d | _ => None end)) = (Some e, r')
           /\ is_leader_state r' = false
  | Err e => exists e', e = Wrap "failed to replicate via raft" e'
  | Panic _ => False
  end.
Proof.
  apply (raft_HandleChange_replicates (RO := canonical_order) (HF := length_hash_function)
    (R := list_raft) (FC := zero_float) (B := map_bolt) users_config noon None
    (user_event OperationInsert 1 "Alice") empty_storage leader_node (true, []) 1).
  - by_decide.
  - by_decide.
  - reflexivity.
  - by_vm.
  - by_decide.
  - by_decide.
Defined.
