(* ===== verification/Verifier.v ===== *)
(** * internal/verify/merkle_verifier.go: PostgreSQL against the hash chain

    [VerifyTable] compares the Merkle root of the rows PostgreSQL returns
    with the root of what the storage holds, and falls back on a comparison
    record by record.  PostgreSQL, reached through pgx, is an argument: each
    query of a run has its own answer, because the table may change between
    two.  A row is the list of its columns in the order of the field
    descriptions.  Printing is left out; the slices it takes are in range. *)

From Stdlib Require Import Ascii NArith ZArith Lia.
From S2P Require Import Prelude Bytes Json JsonFacts Codec Hasher HashTree DataHash Merkle.
From S2P Require Import MerkleCompare Bolt Keys Storage BoltStore AnyData Fsm Node Handler.

(** ** Record IDs *)

(** The text after the first [id:], which must leave at least one byte. *)
Fixpoint after_id (s : string) : option string :=
  match s with
  | "" => None
  | String a rest =>
      match strip "id:" s with
      | Some r => if decide (r = "") then None else Some r
      | None => after_id rest
      end
  end.

(** Up to the first bracket or space. *)
Fixpoint until_end (s : string) : string :=
  match s with
  | "" => ""
  | String a rest => if Ascii.eqb a "]" || Ascii.eqb a " " then "" else String a (until_end rest)
  end.

Definition extractIDFromRecordID (recordID : string) : string :=
  if Nat.ltb 7 (String.length recordID) && String.eqb (String.substring 0 4 recordID) "map[" then
    match after_id recordID with
    | Some r => until_end r
    | None => recordID
    end
  else recordID.

Definition quoteIdentifier (name : string) : string :=
  String dquote "" +:+ name +:+ String dquote "".

(** ** What PostgreSQL answers *)

Definition row : Type := list (string * GoValue).

(** The outcomes of [pgx.Connect], of [Query] and of [Values] on each row;
    [rows.Next] ends with the list. *)
Record PgAnswer := {
  pg_connect : option error;
  pg_query : option error;
  pg_rows : list (result row)
}.

Local Open Scope witnz_scope.

(** Connects and queries. *)
Definition pg_open (pg : PgAnswer) : result (list (result row)) :=
  match pg_connect pg with
  | Some e => Err (Wrap "failed to connect to database" e)
  | None =>
      match pg_query pg with
      | Some e => Err (Wrap "failed to query table" e)
      | None => Ok (pg_rows pg)
      end
  end.

(** The loop over the columns of a row: the record and the text of its last
    column named id. *)
Definition scan_row (r : row) : gmap string GoValue * string :=
  foldl (fun acc fv =>
    (<[fv.1 := fv.2]> acc.1, if decide (fv.1 = "id") then sprint_v fv.2 else acc.2)) (∅, "") r.

Section verifier.
Context `{RO : RangeOrder} `{HF : HashFunction} `{B : Bolt} `{R : RaftLib}.

(** The storage and the Raft node of a verifier. *)
Record VState := { vs_storage : Storage B; vs_node : option Node }.

Fixpoint pg_tree_loop (rows : list (result row)) (builder : MerkleTreeBuilder) (recordCount : nat)
    : result (MerkleTreeBuilder * nat) :=
  match rows with
  | [] => Ok (builder, recordCount)
  | values :: rest =>
      let! r := wrap_err "failed to scan row" values in
      let '(recordData, recordID) := scan_row r in
      match AddLeaf builder recordID recordData with
      | (Ok _, builder') => pg_tree_loop rest builder' (S recordCount)
      | (Err e, _) => Err (Wrap "failed to add leaf" e)
      | (Panic w, _) => Panic w
      end
  end.

(** [builder.Build()] and its error. *)
Definition build_tree (msg : string) (builder : MerkleTreeBuilder) : result MerkleTreeBuilder :=
  match Build builder with
  | (Ok _, builder') => Ok builder'
  | (Err e, _) => Err (Wrap msg e)
  | (Panic w, _) => Panic w
  end.

Definition calculateCurrentMerkleRootFromPG (pg : PgAnswer)
    : result (string * nat * option MerkleTreeBuilder) :=
  let! rows := pg_open pg in
  let! (builder, recordCount) := pg_tree_loop rows NewMerkleTreeBuilder 0 in
  if decide (recordCount = 0) then Ok ("", 0, None)
  else
    let! builder' := build_tree "failed to build tree" builder in
    Ok (GetRoot builder', recordCount, Some builder').

Definition calculateMerkleRootFromCheckpoint (s : Storage B) (tableName : string)
    (checkpoint : MerkleCheckpoint) : result (string * nat) :=
  let leafMap := foldl (fun m kv => <[kv.1 := kv.2]> m) ∅ (range_map 6 (mc_LeafMap checkpoint)) in
  let! entries := wrap_err "failed to get hash entries" (GetAllHashEntries s tableName) in
  let leafMap := foldl (fun m entry =>
      if decide (mc_SequenceNum checkpoint < he_SequenceNum entry)%N
      then <[he_RecordID entry := he_DataHash entry]> m else m) leafMap entries in
  let builder := foldl (fun b kv => AddLeafHash b kv.1 kv.2) NewMerkleTreeBuilder
      (range_map 7 leafMap) in
  let! builder' := build_tree "failed to build Merkle Tree" builder in
  Ok (GetRoot builder', size leafMap).

(** The root of all entries. *)
Definition full_scan (s : Storage B) (tableName : string) : result (string * nat) :=
  let! entries := wrap_err "failed to get hash entries from BoltDB"
                    (GetAllHashEntries s tableName) in
  if decide (length entries = 0) then Ok ("", 0)
  else
    let builder := foldl (fun b entry => AddLeafHash b (he_RecordID entry) (he_DataHash entry))
        NewMerkleTreeBuilder entries in
    let! builder' := build_tree "failed to build Merkle Tree from BoltDB" builder in
    Ok (GetRoot builder', length entries).

(** The latest checkpoint, if it has a leaf map. *)
Definition leaf_checkpoint (s : Storage B) (tableName : string)
    : result (option MerkleCheckpoint) :=
  match GetLatestMerkleCheckpoint s tableName with
  | Ok checkpoint =>
      Ok (if decide (0 < size (mc_LeafMap checkpoint)) then Some checkpoint else None)
  | Err _ => Ok None
  | Panic w => Panic w
  end.

Definition calculateMerkleRootFromBoltDB (s : Storage B) (tableName : string)
    : result (string * nat) :=
  let! checkpoint := leaf_checkpoint s tableName in
  match checkpoint with
  | Some checkpoint => calculateMerkleRootFromCheckpoint s tableName checkpoint
  | None => full_scan s tableName
  end.

(** ** Checkpoints *)

(** [globalHasher] is the hasher [GetHasher] reads. *)
Definition new_checkpoint (globalHasher : option Hasher) (now : Time) (s : Storage B)
    (tableName merkleRoot : string) (recordCount : nat) (tree : option MerkleTreeBuilder)
    : result MerkleCheckpoint :=
  let! seqNum := match GetLatestHashEntry s tableName with
    | Ok latestEntry => Ok (he_SequenceNum latestEntry)
    | Err _ => Ok 0%N
    | Panic w => Panic w
    end in
  Ok {| mc_TableName := tableName; mc_SequenceNum := seqNum; mc_MerkleRoot := merkleRoot;
        mc_Timestamp := now; mc_RecordCount := Z.of_nat recordCount;
        mc_HashAlgorithm := Name (GetHasher globalHasher);
        mc_LeafMap := match tree with Some t => GetLeafMap t | None => ∅ end;
        mc_InternalNodes := match tree with Some t => GetInternalNodes t | None => ∅ end |}.

Definition createCheckpointWithTree (globalHasher : option Hasher) (now : Time)
    (io : option error) (st : VState) (tableName merkleRoot : string) (recordCount : nat)
    (tree : option MerkleTreeBuilder) : result unit * VState :=
  match new_checkpoint globalHasher now (vs_storage st) tableName merkleRoot recordCount tree with
  | Err e => (Err e, st)
  | Panic w => (Panic w, st)
  | Ok checkpoint =>
      match vs_node st with
      | Some raftNode =>
          if IsLeader raftNode then
            let '(r, n') := ApplyCheckpoint checkpoint raftNode in
            (wrap_err "failed to replicate checkpoint via Raft" r,
             {| vs_storage := vs_storage st; vs_node := Some n' |})
          else
            let '(r, s') := SaveMerkleCheckpoint io checkpoint (vs_storage st) in
            (wrap_err "failed to save checkpoint" r, {| vs_storage := s'; vs_node := vs_node st |})
      | None =>
          let '(r, s') := SaveMerkleCheckpoint io checkpoint (vs_storage st) in
          (wrap_err "failed to save checkpoint" r, {| vs_storage := s'; vs_node := vs_node st |})
      end
  end.

Definition createCheckpoint (globalHasher : option Hasher) (now : Time) (io : option error)
    (st : VState) (tableName merkleRoot : string) (recordCount : nat) : result unit * VState :=
  createCheckpointWithTree globalHasher now io st tableName merkleRoot recordCount None.

(** ** Detailed verification *)

(** [ids] has the same keys as [leafMap] in both builders of leaf maps. *)
Definition buildLeafMapFromBoltDB (s : Storage B) (tableName : string)
    : result (gmap string string * gmap string bool) :=
  let! entries := GetAllHashEntries s tableName in
  Ok (foldl (fun acc entry =>
        let id := extractIDFromRecordID (he_RecordID entry) in
        (<[id := he_DataHash entry]> acc.1, <[id := true]> acc.2)) (∅, ∅) entries).

Fixpoint pg_leaf_loop (rows : list (result row)) (leafMap : gmap string string)
    (ids : gmap string bool) (builder : MerkleTreeBuilder)
    : result (gmap string string * gmap string bool * MerkleTreeBuilder) :=
  match rows with
  | [] => Ok (leafMap, ids, builder)
  | values :: rest =>
      let! r := wrap_err "failed to scan row" values in
      let '(recordData, idValue) := scan_row r in
      let dataHash := CalculateDataHash recordData in
      pg_leaf_loop rest (<[idValue := dataHash]> leafMap) (<[idValue := true]> ids)
        (AddLeafHash builder (sprint_map recordData) dataHash)
  end.

Definition buildLeafMapFromPostgreSQL (pg : PgAnswer)
    : result (gmap string string * gmap string bool * string) :=
  let! rows := pg_open pg in
  let! (leafMap, ids, builder) := pg_leaf_loop rows ∅ ∅ NewMerkleTreeBuilder in
  if decide (0 < size leafMap) then
    let! builder' := build_tree "failed to build tree" builder in
    Ok (leafMap, ids, GetRoot builder')
  else Ok (leafMap, ids, "").

(** [!m[id]]: an absent key is false. *)
Definition not_in (m : gmap string bool) (id : string) : bool := negb (default false (m !! id)).

(** The ids of the range over [from] that [in_] lacks. *)
Definition missing_ids (site : nat) (from in_ : gmap string bool) : list string :=
  foldl (fun l kv => if not_in in_ kv.1 then l ++ [kv.1] else l) [] (range_map site from).

(** A copy of [m] without the given ids. *)
Definition without (site : nat) (m : gmap string string) (ids : list string) : gmap string string :=
  foldl (fun acc kv => if existsb (String.eqb kv.1) ids then acc else <[kv.1 := kv.2]> acc) ∅
    (range_map site m).

Definition modified_message (diff : DifferingRecord) : result string :=
  let hashLen := Nat.min 16 (Nat.min (String.length (ExpectedHash diff))
                                     (String.length (ActualHash diff))) in
  let! e := go_slice (ExpectedHash diff) 0 hashLen in
  let! a := go_slice (ActualHash diff) 0 hashLen in
  Ok ("data modified: id=" +:+ RecordID diff +:+ ", expected hash=" +:+ e
      +:+ "..., actual hash=" +:+ a +:+ "...").

Fixpoint modified_messages (skip : list string) (diffs : list DifferingRecord)
    : result (list string) :=
  match diffs with
  | [] => Ok []
  | diff :: rest =>
      if existsb (String.eqb (RecordID diff)) skip then modified_messages skip rest
      else if String.eqb (Type_ diff) "modified" then
        let! msg := modified_message diff in
        let! msgs := modified_messages skip rest in
        Ok (msg :: msgs)
      else modified_messages skip rest
  end.

(** The messages of [performDetailedVerification], in its order. *)
Definition tampered_records (expectedLeafMap : gmap string string) (boltdbIDs : gmap string bool)
    (actualLeafMap : gmap string string) (pgIDs : gmap string bool) : result (list string) :=
  let phantomInserts := missing_ids 8 pgIDs boltdbIDs in
  let deletedRecords := missing_ids 9 boltdbIDs pgIDs in
  let adjustedActualMap := without 10 actualLeafMap phantomInserts in
  let adjustedExpectedMap := without 11 expectedLeafMap deletedRecords in
  let differingRecords := CompareLeafMaps adjustedExpectedMap adjustedActualMap in
  let! msgs := modified_messages (phantomInserts ++ deletedRecords) differingRecords in
  Ok (((fun id => "found extra record in DB not in hash chain (Phantom Insert): id=" +:+ id)
         <$> phantomInserts)
      ++ ((fun id => "record deleted: id=" +:+ id) <$> deletedRecords) ++ msgs).

Definition tampering_error (n : nat) : error :=
  Errorf ("🚨 CRITICAL: PostgreSQL tampering detected! Found " +:+ pretty n +:+ " tampered records").

(** The tampered records, the root and the number of the rows. *)
Definition detailed_records (pg : PgAnswer) (s : Storage B) (tableName : string)
    : result (list string * string * nat) :=
  let! (expectedLeafMap, boltdbIDs) := wrap_err "failed to build expected leaf map"
      (buildLeafMapFromBoltDB s tableName) in
  let! (actualLeafMap, pgIDs, newMerkleRoot) := wrap_err "failed to build actual leaf map"
      (buildLeafMapFromPostgreSQL pg) in
  let! tamperedRecords := tampered_records expectedLeafMap boltdbIDs actualLeafMap pgIDs in
  Ok (tamperedRecords, newMerkleRoot, size actualLeafMap).

Definition performDetailedVerification (globalHasher : option Hasher) (now : Time)
    (io : option error) (pg : PgAnswer) (st : VState) (tableName : string)
    : result unit * VState :=
  match detailed_records pg (vs_storage st) tableName with
  | Err e => (Err e, st)
  | Panic w => (Panic w, st)
  | Ok (tamperedRecords, newMerkleRoot, count) =>
      if decide (0 < length tamperedRecords)
      then (Err (tampering_error (length tamperedRecords)), st)
      else createCheckpoint globalHasher now io st tableName newMerkleRoot count
  end.

(** ** VerifyTable: [pg1] answers the first query, [pg2] that of the detailed
    verification. *)
Definition VerifyTable (globalHasher : option Hasher) (now : Time) (io : option error)
    (pg1 pg2 : PgAnswer) (st : VState) (tableName : string) : result unit * VState :=
  let roots :=
    let! (actualMerkleRoot, pgRecordCount, pgTree) :=
        wrap_err "failed to calculate actual Merkle Root from PostgreSQL"
          (calculateCurrentMerkleRootFromPG pg1) in
    let! (expectedMerkleRoot, boltdbRecordCount) :=
        wrap_err "failed to calculate expected Merkle Root from BoltDB"
          (calculateMerkleRootFromBoltDB (vs_storage st) tableName) in
    Ok (actualMerkleRoot, pgRecordCount, pgTree, expectedMerkleRoot, boltdbRecordCount) in
  match roots with
  | Err e => (Err e, st)
  | Panic w => (Panic w, st)
  | Ok (actualMerkleRoot, pgRecordCount, pgTree, expectedMerkleRoot, boltdbRecordCount) =>
      if decide (boltdbRecordCount = 0)
      then createCheckpointWithTree globalHasher now io st tableName actualMerkleRoot
             pgRecordCount pgTree
      else if decide (actualMerkleRoot = expectedMerkleRoot /\ pgRecordCount = boltdbRecordCount)
      then createCheckpointWithTree globalHasher now io st tableName actualMerkleRoot
             pgRecordCount pgTree
      else performDetailedVerification globalHasher now io pg2 st tableName
  end.

(** ** The table list and the loops *)

Definition verifier_AddTable (config : TableConfig) (tables : list TableConfig)
    : result unit * list TableConfig :=
  if negb (validTableName (tc_Name config))
  then (Err (Errorf ("invalid table name: " +:+ tc_Name config)), tables)
  else (Ok tt, tables ++ [config]).

(** The node is nil until [SetRaftNode]. *)
Definition NewMerkleVerifier (store : Storage B) : VState :=
  {| vs_storage := store; vs_node := None |}.

Definition SetRaftNode (node : option Node) (st : VState) : VState :=
  {| vs_storage := vs_storage st; vs_node := node |}.

Record verify_env := {
  env_now : Time;
  env_io : option error;
  env_pg1 : PgAnswer;
  env_pg2 : PgAnswer
}.

Definition verify_in (globalHasher : option Hasher) (env : verify_env) (tableName : string)
    (st : VState) : result unit * VState :=
  VerifyTable globalHasher (env_now env) (env_io env) (env_pg1 env) (env_pg2 env) st tableName.

(** [Start] verifies every table once, whatever the outcome, and then parses
    the intervals; it returns the tables whose periodic loop it started.
    [parse] is [time.ParseDuration]; [verify_env] is the world during one
    call of [VerifyTable]: the clock, the outcome of the write to the local
    store and the answers to the two queries. *)
Fixpoint start_intervals (parse : string -> result Z) (tables : list TableConfig)
    : result (list (string * Z)) :=
  match tables with
  | [] => Ok []
  | table :: rest =>
      if decide (tc_VerifyInterval table = "") then start_intervals parse rest
      else
        let! interval := wrap_err ("invalid verify_interval for " +:+ tc_Name table)
                           (parse (tc_VerifyInterval table)) in
        let! started := start_intervals parse rest in
        Ok ((tc_Name table, interval) :: started)
  end.

Fixpoint startup_verification (globalHasher : option Hasher) (env : string -> verify_env)
    (tables : list TableConfig) (st : VState) : result unit * VState :=
  match tables with
  | [] => (Ok tt, st)
  | table :: rest =>
      match verify_in globalHasher (env (tc_Name table)) (tc_Name table) st with
      | (Panic w, st') => (Panic w, st')
      | (_, st') => startup_verification globalHasher env rest st'
      end
  end.

Definition verifier_Start (globalHasher : option Hasher) (parse : string -> result Z)
    (env : string -> verify_env) (tables : list TableConfig) (st : VState)
    : result (list (string * Z)) * VState :=
  let '(r, st) := startup_verification globalHasher env tables st in
  (let! _ := r in start_intervals parse tables, st).

(** One goroutine of [runPeriodicVerification]: a ticker fires in some world,
    until a stop.  A ticker panics when its interval is not positive; a panic
    of a verification ends the process. *)
Inductive verify_event : Type :=
  | VTick (env : verify_env)
  | VStop.

Fixpoint verify_loop (globalHasher : option Hasher) (tableName : string)
    (events : list verify_event) (st : VState) : list (result unit) * VState :=
  match events with
  | [] | VStop :: _ => ([], st)
  | VTick env :: rest =>
      match verify_in globalHasher env tableName st with
      | (Panic w, st') => ([Panic w], st')
      | (r, st') =>
          let '(rs, st'') := verify_loop globalHasher tableName rest st' in
          (r :: rs, st'')
      end
  end.

Definition runPeriodicVerification (globalHasher : option Hasher) (tableName : string)
    (interval : Z) (events : list verify_event) (st : VState)
    : result (list (result unit)) * VState :=
  if decide (interval <= 0)%Z then (Panic "non-positive interval for NewTicker", st)
  else let '(rs, st') := verify_loop globalHasher tableName events st in (Ok rs, st').

(** Closes the stop channel, once, and waits for the loops: none is left. *)
Definition verifier_Stop (loops : list (string * Z)) (stopped : bool)
    : result (list (string * Z)) * bool :=
  if stopped then (Panic "close of closed channel", true) else (Ok [], true).
End verifier.
Arguments VState B R : clear implicits, rename.
