(* ===== verification/VerifierFacts.v ===== *)
(** * What the verification detects

    The detailed verification is exact: it fails if and only if the leaf map
    of the stored entries and that of PostgreSQL differ, and counts the
    differing records.  The properties say what that gives [VerifyTable], and
    where it falls short: checkpointed rows, the tenth entry, record IDs. *)

From Stdlib Require Import NArith ZArith Lia.
From S2P Require Import Prelude Bytes Json JsonFacts Codec Sha256 Hasher HashTree DataHash Merkle.
From S2P Require Import MerkleFacts MerkleCompare Bolt Keys Storage TableView StorageFacts.
From S2P Require Import BoltStore AnyData Fsm Node FsmFacts Replication Handler HandlerFacts.
From S2P Require Import Verifier.

(** ** The messages of the detailed verification *)

Section detailed.
Context `{RO : RangeOrder}.
Implicit Types (e a m : gmap string string) (ids : gmap string bool).

(** [ids] says true for exactly the keys of [m]. *)
Definition ids_of ids m : Prop := forall k, ids !! k = (fun _ => true) <$> m !! k.

Lemma not_in_spec ids m k : ids_of ids m -> not_in ids k = bool_decide (m !! k = None).
Proof. intros H. unfold not_in. rewrite H. by destruct (m !! k). Qed.

Lemma missing_ids_spec site from in_ mf mi :
  ids_of from mf -> ids_of in_ mi ->
  NoDup (missing_ids site from in_)
  /\ forall k, k ∈ missing_ids site from in_ <-> is_Some (mf !! k) /\ mi !! k = None.
Proof.
  intros Hf Hi. assert (missing_ids site from in_
    = filter (fun k => mi !! k = None) (range_map site from).*1) as ->.
  { unfold missing_ids. assert (forall l acc,
      foldl (fun l (kv : string * bool) => if not_in in_ kv.1 then l ++ [kv.1] else l) acc l
      = acc ++ filter (fun k => mi !! k = None) l.*1) as H; [|apply H].
    induction l as [|[k b] l IH]; intros acc; [by rewrite app_nil_r|].
    cbn [foldl]. rewrite fmap_cons, filter_cons, IH. simpl. rewrite (not_in_spec _ mi) by done.
    case_bool_decide; case_decide; try done. by rewrite <-app_assoc. }
  split; [apply NoDup_filter, NoDup_fst_range_map|].
  intros k. rewrite list_elem_of_filter, list_elem_of_fmap. split.
  - intros [Hn ([k' b] & -> & Hin%elem_of_range_map)]. split; [|done].
    rewrite Hf in Hin. simpl in *. destruct (mf !! k'); [eauto|done].
  - intros [[v Hv] Hn]. split; [done|]. exists (k, true). split; [done|].
    apply elem_of_range_map. by rewrite Hf, Hv.
Qed.

Lemma existsb_elem k l : existsb (String.eqb k) l = bool_decide (k ∈ l).
Proof.
  apply eq_true_iff_eq. rewrite bool_decide_eq_true, existsb_exists. split.
  - intros (x & Hx & E%String.eqb_eq). subst. by apply list_elem_of_In.
  - intros Hk. exists k. rewrite String.eqb_eq. by rewrite <-list_elem_of_In.
Qed.

Lemma without_lookup site m l k :
  without site m l !! k = if decide (k ∈ l) then None else m !! k.
Proof.
  unfold without. assert (forall r (acc : gmap string string), NoDup r.*1 ->
    foldl (fun acc kv => if existsb (String.eqb kv.1) l then acc else <[kv.1 := kv.2]> acc) acc r !! k
    = match (list_to_map r : gmap string string) !! k with
      | Some v => if decide (k ∈ l) then acc !! k else Some v
      | None => acc !! k
      end) as H.
  { induction r as [|[k' v] r IH]; intros acc Hnd; [simpl; by rewrite lookup_empty|].
    rewrite fmap_cons in Hnd. apply NoDup_cons in Hnd as [Hk Hnd]. cbn [foldl fst snd].
    rewrite IH, list_to_map_cons, existsb_elem by done.
    destruct (decide (k' = k)) as [->|Hne].
    - rewrite lookup_insert_eq, not_elem_of_list_to_map_1 by done.
      case_bool_decide; case_decide; try done. by rewrite lookup_insert_eq.
    - rewrite lookup_insert_ne by done. case_bool_decide; [done|].
      by rewrite lookup_insert_ne. }
  rewrite H by apply NoDup_fst_range_map. rewrite list_to_map_range_map, lookup_empty.
  case_decide; [by destruct (m !! k)|by destruct (m !! k)].
Qed.

Lemma modified_message_Ok d : exists msg, modified_message d = Ok msg.
Proof.
  unfold modified_message, go_slice. set (n := Nat.min 16 _).
  rewrite !decide_True by lia. rewrite !Ok_bind. eauto.
Qed.

Lemma modified_messages_all skip diffs :
  Forall (fun d => RecordID d ∉ skip /\ Type_ d = "modified") diffs ->
  exists msgs, modified_messages skip diffs = Ok msgs /\ length msgs = length diffs.
Proof.
  induction 1 as [|d diffs [Hs Ht] Hd (msgs & Hm & Hl)]; [by exists []|].
  cbn [modified_messages]. rewrite existsb_elem, bool_decide_eq_false_2, Ht by done.
  destruct (modified_message_Ok d) as [msg ->]. rewrite Hm. simpl.
  exists (msg :: msgs). split; [done|]. simpl. by rewrite Hl.
Qed.

(** The number of messages is the number of differing records. *)
Lemma tampered_records_exact e eids a aids :
  ids_of eids e -> ids_of aids a ->
  exists msgs l, tampered_records e eids a aids = Ok msgs
    /\ exact_differences e a l /\ length msgs = length l.
Proof.
  intros He Ha. unfold tampered_records.
  destruct (missing_ids_spec 8 aids eids a e Ha He) as [Hpnd Hp].
  destruct (missing_ids_spec 9 eids aids e a He Ha) as [Hdnd Hd].
  set (ph := missing_ids 8 aids eids) in *. set (del := missing_ids 9 eids aids) in *.
  set (a' := without 10 a ph). set (e' := without 11 e del).
  destruct (CompareLeafMaps_exact e' a') as [Hnd Hx]. set (D := CompareLeafMaps e' a') in *.
  assert (forall r, difference_at e' a' (RecordID r) = Some r <->
    exists x y, e !! RecordID r = Some x /\ a !! RecordID r = Some y /\ x <> y
      /\ r = modified (RecordID r) x y) as HD.
  { intros r. unfold difference_at, e', a'. rewrite !without_lookup.
    destruct (e !! RecordID r) as [x|] eqn:Ee, (a !! RecordID r) as [y|] eqn:Ea.
    - assert (RecordID r ∉ del) as Hnd' by (rewrite Hd, Ea; by intros [_ ?]).
      assert (RecordID r ∉ ph) as Hnp by (rewrite Hp, Ee; by intros [_ ?]).
      destruct (decide (RecordID r ∈ del)); [done|]. destruct (decide (RecordID r ∈ ph)); [done|].
      case_decide; split; [done|by intros (? & ? & [= <-] & [= <-] & ? & _)| |].
      + intros E. injection E as E. exists x, y. by split_and!.
      + intros (? & ? & [= <-] & [= <-] & _ & Er). by f_equal.
    - assert (RecordID r ∈ del) as Hin by (apply Hd; eauto).
      destruct (decide (RecordID r ∈ del)); [|done].
      destruct (decide (RecordID r ∈ ph)); split; try done; intros (? & ? & ? & ? & _); done.
    - assert (RecordID r ∈ ph) as Hin by (apply Hp; eauto).
      destruct (decide (RecordID r ∈ ph)); [|done].
      destruct (decide (RecordID r ∈ del)); split; try done; intros (? & ? & ? & ? & _); done.
    - destruct (decide (RecordID r ∈ ph)), (decide (RecordID r ∈ del));
        split; try done; intros (? & ? & ? & ? & _); done. }
  destruct (modified_messages_all (ph ++ del) D) as (msgs & -> & Hlen).
  { apply Forall_forall. intros r (x & y & Hex & Hay & _ & Er)%Hx%HD. split; [|by rewrite Er].
    rewrite elem_of_app, Hp, Hd, Hex, Hay. by intros [[_ ?]|[_ ?]]. }
  rewrite Ok_bind. eexists _, (((fun k => missing_in_expected k (default "" (a !! k))) <$> ph)
    ++ ((fun k => missing_in_actual k (default "" (e !! k))) <$> del) ++ D).
  split; [done|]. split; [|by rewrite !length_app, !length_fmap, Hlen]. split.
  - rewrite !fmap_app, <-!list_fmap_compose.
    rewrite (list_fmap_ext _ id ph), (list_fmap_ext _ id del), !list_fmap_id by done.
    apply NoDup_app. split; [done|]. split.
    + intros k [_ Hk]%Hp. rewrite elem_of_app, Hd, list_elem_of_fmap.
      intros [[[v Hv] _]|(r & -> & (x & y & Hex & _)%Hx%HD)]; congruence.
    + apply NoDup_app. split; [done|]. split; [|done].
      intros k [_ Hk]%Hd (r & -> & (x & y & _ & Hay & _)%Hx%HD)%list_elem_of_fmap. congruence.
  - intros r. rewrite !elem_of_app, Hx, HD, !list_elem_of_fmap. split.
    + intros [(k & -> & [[y Hy] Hk]%Hp)|[(k & -> & [[x Hk] Hy]%Hd)|(x & y & Hex & Hay & Hne & Er)]].
      * simpl. unfold difference_at. by rewrite Hk, Hy.
      * simpl. unfold difference_at. by rewrite Hk, Hy.
      * unfold difference_at. rewrite Hex, Hay, decide_False by done. by rewrite Er at 2.
    + unfold difference_at. intros Hr.
      destruct (e !! RecordID r) as [x|] eqn:Ee, (a !! RecordID r) as [y|] eqn:Ea; try done.
      * case_decide; [done|]. right; right. exists x, y. by injection Hr as <-.
      * right; left. exists (RecordID r). rewrite Ee. injection Hr as <-. split; [done|].
        apply Hd. eauto.
      * left. exists (RecordID r). rewrite Ea. injection Hr as <-. split; [done|].
        apply Hp. eauto.
Qed.
End detailed.

(** ** The two leaf maps *)

Section verify_facts.
Context `{RO : RangeOrder} `{HF : HashFunction} {B : Bolt} {BL : BoltLaws B} {R : RaftLib}.
Implicit Types (st : VState B R) (pg : PgAnswer) (rs : list row).

Definition row_data (r : row) : gmap string GoValue := (scan_row r).1.
Definition row_id (r : row) : string := (scan_row r).2.
Definition row_hash (r : row) : string := CalculateDataHash (row_data r).

(** PostgreSQL answers every query with these rows. *)
Definition answers pg rs : Prop :=
  pg_connect pg = None /\ pg_query pg = None /\ pg_rows pg = Ok <$> rs.

Definition pg_map rs : gmap string string :=
  foldl (fun m r => <[row_id r := row_hash r]> m) ∅ rs.

Definition bolt_map (entries : list HashEntry) : gmap string string :=
  foldl (fun m e => <[extractIDFromRecordID (he_RecordID e) := he_DataHash e]> m) ∅ entries.

Lemma scan_row_pair r : scan_row r = (row_data r, row_id r).
Proof. apply surjective_pairing. Qed.

Lemma ids_of_insert ids m k v : ids_of ids m -> ids_of (<[k := true]> ids) (<[k := v]> m).
Proof.
  intros H k'. destruct (decide (k = k')) as [->|Hne]; [by rewrite !lookup_insert_eq|].
  by rewrite !lookup_insert_ne.
Qed.

Lemma pg_leaf_loop_rows rs m ids b :
  ids_of ids m ->
  exists ids' b', pg_leaf_loop (Ok <$> rs) m ids b
    = Ok (foldl (fun m r => <[row_id r := row_hash r]> m) m rs, ids', b')
  /\ ids_of ids' (foldl (fun m r => <[row_id r := row_hash r]> m) m rs)
  /\ leaves b' = leaves b ++ (row_hash <$> rs).
Proof.
  revert m ids b. induction rs as [|r rs IH]; intros m ids b Hids.
  { exists ids, b. rewrite app_nil_r. done. }
  rewrite fmap_cons. cbn [pg_leaf_loop wrap_err foldl]. rewrite Ok_bind.
  rewrite scan_row_pair. cbn beta iota zeta. fold (row_hash r).
  destruct (IH (<[row_id r := row_hash r]> m) (<[row_id r := true]> ids)
    (AddLeafHash b (sprint_map (row_data r)) (row_hash r))) as (ids' & b' & -> & Hi & Hl);
    [by apply ids_of_insert|].
  exists ids', b'. split_and!; [done..|]. rewrite Hl. unfold AddLeafHash. simpl.
  by rewrite <-app_assoc.
Qed.

Lemma pg_tree_loop_rows rs b n :
  exists b', pg_tree_loop (Ok <$> rs) b n = Ok (b', n + length rs)
    /\ leaves b' = leaves b ++ (row_hash <$> rs)
    /\ leafDataMap b' = foldl (fun m r => <[row_id r := row_hash r]> m) (leafDataMap b) rs.
Proof.
  revert b n. induction rs as [|r rs IH]; intros b n.
  { exists b. rewrite app_nil_r. split_and!; [|done..]. simpl. by rewrite Nat.add_0_r. }
  rewrite fmap_cons. cbn [pg_tree_loop wrap_err foldl length]. rewrite Ok_bind.
  rewrite scan_row_pair. unfold AddLeaf. cbn beta iota zeta. fold (row_hash r).
  destruct (IH (AddLeafHash b (row_id r) (row_hash r)) (S n)) as (b' & -> & Hl & Hm).
  exists b'. rewrite Hl, Hm. unfold AddLeafHash. simpl. rewrite <-app_assoc.
  split_and!; [by rewrite <-Nat.add_succ_comm|done..].
Qed.

Lemma pg_open_answers pg rs : answers pg rs -> pg_open pg = Ok (Ok <$> rs).
Proof. intros (Hc & Hq & Hr). unfold pg_open. by rewrite Hc, Hq, Hr. Qed.

Lemma build_tree_nonempty msg b :
  leaves b <> [] -> exists b', build_tree msg b = Ok b' /\ built b'
    /\ leaves b' = leaves b /\ leafDataMap b' = leafDataMap b.
Proof.
  intros Hl. unfold build_tree. destruct (Build_cases b) as [[? _]|(b' & -> & Hb & _ & E & Em & _)];
    [done|]. eauto.
Qed.

Lemma foldl_insert_size rs (m : gmap string string) :
  (0 < size m \/ rs <> []) ->
  0 < size (foldl (fun m r => <[row_id r := row_hash r]> m) m rs).
Proof.
  revert m. induction rs as [|r rs IH]; intros m H; [by destruct H|]. cbn [foldl].
  apply IH. left. apply Nat.neq_0_lt_0, map_size_non_empty_iff, insert_non_empty.
Qed.

Lemma buildLeafMapFromPostgreSQL_rows pg rs :
  answers pg rs ->
  exists ids root, buildLeafMapFromPostgreSQL pg = Ok (pg_map rs, ids, root)
    /\ ids_of ids (pg_map rs)
    /\ root = (if decide (rs = []) then "" else merkle_root (sort_strings (row_hash <$> rs))).
Proof.
  intros Hpg. unfold buildLeafMapFromPostgreSQL. rewrite (pg_open_answers pg rs Hpg), Ok_bind.
  destruct (pg_leaf_loop_rows rs ∅ ∅ NewMerkleTreeBuilder) as (ids & b & -> & Hids & Hl); [done|].
  rewrite Ok_bind. fold (pg_map rs) in *. simpl in Hl. destruct (decide (rs = [])) as [->|Hne].
  - exists ids, "". done.
  - rewrite decide_True by (apply foldl_insert_size; by right).
    destruct (build_tree_nonempty "failed to build tree" b) as (b' & -> & Hb & El & _).
    { rewrite Hl. by destruct rs. }
    rewrite Ok_bind. exists ids, (GetRoot b'). split_and!; [done..|].
    by rewrite (built_GetRoot b' Hb), El, Hl.
Qed.

Lemma buildLeafMapFromBoltDB_entries st t entries :
  GetAllHashEntries (vs_storage st) t = Ok entries ->
  exists ids, buildLeafMapFromBoltDB (vs_storage st) t = Ok (bolt_map entries, ids)
    /\ ids_of ids (bolt_map entries).
Proof.
  intros Hall. unfold buildLeafMapFromBoltDB, bolt_map. rewrite Hall, Ok_bind.
  assert (forall m ids, ids_of ids m -> exists ids', foldl (fun acc entry =>
        let id := extractIDFromRecordID (he_RecordID entry) in
        (<[id := he_DataHash entry]> acc.1, <[id := true]> acc.2)) (m, ids) entries
      = (foldl (fun m e => <[extractIDFromRecordID (he_RecordID e) := he_DataHash e]> m) m entries, ids')
      /\ ids_of ids' (foldl (fun m e => <[extractIDFromRecordID (he_RecordID e)
                                         := he_DataHash e]> m) m entries)) as H.
  { clear Hall. induction entries as [|e entries IH]; intros m ids Hids; [by exists ids|].
    cbn [foldl]. apply IH. by apply ids_of_insert. }
  destruct (H ∅ ∅) as (ids' & E & Hids); [done|]. exists ids'. split; [|done].
  f_equal. exact E.
Qed.

(** The detailed verification on the two leaf maps. *)
Lemma performDetailedVerification_maps g now io pg st t entries rs :
  GetAllHashEntries (vs_storage st) t = Ok entries -> answers pg rs ->
  exists l root, exact_differences (bolt_map entries) (pg_map rs) l
  /\ performDetailedVerification g now io pg st t
     = (if decide (bolt_map entries = pg_map rs)
        then createCheckpoint g now io st t root (size (pg_map rs))
        else (Err (tampering_error (length l)), st))
  /\ root = (if decide (rs = []) then "" else merkle_root (sort_strings (row_hash <$> rs))).
Proof.
  intros Hall Hpg. unfold performDetailedVerification, detailed_records.
  destruct (buildLeafMapFromBoltDB_entries st t entries Hall) as (eids & -> & He).
  destruct (buildLeafMapFromPostgreSQL_rows pg rs Hpg) as (aids & root & -> & Ha & Hroot).
  destruct (tampered_records_exact _ _ _ _ He Ha) as (msgs & l & Hm & Hx & Hlen).
  cbn [wrap_err]. rewrite !Ok_bind, Hm, Ok_bind. exists l, root. split_and!; [done| |done].
  rewrite Hlen. pose proof (exact_differences_nil (bolt_map entries) (pg_map rs)) as Hnil.
  destruct (decide (bolt_map entries = pg_map rs)) as [E|Hne].
  - apply Hnil in E as [_ Hno]. rewrite decide_False; [done|].
    destruct Hx as [_ Hl]. destruct l as [|r l]; [simpl; lia|].
    exfalso. assert (r ∈ @nil DifferingRecord) by (apply Hno, Hl; set_solver). set_solver.
  - rewrite decide_True; [done|]. destruct l; [|simpl; lia]. by apply Hnil in Hx.
Qed.
End verify_facts.
