(* ===== verification/Threads.v ===== *)
(** * Calls as programs of atomic actions

    Between two transactions of the store, or two calls of Raft, of one call
    another goroutine may run.  A [prog] is what is left of a call: a result,
    or one action on the state of the process and the rest.  The three calls
    that goroutines of a node make are written out at this grain; run alone,
    each is the call of Handler and Verifier. *)

From Stdlib Require Import NArith ZArith Lia.
From S2P Require Import Prelude Bytes Json JsonFacts Codec Hasher Merkle Bolt Keys Storage.
From S2P Require Import BoltStore AnyData Fsm Node Handler Verifier.

(** ** Programs *)

Inductive prog (St A : Type) : Type :=
  | Ret (a : A)
  | Act (f : St -> prog St A * St).
Arguments Ret {St A} a.
Arguments Act {St A} f.

Section prog.
Context {St : Type}.

Fixpoint prog_bind {A A'} (k : A -> prog St A') (p : prog St A) : prog St A' :=
  match p with
  | Ret a => k a
  | Act f => Act (fun s => let '(p', s') := f s in (prog_bind k p', s'))
  end.

#[export] Instance prog_ret : MRet (prog St) := fun A a => Ret a.
#[export] Instance prog_mbind : MBind (prog St) := fun A A' k p => prog_bind k p.

(** One action. *)
Definition act {A} (f : St -> A * St) : prog St A :=
  Act (fun s => let '(a, s') := f s in (Ret a, s')).

(** Nothing else runs. *)
Fixpoint run {A} (p : prog St A) (s : St) : A * St :=
  match p with
  | Ret a => (a, s)
  | Act f => let '(p', s') := f s in run p' s'
  end.

(** Structural induction, through the results of the actions. *)
Fixpoint prog_induction {A} (P : prog St A -> Prop) (Hret : forall a, P (Ret a))
    (Hact : forall f, (forall s, P (f s).1) -> P (Act f)) (p : prog St A) : P p :=
  match p with
  | Ret a => Hret a
  | Act f => Hact f (fun s => prog_induction P Hret Hact (f s).1)
  end.

Lemma run_bind {A A'} (p : prog St A) (k : A -> prog St A') s :
  run (p ≫= k) s = let '(a, s') := run p s in run (k a) s'.
Proof.
  revert s. induction p as [a|f IH] using prog_induction; intros s; [done|].
  simpl. specialize (IH s). destruct (f s) as [p' s']. simpl in IH |- *. apply IH.
Qed.

Lemma run_act_bind {A A'} (f : St -> A * St) (k : A -> prog St A') s :
  run (act f ≫= k) s = run (k (f s).1) (f s).2.
Proof. rewrite run_bind. simpl. by destruct (f s). Qed.

Lemma run_act {A} (f : St -> A * St) s : run (act f) s = f s.
Proof. simpl. by destruct (f s). Qed.
End prog.

(** ** The actions of a process *)

Section calls.
Context `{RO : RangeOrder} `{HF : HashFunction} {B : Bolt} {R : RaftLib}.
Local Notation P := (prog (VState B R)).
Implicit Types st : VState B R.

(** A read transaction. *)
Definition reading {A} (f : Storage B -> A) : P A := act (fun st => (f (vs_storage st), st)).

(** A write transaction. *)
Definition writing (f : Storage B -> result unit * Storage B) : P (result unit) :=
  act (fun st => let '(r, s') := f (vs_storage st) in
         (r, {| vs_storage := s'; vs_node := vs_node st |})).

(** [n.raft.State() != raft.Leader], for a node that is there. *)
Definition raft_state : P (result bool) :=
  act (fun st => (match vs_node st with
                  | Some n => match node_raft n with
                              | Some r => Ok (is_leader_state r)
                              | None => Panic "nil pointer dereference"
                              end
                  | None => Panic "nil pointer dereference"
                  end, st)).

(** [raftNode != nil && raftNode.IsLeader()] *)
Definition node_leads : P bool :=
  act (fun st => (match vs_node st with Some n => IsLeader n | None => false end, st)).

(** [n.raft.Apply(data, 10*time.Second)] and the error of its future. *)
Definition submitting (data : string) : P (result unit) :=
  act (fun st =>
    match vs_node st with
    | Some n =>
        match node_raft n with
        | Some r =>
            let '(e, r') := raft_apply r data in
            (match e with Some e => Err e | None => Ok tt end,
             {| vs_storage := vs_storage st; vs_node := Some (set_raft n r') |})
        | None => (Panic "nil pointer dereference", st)
        end
    | None => (Panic "nil pointer dereference", st)
    end).

(** ** consensus/node.go *)

Definition ApplyLog_prog (entry : LogEntry) : P (result unit) :=
  state ← raft_state;
  match state with
  | Ok true =>
      match wrap_err "failed to marshal log entry" (Marshal entry) with
      | Ok data =>
          r ← submitting data;
          Ret (wrap_err "failed to apply log" r)
      | Err e => Ret (Err e)
      | Panic w => Ret (Panic w)
      end
  | Ok false => Ret (Err (Errorf "not the leader"))
  | Err e => Ret (Err e)
  | Panic w => Ret (Panic w)
  end.

Definition ApplyCheckpoint_prog (checkpoint : MerkleCheckpoint) : P (result unit) :=
  state ← raft_state;
  match state with
  | Ok true => ApplyLog_prog (checkpoint_log_entry checkpoint)
  | Ok false => Ret (Err (Errorf "not the leader, cannot replicate checkpoint"))
  | Err e => Ret (Err e)
  | Panic w => Ret (Panic w)
  end.

(** ** verify/handler.go and handler_raft.go *)

Definition HandleChange_prog (h : tableConfigs) (now : Time) (io : option error)
    (event : ChangeEvent) : P (result unit) :=
  match h !! ev_TableName event with
  | None => Ret (Ok tt)
  | Some _ =>
      if is_update_or_delete event
      then Ret (Err (NewTamperingError (ev_TableName event) (ev_Operation event)))
      else
        next ← reading (fun s => next_sequence s (ev_TableName event));
        match next with
        | Ok seqNum => writing (SaveHashEntry io (event_entry now seqNum event))
        | Err e => Ret (Err e)
        | Panic w => Ret (Panic w)
        end
  end.

(** On a node with Raft. *)
Definition raft_HandleChange_prog (h : tableConfigs) (now : Time) (event : ChangeEvent)
    : P (result unit) :=
  match h !! ev_TableName event with
  | None => Ret (Ok tt)
  | Some _ =>
      if is_update_or_delete event
      then Ret (Err (NewTamperingError (ev_TableName event) (ev_Operation event)))
      else
        next ← reading (fun s => next_sequence s (ev_TableName event));
        match next with
        | Ok seqNum =>
            r ← ApplyLog_prog (event_log_entry now seqNum event);
            match r with
            | Ok _ => Ret (Ok tt)
            | Err e =>
                leads ← node_leads;
                if negb leads then Ret (Ok tt)
                else Ret (Err (Wrap "failed to replicate via raft" e))
            | Panic w => Ret (Panic w)
            end
        | Err e => Ret (Err e)
        | Panic w => Ret (Panic w)
        end
  end.

(** ** verify/merkle_verifier.go *)

Definition createCheckpointWithTree_prog (globalHasher : option Hasher) (now : Time)
    (io : option error) (tableName merkleRoot : string) (recordCount : nat)
    (tree : option MerkleTreeBuilder) : P (result unit) :=
  new ← reading (fun s => new_checkpoint globalHasher now s tableName merkleRoot recordCount tree);
  match new with
  | Ok checkpoint =>
      leads ← node_leads;
      if (leads : bool) then
        r ← ApplyCheckpoint_prog checkpoint;
        Ret (wrap_err "failed to replicate checkpoint via Raft" r)
      else
        r ← writing (SaveMerkleCheckpoint io checkpoint);
        Ret (wrap_err "failed to save checkpoint" r)
  | Err e => Ret (Err e)
  | Panic w => Ret (Panic w)
  end.

Definition performDetailedVerification_prog (globalHasher : option Hasher) (now : Time)
    (io : option error) (pg : PgAnswer) (tableName : string) : P (result unit) :=
  found ← reading (fun s => detailed_records pg s tableName);
  match found with
  | Ok (tamperedRecords, newMerkleRoot, count) =>
      if decide (0 < length tamperedRecords)
      then Ret (Err (tampering_error (length tamperedRecords)))
      else createCheckpointWithTree_prog globalHasher now io tableName newMerkleRoot count None
  | Err e => Ret (Err e)
  | Panic w => Ret (Panic w)
  end.

Definition calculateMerkleRootFromBoltDB_prog (tableName : string) : P (result (string * nat)) :=
  latest ← reading (fun s => leaf_checkpoint s tableName);
  match latest with
  | Ok (Some checkpoint) =>
      reading (fun s => calculateMerkleRootFromCheckpoint s tableName checkpoint)
  | Ok None => reading (fun s => full_scan s tableName)
  | Err e => Ret (Err e)
  | Panic w => Ret (Panic w)
  end.

Definition VerifyTable_prog (globalHasher : option Hasher) (now : Time) (io : option error)
    (pg1 pg2 : PgAnswer) (tableName : string) : P (result unit) :=
  match wrap_err "failed to calculate actual Merkle Root from PostgreSQL"
          (calculateCurrentMerkleRootFromPG pg1) with
  | Err e => Ret (Err e)
  | Panic w => Ret (Panic w)
  | Ok (actualMerkleRoot, pgRecordCount, pgTree) =>
      expected ← calculateMerkleRootFromBoltDB_prog tableName;
      match wrap_err "failed to calculate expected Merkle Root from BoltDB" expected with
      | Err e => Ret (Err e)
      | Panic w => Ret (Panic w)
      | Ok (expectedMerkleRoot, boltdbRecordCount) =>
          if decide (boltdbRecordCount = 0)
          then createCheckpointWithTree_prog globalHasher now io tableName actualMerkleRoot
                 pgRecordCount pgTree
          else if decide (actualMerkleRoot = expectedMerkleRoot /\ pgRecordCount = boltdbRecordCount)
          then createCheckpointWithTree_prog globalHasher now io tableName actualMerkleRoot
                 pgRecordCount pgTree
          else performDetailedVerification_prog globalHasher now io pg2 tableName
      end
  end.

(** ** Run alone *)

Lemma run_reading {A A'} (f : Storage B -> A) (k : A -> P A') st :
  run (reading f ≫= k) st = run (k (f (vs_storage st))) st.
Proof. apply run_act_bind. Qed.

Lemma run_writing {A'} f (k : result unit -> P A') st :
  run (writing f ≫= k) st
  = run (k (f (vs_storage st)).1) {| vs_storage := (f (vs_storage st)).2; vs_node := vs_node st |}.
Proof. unfold writing. rewrite run_act_bind. by destruct (f (vs_storage st)). Qed.

Lemma run_ApplyLog entry s n :
  run (ApplyLog_prog entry) {| vs_storage := s; vs_node := Some n |}
  = let '(r, n') := ApplyLog entry n in (r, {| vs_storage := s; vs_node := Some n' |}).
Proof.
  unfold ApplyLog_prog, raft_state, ApplyLog. rewrite run_act_bind. cbn [fst snd vs_node].
  destruct (node_raft n) as [r|] eqn:Hr; [|done].
  destruct (is_leader_state r); [|done]. cbn [negb]. cbv iota.
  destruct (Marshal entry) as [data|e|w]; [|done..]. cbn [wrap_err].
  unfold submitting. rewrite run_act_bind. cbn [vs_node vs_storage]. rewrite Hr.
  by destruct (raft_apply r data) as [[e|] r'].
Qed.

Lemma run_ApplyCheckpoint c s n :
  run (ApplyCheckpoint_prog c) {| vs_storage := s; vs_node := Some n |}
  = let '(r, n') := ApplyCheckpoint c n in (r, {| vs_storage := s; vs_node := Some n' |}).
Proof.
  unfold ApplyCheckpoint_prog, raft_state, ApplyCheckpoint. rewrite run_act_bind.
  cbn [fst snd vs_node]. destruct (node_raft n) as [r|]; [|done].
  destruct (is_leader_state r); [|done]. cbn [negb]. cbv iota. apply run_ApplyLog.
Qed.

Lemma run_HandleChange h now io event st :
  run (HandleChange_prog h now io event) st
  = let '(r, s') := HandleChange h now io event (vs_storage st) in
    (r, {| vs_storage := s'; vs_node := vs_node st |}).
Proof.
  unfold HandleChange_prog, HandleChange. destruct st as [s node].
  destruct (h !! ev_TableName event); [|done]. destruct (is_update_or_delete event); [done|].
  rewrite run_reading. simpl vs_storage. destruct (next_sequence s _) as [seq|e|w]; [|done..].
  unfold writing. rewrite run_act. simpl. by destruct (SaveHashEntry _ _ _).
Qed.

Lemma run_raft_HandleChange h now io event s n :
  run (raft_HandleChange_prog h now event) {| vs_storage := s; vs_node := Some n |}
  = let '(r, s', n') := raft_HandleChange h now io event s (Some n) in
    (r, {| vs_storage := s'; vs_node := n' |}).
Proof.
  unfold raft_HandleChange_prog, raft_HandleChange.
  destruct (h !! ev_TableName event); [|done]. destruct (is_update_or_delete event); [done|].
  rewrite run_reading. simpl vs_storage. destruct (next_sequence s _) as [seq|e|w]; [|done..].
  rewrite run_bind, run_ApplyLog. destruct (ApplyLog _ n) as [[u|e|w] n']; [done| |done].
  unfold node_leads. rewrite run_act_bind. cbn [fst snd vs_node]. by destruct (IsLeader n').
Qed.

Lemma run_createCheckpointWithTree g now io st t root count tree :
  run (createCheckpointWithTree_prog g now io t root count tree) st
  = createCheckpointWithTree g now io st t root count tree.
Proof.
  unfold createCheckpointWithTree_prog, createCheckpointWithTree. rewrite run_reading.
  destruct (new_checkpoint _ _ _ _ _ _ _) as [c|e|w]; [|done..].
  unfold node_leads. rewrite run_act_bind. cbn [fst snd].
  destruct st as [s [n|]]; cbn [vs_node vs_storage]; [destruct (IsLeader n)|].
  - rewrite run_bind, run_ApplyCheckpoint. by destruct (ApplyCheckpoint c n).
  - rewrite run_writing. cbn [vs_storage vs_node]. by destruct (SaveMerkleCheckpoint io c s).
  - rewrite run_writing. cbn [vs_storage vs_node]. by destruct (SaveMerkleCheckpoint io c s).
Qed.

Lemma run_performDetailedVerification g now io pg st t :
  run (performDetailedVerification_prog g now io pg t) st
  = performDetailedVerification g now io pg st t.
Proof.
  unfold performDetailedVerification_prog, performDetailedVerification. rewrite run_reading.
  destruct (detailed_records _ _ _) as [[[msgs root] count]|e|w]; [|done..].
  case_decide; [done|]. apply run_createCheckpointWithTree.
Qed.

Lemma run_calculateMerkleRootFromBoltDB t st :
  run (calculateMerkleRootFromBoltDB_prog t) st
  = (calculateMerkleRootFromBoltDB (vs_storage st) t, st).
Proof.
  unfold calculateMerkleRootFromBoltDB_prog, calculateMerkleRootFromBoltDB. rewrite run_reading.
  by destruct (leaf_checkpoint _ _) as [[c|]|e|w].
Qed.

Lemma run_VerifyTable g now io pg1 pg2 st t :
  run (VerifyTable_prog g now io pg1 pg2 t) st = VerifyTable g now io pg1 pg2 st t.
Proof.
  unfold VerifyTable_prog, VerifyTable.
  destruct (wrap_err _ (calculateCurrentMerkleRootFromPG pg1)) as [[[root count] tree]|e|w]; [|done..].
  rewrite Ok_bind, run_bind, run_calculateMerkleRootFromBoltDB.
  destruct (wrap_err _ (calculateMerkleRootFromBoltDB _ _)) as [[eroot bcount]|e|w]; [|done..].
  rewrite Ok_bind. case_decide; [apply run_createCheckpointWithTree|].
  case_decide; [apply run_createCheckpointWithTree|apply run_performDetailedVerification].
Qed.
End calls.
