(* ===== verification/Submitted.v ===== *)
(** * What a node submits to Raft, and what it does when it is applied

    Two calls of the program submit a log: the handler of an insert and the
    checkpoint of a verification.  Here: the submission itself, the bucket of
    hash entries a list of logs stands for, and what each of the two kinds of
    log does on a node that applies it. *)

From Stdlib Require Import ZArith Lia.
From S2P Require Import Prelude Bytes Json JsonFacts Codec Hasher Merkle Bolt Keys Storage TableView.
From S2P Require Import StorageFacts BoltStore AnyData Fsm Node FsmFacts Replication Handler.
From S2P Require Import HandlerFacts Verifier.

(** ** The node *)

Section node.
Context `{R : RaftLib} {RL : RaftLaws R}.
Implicit Types (n : Node) (P Q : string -> Prop).

Definition raft_committed n : list string := from_option committed [] (node_raft n).
Definition raft_in_doubt n : list string := from_option in_doubt [] (node_raft n).

(** Between [n] and [n'] at most one log was submitted, one of [P]: it was
    committed, or its fate is open, or nothing came of it. *)
Definition submits P n n' : Prop :=
  (raft_committed n' = raft_committed n
     /\ (raft_in_doubt n' = raft_in_doubt n
         \/ exists data, P data /\ raft_in_doubt n' = raft_in_doubt n ++ [data]))
  \/ (raft_in_doubt n' = raft_in_doubt n
      /\ exists data, P data /\ raft_committed n' = raft_committed n ++ [data]).

Lemma submits_refl P n : submits P n n.
Proof. left. auto. Qed.

Lemma raft_apply_submits P n r data :
  node_raft n = Some r -> P data -> submits P n (set_raft n (raft_apply r data).2).
Proof.
  intros Hr Hp. destruct (raft_apply r data) as [[e|] r'] eqn:Ha;
    unfold submits, raft_committed, raft_in_doubt; simpl; rewrite Hr; simpl.
  - destruct (apply_doubts r data e r' Ha) as [-> [->| ->]]; left; eauto.
  - destruct (apply_commits r data r' Ha) as [-> ->]. right. eauto.
Qed.
End node.

(** ** What the logs do *)

Lemma map_of_pairs_fmap {V W} (f : V -> W) (l : list (string * V)) :
  map_of_pairs ((fun kv => (kv.1, f kv.2)) <$> l) = f <$> map_of_pairs l.
Proof.
  induction l as [|kv l IH] using rev_ind; [unfold map_of_pairs; simpl; by rewrite fmap_empty|].
  rewrite fmap_app. simpl. by rewrite !map_of_pairs_snoc, IH, fmap_insert.
Qed.

Lemma checkpoint_data_keys c k :
  is_Some (checkpoint_data c !! k) -> sanitize k = k.
Proof.
  intros [j Hj]. apply sanitize_valid. unfold checkpoint_data, json_of_strings in Hj.
  repeat case_decide; repeat (apply lookup_insert_Some in Hj as [[<- _]|[_ Hj]]; [done|]);
    by apply lookup_singleton_Some in Hj as [<- _].
Qed.

Lemma checkpoint_data_depth c : (json_depth (json_of_data (checkpoint_data c)) <= max_depth - 1)%N.
Proof.
  transitivity (1 + 1)%N; [|done]. apply depth_obj_le, Forall_forall.
  intros [k j] Hj%elem_of_data_pairs. simpl. unfold checkpoint_data, json_of_strings in Hj.
  pose proof json_of_map_depth.
  repeat case_decide; repeat (apply lookup_insert_Some in Hj as [[<- <-]|[_ Hj]]; [auto; done|]);
    by apply lookup_singleton_Some in Hj as [<- <-].
Qed.

(** The payload of a checkpoint as a node reads it, in whatever encoding its
    texts are. *)
Lemma checkpoint_payload c m :
  data_of_json [sanitize_json (json_of_data (checkpoint_data c))] = Ok m ->
  m = float_values <$> (sanitize_json <$> checkpoint_data c).
Proof.
  unfold json_of_data. set (l := data_pairs (checkpoint_data c)).
  change (sanitize_json (JObj l)) with
    (JObj ((fun kv => (sanitize kv.1, sanitize_json kv.2)) <$> l)).
  rewrite (list_fmap_ext _ (fun kv => (kv.1, sanitize_json kv.2)) l).
  - rewrite data_of_json_one. case_match; [|done]. intros [= <-].
    unfold l. by rewrite map_of_pairs_fmap, map_of_data_pairs.
  - intros i [k j] Hi. simpl. f_equal. apply checkpoint_data_keys with c.
    apply list_elem_of_lookup_2, elem_of_data_pairs in Hi. by rewrite Hi.
Qed.

(** The log of a checkpoint. *)
Definition checkpoint_log (data : string) : Prop :=
  exists c, Marshal (checkpoint_log_entry c) = Ok data.

(** A node reads a checkpoint's log as a checkpoint whose asserted fields are
    there, or not at all. *)
Lemma checkpoint_log_reads data entry :
  checkpoint_log data -> Unmarshal (A := LogEntry) data = Ok entry ->
  le_Type entry = LogEntryCheckpoint
  /\ exists c, le_Data entry = float_values <$> (sanitize_json <$> checkpoint_data c).
Proof.
  intros (c & Hm). assert (data = print (JObj [("type", JStr LogEntryCheckpoint);
    ("table_name", JStr (mc_TableName c)); ("data", json_of_data (checkpoint_data c));
    ("timestamp", JStr (mc_Timestamp c))])) as -> by (injection Hm; done). clear Hm.
  unfold Unmarshal. rewrite <-(string_app_nil_r (print _)), parse_document_print
    by (done || apply log_entry_depth, checkpoint_data_depth).
  set (d := json_of_data (checkpoint_data c)).
  cbn -[field data_of_json time_of_json string_of_json sanitize].
  change (sanitize "type") with "type". change (sanitize "table_name") with "table_name".
  change (sanitize "data") with "data". change (sanitize "timestamp") with "timestamp".
  json_fields. unfold string_of_json at 1 2. rewrite !store_all_one. cbn [store_string]. rewrite !Ok_bind.
  destruct (data_of_json _) as [m| |] eqn:Hd; [|done..]. rewrite Ok_bind.
  destruct (time_of_json _) as [ts| |]; [|done..]. rewrite Ok_bind. intros [= <-].
  split; [done|]. exists c. by apply checkpoint_payload.
Qed.

(** ** The bucket a list of logs stands for *)

Definition raft_log (index : nat) (data : string) : Log :=
  {| l_Index := N.of_nat index; l_Term := 1; l_Type := 0; l_Data := data;
     l_Extensions := ""; l_AppendedAt := zero_time |}.

Definition log_pairs `{FC : FloatConversion} (log : list string) : list (string * string) :=
  omap (fun data => (log_writes (raft_log 0 data)).1) log.

Definition agreed_chain `{FC : FloatConversion} (log : list string) : gmap string string :=
  insert_pairs (log_pairs log) ∅.

Section effects.
Context `{RO : RangeOrder} `{HF : HashFunction} `{FC : FloatConversion}.

(** The log of an insert into a table of [h], numbered from 1 to 10. *)
Record insert_of (h : tableConfigs) (now : Time) (seq : N) (event : ChangeEvent) (data : string)
    : Prop := {
  io_table : is_Some (h !! ev_TableName event);
  io_insert : ev_Operation event = OperationInsert;
  io_number : (1 <= seq <= 10)%N;
  io_storable : storable_entry (event_entry now seq event);
  io_data : Marshal (event_log_entry now seq event) = Ok data
}.

(** The entry before number [seq] is there. *)
Definition follows (b : gmap string string) (t : string) (seq : N) : Prop :=
  seq = 1%N \/ is_Some (b !! table_key t (seq - 1)).

Definition insert_data (h : tableConfigs) (log : list string) (data : string) : Prop :=
  exists now seq event, insert_of h now seq event data
    /\ follows (agreed_chain log) (ev_TableName event) seq.

(** Applying the log of an insert saves its entry. *)
Lemma insert_of_writes h now seq event data log :
  insert_of h now seq event data -> l_Data log = data ->
  (exists v, log_writes log = (Some (table_key (ev_TableName event) seq, v), None)
     /\ pair_wf (table_key (ev_TableName event) seq, v) (event_entry now seq event))
  /\ ~ exists entry, Unmarshal (A := LogEntry) (l_Data log) = Ok entry /\ assertions_fail entry.
Proof.
  intros [Hc Hop Hn Hst Hm] <-. assert (seq <= 2 ^ 53)%N as Hle by lia.
  destruct (LogEntry_round _ (event_log_entry_ok now seq event Hle (proj1 Hst)))
    as (data' & Hm' & Hu). assert (data' = l_Data log) as -> by congruence.
  pose proof (hash_entry_of_event now seq event Hle) as He. split.
  - destruct Hst as (Hok & Hf & Hcol).
    destruct (Unmarshal_Marshal (event_entry now seq event) Hok) as (v & Hv & _).
    assert (pair_wf (table_key (ev_TableName event) seq, v) (event_entry now seq event)) as Hwf
      by by split_and!.
    exists v. split; [|done].
    unfold log_writes. rewrite Hu, decide_True by done. by rewrite He, (entry_write_wf _ _ Hwf).
  - rewrite Hu. intros (entry & [= <-] & [[_ Hf]|[? _]]); [|done].
    pose proof (hash_entry_of_panic (floated (event_log_entry now seq event))) as Hp.
    rewrite He in Hp. tauto.
Qed.

(** Applying the log of a checkpoint leaves the hash entries alone. *)
Lemma checkpoint_log_writes data log :
  checkpoint_log data -> l_Data log = data ->
  (log_writes log).1 = None
  /\ ~ exists entry, Unmarshal (A := LogEntry) (l_Data log) = Ok entry /\ assertions_fail entry.
Proof.
  intros Hl <-. split.
  - unfold log_writes. destruct (Unmarshal (l_Data log)) as [entry| |] eqn:Hu; [|done..].
    destruct (checkpoint_log_reads _ entry Hl Hu) as [Hty _].
    rewrite decide_False by (rewrite Hty; done). case_decide; [|done]. by case_match.
  - intros (entry & Hu & Hf). destruct (checkpoint_log_reads _ entry Hl Hu) as [Hty [c Hd]].
    destruct Hf as [[E _]|[_ Hf]]; [by rewrite Hty in E|]. rewrite Hd, !lookup_fmap in Hf.
    destruct (checkpoint_data_lookup c) as (E1 & E2 & E3 & E4 & _).
    rewrite E1, E2, E3, E4 in Hf. simpl in Hf. naive_solver.
Qed.
End effects.
