(* ===== verification/Buckets.v ===== *)
(** * Buckets of hash entries and the log

    A member's bucket is behind the log, but the logs it lacks make it the
    bucket the whole log stands for ([caught]); and every pair in it records
    an insert, numbered from 1 to 10 without a gap ([typed]). *)

From Stdlib Require Import NArith ZArith Lia.
From S2P Require Import Prelude Bytes Json JsonFacts Codec Hasher Bolt Keys Storage TableView.
From S2P Require Import StorageFacts BoltStore AnyData Fsm Node FsmFacts Replication Handler.
From S2P Require Import HandlerFacts Verifier Submitted.

(** An equation of unions of maps, key by key. *)
Ltac by_lookup :=
  let k := fresh "k" in
  apply map_eq; intros k;
  repeat match goal with H : @eq (gmap _ _) _ _ |- _ => apply (f_equal (lookup k)) in H end;
  rewrite !lookup_union in *;
  repeat match goal with
  | |- context [?m !! k] => destruct (m !! k)
  | H : context [?m !! k] |- _ => destruct (m !! k)
  end;
  unfold union, option_union in *; simpl in *; congruence.

Section buckets.
Context `{RO : RangeOrder} `{HF : HashFunction} {B : Bolt} {BL : BoltLaws B}.
Context `{FC : FloatConversion}.
Implicit Types (s : Storage B) (log : list string) (b : gmap string string).

(** ** Buckets that catch up *)

Lemma insert_pairs_agreed log b : insert_pairs (log_pairs log) b = agreed_chain log ∪ b.
Proof.
  apply map_eq. intros k. rewrite lookup_union, insert_pairs_lookup. unfold agreed_chain.
  by destruct (insert_pairs (log_pairs log) ∅ !! k), (b !! k).
Qed.

Lemma log_pairs_app l1 l2 : log_pairs (l1 ++ l2) = log_pairs l1 ++ log_pairs l2.
Proof. apply omap_app. Qed.

Lemma agreed_chain_nil : agreed_chain [] = ∅.
Proof. done. Qed.

Lemma agreed_chain_app l1 l2 : agreed_chain (l1 ++ l2) = agreed_chain l2 ∪ agreed_chain l1.
Proof.
  rewrite <-insert_pairs_agreed. unfold agreed_chain. by rewrite log_pairs_app, insert_pairs_app.
Qed.

(** The logs after the first [a], over the bucket, make the agreed one. *)
Definition caught log (a : nat) b : Prop := agreed_chain (drop a log) ∪ b = agreed_chain log.

Lemma caught_empty : caught [] 0 ∅.
Proof. done. Qed.

Lemma caught_end log b : caught log (length log) b <-> b = agreed_chain log.
Proof. unfold caught. by rewrite drop_all, agreed_chain_nil, (left_id_L ∅ (∪)). Qed.

Lemma caught_grow log log' a b :
  a <= length log -> caught log a b -> caught (log ++ log') a b.
Proof.
  intros Ha Hc. unfold caught. rewrite drop_app_le by done.
  by rewrite !agreed_chain_app, <-(assoc_L (∪)), Hc.
Qed.

(** Logs before the [a]-th may be applied again. *)
Lemma caught_lower log a a' b : a' <= a -> caught log a b -> caught log a' b.
Proof.
  intros Ha H. unfold caught in *. set (w := agreed_chain (drop a log)) in *.
  set (u := agreed_chain (take (a - a') (drop a' log))). set (p := agreed_chain (take a' log)).
  assert (drop a' log = take (a - a') (drop a' log) ++ drop a log) as Hdrop.
  { rewrite <-(take_drop (a - a') (drop a' log)) at 1. rewrite drop_drop. do 2 f_equal. lia. }
  assert (agreed_chain (drop a' log) = w ∪ u) as Hwu by by rewrite Hdrop, agreed_chain_app.
  assert (agreed_chain log = w ∪ u ∪ p) as Hlog.
  { rewrite <-Hwu. unfold p. by rewrite <-agreed_chain_app, take_drop. }
  rewrite Hwu. rewrite Hlog in H |- *. clearbody w u p. clear Hdrop Hwu Hlog. by_lookup.
Qed.

(** Applying the next log. *)
Lemma caught_apply log a data b :
  log !! a = Some data -> caught log a b ->
  caught log (S a) (insert_pairs (log_pairs [data]) b).
Proof.
  intros Hl Hc. unfold caught in *. rewrite (drop_S log data a Hl) in Hc.
  change (data :: drop (S a) log) with ([data] ++ drop (S a) log) in Hc.
  rewrite insert_pairs_agreed. rewrite (agreed_chain_app [data] (drop (S a) log)) in Hc.
  by rewrite (assoc_L (∪)).
Qed.

(** A snapshot on top of a bucket. *)
Lemma caught_restore log a a' b b' :
  caught log a b -> caught log a' b' -> caught log a (b ∪ b').
Proof.
  unfold caught. intros H H'. by_lookup.
Qed.

Lemma caught_key log a b k : caught log a b -> is_Some (b !! k) -> is_Some (agreed_chain log !! k).
Proof.
  intros Hc Hk. unfold caught in Hc. rewrite <-Hc. apply lookup_union_is_Some. by right.
Qed.

Lemma agreed_chain_grow log log' k :
  is_Some (agreed_chain log !! k) -> is_Some (agreed_chain (log ++ log') !! k).
Proof.
  intros Hk. rewrite agreed_chain_app. apply lookup_union_is_Some. by right.
Qed.

Lemma agreed_chain_prefix log log' k :
  log `prefix_of` log' -> is_Some (agreed_chain log !! k) -> is_Some (agreed_chain log' !! k).
Proof. intros [ext ->]. apply agreed_chain_grow. Qed.

(** ** What is stored *)

Variable tables : string -> tableConfigs.

(** The pair is the entry [e] of an insert into a protected table, under its
    own key, and the entry before it is there. *)
Record recorded b (k v : string) (e : HashEntry) : Prop := {
  rec_wf : pair_wf (k, v) e;
  rec_insert : he_OperationType e = OperationInsert;
  rec_table : exists i, is_Some (tables i !! he_TableName e);
  rec_number : (1 <= he_SequenceNum e <= 10)%N;
  rec_follows : follows b (he_TableName e) (he_SequenceNum e)
}.

Definition typed b : Prop := forall k v, b !! k = Some v -> exists e, recorded b k v e.

Lemma typed_empty : typed ∅.
Proof. intros k v Hk. by rewrite lookup_empty in Hk. Qed.

Lemma typed_wf b : typed b -> chain_wf b.
Proof. intros Hb k v Hk. destruct (Hb k v Hk) as (e & [Hwf _ _ _ _]). eauto. Qed.

Lemma recorded_mono b b' k v e :
  (forall k, is_Some (b !! k) -> is_Some (b' !! k)) -> recorded b k v e -> recorded b' k v e.
Proof. intros Hb [Hwf Hop Ht Hn [Hf|Hf]]; split; try done; [by left|right; auto]. Qed.

Lemma typed_union b b' : typed b -> typed b' -> typed (b ∪ b').
Proof.
  intros Hb Hb' k v [Hk|[_ Hk]]%lookup_union_Some_raw.
  - destruct (Hb k v Hk) as [e He]. exists e. eapply recorded_mono; [|exact He].
    intros k' Hk'. apply lookup_union_is_Some. by left.
  - destruct (Hb' k v Hk) as [e He]. exists e. eapply recorded_mono; [|exact He].
    intros k' Hk'. apply lookup_union_is_Some. by right.
Qed.

Lemma typed_insert b k v e : typed b -> recorded b k v e -> typed (<[k := v]> b).
Proof.
  intros Hb He. assert (forall k', is_Some (b !! k') -> is_Some (<[k := v]> b !! k')) as Hm.
  { intros k' Hk'. rewrite lookup_insert_is_Some. destruct (decide (k = k')); auto. }
  intros k' v' [[<- <-]|[_ Hk]]%lookup_insert_Some.
  - exists e. by eapply recorded_mono.
  - destruct (Hb k' v' Hk) as [e' He']. exists e'. by eapply recorded_mono.
Qed.

(** ** The numbers of a table *)

Definition table_view b (t : string) : gmap N HashEntry :=
  list_to_map (omap (fun n => v ← b !! table_key t n;
                              match Unmarshal (A := HashEntry) v with
                              | Ok e => Some (n, e)
                              | _ => None
                              end) (N.of_nat <$> seq 1 10)).

Lemma table_view_lookup b t n e :
  table_view b t !! n = Some e
  <-> (1 <= n <= 10)%N /\ exists v, b !! table_key t n = Some v /\ Unmarshal v = Ok e.
Proof.
  unfold table_view. rewrite <-elem_of_list_to_map.
  - rewrite list_elem_of_omap. split.
    + intros (n' & Hin & E). apply list_elem_of_fmap in Hin as (i & -> & Hi%elem_of_seq).
      destruct (b !! table_key t _) as [v|] eqn:Hv; [|done]. simpl in E.
      destruct (Unmarshal v) as [e'| |] eqn:Hu; [|done..]. injection E as <- <-.
      split; [lia|eauto].
    + intros (Hn & v & Hv & Hu). exists n. split.
      * apply list_elem_of_fmap. exists (N.to_nat n). rewrite elem_of_seq. lia.
      * rewrite Hv. simpl. by rewrite Hu.
  - assert (NoDup (N.of_nat <$> seq 1 10)) as Hnd by by_decide.
    revert Hnd. generalize (N.of_nat <$> seq 1 10). induction l as [|n' l IH]; intros Hnd; [constructor|].
    apply NoDup_cons in Hnd as [Hn Hnd]. cbn [omap list_omap].
    destruct (b !! table_key t n') as [v|]; simpl; [|by apply IH].
    destruct (Unmarshal v) as [e'| |]; [|by apply IH..].
    rewrite fmap_cons. constructor; [|by apply IH]. intros Hin. apply Hn.
    apply list_elem_of_fmap in Hin as ([n1 e1] & E & Hin). simpl in E. subst n1.
    apply list_elem_of_omap in Hin as (n2 & Hin & E). destruct (b !! table_key t n2) as [v2|]; [|done].
    simpl in E. destruct (Unmarshal v2); [|done..]. by injection E as -> _.
Qed.

(** The entry the view shows is the recorded one. *)
Lemma table_view_recorded b t n e :
  typed b -> table_view b t !! n = Some e ->
  exists v, recorded b (table_key t n) v e /\ he_TableName e = t /\ he_SequenceNum e = n.
Proof.
  intros Hb (_ & v & Hv & Hu)%table_view_lookup. destruct (Hb _ _ Hv) as [e' He].
  pose proof (pair_wf_decodes _ _ (rec_wf _ _ _ _ He)) as Hu'. simpl in Hu'.
  assert (e' = e) as -> by congruence. exists v. split; [done|].
  destruct (rec_wf _ _ _ _ He) as (_ & E & _). simpl in E. by apply table_key_inj in E as [-> ->].
Qed.

Lemma typed_rep b t : typed b -> no_colon t = true -> table_rep b t (table_view b t).
Proof.
  intros Hb Ht. split.
  - intros n e (_ & Hv)%table_view_lookup. exact Hv.
  - intros k v Hk Hp. destruct (Hb k v Hk) as [e He].
    pose proof (rec_wf _ _ _ _ He) as ((_ & _ & Hc) & E & _). simpl in E. subst k.
    apply has_prefix_other in Hp as <-; [|done..]. exists (he_SequenceNum e). split; [done|].
    exists e. apply table_view_lookup. split; [apply He|]. exists v. split; [done|].
    exact (pair_wf_decodes _ _ (rec_wf _ _ _ _ He)).
Qed.

(** The next number is at most 10 and leaves no gap. *)
Lemma typed_next s t :
  ready storage_buckets s -> typed (chain s) -> no_colon t = true ->
  exists seq, next_sequence s t = Ok seq /\ (1 <= seq <= 10)%N /\ follows (chain s) t seq.
Proof.
  intros Hs Hb Ht. destruct (next_sequence_rep s t _ Hs (typed_rep _ t Hb Ht)) as (seq & E & Hn).
  exists seq. split; [done|]. destruct Hn as [[_ ->]|(n & e & [Hl Hmax] & ->)]; [split; [lia|by left]|].
  destruct (table_view_recorded _ _ _ _ Hb Hl) as (v & He & <- & Hseq).
  pose proof (rec_number _ _ _ _ He) as Hr. rewrite Hseq in Hr |- *.
  assert (n <> 10%N) as Hne.
  { intros ->. destruct (rec_follows _ _ _ _ He) as [|Hf]; [congruence|]. rewrite Hseq in Hf.
    destruct Hf as [v9 Hv9]. destruct (Hb _ _ Hv9) as [e9 He9].
    assert (is_Some (table_view (chain s) (he_TableName e) !! 9%N)) as H9.
    { exists e9. apply table_view_lookup. split; [lia|]. exists v9. split; [done|].
      exact (pair_wf_decodes _ _ (rec_wf _ _ _ _ He9)). }
    apply Hmax in H9. pose proof (seq_le_antisymm _ _ H9 (seq_le_nine 10 ltac:(lia))). lia. }
  unfold u64_add, u64_wrap. rewrite N.mod_small by (unfold u64_modulus; lia).
  split; [lia|]. right. replace (n + 1 - 1)%N with n by lia.
  apply table_view_lookup in Hl as (_ & v' & Hv' & _). eauto.
Qed.

(** ** The log *)

Definition logged log (data : string) : Prop :=
  (exists i, insert_data (tables i) log data) \/ checkpoint_log data.

(** Each log was submitted against the logs before it. *)
Definition ordered log : Prop := forall a data, log !! a = Some data -> logged (take a log) data.

Lemma logged_prefix log log' data : log `prefix_of` log' -> logged log data -> logged log' data.
Proof.
  intros Hp [(i & now & seq & event & Hio & Hf)|Hc]; [left|by right].
  exists i, now, seq, event. split; [done|]. destruct Hf as [Hf|Hf]; [by left|right].
  by eapply agreed_chain_prefix.
Qed.

Lemma ordered_nil : ordered [].
Proof. intros a data Ha. by rewrite lookup_nil in Ha. Qed.

Lemma ordered_snoc log data : ordered log -> logged log data -> ordered (log ++ [data]).
Proof.
  intros Hl Hd a data' Ha. destruct (decide (a < length log)) as [Hlt|Hge].
  - rewrite lookup_app_l in Ha by done. rewrite take_app_le by lia. by apply Hl.
  - rewrite lookup_app_r in Ha by lia. apply list_lookup_singleton_Some in Ha as [Ha <-].
    by rewrite take_app_length' by lia.
Qed.

(** A bucket at index [a] of the log. *)
Record bucket_ok log (a : nat) b : Prop := {
  bucket_index : a <= length log;
  bucket_typed : typed b;
  bucket_has : forall k, is_Some (agreed_chain (take a log) !! k) -> is_Some (b !! k);
  bucket_caught : caught log a b
}.

Lemma bucket_ok_empty : bucket_ok [] 0 ∅.
Proof. split; [done|apply typed_empty|by intros k|apply caught_empty]. Qed.

Lemma bucket_ok_grow log log' a b : bucket_ok log a b -> bucket_ok (log ++ log') a b.
Proof.
  intros [Hi Ht Hh Hc]. split; [rewrite length_app; lia|done| |by apply caught_grow].
  by rewrite take_app_le.
Qed.

Lemma bucket_ok_lower log a a' b : a' <= a -> bucket_ok log a b -> bucket_ok log a' b.
Proof.
  intros Ha [Hi Ht Hh Hc]. split; [lia|done| |by eapply caught_lower].
  intros k Hk. apply Hh. eapply agreed_chain_prefix; [|exact Hk].
  exists (drop a' (take a log)). rewrite <-(take_drop a' (take a log)) at 1. by rewrite take_take, Nat.min_l.
Qed.

Lemma bucket_ok_restore log a a' b b' :
  bucket_ok log a b -> bucket_ok log a' b' -> bucket_ok log a (b ∪ b').
Proof.
  intros [Hi Ht Hh Hc] [_ Ht' _ Hc']. split; [done|by apply typed_union| |by eapply caught_restore].
  intros k Hk. apply lookup_union_is_Some. left. by apply Hh.
Qed.

Lemma log_pairs_checkpoint data : checkpoint_log data -> log_pairs [data] = [].
Proof.
  intros Hc. unfold log_pairs. simpl.
  by destruct (checkpoint_log_writes data (raft_log 0 data) Hc eq_refl) as [-> _].
Qed.

Lemma log_pairs_insert h now seq event data :
  insert_of h now seq event data ->
  exists v, log_pairs [data] = [(table_key (ev_TableName event) seq, v)]
    /\ pair_wf (table_key (ev_TableName event) seq, v) (event_entry now seq event).
Proof.
  intros Hio. destruct (insert_of_writes h now seq event data (raft_log 0 data) Hio eq_refl)
    as [(v & Hw & Hwf) _]. exists v. split; [|done]. unfold log_pairs. simpl. by rewrite Hw.
Qed.

(** Applying the next log. *)
Lemma bucket_ok_apply log a data b :
  ordered log -> log !! a = Some data -> bucket_ok log a b ->
  bucket_ok log (S a) (insert_pairs (log_pairs [data]) b).
Proof.
  intros Hl Ha [Hi Ht Hh Hc]. pose proof (lookup_lt_Some _ _ _ Ha). split; [lia| | |by apply caught_apply].
  - destruct (Hl a data Ha) as [(i & now & seq & event & Hio & Hf)|Hck];
      [|by rewrite (log_pairs_checkpoint _ Hck)].
    destruct (log_pairs_insert _ _ _ _ _ Hio) as (v & -> & Hwf). apply (typed_insert _ _ _ (event_entry now seq event) Ht).
    split; [done|apply Hio|exists i; apply Hio|apply Hio|].
    destruct Hf as [Hf|Hf]; [by left|right]. by apply Hh.
  - intros k. rewrite (take_S_r _ _ _ Ha), agreed_chain_app, insert_pairs_agreed.
    rewrite !lookup_union_is_Some. intros [Hk|Hk]; [by left|right]. by apply Hh.
Qed.
End buckets.
