(* ===== verification/ThreadFacts.v ===== *)
(** * What one action of a call may do

    Whatever other goroutines did before it, each action of a handler or of a
    verification leaves the hash entries of its node alone and submits at
    most one log, which fits the cluster's log of that moment. *)

From Stdlib Require Import NArith ZArith Lia.
From S2P Require Import Prelude Bytes Json JsonFacts Codec Hasher Merkle Bolt Keys Storage TableView.
From S2P Require Import StorageFacts BoltStore AnyData Fsm Node FsmFacts Replication Handler.
From S2P Require Import HandlerFacts Verifier Threads Submitted Buckets.

(** ** What holds of every action of a call

    [w] is what is known when an action comes, which other goroutines may
    only extend; [meets] is the state an action meets, [effect] what it may
    do, [may] the logs it may submit, [may_save] the checkpoints it may
    save. *)
Section always.
Context `{RO : RangeOrder} `{HF : HashFunction} {B : Bolt} {R : RaftLib} {W : Type}.
Implicit Types (st : VState B R) (w : W).
Local Notation P := (prog (VState B R)).

Record contract := {
  extends : relation W;
  meets : W -> VState B R -> Prop;
  effect : W -> VState B R -> VState B R -> Prop;
  may : W -> string -> Prop;
  may_save : W -> MerkleCheckpoint -> Prop
}.

Variable C : contract.
Context `{Hpre : !PreOrder (extends C)}.

(** Every action of the rest of a call, whenever it comes. *)
Fixpoint always {A} (p : P A) w : Prop :=
  match p with
  | Ret _ => True
  | Act f => forall w' st, extends C w w' -> meets C w' st ->
      match f st with (p', st') => effect C w' st st' /\ always p' w' end
  end.

Lemma always_extends {A} (p : P A) w w' : extends C w w' -> always p w -> always p w'.
Proof.
  destruct p as [x|f]; [done|]. intros Hw Hf w1 st H1. apply Hf. by etrans.
Qed.

(** An action and the rest. *)
Lemma always_act {A A'} (f : VState B R -> A * VState B R) (k : A -> P A') w :
  (forall w' st, extends C w w' -> meets C w' st ->
     effect C w' st (f st).2 /\ always (k (f st).1) w') ->
  always (act f ≫= k) w.
Proof.
  intros Hf w' st Hw Hm. specialize (Hf w' st Hw Hm). by destruct (f st).
Qed.

Lemma always_bind {A A'} (p : P A) (k : A -> P A') w :
  always p w -> (forall x w', extends C w w' -> always (k x) w') -> always (p ≫= k) w.
Proof.
  revert w. induction p as [x|f IH] using prog_induction; intros w Hp Hk; [by apply Hk|].
  intros w' st Hw Hm. specialize (Hp w' st Hw Hm). specialize (IH st). simpl in IH |- *.
  destruct (f st) as [p' st']. destruct Hp as [He Hp']. split; [done|].
  apply IH; [done|]. intros x w1 H1. apply Hk. by etrans.
Qed.

(** What the calls need of a contract. *)
Record contract_laws : Prop := {
  effect_refl : forall w st, meets C w st -> effect C w st st;
  effect_save : forall w st io c, meets C w st -> may_save C w c ->
    effect C w st {| vs_storage := (SaveMerkleCheckpoint io c (vs_storage st)).2;
                     vs_node := vs_node st |};
  effect_submit : forall w st n r data, meets C w st -> may C w data ->
    vs_node st = Some n -> node_raft n = Some r ->
    effect C w st {| vs_storage := vs_storage st;
                     vs_node := Some (set_raft n (raft_apply r data).2) |};
  may_extends : forall w w' data, extends C w w' -> may C w data -> may C w' data;
  may_checkpoint : forall w data, checkpoint_log data -> may C w data
}.

Hypothesis L : contract_laws.

Lemma always_reading {A A'} (f : Storage B -> A) (k : A -> P A') w :
  (forall w' st, extends C w w' -> meets C w' st -> always (k (f (vs_storage st))) w') ->
  always (reading f ≫= k) w.
Proof.
  intros Hk. apply always_act. split; [by apply (effect_refl L)|by apply Hk].
Qed.

Lemma always_read {A} (f : Storage B -> A) w : always (reading f) w.
Proof. intros w' st Hw Hm. split; [by apply (effect_refl L)|done]. Qed.

(** Questions to the node. *)
Lemma always_raft_state {A} (k : result bool -> P A) w :
  (forall x w', extends C w w' -> always (k x) w') -> always (raft_state ≫= k) w.
Proof. intros Hk. apply always_act. split; [by apply (effect_refl L)|by apply Hk]. Qed.

Lemma always_node_leads {A} (k : bool -> P A) w :
  (forall x w', extends C w w' -> always (k x) w') -> always (node_leads ≫= k) w.
Proof. intros Hk. apply always_act. split; [by apply (effect_refl L)|by apply Hk]. Qed.

(** A checkpoint that is saved locally. *)
Lemma always_save {A} io c (k : result unit -> P A) w :
  (forall w', extends C w w' -> may_save C w' c) ->
  (forall x w', extends C w w' -> always (k x) w') ->
  always (writing (SaveMerkleCheckpoint io c) ≫= k) w.
Proof.
  intros Hc Hk. apply always_act. intros w' st Hw Hm.
  pose proof (effect_save L w' st io c Hm (Hc w' Hw)) as He.
  destruct (SaveMerkleCheckpoint io c (vs_storage st)). split; [done|by apply Hk].
Qed.

Lemma always_submitting {A} data (k : result unit -> P A) w :
  may C w data -> (forall x w', extends C w w' -> always (k x) w') ->
  always (submitting data ≫= k) w.
Proof.
  intros Hd Hk. apply always_act. intros w' st Hw Hm. split; [|by apply Hk].
  destruct (vs_node st) as [n|] eqn:Hn; [|by apply (effect_refl L)].
  destruct (node_raft n) as [r|] eqn:Hr; [|by apply (effect_refl L)].
  pose proof (effect_submit L w' st n r data Hm (may_extends L w w' data Hw Hd) Hn Hr) as He.
  by destruct (raft_apply r data).
Qed.

Lemma always_ApplyLog entry w :
  (forall data, Marshal entry = Ok data -> may C w data) -> always (ApplyLog_prog entry) w.
Proof.
  intros Hd. apply always_raft_state. intros [[]|e|p] w' Hw; try exact I.
  destruct (Marshal entry) as [data|e|p]; try exact I. cbn [wrap_err].
  apply always_submitting; [|done]. eapply (may_extends L); [done|]. by apply Hd.
Qed.

Lemma always_ApplyCheckpoint c w : always (ApplyCheckpoint_prog c) w.
Proof.
  apply always_raft_state. intros [[]|e|p] w' Hw; try exact I.
  apply always_ApplyLog. intros data Hm. apply (may_checkpoint L). by exists c.
Qed.

Lemma new_checkpoint_table g now (s : Storage B) t root count tree c :
  new_checkpoint g now s t root count tree = Ok c -> mc_TableName c = t.
Proof.
  unfold new_checkpoint. destruct (GetLatestHashEntry _ _); try done; by intros [= <-].
Qed.

Variable t : string.
Hypothesis Ht : forall w c, mc_TableName c = t -> may_save C w c.

Lemma always_createCheckpoint g now io root count tree w :
  always (createCheckpointWithTree_prog g now io t root count tree) w.
Proof.
  apply always_reading. intros w' st Hw Hm.
  destruct (new_checkpoint _ _ _ _ _ _ _) as [c|e|p] eqn:Hc; try exact I.
  apply always_node_leads. intros [] w1 H1.
  - apply always_bind; [apply always_ApplyCheckpoint|done].
  - apply always_save; [|done]. intros w2 _. by eapply Ht, new_checkpoint_table.
Qed.

(** A verification keeps every such contract. *)
Lemma always_VerifyTable g now io pg1 pg2 w : always (VerifyTable_prog g now io pg1 pg2 t) w.
Proof.
  unfold VerifyTable_prog. destruct (wrap_err _ _) as [[[root count] tree]|e|p]; try exact I.
  apply always_bind.
  - apply always_reading. intros w' st Hw Hm.
    destruct (leaf_checkpoint _ _) as [[c|]|e|p]; try exact I; apply always_read.
  - intros x w' Hw. destruct (wrap_err _ x) as [[eroot bcount]|e|p]; try exact I.
    case_decide; [apply always_createCheckpoint|].
    case_decide; [apply always_createCheckpoint|].
    apply always_reading. intros w1 st H1 Hm.
    destruct (detailed_records _ _ _) as [[[msgs root2] count2]|e|p]; try exact I.
    case_decide; [exact I|]. apply always_createCheckpoint.
Qed.
End always.
Arguments contract B R W : clear implicits, rename.

(** ** In a cluster *)

Section threads.
Context `{RO : RangeOrder} `{HF : HashFunction} {B : Bolt} {BL : BoltLaws B}.
Context `{R : RaftLib} {RL : RaftLaws R} `{FC : FloatConversion}.
Variable tables : string -> tableConfigs.
Implicit Types (st : VState B R) (log : list string).

(** An action meets a store that is behind the log, and leaves its hash
    entries alone; what it submits fits the log. *)
Definition cluster_contract : contract B R (list string) := {|
  extends := prefix;
  meets log st := ready storage_buckets (vs_storage st)
    /\ exists a, bucket_ok tables log a (chain (vs_storage st));
  effect log st st' := ready storage_buckets (vs_storage st')
    /\ chain (vs_storage st') = chain (vs_storage st)
    /\ forall n, vs_node st = Some n ->
         exists n', vs_node st' = Some n' /\ submits (logged tables log) n n';
  may := logged tables;
  may_save _ _ := True
|}.

Lemma cluster_laws : contract_laws cluster_contract.
Proof.
  split; simpl.
  - intros log st [Hs _]. split_and!; [done..|]. eauto using submits_refl.
  - intros log st io c [Hs _] _. pose proof (SaveMerkleCheckpoint_write io c (vs_storage st) Hs) as Hw.
    destruct (SaveMerkleCheckpoint io c (vs_storage st)) as [r s'].
    destruct Hw as (Hs' & _ & _ & Hch & _). split_and!; [done..|]. eauto using submits_refl.
  - intros log st n r data [Hs _] Hd Hn Hr. split_and!; [done..|].
    intros n0 [= <-]%(eq_trans (eq_sym Hn)). eauto using raft_apply_submits.
  - intros log log' data. apply logged_prefix.
  - intros log data Hc. by right.
Qed.

Definition thread_ok {A} (p : prog (VState B R) A) log : Prop := always cluster_contract p log.

Lemma thread_ok_prefix {A} (p : prog (VState B R) A) log log' :
  log `prefix_of` log' -> thread_ok p log -> thread_ok p log'.
Proof. apply (always_extends cluster_contract p log log'). Qed.

Lemma thread_ok_VerifyTable g now io pg1 pg2 t log :
  thread_ok (VerifyTable_prog g now io pg1 pg2 t) log.
Proof. apply always_VerifyTable; [apply _|apply cluster_laws|done]. Qed.

(** ** The handler *)

(** The numbers an insert can get. *)
Definition numbers : list N := N.of_nat <$> seq 1 10.

Lemma elem_of_numbers n : n ∈ numbers <-> (1 <= n <= 10)%N.
Proof.
  unfold numbers. rewrite list_elem_of_fmap. split.
  - intros (i & -> & Hi%elem_of_seq). lia.
  - intros Hn. exists (N.to_nat n). rewrite elem_of_seq. lia.
Qed.

(** An event as the replication client makes it, whose entry the store can
    hold: one of three operations, text that is UTF-8, a key and a value
    within bbolt's limits. *)
Definition event_ok (now : Time) (event : ChangeEvent) : Prop :=
  ev_Operation event ∈ [OperationInsert; OperationUpdate; OperationDelete]
  /\ Forall (fun n => storable_entry (event_entry now n event)) numbers.

#[export] Instance event_ok_dec now event : Decision (event_ok now event).
Proof. unfold event_ok. apply _. Defined.

Lemma event_ok_insert now event :
  event_ok now event -> is_update_or_delete event = false -> ev_Operation event = OperationInsert.
Proof.
  intros [Hop _]. rewrite is_update_or_delete_decide, bool_decide_eq_false.
  unfold changes_rows. set_solver.
Qed.

Lemma event_ok_storable now event n :
  event_ok now event -> (1 <= n <= 10)%N -> storable_entry (event_entry now n event).
Proof. intros [_ Hst] Hn. rewrite Forall_forall in Hst. by apply Hst, elem_of_numbers. Qed.

Lemma thread_ok_HandleChange i now event log :
  event_ok now event -> thread_ok (raft_HandleChange_prog (tables i) now event) log.
Proof.
  intros Hok. unfold raft_HandleChange_prog.
  destruct (tables i !! ev_TableName event) as [cfg|] eqn:Hc; try exact I.
  destruct (is_update_or_delete event) eqn:Hop; try exact I.
  apply (always_reading cluster_contract cluster_laws).
  intros log' st Hp [Hs [a [_ Ht _ Hcaught]]].
  assert (no_colon (ev_TableName event) = true) as Hcol.
  { destruct (event_ok_storable now event 1 Hok ltac:(lia)) as (_ & _ & Hcol). exact Hcol. }
  destruct (typed_next tables _ _ Hs Ht Hcol) as (seq & -> & Hn & Hf).
  apply (always_bind cluster_contract).
  - apply (always_ApplyLog cluster_contract cluster_laws). intros data Hm. left.
    exists i, now, seq, event. split.
    + split; [by rewrite Hc|by eapply event_ok_insert|done|by apply event_ok_storable|done].
    + destruct Hf as [Hf|Hf]; [by left|right]. by eapply caught_key.
  - intros [u|e|w] log1 Hp1; try exact I.
    apply (always_node_leads cluster_contract cluster_laws). by intros [].
Qed.
End threads.
