(* ===== verification/Cluster.v ===== *)
(** * The cluster: interleaved steps of all nodes

    A node runs its goroutines on one storage and one Raft node: the
    replication client calls the handler, the tickers call [VerifyTable],
    Raft calls the state machine to apply, snapshot and restore.  A step of
    the cluster is one action of one such call on one member, or an event of
    Raft: a change of leader or view, a log whose fate was open that is
    committed after all, a restart, which kills the calls that run.  Any
    interleaving of any calls is a run.

    [grows] is what Raft promises of a submission: a log is only ever
    committed at the end of the cluster's log.  A member's store is on disk
    and survives a restart; Raft then applies the log again, from its start
    or from a snapshot.  The writes of the state machine succeed here: one
    that fails is lost, because nothing looks at the response of [Apply].
    [Apply] is one transaction, and [Restore] is one step, as Raft runs it on
    a member that does not lead. *)

From Stdlib Require Import NArith.
From S2P Require Import Prelude Bytes Json JsonFacts Codec Hasher Bolt Keys Storage TableView.
From S2P Require Import StorageFacts BoltStore AnyData Fsm Node FsmFacts Replication Handler.
From S2P Require Import HandlerFacts Verifier Threads Submitted Buckets ThreadFacts.

Section cluster.
Context `{RO : RangeOrder} `{HF : HashFunction} `{B : Bolt} `{R : RaftLib}
  `{FC : FloatConversion}.

(** One process: its store, its Raft node, how many logs of the cluster its
    state machine has applied since Raft started it, and the calls that
    run. *)
Record Member := {
  mb_storage : Storage B;
  mb_node : Node;
  mb_applied : nat;
  mb_threads : list (prog (VState B R) (result unit))
}.

Definition mb_state (m : Member) : VState B R :=
  {| vs_storage := mb_storage m; vs_node := Some (mb_node m) |}.

Definition set_threads (m : Member) (threads : list (prog (VState B R) (result unit))) : Member :=
  {| mb_storage := mb_storage m; mb_node := mb_node m; mb_applied := mb_applied m;
     mb_threads := threads |}.

Record Cluster := {
  cu_log : list string;                 (** the data of the committed logs *)
  cu_in_doubt : list string;            (** submitted, with an open fate *)
  cu_snapshots : list (nat * string);   (** index and text *)
  cu_members : gmap string Member
}.

Definition put_member (i : string) (m : Member) (c : Cluster) : Cluster := {|
  cu_log := cu_log c; cu_in_doubt := cu_in_doubt c; cu_snapshots := cu_snapshots c;
  cu_members := <[i := m]> (cu_members c) |}.

Definition at_index (m : Member) (s : Storage B) (applied : nat) : Member :=
  {| mb_storage := s; mb_node := mb_node m; mb_applied := applied;
     mb_threads := mb_threads m |}.

(** Raft hands the next committed log to the state machine; a panic of
    [Apply] kills the process, its error is dropped. *)
Definition apply_next (i : string) (c : Cluster) : option Cluster :=
  m ← cu_members c !! i;
  data ← cu_log c !! mb_applied m;
  let '(r, s') := Apply None (raft_log (S (mb_applied m)) data) (mb_storage m) in
  if is_Panic r then None
  else Some (put_member i (at_index m s' (S (mb_applied m))) c).

Fixpoint apply_many (k : nat) (i : string) (c : Cluster) : option Cluster :=
  match k with
  | O => Some c
  | S k' => c' ← apply_next i c; apply_many k' i c'
  end.

(** Raft starts a member from a snapshot. *)
Definition restore_at (i : string) (snapshot : nat * string) (c : Cluster) : option Cluster :=
  m ← cu_members c !! i;
  match Restore (fun _ => None) snapshot.2 (mb_storage m) with
  | (Ok _, s') => Some (put_member i (at_index m s' snapshot.1) c)
  | _ => None
  end.

(** A call took the node from [n] to [n']: what it left in doubt is in doubt
    for the cluster, and it committed something only if its node knew the
    whole log of the cluster, which then is the node's new one. *)
Definition grows (c : Cluster) (n n' : Node) (log' doubt' : list string) : Prop :=
  exists new, raft_in_doubt n' = raft_in_doubt n ++ new /\ doubt' = cu_in_doubt c ++ new
  /\ (raft_committed n' = raft_committed n /\ log' = cu_log c
      \/ raft_committed n = cu_log c /\ log' = raft_committed n').

(** The tables each member protects. *)
Variable tables : string -> tableConfigs.

Inductive step (c : Cluster) : Cluster -> Prop :=
  | step_change i m now event :
      cu_members c !! i = Some m -> event_ok now event ->
      step c (put_member i (set_threads m
        (mb_threads m ++ [raft_HandleChange_prog (tables i) now event])) c)
  | step_verify i m g now io pg1 pg2 t :
      cu_members c !! i = Some m ->
      step c (put_member i (set_threads m
        (mb_threads m ++ [VerifyTable_prog g now io pg1 pg2 t])) c)
  | step_action i m k f p' st' n' log' doubt' :
      cu_members c !! i = Some m -> mb_threads m !! k = Some (Act f) ->
      f (mb_state m) = (p', st') -> vs_node st' = Some n' ->
      grows c (mb_node m) n' log' doubt' ->
      step c {| cu_log := log'; cu_in_doubt := doubt'; cu_snapshots := cu_snapshots c;
        cu_members := <[i := {| mb_storage := vs_storage st'; mb_node := n';
                                mb_applied := mb_applied m;
                                mb_threads := <[k := p']> (mb_threads m) |}]> (cu_members c) |}
  | step_late before data after :
      cu_in_doubt c = before ++ data :: after ->
      step c {| cu_log := cu_log c ++ [data]; cu_in_doubt := before ++ after;
                cu_snapshots := cu_snapshots c; cu_members := cu_members c |}
  | step_raft i m r :
      cu_members c !! i = Some m -> committed r `prefix_of` cu_log c ->
      step c (put_member i {| mb_storage := mb_storage m; mb_node := set_raft (mb_node m) r;
                              mb_applied := mb_applied m; mb_threads := mb_threads m |} c)
  | step_apply i c' :
      apply_next i c = Some c' -> step c c'
  | step_snapshot i m index text :
      cu_members c !! i = Some m -> index <= mb_applied m ->
      Persist None None (Snapshot (mb_storage m)) = Ok text ->
      step c {| cu_log := cu_log c; cu_in_doubt := cu_in_doubt c;
                cu_snapshots := cu_snapshots c ++ [(index, text)]; cu_members := cu_members c |}
  | step_restore i snapshot c' :
      snapshot ∈ cu_snapshots c -> restore_at i snapshot c = Some c' -> step c c'
  | step_restart i m :
      cu_members c !! i = Some m ->
      step c (put_member i (set_threads (at_index m (mb_storage m) 0) []) c).

(** A new cluster: no log, and stores without hash entries. *)
Definition new_member (m : Member) : Prop :=
  ready storage_buckets (mb_storage m) /\ chain (mb_storage m) = ∅
  /\ mb_applied m = 0 /\ mb_threads m = [] /\ raft_committed (mb_node m) = [].

Record initial (c : Cluster) : Prop := {
  initial_log : cu_log c = [];
  initial_in_doubt : cu_in_doubt c = [];
  initial_snapshots : cu_snapshots c = [];
  initial_members : map_Forall (fun _ => new_member) (cu_members c)
}.

Definition reachable (c : Cluster) : Prop := exists c0, initial c0 /\ rtc step c0 c.

(** A member that has applied the whole log. *)
Definition caught_up (c : Cluster) (m : Member) : Prop := mb_applied m = length (cu_log c).

(** Member [i] has caught up and holds the agreed entries. *)
Definition in_agreement (i : string) (c : Cluster) : Prop :=
  exists m, cu_members c !! i = Some m /\ caught_up c m
    /\ chain (mb_storage m) = agreed_chain (cu_log c).
End cluster.
Arguments Member B R : clear implicits, rename.
Arguments Cluster B R : clear implicits, rename.
