(* ===== verification/Agreement.v ===== *)
(** * Agreement of the members of a cluster

    The invariant of every reachable state: each log that Raft carries is
    the insert of a row, numbered after an entry the logs before it store,
    or a checkpoint; each member's bucket of hash entries, and that of every
    snapshot, becomes the bucket the whole log stands for once the logs it
    has not applied yet are applied; every call that runs may go on at any
    time.  From it: members that have caught up agree, every stored pair is a
    recorded insert, its number is at most 10, and every member can catch
    up. *)

From Stdlib Require Import NArith ZArith Lia.
From S2P Require Import Prelude Bytes Json JsonFacts Codec Hasher Bolt Keys Storage TableView.
From S2P Require Import StorageFacts BoltStore AnyData Fsm Node FsmFacts Replication Handler.
From S2P Require Import HandlerFacts Verifier Threads Submitted Buckets ThreadFacts Cluster.

Section agreement.
Context `{RO : RangeOrder} `{HF : HashFunction} {B : Bolt} {BL : BoltLaws B}.
Context `{R : RaftLib} {RL : RaftLaws R} `{FC : FloatConversion}.
Variable tables : string -> tableConfigs.
Implicit Types (c : Cluster B R) (m : Member B R) (s : Storage B) (n : Node) (log : list string).
Implicit Types (b : gmap string string).
Local Notation logged := (logged tables).
Local Notation ordered := (ordered tables).
Local Notation bucket_ok := (bucket_ok tables).

(** ** The steps of the state machine *)

Definition threads_ok log m : Prop := Forall (fun p => thread_ok tables p log) (mb_threads m).

Record member_ok log m : Prop := {
  member_ready : ready storage_buckets (mb_storage m);
  member_bucket : bucket_ok log (mb_applied m) (chain (mb_storage m));
  member_threads : threads_ok log m
}.

Definition snapshot_ok log (snapshot : nat * string) : Prop :=
  exists s, ready storage_buckets s /\ bucket_ok log snapshot.1 (chain s)
    /\ Persist None None s = Ok snapshot.2.

Lemma logged_no_panic log data k s :
  logged log data -> ready storage_buckets s -> is_Panic (Apply None (raft_log k data) s).1 = false.
Proof.
  intros Hd Hs. apply not_true_iff_false. intros Hp.
  apply (proj1 (Apply_panic_iff None _ s Hs)) in Hp.
  destruct Hd as [(i & now & seq & event & Hio & _)|Hc].
  - by destruct (insert_of_writes _ now seq event data (raft_log k data) Hio eq_refl) as [_ []].
  - by destruct (checkpoint_log_writes data (raft_log k data) Hc eq_refl) as [_ []].
Qed.

Lemma Apply_bucket log a data k s :
  ordered log -> log !! a = Some data -> ready storage_buckets s -> bucket_ok log a (chain s) ->
  let s' := (Apply None (raft_log k data) s).2 in
  ready storage_buckets s' /\ bucket_ok log (S a) (chain s').
Proof.
  intros Hlog Ha Hs Hb s'.
  destruct (Apply_writes None (raft_log k data) s Hs) as (Hs' & Hch & _). split; [done|].
  assert (chain s' = insert_pairs (log_pairs [data]) (chain s)) as ->; [|by apply bucket_ok_apply].
  unfold s'. rewrite Hch. unfold log_pairs. simpl.
  change (log_writes (raft_log k data)) with (log_writes (raft_log 0 data)).
  by destruct (log_writes (raft_log 0 data)) as [[[]|] ?].
Qed.

(** [apply_next] goes on until the log is applied. *)
Lemma apply_next_ok i c m :
  ordered (cu_log c) -> cu_members c !! i = Some m -> member_ok (cu_log c) m ->
  mb_applied m < length (cu_log c) ->
  exists s', apply_next i c = Some (put_member i (at_index m s' (S (mb_applied m))) c)
    /\ member_ok (cu_log c) (at_index m s' (S (mb_applied m))).
Proof.
  intros Hlog Hm [Hs Hb Ht] Hlt. destruct (lookup_lt_is_Some_2 _ _ Hlt) as [data Hd].
  pose proof (logged_no_panic _ data (S (mb_applied m)) _ (Hlog _ _ Hd) Hs) as Hp.
  destruct (Apply_bucket _ _ data (S (mb_applied m)) _ Hlog Hd Hs Hb) as [Hs' Hb'].
  unfold apply_next. rewrite Hm. simpl. rewrite Hd. simpl.
  destruct (Apply None _ (mb_storage m)) as [r s']. simpl in *. rewrite Hp.
  exists s'. by split.
Qed.

Lemma restore_at_ok i c m snapshot :
  cu_members c !! i = Some m -> member_ok (cu_log c) m -> snapshot_ok (cu_log c) snapshot ->
  exists s', restore_at i snapshot c = Some (put_member i (at_index m s' snapshot.1) c)
    /\ member_ok (cu_log c) (at_index m s' snapshot.1).
Proof.
  intros Hm [Hs Hb Ht] (s1 & Hs1 & Hb1 & Hp).
  destruct (Restore_Persist_chain s1 (mb_storage m) Hs1 Hs (typed_wf _ _ (bucket_typed _ _ _ _ Hb1)))
    as (text & s' & Hp' & Hr & Hs' & Hch & _).
  assert (text = snapshot.2) as -> by congruence. unfold restore_at. rewrite Hm. simpl. rewrite Hr.
  exists s'. split; [done|]. split; [done| |done]. simpl. rewrite Hch. by eapply bucket_ok_restore.
Qed.

(** ** The invariant *)

Record cluster_ok c : Prop := {
  ok_log : ordered (cu_log c);
  ok_in_doubt : Forall (logged (cu_log c)) (cu_in_doubt c);
  ok_snapshots : Forall (snapshot_ok (cu_log c)) (cu_snapshots c);
  ok_members : map_Forall (fun _ => member_ok (cu_log c)) (cu_members c)
}.

Lemma initial_ok c : initial c -> cluster_ok c.
Proof.
  intros [Hl Hd Hs Hm]. split; rewrite ?Hl, ?Hd, ?Hs; [apply ordered_nil|constructor..|].
  intros i m Hi. destruct (Hm i m Hi) as (Hr & Hch & Ha & Ht & _). split; [done| |].
  - rewrite Hch, Ha. apply bucket_ok_empty.
  - unfold threads_ok. by rewrite Ht.
Qed.

Lemma logged_grow log ext data : logged log data -> logged (log ++ ext) data.
Proof. apply logged_prefix. by apply prefix_app_r. Qed.

Lemma snapshot_ok_grow log ext snapshot :
  snapshot_ok log snapshot -> snapshot_ok (log ++ ext) snapshot.
Proof. intros (s & ? & ? & ?). exists s. eauto using bucket_ok_grow. Qed.

Lemma threads_ok_grow log ext m : threads_ok log m -> threads_ok (log ++ ext) m.
Proof.
  intros Ht. eapply Forall_impl; [exact Ht|]. intros p. apply thread_ok_prefix.
  by apply prefix_app_r.
Qed.

Lemma member_ok_grow log ext m : member_ok log m -> member_ok (log ++ ext) m.
Proof. intros [? ? ?]. split; eauto using bucket_ok_grow, threads_ok_grow. Qed.

(** A step that extends the log and replaces one member. *)
Lemma cluster_ok_grow c ext doubt' i m :
  cluster_ok c -> ordered (cu_log c ++ ext) -> Forall (logged (cu_log c ++ ext)) doubt' ->
  member_ok (cu_log c ++ ext) m ->
  cluster_ok {| cu_log := cu_log c ++ ext; cu_in_doubt := doubt';
                cu_snapshots := cu_snapshots c; cu_members := <[i := m]> (cu_members c) |}.
Proof.
  intros [Hl Hd Hs Hm] Hl' Hd' Hm'. split; simpl; [done|done| |].
  - eapply Forall_impl; [done|]. intros. by apply snapshot_ok_grow.
  - apply map_Forall_insert_2; [done|]. intros j mj Hj. by eapply member_ok_grow, Hm.
Qed.

Lemma cluster_ok_put c i m : cluster_ok c -> member_ok (cu_log c) m -> cluster_ok (put_member i m c).
Proof.
  intros Hok Hm. pose proof (cluster_ok_grow c [] (cu_in_doubt c) i m Hok) as H.
  rewrite app_nil_r in H. apply H; [apply Hok..|done].
Qed.

(** A call more. *)
Lemma member_ok_spawn log m p :
  member_ok log m -> thread_ok tables p log -> member_ok log (set_threads m (mb_threads m ++ [p])).
Proof.
  intros [? ? ?] Hp. split; [done|done|]. apply Forall_app. split; [done|].
  by constructor.
Qed.

Lemma app_self_nil {A} (l k : list A) : l = l ++ k -> k = [].
Proof. intros H. rewrite <-(app_nil_r l) in H at 1. by apply app_inv_head in H. Qed.

(** What a submission adds to the cluster: nothing, a log, or a doubt. *)
Lemma grows_submits (P : string -> Prop) c n n' log' doubt' :
  grows c n n' log' doubt' -> submits P n n' ->
  exists ext new, log' = cu_log c ++ ext /\ doubt' = cu_in_doubt c ++ new /\ Forall P new
    /\ (ext = [] \/ exists data, P data /\ ext = [data]).
Proof.
  intros (new & Hnew & -> & Hlog) [[Hc Hd]|[Hd (data & Hp & Hc)]].
  - assert (log' = cu_log c ++ []) as ->.
    { rewrite app_nil_r. destruct Hlog as [[_ ->]|[<- ->]]; done. }
    exists [], new. split_and!; [done..| |by left].
    destruct Hd as [Hd|(data & Hp & Hd)]; rewrite Hd in Hnew.
    + apply app_self_nil in Hnew as ->. constructor.
    + apply app_inv_head in Hnew as <-. by constructor.
  - rewrite Hd in Hnew. apply app_self_nil in Hnew as ->.
    exists [data], []. split_and!; [|done|constructor|eauto].
    destruct Hlog as [[Hsame _]|[<- ->]]; [|done].
    rewrite Hc in Hsame. symmetry in Hsame. by apply app_self_nil in Hsame.
Qed.

(** One action of one call. *)
Lemma action_ok c i m k f p' st' n' log' doubt' :
  cluster_ok c -> cu_members c !! i = Some m -> mb_threads m !! k = Some (Act f) ->
  f (mb_state m) = (p', st') -> vs_node st' = Some n' -> grows c (mb_node m) n' log' doubt' ->
  cluster_ok {| cu_log := log'; cu_in_doubt := doubt'; cu_snapshots := cu_snapshots c;
    cu_members := <[i := {| mb_storage := vs_storage st'; mb_node := n';
      mb_applied := mb_applied m; mb_threads := <[k := p']> (mb_threads m) |}]> (cu_members c) |}.
Proof.
  intros Hok Hi Hk Hf Hn Hg. pose proof Hok as [Hl Hd _ Hm]. destruct (Hm i m Hi) as [Hs Hb Ht].
  pose proof (Forall_lookup_1 _ _ _ _ Ht Hk (cu_log c) (mb_state m) (reflexivity _)) as Hact.
  rewrite Hf in Hact. destruct Hact as ((Hs' & Hch & Hnode) & Hp'); [split; [done|by eexists]|].
  destruct (Hnode _ eq_refl) as (n1 & E & Hsub). assert (n1 = n') as -> by congruence.
  destruct (grows_submits _ _ _ _ _ _ Hg Hsub) as (ext & new & -> & -> & Hnew & Hext).
  apply cluster_ok_grow; [done|..].
  - destruct Hext as [->|(data & Hdata & ->)]; [by rewrite app_nil_r|by apply ordered_snoc].
  - apply Forall_app; split; (eapply Forall_impl; [done|]); intros data; apply logged_grow.
  - apply member_ok_grow. split; simpl; [done|by rewrite Hch|].
    apply Forall_insert; [done|]. exact Hp'.
Qed.

(** A log whose fate was open is committed. *)
Lemma late_ok c before data after :
  cluster_ok c -> cu_in_doubt c = before ++ data :: after ->
  cluster_ok {| cu_log := cu_log c ++ [data]; cu_in_doubt := before ++ after;
                cu_snapshots := cu_snapshots c; cu_members := cu_members c |}.
Proof.
  intros [Hl Hd Hs Hm] Hb. rewrite Hb in Hd. apply Forall_app in Hd as [Hd1 [Hd2 Hd3]%Forall_cons].
  split; simpl; [by apply ordered_snoc| | |].
  - apply Forall_app; split; (eapply Forall_impl; [done|]); intros data'; apply logged_grow.
  - eapply Forall_impl; [done|]. intros. by apply snapshot_ok_grow.
  - intros j mj Hj. by eapply member_ok_grow, Hm.
Qed.

Lemma step_ok c c' : cluster_ok c -> step tables c c' -> cluster_ok c'.
Proof.
  intros Hok Hstep. pose proof Hok as [Hl Hd Hs Hm]. destruct Hstep as
    [i m now event Hi Hev|i m g now io pg1 pg2 t Hi|i m k f p' st' n' log' doubt' Hi Hk Hf Hn Hg
    |before data after Hb|i m r Hi _|i c' Hrun|i m index text Hi Hle Hp
    |i snapshot c' Hin Hrun|i m Hi].
  - apply cluster_ok_put; [done|]. apply member_ok_spawn; [exact (Hm i m Hi)|].
    by apply thread_ok_HandleChange.
  - apply cluster_ok_put; [done|]. apply member_ok_spawn; [exact (Hm i m Hi)|].
    apply thread_ok_VerifyTable.
  - by eapply action_ok.
  - by apply late_ok.
  - apply cluster_ok_put; [done|]. destruct (Hm i m Hi) as [? ? ?]. by split.
  - unfold apply_next in Hrun. destruct (cu_members c !! i) as [m|] eqn:Hi; [|done]. simpl in Hrun.
    destruct (cu_log c !! mb_applied m) as [data|] eqn:Hd'; [|done].
    destruct (apply_next_ok i c m Hl Hi (Hm i m Hi)) as (s' & E & Hm'); [by eapply lookup_lt_Some|].
    unfold apply_next in E. rewrite Hi in E. simpl in E. rewrite Hd' in E. simpl in *.
    rewrite E in Hrun. injection Hrun as <-. by apply cluster_ok_put.
  - split; simpl; [done..| |done]. apply Forall_app; split; [done|]. constructor; [|done].
    destruct (Hm i m Hi) as [Hr Hbk _]. exists (mb_storage m). split_and!; [done| |done].
    simpl. by eapply bucket_ok_lower.
  - destruct (cu_members c !! i) as [m|] eqn:Hi; [|unfold restore_at in Hrun; by rewrite Hi in Hrun].
    rewrite Forall_forall in Hs.
    destruct (restore_at_ok i c m snapshot Hi (Hm i m Hi) (Hs _ Hin)) as (s' & E & Hm').
    rewrite E in Hrun. injection Hrun as <-. by apply cluster_ok_put.
  - apply cluster_ok_put; [done|]. destruct (Hm i m Hi) as [Hr Hbk _]. split; [done| |by constructor].
    simpl. eapply bucket_ok_lower; [|done]. lia.
Qed.

Lemma reachable_ok c : reachable tables c -> cluster_ok c.
Proof.
  intros (c0 & Hinit & Hrun). apply initial_ok in Hinit.
  induction Hrun as [|c1 c2 c3 Hstep _ IH]; [done|]. by apply IH, (step_ok c1).
Qed.
(** ** Catching up *)

Lemma apply_many_ok k i c m :
  cluster_ok c -> cu_members c !! i = Some m -> mb_applied m + k = length (cu_log c) ->
  exists c', apply_many k i c = Some c' /\ rtc (step tables) c c' /\ cu_log c' = cu_log c
    /\ in_agreement i c'.
Proof.
  revert c m. induction k as [|k IH]; intros c m Hok Hm Hk.
  - exists c. split_and!; [done..|]. exists m. split_and!; [done|unfold caught_up; lia|].
    destruct (ok_members c Hok i m Hm) as [_ Hb _]. apply caught_end.
    replace (length (cu_log c)) with (mb_applied m) by lia. apply Hb.
  - pose proof (ok_members c Hok i m Hm) as Hmem.
    destruct (apply_next_ok i c m (ok_log c Hok) Hm Hmem) as (s' & E & Hm'); [lia|].
    destruct (IH (put_member i (at_index m s' (S (mb_applied m))) c)
      (at_index m s' (S (mb_applied m)))) as (c' & E' & Hrun & Hlog & Hagree).
    + by apply cluster_ok_put.
    + simpl. by rewrite lookup_insert_eq.
    + simpl. lia.
    + exists c'. cbn [apply_many]. rewrite E. simpl. split_and!; [done| |done..].
      eapply rtc_l; [by eapply step_apply|done].
Qed.

Lemma restore_catches_up i c m snapshot :
  cluster_ok c -> cu_members c !! i = Some m -> snapshot ∈ cu_snapshots c ->
  exists c1 c', restore_at i snapshot c = Some c1
    /\ apply_many (length (cu_log c) - snapshot.1) i c1 = Some c'
    /\ cu_log c' = cu_log c /\ in_agreement i c'.
Proof.
  intros Hok Hm Hin. pose proof (ok_snapshots c Hok) as Hs. rewrite Forall_forall in Hs.
  destruct (restore_at_ok i c m snapshot Hm (ok_members c Hok i m Hm) (Hs _ Hin)) as (s' & E & Hm').
  destruct (Hs _ Hin) as (_ & _ & [Hle _ _ _] & _).
  destruct (apply_many_ok (length (cu_log c) - snapshot.1) i
    (put_member i (at_index m s' snapshot.1) c) (at_index m s' snapshot.1))
    as (c' & E' & _ & Hlog & Hagree).
  - by apply cluster_ok_put.
  - simpl. by rewrite lookup_insert_eq.
  - simpl. lia.
  - eauto 6.
Qed.
End agreement.

(** ** Running a call *)

(** One action of the [k]-th call of member [i], when what it submits is
    committed at once or not at all. *)
Definition act_at `{R : RaftLib} {B} (i : string) (k : nat) (c : Cluster B R) : option (Cluster B R) :=
  m ← cu_members c !! i;
  p ← mb_threads m !! k;
  match p with
  | Ret _ => None
  | Act f =>
      let '(p', st') := f (mb_state m) in
      n' ← vs_node st';
      let log' := raft_committed n' in
      guard (raft_in_doubt n' = raft_in_doubt (mb_node m)
             /\ raft_committed (mb_node m) = cu_log c);;
      Some {| cu_log := log'; cu_in_doubt := cu_in_doubt c; cu_snapshots := cu_snapshots c;
        cu_members := <[i := {| mb_storage := vs_storage st'; mb_node := n';
          mb_applied := mb_applied m; mb_threads := <[k := p']> (mb_threads m) |}]> (cu_members c) |}
  end.

Fixpoint acts_at `{R : RaftLib} {B} (steps : nat) (i : string) (k : nat) (c : Cluster B R)
    : option (Cluster B R) :=
  match steps with
  | O => Some c
  | S steps' => c' ← act_at i k c; acts_at steps' i k c'
  end.

Section acts.
Context `{RO : RangeOrder} `{HF : HashFunction} `{B : Bolt} `{R : RaftLib} `{FC : FloatConversion}.
Variable tables : string -> tableConfigs.
Implicit Types (c : Cluster B R).

Lemma act_at_step i k c c' : act_at i k c = Some c' -> step tables c c'.
Proof.
  unfold act_at. destruct (cu_members c !! i) as [m|] eqn:Hm; [|done]. simpl.
  destruct (mb_threads m !! k) as [[r|f]|] eqn:Hk; [done| |done]. simpl.
  destruct (f (mb_state m)) as [p' st'] eqn:Hf. destruct (vs_node st') as [n'|] eqn:Hn; [|done].
  simpl. case_guard as Hg; [|done]. simpl. intros [= <-]. destruct Hg as [Hd Hc].
  eapply step_action; [done..|]. exists []. rewrite !app_nil_r. split_and!; [done..|]. by right.
Qed.

Lemma acts_at_steps steps i k c c' : acts_at steps i k c = Some c' -> rtc (step tables) c c'.
Proof.
  revert c. induction steps as [|steps IH]; intros c; [by intros [= <-]|]. cbn [acts_at].
  destruct (act_at i k c) as [c1|] eqn:Ha; [|done]. simpl. intros Hc.
  eapply rtc_l; [by eapply act_at_step|by apply IH].
Qed.

Lemma reachable_rtc c c' : reachable tables c -> rtc (step tables) c c' -> reachable tables c'.
Proof. intros (c0 & Hi & H0) H. exists c0. split; [done|]. by etrans. Qed.

Lemma reachable_acts steps i k c d :
  reachable tables c -> is_Some (acts_at steps i k c) ->
  reachable tables (default d (acts_at steps i k c)).
Proof.
  intros Hc [c' Ha]. rewrite Ha. eapply reachable_rtc; [done|]. by eapply acts_at_steps.
Qed.
End acts.

(** ** Examples for the witnesses *)

(** Two members; the leader handles an insert, which nobody applies: it reads
    the next number, asks Raft for its state and submits. *)
Definition follower_node : Node (R := list_raft) :=
  {| node_config := example_config; node_raft := Some (false, []) : option (Raft (RaftLib := list_raft)) |}.

Definition example_tables (_ : string) : tableConfigs := users_config.

Definition fresh_member (n : Node (R := list_raft)) : Member map_bolt list_raft :=
  {| mb_storage := empty_storage; mb_node := n; mb_applied := 0; mb_threads := [] |}.

Definition example_cluster : Cluster map_bolt list_raft := {|
  cu_log := []; cu_in_doubt := []; cu_snapshots := [];
  cu_members := {[ "node1" := fresh_member leader_node; "node2" := fresh_member follower_node ]} |}.

Definition alice_event : ChangeEvent := user_event OperationInsert 1 "Alice".

(** Member [i], which is [m], handles an event. *)
Definition handling (i : string) (m : Member map_bolt list_raft) (event : ChangeEvent)
    (c : Cluster map_bolt list_raft) : Cluster map_bolt list_raft :=
  put_member i (set_threads m (mb_threads m ++
    [raft_HandleChange_prog (RO := canonical_order) (HF := length_hash_function) (B := map_bolt)
       (example_tables i) noon event])) c.

Definition cluster_handling : Cluster map_bolt list_raft :=
  handling "node1" (fresh_member leader_node) alice_event example_cluster.

Definition cluster_after : Cluster map_bolt list_raft :=
  default cluster_handling (acts_at 3 "node1" 0 cluster_handling).

Notation example_reachable :=
  (reachable (RO := canonical_order) (HF := length_hash_function) (FC := zero_float) example_tables).

Lemma example_initial : initial example_cluster.
Proof.
  split; [done..|]. intros i m Hi. unfold new_member. simpl in Hi.
  apply lookup_insert_Some in Hi as [[_ <-]|[_ Hi]];
    [|apply lookup_singleton_Some in Hi as [_ <-]];
    (split_and!; [exact empty_storage_ready|done..]).
Qed.

Lemma handling_reachable i m event c :
  example_reachable c -> cu_members c !! i = Some m -> 
  event_ok (RO := canonical_order) (HF := length_hash_function) noon event ->
  example_reachable (handling i m event c).
Proof.
  intros Hc Hm Hev. eapply reachable_rtc; [done|]. apply rtc_once. by apply step_change.
Qed.

Lemma cluster_after_reachable : example_reachable cluster_after.
Proof.
  apply reachable_acts; [|by_decide]. apply handling_reachable; [|done|by_decide].
  exists example_cluster. split; [exact example_initial|done].
Qed.

(** The leader has applied its insert. *)
Definition cluster_applied : Cluster map_bolt list_raft :=
  default cluster_after (apply_next (FC := zero_float) "node1" cluster_after).

Definition applied_member (i : string) : Member map_bolt list_raft :=
  default (fresh_member leader_node) (cu_members cluster_applied !! i).

Lemma cluster_applied_reachable : example_reachable cluster_applied.
Proof.
  eapply reachable_rtc; [exact cluster_after_reachable|]. apply rtc_once, step_apply with "node1".
  unfold cluster_applied.
  assert (is_Some (apply_next (FC := zero_float) "node1" cluster_after)) as [c' ->] by by_decide.
  done.
Qed.

(** *** A leader that lags

    The leadership moves to a member that has not applied the first insert:
    it numbers the next insert from its own store. *)
Definition bob_event : ChangeEvent := user_event OperationInsert 2 "Bob".

Definition new_leader : Member map_bolt list_raft :=
  fresh_member (set_raft follower_node
    ((true, cu_log cluster_after) : Raft (RaftLib := list_raft))).

Definition cluster_elected : Cluster map_bolt list_raft :=
  put_member "node2" new_leader cluster_after.

Definition cluster_lagging : Cluster map_bolt list_raft :=
  let c := handling "node2" new_leader bob_event cluster_elected in
  default c (acts_at 3 "node2" 0 c).

Lemma cluster_lagging_reachable : example_reachable cluster_lagging.
Proof.
  apply reachable_acts; [|by_decide]. apply handling_reachable; [|by_vm|by_decide].
  eapply reachable_rtc; [exact cluster_after_reachable|]. apply rtc_once.
  apply (step_raft (RO := canonical_order) (HF := length_hash_function) (FC := zero_float)
    example_tables cluster_after "node2" (fresh_member follower_node)
    ((true, cu_log cluster_after) : Raft (RaftLib := list_raft))); [by_vm|by_decide].
Qed.

(** Two inserts of different rows were committed; the members agree on one
    entry. *)
Lemma lagging_leader_overwrites :
  example_reachable cluster_lagging
  /\ length (cu_log cluster_lagging) = 2
  /\ size (agreed_chain (FC := zero_float) (cu_log cluster_lagging)) = 1.
Proof. split; [exact cluster_lagging_reachable|]. split; by_vm. Qed.

(** ** Properties *)

(** C6: the members of a cluster agree.  In every state that any
    interleaving of the single actions (a transaction of the store, a call of
    Raft) of event handlers and verifications with leader changes, snapshots,
    restores and restarts reaches, each member's hash entries become, by the
    logs it has not applied, the entries the whole log stands for; so two
    members that have applied the whole log hold the same entries, byte for
    byte. *)
Theorem cluster_converges {RO : RangeOrder} {HF : HashFunction} {B : Bolt} {BL : BoltLaws B}
    {R : RaftLib} {RL : RaftLaws R} {FC : FloatConversion} (tables : string -> tableConfigs)
    (c : Cluster B R) :
  reachable tables c ->
  (forall i m, cu_members c !! i = Some m ->
     agreed_chain (drop (mb_applied m) (cu_log c)) ∪ chain (mb_storage m)
     = agreed_chain (cu_log c))
  /\ forall i j m1 m2, cu_members c !! i = Some m1 -> cu_members c !! j = Some m2 ->
       caught_up c m1 -> caught_up c m2 -> chain (mb_storage m1) = chain (mb_storage m2).
Proof.
  intros Hc%reachable_ok.
  assert (forall i m, cu_members c !! i = Some m ->
    caught (cu_log c) (mb_applied m) (chain (mb_storage m))) as H.
  { intros i m Hm. apply (ok_members tables c Hc i m Hm). }
  split; [exact H|]. intros i j m1 m2 H1%H H2%H E1 E2. rewrite E1 in H1. rewrite E2 in H2.
  apply caught_end in H1 as ->. by apply caught_end in H2 as ->.
Qed.

Theorem cluster_converges_witness :
  let c := cluster_applied in
  (forall i m, cu_members c !! i = Some m ->
     agreed_chain (FC := zero_float) (drop (mb_applied m) (cu_log c)) ∪ chain (mb_storage m)
     = agreed_chain (FC := zero_float) (cu_log c))
  /\ forall i j m1 m2, cu_members c !! i = Some m1 -> cu_members c !! j = Some m2 ->
       caught_up c m1 -> caught_up c m2 -> chain (mb_storage m1) = chain (mb_storage m2).
Proof.
  apply (cluster_converges (RO := canonical_order) (HF := length_hash_function) (B := map_bolt)
    (R := list_raft) (FC := zero_float) example_tables cluster_applied).
  exact cluster_applied_reachable.
Defined.

(** C7: every stored hash entry is the record of an insert.  In every
    reachable state of the cluster, each pair of a member's bucket decodes to
    an entry with the operation INSERT, of a table that some member protects,
    and is stored under the key of that entry: an update, a delete, an event
    of another table or a checkpoint never writes to the hash chain of any
    member. *)
Theorem cluster_records_inserts {RO : RangeOrder} {HF : HashFunction} {B : Bolt} {BL : BoltLaws B}
    {R : RaftLib} {RL : RaftLaws R} {FC : FloatConversion} (tables : string -> tableConfigs)
    (c : Cluster B R) (i : string) (m : Member B R) (k v : string) :
  reachable tables c -> cu_members c !! i = Some m -> chain (mb_storage m) !! k = Some v ->
  exists e, Unmarshal v = Ok e /\ k = table_key (he_TableName e) (he_SequenceNum e)
    /\ he_OperationType e = OperationInsert
    /\ exists j, is_Some (tables j !! he_TableName e).
Proof.
  intros Hc%reachable_ok Hm Hk. destruct (ok_members tables c Hc i m Hm) as [_ [_ Ht _ _] _].
  destruct (Ht k v Hk) as (e & [Hwf Hop Hj _ _]). exists e. split_and!; [|apply Hwf|done|done].
  exact (pair_wf_decodes (k, v) e Hwf).
Qed.

(** The one entry of the example. *)
Definition alice_value : string :=
  default "" (chain (mb_storage (applied_member "node1")) !! "users:1").

Theorem cluster_records_inserts_witness :
  exists e, Unmarshal alice_value = Ok e /\ "users:1" = table_key (he_TableName e) (he_SequenceNum e)
    /\ he_OperationType e = OperationInsert
    /\ exists j, is_Some (example_tables j !! he_TableName e).
Proof.
  apply (cluster_records_inserts (RO := canonical_order) (HF := length_hash_function)
    (B := map_bolt) (R := list_raft) (FC := zero_float) example_tables cluster_applied "node1"
    (applied_member "node1") "users:1" alice_value).
  - exact cluster_applied_reachable.
  - by_vm.
  - by_vm.
Defined.

(** C9: every member can catch up.  In every reachable state, Raft can
    apply to a member all the logs it lacks, one after the other, without a
    panic, and can start it from any snapshot and apply the logs after that
    one; either way, after as many applications as there are logs missing,
    the member holds exactly the agreed entries. *)
Theorem cluster_catches_up {RO : RangeOrder} {HF : HashFunction} {B : Bolt} {BL : BoltLaws B}
    {R : RaftLib} {RL : RaftLaws R} {FC : FloatConversion} (tables : string -> tableConfigs)
    (c : Cluster B R) (i : string) (m : Member B R) :
  reachable tables c -> cu_members c !! i = Some m ->
  (exists c', apply_many (length (cu_log c) - mb_applied m) i c = Some c'
     /\ cu_log c' = cu_log c /\ in_agreement i c')
  /\ forall snapshot, snapshot ∈ cu_snapshots c ->
       exists c1 c', restore_at i snapshot c = Some c1
         /\ apply_many (length (cu_log c) - snapshot.1) i c1 = Some c'
         /\ cu_log c' = cu_log c /\ in_agreement i c'.
Proof.
  intros Hc%reachable_ok Hm. split.
  - destruct (ok_members tables c Hc i m Hm) as [_ [Hle _ _ _] _].
    destruct (apply_many_ok tables (length (cu_log c) - mb_applied m) i c m Hc Hm)
      as (c' & E & _ & Hlog & Hagree); [lia|]. eauto.
  - intros snapshot Hin. by eapply restore_catches_up.
Qed.

Theorem cluster_catches_up_witness :
  let c := cluster_after in
  (exists c', apply_many (FC := zero_float) (1 - 0) "node2" c = Some c'
     /\ cu_log c' = cu_log c /\ in_agreement (FC := zero_float) "node2" c')
  /\ forall snapshot, snapshot ∈ cu_snapshots c ->
       exists c1 c', restore_at "node2" snapshot c = Some c1
         /\ apply_many (FC := zero_float) (1 - snapshot.1) "node2" c1 = Some c'
         /\ cu_log c' = cu_log c /\ in_agreement (FC := zero_float) "node2" c'.
Proof.
  apply (cluster_catches_up (RO := canonical_order) (HF := length_hash_function) (B := map_bolt)
    (R := list_raft) (FC := zero_float) example_tables cluster_after "node2"
    (fresh_member follower_node)).
  - exact cluster_after_reachable.
  - by_vm.
Defined.

(** C8: the numbers of the stored entries.  In every reachable state of the
    cluster, whatever calls are interleaved, each entry of a member's bucket
    is numbered from 1 to 10, and unless it is number 1 the member also holds
    the entry of the same table before it: a table has at most ten entries,
    without a gap, on every member. *)
Theorem cluster_numbers {RO : RangeOrder} {HF : HashFunction} {B : Bolt} {BL : BoltLaws B}
    {R : RaftLib} {RL : RaftLaws R} {FC : FloatConversion} (tables : string -> tableConfigs)
    (c : Cluster B R) (i : string) (m : Member B R) (k v : string) (e : HashEntry) :
  reachable tables c -> cu_members c !! i = Some m ->
  chain (mb_storage m) !! k = Some v -> Unmarshal v = Ok e ->
  (1 <= he_SequenceNum e <= 10)%N
  /\ (he_SequenceNum e <> 1%N ->
        exists v' e', chain (mb_storage m) !! table_key (he_TableName e) (he_SequenceNum e - 1)
            = Some v'
          /\ Unmarshal v' = Ok e' /\ he_TableName e' = he_TableName e
          /\ he_SequenceNum e' = (he_SequenceNum e - 1)%N).
Proof.
  intros Hc%reachable_ok Hm Hk Hu. destruct (ok_members tables c Hc i m Hm) as [_ [_ Ht _ _] _].
  destruct (Ht k v Hk) as (e1 & [Hwf _ _ Hn Hf]).
  pose proof (pair_wf_decodes (k, v) e1 Hwf) as Hu1. assert (e1 = e) as -> by (simpl in Hu1; congruence).
  split; [done|]. intros Hne. destruct Hf as [|[v' Hv']]; [done|].
  destruct (Ht _ _ Hv') as (e' & He'). pose proof (rec_wf _ _ _ _ _ He') as Hwf'.
  exists v', e'. split; [done|]. split; [exact (pair_wf_decodes (_, v') e' Hwf')|].
  destruct Hwf' as (_ & E & _). simpl in E. by apply table_key_inj in E as [-> ->].
Qed.

Theorem cluster_numbers_witness :
  (1 <= 1 <= 10)%N /\ (1%N <> 1%N ->
     exists v' e', chain (mb_storage (applied_member "node1")) !! table_key "users" (1 - 1) = Some v'
       /\ Unmarshal v' = Ok e' /\ he_TableName e' = "users" /\ he_SequenceNum e' = (1 - 1)%N).
Proof.
  apply (cluster_numbers (RO := canonical_order) (HF := length_hash_function) (B := map_bolt)
    (R := list_raft) (FC := zero_float) example_tables cluster_applied "node1"
    (applied_member "node1") "users:1" alice_value
    (event_entry (RO := canonical_order) (HF := length_hash_function) noon 1 alice_event)).
  - exact cluster_applied_reachable.
  - by_vm.
  - by_vm.
  - by_vm.
Defined.
