(* ===== verification/RecordIds.v ===== *)
(** * Record IDs

    The record ID of an entry is the primary key printed as a Go map.  The
    verifier cuts the id of the row out of that text: after the first id: up
    to the next space or bracket. *)

From Stdlib Require Import Ascii NArith ZArith Lia.
From S2P Require Import Prelude Bytes Json JsonFacts Codec DataHash Verifier.

(** No bracket and no space: the text survives [extractIDFromRecordID]. *)
Definition no_end (s : string) : bool :=
  forallb (fun a => negb (Ascii.eqb a "]" || Ascii.eqb a " ")) (String.list_ascii_of_string s).

Lemma until_end_app s a rest :
  no_end s = true -> (Ascii.eqb a "]" || Ascii.eqb a " ") = true ->
  until_end (s +:+ String a rest) = s.
Proof.
  intros Hs Ha. induction s as [|b s IH].
  { rewrite string_app_nil_l. cbn [until_end]. by rewrite Ha. }
  cbn [no_end String.list_ascii_of_string forallb] in Hs. apply andb_prop in Hs as [Hb Hs].
  rewrite string_app_cons. cbn [until_end].
  apply negb_true_iff in Hb. rewrite Hb. f_equal. by apply IH.
Qed.

Lemma sprint_map_pairs (m : gmap string GoValue) l :
  (forall k v, (k, v) ∈ l <-> m !! k = Some v) -> NoDup l.*1 -> StronglySorted String.le l.*1 ->
  sprint_map m = "map[" +:+ (join " " ((fun kv => kv.1 +:+ (":" +:+ sprint_v kv.2)) <$> l) +:+ "]").
Proof.
  intros Hl Hnd Hs. unfold sprint_map.
  assert (sort_strings (elements (dom m)) = l.*1) as ->.
  { apply (StronglySorted_unique String.le); [apply sort_strings_sorted|done|].
    rewrite sort_strings_perm. apply NoDup_Permutation; [apply NoDup_elements|done|].
    intros k. rewrite elem_of_elements, elem_of_dom, list_elem_of_fmap. split.
    - intros [v Hv]. exists (k, v). by rewrite Hl.
    - intros ([k' v] & -> & Hin%Hl). by exists v. }
  rewrite <-list_fmap_compose. do 3 f_equal. apply list_fmap_ext. intros i [k v] Hi. simpl.
  apply list_elem_of_lookup_2, Hl in Hi. by rewrite Hi.
Qed.

Lemma sprint_map_id v : sprint_map {[ "id" := v ]} = "map[id:" +:+ (sprint_v v +:+ "]").
Proof.
  rewrite (sprint_map_pairs _ [("id", v)]).
  - simpl. by rewrite ?string_app_assoc.
  - intros k w. rewrite list_elem_of_singleton, lookup_singleton_Some. naive_solver.
  - apply NoDup_singleton.
  - repeat constructor.
Qed.

Lemma sprint_map_account v w :
  sprint_map {[ "account_id" := v; "id" := w ]}
  = "map[account_id:" +:+ (sprint_v v +:+ (" id:" +:+ (sprint_v w +:+ "]"))).
Proof.
  rewrite (sprint_map_pairs _ [("account_id", v); ("id", w)]).
  - simpl. by rewrite ?string_app_assoc.
  - intros k x. rewrite elem_of_cons, list_elem_of_singleton, lookup_insert_Some,
      lookup_singleton_Some. naive_solver.
  - apply NoDup_cons; split; [|apply NoDup_singleton]. by rewrite list_elem_of_singleton.
  - repeat constructor.
Qed.

(** [extractIDFromRecordID] on a text that starts like a printed map. *)
Lemma extract_after (k s : string) a rest :
  no_end s = true -> (Ascii.eqb a "]" || Ascii.eqb a " ") = true -> 2 <= String.length k ->
  after_id ("map[" +:+ (k +:+ (":" +:+ (s +:+ String a rest)))) = Some (s +:+ String a rest) ->
  extractIDFromRecordID ("map[" +:+ (k +:+ (":" +:+ (s +:+ String a rest)))) = s.
Proof.
  intros Hs Ha Hk Hafter. unfold extractIDFromRecordID. destruct k as [|c k]; [simpl in Hk; lia|].
  destruct (Nat.ltb_spec 7 (String.length ("map[" +:+ (String c k +:+ (":" +:+ (s +:+ String a rest)))))) as [|Hl].
  - change (String.substring 0 4 ("map[" +:+ ?t)) with "map[". cbn [String.eqb Ascii.eqb Bool.eqb andb].
    rewrite Hafter. cbv iota. by apply until_end_app.
  - rewrite !string_length_app in Hl. simpl in Hl, Hk. lia.
Qed.

Lemma extract_id_map v :
  no_end (sprint_v v) = true -> extractIDFromRecordID (sprint_map {[ "id" := v ]}) = sprint_v v.
Proof.
  intros Hv. rewrite sprint_map_id.
  change ("map[id:" +:+ ?t) with ("map[" +:+ ("id" +:+ (":" +:+ t))).
  apply extract_after; [done..|simpl; lia|].
  change (after_id ("map[" +:+ ("id" +:+ (":" +:+ ?t)))) with (if decide (t = "") then None else Some t).
  rewrite decide_False; [done|]. intros E. apply (f_equal String.length) in E.
  rewrite string_length_app in E. simpl in E. lia.
Qed.

Lemma extract_account_map v w :
  no_end (sprint_v v) = true ->
  extractIDFromRecordID (sprint_map {[ "account_id" := v; "id" := w ]}) = sprint_v v.
Proof.
  intros Hv. rewrite sprint_map_account.
  change ("map[account_id:" +:+ ?t) with ("map[" +:+ ("account_id" +:+ (":" +:+ t))).
  change (" id:" +:+ ?t) with (String " " ("id:" +:+ t)).
  apply extract_after; [done..|simpl; lia|].
  change (after_id ("map[" +:+ ("account_id" +:+ (":" +:+ ?t))))
    with (if decide (t = "") then None else Some t).
  rewrite decide_False; [done|]. intros E. apply (f_equal String.length) in E.
  rewrite string_length_app in E. simpl in E. lia.
Qed.
