(* ===== verification/Alert.v ===== *)
(** * internal/alert/alert.go: Slack alerts

    A manager that is enabled and has a webhook posts one JSON message per
    alert.  [HttpClient] is what the code uses of net/http: a request is
    refused when its URL does not parse, [Do] sends it and returns the status
    of the answer. *)

From Stdlib Require Import NArith ZArith Lia.
From S2P Require Import Prelude Bytes Json JsonFacts Codec.

(** ** Messages *)

Record slackField := { sf_Title : string; sf_Value : string; sf_Short : bool }.

Record slackAttachment := {
  sa_Color : string;
  sa_Title : string;
  sa_Fields : list slackField;
  sa_Footer : string;
  sa_Ts : Z
}.

Record slackMessage := { sm_Text : string; sm_Attachments : list slackAttachment }.

(** [json.Marshal] of a message; an empty list of attachments is omitted. *)
Definition json_of_field (f : slackField) : json :=
  JObj [("title", JStr (sf_Title f)); ("value", JStr (sf_Value f)); ("short", JBool (sf_Short f))].

Definition json_of_attachment (a : slackAttachment) : json :=
  JObj [("color", JStr (sa_Color a)); ("title", JStr (sa_Title a));
        ("fields", JArr (json_of_field <$> sa_Fields a)); ("footer", JStr (sa_Footer a));
        ("ts", JNum (sa_Ts a))].

Definition json_of_message (msg : slackMessage) : json :=
  JObj (("text", JStr (sm_Text msg)) ::
    match sm_Attachments msg with
    | [] => []
    | l => [("attachments", JArr (json_of_attachment <$> l))]
    end).

(** ** The HTTP client *)

Record Request := {
  rq_Method : string;
  rq_URL : string;
  rq_ContentType : string;
  rq_Body : string
}.

Class HttpClient := {
  Http : Type;
  (** why [http.NewRequest] refuses a URL *)
  bad_url : string -> option error;
  (** [Do]: the status code of the answer, or an error *)
  http_do : Request -> Http -> (Z + error) * Http
}.

(** A client that records the requests and answers 200. *)
Definition recording_client : HttpClient := {|
  Http := list Request;
  bad_url _ := None;
  http_do req h := (inl 200%Z, h ++ [req])
|}.

(** ** The manager *)

Record AlertManager := { am_enabled : bool; am_slackWebhook : string }.

Definition NewAlertManager (enabled : bool) (slackWebhook : string) : AlertManager :=
  {| am_enabled := enabled; am_slackWebhook := slackWebhook |}.

Definition silent (m : AlertManager) : bool :=
  negb (am_enabled m) || String.eqb (am_slackWebhook m) "".

Section manager.
Context `{HC : HttpClient}.

(** Strings, booleans and integers always marshal. *)
Definition sendSlackMessage (m : AlertManager) (msg : slackMessage) (h : Http)
    : result unit * Http :=
  let payload := print (json_of_message msg) in
  match bad_url (am_slackWebhook m) with
  | Some e => (Err (Wrap "failed to create request" e), h)
  | None =>
      let req := {| rq_Method := "POST"; rq_URL := am_slackWebhook m;
                    rq_ContentType := "application/json"; rq_Body := payload |} in
      match http_do req h with
      | (inl status, h') =>
          if decide (status = 200%Z) then (Ok tt, h')
          else (Err (Errorf ("slack returned non-200 status: " +:+ pretty status)), h')
      | (inr e, h') => (Err (Wrap "failed to send slack message" e), h')
      end
  end.

Definition tamper_message (now : Z) (tableName operation recordID details : string)
    : slackMessage := {|
  sm_Text := "🚨 *TAMPERING DETECTED*";
  sm_Attachments := [{|
    sa_Color := "danger"; sa_Title := "Database Tampering Alert";
    sa_Fields := [
      {| sf_Title := "Table"; sf_Value := tableName; sf_Short := true |};
      {| sf_Title := "Operation"; sf_Value := operation; sf_Short := true |};
      {| sf_Title := "Record ID"; sf_Value := recordID; sf_Short := true |};
      {| sf_Title := "Details"; sf_Value := details; sf_Short := false |}];
    sa_Footer := "Witnz Tamper Detection"; sa_Ts := now |}] |}.

Definition SendTamperAlert (m : AlertManager) (now : Z)
    (tableName operation recordID details : string) (h : Http) : result unit * Http :=
  if silent m then (Ok tt, h)
  else sendSlackMessage m (tamper_message now tableName operation recordID details) h.

Definition SendHashChainBrokenAlert (m : AlertManager) (now : Z) (tableName : string)
    (sequenceNum : N) (expectedHash actualHash : string) (h : Http) : result unit * Http :=
  if silent m then (Ok tt, h)
  else sendSlackMessage m {|
    sm_Text := "🚨 *HASH CHAIN INTEGRITY VIOLATION*";
    sm_Attachments := [{|
      sa_Color := "danger"; sa_Title := "Hash Chain Broken";
      sa_Fields := [
        {| sf_Title := "Table"; sf_Value := tableName; sf_Short := true |};
        {| sf_Title := "Sequence"; sf_Value := pretty sequenceNum; sf_Short := true |};
        {| sf_Title := "Expected Hash"; sf_Value := expectedHash; sf_Short := false |};
        {| sf_Title := "Actual Hash"; sf_Value := actualHash; sf_Short := false |}];
      sa_Footer := "Witnz Tamper Detection"; sa_Ts := now |}] |} h.

Definition severity_color (severity : string) : string :=
  if String.eqb severity "warning" then "warning"
  else if String.eqb severity "good" then "good"
  else "danger".

Definition system_message (now : Z) (title message severity : string) : slackMessage := {|
  sm_Text := "🚨 *SYSTEM ALERT: " +:+ title +:+ "*";
  sm_Attachments := [{|
    sa_Color := severity_color severity; sa_Title := title;
    sa_Fields := [{| sf_Title := "Message"; sf_Value := message; sf_Short := false |}];
    sa_Footer := "Witnz System Monitor"; sa_Ts := now |}] |}.

Definition SendSystemAlert (m : AlertManager) (now : Z) (title message severity : string)
    (h : Http) : result unit * Http :=
  if silent m then (Ok tt, h) else sendSlackMessage m (system_message now title message severity) h.

(** ** What one alert does *)

(** The request of a message. *)
Definition post (m : AlertManager) (msg : slackMessage) : Request := {|
  rq_Method := "POST"; rq_URL := am_slackWebhook m; rq_ContentType := "application/json";
  rq_Body := print (json_of_message msg) |}.

(** A message is sent at most once, and the call succeeds exactly when it was
    answered with 200. *)
Lemma sendSlackMessage_spec m msg h :
  let '(r, h') := sendSlackMessage m msg h in
  match bad_url (am_slackWebhook m) with
  | Some e => r = Err (Wrap "failed to create request" e) /\ h' = h
  | None => h' = (http_do (post m msg) h).2
      /\ (r = Ok tt <-> (http_do (post m msg) h).1 = inl 200%Z)
  end.
Proof.
  unfold sendSlackMessage. destruct (bad_url _) as [e|]; [done|]. fold (post m msg).
  destruct (http_do (post m msg) h) as [[status|e] h']; simpl; [|done].
  case_decide as Hs; [by rewrite Hs|]. split; [done|]. split; [done|congruence].
Qed.

Lemma field_depth f : (json_depth (json_of_field f) <= 1)%N.
Proof. by apply (depth_obj_le _ 0); repeat constructor. Qed.

Lemma attachment_depth a : (json_depth (json_of_attachment a) <= 3)%N.
Proof.
  apply (depth_obj_le _ 2). rewrite !Forall_cons. split_and!; try done.
  apply (depth_arr_le _ 1), Forall_fmap, Forall_true, field_depth.
Qed.

Lemma message_depth msg : (json_depth (json_of_message msg) <= max_depth)%N.
Proof.
  transitivity 5%N; [|done]. apply (depth_obj_le _ 4). apply Forall_cons. split; [done|].
  destruct (sm_Attachments msg) as [|a l]; [done|]. apply Forall_singleton.
  apply (depth_arr_le _ 3), Forall_fmap, Forall_true, attachment_depth.
Qed.

(** What Slack reads: the text of the message, with invalid UTF-8 replaced. *)
Lemma post_body m msg :
  parse_document (rq_Body (post m msg)) = Some (sanitize_json (json_of_message msg)).
Proof.
  change (rq_Body (post m msg)) with (print (json_of_message msg)).
  rewrite <-(string_app_nil_r (print _)). by apply parse_document_print; [apply message_depth|..].
Qed.
End manager.
