(* ===== verification/Replica.v ===== *)
(** * internal/cdc/replication.go: the logical replication client

    From the bytes of the replication stream to change events.  pglogrepl,
    pgconn and pgtype are libraries: [ReplLib] is what the code uses of them,
    the parsed messages are records of the fields it reads.  [relations] is
    the schema cache the relation messages fill; a tuple is turned into a map
    by position in that schema.  The client's handler is the [EventHandler]
    interface of types.go: a function of the event and of the state [St] the
    handler owns, in a [world] that fixes the clock and the outcome of a
    commit. *)

From Stdlib Require Import Ascii NArith ZArith Lia.
From S2P Require Import Prelude Bytes Json JsonFacts Codec Hasher DataHash Bolt Keys Storage.
From S2P Require Import BoltStore AnyData Fsm Node Handler.

(** ** Messages of pglogrepl *)

Record RelationColumn := { rc_Flags : N; rc_Name : string; rc_DataType : N }.

Record RelationMessage := {
  rm_RelationID : N;
  rm_RelationName : string;
  rm_Columns : list RelationColumn
}.

(** A column of a tuple: its kind (n null, u unchanged, t text, b binary) and
    its bytes. *)
Record TupleColumn := { td_DataType : ascii; td_Data : string }.

(** A nil [*TupleData] is [None]. *)
Definition TupleData : Type := option (list TupleColumn).

Inductive LogicalMessage : Type :=
  | MRelation (msg : RelationMessage)
  | MInsert (RelationID : N) (Tuple : TupleData)
  | MUpdate (RelationID : N) (OldTuple NewTuple : TupleData)
  | MDelete (RelationID : N) (OldTuple : TupleData)
  | MOther.

(** What [conn.ReceiveMessage] gives in ten seconds. *)
Inductive received : Type :=
  | RTimeout
  | RError (e : error)
  | RCopyData (data : string)
  | ROther.

Class ReplLib := {
  (** [pglogrepl.Parse], [ParsePrimaryKeepaliveMessage] (the end of the WAL
      and whether a reply is wanted), [ParseXLogData] (the WAL data) *)
  parse_logical : string -> result LogicalMessage;
  parse_keepalive : string -> result (N * bool);
  parse_xlog : string -> result string;
  (** [TypeForOID] and then [DecodeDatabaseSQLValue] *)
  decode_value : N -> string -> option (GoValue + error);
  (** a replication connection *)
  Conn : Type;
  repl_connect : string -> result Conn;
  drop_slot : string -> Conn -> option error * Conn;
  create_slot : string -> string -> Conn -> option error * Conn;
  start_replication : string -> N -> list string -> Conn -> option error * Conn;
  receive : Conn -> received * Conn;
  send_status : N -> Conn -> option error * Conn;
  close_conn : Conn -> option error * Conn
}.

Record ReplicationConfig := {
  rp_Host : string;
  rp_Port : Z;
  rp_Database : string;
  rp_User : string;
  rp_Password : string;
  rp_SlotName : string;
  rp_PublicationName : string
}.

(** ** The handler interface of types.go *)

Record world := { w_now : Time; w_io : option error }.

Definition EventHandler (St : Type) : Type := world -> ChangeEvent -> St -> result unit * St.

Section client.
Context `{L : ReplLib} {St : Type}.
Local Open Scope witnz_scope.

Record ReplicationClient := {
  cl_config : ReplicationConfig;
  cl_conn : option Conn;
  cl_relations : gmap N RelationMessage
}.

Definition NewReplicationClient (config : ReplicationConfig) : ReplicationClient :=
  {| cl_config := config; cl_conn := None; cl_relations := ∅ |}.

Definition set_conn (rc : ReplicationClient) (c : option Conn) : ReplicationClient :=
  {| cl_config := cl_config rc; cl_conn := c; cl_relations := cl_relations rc |}.

Definition not_connected : error := Errorf "not connected".

(** A call of the library on the connection, whose error gets a prefix. *)
Definition on_conn (prefix : string) (call : Conn -> option error * Conn)
    (rc : ReplicationClient) : result unit * ReplicationClient :=
  match cl_conn rc with
  | None => (Err not_connected, rc)
  | Some c =>
      let '(e, c') := call c in
      (match e with
       | Some e => Err (if String.eqb prefix "" then e else Wrap prefix e)
       | None => Ok tt
       end, set_conn rc (Some c'))
  end.

Definition conn_string (config : ReplicationConfig) : string :=
  "host=" +:+ rp_Host config +:+ " port=" +:+ pretty (rp_Port config)
  +:+ " dbname=" +:+ rp_Database config +:+ " user=" +:+ rp_User config
  +:+ " password=" +:+ rp_Password config.

Definition Connect (rc : ReplicationClient) : result unit * ReplicationClient :=
  match repl_connect (conn_string (cl_config rc) +:+ " replication=database") with
  | Ok c => (Ok tt, set_conn rc (Some c))
  | Err e => (Err (Wrap "failed to connect" e), rc)
  | Panic w => (Panic w, rc)
  end.

(** The outcome of dropping the old slot is only printed. *)
Definition CreateSlotIfNotExists (rc : ReplicationClient) : result unit * ReplicationClient :=
  let slot := rp_SlotName (cl_config rc) in
  on_conn "failed to create replication slot"
    (fun c => create_slot slot "pgoutput" (drop_slot slot c).2) rc.

Definition DropSlot (rc : ReplicationClient) : result unit * ReplicationClient :=
  on_conn "failed to drop replication slot" (drop_slot (rp_SlotName (cl_config rc))) rc.

Definition StartReplication (startLSN : N) (rc : ReplicationClient)
    : result unit * ReplicationClient :=
  on_conn "failed to start replication"
    (start_replication (rp_SlotName (cl_config rc)) startLSN
      ["proto_version '1'";
       "publication_names '" +:+ rp_PublicationName (cl_config rc) +:+ "'"]) rc.

Definition SendStandbyStatusUpdate (lsn : N) (rc : ReplicationClient)
    : result unit * ReplicationClient :=
  on_conn "" (send_status lsn) rc.

Definition CloseClient (rc : ReplicationClient) : result unit * ReplicationClient :=
  match cl_conn rc with
  | None => (Ok tt, rc)
  | Some _ => on_conn "" close_conn rc
  end.

(** ** Tuples *)

(** The error result is always nil: bytes that do not decode stay a string. *)
Definition decodeColumnValue (oid : N) (data : string) : result GoValue :=
  match decode_value oid data with
  | None => Ok (VString data)
  | Some (inl v) => Ok v
  | Some (inr _) => Ok (VString data)
  end.

Definition column_value (rcol : RelationColumn) (col : TupleColumn) : result GoValue :=
  if Ascii.eqb (td_DataType col) "n" then Ok VNil
  else if Ascii.eqb (td_DataType col) "u" then Ok (VString "__unchanged__")
  else if Ascii.eqb (td_DataType col) "t" then Ok (VString (td_Data col))
  else if Ascii.eqb (td_DataType col) "b" then
    match decodeColumnValue (rc_DataType rcol) (td_Data col) with
    | Ok decoded => Ok decoded
    | Err _ => Ok (VString (td_Data col))
    | Panic w => Panic w
    end
  else Ok (VString (td_Data col)).

(** [rel.Columns[i]] for each column of the tuple. *)
Fixpoint tuple_loop (rcols : list RelationColumn) (cols : list TupleColumn)
    (values : gmap string GoValue) {struct cols} : result (gmap string GoValue) :=
  match cols with
  | [] => Ok values
  | col :: rest =>
      match rcols with
      | [] => Panic "index out of range"
      | rcol :: rcols' =>
          let! v := column_value rcol col in
          tuple_loop rcols' rest (<[rc_Name rcol := v]> values)
      end
  end.

Definition tupleToMap (rel : RelationMessage) (tuple : TupleData)
    : result (gmap string GoValue) :=
  match tuple with
  | None => Panic "nil pointer dereference"
  | Some cols => tuple_loop (rm_Columns rel) cols ∅
  end.

(** [Flags == 1] marks a column of the replica identity. *)
Definition extractPrimaryKey (rel : RelationMessage) (values : gmap string GoValue)
    : gmap string GoValue :=
  foldl (fun pk col =>
    if N.eqb (rc_Flags col) 1 then
      match values !! rc_Name col with
      | Some val => <[rc_Name col := val]> pk
      | None => pk
      end
    else pk) ∅ (rm_Columns rel).

(** An old tuple that is not there leaves the nil map. *)
Definition old_values (rel : RelationMessage) (tuple : TupleData)
    : result (gmap string GoValue) :=
  match tuple with
  | None => Ok ∅
  | Some _ => tupleToMap rel tuple
  end.

Definition change_event (w : world) (rel : RelationMessage) (op : string)
    (newData oldData keyData : gmap string GoValue) : ChangeEvent := {|
  ev_TableName := rm_RelationName rel; ev_Operation := op; ev_Timestamp := w_now w;
  ev_NewData := newData; ev_OldData := oldData; ev_PrimaryKey := extractPrimaryKey rel keyData;
  ev_TransactionID := 0; ev_LSN := 0 |}.

(** ** Messages to events *)

Definition known_relation (rc : ReplicationClient) (id : N) : result RelationMessage :=
  match cl_relations rc !! id with
  | Some rel => Ok rel
  | None => Err (Errorf ("unknown relation ID: " +:+ pretty id))
  end.

Definition insert_event (w : world) (rc : ReplicationClient) (id : N) (tuple : TupleData)
    : result ChangeEvent :=
  let! rel := known_relation rc id in
  let! values := tupleToMap rel tuple in
  Ok (change_event w rel OperationInsert values ∅ values).

Definition update_event (w : world) (rc : ReplicationClient) (id : N) (old new : TupleData)
    : result ChangeEvent :=
  let! rel := known_relation rc id in
  let! newValues := tupleToMap rel new in
  let! oldValues := old_values rel old in
  Ok (change_event w rel OperationUpdate newValues oldValues newValues).

Definition delete_event (w : world) (rc : ReplicationClient) (id : N) (old : TupleData)
    : result ChangeEvent :=
  let! rel := known_relation rc id in
  let! values := old_values rel old in
  Ok (change_event w rel OperationDelete ∅ values values).

(** [if rc.handler != nil { return rc.handler.HandleChange(event) }] *)
Definition dispatch (handler : option (EventHandler St)) (w : world)
    (event : result ChangeEvent) (s : St) : result unit * St :=
  match event with
  | Ok event =>
      match handler with
      | Some h => h w event s
      | None => (Ok tt, s)
      end
  | Err e => (Err e, s)
  | Panic why => (Panic why, s)
  end.

Definition handleInsert handler w rc id tuple s : result unit * St :=
  dispatch handler w (insert_event w rc id tuple) s.

Definition handleUpdate handler w rc id old new s : result unit * St :=
  dispatch handler w (update_event w rc id old new) s.

Definition handleDelete handler w rc id old s : result unit * St :=
  dispatch handler w (delete_event w rc id old) s.

(** Messages of other kinds, among them TRUNCATE, fall through the switch. *)
Definition processWALData (handler : option (EventHandler St)) (w : world) (walData : string)
    (rc : ReplicationClient) (s : St) : result unit * ReplicationClient * St :=
  match wrap_err "failed to parse logical replication message" (parse_logical walData) with
  | Err e => (Err e, rc, s)
  | Panic why => (Panic why, rc, s)
  | Ok (MRelation msg) =>
      (Ok tt, {| cl_config := cl_config rc; cl_conn := cl_conn rc;
                 cl_relations := <[rm_RelationID msg := msg]> (cl_relations rc) |}, s)
  | Ok (MInsert id tuple) => let '(r, s') := handleInsert handler w rc id tuple s in (r, rc, s')
  | Ok (MUpdate id old new) => let '(r, s') := handleUpdate handler w rc id old new s in (r, rc, s')
  | Ok (MDelete id old) => let '(r, s') := handleDelete handler w rc id old s in (r, rc, s')
  | Ok MOther => (Ok tt, rc, s)
  end.

Definition handleXLogData handler w (data : string) (rc : ReplicationClient) (s : St)
    : result unit * ReplicationClient * St :=
  match wrap_err "failed to parse xlog data" (parse_xlog data) with
  | Ok walData => processWALData handler w walData rc s
  | Err e => (Err e, rc, s)
  | Panic why => (Panic why, rc, s)
  end.

(** The reply acknowledges the end of the server's WAL. *)
Definition handleKeepalive (data : string) (rc : ReplicationClient)
    : result unit * ReplicationClient :=
  match wrap_err "failed to parse keepalive" (parse_keepalive data) with
  | Ok (serverWALEnd, replyRequested) =>
      if replyRequested : bool then SendStandbyStatusUpdate serverWALEnd rc else (Ok tt, rc)
  | Err e => (Err e, rc)
  | Panic why => (Panic why, rc)
  end.

(** [PrimaryKeepaliveMessageByteID] is k, [XLogDataByteID] is w. *)
Definition handleCopyData handler w (data : string) (rc : ReplicationClient) (s : St)
    : result unit * ReplicationClient * St :=
  match data with
  | "" => (Ok tt, rc, s)
  | String a rest =>
      if Ascii.eqb a "k" then let '(r, rc') := handleKeepalive rest rc in (r, rc', s)
      else if Ascii.eqb a "w" then handleXLogData handler w rest rc s
      else (Ok tt, rc, s)
  end.

Definition ReceiveMessage handler w (rc : ReplicationClient) (s : St)
    : result unit * ReplicationClient * St :=
  match cl_conn rc with
  | None => (Err not_connected, rc, s)
  | Some c =>
      let '(msg, c') := receive c in
      let rc' := set_conn rc (Some c') in
      match msg with
      | RTimeout | ROther => (Ok tt, rc', s)
      | RError e => (Err (Wrap "receive message failed" e), rc', s)
      | RCopyData data => handleCopyData handler w data rc' s
      end
  end.
End client.
