(* ===== verification/Manager.v ===== *)
(** * internal/cdc/manager.go: the replication manager

    The manager owns the replication client and is its handler: it passes
    every event to its handlers in order.  [receiveLoop] is the goroutine
    that reads messages until it is stopped; its environment is a list of
    iterations, each with the world of the message and the way the wait after
    an error ends, and it returns the waits it chose.  Durations are int64
    nanoseconds that wrap. *)

From Stdlib Require Import Ascii NArith ZArith Lia.
From S2P Require Import Prelude Bytes Json JsonFacts Codec Hasher DataHash Bolt Keys Storage.
From S2P Require Import BoltStore AnyData Fsm Node Handler Alert Replica.

(** ** time.Duration *)

Definition second : Z := 1000000000.

(** The fraction of [fmtFrac]: [prec] digits without trailing zeros. *)
Fixpoint strip_zeros (prec : nat) (v : N) : nat * N :=
  match prec with
  | O => (0, v)
  | S p => if N.eqb (v mod 10) 0 then strip_zeros p (v / 10) else (prec, v)
  end.

Fixpoint pad (width : nat) (s : string) : string :=
  match width with
  | O => s
  | S w => if Nat.ltb (String.length s) width then pad w (String "0" s) else s
  end.

Definition fmtFrac (v : N) (prec : nat) : string :=
  let '(p, f) := strip_zeros prec (v mod 10 ^ N.of_nat prec) in
  match p with
  | O => ""
  | _ => "." +:+ pad p (pretty f)
  end.

(** A value at the scale of its last [prec] digits. *)
Definition with_fraction (u : N) (prec : nat) : string :=
  pretty (u / 10 ^ N.of_nat prec)%N +:+ fmtFrac u prec.

(** [Duration.String] *)
Definition duration_string (d : Z) : string :=
  let u := Z.to_N (Z.abs d) in
  let sign := if decide (d < 0)%Z then "-" else "" in
  if N.eqb u 0 then "0s"
  else if N.ltb u 1000 then sign +:+ pretty u +:+ "ns"
  else if N.ltb u 1000000 then sign +:+ with_fraction u 3 +:+ "µs"
  else if N.ltb u 1000000000 then sign +:+ with_fraction u 6 +:+ "ms"
  else
    let secs := (u / 1000000000)%N in
    let mins := (secs / 60)%N in
    let hours := (mins / 60)%N in
    sign +:+ (if N.ltb 0 hours then pretty hours +:+ "h" else "")
    +:+ (if N.ltb 0 mins then pretty (mins mod 60)%N +:+ "m" else "")
    +:+ pretty (secs mod 60)%N +:+ fmtFrac u 9 +:+ "s".

(** [err.Error()] *)
Fixpoint error_text (e : error) : string :=
  match e with
  | Errorf msg | External msg => msg
  | Wrap prefix inner => prefix +:+ ": " +:+ error_text inner
  | Tampering t op => TamperingError_Error t op
  end.

(** ** The wait after an error *)

Definition maxBackoff : Z := 30 * second.

(** [time.Duration(math.Pow(2, n)) * time.Second], capped.  The power is
    exact up to [2^1023]; the infinity beyond is written [2^1024], which no
    int64 conversion fits either. *)
Definition backoff_of `{FloatConversion} (errorCount : N) : Z :=
  let pow := (2 ^ Z.min (Z.of_N errorCount) 1024)%Z in
  let backoff := i64_wrap (int_of_float pow * second) in
  if decide (maxBackoff < backoff)%Z then maxBackoff else backoff.

(** ** The manager *)

(** The outcomes of the three calls that make the publication. *)
Record PublicationAnswer := {
  pa_connect : option error;
  pa_exists : result bool;
  pa_create : option error
}.

Section manager.
Context `{L : ReplLib} `{HC : HttpClient} `{FC : FloatConversion} {St : Type}.

Record Manager := {
  mg_config : ReplicationConfig;
  mg_client : option ReplicationClient;
  mg_handlers : list (EventHandler St);
  mg_currentLSN : N;
  mg_running : bool;
  (** whether [stopCh] is closed *)
  mg_stopped : bool;
  mg_alertManager : option AlertManager
}.

Definition NewManager (config : ReplicationConfig) : Manager := {|
  mg_config := config; mg_client := None; mg_handlers := []; mg_currentLSN := 0;
  mg_running := false; mg_stopped := false; mg_alertManager := None |}.

Definition AddHandler (h : EventHandler St) (m : Manager) : Manager := {|
  mg_config := mg_config m; mg_client := mg_client m; mg_handlers := mg_handlers m ++ [h];
  mg_currentLSN := mg_currentLSN m; mg_running := mg_running m; mg_stopped := mg_stopped m;
  mg_alertManager := mg_alertManager m |}.

Definition SetAlertManager (am : option AlertManager) (m : Manager) : Manager := {|
  mg_config := mg_config m; mg_client := mg_client m; mg_handlers := mg_handlers m;
  mg_currentLSN := mg_currentLSN m; mg_running := mg_running m; mg_stopped := mg_stopped m;
  mg_alertManager := am |}.

Definition set_client (c : option ReplicationClient) (m : Manager) : Manager := {|
  mg_config := mg_config m; mg_client := c; mg_handlers := mg_handlers m;
  mg_currentLSN := mg_currentLSN m; mg_running := mg_running m; mg_stopped := mg_stopped m;
  mg_alertManager := mg_alertManager m |}.

Definition set_running (running stopped : bool) (m : Manager) : Manager := {|
  mg_config := mg_config m; mg_client := mg_client m; mg_handlers := mg_handlers m;
  mg_currentLSN := mg_currentLSN m; mg_running := running; mg_stopped := stopped;
  mg_alertManager := mg_alertManager m |}.

Definition SetLSN (lsn : N) (m : Manager) : Manager := {|
  mg_config := mg_config m; mg_client := mg_client m; mg_handlers := mg_handlers m;
  mg_currentLSN := lsn; mg_running := mg_running m; mg_stopped := mg_stopped m;
  mg_alertManager := mg_alertManager m |}.

Definition GetLSN (m : Manager) : N := mg_currentLSN m.

Definition createPublicationIfNotExists (pa : PublicationAnswer) : result unit :=
  match pa_connect pa with
  | Some e => Err (Wrap "failed to connect" e)
  | None =>
      match wrap_err "failed to check publication" (pa_exists pa) with
      | Ok true => Ok tt
      | Ok false =>
          match pa_create pa with
          | Some e => Err (Wrap "failed to create publication" e)
          | None => Ok tt
          end
      | Err e => Err e
      | Panic w => Panic w
      end
  end.

(** A client whose slot cannot be made is closed and dropped. *)
Definition Manager_Initialize (pa : PublicationAnswer) (m : Manager) : result unit * Manager :=
  match wrap_err "failed to create publication" (createPublicationIfNotExists pa) with
  | Err e => (Err e, m)
  | Panic w => (Panic w, m)
  | Ok _ =>
      match Connect (NewReplicationClient (mg_config m)) with
      | (Err e, _) => (Err (Wrap "failed to connect" e), m)
      | (Panic w, _) => (Panic w, m)
      | (Ok _, client) =>
          match CreateSlotIfNotExists client with
          | (Ok _, client') => (Ok tt, set_client (Some client') m)
          | (Err e, _) => (Err (Wrap "failed to create slot" e), m)
          | (Panic w, _) => (Panic w, m)
          end
      end
  end.

(** After [Start] returns nil the receive loop runs. *)
Definition Manager_Start (m : Manager) : result unit * Manager :=
  if mg_running m then (Err (Errorf "manager already running"), m)
  else match mg_client m with
  | None => (Err (Errorf "manager not initialized"), m)
  | Some client =>
      match StartReplication (mg_currentLSN m) client with
      | (Ok _, client') => (Ok tt, set_running true (mg_stopped m) (set_client (Some client') m))
      | (Err e, client') =>
          (Err (Wrap "failed to start replication" e), set_client (Some client') m)
      | (Panic w, client') => (Panic w, set_client (Some client') m)
      end
  end.

(** Closing a closed channel panics. *)
Definition Manager_Stop (m : Manager) : result unit * Manager :=
  if negb (mg_running m) then (Ok tt, m)
  else if mg_stopped m then (Panic "close of closed channel", m)
  else
    let m' := set_running false true m in
    match mg_client m' with
    | None => (Ok tt, m')
    | Some client => let '(r, client') := CloseClient client in (r, set_client (Some client') m')
    end.

(** ** Events *)

Fixpoint run_handlers (handlers : list (EventHandler St)) (w : world) (event : ChangeEvent)
    (s : St) : result unit * St :=
  match handlers with
  | [] => (Ok tt, s)
  | handler :: rest =>
      match handler w event s with
      | (Ok _, s') => run_handlers rest w event s'
      | (Err e, s') =>
          if IsTamperingError e then (Err e, s') else (Err (Wrap "handler failed" e), s')
      | (Panic why, s') => (Panic why, s')
      end
  end.

Definition Manager_HandleChange (m : Manager) : EventHandler St :=
  fun w event s => run_handlers (mg_handlers m) w event s.

(** ** The receive loop *)

(** How the wait after an error ends. *)
Inductive wait_end : Type := WTimer | WStop.

(** One turn of the loop: the stop channel or the context is done, or a
    message is received at the Unix time [unix]. *)
Inductive loop_turn : Type :=
  | TStop
  | TReceive (w : world) (unix : Z) (wait : wait_end).

Record loop_state := { ls_manager : Manager; ls_handlers : St; ls_http : Http; ls_errors : N }.

(** An alert whose outcome is dropped; without an alert manager nothing. *)
Definition send_alert (send : AlertManager -> Http -> result unit * Http) (st : loop_state)
    : loop_state :=
  match mg_alertManager (ls_manager st) with
  | None => st
  | Some am =>
      {| ls_manager := ls_manager st; ls_handlers := ls_handlers st;
         ls_http := (send am (ls_http st)).2; ls_errors := ls_errors st |}
  end.

(** [m.client.ReceiveMessage], whose handler is the manager. *)
Definition loop_receive (w : world) (st : loop_state) : result unit * loop_state :=
  match mg_client (ls_manager st) with
  | None => (Panic "nil pointer dereference", st)
  | Some client =>
      let '(r, client', s') := ReceiveMessage (Some (Manager_HandleChange (ls_manager st))) w client
                                 (ls_handlers st) in
      (r, {| ls_manager := set_client (Some client') (ls_manager st); ls_handlers := s';
             ls_http := ls_http st; ls_errors := ls_errors st |})
  end.

Definition set_errors (n : N) (st : loop_state) : loop_state :=
  {| ls_manager := ls_manager st; ls_handlers := ls_handlers st; ls_http := ls_http st;
     ls_errors := n |}.

(** What a turn ends with: the next turn, perhaps after a wait, or the end
    of the goroutine, perhaps by a panic. *)
Inductive turn_end : Type :=
  | Again (waited : option Z)
  | Return (waited : option Z)
  | Crash (why : string).

Definition tamper_details : string := "Unauthorized modification attempt detected".

Definition loop_step (turn : loop_turn) (st : loop_state) : turn_end * loop_state :=
  match turn with
  | TStop => (Return None, st)
  | TReceive w unix wait =>
      match loop_receive w st with
      | (Ok _, st') => (Again None, set_errors 0 st')
      | (Panic why, st') => (Crash why, st')
      | (Err (Tampering tableName operation), st') =>
          (Again None,
           send_alert (fun am => SendTamperAlert am unix tableName operation "N/A" tamper_details)
             st')
      | (Err e, st') =>
          let errorCount := (ls_errors st' + 1)%N in
          let backoff := backoff_of errorCount in
          let st'' := send_alert (fun am => SendSystemAlert am unix "Replication Connection Lost"
              ("Failed to receive replication message: " +:+ error_text e +:+ ". Retrying in "
               +:+ duration_string backoff +:+ "...") "danger") (set_errors errorCount st') in
          match wait with
          | WTimer => (Again (Some backoff), st'')
          | WStop => (Return (Some backoff), st'')
          end
      end
  end.

(** The waits, the end that was reached ([None]: the loop is still running
    after these turns) and the state. *)
Fixpoint receiveLoop (turns : list loop_turn) (st : loop_state)
    : list Z * option turn_end * loop_state :=
  match turns with
  | [] => ([], None, st)
  | turn :: rest =>
      match loop_step turn st with
      | (Again waited, st') =>
          let '(ws, e, st'') := receiveLoop rest st' in
          (match waited with Some d => d :: ws | None => ws end, e, st'')
      | (Return waited, st') =>
          (match waited with Some d => [d] | None => [] end, Some (Return waited), st')
      | (Crash why, st') => ([], Some (Crash why), st')
      end
  end.
End manager.
Arguments Manager L St : clear implicits, rename.
Arguments loop_state L HC St : clear implicits, rename.
