(* ===== verification/Stream.v ===== *)
(** * The replication stream, from bytes to entries and alerts

    What one turn of the receive loop does with each kind of message: an
    insert is recorded under the id and the hash the verifier computes for
    that row, an update or a delete of a protected table raises one alert,
    everything else passes silently; and how long the loop waits between
    failures. *)

From Stdlib Require Import Ascii NArith ZArith Lia.
From S2P Require Import Prelude Bytes Json JsonFacts Codec Sha256 Hasher DataHash Merkle.
From S2P Require Import MerkleFacts Bolt Keys Storage TableView StorageFacts BoltStore.
From S2P Require Import BoltStoreFacts AnyData Fsm Node FsmFacts Replication Handler HandlerFacts.
From S2P Require Import Verifier VerifierFacts RecordIds Alert Replica Manager.

(** ** Handlers that guard tables *)

(** What the receive loop may rely on: an update or a delete of a protected
    table is a tampering error, an event of another table is ignored, and
    neither changes the handler's state. *)
Class Guards {St : Type} (h : EventHandler St) (protected : string -> bool) : Prop := {
  guard_tampering : forall w event s,
    protected (ev_TableName event) = true -> is_update_or_delete event = true ->
    h w event s = (Err (Tampering (ev_TableName event) (ev_Operation event)), s);
  guard_ignores : forall w event s,
    protected (ev_TableName event) = false -> h w event s = (Ok tt, s)
}.

Definition configured (h : tableConfigs) (t : string) : bool := bool_decide (is_Some (h !! t)).

Section guards.
Context `{RO : RangeOrder} `{HF : HashFunction} `{B : Bolt} `{R : RaftLib}.

(** [HashChainHandler] and [RaftHashChainHandler] as event handlers. *)
Definition hash_chain_handler (h : tableConfigs) : EventHandler (Storage B) :=
  fun w event s => HandleChange h (w_now w) (w_io w) event s.

Definition raft_chain_handler (h : tableConfigs) : EventHandler (Storage B * option Node) :=
  fun w event sn =>
    let '(r, s', n') := raft_HandleChange h (w_now w) (w_io w) event sn.1 sn.2 in (r, (s', n')).

#[export] Instance hash_chain_guards h : Guards (hash_chain_handler h) (configured h).
Proof.
  split; intros w event s Hp; unfold hash_chain_handler, HandleChange, configured in *.
  - intros Hop. apply bool_decide_eq_true in Hp as [c ->]. by rewrite Hop.
  - apply bool_decide_eq_false, eq_None_not_Some in Hp as ->. done.
Qed.

#[export] Instance raft_chain_guards h : Guards (raft_chain_handler h) (configured h).
Proof.
  split; intros w event [s n] Hp; unfold raft_chain_handler, raft_HandleChange, configured in *.
  - intros Hop. apply bool_decide_eq_true in Hp as [c ->]. by rewrite Hop.
  - apply bool_decide_eq_false, eq_None_not_Some in Hp as ->. done.
Qed.
End guards.

(** The manager passes events through, so it guards what its handlers
    guard. *)
#[export] Instance run_handlers_guards {St} (h : EventHandler St) protected :
  Guards h protected -> Guards (run_handlers [h]) protected.
Proof.
  intros Hg. split; intros w event s Hp; simpl.
  - intros Hop. by rewrite guard_tampering.
  - by rewrite guard_ignores.
Qed.

(** ** Tuples and rows *)

Section tuples.
Context `{L : ReplLib}.

(** A column of the stream and a column of a query result that print
    alike. *)
Definition reads_as (rcol : RelationColumn) (col : TupleColumn) (fv : string * GoValue) : Prop :=
  rc_Name rcol = fv.1 /\ exists v, column_value rcol col = Ok v
    /\ normalizeValue v = normalizeValue fv.2
    /\ (fv.1 = "id" -> sprint_v v = sprint_v fv.2).

Definition id_text (values : gmap string GoValue) : string :=
  default "" (sprint_v <$> values !! "id").

Lemma column_value_total rcol col : exists v, column_value rcol col = Ok v.
Proof.
  unfold column_value, decodeColumnValue. destruct (Ascii.eqb _ "n"); [eauto|].
  destruct (Ascii.eqb _ "u"); [eauto|]. destruct (Ascii.eqb _ "t"); [eauto|].
  destruct (Ascii.eqb _ "b"); [|eauto]. destruct (decode_value _ _) as [[]|]; eauto.
Qed.

Lemma tuple_loop_total rcols cols values :
  length cols <= length rcols -> exists values', tuple_loop rcols cols values = Ok values'.
Proof.
  revert rcols values. induction cols as [|col cols IH]; intros rcols values Hl; [simpl; eauto|].
  destruct rcols as [|rcol rcols]; [simpl in Hl; lia|]. cbn [tuple_loop].
  destruct (column_value_total rcol col) as [v ->]. rewrite Ok_bind. apply IH. simpl in Hl. lia.
Qed.

Lemma same_text_insert k v v' d d' :
  same_text d d' -> normalizeValue v = normalizeValue v' -> same_text (<[k := v]> d) (<[k := v']> d').
Proof.
  intros Hd Hv j Hj. destruct (decide (k = j)) as [->|].
  - rewrite !lookup_insert_eq. simpl. by f_equal.
  - rewrite !lookup_insert_ne by done. auto.
Qed.

Definition scan_step (acc : gmap string GoValue * string) (fv : string * GoValue)
    : gmap string GoValue * string :=
  (<[fv.1 := fv.2]> acc.1, if decide (fv.1 = "id") then sprint_v fv.2 else acc.2).

Lemma tuple_loop_reads rcols cols r : Forall3 reads_as rcols cols r ->
  forall values acc, same_text values acc.1 -> id_text values = acc.2 ->
  exists values', tuple_loop rcols cols values = Ok values'
    /\ same_text values' (foldl scan_step acc r).1
    /\ id_text values' = (foldl scan_step acc r).2
    /\ forall k, is_Some (values' !! k) <-> is_Some (values !! k) \/ k ∈ r.*1.
Proof.
  induction 1 as [|rcol col fv rcols cols r [Hname (v & Hv & Hn & Hid)] _ IH]; intros values acc Ht Hi.
  { exists values. split_and!; [done..|]. intros k. rewrite elem_of_nil. tauto. }
  cbn [tuple_loop foldl]. rewrite Hv, Ok_bind, Hname.
  destruct (IH (<[fv.1 := v]> values) (scan_step acc fv)) as (values' & H1 & H2 & H3 & H4).
  - by apply same_text_insert.
  - unfold id_text, scan_step. cbn [snd]. destruct (decide (fv.1 = "id")) as [E|E].
    + rewrite E, lookup_insert_eq. by apply Hid.
    + rewrite lookup_insert_ne by done. by rewrite <-Hi.
  - exists values'. split_and!; [done..|]. intros k. rewrite H4, fmap_cons, elem_of_cons.
    rewrite lookup_insert_is_Some'. naive_solver.
Qed.

(** The tuple of a row of the stream is the row of the query. *)
Lemma tupleToMap_row rel cols r :
  Forall3 reads_as (rm_Columns rel) cols r ->
  exists values, tupleToMap rel (Some cols) = Ok values
    /\ same_text values (row_data r) /\ id_text values = row_id r
    /\ forall k, is_Some (values !! k) <-> k ∈ r.*1.
Proof.
  intros Hf. destruct (tuple_loop_reads _ _ _ Hf ∅ (∅, "")) as (values & H1 & H2 & H3 & H4);
    [done|done|].
  exists values. split_and!; [done..|]. intros k. rewrite H4, lookup_empty. split; [|by right].
  intros [[? [=]]|?]; done.
Qed.

(** ** Primary keys *)

Definition key_columns (rel : RelationMessage) : list string :=
  rc_Name <$> filter (fun c => rc_Flags c = 1%N) (rm_Columns rel).

Lemma extractPrimaryKey_columns rel values :
  extractPrimaryKey rel values
  = foldl (fun pk name => match values !! name with
                          | Some val => <[name := val]> pk
                          | None => pk
                          end) ∅ (key_columns rel).
Proof.
  unfold extractPrimaryKey, key_columns. generalize (∅ : gmap string GoValue).
  induction (rm_Columns rel) as [|c cols IH]; intros pk; [done|]. cbn [foldl].
  rewrite filter_cons. destruct (N.eqb_spec (rc_Flags c) 1) as [E|E].
  - rewrite decide_True by done. cbn [fmap list_fmap foldl]. apply IH.
  - rewrite decide_False by done. apply IH.
Qed.

Lemma extractPrimaryKey_id rel values v :
  key_columns rel = ["id"] -> values !! "id" = Some v ->
  extractPrimaryKey rel values = {[ "id" := v ]}.
Proof. intros Hk Hv. rewrite extractPrimaryKey_columns, Hk. simpl. by rewrite Hv. Qed.

(** The insert event of a row carries its hash and its id. *)
Lemma insert_event_row `{RO : RangeOrder} `{HF : HashFunction} w rc id rel cols r :
  cl_relations rc !! id = Some rel -> key_columns rel = ["id"] ->
  Forall3 reads_as (rm_Columns rel) cols r -> "id" ∈ r.*1 -> no_end (row_id r) = true ->
  exists event, insert_event w rc id (Some cols) = Ok event
    /\ ev_TableName event = rm_RelationName rel /\ ev_Operation event = OperationInsert
    /\ calculateDataHash (ev_NewData event) = row_hash r
    /\ extractIDFromRecordID (sprint_map (ev_PrimaryKey event)) = row_id r.
Proof.
  intros Hrel Hkey Hf Hid Hend.
  destruct (tupleToMap_row rel cols r Hf) as (values & Hv & Ht & Hi & Hdom).
  assert (is_Some (values !! "id")) as [v Hval] by by apply Hdom.
  unfold insert_event, known_relation. rewrite Hrel, Ok_bind, Hv, Ok_bind.
  eexists. split; [done|]. split_and!; [done|done| |].
  - unfold calculateDataHash, row_hash. simpl. by rewrite Ht.
  - simpl. rewrite (extractPrimaryKey_id rel values v) by done.
    unfold id_text in Hi. rewrite Hval in Hi. simpl in Hi. rewrite <-Hi in Hend |- *.
    by apply extract_id_map.
Qed.
End tuples.

(** ** One turn of the loop *)

Section turns.
Context `{L : ReplLib} `{HC : HttpClient} `{FC : FloatConversion} {St : Type}.
Implicit Types (st : loop_state L HC St) (client : ReplicationClient).

(** The connection of the loop's client delivers a logical message and is in
    the state [c'] afterwards. *)
Definition delivers st (msg : LogicalMessage) client (c' : Conn) : Prop :=
  mg_client (ls_manager st) = Some client /\
  exists c rest wal, cl_conn client = Some c
    /\ receive c = (RCopyData (String "w" rest), c')
    /\ parse_xlog rest = Ok wal /\ parse_logical wal = Ok msg.

(** The connection moved on, the handlers are in the state [s]. *)
Definition after_message st client (c' : Conn) (s : St) : loop_state L HC St := {|
  ls_manager := set_client (Some (set_conn client (Some c'))) (ls_manager st);
  ls_handlers := s; ls_http := ls_http st; ls_errors := ls_errors st |}.

(** The event of a message about a row. *)
Definition event_of (w : world) client (msg : LogicalMessage) : option (result ChangeEvent) :=
  match msg with
  | MInsert id tuple => Some (insert_event w client id tuple)
  | MUpdate id old new => Some (update_event w client id old new)
  | MDelete id old => Some (delete_event w client id old)
  | MRelation _ | MOther => None
  end.

Lemma loop_receive_event w st msg client c' event :
  delivers st msg client c' -> event_of w client msg = Some (Ok event) ->
  loop_receive w st
  = let '(r, s') := run_handlers (mg_handlers (ls_manager st)) w event (ls_handlers st) in
    (r, after_message st client c' s').
Proof.
  intros (Hcl & c & rest & wal & Hc & Hrec & Hx & Hp) He. unfold loop_receive. rewrite Hcl.
  unfold ReceiveMessage. rewrite Hc, Hrec. unfold handleCopyData. cbn [Ascii.eqb Bool.eqb].
  unfold handleXLogData. rewrite Hx. cbn [wrap_err]. unfold processWALData. rewrite Hp.
  cbn [wrap_err]. destruct msg as [|id t|id old new|id old|]; simplify_eq/=.
  - unfold handleInsert. change (insert_event w (set_conn client (Some c')) id t)
      with (insert_event w client id t). rewrite He. cbn [dispatch].
    unfold Manager_HandleChange. by destruct (run_handlers _ _ _ _).
  - unfold handleUpdate. change (update_event w (set_conn client (Some c')) id old new)
      with (update_event w client id old new). rewrite He. cbn [dispatch].
    unfold Manager_HandleChange. by destruct (run_handlers _ _ _ _).
  - unfold handleDelete. change (delete_event w (set_conn client (Some c')) id old)
      with (delete_event w client id old). rewrite He. cbn [dispatch].
    unfold Manager_HandleChange. by destruct (run_handlers _ _ _ _).
Qed.

Lemma loop_receive_other w st client c' :
  delivers st MOther client c' -> loop_receive w st = (Ok tt, after_message st client c' (ls_handlers st)).
Proof.
  intros (Hcl & c & rest & wal & Hc & Hrec & Hx & Hp). unfold loop_receive. rewrite Hcl.
  unfold ReceiveMessage. rewrite Hc, Hrec. unfold handleCopyData. cbn [Ascii.eqb Bool.eqb].
  unfold handleXLogData. rewrite Hx. cbn [wrap_err]. unfold processWALData. by rewrite Hp.
Qed.

(** The client once it knows a relation. *)
Definition with_relation (rel : RelationMessage) client : ReplicationClient := {|
  cl_config := cl_config client; cl_conn := cl_conn client;
  cl_relations := <[rm_RelationID rel := rel]> (cl_relations client) |}.

Lemma loop_receive_relation w st client c' rel :
  delivers st (MRelation rel) client c' ->
  loop_receive w st = (Ok tt, after_message st (with_relation rel client) c' (ls_handlers st)).
Proof.
  intros (Hcl & c & rest & wal & Hc & Hrec & Hx & Hp). unfold loop_receive. rewrite Hcl.
  unfold ReceiveMessage. rewrite Hc, Hrec. unfold handleCopyData. cbn [Ascii.eqb Bool.eqb].
  unfold handleXLogData. rewrite Hx. cbn [wrap_err]. unfold processWALData. by rewrite Hp.
Qed.

(** ** Inserts, updates and deletes *)

Definition fits (rel : RelationMessage) (tuple : TupleData) : Prop :=
  exists cols, tuple = Some cols /\ length cols <= length (rm_Columns rel).

(** An update or a delete of a row of [rel], with tuples of its schema. *)
Definition changes (rel : RelationMessage) client (msg : LogicalMessage) (op : string) : Prop :=
  match msg with
  | MUpdate id old new => cl_relations client !! id = Some rel /\ op = OperationUpdate
      /\ fits rel new /\ (old = None \/ fits rel old)
  | MDelete id old => cl_relations client !! id = Some rel /\ op = OperationDelete
      /\ (old = None \/ fits rel old)
  | _ => False
  end.

(** Any change of a row of [rel], with tuples of its schema. *)
Definition touches (rel : RelationMessage) client (msg : LogicalMessage) : Prop :=
  (exists id tuple, msg = MInsert id tuple /\ cl_relations client !! id = Some rel /\ fits rel tuple)
  \/ exists op, changes rel client msg op.

Lemma fits_total rel t : fits rel t -> exists values, tupleToMap rel t = Ok values.
Proof. intros (cols & -> & Hl). by apply tuple_loop_total. Qed.

Lemma old_fits_total rel t :
  t = None \/ fits rel t -> exists values, old_values rel t = Ok values.
Proof.
  intros [->|Hf]; [by eexists|]. destruct (fits_total rel t Hf) as [values Hv].
  destruct t as [cols|]; [|done]. by exists values.
Qed.

Lemma changes_event w rel client msg op :
  changes rel client msg op ->
  exists event, event_of w client msg = Some (Ok event)
    /\ ev_TableName event = rm_RelationName rel /\ ev_Operation event = op
    /\ is_update_or_delete event = true.
Proof.
  destruct msg as [|id t|id old new|id old|]; try done; simpl.
  - intros (Hrel & -> & Hnew & Hold). destruct (fits_total _ _ Hnew) as [v Hv].
    destruct (old_fits_total _ _ Hold) as [v' Hv']. unfold update_event, known_relation.
    rewrite Hrel, Ok_bind, Hv, Ok_bind, Hv', Ok_bind. eexists. by split_and!.
  - intros (Hrel & -> & Hold). destruct (old_fits_total _ _ Hold) as [v Hv].
    unfold delete_event, known_relation. rewrite Hrel, Ok_bind, Hv, Ok_bind.
    eexists. by split_and!.
Qed.

Lemma touches_event w rel client msg :
  touches rel client msg ->
  exists event, event_of w client msg = Some (Ok event) /\ ev_TableName event = rm_RelationName rel.
Proof.
  intros [(id & tuple & -> & Hrel & Hf)|[op Hch]].
  - destruct (fits_total _ _ Hf) as [v Hv]. simpl. unfold insert_event, known_relation.
    rewrite Hrel, Ok_bind, Hv, Ok_bind. by eexists.
  - destruct (changes_event w rel client msg op Hch) as (event & He & Ht & _). eauto.
Qed.

(** The client state [h] after one alert about [msg]. *)
Definition posted (am : option AlertManager) (msg : slackMessage) (h : Http) : Http :=
  match am with
  | None => h
  | Some am =>
      if silent am then h
      else match bad_url (am_slackWebhook am) with
      | Some _ => h
      | None => (http_do (post am msg) h).2
      end
  end.

Definition with_http (h : Http) st : loop_state L HC St := {|
  ls_manager := ls_manager st; ls_handlers := ls_handlers st; ls_http := h;
  ls_errors := ls_errors st |}.

Lemma SendTamperAlert_posted am now t op rid details h :
  (SendTamperAlert am now t op rid details h).2
  = posted (Some am) (tamper_message now t op rid details) h.
Proof.
  unfold SendTamperAlert, posted. destruct (silent am); [done|].
  pose proof (sendSlackMessage_spec am (tamper_message now t op rid details) h) as H.
  destruct (sendSlackMessage am _ h) as [r h']. destruct (bad_url _); by destruct H as [? ?].
Qed.
End turns.

(** ** The wait after an error *)

Section backoff.
Context `{FC : FloatConversion}.

Lemma int_of_float_pow n : (n < 63)%N -> int_of_float (2 ^ Z.min (Z.of_N n) 1024) = (2 ^ Z.of_N n)%Z.
Proof.
  intros Hn. rewrite Z.min_l by lia. unfold int_of_float. apply decide_True.
  assert (0 < 2 ^ Z.of_N n)%Z by (apply Z.pow_pos_nonneg; lia).
  assert (2 ^ Z.of_N n < 2 ^ 63)%Z by (apply Z.pow_lt_mono_r; lia). lia.
Qed.

(** The first waits double; then the cap holds. *)
Lemma backoff_short n : (1 <= n <= 4)%N -> backoff_of n = (2 ^ Z.of_N n * second)%Z.
Proof.
  intros Hn. unfold backoff_of. rewrite int_of_float_pow by lia.
  assert (n = 1 \/ n = 2 \/ n = 3 \/ n = 4)%N as [->|[->|[->| ->]]] by lia; reflexivity.
Qed.

Lemma backoff_capped n : (5 <= n <= 33)%N -> backoff_of n = maxBackoff.
Proof.
  intros Hn. unfold backoff_of. rewrite int_of_float_pow by lia.
  assert (Forall (fun k => (if decide (maxBackoff < i64_wrap (2 ^ Z.of_N k * second))%Z
    then maxBackoff else i64_wrap (2 ^ Z.of_N k * second)) = maxBackoff)
    ((fun k => N.of_nat (5 + k)) <$> seq 0 29)) as H by (repeat constructor).
  rewrite Forall_forall in H. apply H. apply list_elem_of_fmap. exists (N.to_nat (n - 5)).
  rewrite elem_of_seq. split; lia.
Qed.

(** The product no longer fits: [2^n] nanoseconds times [10^9] is a multiple
    of [2^64]. *)
Lemma backoff_zero n :
  (forall z, int_unfit z = - 2 ^ 63)%Z -> (55 <= n)%N -> backoff_of n = 0%Z.
Proof.
  intros Hunfit Hn. unfold backoff_of.
  assert (i64_wrap (int_of_float (2 ^ Z.min (Z.of_N n) 1024) * second) = 0%Z) as ->; [|reflexivity].
  destruct (decide (n < 63)%N) as [Hlt|Hge].
  - rewrite int_of_float_pow by done. replace (Z.of_N n) with (55 + (Z.of_N n - 55))%Z by lia.
    rewrite Z.pow_add_r by lia. unfold i64_wrap, second.
    replace (2 ^ 55 * 2 ^ (Z.of_N n - 55) * 1000000000 + 2 ^ 63)%Z
      with (2 ^ 63 + 2 ^ (Z.of_N n - 55) * 1953125 * 2 ^ 64)%Z by lia.
    rewrite Z.mod_add by done. reflexivity.
  - unfold int_of_float. rewrite decide_False, Hunfit; [reflexivity|].
    intros [_ H]. apply Z.lt_nge in H. apply H. apply Z.pow_le_mono_r; lia.
Qed.
End backoff.

Section dead.
Context `{L : ReplLib} `{HC : HttpClient} `{FC : FloatConversion} {St : Type}.
Implicit Types (st : loop_state L HC St).

(** The client's connection fails every receive with [e] and stays so. *)
Definition dead (e : error) st : Prop :=
  IsTamperingError e = false /\ exists client c,
    mg_client (ls_manager st) = Some client /\ cl_conn client = Some c
    /\ receive c = (RError e, c).

Lemma send_alert_rest (send : AlertManager -> Http -> result unit * Http) st :
  ls_manager (send_alert send st) = ls_manager st
  /\ ls_handlers (send_alert send st) = ls_handlers st
  /\ ls_errors (send_alert send st) = ls_errors st.
Proof. unfold send_alert. by destruct (mg_alertManager _). Qed.

Lemma loop_step_dead e st w unix :
  dead e st -> exists st',
    loop_step (TReceive w unix WTimer) st = (Again (Some (backoff_of (ls_errors st + 1))), st')
    /\ dead e st' /\ ls_handlers st' = ls_handlers st /\ ls_errors st' = (ls_errors st + 1)%N.
Proof.
  intros (He & client & c & Hcl & Hc & Hrec). unfold loop_step, loop_receive. rewrite Hcl.
  unfold ReceiveMessage. rewrite Hc, Hrec.
  eexists. split; [done|].
  set (st0 := set_errors _ _). match goal with |- context [send_alert ?s st0] => set (send := s) end.
  destruct (send_alert_rest send st0) as (Hm & -> & ->). split; [|done].
  split; [done|]. rewrite Hm. by exists (set_conn client (Some c)), c.
Qed.

Definition receives (turns : list loop_turn) : Prop :=
  Forall (fun turn => exists w unix, turn = TReceive w unix WTimer) turns.

Lemma receiveLoop_dead e turns st :
  dead e st -> receives turns ->
  exists st', receiveLoop turns st
    = ((fun i => backoff_of (ls_errors st + N.of_nat (S i))) <$> seq 0 (length turns), None, st')
    /\ ls_handlers st' = ls_handlers st
    /\ ls_errors st' = (ls_errors st + N.of_nat (length turns))%N.
Proof.
  intros Hd Ht. revert st Hd. induction Ht as [|turn turns (w & unix & ->) _ IH]; intros st Hd.
  { exists st. split_and!; [done..|]. simpl. lia. }
  destruct (loop_step_dead e st w unix Hd) as (st1 & Hs & Hd1 & Hh1 & He1).
  destruct (IH st1 Hd1) as (st' & Hl & Hh & He). exists st'. cbn [receiveLoop].
  rewrite Hs, Hl. split_and!; [|by rewrite Hh|rewrite He, He1; cbn [length]; lia].
  cbn [length seq fmap list_fmap]. rewrite <-fmap_S_seq, <-list_fmap_compose. do 3 f_equal.
  apply list_fmap_ext. intros i x _. simpl. rewrite He1. f_equal. lia.
Qed.
End dead.

(** ** Examples for the witnesses *)

Definition users_relation : RelationMessage := {|
  rm_RelationID := 7; rm_RelationName := "users";
  rm_Columns := [{| rc_Flags := 1; rc_Name := "id"; rc_DataType := 23 |};
                 {| rc_Flags := 0; rc_Name := "name"; rc_DataType := 25 |}] |}.

Definition text_column (s : string) : TupleColumn := {| td_DataType := "t"; td_Data := s |}.

Definition alice_tuple : list TupleColumn := [text_column "1"; text_column "Alice"].

(** A server whose messages wait in a list, and whose connection is closed
    after the last. *)
Definition list_repl : ReplLib := {|
  parse_logical s :=
    if String.eqb s "insert" then Ok (MInsert 7 (Some alice_tuple))
    else if String.eqb s "delete" then Ok (MDelete 7 (Some alice_tuple))
    else Ok MOther;
  parse_keepalive _ := Err (External "short message");
  parse_xlog s := Ok s;
  decode_value _ _ := None;
  Conn := list received;
  repl_connect _ := Ok [];
  drop_slot _ c := (None, c);
  create_slot _ _ c := (None, c);
  start_replication _ _ _ c := (None, c);
  receive c := match c with
               | [] => (RError (External "conn closed"), [])
               | msg :: rest => (msg, rest)
               end;
  send_status _ c := (None, c);
  close_conn c := (None, c)
|}.

(** Integer conversions as amd64 does them. *)
Definition amd64 : FloatConversion :=
  {| uint64_unfit _ := 9223372036854775808%N; int_unfit _ := (- 2 ^ 63)%Z |}.

Definition example_config : ReplicationConfig := {|
  rp_Host := "localhost"; rp_Port := 5432; rp_Database := "app"; rp_User := "witnz";
  rp_Password := ""; rp_SlotName := "witnz_node1"; rp_PublicationName := "witnz_publication" |}.

Definition example_client (c : list received) : ReplicationClient (L := list_repl) :=
  Build_ReplicationClient (L := list_repl) example_config (Some c) {[ 7%N := users_relation ]}.

Definition slack : AlertManager :=
  {| am_enabled := true; am_slackWebhook := "https://hooks.slack.com/x" |}.

(** The loop of a manager whose handler is the hash chain of users. *)
Definition users_manager (c : list received) : Manager list_repl (Storage map_bolt) := {|
  mg_config := example_config; mg_client := Some (example_client c);
  mg_handlers := [hash_chain_handler (RO := canonical_order) (HF := length_hash_function)
                    users_config];
  mg_currentLSN := 0; mg_running := true; mg_stopped := false; mg_alertManager := Some slack |}.

Definition users_loop (c : list received)
    : loop_state list_repl recording_client (Storage map_bolt) :=
  Build_loop_state (L := list_repl) (HC := recording_client) (users_manager c) empty_storage [] 0.

Definition at_noon : world := {| w_now := noon; w_io := None |}.

(** ** Properties *)

(** C14: an insert is recorded as the verifier will see it.  The stream
    delivers the insert of a row into a protected table, the only handler is
    the hash chain without Raft, the key is the column id, whose text has no
    space or bracket, each column prints the same text in the stream and in
    the query, the store holds a chain of the table's entries and the commit
    goes through.  Then there is an entry with the next number, whose hash is
    the hash the verifier computes from the row of a query and whose record
    ID leads back to the id of that row; and if JSON and bbolt can hold that
    entry and its table's name has no colon, the loop goes on without a wait,
    the table holds the entry under its number and is otherwise as before. *)
Theorem stream_insert_recorded {RO : RangeOrder} {HF : HashFunction} {B : Bolt} {BL : BoltLaws B}
    {L : ReplLib} {HC : HttpClient} {FC : FloatConversion} (h : tableConfigs)
    (st : loop_state L HC (Storage B)) (client : ReplicationClient) (c' : Conn) (w : world)
    (unix : Z) (wait : wait_end) (rel : RelationMessage) (id : N) (cols : list TupleColumn)
    (r : row) (f : gmap N HashEntry) :
  mg_handlers (ls_manager st) = [hash_chain_handler h] ->
  is_Some (h !! rm_RelationName rel) ->
  delivers st (MInsert id (Some cols)) client c' -> cl_relations client !! id = Some rel ->
  key_columns rel = ["id"] -> Forall3 reads_as (rm_Columns rel) cols r ->
  "id" ∈ r.*1 -> no_end (row_id r) = true ->
  ready storage_buckets (ls_handlers st) ->
  table_rep (chain (ls_handlers st)) (rm_RelationName rel) f -> w_io w = None ->
  exists e, next_of f (he_SequenceNum e) /\ he_TableName e = rm_RelationName rel
    /\ he_DataHash e = row_hash r /\ extractIDFromRecordID (he_RecordID e) = row_id r
    /\ (storable_entry e -> exists s',
          loop_step (TReceive w unix wait) st
          = (Again None, set_errors 0 (after_message st client c' s'))
          /\ table_rep (chain s') (rm_RelationName rel) (<[he_SequenceNum e := e]> f)).
Proof.
  intros Hh Hc Hdel Hrel Hkey Hf Hid Hend Hs Hr Hio.
  destruct (insert_event_row w client id rel cols r Hrel Hkey Hf Hid Hend)
    as (event & He & Ht & Hop & Hhash & Hrid).
  rewrite <-Ht in Hc, Hr |- *.
  destruct (next_sequence_rep _ _ f Hs Hr) as (seq & Hseq & Hnext).
  exists (event_entry (w_now w) seq event). split_and!; [done..|]. intros Hok.
  pose proof (HandleChange_insert h (w_now w) None event (ls_handlers st) f seq Hc) as H.
  destruct (HandleChange h (w_now w) None event (ls_handlers st)) as [res s'] eqn:E.
  destruct H as (-> & _ & Hr' & _); [by unfold is_update_or_delete; rewrite Hop|done..|].
  exists s'. split; [|done]. unfold loop_step.
  rewrite (loop_receive_event w st _ client c' event Hdel) by (simpl; by rewrite He).
  rewrite Hh. cbn [run_handlers]. unfold hash_chain_handler. by rewrite Hio, E.
Qed.

Theorem stream_insert_recorded_witness :
  let st := users_loop [RCopyData "winsert"] in
  let r := [("id", VInt 1); ("name", VString "Alice")] in
  exists e, next_of ∅ (he_SequenceNum e) /\ he_TableName e = "users"
    /\ he_DataHash e = row_hash (RO := canonical_order) (HF := length_hash_function) r
    /\ extractIDFromRecordID (he_RecordID e) = "1"
    /\ (storable_entry e -> exists s',
          loop_step (FC := amd64) (TReceive at_noon 0 WTimer) st
          = (Again None, set_errors 0 (after_message st (example_client [RCopyData "winsert"]) [] s'))
          /\ table_rep (chain s') "users" (<[he_SequenceNum e := e]> ∅)).
Proof.
  apply (stream_insert_recorded (RO := canonical_order) (HF := length_hash_function)
    (B := map_bolt) (L := list_repl) (HC := recording_client) (FC := amd64) users_config
    (users_loop [RCopyData "winsert"]) (example_client [RCopyData "winsert"]) [] at_noon 0 WTimer
    users_relation 7 alice_tuple [("id", VInt 1); ("name", VString "Alice")] ∅).
  - reflexivity.
  - by_decide.
  - split; [done|]. by exists [RCopyData "winsert"], "insert", "insert".
  - reflexivity.
  - reflexivity.
  - repeat constructor; simpl; eauto.
  - by_decide.
  - reflexivity.
  - apply empty_store_chain.
  - apply empty_store_chain.
  - reflexivity.
Defined.

(** C15: an update or a delete of a protected table raises exactly one alert
    and nothing else.  Let the server deliver a logical message to a loop
    whose one handler guards some tables.  If it updates or deletes a row of
    a guarded table, with tuples no longer than the relation it names, the
    turn posts one message that names the table and the operation, if there
    is an alert manager that is not silent; the handler's state and the error
    count stay and there is no wait.  An insert, an update or a delete of
    another table, again with such tuples, changes nothing but the state of
    the connection and the error count, which becomes zero; so does a message that is neither a relation
    nor a change of a row, TRUNCATE among them, and a relation is only
    remembered. *)
Theorem stream_tampering_alert {L : ReplLib} {HC : HttpClient} {FC : FloatConversion} {St : Type}
    (h : EventHandler St) (protected : string -> bool) {G : Guards h protected}
    (st : loop_state L HC St) (msg : LogicalMessage) (client : ReplicationClient) (c' : Conn)
    (w : world) (unix : Z) (wait : wait_end) :
  mg_handlers (ls_manager st) = [h] -> delivers st msg client c' ->
  let st' := after_message st client c' (ls_handlers st) in
  (forall rel op, changes rel client msg op ->
     loop_step (TReceive w unix wait) st
     = (Again None,
        if protected (rm_RelationName rel)
        then with_http (posted (mg_alertManager (ls_manager st))
               (tamper_message unix (rm_RelationName rel) op "N/A" tamper_details) (ls_http st)) st'
        else set_errors 0 st'))
  /\ (forall rel, touches rel client msg -> protected (rm_RelationName rel) = false ->
     loop_step (TReceive w unix wait) st = (Again None, set_errors 0 st'))
  /\ (msg = MOther -> loop_step (TReceive w unix wait) st = (Again None, set_errors 0 st'))
  /\ (forall rel, msg = MRelation rel -> loop_step (TReceive w unix wait) st
     = (Again None,
        set_errors 0 (after_message st (with_relation rel client) c' (ls_handlers st)))).
Proof.
  intros Hh Hdel st'. split_and!.
  - intros rel op Hch. destruct (changes_event w rel client msg op Hch) as (event & He & Ht & Ho & Hud).
    unfold loop_step. rewrite (loop_receive_event w st msg client c' event Hdel He), Hh.
    rewrite <-Ht. destruct (protected (ev_TableName event)) eqn:Hp.
    + rewrite guard_tampering by done. f_equal. unfold send_alert, posted.
      simpl. rewrite Ho. destruct (mg_alertManager _) as [am|]; [|done].
      by rewrite SendTamperAlert_posted.
    + by rewrite guard_ignores by done.
  - intros rel Htc Hp. destruct (touches_event w rel client msg Htc) as (event & He & Ht).
    unfold loop_step. rewrite (loop_receive_event w st msg client c' event Hdel He), Hh.
    by rewrite guard_ignores by by rewrite Ht.
  - intros ->. unfold loop_step. by rewrite (loop_receive_other w st client c' Hdel).
  - intros rel ->. unfold loop_step. by rewrite (loop_receive_relation w st client c' rel Hdel).
Qed.

Theorem stream_tampering_alert_witness :
  let st := users_loop [RCopyData "wdelete"] in
  let st' := after_message st (example_client [RCopyData "wdelete"]) [] empty_storage in
  (forall rel op, changes rel (example_client [RCopyData "wdelete"])
                    (MDelete 7 (Some alice_tuple)) op ->
     loop_step (FC := amd64) (TReceive at_noon 0 WTimer) st
     = (Again None,
        if configured users_config (rm_RelationName rel)
        then with_http (posted (Some slack)
               (tamper_message 0 (rm_RelationName rel) op "N/A" tamper_details) (ls_http st)) st'
        else set_errors 0 st'))
  /\ (forall rel, touches rel (example_client [RCopyData "wdelete"]) (MDelete 7 (Some alice_tuple)) ->
      configured users_config (rm_RelationName rel) = false ->
      loop_step (FC := amd64) (TReceive at_noon 0 WTimer) st = (Again None, set_errors 0 st'))
  /\ (MDelete 7 (Some alice_tuple) = MOther ->
      loop_step (FC := amd64) (TReceive at_noon 0 WTimer) st = (Again None, set_errors 0 st'))
  /\ (forall rel, MDelete 7 (Some alice_tuple) = MRelation rel ->
      loop_step (FC := amd64) (TReceive at_noon 0 WTimer) st
      = (Again None, set_errors 0 (after_message st
           (with_relation rel (example_client [RCopyData "wdelete"])) [] empty_storage))).
Proof.
  apply (stream_tampering_alert (L := list_repl) (HC := recording_client) (FC := amd64)
    (hash_chain_handler (RO := canonical_order) (HF := length_hash_function) (B := map_bolt)
       users_config) (configured users_config)
    (users_loop [RCopyData "wdelete"]) (MDelete 7 (Some alice_tuple))
    (example_client [RCopyData "wdelete"]) [] at_noon 0 WTimer).
  - reflexivity.
  - split; [done|]. by exists [RCopyData "wdelete"], "delete", "delete".
Defined.

(** C35: the wait between failures does not stay at its cap.  While every
    receive fails, the loop does not end; its first four
    waits are 2, 4, 8 and 16 seconds, those from the fifth to the
    thirty-third 30 seconds, but the int64 product then overflows: where an
    out-of-range conversion gives the least integer, as on amd64, every wait
    from the fifty-fifth on is zero, and the loop spins. *)
Theorem receiveLoop_backoff {L : ReplLib} {HC : HttpClient} {FC : FloatConversion} {St : Type}
    (e : error) (turns : list loop_turn) (st : loop_state L HC St) :
  (forall z, int_unfit z = - 2 ^ 63)%Z ->
  dead e st -> ls_errors st = 0%N -> receives turns ->
  exists waits st', receiveLoop turns st = (waits, None, st')
    /\ length waits = length turns /\ ls_handlers st' = ls_handlers st
    /\ forall i d, waits !! i = Some d ->
         (i < 4 -> d = (2 ^ Z.of_nat (S i) * second)%Z)
         /\ (4 <= i < 33 -> d = maxBackoff) /\ (54 <= i -> d = 0%Z).
Proof.
  intros Hunfit Hd H0 Ht. destruct (receiveLoop_dead e turns st Hd Ht) as (st' & Hl & Hh & _).
  eexists _, st'. split; [done|]. split_and!; [by rewrite length_fmap, length_seq|done|].
  intros i d Hi. rewrite H0, list_lookup_fmap in Hi.
  destruct (seq 0 (length turns) !! i) as [j|] eqn:E; [|done].
  apply lookup_seq in E as [-> _]. simplify_eq/=. split_and!; intros Hr.
  - rewrite backoff_short by lia. do 2 f_equal; lia.
  - apply backoff_capped. lia.
  - apply backoff_zero; [done|lia].
Qed.

Theorem receiveLoop_backoff_witness :
  let turns := replicate 60 (TReceive at_noon 0 WTimer) in
  exists waits st', receiveLoop (FC := amd64) turns (users_loop []) = (waits, None, st')
    /\ length waits = 60 /\ ls_handlers st' = empty_storage
    /\ forall i d, waits !! i = Some d ->
         (i < 4 -> d = (2 ^ Z.of_nat (S i) * second)%Z)
         /\ (4 <= i < 33 -> d = maxBackoff) /\ (54 <= i -> d = 0%Z).
Proof.
  apply (receiveLoop_backoff (L := list_repl) (HC := recording_client) (FC := amd64)
    (External "conn closed") (replicate 60 (TReceive at_noon 0 WTimer)) (users_loop [])).
  - reflexivity.
  - split; [done|]. by exists (example_client []), [].
  - reflexivity.
  - apply Forall_replicate. by exists at_noon, 0%Z.
Defined.
