(* ===== verification/VerdictFacts.v ===== *)
(** * The verdict of VerifyTable

    [expected_leaves] is what the storage says the leaves of a table are:
    the data hashes of its entries, or the leaf map of the latest checkpoint
    that has one, updated with the later entries.  The verdict of
    [VerifyTable] is a function of these, of the rows PostgreSQL returns, and
    of the two leaf maps of the detailed verification. *)

From Stdlib Require Import NArith ZArith Lia.
From S2P Require Import Prelude Bytes Json JsonFacts Codec Sha256 Hasher HashTree DataHash Merkle.
From S2P Require Import MerkleFacts MerkleCompare Bolt Keys Storage TableView StorageFacts.
From S2P Require Import BoltStore AnyData Fsm Node FsmFacts Replication Handler HandlerFacts.
From S2P Require Import Verifier VerifierFacts.

Section verdict.
Context `{RO : RangeOrder} `{HF : HashFunction} {B : Bolt} {BL : BoltLaws B} {R : RaftLib}.
Implicit Types (st : VState B R) (s : Storage B) (pg : PgAnswer) (rs : list row).

(** The latest checkpoint, if it has leaves. *)
Definition usable_checkpoint s (t : string) : option MerkleCheckpoint :=
  match GetLatestMerkleCheckpoint s t with
  | Ok c => if decide (0 < size (mc_LeafMap c)) then Some c else None
  | _ => None
  end.

Definition updated_leaves (c : MerkleCheckpoint) (entries : list HashEntry) : gmap string string :=
  foldl (fun m e => if decide (mc_SequenceNum c < he_SequenceNum e)%N
                    then <[he_RecordID e := he_DataHash e]> m else m) (mc_LeafMap c) entries.

Definition expected_leaves s t (entries : list HashEntry) : list string :=
  match usable_checkpoint s t with
  | Some c => (map_to_list (updated_leaves c entries)).*2
  | None => he_DataHash <$> entries
  end.

Definition root_of (l : list string) : string :=
  if decide (l = []) then "" else merkle_root (sort_strings l).

Lemma root_of_proper l1 l2 : l1 ≡ₚ l2 -> root_of l1 = root_of l2.
Proof.
  intros Hp. unfold root_of. destruct (decide (l1 = [])) as [->|H1].
  - apply Permutation_nil_l in Hp as <-. done.
  - rewrite decide_False; [by rewrite Hp|]. intros ->. by apply Permutation_nil_r in Hp.
Qed.

Lemma foldl_insert_pairs (l : list (string * string)) (m : gmap string string) :
  NoDup l.*1 -> foldl (fun m kv => <[kv.1 := kv.2]> m) m l = list_to_map l ∪ m.
Proof. apply insert_pairs_union. Qed.

Lemma AddLeafHash_leaves {X} (id h : X -> string) l b :
  leaves (foldl (fun b x => AddLeafHash b (id x) (h x)) b l) = leaves b ++ (h <$> l).
Proof.
  revert b. induction l as [|x l IH]; intros b; [by rewrite app_nil_r|].
  cbn [foldl]. rewrite IH. simpl. by rewrite <-app_assoc.
Qed.

Lemma updated_leaves_pos c entries : 0 < size (mc_LeafMap c) -> 0 < size (updated_leaves c entries).
Proof.
  unfold updated_leaves. generalize (mc_LeafMap c).
  induction entries as [|e entries IH]; intros m Hm; [done|]. cbn [foldl]. apply IH.
  case_decide; [|done]. apply Nat.neq_0_lt_0, map_size_non_empty_iff, insert_non_empty.
Qed.

Lemma GetLatestMerkleCheckpoint_no_panic s t w :
  ready storage_buckets s -> GetLatestMerkleCheckpoint s t <> Panic w.
Proof.
  intros Hs. unfold GetLatestMerkleCheckpoint. rewrite (View_ready _ _ _ Hs).
  destruct (tx_bucket_ready MerkleCheckpointBucket _ _ Hs ltac:(set_solver)) as (b & -> & _).
  simpl. by destruct (foldl _ _ _).
Qed.

Lemma full_scan_root s t entries :
  GetAllHashEntries s t = Ok entries ->
  full_scan s t = Ok (root_of (he_DataHash <$> entries), length (he_DataHash <$> entries)).
Proof.
  intros Hall. unfold full_scan. rewrite Hall. cbn [wrap_err]. rewrite Ok_bind.
  destruct entries as [|e entries]; [done|]. rewrite decide_False by done.
  destruct (build_tree_nonempty "failed to build Merkle Tree from BoltDB"
    (foldl (fun b entry => AddLeafHash b (he_RecordID entry) (he_DataHash entry))
       NewMerkleTreeBuilder (e :: entries))) as (b' & -> & Hb & El & _);
    [by rewrite AddLeafHash_leaves|].
  rewrite Ok_bind, (built_GetRoot b' Hb), El, AddLeafHash_leaves, length_fmap.
  unfold root_of. by rewrite decide_False.
Qed.

Lemma checkpoint_root s t c entries :
  GetAllHashEntries s t = Ok entries -> 0 < size (mc_LeafMap c) ->
  let l := (map_to_list (updated_leaves c entries)).*2 in
  calculateMerkleRootFromCheckpoint s t c = Ok (root_of l, length l).
Proof.
  intros Hall Hsz l. subst l. unfold calculateMerkleRootFromCheckpoint. rewrite Hall.
  cbn [wrap_err]. rewrite Ok_bind.
  rewrite foldl_insert_pairs, list_to_map_range_map, (right_id_L ∅ (∪))
    by apply NoDup_fst_range_map.
  fold (updated_leaves c entries). pose proof (updated_leaves_pos c entries Hsz) as Hpos.
  set (lm := updated_leaves c entries) in *.
  assert ((range_map 7 lm).*2 ≡ₚ (map_to_list lm).*2) as Hperm by by rewrite range_map_perm.
  assert (length (map_to_list lm).*2 = size lm) as Hlen by by rewrite length_fmap, length_map_to_list.
  destruct (build_tree_nonempty "failed to build Merkle Tree"
    (foldl (fun b kv => AddLeafHash b kv.1 kv.2) NewMerkleTreeBuilder (range_map 7 lm)))
    as (b' & -> & Hb & El & _).
  { rewrite AddLeafHash_leaves. simpl. intros E. rewrite E in Hperm.
    apply Permutation_nil_l in Hperm. rewrite <-Hperm in Hlen. simpl in Hlen. lia. }
  rewrite Ok_bind, Hlen, (built_GetRoot b' Hb), El, AddLeafHash_leaves. simpl. do 2 f_equal.
  unfold root_of. rewrite decide_False; [by rewrite Hperm|].
  intros E. rewrite E in Hlen. simpl in Hlen. lia.
Qed.

(** What [calculateMerkleRootFromBoltDB] returns. *)
Lemma bolt_root s t entries :
  ready storage_buckets s -> GetAllHashEntries s t = Ok entries ->
  calculateMerkleRootFromBoltDB s t
  = Ok (root_of (expected_leaves s t entries), length (expected_leaves s t entries)).
Proof.
  intros Hs Hall. pose proof (GetLatestMerkleCheckpoint_no_panic s t) as Hnp.
  unfold calculateMerkleRootFromBoltDB, leaf_checkpoint, expected_leaves, usable_checkpoint.
  destruct (GetLatestMerkleCheckpoint s t) as [c|e|w]; [|by apply full_scan_root|by destruct (Hnp w Hs)].
  rewrite Ok_bind. case_decide; [by apply checkpoint_root|by apply full_scan_root].
Qed.

(** What [calculateCurrentMerkleRootFromPG] returns. *)
Lemma pg_root pg rs :
  answers pg rs ->
  exists tree, calculateCurrentMerkleRootFromPG pg
    = Ok (root_of (row_hash <$> rs), length rs, tree)
  /\ (tree = None <-> rs = [])
  /\ forall b, tree = Some b -> built b /\ leaves b = row_hash <$> rs /\ leafDataMap b = pg_map rs.
Proof.
  intros Hpg. unfold calculateCurrentMerkleRootFromPG.
  rewrite (pg_open_answers pg rs Hpg), Ok_bind.
  destruct (pg_tree_loop_rows rs NewMerkleTreeBuilder 0) as (b & -> & Hl & Hm). rewrite Ok_bind.
  simpl in Hl, Hm |- *. destruct rs as [|r rs].
  - exists None. rewrite decide_True by done. done.
  - rewrite decide_False by done.
    destruct (build_tree_nonempty "failed to build tree" b) as (b' & -> & Hb & El & Em);
      [by rewrite Hl|].
    rewrite Ok_bind. exists (Some b'). split; [|split; [done|]].
    + by rewrite (built_GetRoot b' Hb), El, Hl.
    + intros b'' [= <-]. by rewrite El, Hl, Em, Hm.
Qed.

(** The latest entry is the last of all entries. *)
Lemma latest_of_all {A} {JC : JsonCodec A} L :
  foldl keep_latest None L = last (foldl (collect (A := A)) [] L).
Proof.
  induction L as [|kv L IH] using rev_ind; [done|]. rewrite !foldl_app. simpl.
  unfold keep_latest at 1, collect at 1. destruct (Unmarshal kv.2); [|done..].
  by rewrite last_snoc.
Qed.

Lemma GetLatestHashEntry_all s t entries :
  GetAllHashEntries s t = Ok entries ->
  GetLatestHashEntry s t = match last entries with
                           | Some e => Ok e
                           | None => Err (Errorf ("no hash entries found for table " +:+ t))
                           end.
Proof.
  unfold GetAllHashEntries, GetLatestHashEntry, View. destruct (db_open s); [|done].
  destruct (tx_bucket _ _) as [b| |]; [|done..].
  intros [= <-]. cbn -[last foldl]. by rewrite latest_of_all.
Qed.

(** The checkpoint of an empty table without entries. *)
Definition empty_checkpoint (g : option Hasher) (now : Time) (t : string) : MerkleCheckpoint := {|
  mc_TableName := t; mc_SequenceNum := 0; mc_MerkleRoot := ""; mc_Timestamp := now;
  mc_RecordCount := 0; mc_HashAlgorithm := Name (GetHasher g); mc_LeafMap := ∅;
  mc_InternalNodes := ∅ |}.

Lemma new_checkpoint_empty g now s t :
  GetAllHashEntries s t = Ok [] -> new_checkpoint g now s t "" 0 None = Ok (empty_checkpoint g now t).
Proof. intros Hall. unfold new_checkpoint. by rewrite (GetLatestHashEntry_all s t [] Hall). Qed.

Lemma bolt_map_empty entries : bolt_map entries = ∅ -> entries = [].
Proof.
  unfold bolt_map. destruct entries as [|e entries _] using rev_ind; [done|].
  rewrite foldl_app. simpl. intros E. by apply insert_non_empty in E.
Qed.

(** [VerifyTable] as a function of the leaves. *)
Lemma VerifyTable_leaves g now io pg1 pg2 st t entries rs1 rs2 :
  ready storage_buckets (vs_storage st) ->
  GetAllHashEntries (vs_storage st) t = Ok entries ->
  answers pg1 rs1 -> answers pg2 rs2 ->
  let E := expected_leaves (vs_storage st) t entries in
  let A := row_hash <$> rs1 in
  exists tree root2 l, exact_differences (bolt_map entries) (pg_map rs2) l
  /\ (root2 = root_of (row_hash <$> rs2) /\ (tree = None <-> rs1 = [])
      /\ forall b, tree = Some b ->
         built b /\ leaves b = row_hash <$> rs1 /\ leafDataMap b = pg_map rs1)
  /\ VerifyTable g now io pg1 pg2 st t
     = if decide (E = [] \/ root_of A = root_of E /\ length A = length E)
       then createCheckpointWithTree g now io st t (root_of A) (length rs1) tree
       else if decide (bolt_map entries = pg_map rs2)
       then createCheckpointWithTree g now io st t root2 (size (pg_map rs2)) None
       else (Err (tampering_error (length l)), st).
Proof.
  intros Hs Hall H1 H2 E A. unfold VerifyTable.
  destruct (pg_root pg1 rs1 H1) as (tree & -> & Htn & Htree). cbn [wrap_err]. rewrite Ok_bind.
  rewrite (bolt_root _ _ _ Hs Hall). cbn [wrap_err]. rewrite Ok_bind. fold E.
  destruct (performDetailedVerification_maps g now io pg2 st t entries rs2 Hall H2)
    as (l & root2 & Hx & Hd & Hroot).
  exists tree, root2, l. split; [done|]. split; [split; [|done]|].
  { rewrite Hroot. unfold root_of. by destruct rs2. }
  fold A.
  assert (length A = length rs1) as -> by apply length_fmap.
  destruct (decide (length E = 0)) as [E0|E0].
  - apply nil_length_inv in E0. rewrite (decide_True (P := E = [] \/ _)) by auto. done.
  - assert (E <> []) as Hne by (intros ->; done).
    destruct (decide (root_of A = root_of E /\ length rs1 = length E)) as [Hm|Hm].
    + by rewrite (decide_True (P := E = [] \/ _)) by auto.
    + rewrite (decide_False (P := E = [] \/ _)) by tauto. done.
Qed.

(** Equal roots of equally many leaves, as multisets. *)
Lemma root_of_inj l1 l2 :
  hashes l1 -> hashes l2 -> length l1 = length l2 ->
  collision_free (merkle_queries (sort_strings l1) ++ merkle_queries (sort_strings l2)) ->
  root_of l1 = root_of l2 -> l1 ≡ₚ l2.
Proof.
  intros H1 H2 Hlen Hcf. unfold root_of.
  destruct (decide (l1 = [])) as [->|Hn1], (decide (l2 = [])) as [->|Hn2]; [done| | |].
  - by destruct l2.
  - by destruct l1.
  - intros Heq. apply sort_strings_inj, merkle_root_inj; try done; try by apply hashes_sort.
    by rewrite !length_sort_strings.
Qed.

Lemma row_hashes rs : hashes (row_hash <$> rs).
Proof. apply Forall_fmap, Forall_true. intros r. apply length_hash. Qed.
End verdict.
