(* ===== verification/Verdict.v ===== *)
(** * The properties of the verification

    What [VerifyTable] promises and what it does not: record IDs, the exact
    count of the detailed verification, the verdict as a whole, rows that are
    only in a checkpoint, and the whole path from the inserts of the
    replication stream to the verdict. *)

From Stdlib Require Import Ascii NArith ZArith Lia.
From S2P Require Import Prelude Bytes Json JsonFacts Codec Sha256 Hasher HashTree DataHash Merkle.
From S2P Require Import MerkleFacts MerkleCompare Bolt Keys Storage TableView StorageFacts.
From S2P Require Import BoltStore AnyData Fsm Node FsmFacts Replication Handler HandlerFacts.
From S2P Require Import Verifier VerifierFacts VerdictFacts RecordIds.

(** ** Examples for the witnesses *)

Definition pg_of (rs : list row) : PgAnswer :=
  {| pg_connect := None; pg_query := None; pg_rows := Ok <$> rs |}.

Definition user_row (id : Z) (name : string) : row := [("id", VInt id); ("name", VString name)].

Definition local_state (s : Storage map_bolt) : VState map_bolt list_raft :=
  {| vs_storage := s; vs_node := None |}.

(** The entries a store returns for a table. *)
Definition entries_of (s : Storage map_bolt) (t : string) : list HashEntry :=
  match GetAllHashEntries s t with
  | Ok entries => entries
  | _ => []
  end.

Definition sha_row_hash (r : row) : string :=
  row_hash (RO := canonical_order) (HF := sha256_function) r.

(** Two rows stored as the handler stores them. *)
Definition two_rows : list row := [user_row 1 "Alice"; user_row 2 "Bob"].

Definition two_rows_storage : Storage map_bolt :=
  save_all [example_entry "users" 1 (sha_row_hash (user_row 1 "Alice"));
            example_entry "users" 2 (sha_row_hash (user_row 2 "Bob"))] empty_storage.

(** A store with a checkpoint of two rows and no entry. *)
Definition checkpoint_only : Storage map_bolt :=
  (SaveMerkleCheckpoint None example_checkpoint empty_storage).2.

Definition twelve_rows : list row := (fun i => user_row (Z.of_nat i) "someone") <$> seq 1 12.

Definition three_inserts : list (Time * ChangeEvent) := take 3 twelve_inserts.

(** ** Properties *)

(** C34: the record ID of an insert leads back to the id of the row when the
    primary key is the column id alone and its text has no space or bracket.
    With another key column whose name ends in id, the first match wins: the
    record ID of the key (account_id, id) leads to the account, whatever the
    id, so all rows of an account become one record of the verification. *)
Theorem extractIDFromRecordID_spec (v w : GoValue) :
  no_end (sprint_v v) = true ->
  extractIDFromRecordID (sprint_map {[ "id" := v ]}) = sprint_v v
  /\ extractIDFromRecordID (sprint_map {[ "account_id" := v; "id" := w ]}) = sprint_v v.
Proof.
  intros Hv. split; [by apply extract_id_map|by apply extract_account_map].
Qed.

Theorem extractIDFromRecordID_spec_witness :
  extractIDFromRecordID (sprint_map {[ "id" := VInt 12 ]}) = "12"
  /\ extractIDFromRecordID (sprint_map {[ "account_id" := VInt 12; "id" := VInt 7 ]}) = "12".
Proof. apply (extractIDFromRecordID_spec (VInt 12) (VInt 7)). reflexivity. Defined.

(** C2: the detailed verification is exact.  When the storage and
    PostgreSQL can be read, it fails if and only if the leaf map of the
    stored entries and the leaf map of the rows differ, the error counts each
    modified, deleted and phantom record once, and otherwise it makes the
    checkpoint of the rows. *)
Theorem performDetailedVerification_exact {RO : RangeOrder} {HF : HashFunction} {B : Bolt}
    {BL : BoltLaws B} {R : RaftLib} (g : option Hasher) (now : Time) (io : option error)
    (pg : PgAnswer)
    (st : VState B R) (t : string) (entries : list HashEntry) (rs : list row) :
  GetAllHashEntries (vs_storage st) t = Ok entries -> answers pg rs ->
  exists l, exact_differences (bolt_map entries) (pg_map rs) l
  /\ performDetailedVerification g now io pg st t
     = if decide (bolt_map entries = pg_map rs)
       then createCheckpoint g now io st t (root_of (row_hash <$> rs)) (size (pg_map rs))
       else (Err (tampering_error (length l)), st).
Proof.
  intros Hall Hpg.
  destruct (performDetailedVerification_maps g now io pg st t entries rs Hall Hpg)
    as (l & root & Hx & -> & ->). exists l. split; [done|].
  unfold root_of. by destruct rs.
Qed.

Theorem performDetailedVerification_exact_witness :
  let rs := [user_row 1 "Alice"] in
  let entries := entries_of nine_ten_storage "users" in
  exists l, exact_differences (bolt_map entries)
              (pg_map (RO := canonical_order) (HF := length_hash_function) rs) l
  /\ performDetailedVerification (RO := canonical_order) (HF := length_hash_function) None noon None
       (pg_of rs) (local_state nine_ten_storage) "users"
     = if decide (bolt_map entries = pg_map (RO := canonical_order) (HF := length_hash_function) rs)
       then createCheckpoint (RO := canonical_order) None noon None
              (local_state nine_ten_storage) "users"
              (root_of (HF := length_hash_function)
                (row_hash (RO := canonical_order) (HF := length_hash_function) <$> rs))
              (size (pg_map (RO := canonical_order) (HF := length_hash_function) rs))
       else (Err (tampering_error (length l)), local_state nine_ten_storage).
Proof.
  apply (performDetailedVerification_exact (RO := canonical_order) (HF := length_hash_function)
    (B := map_bolt) (R := list_raft)).
  - by_vm.
  - by split_and!.
Defined.

(** C1: the verdict of [VerifyTable].  Let the expected leaves be those of
    the entries, or of the latest checkpoint that has a leaf map with the
    later entries on top, each a hash of the hash width.  If no two of the
    strings hashed for the two roots collide, then [VerifyTable] makes a checkpoint when nothing is expected
    or when the rows have exactly the expected leaves as a multiset;
    otherwise it makes one when the two leaf maps of the detailed
    verification agree, and else reports the number of differing records. *)
Theorem VerifyTable_verdict {RO : RangeOrder} {HF : HashFunction} {B : Bolt} {BL : BoltLaws B}
    {R : RaftLib} (g : option Hasher) (now : Time) (io : option error) (pg1 pg2 : PgAnswer)
    (st : VState B R) (t : string) (entries : list HashEntry) (rs1 rs2 : list row) :
  ready storage_buckets (vs_storage st) ->
  GetAllHashEntries (vs_storage st) t = Ok entries ->
  answers pg1 rs1 -> answers pg2 rs2 ->
  let E := expected_leaves (vs_storage st) t entries in
  let A := row_hash <$> rs1 in
  hashes E ->
  collision_free (merkle_queries (sort_strings A) ++ merkle_queries (sort_strings E)) ->
  (E = [] \/ A ≡ₚ E -> exists tree, VerifyTable g now io pg1 pg2 st t
     = createCheckpointWithTree g now io st t (root_of A) (length rs1) tree)
  /\ (~ (E = [] \/ A ≡ₚ E) -> bolt_map entries = pg_map rs2 ->
      exists root, VerifyTable g now io pg1 pg2 st t
      = createCheckpointWithTree g now io st t root (size (pg_map rs2)) None)
  /\ (~ (E = [] \/ A ≡ₚ E) -> bolt_map entries <> pg_map rs2 ->
      exists l, exact_differences (bolt_map entries) (pg_map rs2) l
      /\ VerifyTable g now io pg1 pg2 st t = (Err (tampering_error (length l)), st)).
Proof.
  intros Hs Hall H1 H2 E A HE Hcf.
  destruct (VerifyTable_leaves g now io pg1 pg2 st t entries rs1 rs2 Hs Hall H1 H2)
    as (tree & root2 & l & Hx & _ & Hv). fold E A in Hv. rewrite Hv.
  assert (E = [] \/ root_of A = root_of E /\ length A = length E <-> E = [] \/ A ≡ₚ E) as Hiff.
  { split; (intros [->|H]; [by left|right]).
    - destruct H as [Hr Hlen]. apply root_of_inj; try done. apply row_hashes.
    - split; [by apply root_of_proper|by apply Permutation_length]. }
  destruct (decide _) as [Hm|Hm]; rewrite Hiff in Hm.
  - split_and!; [by eauto|done|done].
  - split_and!; [done| |]; intros _ Hmap.
    + rewrite decide_True by done. eauto.
    + rewrite decide_False by done. eauto.
Qed.

Theorem VerifyTable_verdict_witness :
  exists tree, VerifyTable (RO := canonical_order) (HF := sha256_function) None noon None
      (pg_of two_rows) (pg_of two_rows) (local_state two_rows_storage) "users"
    = createCheckpointWithTree (RO := canonical_order) None noon None (local_state two_rows_storage) "users"
        (root_of (HF := sha256_function) (sha_row_hash <$> two_rows)) 2 tree.
Proof.
  apply (VerifyTable_verdict (RO := canonical_order) (HF := sha256_function) (B := map_bolt)
    (R := list_raft) None noon None (pg_of two_rows) (pg_of two_rows)
    (local_state two_rows_storage) "users" (entries_of two_rows_storage "users")
    two_rows two_rows).
  - split; by_decide.
  - by_vm.
  - by split_and!.
  - by split_and!.
  - by_decide.
  - by_decide.
  - right. by_decide.
Defined.

(** C31: rows that are only in a checkpoint are not protected against
    deletion.  Whatever leaf map the latest checkpoint has, if the rows that
    are left in PostgreSQL have the leaf map of the stored entries, then
    [VerifyTable] reports no tampering: it ends by making a checkpoint with
    the Merkle root of the rows that are left, counted either as rows, with
    a tree over them, or as distinct ids, without a tree.  So when the table
    has no stored entry and is emptied, the verification of a node without
    Raft whose commit goes through succeeds if bbolt can hold the checkpoint, and what it stores is a
    checkpoint with number 0, an empty root, no records and no leaves, under
    the key a checkpoint taken before the first entry has. *)
Theorem VerifyTable_forgets_checkpoint {RO : RangeOrder} {HF : HashFunction} {B : Bolt}
    {BL : BoltLaws B} {R : RaftLib} (g : option Hasher) (now : Time) (io : option error)
    (pg1 pg2 : PgAnswer) (st : VState B R) (t : string) (c : MerkleCheckpoint)
    (entries : list HashEntry) (rs : list row) :
  ready storage_buckets (vs_storage st) ->
  usable_checkpoint (vs_storage st) t = Some c ->
  GetAllHashEntries (vs_storage st) t = Ok entries ->
  answers pg1 rs -> answers pg2 rs -> bolt_map entries = pg_map rs ->
  (exists count tree, VerifyTable g now io pg1 pg2 st t
     = createCheckpointWithTree g now io st t (root_of (row_hash <$> rs)) count tree
   /\ (count = length rs /\ (forall b, tree = Some b -> leaves b = row_hash <$> rs
                                        /\ leafDataMap b = pg_map rs)
       \/ count = size (pg_map rs) /\ tree = None))
  /\ (rs = [] -> vs_node st = None -> io = None -> forall data,
      Marshal (empty_checkpoint g now t) = Ok data -> storable (table_key t 0) data ->
      exists s', VerifyTable g now io pg1 pg2 st t = (Ok tt, {| vs_storage := s'; vs_node := None |})
      /\ checkpoints s' = <[table_key t 0 := data]> (checkpoints (vs_storage st))
      /\ chain s' = chain (vs_storage st)).
Proof.
  intros Hs _ Hall H1 H2 Hmap.
  destruct (VerifyTable_leaves g now io pg1 pg2 st t entries rs rs Hs Hall H1 H2)
    as (tree & root2 & l & _ & (-> & Htn & Htree) & ->). split.
  - destruct (decide _); [|rewrite decide_True by done; eauto 6].
    exists (length rs), tree. split; [done|]. left. split; [done|].
    intros b Hb. by destruct (Htree b Hb).
  - intros -> Hnode -> data Hm Hst. apply bolt_map_empty in Hmap as ->.
    rewrite (decide_True (P := bolt_map [] = pg_map [])) by done.
    rewrite (proj2 Htn) by done. assert (forall P (D : Decision P) (x : result unit * VState B R),
      (if decide P then x else x) = x) as -> by (intros; by case_decide).
    unfold createCheckpointWithTree. rewrite new_checkpoint_empty, Hnode by done.
    pose proof (SaveMerkleCheckpoint_write None (empty_checkpoint g now t) _ Hs) as H.
    destruct (SaveMerkleCheckpoint _ _ _) as [r s']. destruct H as (_ & _ & Hcp & Hch & Hr & _).
    unfold checkpoint_write in Hcp, Hr. rewrite Hm in Hcp, Hr. simpl in Hcp, Hr.
    rewrite decide_True in Hcp, Hr by done. rewrite (proj2 Hr) by eauto. by exists s'.
Qed.

Theorem VerifyTable_forgets_checkpoint_witness :
  let st := local_state checkpoint_only in
  let c := empty_checkpoint None noon "users" in
  (exists count tree, VerifyTable (RO := canonical_order) (HF := length_hash_function)
      None noon None (pg_of []) (pg_of []) st "users"
    = createCheckpointWithTree (RO := canonical_order) None noon None st "users" "" count tree
    /\ (count = 0 /\ (forall b, tree = Some b -> leaves b = [] /\ leafDataMap b = ∅)
        \/ count = 0 /\ tree = None))
  /\ (@nil row = [] -> vs_node st = None -> @None error = None -> forall data, Marshal c = Ok data ->
      storable (table_key "users" 0) data ->
      exists s', VerifyTable (RO := canonical_order) (HF := length_hash_function)
        None noon None (pg_of []) (pg_of []) st "users" = (Ok tt, {| vs_storage := s'; vs_node := None |})
      /\ checkpoints s' = <[table_key "users" 0 := data]> (checkpoints checkpoint_only)
      /\ chain s' = chain checkpoint_only).
Proof.
  apply (VerifyTable_forgets_checkpoint (RO := canonical_order) (HF := length_hash_function)
    (B := map_bolt) (R := list_raft) None noon None (pg_of []) (pg_of [])
    (local_state checkpoint_only) "users" example_checkpoint [] []).
  - split; by_decide.
  - by_vm.
  - by_vm.
  - by split_and!.
  - by split_and!.
  - reflexivity.
Defined.
