(* ===== verification/Pipeline.v ===== *)
(** * From the replication stream to the verdict

    The handler and the verifier together: what [VerifyTable] says of a table
    whose inserts the handler recorded, starting from a store without
    entries and checkpoints.  Up to ten inserts the verdict is exact; from
    the eleventh on it is always an alarm. *)

From Stdlib Require Import Ascii NArith ZArith Lia.
From S2P Require Import Prelude Bytes Json JsonFacts Codec Sha256 Hasher HashTree DataHash Merkle.
From S2P Require Import MerkleFacts MerkleCompare Bolt Keys Storage TableView StorageFacts.
From S2P Require Import BoltStore AnyData Fsm Node FsmFacts Replication Handler HandlerFacts.
From S2P Require Import Verifier VerifierFacts VerdictFacts RecordIds Verdict.

Section pipeline.
Context `{RO : RangeOrder} `{HF : HashFunction} {B : Bolt} {BL : BoltLaws B}.

Lemma usable_checkpoint_none (s : Storage B) t :
  ready storage_buckets s -> table_rep (A := MerkleCheckpoint) (checkpoints s) t ∅ ->
  usable_checkpoint s t = None.
Proof.
  intros Hs Hr. pose proof (GetLatestMerkleCheckpoint_rep s t ∅ Hs Hr) as H.
  unfold usable_checkpoint. destruct (GetLatestMerkleCheckpoint s t) as [c| |]; [|done..].
  destruct H as (n & Hn & _). by rewrite lookup_empty in Hn.
Qed.

(** Inserts do not touch the checkpoints. *)
Lemma insert_all_checkpoints h evs (s : Storage B) :
  ready storage_buckets s -> checkpoints (insert_all h evs s) = checkpoints s
  /\ ready storage_buckets (insert_all h evs s).
Proof.
  revert s. induction evs as [|te evs IH]; intros s Hs; [done|].
  assert (checkpoints (HandleChange h te.1 None te.2 s).2 = checkpoints s
    /\ ready storage_buckets (HandleChange h te.1 None te.2 s).2) as [Hc Hr].
  { unfold HandleChange. destruct (h !! _); [|done]. destruct (is_update_or_delete _); [done|].
    destruct (next_sequence s _) as [seq| |]; [|done..].
    pose proof (SaveHashEntry_write None (event_entry te.1 seq te.2) s Hs) as H.
    destruct (SaveHashEntry None _ s) as [r s']. by destruct H as (? & _ & _ & ? & _). }
  destruct (IH _ Hr) as [Hc' Hr'].
  change (insert_all h (te :: evs) s) with (insert_all h evs (HandleChange h te.1 None te.2 s).2).
  by rewrite Hc', Hc.
Qed.

Lemma inserted_size evs f : inserted evs f -> size f = Nat.min (length evs) 10.
Proof.
  intros Hin. set (n := Nat.min (length evs) 10).
  assert (dom f = list_to_set ((fun i => N.of_nat (S i)) <$> seq 0 n)) as Hdom.
  { apply set_eq. intros k. rewrite elem_of_dom, (inserted_keys _ _ Hin), elem_of_list_to_set,
      list_elem_of_fmap. fold n. split.
    - intros Hk. exists (N.to_nat k - 1). rewrite elem_of_seq. split; lia.
    - intros (i & -> & Hi%elem_of_seq). lia. }
  rewrite <-size_dom, Hdom, size_list_to_set, length_fmap, length_seq; [done|].
  apply NoDup_fmap_2_strong; [|apply NoDup_seq]. intros; lia.
Qed.

Lemma map_fold_size_le (l : list HashEntry) (m : gmap string string) :
  size (foldl (fun m e => <[extractIDFromRecordID (he_RecordID e) := he_DataHash e]> m) m l)
  <= size m + length l.
Proof.
  revert m. induction l as [|e l IH]; intros m; [simpl; lia|]. cbn [foldl length].
  rewrite IH, map_size_insert. destruct (m !! _); simpl; lia.
Qed.

(** The hash of the row an event inserts, and its record in the verification. *)
Definition insert_hash (te : Time * ChangeEvent) : string := CalculateDataHash (ev_NewData te.2).

Definition insert_id (te : Time * ChangeEvent) : string :=
  extractIDFromRecordID (sprint_map (ev_PrimaryKey te.2)).

(** The entries of at most ten inserts. *)
Lemma inserted_entries evs f :
  inserted evs f -> length evs <= 10 ->
  (map_to_list f).*2 ≡ₚ imap (fun i te => event_entry te.1 (N.of_nat (S i)) te.2) evs.
Proof.
  intros Hin H10. set (entry i (te : Time * ChangeEvent) := event_entry te.1 (N.of_nat (S i)) te.2).
  assert (map_to_list f ≡ₚ imap (fun i te => (N.of_nat (S i), entry i te)) evs) as ->.
  { apply NoDup_Permutation; [apply NoDup_map_to_list| |].
    - apply (NoDup_fmap_1 fst). rewrite fmap_imap.
      rewrite (imap_ext _ (fun i _ => N.of_nat (S i))) by done.
      rewrite (imap_seq_0 evs (fun i => N.of_nat (S i))).
      apply NoDup_fmap_2_strong; [intros; lia|apply NoDup_seq].
    - assert (forall i te, evs !! i = Some te -> f !! N.of_nat (S i) = Some (entry i te)) as Hf.
      { intros i te Hi. destruct (decide (i < 9)) as [Hlt|Hge].
        - by apply (inserted_first _ _ Hin).
        - pose proof (lookup_lt_Some _ _ _ Hi) as Hlt.
          assert (last evs = Some te) as Hlast.
          { rewrite last_lookup. by replace (Nat.pred (length evs)) with i by lia. }
          pose proof (inserted_last _ _ Hin te Hlast) as Hf. cbv zeta in Hf.
          by replace (Nat.min (length evs) 10) with (S i) in Hf by lia. }
      intros [k e]. rewrite elem_of_map_to_list, list_elem_of_lookup. split.
      + intros Hk. assert (is_Some (f !! k)) as Hs by eauto.
        apply (inserted_keys _ _ Hin) in Hs.
        assert (exists i, k = N.of_nat (S i) /\ i < length evs) as (i & -> & Hlt).
        { exists (N.to_nat k - 1). lia. }
        destruct (lookup_lt_is_Some_2 evs i Hlt) as [te Hte]. exists i.
        rewrite list_lookup_imap, Hte. simpl. rewrite (Hf _ _ Hte) in Hk. congruence.
      + intros (i & Hi). rewrite list_lookup_imap in Hi.
        destruct (evs !! i) as [te|] eqn:E; [|done]. injection Hi as <- <-. by apply Hf. }
  rewrite fmap_imap. done.
Qed.

Lemma inserted_hashes evs f :
  inserted evs f -> length evs <= 10 ->
  he_DataHash <$> (map_to_list f).*2 ≡ₚ insert_hash <$> evs.
Proof.
  intros Hin H10. rewrite (inserted_entries evs f Hin H10), fmap_imap.
  by rewrite <-(imap_const insert_hash).
Qed.

Lemma inserted_ids evs f :
  inserted evs f -> length evs <= 10 ->
  (fun e => extractIDFromRecordID (he_RecordID e)) <$> (map_to_list f).*2 ≡ₚ insert_id <$> evs.
Proof.
  intros Hin H10. rewrite (inserted_entries evs f Hin H10), fmap_imap.
  by rewrite <-(imap_const insert_id).
Qed.

(** At least the surplus of rows is reported. *)
Lemma exact_differences_size (e a : gmap string string) l :
  exact_differences e a l -> size a <= size e + length l.
Proof.
  intros [Hnd Hl]. rewrite <-!(size_dom (D := gset string)).
  transitivity (size (dom e ∪ list_to_set (RecordID <$> l) : gset string)).
  - apply subseteq_size. intros k [x Hx]%elem_of_dom. rewrite elem_of_union, elem_of_dom.
    destruct (e !! k) as [y|] eqn:Ee; [by left|right]. apply elem_of_list_to_set.
    apply list_elem_of_fmap. exists (missing_in_expected k x). split; [done|].
    apply Hl. unfold difference_at. simpl. by rewrite Ee, Hx.
  - rewrite size_union_alt.
    assert (size (list_to_set (RecordID <$> l) ∖ dom e : gset string)
      <= size (list_to_set (RecordID <$> l) : gset string)) as H by (apply subseteq_size; set_solver).
    rewrite size_list_to_set, length_fmap in H by done. lia.
Qed.

Lemma pg_map_size rs : NoDup (row_id <$> rs) -> size (pg_map rs) = length rs.
Proof.
  intros Hnd. unfold pg_map. assert (forall m : gmap string string,
    (forall r, r ∈ rs -> m !! row_id r = None) ->
    size (foldl (fun m r => <[row_id r := row_hash r]> m) m rs) = size m + length rs) as H.
  { induction rs as [|r rs IH]; intros m Hm; [simpl; lia|].
    rewrite fmap_cons in Hnd. apply NoDup_cons in Hnd as [Hr Hnd]. cbn [foldl length].
    rewrite IH; [|done|].
    - rewrite map_size_insert_None by (apply Hm; set_solver). lia.
    - intros r' Hr'. rewrite lookup_insert_ne; [apply Hm; set_solver|].
      intros E. apply Hr. rewrite E. by apply list_elem_of_fmap_2. }
  rewrite H; [by rewrite map_size_empty|]. intros r _. apply lookup_empty.
Qed.
End pipeline.

(** C30: after eleven inserts every honest table looks tampered with.  Start
    from a store without entries and checkpoints, let the handler process
    any eleven or more inserts, and let PostgreSQL return exactly that many
    rows with distinct ids, untouched: [VerifyTable] reports tampering,
    because only ten entries were kept. *)
Theorem VerifyTable_false_alarm {RO : RangeOrder} {HF : HashFunction} {B : Bolt}
    {BL : BoltLaws B} {R : RaftLib} (g : option Hasher) (now : Time) (io : option error)
    (pg1 pg2 : PgAnswer) (h : tableConfigs) (t : string) (evs : list (Time * ChangeEvent))
    (s : Storage B) (node : option (Node (R := R))) (rs : list row) :
  is_Some (h !! t) -> Forall (insert_ok t) evs -> 11 <= length evs ->
  ready storage_buckets s -> table_rep (A := HashEntry) (chain s) t ∅ ->
  table_rep (A := MerkleCheckpoint) (checkpoints s) t ∅ ->
  answers pg1 rs -> answers pg2 rs ->
  length rs = length evs -> NoDup (row_id <$> rs) ->
  exists n, (VerifyTable g now io pg1 pg2
       {| vs_storage := insert_all h evs s; vs_node := node |} t).1 = Err (tampering_error n)
    /\ length rs - 10 <= n.
Proof.
  intros Hc Hok H11 Hs Hr Hcp H1 H2 Hlen Hnd.
  destruct (insert_all_rep h t evs s Hc Hok Hs Hr) as (f & Hs' & Hr' & Hin).
  destruct (insert_all_checkpoints h evs s Hs) as [Hcp' _].
  destruct (GetAllHashEntries_rep _ t f Hs' Hr') as (el & Hall & Hp & _).
  assert (length el.*2 = 10) as Hten.
  { rewrite length_fmap, Hp, length_map_to_list, (inserted_size evs f Hin). lia. }
  destruct (VerifyTable_leaves g now io pg1 pg2
    {| vs_storage := insert_all h evs s; vs_node := node |} t el.*2 rs rs Hs' Hall H1 H2)
    as (tree & root2 & l & Hx & _ & ->).
  unfold expected_leaves. simpl vs_storage. rewrite usable_checkpoint_none by (rewrite ?Hcp'; done).
  rewrite !length_fmap in *.
  pose proof (exact_differences_size _ _ l Hx) as Hsize.
  rewrite (pg_map_size rs Hnd) in Hsize. pose proof (map_fold_size_le el.*2 ∅) as Hb.
  rewrite map_size_empty, length_fmap in Hb. fold (bolt_map el.*2) in Hb.
  rewrite decide_False; [rewrite decide_False|].
  - exists (length l). split; [done|lia].
  - intros E. rewrite E, (pg_map_size rs Hnd) in Hb. lia.
  - intros [E|[_ E]]; [|lia]. apply (f_equal length) in E. rewrite !length_fmap in E. simpl in E. lia.
Qed.

Theorem VerifyTable_false_alarm_witness :
  exists n, (VerifyTable (RO := canonical_order) (HF := length_hash_function) (R := list_raft)
       None noon None (pg_of twelve_rows) (pg_of twelve_rows)
       {| vs_storage := insert_all (RO := canonical_order) (HF := length_hash_function)
                          users_config twelve_inserts empty_storage; vs_node := None |}
       "users").1 = Err (tampering_error n)
    /\ length twelve_rows - 10 <= n.
Proof.
  apply (VerifyTable_false_alarm (RO := canonical_order) (HF := length_hash_function)
    (B := map_bolt) (R := list_raft) None noon None (pg_of twelve_rows) (pg_of twelve_rows)
    users_config "users" twelve_inserts empty_storage None twelve_rows).
  - by_decide.
  - by_decide.
  - by_decide.
  - apply empty_store_chain.
  - apply empty_store_chain.
  - apply table_rep_empty.
  - by split_and!.
  - by split_and!.
  - reflexivity.
  - by_decide.
Defined.

(** ** The exact verdict *)

(** The values of a map that is filled under distinct keys. *)
Lemma foldl_insert_values {X} (id h : X -> string) (l : list X) :
  NoDup (id <$> l) ->
  (map_to_list (foldl (fun m x => <[id x := h x]> m) (∅ : gmap string string) l)).*2 ≡ₚ h <$> l.
Proof.
  intros Hnd.
  assert (foldl (fun m x => <[id x := h x]> m) (∅ : gmap string string) l
    = insert_pairs ((fun x => (id x, h x)) <$> l) ∅) as ->.
  { unfold insert_pairs. generalize (∅ : gmap string string).
    induction l as [|x l IH]; intros m; [done|]. apply IH. by apply NoDup_cons in Hnd as [_ ?]. }
  assert (NoDup ((fun x => (id x, h x)) <$> l).*1) as Hnd' by by rewrite <-list_fmap_compose.
  rewrite insert_pairs_union, (right_id_L ∅ (∪)) by done.
  rewrite map_to_list_to_map by done. by rewrite <-list_fmap_compose.
Qed.

(** On a store that holds the entries of one to ten inserts of a table and no
    checkpoint of it. *)
Lemma VerifyTable_exact_inserted {RO : RangeOrder} {HF : HashFunction} {B : Bolt}
    {BL : BoltLaws B} {R : RaftLib} (g : option Hasher) (now : Time) (io : option error)
    (pg1 pg2 : PgAnswer) (t : string) (evs : list (Time * ChangeEvent)) (f : gmap N HashEntry)
    (st : VState B R) (rs : list row) :
  inserted evs f -> evs <> [] -> length evs <= 10 ->
  ready storage_buckets (vs_storage st) -> table_rep (chain (vs_storage st)) t f ->
  table_rep (A := MerkleCheckpoint) (checkpoints (vs_storage st)) t ∅ ->
  answers pg1 rs -> answers pg2 rs ->
  (row_hash <$> rs ≡ₚ insert_hash <$> evs ->
     exists tree, VerifyTable g now io pg1 pg2 st t
       = createCheckpointWithTree g now io st t (root_of (row_hash <$> rs)) (length rs) tree)
  /\ (NoDup (insert_id <$> evs) -> NoDup (row_id <$> rs) ->
       collision_free (merkle_queries (sort_strings (row_hash <$> rs))
                       ++ merkle_queries (sort_strings (insert_hash <$> evs))) ->
       ~ row_hash <$> rs ≡ₚ insert_hash <$> evs ->
       exists n, 0 < n /\ VerifyTable g now io pg1 pg2 st t = (Err (tampering_error n), st)).
Proof.
  intros Hin Hne H10 Hs Hr Hcp H1 H2.
  destruct (GetAllHashEntries_rep _ t f Hs Hr) as (el & Hall & Hp & _).
  destruct (VerifyTable_leaves g now io pg1 pg2 st t el.*2 rs rs Hs Hall H1 H2)
    as (tree & root2 & l & Hx & _ & ->).
  unfold expected_leaves. rewrite usable_checkpoint_none by done.
  assert (he_DataHash <$> el.*2 ≡ₚ insert_hash <$> evs) as HE by (rewrite Hp; by apply inserted_hashes).
  split.
  { intros Hrows. exists tree. rewrite decide_True; [done|]. right.
    rewrite <-Hrows in HE. split; [by apply root_of_proper|by apply Permutation_length]. }
  intros Hid Hnd Hcf Hrows.
  assert (bolt_map el.*2 <> pg_map rs) as Hmap.
  { intros E. apply Hrows. rewrite <-(foldl_insert_values row_id row_hash rs Hnd), <-HE.
    fold (pg_map rs). rewrite <-E. apply (foldl_insert_values
      (fun e => extractIDFromRecordID (he_RecordID e)) he_DataHash el.*2).
    by rewrite Hp, (inserted_ids evs f Hin H10). }
  rewrite decide_False; [rewrite decide_False by done|].
  - exists (length l). split; [|done]. destruct l; [|simpl; lia].
    by apply exact_differences_nil in Hx.
  - intros [E|[Hroot Hlen]].
    + rewrite E in HE. apply Permutation_nil_l in HE. by destruct evs.
    + apply Hrows. rewrite <-HE. apply root_of_inj; try done.
      * apply row_hashes.
      * unfold hashes. rewrite HE. apply Forall_fmap, Forall_true. intros te. apply length_hash.
      * by rewrite HE.
Qed.

(** C3: up to ten inserts the verdict is exact.  Start from a store without
    entries and checkpoints, let the handler process one to ten inserts with
    distinct ids, and let PostgreSQL return rows with distinct ids.  If
    hashing does not collide on the two trees, [VerifyTable] makes the
    checkpoint of the rows when they hash, in any order, to the hashes of the
    inserted rows, and otherwise (a row was modified, deleted, added or
    replaced) returns a tampering error with at least one record and leaves
    the state alone. *)
Theorem VerifyTable_exact_after_inserts {RO : RangeOrder} {HF : HashFunction} {B : Bolt}
    {BL : BoltLaws B} {R : RaftLib} (g : option Hasher) (now : Time) (io : option error)
    (pg1 pg2 : PgAnswer) (h : tableConfigs) (t : string) (evs : list (Time * ChangeEvent))
    (s : Storage B) (node : option (Node (R := R))) (rs : list row) :
  is_Some (h !! t) -> Forall (insert_ok t) evs -> evs <> [] -> length evs <= 10 ->
  ready storage_buckets s -> table_rep (A := HashEntry) (chain s) t ∅ ->
  table_rep (A := MerkleCheckpoint) (checkpoints s) t ∅ ->
  answers pg1 rs -> answers pg2 rs ->
  NoDup (insert_id <$> evs) -> NoDup (row_id <$> rs) ->
  collision_free (merkle_queries (sort_strings (row_hash <$> rs))
                  ++ merkle_queries (sort_strings (insert_hash <$> evs))) ->
  let st := {| vs_storage := insert_all h evs s; vs_node := node |} in
  (row_hash <$> rs ≡ₚ insert_hash <$> evs ->
     exists tree, VerifyTable g now io pg1 pg2 st t
       = createCheckpointWithTree g now io st t (root_of (row_hash <$> rs)) (length rs) tree)
  /\ (~ row_hash <$> rs ≡ₚ insert_hash <$> evs ->
       exists n, 0 < n /\ VerifyTable g now io pg1 pg2 st t = (Err (tampering_error n), st)).
Proof.
  intros Hc Hok Hne H10 Hs Hr Hcp H1 H2 Hid Hnd Hcf st.
  destruct (insert_all_rep h t evs s Hc Hok Hs Hr) as (f & Hs' & Hr' & Hin).
  destruct (insert_all_checkpoints h evs s Hs) as [Hcp' _]. rewrite <-Hcp' in Hcp.
  destruct (VerifyTable_exact_inserted g now io pg1 pg2 t evs f st rs Hin Hne H10 Hs' Hr' Hcp H1 H2)
    as [Ha Hb]. split; [exact Ha|by apply Hb].
Qed.

(** Bob's row was renamed behind the replication stream. *)
Definition renamed_rows : list row := [user_row 1 "someone"; user_row 2 "Mallory"; user_row 3 "someone"].

Theorem VerifyTable_exact_after_inserts_witness :
  let st := {| vs_storage := insert_all (RO := canonical_order) (HF := sha256_function)
                 users_config three_inserts empty_storage; vs_node := None |} in
  exists n, 0 < n /\ VerifyTable (RO := canonical_order) (HF := sha256_function) (R := list_raft)
      None noon None (pg_of renamed_rows) (pg_of renamed_rows) st "users"
    = (Err (tampering_error n), st).
Proof.
  apply (VerifyTable_exact_after_inserts (RO := canonical_order) (HF := sha256_function)
    (B := map_bolt) (R := list_raft) None noon None (pg_of renamed_rows) (pg_of renamed_rows)
    users_config "users" three_inserts empty_storage None renamed_rows).
  - by_decide.
  - by_decide.
  - by_decide.
  - by_decide.
  - apply empty_store_chain.
  - apply empty_store_chain.
  - apply table_rep_empty.
  - by split_and!.
  - by split_and!.
  - by_decide.
  - by_decide.
  - by_decide.
  - by_decide.
Defined.
