(* ===== verification/Process.v ===== *)
(** * One process: the stream and the verifications, interleaved

    In a process without Raft two kinds of goroutine share the store: the
    receive loop, which handles one event after the other, and the
    verifications, of which any number may run.  A step is one action of one
    of them.  Here: verifications never change what the stream records, and
    an insert that is handled in the middle of a verification makes it save
    a checkpoint that claims a row its leaves do not have. *)

From Stdlib Require Import NArith ZArith Lia.
From S2P Require Import Prelude Bytes Json JsonFacts Codec Sha256 Hasher HashTree DataHash Merkle.
From S2P Require Import MerkleFacts MerkleCompare Bolt Keys Storage TableView StorageFacts.
From S2P Require Import BoltStore AnyData Fsm Node FsmFacts Replication Handler HandlerFacts.
From S2P Require Import Verifier VerifierFacts Threads Submitted Buckets ThreadFacts VerdictFacts.
From S2P Require Import RecordIds Verdict Pipeline.

(** ** Two runs side by side *)

Section sim.
Context {St : Type} (same : St -> St -> Prop).

Inductive sim {A} (Q : A -> A -> Prop) : prog St A -> prog St A -> Prop :=
  | sim_ret a a' : Q a a' -> sim Q (Ret a) (Ret a')
  | sim_act f g :
      (forall s s', same s s' -> same (f s).2 (g s').2) ->
      (forall s s', same s s' -> sim Q (f s).1 (g s').1) ->
      sim Q (Act f) (Act g).

Lemma sim_act_inv {A} (Q : A -> A -> Prop) f g s s' :
  sim Q (Act f) (Act g) -> same s s' -> same (f s).2 (g s').2 /\ sim Q (f s).1 (g s').1.
Proof. inversion 1; auto. Qed.

Lemma sim_run {A} (Q : A -> A -> Prop) p p' s s' :
  sim Q p p' -> same s s' -> Q (run p s).1 (run p' s').1 /\ same (run p s).2 (run p' s').2.
Proof.
  intros Hp. revert s s'. induction Hp as [a a' Ha|f g Hsame Hsim IH]; intros s s' Hs; [done|].
  specialize (Hsame s s' Hs). specialize (IH s s' Hs). simpl.
  destruct (f s) as [p1 s1], (g s') as [p2 s2]. by apply IH.
Qed.

Lemma sim_bind {A A'} (Q : A -> A -> Prop) (Q' : A' -> A' -> Prop) p p' k k' :
  sim Q p p' -> (forall a a', Q a a' -> sim Q' (k a) (k' a')) -> sim Q' (p ≫= k) (p' ≫= k').
Proof.
  intros Hp Hk. induction Hp as [a a' Ha|f g Hsame Hsim IH]; [by apply Hk|].
  apply sim_act; intros s s' Hs; specialize (Hsame s s' Hs); specialize (IH s s' Hs);
    by destruct (f s), (g s').
Qed.

Lemma sim_of_act {A} (Q : A -> A -> Prop) (f : St -> A * St) :
  (forall s s', same s s' -> Q (f s).1 (f s').1 /\ same (f s).2 (f s').2) -> sim Q (act f) (act f).
Proof.
  intros Hf. apply sim_act; intros s s' Hs; destruct (Hf s s' Hs);
    destruct (f s), (f s'); [done|by apply sim_ret].
Qed.
End sim.

(** ** Handling depends on the hash entries alone *)

Section stream.
Context `{RO : RangeOrder} `{HF : HashFunction} {B : Bolt} {BL : BoltLaws B} `{R : RaftLib}.
Implicit Types (s : Storage B) (st : VState B R).

(** The same result, or an error both times: bbolt words the refusal of a
    pair. *)
Definition agree (r r' : result unit) : Prop :=
  r = r' \/ exists e e', r = Err e /\ r' = Err e'.

#[export] Instance agree_equiv : Equivalence agree.
Proof.
  split.
  - by left.
  - intros r r' [->|(e & e' & -> & ->)]; [by left|right]. eauto.
  - intros r r' r'' [->|(e & e' & -> & ->)]; [done|].
    intros [<-|(e1 & e2 & _ & ->)]; right; eauto.
Qed.

Definition same_entries st st' : Prop :=
  ready storage_buckets (vs_storage st) /\ ready storage_buckets (vs_storage st')
  /\ chain (vs_storage st) = chain (vs_storage st').

Lemma next_sequence_same s s' t :
  ready storage_buckets s -> ready storage_buckets s' -> chain s = chain s' ->
  next_sequence s t = next_sequence s' t.
Proof.
  intros Hs Hs' Hc. unfold next_sequence, GetLatestHashEntry.
  rewrite (View_ready _ _ _ Hs), (View_ready _ _ _ Hs').
  destruct (tx_bucket_ready HashChainBucket _ _ Hs ltac:(set_solver)) as (b & -> & Hb).
  destruct (tx_bucket_ready HashChainBucket _ _ Hs' ltac:(set_solver)) as (b' & -> & Hb').
  fold (chain s) in Hb. fold (chain s') in Hb'. simpl.
  by rewrite !prefix_scan_contents, Hb, Hb', Hc.
Qed.

Lemma agree_Ok (P : Prop) (r r' : result unit) :
  is_Panic r = false -> is_Panic r' = false -> (r = Ok tt <-> P) -> (r' = Ok tt <-> P) ->
  agree r r'.
Proof.
  intros Hp Hp' H H'. destruct r as [[]|err|w], r' as [[]|err'|w']; try done; [| |right; by eauto].
  - by assert (Err err' = Ok tt) by by apply H', H.
  - by assert (Err err = Ok tt) by by apply H, H'.
Qed.

Lemma SaveHashEntry_same io e s s' :
  ready storage_buckets s -> ready storage_buckets s' -> chain s = chain s' ->
  agree (SaveHashEntry io e s).1 (SaveHashEntry io e s').1
  /\ ready storage_buckets (SaveHashEntry io e s).2
  /\ ready storage_buckets (SaveHashEntry io e s').2
  /\ chain (SaveHashEntry io e s).2 = chain (SaveHashEntry io e s').2.
Proof.
  intros Hs Hs' Hc. pose proof (SaveHashEntry_write io e s Hs) as H.
  pose proof (SaveHashEntry_write io e s' Hs') as H'.
  destruct (SaveHashEntry io e s) as [r s1], (SaveHashEntry io e s') as [r' s1'].
  destruct H as (Hr & Hp & Hch & _ & Hok & _), H' as (Hr' & Hp' & Hch' & _ & Hok' & _).
  split_and!; [by eapply agree_Ok|done|done|simpl; congruence].
Qed.

(** ** The stream *)

(** The receive loop: the events that arrive, with the clock and the outcome
    of the commit of each.  The loop goes on after an error; a panic ends
    it. *)
Definition arrivals : Type := list (Time * option error * ChangeEvent).

Fixpoint stream_prog (h : tableConfigs) (evs : arrivals)
    : prog (VState B R) (list (result unit)) :=
  match evs with
  | [] => Ret []
  | (now, io, event) :: rest =>
      r ← HandleChange_prog h now io event;
      if is_Panic r then Ret [r]
      else
        rs ← stream_prog h rest;
        Ret (r :: rs)
  end.

(** The handler called on one event after the other. *)
Fixpoint handle_all (h : tableConfigs) (evs : arrivals) s : list (result unit) * Storage B :=
  match evs with
  | [] => ([], s)
  | (now, io, event) :: rest =>
      let '(r, s1) := HandleChange h now io event s in
      if is_Panic r then ([r], s1)
      else
        let '(rs, s2) := handle_all h rest s1 in
        (r :: rs, s2)
  end.

Lemma run_stream h evs st :
  run (stream_prog h evs) st
  = let '(rs, s') := handle_all h evs (vs_storage st) in
    (rs, {| vs_storage := s'; vs_node := vs_node st |}).
Proof.
  revert st. induction evs as [|[[now io] event] evs IH]; intros st; [by destruct st|].
  cbn [stream_prog handle_all]. rewrite run_bind, run_HandleChange.
  destruct (HandleChange h now io event (vs_storage st)) as [r s1].
  destruct (is_Panic r); [done|]. rewrite run_bind, IH. simpl. by destruct (handle_all h evs s1).
Qed.

Lemma sim_HandleChange h now io event :
  sim same_entries agree (HandleChange_prog h now io event) (HandleChange_prog h now io event).
Proof.
  unfold HandleChange_prog. destruct (h !! ev_TableName event); [|by apply sim_ret].
  destruct (is_update_or_delete event); [by apply sim_ret|].
  apply (sim_bind _ eq).
  - apply sim_of_act. intros st st' (Hs & Hs' & Hc). split; [|done].
    by apply next_sequence_same.
  - intros x _ <-. destruct x as [seq|e|w]; [|by apply sim_ret..].
    apply sim_of_act. intros st st' (Hs & Hs' & Hc).
    destruct (SaveHashEntry_same io (event_entry now seq event) _ _ Hs Hs' Hc)
      as (Ha & H1 & H2 & H3).
    destruct (SaveHashEntry _ _ (vs_storage st)), (SaveHashEntry _ _ (vs_storage st')).
    split; [done|by split_and!].
Qed.

Lemma sim_stream h evs :
  sim same_entries (Forall2 agree) (stream_prog h evs) (stream_prog h evs).
Proof.
  induction evs as [|[[now io] event] evs IH]; [by apply sim_ret; constructor|].
  cbn [stream_prog]. apply (sim_bind _ agree); [apply sim_HandleChange|]. intros r r' Hr.
  assert (is_Panic r = is_Panic r') as -> by by destruct Hr as [->|(e & e' & -> & ->)].
  destruct (is_Panic r'); [apply sim_ret; by constructor|].
  apply (sim_bind _ (Forall2 agree)); [done|]. intros rs rs' Hrs. apply sim_ret. by constructor.
Qed.

(** ** A process *)

Record Process := {
  ps_state : VState B R;
  ps_stream : prog (VState B R) (list (result unit));
  ps_verifiers : list (prog (VState B R) (result unit))
}.

(** A step, where verifications of the tables [starts] may start. *)
Inductive proc_step (starts : string -> Prop) (p : Process) : Process -> Prop :=
  | proc_stream f q st' :
      ps_stream p = Act f -> f (ps_state p) = (q, st') ->
      proc_step starts p {| ps_state := st'; ps_stream := q; ps_verifiers := ps_verifiers p |}
  | proc_verify g now io pg1 pg2 t :
      starts t ->
      proc_step starts p {| ps_state := ps_state p; ps_stream := ps_stream p;
        ps_verifiers := ps_verifiers p ++ [VerifyTable_prog g now io pg1 pg2 t] |}
  | proc_action k f q st' :
      ps_verifiers p !! k = Some (Act f) -> f (ps_state p) = (q, st') ->
      proc_step starts p {| ps_state := st'; ps_stream := ps_stream p;
        ps_verifiers := <[k := q]> (ps_verifiers p) |}.

Definition started (h : tableConfigs) (evs : arrivals) st : Process :=
  {| ps_state := st; ps_stream := stream_prog h evs; ps_verifiers := [] |}.

(** A step by schedule: of the stream, or of the [k]-th verification. *)
Definition act_proc (k : option nat) (p : Process) : option Process :=
  match k with
  | None =>
      match ps_stream p with
      | Act f => let '(q, st') := f (ps_state p) in
          Some {| ps_state := st'; ps_stream := q; ps_verifiers := ps_verifiers p |}
      | Ret _ => None
      end
  | Some k =>
      match ps_verifiers p !! k with
      | Some (Act f) => let '(q, st') := f (ps_state p) in
          Some {| ps_state := st'; ps_stream := ps_stream p;
                  ps_verifiers := <[k := q]> (ps_verifiers p) |}
      | _ => None
      end
  end.

Definition schedule (ks : list (option nat)) (p : Process) : option Process :=
  foldl (fun op k => p ← op; act_proc k p) (Some p) ks.

Lemma act_proc_step starts k p p' : act_proc k p = Some p' -> proc_step starts p p'.
Proof.
  destruct k as [k|]; simpl.
  - destruct (ps_verifiers p !! k) as [[r|f]|] eqn:Hk; [done| |done].
    destruct (f (ps_state p)) as [q st'] eqn:Hf. intros [= <-]. by eapply proc_action.
  - destruct (ps_stream p) as [r|f] eqn:Hs; [done|].
    destruct (f (ps_state p)) as [q st'] eqn:Hf. intros [= <-]. by eapply proc_stream.
Qed.

Lemma schedule_steps starts ks p p' : schedule ks p = Some p' -> rtc (proc_step starts) p p'.
Proof.
  unfold schedule. revert p'. induction ks as [|k ks IH] using rev_ind; intros p'; [by intros [= <-]|].
  rewrite foldl_app. simpl. destruct (foldl _ _ _) as [p1|]; [|done]. simpl. intros Hk.
  eapply rtc_r; [by apply IH|by eapply act_proc_step].
Qed.

(** What a verification leaves alone. *)
Definition local_contract : contract B R unit := {|
  extends _ _ := True;
  meets _ st := ready storage_buckets (vs_storage st);
  effect _ st st' := same_entries st st';
  may _ _ := True;
  may_save _ _ := True
|}.

Lemma local_laws : contract_laws local_contract.
Proof.
  split; simpl; unfold same_entries; try done.
  intros _ st io c Hs _. pose proof (SaveMerkleCheckpoint_write io c (vs_storage st) Hs) as Hw.
  destruct (SaveMerkleCheckpoint io c (vs_storage st)) as [r s'].
  by destruct Hw as (Hs' & _ & _ & Hch & _).
Qed.

#[export] Instance local_extends : PreOrder (extends local_contract).
Proof. by split. Qed.

(** The stream goes on to the results [rs] and the hash entries [b]. *)
Record proc_ok (rs : list (result unit)) (b : gmap string string) (p : Process) : Prop := {
  proc_ready : ready storage_buckets (vs_storage (ps_state p));
  proc_sim : sim same_entries (Forall2 agree) (ps_stream p) (ps_stream p);
  proc_results : Forall2 agree (run (ps_stream p) (ps_state p)).1 rs;
  proc_entries : chain (vs_storage (run (ps_stream p) (ps_state p)).2) = b;
  proc_verifiers : Forall (fun q => always local_contract q tt) (ps_verifiers p)
}.

Lemma same_entries_refl st : ready storage_buckets (vs_storage st) -> same_entries st st.
Proof. intros Hs. by split_and!. Qed.

Lemma proc_step_ok starts rs b p p' : proc_ok rs b p -> proc_step starts p p' -> proc_ok rs b p'.
Proof.
  intros [Hr Hsim Hrs Hb Hv] Hstep.
  destruct Hstep as [f q st' Hf Hq|g now io pg1 pg2 t _|k f q st' Hk Hq].
  - rewrite Hf in *. cbn [run] in Hrs, Hb.
    destruct (sim_act_inv _ _ _ _ _ _ Hsim (same_entries_refl _ Hr)) as [Hsame Hnext].
    rewrite Hq in *. split; cbn [ps_state ps_stream ps_verifiers]; try done. apply Hsame.
  - split; simpl; try done. apply Forall_app. split; [done|]. constructor; [|done].
    apply always_VerifyTable; [apply _|apply local_laws|done].
  - pose proof (Forall_lookup_1 _ _ _ _ Hv Hk tt (ps_state p) I Hr) as Hact. rewrite Hq in Hact.
    destruct Hact as (Hsame & Hq'). destruct (sim_run _ _ _ _ _ _ Hsim Hsame) as (Ha & _ & _ & Hc).
    split; simpl; [apply Hsame|done| | |by apply Forall_insert].
    + rewrite <-Hrs. symmetry. exact Ha.
    + by rewrite <-Hc.
Qed.

Lemma rtc_proc_ok starts rs b p p' :
  rtc (proc_step starts) p p' -> proc_ok rs b p -> proc_ok rs b p'.
Proof. induction 1; eauto using proc_step_ok. Qed.

Lemma started_ok h evs st :
  ready storage_buckets (vs_storage st) ->
  let '(rs, s') := handle_all h evs (vs_storage st) in proc_ok rs (chain s') (started h evs st).
Proof.
  intros Hs. pose proof (run_stream h evs st) as E.
  destruct (handle_all h evs (vs_storage st)) as [rs s'].
  split; cbn [started ps_state ps_stream ps_verifiers]; rewrite ?E; try done. apply sim_stream.
Qed.

(** The stream can run to its end. *)
Lemma stream_finishes starts p :
  exists p', rtc (proc_step starts) p p' /\ ps_verifiers p' = ps_verifiers p
    /\ ps_stream p' = Ret (run (ps_stream p) (ps_state p)).1.
Proof.
  destruct p as [st q vs]. revert st. induction q as [rs|f IH] using prog_induction; intros st.
  - by eexists.
  - cbn [ps_stream ps_state]. specialize (IH st). destruct (f st) as [q st'] eqn:Hf.
    destruct (IH st') as (p' & Hrun & Hvs & Hq). exists p'. split; [|split; [exact Hvs|]].
    + eapply rtc_l; [|exact Hrun].
      exact (proc_stream starts {| ps_state := st; ps_stream := Act f; ps_verifiers := vs |}
        f q st' eq_refl Hf).
    + cbn [run]. by rewrite Hf.
Qed.
End stream.

(** ** A verification that is interrupted *)

(** The first actions of a call. *)
Fixpoint advance {St A} (n : nat) (p : prog St A) (s : St) : prog St A * St :=
  match n, p with
  | S n', Act f => let '(p', s') := f s in advance n' p' s'
  | _, _ => (p, s)
  end.

(** The tree of the rows that [calculateCurrentMerkleRootFromPG] returns. *)
Definition pg_tree `{RO : RangeOrder} `{HF : HashFunction} (pg : PgAnswer)
    : option MerkleTreeBuilder :=
  match calculateCurrentMerkleRootFromPG pg with
  | Ok (_, _, tree) => tree
  | _ => None
  end.

Section race.
Context `{RO : RangeOrder} `{HF : HashFunction} {B : Bolt} {BL : BoltLaws B} `{R : RaftLib}.
Implicit Types (s : Storage B) (st : VState B R).

(** Two actions read the latest checkpoint and, without one, the entries. *)
Lemma advance_scan g now io pg1 pg2 t st root count tree :
  calculateCurrentMerkleRootFromPG pg1 = Ok (root, count, tree) ->
  leaf_checkpoint (vs_storage st) t = Ok None ->
  forall l, full_scan (vs_storage st) t = Ok (root, l) -> l <> 0 -> count = l ->
  advance 2 (VerifyTable_prog g now io pg1 pg2 t) st
  = (createCheckpointWithTree_prog g now io t root count tree, st).
Proof.
  intros Hpg Hc l Hf Hl ->. unfold VerifyTable_prog. rewrite Hpg. cbn [wrap_err].
  unfold calculateMerkleRootFromBoltDB_prog, reading. cbn -[createCheckpointWithTree_prog
    performDetailedVerification_prog leaf_checkpoint full_scan decide].
  rewrite Hc.
  cbn -[createCheckpointWithTree_prog performDetailedVerification_prog full_scan decide].
  rewrite Hf. cbn -[createCheckpointWithTree_prog performDetailedVerification_prog decide].
  rewrite decide_False by done. by rewrite decide_True.
Qed.

Lemma GetLeafMap_map (b : MerkleTreeBuilder) : GetLeafMap b = leafDataMap b.
Proof.
  unfold GetLeafMap.
  by rewrite foldl_insert_pairs, list_to_map_range_map, (right_id_L ∅ (∪))
    by apply NoDup_fst_range_map.
Qed.

(** A node without Raft saves its first checkpoint of a table. *)
Lemma first_checkpoint g now st t root count tree c :
  vs_node st = None -> ready storage_buckets (vs_storage st) ->
  table_rep (A := MerkleCheckpoint) (checkpoints (vs_storage st)) t ∅ ->
  new_checkpoint g now (vs_storage st) t root count tree = Ok c -> storable_checkpoint c ->
  0 < size (mc_LeafMap c) ->
  exists s', createCheckpointWithTree g now None st t root count tree
      = (Ok tt, {| vs_storage := s'; vs_node := None |})
    /\ ready storage_buckets s' /\ chain s' = chain (vs_storage st)
    /\ usable_checkpoint s' t = Some c.
Proof.
  intros Hn Hs Hr Hc Hst Hsz. pose proof (new_checkpoint_table _ _ _ _ _ _ _ _ Hc) as Ht.
  unfold createCheckpointWithTree. rewrite Hc, Hn.
  pose proof (SaveMerkleCheckpoint_saves None c (vs_storage st) Hs Hst) as H.
  destruct (SaveMerkleCheckpoint None c (vs_storage st)) as [r s'].
  destruct H as [[Hs' H] Hch]. destruct r as [[]|e|w]; [|by destruct H as (_ & [? ?])|done].
  destruct H as (_ & Hrep & _). rewrite Ht in Hrep. specialize (Hrep _ Hr).
  exists s'. split_and!; [done..|]. unfold usable_checkpoint.
  pose proof (GetLatestMerkleCheckpoint_rep s' t _ Hs' Hrep) as Hl.
  destruct (GetLatestMerkleCheckpoint s' t) as [c'|e|w]; [|destruct Hl as [Hl _]|done].
  - destruct Hl as (n & [Hl _]). apply lookup_insert_Some in Hl as [[_ <-]|[_ Hl]];
      [by rewrite decide_True|by rewrite lookup_empty in Hl].
  - by apply insert_non_empty in Hl.
Qed.

(** Entries that the checkpoint claims are not looked at again. *)
Lemma updated_leaves_claimed c entries :
  Forall (fun e => he_SequenceNum e <= mc_SequenceNum c)%N entries ->
  updated_leaves c entries = mc_LeafMap c.
Proof.
  unfold updated_leaves. generalize (mc_LeafMap c).
  induction entries as [|e entries IH]; intros m He; [done|].
  apply Forall_cons in He as [He Hes]. cbn [foldl]. rewrite decide_False by lia. by apply IH.
Qed.
(** The scan of a store with the entries of the rows and no checkpoint. *)
Lemma advance_matching g now pg1 pg2 t evs f st rs :
  inserted evs f -> evs <> [] -> length evs <= 10 ->
  ready storage_buckets (vs_storage st) -> table_rep (chain (vs_storage st)) t f ->
  table_rep (A := MerkleCheckpoint) (checkpoints (vs_storage st)) t ∅ ->
  answers pg1 rs -> row_hash <$> rs ≡ₚ insert_hash <$> evs ->
  advance 2 (VerifyTable_prog g now None pg1 pg2 t) st
  = (createCheckpointWithTree_prog g now None t (root_of (row_hash <$> rs)) (length rs)
       (pg_tree pg1), st).
Proof.
  intros Hin Hne H10 Hs Hr Hcp H1 Hrows.
  destruct (GetAllHashEntries_rep _ t f Hs Hr) as (el & Hall & Hp & _).
  destruct (pg_root pg1 rs H1) as (tree & Hpg & _). unfold pg_tree. rewrite Hpg.
  assert (he_DataHash <$> el.*2 ≡ₚ row_hash <$> rs) as HE.
  { rewrite Hp, Hrows. by apply inserted_hashes. }
  pose proof (Permutation_length Hrows) as Hlen. rewrite !length_fmap in Hlen.
  pose proof (Permutation_length HE) as Hlen'. rewrite !length_fmap in Hlen'.
  apply (advance_scan _ _ _ _ _ _ _ _ _ _ Hpg) with (l := length rs).
  - pose proof (usable_checkpoint_none _ t Hs Hcp) as Hu.
    pose proof (GetLatestMerkleCheckpoint_no_panic (vs_storage st) t) as Hnp.
    unfold leaf_checkpoint, usable_checkpoint in *.
    destruct (GetLatestMerkleCheckpoint _ _) as [c|e|w]; [|done|by destruct (Hnp w Hs)].
    by case_decide.
  - rewrite (full_scan_root _ _ _ Hall), length_fmap, length_fmap, Hlen'.
    by rewrite (root_of_proper _ _ HE).
  - rewrite Hlen. by destruct evs.
  - done.
Qed.

(** What the checkpoint claims, and what it has. *)
Lemma new_checkpoint_claims g now t evs f s pg1 rs root count :
  inserted evs f -> evs <> [] -> length evs <= 9 ->
  ready storage_buckets s -> table_rep (chain s) t f -> answers pg1 rs -> rs <> [] ->
  exists c, new_checkpoint g now s t root count (pg_tree pg1) = Ok c
    /\ mc_SequenceNum c = N.of_nat (length evs) /\ mc_LeafMap c = pg_map rs.
Proof.
  intros Hin Hne H9 Hs Hr H1 Hrs. destruct (inserted_latest evs f Hin Hne) as (e & Hl & Hn).
  destruct (pg_root pg1 rs H1) as (tree & Hpg & Hnone & Htree).
  unfold new_checkpoint, pg_tree. rewrite Hpg, (GetLatestHashEntry_is s t f _ e Hs Hr Hl).
  eexists. split; [reflexivity|]. simpl. split; [rewrite Hn; f_equal; lia|].
  destruct tree as [b|]; [|by destruct Hrs; apply Hnone].
  rewrite GetLeafMap_map. by destruct (Htree b eq_refl) as (_ & _ & ->).
Qed.

(** A checkpoint that claims every entry hides those its leaves lack. *)
Lemma claimed_unseen g now io pg1 pg2 t evs f st c rs rs' :
  inserted evs f -> mc_SequenceNum c = N.of_nat (length evs) -> mc_LeafMap c = pg_map rs ->
  ready storage_buckets (vs_storage st) -> table_rep (chain (vs_storage st)) t f ->
  usable_checkpoint (vs_storage st) t = Some c -> NoDup (row_id <$> rs) ->
  answers pg1 rs' -> answers pg2 rs' -> row_hash <$> rs' ≡ₚ row_hash <$> rs ->
  exists tree, VerifyTable g now io pg1 pg2 st t
    = createCheckpointWithTree g now io st t (root_of (row_hash <$> rs')) (length rs') tree.
Proof.
  intros Hin Hseq Hmap Hs Hr Hu Hnd H1 H2 Hrows.
  destruct (GetAllHashEntries_rep _ t f Hs Hr) as (el & Hall & Hp & _).
  destruct (VerifyTable_leaves g now io pg1 pg2 st t el.*2 rs' rs' Hs Hall H1 H2)
    as (tree & root2 & l & _ & _ & ->).
  exists tree. unfold expected_leaves. rewrite Hu, updated_leaves_claimed.
  - rewrite Hmap. pose proof (foldl_insert_values row_id row_hash rs Hnd) as Hv.
    fold (pg_map rs) in Hv.
    rewrite decide_True; [done|]. right. rewrite <-Hrows in Hv.
    split; [by apply root_of_proper|symmetry; by apply Permutation_length].
  - rewrite Forall_fmap, Hp. apply Forall_forall. intros [k e] Hk%elem_of_map_to_list. simpl.
    rewrite Hseq, (inserted_numbers _ _ Hin k e Hk).
    assert (is_Some (f !! k)) as Hk' by eauto. apply (inserted_keys _ _ Hin) in Hk'. lia.
Qed.
End race.

(** ** Properties *)

(** C10: verifications never disturb the stream.  Start the receive loop of a
    process on any events, with any clock and any failures of the commits,
    and let any number of verifications of any tables start at any time and
    run in any interleaving, action by action, with it.  When the loop has
    handled its events, each got the result it gets when the handler is
    called on one event after the other and nothing else runs (or both times
    an error), and the hash entries are byte for byte those of that run; and
    the loop can always go on to its end. *)
Theorem stream_undisturbed {RO : RangeOrder} {HF : HashFunction} {B : Bolt} {BL : BoltLaws B}
    {R : RaftLib} (h : tableConfigs) (evs : arrivals) (st : VState B R) (p : Process) :
  ready storage_buckets (vs_storage st) -> rtc (proc_step (fun _ => True)) (started h evs st) p ->
  let '(rs0, s0) := handle_all h evs (vs_storage st) in
  (forall rs, ps_stream p = Ret rs ->
     Forall2 agree rs rs0 /\ chain (vs_storage (ps_state p)) = chain s0)
  /\ exists p' rs, rtc (proc_step (fun _ => True)) p p' /\ ps_stream p' = Ret rs
       /\ ps_verifiers p' = ps_verifiers p.
Proof.
  intros Hs Hrun. pose proof (started_ok h evs st Hs) as Hok.
  destruct (handle_all h evs (vs_storage st)) as [rs0 s0].
  pose proof (rtc_proc_ok _ _ _ _ _ Hrun Hok) as [_ _ Hrs Hb _]. split.
  - intros rs E. by rewrite E in Hrs, Hb.
  - destruct (stream_finishes (fun _ => True) p) as (p' & H1 & H2 & H3). eauto.
Qed.

(** The inserts of Alice and Bob arrive. *)
Definition two_arrivals : arrivals :=
  [(noon, None, user_event OperationInsert 1 "Alice");
   (noon, Some (External "disk full"), user_event OperationInsert 2 "Bob")].

Theorem stream_undisturbed_witness :
  let p : Process := {|
    ps_state := local_state empty_storage;
    ps_stream := stream_prog (RO := canonical_order) (HF := length_hash_function)
      users_config two_arrivals;
    ps_verifiers := [VerifyTable_prog (RO := canonical_order) (HF := length_hash_function)
      None noon None (pg_of two_rows) (pg_of two_rows) "users"] |} in
  let '(rs0, s0) := handle_all (RO := canonical_order) (HF := length_hash_function)
                      users_config two_arrivals empty_storage in
  (forall rs, ps_stream p = Ret rs ->
     Forall2 agree rs rs0 /\ chain (vs_storage (ps_state p)) = chain s0)
  /\ exists p' rs, rtc (proc_step (RO := canonical_order) (HF := length_hash_function)
                          (fun _ => True)) p p'
       /\ ps_stream p' = Ret rs /\ ps_verifiers p' = ps_verifiers p.
Proof.
  apply (stream_undisturbed (RO := canonical_order) (HF := length_hash_function)
    (R := list_raft) users_config two_arrivals (local_state empty_storage)).
  - exact empty_storage_ready.
  - apply rtc_once.
    exact (proc_verify (RO := canonical_order) (HF := length_hash_function) (fun _ => True)
      (started (RO := canonical_order) (HF := length_hash_function) users_config two_arrivals
        (local_state empty_storage)) None noon None (pg_of two_rows) (pg_of two_rows) "users" I).
Defined.

(** C5: an insert that is handled in the middle of a verification can be
    deleted unnoticed.  Take a process without Raft whose store has one to
    eight inserts of a table and no checkpoint of it.  A verification reads
    rows that match the entries; before it makes its checkpoint, the handler
    records one more insert; the checkpoint then claims the number of that
    entry, but its leaves lack the row.  If the new row is deleted again, a
    later verification, on whichever rows hash like those of the first, ends
    in a checkpoint and reports nothing, although the entry is stored. *)
Theorem verification_race {RO : RangeOrder} {HF : HashFunction} {B : Bolt} {BL : BoltLaws B}
    {R : RaftLib} (g : option Hasher) (now : Time) (pg1 pg2 : PgAnswer) (h : tableConfigs)
    (t : string) (evs : list (Time * ChangeEvent)) (te : Time * ChangeEvent) (s : Storage B)
    (rs : list row) :
  is_Some (h !! t) -> Forall (insert_ok t) (evs ++ [te]) -> evs <> [] -> length evs <= 8 ->
  ready storage_buckets s -> table_rep (A := HashEntry) (chain s) t ∅ ->
  table_rep (A := MerkleCheckpoint) (checkpoints s) t ∅ ->
  answers pg1 rs -> NoDup (row_id <$> rs) -> row_hash <$> rs ≡ₚ insert_hash <$> evs ->
  (forall c, new_checkpoint g now (insert_all h (evs ++ [te]) s) t (root_of (row_hash <$> rs))
       (length rs) (pg_tree pg1) = Ok c -> storable_checkpoint c) ->
  let st : VState B R := {| vs_storage := insert_all h evs s; vs_node := None |} in
  let '(rest, st1) := advance 2 (VerifyTable_prog g now None pg1 pg2 t) st in
  let '(_, s2) := HandleChange h te.1 None te.2 (vs_storage st1) in
  let '(r, st3) := run rest {| vs_storage := s2; vs_node := None |} in
  r = Ok tt
  /\ (exists f, table_rep (chain (vs_storage st3)) t f /\ inserted (evs ++ [te]) f)
  /\ forall g' now' io' pg1' pg2' rs', answers pg1' rs' -> answers pg2' rs' ->
       row_hash <$> rs' ≡ₚ row_hash <$> rs ->
       exists tree, VerifyTable g' now' io' pg1' pg2' st3 t
         = createCheckpointWithTree g' now' io' st3 t (root_of (row_hash <$> rs')) (length rs') tree.
Proof.
  intros Hc Hok Hne H8 Hs Hr Hcp H1 Hnd Hrows Hstor st.
  pose proof Hok as [Hok1 _]%Forall_app.
  destruct (insert_all_rep h t evs s Hc Hok1 Hs Hr) as (f & Hs1 & Hr1 & Hin).
  destruct (insert_all_checkpoints h evs s Hs) as [Hcp1 _]. rewrite <-Hcp1 in Hcp.
  rewrite (advance_matching g now pg1 pg2 t evs f st rs) by (done || lia).
  destruct (insert_all_rep h t (evs ++ [te]) s Hc Hok Hs Hr) as (f2 & Hs2 & Hr2 & Hin2).
  destruct (insert_all_checkpoints h (evs ++ [te]) s Hs) as [Hcp2 _]. rewrite Hcp1, <-Hcp2 in Hcp.
  assert (insert_all h (evs ++ [te]) s = (HandleChange h te.1 None te.2 (vs_storage st)).2) as E.
  { unfold insert_all. by rewrite foldl_app. }
  rewrite E in *. destruct (HandleChange h te.1 None te.2 (vs_storage st)) as [r2 s2].
  simpl in Hs2, Hr2, Hcp.
  set (st2 := {| vs_storage := s2; vs_node := None |} : VState B R).
  pose proof (Permutation_length Hrows) as Hlen. rewrite !length_fmap in Hlen.
  assert (rs <> []) as Hrs by (intros ->; by destruct evs).
  destruct (new_checkpoint_claims g now t (evs ++ [te]) f2 s2 pg1 rs (root_of (row_hash <$> rs))
    (length rs)) as (c & Hnew & Hseq & Hmap); try done;
    [by destruct evs|rewrite length_app; simpl; lia|].
  destruct (first_checkpoint g now st2 t (root_of (row_hash <$> rs)) (length rs) (pg_tree pg1) c)
    as (s3 & Hrun & Hs3 & Hch & Hu); try done;
    [by apply Hstor|rewrite Hmap, pg_map_size by done; by destruct rs; [|simpl; lia]|].
  rewrite run_createCheckpointWithTree, Hrun. split; [done|]. cbn [vs_storage]. rewrite Hch.
  split; [by exists f2|]. intros g' now' io' pg1' pg2' rs' H1' H2' Hrows'.
  apply (claimed_unseen g' now' io' pg1' pg2' t (evs ++ [te]) f2 _ c rs rs');
    cbn [vs_storage]; rewrite ?Hch; done.
Qed.

(** Two inserts, and a third one during the verification. *)
Definition race_rows : list row := take 2 twelve_rows.

Definition race_checkpoint : result MerkleCheckpoint :=
  new_checkpoint (RO := canonical_order) None noon
    (insert_all (RO := canonical_order) (HF := sha256_function)
      users_config three_inserts empty_storage) "users"
    (root_of (HF := sha256_function) (sha_row_hash <$> race_rows)) 2
    (pg_tree (RO := canonical_order) (HF := sha256_function) (pg_of race_rows)).

Theorem verification_race_witness :
  let st : VState map_bolt list_raft := local_state (insert_all (RO := canonical_order)
    (HF := sha256_function) users_config (take 2 three_inserts) empty_storage) in
  let te := (noon, user_event OperationInsert 3 "someone") in
  let '(rest, st1) := advance 2 (VerifyTable_prog (RO := canonical_order) (HF := sha256_function)
      None noon None (pg_of race_rows) (pg_of race_rows) "users") st in
  let '(_, s2) := HandleChange (RO := canonical_order) (HF := sha256_function)
      users_config te.1 None te.2 (vs_storage st1) in
  let '(r, st3) := run rest (local_state s2) in
  r = Ok tt
  /\ (exists f, table_rep (chain (vs_storage st3)) "users" f
       /\ inserted (RO := canonical_order) (HF := sha256_function)
            (take 2 three_inserts ++ [te]) f)
  /\ forall g' now' io' pg1' pg2' rs', answers pg1' rs' -> answers pg2' rs' ->
       sha_row_hash <$> rs' ≡ₚ sha_row_hash <$> race_rows ->
       exists tree, VerifyTable (RO := canonical_order) (HF := sha256_function)
           g' now' io' pg1' pg2' st3 "users"
         = createCheckpointWithTree (RO := canonical_order) g' now' io' st3 "users"
             (root_of (HF := sha256_function) (sha_row_hash <$> rs')) (length rs') tree.
Proof.
  apply (verification_race (RO := canonical_order) (HF := sha256_function) (B := map_bolt)
    (R := list_raft) None noon (pg_of race_rows) (pg_of race_rows) users_config "users"
    (take 2 three_inserts) (noon, user_event OperationInsert 3 "someone") empty_storage race_rows).
  - by_decide.
  - by_decide.
  - done.
  - by_decide.
  - exact empty_storage_ready.
  - apply table_rep_empty.
  - apply table_rep_empty.
  - by split_and!.
  - by_decide.
  - by_decide.
  - intros c Hc. change (race_checkpoint = Ok c) in Hc.
    assert (match race_checkpoint with
            | Ok c0 => bool_decide (storable_checkpoint c0)
            | _ => false
            end = true) as H by by_vm.
    rewrite Hc in H. by apply bool_decide_eq_true in H.
Defined.

(** The atomic actions add up to the calls.  When nothing else runs, the
    programs of single actions that are interleaved here and in the cluster
    return what the handler without Raft, the receive loop, the handler with
    Raft and the verification return, and leave the same store and the same
    Raft node, errors and panics included. *)
Lemma calls_run_alone {RO : RangeOrder} {HF : HashFunction} {B : Bolt} {R : RaftLib}
    (h : tableConfigs) (now : Time) (io : option error) (event : ChangeEvent) (evs : arrivals)
    (g : option Hasher) (pg1 pg2 : PgAnswer) (t : string) (s : Storage B) (n : Node)
    (st : VState B R) :
  run (HandleChange_prog h now io event) st
    = (let '(r, s') := HandleChange h now io event (vs_storage st) in
       (r, {| vs_storage := s'; vs_node := vs_node st |}))
  /\ run (stream_prog h evs) st
    = (let '(rs, s') := handle_all h evs (vs_storage st) in
       (rs, {| vs_storage := s'; vs_node := vs_node st |}))
  /\ run (raft_HandleChange_prog h now event) {| vs_storage := s; vs_node := Some n |}
    = (let '(r, s', n') := raft_HandleChange h now io event s (Some n) in
       (r, {| vs_storage := s'; vs_node := n' |}))
  /\ run (VerifyTable_prog g now io pg1 pg2 t) st = VerifyTable g now io pg1 pg2 st t.
Proof.
  split_and!; [apply run_HandleChange|apply run_stream|apply run_raft_HandleChange
              |apply run_VerifyTable].
Qed.
