(* ===== verification/Isolation.v ===== *)
(** * Tables do not disturb each other

    All tables share the buckets of one store and one process.  Here: the
    part of the store that belongs to one table, that every read of a
    verification of this table sees nothing else, and that no event and no
    verification of another table changes it.  So a verification runs as if
    it were alone as long as no event of its own table is handled. *)

From Stdlib Require Import NArith ZArith Lia.
From S2P Require Import Prelude Bytes Json JsonFacts Codec Sha256 Hasher HashTree DataHash Merkle.
From S2P Require Import MerkleFacts MerkleCompare Bolt Keys Storage TableView StorageFacts.
From S2P Require Import BoltStore AnyData Fsm Node FsmFacts Replication Handler HandlerFacts.
From S2P Require Import Verifier VerifierFacts Threads Submitted Buckets ThreadFacts VerdictFacts.
From S2P Require Import RecordIds Verdict Pipeline Process.

(** ** The part of a bucket *)

Lemma sorted_pairs_unique (l1 l2 : list (string * string)) :
  l1 ≡ₚ l2 -> NoDup l1.*1 ->
  StronglySorted String.le l1.*1 -> StronglySorted String.le l2.*1 -> l1 = l2.
Proof.
  revert l2. induction l1 as [|x l1 IH]; intros l2 Hp Hnd H1 H2.
  { by apply Permutation_nil_l in Hp. }
  destruct l2 as [|y l2]; [by apply Permutation_nil_r in Hp|].
  rewrite !fmap_cons in *. apply StronglySorted_inv in H1 as [H1 Hx], H2 as [H2 Hy].
  apply NoDup_cons in Hnd as [Hn Hnd]. rewrite Forall_forall in Hx, Hy.
  assert (x = y) as ->.
  { assert (x ∈ y :: l2) as [->|Hin2]%elem_of_cons by (rewrite <-Hp; by left); [done|].
    assert (y ∈ x :: l1) as [->|Hin1]%elem_of_cons by (rewrite Hp; by left); [done|].
    apply (list_elem_of_fmap_2 fst) in Hin1, Hin2.
    assert (x.1 = y.1) as E by (apply (anti_symm String.le); auto).
    by rewrite <-E in Hin1. }
  f_equal. apply IH; [|done..]. by apply Permutation_cons_inv in Hp.
Qed.

Definition table_part (t : string) (m : gmap string string) : gmap string string :=
  filter (fun kv => has_prefix (table_prefix t) kv.1 = true) m.

Lemma prefix_scan_part {B : Bolt} {BL : BoltLaws B} (b : bucket) t :
  prefix_scan b (table_prefix t) = sorted_pairs (table_part t (contents b)).
Proof.
  rewrite prefix_scan_contents.
  set (P := fun kv : string * string => has_prefix (table_prefix t) kv.1 = true).
  assert (NoDup (filter P (sorted_pairs (contents b))).*1) as Hnd.
  { eapply sublist_NoDup; [apply NoDup_sorted_pairs|]. apply fmap_sublist, sublist_filter. }
  apply sorted_pairs_unique; [|done| |apply sorted_pairs_sorted].
  - apply NoDup_Permutation; [by eapply NoDup_fmap_1|eapply NoDup_fmap_1, NoDup_sorted_pairs|].
    intros [k v]. unfold table_part.
    rewrite list_elem_of_filter, !elem_of_sorted_pairs, map_lookup_filter_Some. tauto.
  - apply StronglySorted_filter_fst, sorted_pairs_sorted.
Qed.

(** A write under a key, seen from a table. *)
Lemma write_part t io w m m' :
  table_part t m = table_part t m' -> table_part t (write io w m) = table_part t (write io w m').
Proof.
  intros E. unfold write. destruct io; [done|]. destruct w as [[k v]|]; [|done]. unfold table_part in *.
  destruct (has_prefix (table_prefix t) k) eqn:Hk.
  - rewrite !map_filter_insert_True by done. by rewrite E.
  - rewrite !map_filter_insert_not; [done|intros y; simpl; by rewrite Hk..].
Qed.

Definition other_table (t t' : string) : Prop := t' <> t /\ no_colon t' = true.

Lemma write_other t t' io w m :
  no_colon t = true -> other_table t t' ->
  (forall k v, w = Some (k, v) -> exists n, k = table_key t' n) ->
  table_part t (write io w m) = table_part t m.
Proof.
  intros Ht [Hne Ht'] Hw. unfold write. destruct io; [done|]. destruct w as [[k v]|]; [|done].
  destruct (Hw k v eq_refl) as [n ->]. unfold table_part. apply map_filter_insert_not.
  intros y. simpl. by intros ?%has_prefix_other.
Qed.

Section isolation.
Context `{RO : RangeOrder} `{HF : HashFunction} {B : Bolt} {BL : BoltLaws B} `{R : RaftLib}.
Implicit Types (s : Storage B) (st : VState B R).
Local Open Scope witnz_scope.
Variable t : string.
Hypothesis Ht : no_colon t = true.

(** Stores that look the same to the readers of [t]. *)
Record same_part s s' : Prop := {
  part_ready : ready storage_buckets s;
  part_ready' : ready storage_buckets s';
  part_chain : table_part t (chain s) = table_part t (chain s');
  part_checkpoints : table_part t (checkpoints s) = table_part t (checkpoints s')
}.

(** Processes without Raft. *)
Definition same_table st st' : Prop :=
  vs_node st = None /\ vs_node st' = None /\ same_part (vs_storage st) (vs_storage st').

(** A read transaction that scans the keys of [t]. *)
Lemma View_scan_same {A} name (f : list (string * string) -> A) s s' :
  name ∈ storage_buckets -> same_part s s' ->
  table_part t (bucket_map s name) = table_part t (bucket_map s' name) ->
  let scan bs := let! b := tx_bucket name bs in Ok (f (prefix_scan b (table_prefix t))) in
  View scan s = View scan s'.
Proof.
  intros Hn [Hs Hs' _ _] E scan. rewrite (View_ready _ _ _ Hs), (View_ready _ _ _ Hs').
  unfold scan. destruct (tx_bucket_ready name _ _ Hs Hn) as (b & -> & Hb).
  destruct (tx_bucket_ready name _ _ Hs' Hn) as (b' & -> & Hb').
  by rewrite !Ok_bind, !prefix_scan_part, Hb, Hb', E.
Qed.

Lemma GetLatestHashEntry_same s s' :
  same_part s s' -> GetLatestHashEntry s t = GetLatestHashEntry s' t.
Proof.
  intros H. unfold GetLatestHashEntry.
  by rewrite (View_scan_same HashChainBucket _ s s' ltac:(set_solver) H (part_chain _ _ H)).
Qed.

Lemma GetAllHashEntries_same s s' :
  same_part s s' -> GetAllHashEntries s t = GetAllHashEntries s' t.
Proof.
  intros H. unfold GetAllHashEntries.
  by rewrite (View_scan_same HashChainBucket _ s s' ltac:(set_solver) H (part_chain _ _ H)).
Qed.

Lemma GetLatestMerkleCheckpoint_same s s' :
  same_part s s' -> GetLatestMerkleCheckpoint s t = GetLatestMerkleCheckpoint s' t.
Proof.
  intros H. unfold GetLatestMerkleCheckpoint.
  by rewrite (View_scan_same MerkleCheckpointBucket _ s s' ltac:(set_solver) H
    (part_checkpoints _ _ H)).
Qed.

Lemma new_checkpoint_same g now s s' root count tree :
  same_part s s' ->
  new_checkpoint g now s t root count tree = new_checkpoint g now s' t root count tree.
Proof. intros H. unfold new_checkpoint. by rewrite (GetLatestHashEntry_same s s' H). Qed.

Lemma leaf_checkpoint_same s s' : same_part s s' -> leaf_checkpoint s t = leaf_checkpoint s' t.
Proof. intros H. unfold leaf_checkpoint. by rewrite (GetLatestMerkleCheckpoint_same s s' H). Qed.

Lemma full_scan_same s s' : same_part s s' -> full_scan s t = full_scan s' t.
Proof. intros H. unfold full_scan. by rewrite (GetAllHashEntries_same s s' H). Qed.

Lemma calculateMerkleRootFromCheckpoint_same s s' c :
  same_part s s' ->
  calculateMerkleRootFromCheckpoint s t c = calculateMerkleRootFromCheckpoint s' t c.
Proof.
  intros H. unfold calculateMerkleRootFromCheckpoint. by rewrite (GetAllHashEntries_same s s' H).
Qed.

Lemma detailed_records_same pg s s' :
  same_part s s' -> detailed_records pg s t = detailed_records pg s' t.
Proof.
  intros H. unfold detailed_records, buildLeafMapFromBoltDB.
  by rewrite (GetAllHashEntries_same s s' H).
Qed.

Lemma SaveMerkleCheckpoint_same io c s s' :
  same_part s s' ->
  agree (SaveMerkleCheckpoint io c s).1 (SaveMerkleCheckpoint io c s').1
  /\ same_part (SaveMerkleCheckpoint io c s).2 (SaveMerkleCheckpoint io c s').2.
Proof.
  intros [Hs Hs' Hc Hcp]. pose proof (SaveMerkleCheckpoint_write io c s Hs) as H.
  pose proof (SaveMerkleCheckpoint_write io c s' Hs') as H'.
  destruct (SaveMerkleCheckpoint io c s) as [r s1], (SaveMerkleCheckpoint io c s') as [r' s1'].
  destruct H as (Hr & Hp & Hch & Hc1 & Hok & _), H' as (Hr' & Hp' & Hch' & Hc1' & Hok' & _).
  split; [by eapply agree_Ok|]. split; [done..| |].
  - simpl. by rewrite Hc1, Hc1'.
  - simpl. rewrite Hch, Hch'. by apply write_part.
Qed.

(** Writes of the other tables. *)
Lemma SaveMerkleCheckpoint_other io c s :
  ready storage_buckets s -> other_table t (mc_TableName c) ->
  same_part s (SaveMerkleCheckpoint io c s).2.
Proof.
  intros Hs Ho. pose proof (SaveMerkleCheckpoint_write io c s Hs) as H.
  destruct (SaveMerkleCheckpoint io c s) as [r s1]. destruct H as (Hr & _ & Hcp & Hch & _).
  split; [done..| |]; simpl; [by rewrite Hch|]. rewrite Hcp. symmetry.
  apply (write_other _ (mc_TableName c)); [done..|]. intros k v. unfold checkpoint_write.
  destruct (Marshal c) as [data| |]; [|done..]. case_decide; [|done]. intros [= <- _]. by eexists.
Qed.

Lemma SaveHashEntry_other io e s :
  ready storage_buckets s -> other_table t (he_TableName e) ->
  same_part s (SaveHashEntry io e s).2.
Proof.
  intros Hs Ho. pose proof (SaveHashEntry_write io e s Hs) as H.
  destruct (SaveHashEntry io e s) as [r s1]. destruct H as (Hr & _ & Hch & Hcp & _).
  split; [done..| |]; simpl; [|by rewrite Hcp]. rewrite Hch. symmetry.
  apply (write_other _ (he_TableName e)); [done..|]. intros k v. unfold entry_write.
  destruct (Marshal e) as [data| |]; [|done..]. case_decide; [|done]. intros [= <- _]. by eexists.
Qed.

(** ** A verification of the table, side by side *)

Lemma sim_reading {A} (f : Storage B -> A) :
  (forall s s', same_part s s' -> f s = f s') -> sim same_table eq (reading f) (reading f).
Proof.
  intros Hf. apply sim_of_act. intros st st' H. split; [|done]. by apply Hf, H.
Qed.

Lemma sim_createCheckpoint g now io root count tree :
  sim same_table agree (createCheckpointWithTree_prog g now io t root count tree)
    (createCheckpointWithTree_prog g now io t root count tree).
Proof.
  apply (sim_bind _ eq).
  { apply sim_reading. intros s s'. apply new_checkpoint_same. }
  intros x _ <-. destruct x as [c|e|w]; [|by apply sim_ret..].
  apply (sim_bind _ (fun a a' => a = false /\ a' = false)).
  { apply sim_of_act. intros st st' H. split; [|done]. destruct H as (Hn & Hn' & _).
    simpl. by rewrite Hn, Hn'. }
  intros a a' [-> ->]. apply (sim_bind _ agree).
  - apply sim_of_act. intros st st' (Hn & Hn' & H).
    destruct (SaveMerkleCheckpoint_same io c _ _ H) as [Ha Hp].
    destruct (SaveMerkleCheckpoint io c (vs_storage st)),
      (SaveMerkleCheckpoint io c (vs_storage st')).
    by split_and!.
  - intros r r' [->|(e & e' & -> & ->)]; apply sim_ret; [done|right; eauto].
Qed.

Lemma sim_VerifyTable g now io pg1 pg2 :
  sim same_table agree (VerifyTable_prog g now io pg1 pg2 t) (VerifyTable_prog g now io pg1 pg2 t).
Proof.
  unfold VerifyTable_prog.
  destruct (wrap_err _ _) as [[[root count] tree]|e|w]; [|by apply sim_ret..].
  apply (sim_bind _ eq).
  - unfold calculateMerkleRootFromBoltDB_prog. apply (sim_bind _ eq).
    { apply sim_reading. intros s s'. apply leaf_checkpoint_same. }
    intros x _ <-. destruct x as [[c|]|e|w]; [| |by apply sim_ret..]; apply sim_reading; intros s s'.
    + apply calculateMerkleRootFromCheckpoint_same.
    + apply full_scan_same.
  - intros x _ <-. destruct (wrap_err _ x) as [[eroot bcount]|e|w]; [|by apply sim_ret..].
    case_decide; [apply sim_createCheckpoint|]. case_decide; [apply sim_createCheckpoint|].
    apply (sim_bind _ eq).
    { apply sim_reading. intros s s'. apply detailed_records_same. }
    intros y _ <-. destruct y as [[[msgs root2] count2]|e|w]; [|by apply sim_ret..].
    case_decide; [by apply sim_ret|apply sim_createCheckpoint].
Qed.

(** ** The other tables *)

Definition other_contract : contract B R unit := {|
  extends _ _ := True;
  meets _ st := vs_node st = None /\ ready storage_buckets (vs_storage st);
  effect _ st st' := same_table st st';
  may _ _ := True;
  may_save _ c := other_table t (mc_TableName c)
|}.

#[export] Instance other_extends : PreOrder (extends other_contract).
Proof. by split. Qed.

Lemma same_part_refl s : ready storage_buckets s -> same_part s s.
Proof. by split. Qed.

Lemma same_table_refl st :
  vs_node st = None -> ready storage_buckets (vs_storage st) -> same_table st st.
Proof. intros Hn Hs. split_and!; [done..|]. by apply same_part_refl. Qed.

Lemma other_laws : contract_laws other_contract.
Proof.
  split; simpl; try done.
  - intros _ st []. by apply same_table_refl.
  - intros _ st io c [Hn Hs] Hc. split_and!; [done..|]. by apply SaveMerkleCheckpoint_other.
  - intros _ st n r data [Hn _] _ Hn'. congruence.
Qed.

Definition other_arrival (a : Time * option error * ChangeEvent) : Prop :=
  other_table t (ev_TableName a.2).

Lemma always_stream h evs :
  Forall other_arrival evs -> always other_contract (stream_prog h evs) tt.
Proof.
  induction 1 as [|[[now io] event] evs Ho _ IH]; [done|]. cbn [stream_prog].
  apply (always_bind other_contract).
  - unfold HandleChange_prog. destruct (h !! ev_TableName event); [|done].
    destruct (is_update_or_delete event); [done|].
    apply (always_reading other_contract other_laws). intros [] st _ _.
    destruct (next_sequence _ _) as [seq|e|w]; [|done..]. intros [] st' _ [Hn Hs].
    pose proof (SaveHashEntry_other io (event_entry now seq event) _ Hs Ho) as Hp.
    destruct (SaveHashEntry io (event_entry now seq event) (vs_storage st')). by split_and!.
  - intros r [] _. destruct (is_Panic r); [done|]. by apply (always_bind other_contract).
Qed.

Lemma always_other_VerifyTable g now io pg1 pg2 t' :
  other_table t t' -> always other_contract (VerifyTable_prog g now io pg1 pg2 t') tt.
Proof.
  intros Ho. apply always_VerifyTable; [apply _|apply other_laws|]. intros [] c E. simpl. by rewrite E.
Qed.

(** ** The verification, in the middle of the others *)

(** The first verification goes on to the result [r0] and to a state that
    looks like [st0] to its table. *)
Record isolated (r0 : result unit) (st0 : VState B R) (p : Process) : Prop := {
  iso_state : vs_node (ps_state p) = None /\ ready storage_buckets (vs_storage (ps_state p));
  iso_stream : always other_contract (ps_stream p) tt;
  iso_call : exists q others, ps_verifiers p = q :: others
    /\ sim same_table agree q q
    /\ agree (run q (ps_state p)).1 r0 /\ same_table (run q (ps_state p)).2 st0
    /\ Forall (fun q' => always other_contract q' tt) others
}.

Lemma same_table_ready st st' :
  same_table st st' -> vs_node st' = None /\ ready storage_buckets (vs_storage st').
Proof. by intros (_ & Hn & [_ Hs _ _]). Qed.

Lemma same_table_trans st1 st2 st3 :
  same_table st1 st2 -> same_table st2 st3 -> same_table st1 st3.
Proof.
  intros (Hn1 & Hn2 & [Hr1 Hr2 Hc Hcp]) (_ & Hn3 & [_ Hr3 Hc' Hcp']).
  split_and!; [done..|]. split; [done..|congruence|congruence].
Qed.

Lemma same_table_sym st1 st2 : same_table st1 st2 -> same_table st2 st1.
Proof. intros (Hn1 & Hn2 & [Hr1 Hr2 Hc Hcp]). by split_and!. Qed.

(** A step of another goroutine. *)
Lemma isolated_other q st st' r0 st0 :
  sim same_table agree q q -> same_table st st' ->
  agree (run q st).1 r0 -> same_table (run q st).2 st0 ->
  agree (run q st').1 r0 /\ same_table (run q st').2 st0.
Proof.
  intros Hsim Hsame Hr Hst. destruct (sim_run _ _ _ _ _ _ Hsim Hsame) as [Ha Hs]. split.
  - etrans; [symmetry; exact Ha|done].
  - eapply same_table_trans; [by apply same_table_sym|done].
Qed.

Lemma isolated_step r0 st0 p p' :
  isolated r0 st0 p -> proc_step (other_table t) p p' -> isolated r0 st0 p'.
Proof.
  intros [[Hn Hr] Hstream (q & others & Hv & Hsim & Hq & Hst & Hothers)] Hstep.
  pose proof (same_table_refl _ Hn Hr) as Hrefl.
  destruct Hstep as [f q' st' Hf Hq'|g now io pg1 pg2 t' Ho|k f q' st' Hk Hq'].
  - rewrite Hf in Hstream. specialize (Hstream tt (ps_state p) I (conj Hn Hr)).
    rewrite Hq' in Hstream. destruct Hstream as [Hsame Hstream].
    split; [by apply same_table_ready in Hsame|done|]. exists q, others.
    destruct (isolated_other q _ _ _ _ Hsim Hsame Hq Hst) as [H1 H2]. by split_and!.
  - split; [done..|]. exists q, (others ++ [VerifyTable_prog g now io pg1 pg2 t']). simpl.
    rewrite Hv. split_and!; [done..|]. apply Forall_app. split; [done|].
    constructor; [by apply always_other_VerifyTable|done].
  - rewrite Hv in Hk. destruct k as [|k]; simpl in Hk.
    + injection Hk as ->. destruct (sim_act_inv _ _ _ _ _ _ Hsim Hrefl) as [Hsame Hnext].
      cbn [run] in Hq, Hst. rewrite Hq' in *.
      split; [by apply same_table_ready in Hsame|done|]. exists q', others. simpl. by rewrite Hv.
    + pose proof (Forall_lookup_1 _ _ _ _ Hothers Hk tt (ps_state p) I (conj Hn Hr)) as Hact.
      rewrite Hq' in Hact. destruct Hact as [Hsame Hact].
      split; [by apply same_table_ready in Hsame|done|]. exists q, (<[k := q']> others). simpl.
      rewrite Hv. destruct (isolated_other q _ _ _ _ Hsim Hsame Hq Hst) as [H1 H2].
      split_and!; [done..|]. by apply Forall_insert.
Qed.

Lemma isolated_steps r0 st0 p p' :
  isolated r0 st0 p -> rtc (proc_step (other_table t)) p p' -> isolated r0 st0 p'.
Proof. intros H Hrun. revert H. induction Hrun; eauto using isolated_step. Qed.

Lemma isolated_started h evs g now io pg1 pg2 st :
  Forall other_arrival evs -> vs_node st = None -> ready storage_buckets (vs_storage st) ->
  let '(r0, st0) := VerifyTable g now io pg1 pg2 st t in
  isolated r0 st0 {| ps_state := st; ps_stream := stream_prog h evs;
                     ps_verifiers := [VerifyTable_prog g now io pg1 pg2 t] |}.
Proof.
  intros Hev Hn Hr. pose proof (run_VerifyTable g now io pg1 pg2 st t) as E.
  destruct (VerifyTable g now io pg1 pg2 st t) as [r0 st0].
  pose proof (sim_VerifyTable g now io pg1 pg2) as Hsim.
  destruct (sim_run _ _ _ _ _ _ Hsim (same_table_refl st Hn Hr)) as [_ Hend].
  split; [done|by apply always_stream|]. eexists _, []. cbn [ps_verifiers ps_state].
  split; [done|]. rewrite E in *. by split_and!.
Qed.
End isolation.

(** ** Properties *)

(** C11: tables are isolated.  Let a verification of a table start in a
    process without Raft, while the receive loop handles events of other
    tables and verifications of other tables start and run, all interleaved
    action by action.  When the verification is done, it has returned what
    [VerifyTable] returns when nothing else runs (or both times an error of
    the store), and the entries and checkpoints stored under the table are
    those [VerifyTable] leaves alone. *)
Theorem verification_isolated {RO : RangeOrder} {HF : HashFunction} {B : Bolt} {BL : BoltLaws B}
    {R : RaftLib} (h : tableConfigs) (evs : arrivals) (g : option Hasher) (now : Time)
    (io : option error) (pg1 pg2 : PgAnswer) (t : string) (st : VState B R) (p : Process)
    (r : result unit) :
  no_colon t = true -> Forall (other_arrival t) evs ->
  vs_node st = None -> ready storage_buckets (vs_storage st) ->
  rtc (proc_step (other_table t))
    {| ps_state := st; ps_stream := stream_prog h evs;
       ps_verifiers := [VerifyTable_prog g now io pg1 pg2 t] |} p ->
  ps_verifiers p !! 0 = Some (Ret r) ->
  let '(r0, st0) := VerifyTable g now io pg1 pg2 st t in
  agree r r0 /\ same_part t (vs_storage (ps_state p)) (vs_storage st0).
Proof.
  intros Ht Hev Hn Hr Hrun Hdone.
  pose proof (isolated_started t Ht h evs g now io pg1 pg2 st Hev Hn Hr) as Hok.
  destruct (VerifyTable g now io pg1 pg2 st t) as [r0 st0].
  destruct (isolated_steps t Ht _ _ _ _ Hok Hrun) as [_ _ (q & others & Hv & _ & Hq & Hst & _)].
  rewrite Hv in Hdone. injection Hdone as ->. split; [exact Hq|]. apply Hst.
Qed.

(** An order arrives while the users are verified. *)
Definition order_event : ChangeEvent := {|
  ev_TableName := "orders"; ev_Operation := OperationInsert; ev_Timestamp := zero_time;
  ev_NewData := {[ "id" := VInt 7 ]}; ev_OldData := ∅; ev_PrimaryKey := {[ "id" := VInt 7 ]};
  ev_TransactionID := 0; ev_LSN := 0 |}.

Definition shop_config : tableConfigs :=
  <["orders" := {| tc_Name := "orders"; tc_VerifyInterval := "" |}]> users_config.

Definition shop_start : Process := {|
  ps_state := local_state two_rows_storage;
  ps_stream := stream_prog (RO := canonical_order) (HF := sha256_function) shop_config
    [(noon, None, order_event)];
  ps_verifiers := [VerifyTable_prog (RO := canonical_order) (HF := sha256_function)
    None noon None (pg_of two_rows) (pg_of two_rows) "users"] |}.

Definition shop_schedule : list (option nat) :=
  [Some 0; None; Some 0; None; Some 0; Some 0; Some 0].

Definition shop_end : Process := default shop_start (schedule shop_schedule shop_start).

Theorem verification_isolated_witness :
  let '(r0, st0) := VerifyTable (RO := canonical_order) (HF := sha256_function) (R := list_raft)
      None noon None (pg_of two_rows) (pg_of two_rows) (local_state two_rows_storage) "users" in
  agree (Ok tt) r0 /\ same_part "users" (vs_storage (ps_state shop_end)) (vs_storage st0).
Proof.
  apply (verification_isolated (RO := canonical_order) (HF := sha256_function) (B := map_bolt)
    (R := list_raft) shop_config [(noon, None, order_event)] None noon None (pg_of two_rows)
    (pg_of two_rows) "users" (local_state two_rows_storage) shop_end (Ok tt)).
  - reflexivity.
  - apply Forall_singleton. by split.
  - reflexivity.
  - split; by_decide.
  - apply schedule_steps with shop_schedule. unfold shop_end.
    assert (is_Some (schedule shop_schedule shop_start)) as [p E] by by_decide. by rewrite E.
  - by_vm.
Defined.
