(* ===== verification/Replicated.v ===== *)
(** * A cluster with a steady leader

    The whole path in a cluster: the leader's handler submits each insert,
    Raft commits it and returns once the leader's state machine has applied
    it, the other members apply it when they can, and any of them verifies.
    [steady] describes a leader whose calls of Raft succeed. *)

From Stdlib Require Import NArith ZArith Lia.
From S2P Require Import Prelude Bytes Json JsonFacts Codec Sha256 Hasher HashTree DataHash Merkle.
From S2P Require Import MerkleFacts MerkleCompare Bolt Keys Storage TableView StorageFacts.
From S2P Require Import BoltStore AnyData Fsm Node FsmFacts Replication Handler HandlerFacts.
From S2P Require Import Verifier VerifierFacts Submitted Buckets Cluster Agreement VerdictFacts.
From S2P Require Import RecordIds Verdict Pipeline.

Section replicated.
Context `{RO : RangeOrder} `{HF : HashFunction} {B : Bolt} {BL : BoltLaws B}.
Context `{R : RaftLib} {RL : RaftLaws R} `{FC : FloatConversion}.
Variable tables : string -> tableConfigs.
Implicit Types (c : Cluster B R) (m : Member B R) (te : Time * ChangeEvent).

(** Member [i] handles an event and its state machine applies the log: the
    future of [raft.Apply] answers after that. *)
Definition leader_insert (i : string) te c : option (Cluster B R) :=
  m ← cu_members c !! i;
  match raft_HandleChange (tables i) te.1 None te.2 (mb_storage m) (Some (mb_node m)) with
  | (Ok _, s', Some n') =>
      apply_next i {| cu_log := raft_committed n'; cu_in_doubt := cu_in_doubt c;
        cu_snapshots := cu_snapshots c;
        cu_members := <[i := {| mb_storage := s'; mb_node := n'; mb_applied := mb_applied m;
                                mb_threads := mb_threads m |}]> (cu_members c) |}
  | _ => None
  end.

Definition replicate_inserts (i : string) (evs : list (Time * ChangeEvent)) c
    : option (Cluster B R) :=
  foldl (fun oc te => c ← oc; leader_insert i te c) (Some c) evs.

(** A leader that stays one and whose submissions are committed. *)
Definition keeps_leading (steady : Raft -> Prop) : Prop :=
  forall r, steady r -> is_leader_state r = true
    /\ forall data, exists r', raft_apply r data = (None, r') /\ steady r'.

Variable steady : Raft -> Prop.
Hypothesis Hsteady : keeps_leading steady.

Variables (i t : string).
Hypothesis Ht : is_Some (tables i !! t).

Definition unchecked m : Prop :=
  table_rep (A := MerkleCheckpoint) (checkpoints (mb_storage m)) t ∅.

(** The log of an insert. *)
Definition insert_log (data : string) : Prop :=
  exists now seq event, insert_of (tables i) now seq event data.

(** The cluster after the inserts [evs]. *)
Record replicated (evs : list (Time * ChangeEvent)) c : Prop := {
  rd_ok : cluster_ok tables c;
  rd_log : Forall insert_log (cu_log c);
  rd_length : length (cu_log c) = length evs;
  rd_unchecked : map_Forall (fun _ => unchecked) (cu_members c);
  rd_leader : exists m r f, cu_members c !! i = Some m /\ caught_up c m
    /\ node_raft (mb_node m) = Some r /\ steady r /\ committed r = cu_log c
    /\ table_rep (chain (mb_storage m)) t f /\ inserted evs f
}.

Definition recorded_insert te : Prop := insert_ok t te /\ ev_Operation te.2 = OperationInsert.

#[export] Instance recorded_insert_dec te : Decision (recorded_insert te).
Proof. unfold recorded_insert. apply _. Defined.

(** An insert's log does not touch the checkpoints. *)
Lemma Apply_unchecked data k (s : Storage B) :
  insert_log data -> ready storage_buckets s ->
  checkpoints (Apply None (raft_log k data) s).2 = checkpoints s.
Proof.
  intros (now & seq & event & Hio) Hs.
  destruct (Apply_writes None (raft_log k data) s Hs) as (_ & _ & ->).
  by destruct (insert_of_writes _ now seq event data (raft_log k data) Hio eq_refl)
    as [(v & -> & _) _].
Qed.

Lemma apply_next_unchecked j c c' :
  Forall insert_log (cu_log c) -> cluster_ok tables c ->
  map_Forall (fun _ => unchecked) (cu_members c) -> apply_next j c = Some c' ->
  map_Forall (fun _ => unchecked) (cu_members c').
Proof.
  intros Hl Hok Hu Hn. unfold apply_next in Hn.
  destruct (cu_members c !! j) as [m|] eqn:Hm; [|done]. simpl in Hn.
  destruct (cu_log c !! mb_applied m) as [data|] eqn:Hd; [|done]. simpl in Hn.
  destruct (ok_members tables c Hok j m Hm) as [Hs _ _].
  pose proof (Apply_unchecked data (S (mb_applied m)) (mb_storage m)
    (Forall_lookup_1 _ _ _ _ Hl Hd) Hs) as Hc.
  destruct (Apply None _ (mb_storage m)) as [r s']. simpl in *.
  destruct (is_Panic r); [done|]. injection Hn as <-. apply map_Forall_insert_2; [|done].
  unfold unchecked. simpl. rewrite Hc. by apply (Hu j).
Qed.

Lemma apply_many_unchecked k j c c' :
  Forall insert_log (cu_log c) -> cluster_ok tables c ->
  map_Forall (fun _ => unchecked) (cu_members c) -> apply_many k j c = Some c' ->
  map_Forall (fun _ => unchecked) (cu_members c') /\ cluster_ok tables c'.
Proof.
  revert c. induction k as [|k IH]; intros c Hl Hok Hu; [by intros [= <-]|].
  cbn [apply_many]. destruct (apply_next j c) as [c1|] eqn:Hn; [|done]. simpl.
  apply IH.
  - unfold apply_next in Hn. destruct (cu_members c !! j) as [m|]; [|done]. simpl in Hn.
    destruct (cu_log c !! mb_applied m); [|done]. simpl in Hn.
    destruct (Apply _ _ _) as [r s']. destruct (is_Panic r); [done|]. by injection Hn as <-.
  - eapply step_ok; [exact Hok|]. by eapply step_apply.
  - by eapply apply_next_unchecked.
Qed.
(** The handler of a steady leader commits the insert's log. *)
Lemma steady_HandleChange te (s : Storage B) (n : Node) r seq :
  recorded_insert te -> node_raft n = Some r -> steady r ->
  next_sequence s t = Ok seq -> (1 <= seq <= 10)%N -> storable_entry (event_entry te.1 seq te.2) ->
  exists r' data, raft_HandleChange (tables i) te.1 None te.2 s (Some n)
      = (Ok tt, s, Some (set_raft n r'))
    /\ steady r' /\ committed r' = committed r ++ [data] /\ in_doubt r' = in_doubt r
    /\ insert_of (tables i) te.1 seq te.2 data
    /\ forall k (s' : Storage B), Apply None (raft_log k data) s'
         = SaveHashEntry None (event_entry te.1 seq te.2) s'.
Proof.
  intros [(Hte & Hop & _) Hins] Hr Hst Hseq Hn Hstor. rewrite <-Hte in Ht, Hseq.
  assert (seq <= 2 ^ 53)%N as Hle by lia.
  destruct (event_log_applies te.1 seq te.2 Hle (proj1 Hstor)) as (data & Hm & Happ).
  destruct (Hsteady r Hst) as [Hlead Hall]. destruct (Hall data) as (r' & Ha & Hst').
  destruct (apply_commits r data r' Ha) as [Hc Hd]. exists r', data. split_and!; [|done..| |].
  - unfold raft_HandleChange, ApplyLog. destruct Ht as [cfg ->].
    rewrite Hop, Hseq, Hr, Hlead, Hm. cbn [negb wrap_err]. by rewrite Ha.
  - by split.
  - intros k s'. by apply Happ.
Qed.

Lemma leader_insert_ok evs te c :
  replicated evs c -> recorded_insert te ->
  exists c', leader_insert i te c = Some c' /\ replicated (evs ++ [te]) c'.
Proof.
  intros [Hok Hl Hlen Hu (m & r & f & Hm & Hcu & Hr & Hst & Hcom & Hrep & Hin)] Hte.
  destruct (ok_members tables c Hok i m Hm) as [Hs [_ Htyp _ Hcaught] _].
  pose proof (inserted_next _ t evs f Hs Hrep Hin) as Hseq. set (seq := saturated (length evs)) in *.
  pose proof (insert_ok_storable t te (length evs) (proj1 Hte)) as Hstor. fold seq in Hstor.
  assert (no_colon t = true) as Hcol.
  { destruct Hstor as (_ & _ & Hcol). destruct Hte as [(<- & _) _]. exact Hcol. }
  destruct (typed_next tables _ t Hs Htyp Hcol) as (seq1 & E1 & Hn & Hf).
  assert (seq1 = seq) as -> by congruence. clear E1.
  destruct (steady_HandleChange te _ _ r seq Hte Hr Hst Hseq Hn Hstor)
    as (r' & data & Hrun & Hst' & Hc' & Hd' & Hdata & Happ).
  set (n' := set_raft (mb_node m) r') in *.
  set (m1 := {| mb_storage := mb_storage m; mb_node := n'; mb_applied := mb_applied m;
    mb_threads := mb_threads m |}).
  set (c1 := {| cu_log := cu_log c ++ [data]; cu_in_doubt := cu_in_doubt c;
    cu_snapshots := cu_snapshots c; cu_members := <[i := m1]> (cu_members c) |}).
  assert (raft_committed n' = cu_log c ++ [data]) as Hlog by by rewrite <-Hcom, <-Hc'.
  assert (cluster_ok tables c1) as Hok1.
  { apply (cluster_ok_grow tables c [data] (cu_in_doubt c) i m1 Hok).
    - apply ordered_snoc; [apply Hok|]. left. exists i, te.1, seq, te.2. split; [done|].
      destruct Hf as [Hf|Hf]; [by left|right]. destruct Hte as [(-> & _) _].
      by eapply caught_key.
    - eapply Forall_impl; [apply Hok|]. intros d. apply logged_grow.
    - destruct (member_ok_grow tables _ [data] m (ok_members tables c Hok i m Hm)). by split. }
  assert (leader_insert i te c = apply_next i c1) as ->.
  { unfold leader_insert. rewrite Hm. simpl. by rewrite Hrun, Hlog. }
  assert (cu_members c1 !! i = Some m1) as Hm1 by apply lookup_insert_eq.
  assert (cu_log c1 !! mb_applied m1 = Some data) as Hdat.
  { simpl. rewrite Hcu. by rewrite lookup_app_r, Nat.sub_diag by done. }
  destruct (apply_next_ok tables i c1 m1 (ok_log tables c1 Hok1) Hm1 (ok_members tables c1 Hok1 i m1 Hm1))
    as (s' & E & _); [by eapply lookup_lt_Some|].
  exists (put_member i (at_index m1 s' (S (mb_applied m1))) c1). split; [done|].
  assert (Forall insert_log (cu_log c1)) as Hl1.
  { apply Forall_app. split; [done|]. constructor; [|done]. by exists te.1, seq, te.2. }
  assert (map_Forall (fun _ => unchecked) (cu_members c1)) as Hu1.
  { apply map_Forall_insert_2; [exact (Hu i m Hm)|done]. }
  split.
  - eapply step_ok; [exact Hok1|]. by eapply step_apply.
  - done.
  - simpl. rewrite !length_app, Hlen. done.
  - by apply (apply_next_unchecked i c1).
  - exists (at_index m1 s' (S (mb_applied m1))), r', (<[seq := event_entry te.1 seq te.2]> f).
    simpl. rewrite lookup_insert_eq. split_and!; [done| |done|done| | |].
    + unfold caught_up. simpl. rewrite Hcu, length_app. simpl. lia.
    + by rewrite <-Hlog.
    + unfold apply_next in E. rewrite Hm1 in E. simpl in E, Hdat. rewrite Hdat in E. simpl in E.
      rewrite Happ in E. pose proof (SaveHashEntry_saves None _ (mb_storage m) Hs Hstor) as Hsv.
      destruct (SaveHashEntry None _ (mb_storage m)) as [res s1]. simpl in E.
      destruct Hsv as [[_ Hsv] _]. destruct res as [[]| |]; [|by destruct Hsv as [_ [? ?]]|done].
      injection E as E. assert (s' = s1) as ->.
      { apply (f_equal (lookup i)) in E. rewrite !lookup_insert_eq in E. by injection E. }
      destruct Hsv as (_ & Hsame & _). destruct Hte as [(Htab & _) _].
      simpl in Hsame. rewrite Htab in Hsame. by apply Hsame.
    + by apply inserted_snoc.
Qed.
Lemma replicate_inserts_ok evs c :
  replicated [] c -> Forall recorded_insert evs ->
  exists c', replicate_inserts i evs c = Some c' /\ replicated evs c'.
Proof.
  intros Hc. induction evs as [|te evs IH] using rev_ind; intros Hev; [by exists c|].
  apply Forall_app in Hev as [Hev [Hte _]%Forall_cons].
  destruct (IH Hev) as (c1 & Hrun & Hc1). destruct (leader_insert_ok evs te c1 Hc1 Hte) as (c2 & E & Hc2).
  exists c2. split; [|done]. unfold replicate_inserts in *. rewrite foldl_app, Hrun. done.
Qed.

Lemma initial_replicated c m r :
  initial c -> cu_members c !! i = Some m -> node_raft (mb_node m) = Some r -> steady r ->
  map_Forall (fun _ => unchecked) (cu_members c) -> replicated [] c.
Proof.
  intros Hinit Hm Hr Hst Hu. pose proof (initial_ok tables c Hinit) as Hok.
  destruct Hinit as [Hl _ _ Hmem]. destruct (Hmem i m Hm) as (_ & Hch & Ha & _ & Hc).
  unfold raft_committed in Hc. rewrite Hr in Hc. simpl in Hc.
  split; rewrite ?Hl; [done|constructor|done|done|].
  exists m, r, ∅. rewrite Hch. split_and!; [done| |done|done|done|apply table_rep_empty|apply inserted_nil].
  unfold caught_up. by rewrite Hl.
Qed.

(** Every member that catches up holds the entries of the inserts. *)
Lemma replicated_member evs c j mj :
  replicated evs c -> cu_members c !! j = Some mj ->
  exists c' m' f, apply_many (length evs - mb_applied mj) j c = Some c'
    /\ cu_members c' !! j = Some m' /\ ready storage_buckets (mb_storage m')
    /\ table_rep (chain (mb_storage m')) t f /\ inserted evs f /\ unchecked m'.
Proof.
  intros [Hok Hl Hlen Hu (m & r & f & Hm & Hcu & _ & _ & _ & Hrep & Hin)] Hj.
  destruct (ok_members tables c Hok j mj Hj) as [_ [Hle _ _ _] _].
  destruct (apply_many_ok tables (length evs - mb_applied mj) j c mj Hok Hj)
    as (c' & E & _ & Hlog & (m' & Hm' & _ & Hch)); [lia|].
  destruct (apply_many_unchecked _ _ _ _ Hl Hok Hu E) as [Hu' Hok'].
  exists c', m', f. split_and!; [done|done|apply (ok_members tables c' Hok' j m' Hm')| |done|].
  - rewrite Hch, Hlog. destruct (ok_members tables c Hok i m Hm) as [_ [_ _ _ Hc] _].
    unfold caught_up in Hcu. rewrite Hcu in Hc. apply (proj1 (caught_end _ _)) in Hc. by rewrite <-Hc.
  - exact (Hu' j m' Hm').
Qed.
End replicated.

(** ** Examples for the witnesses *)

Definition list_steady (r : Raft (RaftLib := list_raft)) : Prop := r.1 = true.

Lemma list_keeps_leading : keeps_leading list_steady.
Proof.
  intros [b log] Hb. unfold list_steady in Hb. simpl in Hb. subst b. split; [done|].
  intros data. eexists. by split.
Qed.

(** ** Properties *)

(** C4: the verdict of every member of a cluster.  Start a new cluster whose
    leader stays one, and let its handler process one to ten inserts into a
    protected table: each is committed, and every member that then applies
    the logs it lacks answers a verification of the table exactly.  It makes
    the checkpoint of the rows when they hash, in any order, to the hashes of
    the inserted rows, and otherwise, if ids are distinct and hashing does not
    collide on the two trees, returns a tampering error and leaves its state
    alone. *)
Theorem cluster_verdict {RO : RangeOrder} {HF : HashFunction} {B : Bolt} {BL : BoltLaws B}
    {R : RaftLib} {RL : RaftLaws R} {FC : FloatConversion} (tables : string -> tableConfigs)
    (steady : Raft -> Prop) (c : Cluster B R) (i t : string) (m : Member B R) (r : Raft)
    (evs : list (Time * ChangeEvent)) :
  keeps_leading steady -> is_Some (tables i !! t) -> initial c ->
  cu_members c !! i = Some m -> node_raft (mb_node m) = Some r -> steady r ->
  map_Forall (fun _ => unchecked t) (cu_members c) ->
  Forall (recorded_insert t) evs -> evs <> [] -> length evs <= 10 ->
  exists c', replicate_inserts tables i evs c = Some c' /\ length (cu_log c') = length evs
  /\ forall j mj, cu_members c' !! j = Some mj ->
     exists c2 m2, apply_many (length evs - mb_applied mj) j c' = Some c2
     /\ cu_members c2 !! j = Some m2
     /\ forall g now io pg1 pg2 node rs, answers pg1 rs -> answers pg2 rs ->
        let st := {| vs_storage := mb_storage m2; vs_node := node |} in
        (row_hash <$> rs ≡ₚ insert_hash <$> evs ->
           exists tree, VerifyTable g now io pg1 pg2 st t
             = createCheckpointWithTree g now io st t (root_of (row_hash <$> rs)) (length rs) tree)
        /\ (NoDup (insert_id <$> evs) -> NoDup (row_id <$> rs) ->
             collision_free (merkle_queries (sort_strings (row_hash <$> rs))
                             ++ merkle_queries (sort_strings (insert_hash <$> evs))) ->
             ~ row_hash <$> rs ≡ₚ insert_hash <$> evs ->
             exists n, 0 < n /\ VerifyTable g now io pg1 pg2 st t = (Err (tampering_error n), st)).
Proof.
  intros Hst Ht Hinit Hm Hr Hs Hu Hev Hne H10.
  pose proof (initial_replicated tables steady i t c m r Hinit Hm Hr Hs Hu) as Hc.
  destruct (replicate_inserts_ok tables steady Hst i t Ht evs c Hc Hev) as (c' & E & Hc').
  exists c'. split_and!; [done|apply Hc'|]. intros j mj Hj.
  destruct (replicated_member tables steady i t evs c' j mj Hc' Hj)
    as (c2 & m2 & f & E2 & Hm2 & Hready & Hrep & Hin & Hu2).
  exists c2, m2. split_and!; [done..|]. intros g now io pg1 pg2 node rs H1 H2 st.
  by apply (VerifyTable_exact_inserted g now io pg1 pg2 t evs f st rs).
Qed.

Theorem cluster_verdict_witness :
  exists c', replicate_inserts (RO := canonical_order) (HF := length_hash_function)
      (FC := zero_float) example_tables "node1" three_inserts example_cluster = Some c'
  /\ length (cu_log c') = 3
  /\ forall j mj, cu_members c' !! j = Some mj ->
     exists c2 m2, apply_many (FC := zero_float) (3 - mb_applied mj) j c' = Some c2
     /\ cu_members c2 !! j = Some m2
     /\ forall g now io pg1 pg2 (node : option (Node (R := list_raft))) (rs : list row),
        answers pg1 rs -> answers pg2 rs ->
        let st := {| vs_storage := mb_storage m2; vs_node := node |} in
        (row_hash (RO := canonical_order) (HF := length_hash_function) <$> rs
           ≡ₚ insert_hash (RO := canonical_order) (HF := length_hash_function) <$> three_inserts ->
           exists tree, VerifyTable (RO := canonical_order) (HF := length_hash_function)
               g now io pg1 pg2 st "users"
             = createCheckpointWithTree (RO := canonical_order) g now io st "users"
                 (root_of (HF := length_hash_function)
                   (row_hash (RO := canonical_order) (HF := length_hash_function) <$> rs))
                 (length rs) tree)
        /\ (NoDup (insert_id <$> three_inserts) -> NoDup (row_id <$> rs) ->
             collision_free (H := length_hash_function)
               (merkle_queries (H := length_hash_function) (sort_strings
                  (row_hash (RO := canonical_order) (HF := length_hash_function) <$> rs))
                ++ merkle_queries (H := length_hash_function) (sort_strings
                  (insert_hash (RO := canonical_order) (HF := length_hash_function)
                     <$> three_inserts))) ->
             ~ row_hash (RO := canonical_order) (HF := length_hash_function) <$> rs
               ≡ₚ insert_hash (RO := canonical_order) (HF := length_hash_function) <$> three_inserts ->
             exists n, 0 < n /\ VerifyTable (RO := canonical_order) (HF := length_hash_function)
               g now io pg1 pg2 st "users" = (Err (tampering_error n), st)).
Proof.
  apply (cluster_verdict (RO := canonical_order) (HF := length_hash_function) (B := map_bolt)
    (R := list_raft) (FC := zero_float) example_tables list_steady example_cluster "node1" "users"
    (fresh_member leader_node) (true, []) three_inserts).
  - exact list_keeps_leading.
  - by_decide.
  - exact example_initial.
  - reflexivity.
  - reflexivity.
  - reflexivity.
  - intros j mj Hj. unfold unchecked. simpl in Hj.
    apply lookup_insert_Some in Hj as [[_ <-]|[_ Hj]];
      [|apply lookup_singleton_Some in Hj as [_ <-]]; apply table_rep_empty.
  - by_decide.
  - done.
  - by_decide.
Defined.
