(* ===== verification/Config.v ===== *)
(** * internal/config/config.go: loading and validating the configuration

    [Load] reads a YAML file through viper, replaces environment variables in
    every value, decodes and validates.  viper is a library, [ViperLib] is
    what the code uses of it; [ExpandEnv] is [os.ExpandEnv]. *)

From Stdlib Require Import Ascii NArith ZArith Lia.
From S2P Require Import Prelude Bytes Json JsonFacts Codec Hasher.

(** ** The data *)

Record DatabaseConfig := {
  db_Host : string;
  db_Port : Z;
  db_Database : string;
  db_User : string;
  db_Password : string
}.

Record ClusterConfig := {
  cn_ID : string;
  cn_BindAddr : string;
  cn_DataDir : string;
  cn_Peers : list string;
  cn_Bootstrap : bool;
  cn_PeerAddrs : gmap string string
}.

Record RaftConfig := {
  rf_LeadershipTransferInterval : string;
  rf_FollowerAutoShutdown : bool
}.

Record ProtectedTableConfig := { pt_Name : string; pt_VerifyInterval : string }.

Record AlertsConfig := { al_Enabled : bool; al_SlackWebhook : string }.

Record Config := {
  c_Database : DatabaseConfig;
  c_Node : ClusterConfig;
  c_Raft : RaftConfig;
  c_Algorithm : string;
  c_ProtectedTables : list ProtectedTableConfig;
  c_Alerts : AlertsConfig
}.

Definition ConnectionString (d : DatabaseConfig) : string :=
  "host=" +:+ db_Host d +:+ " port=" +:+ pretty (db_Port d) +:+ " dbname=" +:+ db_Database d
  +:+ " user=" +:+ db_User d +:+ " password=" +:+ db_Password d +:+ " sslmode=disable".

(** ** Validate *)

Definition set_algorithm (algorithm : string) (c : Config) : Config := {|
  c_Database := c_Database c; c_Node := c_Node c; c_Raft := c_Raft c; c_Algorithm := algorithm;
  c_ProtectedTables := c_ProtectedTables c; c_Alerts := c_Alerts c |}.

Definition validAlgorithms : list string :=
  ["xxhash64"; "xxhash128"; "sha256"; "blake2b_256"; "blake3"].

Definition invalid_algorithm (algorithm : string) : error :=
  Errorf ("invalid hash algorithm: " +:+ algorithm
    +:+ " (valid options: xxhash64, xxhash128, sha256, blake2b_256, blake3)").

(** Sets the default algorithm before it checks it. *)
Definition Validate (c : Config) : result unit * Config :=
  if decide (db_Host (c_Database c) = "") then (Err (Errorf "database.host is required"), c)
  else if decide (db_Database (c_Database c) = "")
  then (Err (Errorf "database.database is required"), c)
  else if decide (db_User (c_Database c) = "") then (Err (Errorf "database.user is required"), c)
  else if decide (cn_ID (c_Node c) = "") then (Err (Errorf "node.id is required"), c)
  else if decide (cn_BindAddr (c_Node c) = "") then (Err (Errorf "node.bind_addr is required"), c)
  else if decide (cn_DataDir (c_Node c) = "") then (Err (Errorf "node.data_dir is required"), c)
  else
    let c := if decide (c_Algorithm c = "") then set_algorithm "sha256" c else c in
    if existsb (String.eqb (c_Algorithm c)) validAlgorithms then (Ok tt, c)
    else (Err (invalid_algorithm (c_Algorithm c)), c).

(** ** os.ExpandEnv *)

Definition is_shell_special (a : ascii) : bool :=
  existsb (Ascii.eqb a) ["*"; "#"; "$"; "@"; "!"; "?"; "-"]%char || is_digit a.

Definition is_alpha_num (a : ascii) : bool :=
  Ascii.eqb a "_" || is_digit a || in_range 97 122 a || in_range 65 90 a.

(** The text before the first closing brace. *)
Fixpoint before_brace (s : string) : option string :=
  match s with
  | "" => None
  | String a rest =>
      if Ascii.eqb a "}" then Some ""
      else match before_brace rest with
      | Some t => Some (String a t)
      | None => None
      end
  end.

Fixpoint alpha_num_prefix (s : string) : string :=
  match s with
  | "" => ""
  | String a rest => if is_alpha_num a then String a (alpha_num_prefix rest) else ""
  end.

(** The name after a dollar sign and the bytes it takes: bad syntax gives an
    empty name and eats the brace or the braces. *)
Definition getShellName (s : string) : string * nat :=
  match s with
  | "" => ("", 0)
  | String a rest =>
      if Ascii.eqb a "{" then
        match before_brace rest with
        | Some "" => ("", 2)
        | Some name => (name, String.length name + 2)
        | None => ("", 1)
        end
      else if is_shell_special a then (String a "", 1)
      else (alpha_num_prefix s, String.length (alpha_num_prefix s))
  end.

(** [skip] bytes belong to a name that was replaced. *)
Fixpoint expand_from (getenv : string -> string) (skip : nat) (s : string) : string :=
  match s with
  | "" => ""
  | String a rest =>
      match skip with
      | S k => expand_from getenv k rest
      | O =>
          if Ascii.eqb a "$" && negb (String.eqb rest "") then
            let '(name, w) := getShellName rest in
            (if String.eqb name "" then (if Nat.ltb 0 w then "" else "$") else getenv name)
            +:+ expand_from getenv w rest
          else String a (expand_from getenv 0 rest)
      end
  end.

Definition ExpandEnv (getenv : string -> string) (s : string) : string := expand_from getenv 0 s.

(** ** Load *)

Class ViperLib := {
  Viper : Type;
  read_config : string -> result Viper;
  all_keys : Viper -> list string;
  get_string : Viper -> string -> string;
  viper_set : string -> string -> Viper -> Viper;
  viper_unmarshal : Viper -> result Config
}.

Section load.
Context `{V : ViperLib}.
Local Open Scope witnz_scope.

(** The loop over [v.AllKeys()]. *)
Definition expand_keys (getenv : string -> string) (v : Viper) : Viper :=
  foldl (fun v key =>
    let val := get_string v key in
    let expanded := ExpandEnv getenv val in
    if decide (expanded = val) then v else viper_set key expanded v) v (all_keys v).

Definition Load (getenv : string -> string) (configPath : string) : result Config :=
  let! v := wrap_err "failed to read config file" (read_config configPath) in
  let! config := wrap_err "failed to unmarshal config" (viper_unmarshal (expand_keys getenv v)) in
  match Validate config with
  | (Ok _, config') => Ok config'
  | (Err e, _) => Err (Wrap "invalid config" e)
  | (Panic w, _) => Panic w
  end.
End load.

(** ** What a loaded configuration promises *)

Definition complete (c : Config) : Prop :=
  db_Host (c_Database c) <> "" /\ db_Database (c_Database c) <> ""
  /\ db_User (c_Database c) <> "" /\ cn_ID (c_Node c) <> ""
  /\ cn_BindAddr (c_Node c) <> "" /\ cn_DataDir (c_Node c) <> "".

#[export] Instance complete_dec c : Decision (complete c).
Proof. unfold complete. apply _. Defined.

(** The algorithm the node runs with. *)
Definition effective_algorithm (c : Config) : string :=
  if decide (c_Algorithm c = "") then "sha256" else c_Algorithm c.

Lemma validAlgorithms_Initialize algorithm g :
  existsb (String.eqb algorithm) validAlgorithms = true <->
  exists h, Initialize algorithm g = (Ok tt, Some h) /\ Name h = algorithm.
Proof.
  rewrite existsb_exists. unfold Initialize. split.
  - intros (x & Hx & ->%String.eqb_eq). simpl in Hx.
    destruct Hx as [<-|[<-|[<-|[<-|[<-|[]]]]]]; by eexists.
  - intros (h & Hi & Hn). exists algorithm. split; [|apply String.eqb_refl].
    rewrite <-Hn. destruct h; simpl; tauto.
Qed.

Lemma existsb_String_elem s l : existsb (String.eqb s) l = true <-> s ∈ l.
Proof.
  rewrite existsb_exists, list_elem_of_In. split.
  - by intros (x & Hx & ->%String.eqb_eq).
  - intros Hs. exists s. by rewrite String.eqb_refl.
Qed.

(** [Validate] accepts exactly the complete configurations whose algorithm
    is known or left out, and then only fills in the algorithm. *)
Lemma Validate_Ok c c' :
  Validate c = (Ok tt, c') <->
  complete c /\ existsb (String.eqb (effective_algorithm c)) validAlgorithms = true
  /\ c' = set_algorithm (effective_algorithm c) c.
Proof.
  unfold Validate, complete, effective_algorithm.
  assert (forall a, a = c_Algorithm c -> set_algorithm a c = c) as Hset
    by (by intros a ->; destruct c).
  repeat (destruct (decide (_ = "")) as [?|?]; [naive_solver|]).
  destruct (decide (c_Algorithm c = "")) as [E|E].
  - simpl. naive_solver.
  - destruct (existsb _ _) eqn:Hx; [|naive_solver]. rewrite Hset by done. naive_solver.
Qed.

(** A text without a dollar sign stays as it is. *)
Lemma ExpandEnv_plain getenv s :
  forallb (fun a => negb (Ascii.eqb a "$")) (String.list_ascii_of_string s) = true ->
  ExpandEnv getenv s = s.
Proof.
  unfold ExpandEnv. induction s as [|a s IH]; [done|]. simpl. intros [Ha Hs]%andb_prop.
  apply negb_true_iff in Ha. rewrite Ha. simpl. by rewrite IH.
Qed.

Lemma before_brace_app name rest :
  forallb (fun a => negb (Ascii.eqb a "}")) (String.list_ascii_of_string name) = true ->
  before_brace (name +:+ String "}" rest) = Some name.
Proof.
  induction name as [|a name IH]; [done|]. simpl. intros [Ha Hs]%andb_prop.
  apply negb_true_iff in Ha. by rewrite Ha, IH.
Qed.

Lemma expand_from_skip getenv s t :
  expand_from getenv (String.length s) (s +:+ t) = expand_from getenv 0 t.
Proof. induction s as [|a s IH]; [done|]. rewrite string_app_cons. simpl. apply IH. Qed.

(** A variable in braces is replaced by its value. *)
Lemma ExpandEnv_braces getenv name rest :
  name <> "" ->
  forallb (fun a => negb (Ascii.eqb a "}")) (String.list_ascii_of_string name) = true ->
  ExpandEnv getenv ("${" +:+ (name +:+ String "}" rest))
  = getenv name +:+ ExpandEnv getenv rest.
Proof.
  intros Hne Hn. unfold ExpandEnv.
  change ("${" +:+ ?t) with (String "$" (String "{" t)). cbn [expand_from Ascii.eqb Bool.eqb].
  cbn [String.eqb negb andb]. unfold getShellName. cbn [Ascii.eqb Bool.eqb].
  rewrite before_brace_app by done. destruct name as [|a name]; [done|].
  cbn [String.eqb]. rewrite (Nat.add_comm _ 2). cbn [Nat.add expand_from].
  replace (S (String.length (String a name))) with (String.length (String a name +:+ "}"))
    by (rewrite string_length_app; simpl; lia).
  change (String "}" rest) with ("}" +:+ rest). rewrite <-string_app_assoc.
  by rewrite expand_from_skip.
Qed.

(** A password with a literal dollar sign is changed on the way in. *)
Example ExpandEnv_password : ExpandEnv (fun _ => "") "pa$$word" = "paword".
Proof. reflexivity. Qed.

(** ** Examples for the witnesses *)

Definition example_yaml : Config := {|
  c_Database := {| db_Host := "localhost"; db_Port := 5432; db_Database := "app";
                   db_User := "witnz"; db_Password := "${DB_PASSWORD}" |};
  c_Node := {| cn_ID := "node1"; cn_BindAddr := "127.0.0.1:7000"; cn_DataDir := "/data";
               cn_Peers := []; cn_Bootstrap := false; cn_PeerAddrs := ∅ |};
  c_Raft := {| rf_LeadershipTransferInterval := ""; rf_FollowerAutoShutdown := false |};
  c_Algorithm := "";
  c_ProtectedTables := [{| pt_Name := "users"; pt_VerifyInterval := "5m" |}];
  c_Alerts := {| al_Enabled := true; al_SlackWebhook := "https://hooks.slack.com/x" |} |}.

Definition set_password (password : string) (c : Config) : Config := {|
  c_Database := {| db_Host := db_Host (c_Database c); db_Port := db_Port (c_Database c);
                   db_Database := db_Database (c_Database c); db_User := db_User (c_Database c);
                   db_Password := password |};
  c_Node := c_Node c; c_Raft := c_Raft c; c_Algorithm := c_Algorithm c;
  c_ProtectedTables := c_ProtectedTables c; c_Alerts := c_Alerts c |}.

(** A viper that holds one file and knows one key. *)
Definition one_file : ViperLib := {|
  Viper := Config;
  read_config _ := Ok example_yaml;
  all_keys _ := ["database.password"];
  get_string c key := if String.eqb key "database.password" then db_Password (c_Database c) else "";
  viper_set _ val c := set_password val c;
  viper_unmarshal c := Ok c
|}.

Definition example_env (name : string) : string :=
  if String.eqb name "DB_PASSWORD" then "secret" else "".

(** ** Properties *)

(** C38: [Load] accepts a file that viper reads exactly when the six required
    fields are not empty and the algorithm is one of the five or left out;
    the configuration it returns is the decoded one with the algorithm
    filled in, and the hash package initializes with it, to the hasher of
    that name.  The six are database.host, database.database, database.user,
    node.id, node.bind_addr and node.data_dir: the port, the password, the
    algorithm, bootstrap and peer_addrs, which config/README.md calls
    required too, may be left out. *)
Theorem Load_accepts {V : ViperLib} (getenv : string -> string) (path : string) (v : Viper)
    (c : Config) :
  read_config path = Ok v -> viper_unmarshal (expand_keys getenv v) = Ok c ->
  (forall c', Load getenv path = Ok c' <->
     complete c /\ effective_algorithm c ∈ validAlgorithms
     /\ c' = set_algorithm (effective_algorithm c) c)
  /\ (forall c', Load getenv path = Ok c' -> exists h, Name h = c_Algorithm c'
        /\ forall g, Initialize (c_Algorithm c') g = (Ok tt, Some h)).
Proof.
  intros Hr Hu.
  assert (forall c', Load getenv path = Ok c' <-> Validate c = (Ok tt, c')) as Hl.
  { intros c'. unfold Load. rewrite Hr. cbn [wrap_err]. rewrite Ok_bind, Hu. cbn [wrap_err].
    rewrite Ok_bind. destruct (Validate c) as [[[]| |] c'']; naive_solver. }
  split; intros c'; rewrite Hl, Validate_Ok, existsb_String_elem; [done|].
  intros (_ & Ha & ->). simpl. apply existsb_String_elem in Ha.
  pose proof (proj1 (validAlgorithms_Initialize _ None) Ha) as (h & Hi & Hn). exists h.
  split; [done|]. intros g. unfold Initialize in *. by repeat case_decide; simplify_eq.
Qed.

Theorem Load_accepts_witness :
  let c := set_password "secret" example_yaml in
  (forall c', Load (V := one_file) example_env "witnz.yaml" = Ok c' <->
     complete c /\ effective_algorithm c ∈ validAlgorithms /\ c' = set_algorithm "sha256" c)
  /\ (forall c', Load (V := one_file) example_env "witnz.yaml" = Ok c' ->
        exists h, Name h = c_Algorithm c'
        /\ forall g, Initialize (c_Algorithm c') g = (Ok tt, Some h)).
Proof.
  apply (Load_accepts (V := one_file) example_env "witnz.yaml" example_yaml
    (set_password "secret" example_yaml)).
  - reflexivity.
  - by_vm.
Defined.
