(* ===== verification/Commands.v ===== *)
(** * cmd/witnz/main.go: the commands

    [init], [start], [status] and [verify] put the parts together.  What the
    commands print is left out but for the report of [status]; cobra and the
    wait for a signal are left out.  [start] returns the running system: the
    manager with its handler, the table list of the verifier and its loops,
    the store and the Raft node they share; [shutdown_system] is what follows
    the signal.  The deferred calls run however a command ends: each command
    also returns the store it leaves behind, if it opened one. *)

From Stdlib Require Import Ascii NArith ZArith Lia.
From S2P Require Import Prelude Bytes Json JsonFacts Codec Sha256 Hasher DataHash Merkle.
From S2P Require Import MerkleFacts Bolt Keys Storage TableView StorageFacts BoltStore.
From S2P Require Import BoltStoreFacts AnyData Fsm Node FsmFacts Replication Handler HandlerFacts.
From S2P Require Import Verifier VerifierFacts RecordIds Alert Replica Manager Stream Config.

(** ** The world of a command *)

Section commands.
Context `{RO : RangeOrder} `{HF : HashFunction} `{B : Bolt} `{R : RaftLib} `{L : ReplLib}
  `{V : ViperLib}.
Local Open Scope witnz_scope.

(** Files and environment variables: [os.Stat], [os.Getenv], [os.MkdirAll]
    and [bolt.Open] with the outcome of its first commit. *)
Record FileSystem := {
  fs_exists : string -> bool;
  fs_getenv : string -> string;
  fs_mkdir : string -> option error;
  fs_open : string -> result (gmap string bucket);
  fs_commit : option error
}.

Definition defaultPaths : list string :=
  ["config/witnz.yaml"; "witnz.yaml"; "/etc/witnz/witnz.yaml"].

Definition findConfigFile (fs : FileSystem) (cfgFile : string) : result string :=
  if decide (cfgFile <> "") then
    if fs_exists fs cfgFile then Ok cfgFile
    else Err (Errorf ("config file not found: " +:+ cfgFile))
  else
    match filter (fun path => fs_exists fs path = true) defaultPaths with
    | path :: _ => Ok path
    | [] => Err (Errorf ("config file not found in default locations: ["
                          +:+ join " " defaultPaths +:+ "]"))
    end.

(** The start of every command: the configuration and the global hasher. *)
Definition load_config (fs : FileSystem) (cfgFile : string) : result (Config * option Hasher) :=
  let! configPath := findConfigFile fs cfgFile in
  let! cfg := wrap_err "failed to load config" (Load (fs_getenv fs) configPath) in
  let '(r, globalHasher) := Initialize (c_Algorithm cfg) None in
  let! _ := wrap_err "failed to initialize hash algorithm" r in
  Ok (cfg, globalHasher).

(** [filepath.Join(cfg.Node.DataDir, "witnz.db")] for a clean directory. *)
Definition db_path (cfg : Config) : string := cn_DataDir (c_Node cfg) +:+ "/witnz.db".

Definition open_storage (msg : string) (fs : FileSystem) (cfg : Config) : result (Storage B) :=
  wrap_err msg (New (fs_open fs (db_path cfg)) (fs_commit fs)).

(** A step of a command that may end it before anything is opened. *)
Definition or_exit {A C W} (r : result A) (rest : A -> result C * option W)
    : result C * option W :=
  match r with
  | Ok a => rest a
  | Err e => (Err e, None)
  | Panic w => (Panic w, None)
  end.

(** [defer store.Close()]: the store is closed however the rest ends. *)
Definition closing {A} (out : result A * Storage B) : result A * option (Storage B) :=
  (out.1, Some (Close out.2)).

(** ** init *)

Definition init_command (fs : FileSystem) (cfgFile : string)
    : result unit * option (Storage B) :=
  or_exit (load_config fs cfgFile) (fun '(cfg, _) =>
    match fs_mkdir fs (cn_DataDir (c_Node cfg)) with
    | Some e => (Err (Wrap "failed to create data directory" e), None)
    | None =>
        or_exit (open_storage "failed to initialize storage" fs cfg) (fun store =>
          closing (Ok tt, store))
    end).

(** ** start *)

(** The handler's table map: the interval is not passed on. *)
Fixpoint add_tables (tables : list ProtectedTableConfig) (h : tableConfigs) : result tableConfigs :=
  match tables with
  | [] => Ok h
  | table :: rest =>
      match AddTable {| tc_Name := pt_Name table; tc_VerifyInterval := "" |} h with
      | (Ok _, h') => add_tables rest h'
      | (Err e, _) => Err (Wrap ("failed to add table " +:+ pt_Name table) e)
      | (Panic w, _) => Panic w
      end
  end.

Fixpoint add_verifier_tables (tables : list ProtectedTableConfig) (l : list TableConfig)
    : result (list TableConfig) :=
  match tables with
  | [] => Ok l
  | table :: rest =>
      match verifier_AddTable {| tc_Name := pt_Name table;
                                 tc_VerifyInterval := pt_VerifyInterval table |} l with
      | (Ok _, l') => add_verifier_tables rest l'
      | (Err e, _) => Err (Wrap "invalid table configuration" e)
      | (Panic w, _) => Panic w
      end
  end.

Definition cluster_mode (cfg : Config) : bool :=
  bool_decide (0 < size (cn_PeerAddrs (c_Node cfg))) || cn_Bootstrap (c_Node cfg).

Definition raft_config (cfg : Config) : NodeConfig := {|
  nc_NodeID := cn_ID (c_Node cfg); nc_BindAddr := cn_BindAddr (c_Node cfg);
  nc_DataDir := cn_DataDir (c_Node cfg); nc_Bootstrap := cn_Bootstrap (c_Node cfg);
  nc_Peers := []; nc_PeerAddrs := cn_PeerAddrs (c_Node cfg); nc_JoinRetries := 0;
  nc_JoinRetryWait := 0 |}.

Definition cdc_config (cfg : Config) : ReplicationConfig := {|
  rp_Host := db_Host (c_Database cfg); rp_Port := db_Port (c_Database cfg);
  rp_Database := db_Database (c_Database cfg); rp_User := db_User (c_Database cfg);
  rp_Password := db_Password (c_Database cfg); rp_SlotName := "witnz_" +:+ cn_ID (c_Node cfg);
  rp_PublicationName := "witnz_publication" |}.

(** The state the handler and the verifier share. *)
Definition Shared : Type := Storage B * option Node.

(** [HashChainHandler] in single-node mode. *)
Definition local_handler (h : tableConfigs) : EventHandler Shared :=
  fun w event sn =>
    let '(r, s') := HandleChange h (w_now w) (w_io w) event sn.1 in (r, (s', sn.2)).

(** The Raft node, started and in sync, and the handler of the manager; the
    node is stopped at the end once it has started. *)
Definition start_consensus (raft : StartEnv) (cfg : Config) (h : tableConfigs)
    : result (EventHandler Shared) * option Node :=
  if cluster_mode cfg then
    match wrap_err "failed to create raft node" (NewNode (raft_config cfg)) with
    | Ok node =>
        let '(r, node) := Start raft node in
        match wrap_err "failed to start raft node" r with
        | Ok _ =>
            (let! _ := wrap_err "failed to sync hash chain from leader"
                         (SyncHashChainFromLeader node) in
             Ok (raft_chain_handler h), Some node)
        | Err e => (Err e, None)
        | Panic w => (Panic w, None)
        end
    | Err e => (Err e, None)
    | Panic w => (Panic w, None)
    end
  else (Ok (local_handler h), None).

(** The manager, initialized and started; no alert manager is set. *)
Definition start_cdc (pa : PublicationAnswer) (cfg : Config) (handler : EventHandler Shared)
    : result (Manager L Shared) :=
  let manager := AddHandler handler (NewManager (cdc_config cfg)) in
  let '(r, manager) := Manager_Initialize pa manager in
  let! _ := wrap_err "failed to initialize CDC manager" r in
  let '(r, manager) := Manager_Start manager in
  let! _ := wrap_err "failed to start CDC manager" r in
  Ok manager.

Record System := {
  sys_config : Config;
  sys_manager : Manager L Shared;
  sys_tables : list TableConfig;
  sys_loops : list (string * Z);
  (** whether the verifier's stop channel is closed *)
  sys_verifier_stopped : bool;
  sys_shared : Shared
}.

(** With the store open.  [parse] is [time.ParseDuration], [worlds] the world
    of the startup verification of each table. *)
Definition start_opened (raft : StartEnv) (pa : PublicationAnswer) (parse : string -> result Z)
    (worlds : string -> verify_env) (cfg : Config) (globalHasher : option Hasher)
    (store : Storage B) : result System * Shared :=
  match add_tables (c_ProtectedTables cfg) NewHashChainHandler with
  | Ok h =>
      let '(handler, node) := start_consensus raft cfg h in
      let parts :=
        let! handler := handler in
        let! manager := start_cdc pa cfg handler in
        let! tables := add_verifier_tables (c_ProtectedTables cfg) [] in
        Ok (manager, tables) in
      match parts with
      | Ok (manager, tables) =>
          let '(loops, st) := verifier_Start globalHasher parse worlds tables
                                (SetRaftNode node (NewMerkleVerifier store)) in
          let shared := (vs_storage st, vs_node st) in
          (let! loops := wrap_err "failed to start Merkle verifier" loops in
           Ok {| sys_config := cfg; sys_manager := manager; sys_tables := tables;
                 sys_loops := loops; sys_verifier_stopped := false; sys_shared := shared |}, shared)
      | Err e => (Err e, (store, node))
      | Panic w => (Panic w, (store, node))
      end
  | Err e => (Err e, (store, None))
  | Panic w => (Panic w, (store, None))
  end.

(** The deferred calls stop the Raft node, whose error is dropped, and close
    the store. *)
Definition close_shared (shared : Shared) : Shared :=
  (Close shared.1, (fun n => (Stop n).2) <$> shared.2).

(** The second component is what a failing start leaves behind. *)
Definition start_command (fs : FileSystem) (raft : StartEnv) (pa : PublicationAnswer)
    (parse : string -> result Z) (worlds : string -> verify_env) (cfgFile : string)
    : result System * option Shared :=
  or_exit (load_config fs cfgFile) (fun '(cfg, globalHasher) =>
    or_exit (open_storage "failed to initialize storage" fs cfg) (fun store =>
      let '(r, shared) := start_opened raft pa parse worlds cfg globalHasher store in
      (r, if is_Ok r then None else Some (close_shared shared)))).

(** After the signal: the manager is stopped, and whatever its error the
    deferred calls stop the verifier, then the Raft node, and close the
    store. *)
Definition shutdown_system (sys : System) : result unit * System :=
  let '(r, manager) := Manager_Stop (sys_manager sys) in
  let '(vr, stopped) := verifier_Stop (sys_loops sys) (sys_verifier_stopped sys) in
  (let! _ := wrap_err "failed to stop CDC manager" r in let! _ := vr in Ok tt,
   {| sys_config := sys_config sys; sys_manager := manager; sys_tables := sys_tables sys;
      sys_loops := match vr with Ok loops => loops | _ => sys_loops sys end;
      sys_verifier_stopped := stopped; sys_shared := close_shared (sys_shared sys) |}).

(** ** status *)

(** The lines of one table: sequence number, start of the data hash and time
    of the latest entry; sequence number and count of the latest
    checkpoint. *)
Definition TableStatus : Type := string * option (N * string * Time) * option (N * Z).

Definition table_status (s : Storage B) (t : string) : result TableStatus :=
  let! entry := match GetLatestHashEntry s t with
    | Ok latest =>
        let! short := go_slice (he_DataHash latest) 0 16 in
        Ok (Some (he_SequenceNum latest, short, he_Timestamp latest))
    | Err _ => Ok None
    | Panic w => Panic w
    end in
  let! checkpoint := match GetLatestMerkleCheckpoint s t with
    | Ok c => Ok (Some (mc_SequenceNum c, mc_RecordCount c))
    | Err _ => Ok None
    | Panic w => Panic w
    end in
  Ok (t, entry, checkpoint).

Fixpoint tables_status (s : Storage B) (tables : list string) : result (list TableStatus) :=
  match tables with
  | [] => Ok []
  | t :: rest =>
      let! st := table_status s t in
      let! l := tables_status s rest in
      Ok (st :: l)
  end.

Fixpoint total_entries (s : Storage B) (tables : list string) : result nat :=
  match tables with
  | [] => Ok 0
  | t :: rest =>
      let! n := match GetAllHashEntries s t with
        | Ok entries => Ok (length entries)
        | Err _ => Ok 0
        | Panic w => Panic w
        end in
      let! total := total_entries s rest in
      Ok (n + total)
  end.

Definition status_report (s : Storage B) (tables : list string)
    : result (list TableStatus * nat) :=
  let! lines := tables_status s tables in
  let! total := total_entries s tables in
  Ok (lines, total).

Definition status_command (fs : FileSystem) (cfgFile : string)
    : result (list TableStatus * nat) * option (Storage B) :=
  or_exit (load_config fs cfgFile) (fun '(cfg, _) =>
    or_exit (open_storage "failed to open storage" fs cfg) (fun store =>
      closing (status_report store (pt_Name <$> c_ProtectedTables cfg), store))).

(** ** verify *)

Definition tables_to_verify (args : list string) (cfg : Config) : list string :=
  match args with
  | [] => pt_Name <$> c_ProtectedTables cfg
  | t :: _ => [t]
  end.

(** The verdicts are printed, not returned: the node is nil here, so a
    checkpoint is saved locally. *)
Fixpoint verify_tables (globalHasher : option Hasher) (worlds : string -> verify_env)
    (tables : list string) (st : VState B R)
    : result (list (string * result unit)) * VState B R :=
  match tables with
  | [] => (Ok [], st)
  | t :: rest =>
      match verify_in globalHasher (worlds t) t st with
      | (Panic w, st') => (Panic w, st')
      | (r, st') =>
          let '(rs, st'') := verify_tables globalHasher worlds rest st' in
          (let! rs := rs in Ok ((t, r) :: rs), st'')
      end
  end.

Definition verify_command (fs : FileSystem) (worlds : string -> verify_env) (cfgFile : string)
    (args : list string) : result (list (string * result unit)) * option (Storage B) :=
  or_exit (load_config fs cfgFile) (fun '(cfg, globalHasher) =>
    or_exit (open_storage "failed to open storage" fs cfg) (fun store =>
      let '(r, st) := verify_tables globalHasher worlds (tables_to_verify args cfg)
                        (NewMerkleVerifier store) in
      closing (r, vs_storage st))).

(** ** main *)

(** The status of the process: cobra returns the error of the command, and a
    panic ends a Go program with status 2. *)
Definition exit_status {A} (r : result A) : nat :=
  match r with
  | Ok _ => 0
  | Err _ => 1
  | Panic _ => 2
  end.
End commands.
Arguments System B R L : clear implicits, rename.
