(* ===== verification/Running.v ===== *)
(** * The commands put together

    What a successful [start] has wired: the handler guards exactly the
    configured tables, the verifier checks them, and no alert manager is set,
    so no alert is ever sent; and when [status] panics. *)

From Stdlib Require Import Ascii NArith ZArith Lia.
From S2P Require Import Prelude Bytes Json JsonFacts Codec Sha256 Hasher DataHash Merkle.
From S2P Require Import MerkleFacts Bolt Keys Storage TableView StorageFacts BoltStore.
From S2P Require Import BoltStoreFacts AnyData Fsm Node FsmFacts Replication Handler HandlerFacts.
From S2P Require Import Verifier VerifierFacts RecordIds Alert Replica Manager Stream Config.
From S2P Require Import Commands.

Section running.
Context `{RO : RangeOrder} `{HF : HashFunction} `{B : Bolt} `{R : RaftLib} `{L : ReplLib}
  `{V : ViperLib}.

(** ** Tables *)

Lemma add_tables_spec tables h h' :
  add_tables tables h = Ok h' ->
  Forall (fun t => validTableName t = true) (pt_Name <$> tables)
  /\ forall t, is_Some (h' !! t) <-> is_Some (h !! t) \/ t ∈ pt_Name <$> tables.
Proof.
  revert h. unfold tableConfigs in *.
  induction tables as [|table tables IH]; intros h H; simpl in H.
  { simplify_eq. split; [constructor|]. intros t. rewrite elem_of_nil. tauto. }
  unfold AddTable in H. cbn [tc_Name] in H. destruct (validTableName (pt_Name table)) eqn:Hv;
    [|done]. cbn [negb] in H. destruct (IH _ H) as [Hf Hs]. split; [by constructor|].
  intros t. rewrite Hs, fmap_cons, elem_of_cons, lookup_insert_is_Some'. naive_solver.
Qed.

Definition table_config (table : ProtectedTableConfig) : TableConfig :=
  {| tc_Name := pt_Name table; tc_VerifyInterval := pt_VerifyInterval table |}.

Lemma add_verifier_tables_spec tables l l' :
  add_verifier_tables tables l = Ok l' -> l' = l ++ (table_config <$> tables).
Proof.
  revert l. induction tables as [|table tables IH]; intros l H; simpl in H.
  { simplify_eq. by rewrite app_nil_r. }
  unfold verifier_AddTable in H. cbn [tc_Name] in H.
  destruct (validTableName (pt_Name table)); [|done]. cbn [negb] in H.
  rewrite (IH _ H), <-app_assoc. done.
Qed.

Lemma start_intervals_spec parse tables l :
  start_intervals parse tables = Ok l ->
  l.*1 = tc_Name <$> filter (fun t => tc_VerifyInterval t <> "") tables.
Proof.
  revert l. induction tables as [|t tables IH]; intros l; simpl; [by intros [= <-]|].
  rewrite filter_cons. destruct (decide (tc_VerifyInterval t = "")) as [E|E].
  - rewrite decide_False by (by intros []). apply IH.
  - rewrite decide_True by done. destruct (parse _) as [d| |]; [|done..]. cbn [wrap_err].
    rewrite Ok_bind. destruct (start_intervals parse tables) as [started| |]; [|done..].
    rewrite Ok_bind. intros [= <-]. rewrite !fmap_cons. f_equal. by apply IH.
Qed.

(** ** The handler *)

Lemma Guards_ext {St} (h : EventHandler St) p q :
  Guards h p -> (forall t, p t = q t) -> Guards h q.
Proof.
  intros Hg He. split; intros w event s; rewrite <-He.
  - apply guard_tampering.
  - apply guard_ignores.
Qed.

#[export] Instance local_guards h : Guards (local_handler h) (configured h).
Proof.
  split; intros w event [s n] Hp; unfold local_handler; simpl.
  - intros Hop. pose proof (guard_tampering (h := hash_chain_handler h) w event s Hp Hop) as H.
    unfold hash_chain_handler in H. by rewrite H.
  - pose proof (guard_ignores (h := hash_chain_handler h) w event s Hp) as H.
    unfold hash_chain_handler in H. by rewrite H.
Qed.

Lemma start_consensus_spec raft cfg h node handler :
  start_consensus raft cfg h = (Ok handler, node) ->
  Guards handler (configured h) /\ (is_Some node <-> cluster_mode cfg = true).
Proof.
  unfold start_consensus. destruct (cluster_mode cfg).
  - unfold NewNode. cbn [wrap_err]. destruct (Start _ _) as [r n].
    destruct r; [|done..]. cbn [wrap_err].
    destruct (SyncHashChainFromLeader n); [|done..]. cbn [wrap_err]. rewrite Ok_bind.
    intros [= <- <-]. split; [apply _|]. split; eauto.
  - intros [= <- <-]. split; [apply _|]. split; [by intros []|done].
Qed.

(** ** The manager *)

Lemma start_cdc_spec pa cfg handler m :
  start_cdc pa cfg handler = Ok m ->
  mg_handlers m = [handler] /\ mg_alertManager m = None /\ mg_running m = true
  /\ mg_stopped m = false /\ mg_config m = cdc_config cfg.
Proof.
  unfold start_cdc, Manager_Initialize.
  destruct (wrap_err _ (createPublicationIfNotExists pa)); [|done..].
  destruct (Connect _) as [[[]| |] client]; [|done..].
  destruct (CreateSlotIfNotExists client) as [[[]| |] client']; [|done..].
  cbn [wrap_err]. rewrite Ok_bind. unfold Manager_Start. cbn -[StartReplication].
  destruct (StartReplication _ client') as [[[]| |] client'']; [|done..].
  cbn [wrap_err]. rewrite Ok_bind. by intros [= <-].
Qed.

(** A manager that was stopped can be started again, but not stopped again. *)
Lemma Manager_restart_panics {St} (m m1 m2 : Manager L St) :
  mg_running m = true -> Manager_Stop m = (Ok tt, m1) -> Manager_Start m1 = (Ok tt, m2) ->
  (Manager_Stop m2).1 = Panic "close of closed channel".
Proof.
  intros Hr. unfold Manager_Stop at 1. rewrite Hr. simpl. destruct (mg_stopped m); [done|].
  assert (forall m', mg_stopped m' = true -> Manager_Start m' = (Ok tt, m2) ->
    (Manager_Stop m2).1 = Panic "close of closed channel") as Hp.
  { intros m' Hs. unfold Manager_Start. destruct (mg_running m'); [done|].
    destruct (mg_client m') as [c|]; [|done]. destruct (StartReplication _ c) as [[]?]; [|done..].
    intros [= <-]. unfold Manager_Stop. simpl. by rewrite Hs. }
  destruct (mg_client m) as [c|]; simpl.
  - destruct (CloseClient c) as [r c']. intros [= -> <-]. by apply Hp.
  - intros [= <-]. by apply Hp.
Qed.

(** ** Without an alert manager nothing is posted *)

Lemma loop_receive_rest `{HC : HttpClient} {St} (w : world) (st : loop_state L HC St) :
  ls_http (loop_receive w st).2 = ls_http st
  /\ mg_alertManager (ls_manager (loop_receive w st).2) = mg_alertManager (ls_manager st).
Proof.
  unfold loop_receive. destruct (mg_client _) as [client|]; [|done].
  by destruct (ReceiveMessage _ _ _ _) as [[r client'] s'].
Qed.

Lemma send_alert_none `{HC : HttpClient} {St} send (st : loop_state L HC St) :
  mg_alertManager (ls_manager st) = None -> send_alert send st = st.
Proof. unfold send_alert. by intros ->. Qed.

Lemma loop_step_silent `{HC : HttpClient} `{FC : FloatConversion} {St} turn
    (st : loop_state L HC St) :
  mg_alertManager (ls_manager st) = None ->
  ls_http (loop_step turn st).2 = ls_http st
  /\ mg_alertManager (ls_manager (loop_step turn st).2) = None.
Proof.
  intros Hn. destruct turn as [|w unix wait]; [done|]. unfold loop_step.
  destruct (loop_receive_rest w st) as [Hh Ha]. rewrite Hn in Ha.
  destruct (loop_receive w st) as [[[]|e|why] st']; cbn [fst snd] in *; [done| |done].
  destruct e; rewrite send_alert_none by done; try destruct wait; done.
Qed.

Lemma receiveLoop_silent `{HC : HttpClient} `{FC : FloatConversion} {St} turns
    (st : loop_state L HC St) :
  mg_alertManager (ls_manager st) = None ->
  ls_http (receiveLoop turns st).2 = ls_http st.
Proof.
  revert st. induction turns as [|turn turns IH]; intros st Hn; [done|]. cbn [receiveLoop].
  destruct (loop_step_silent turn st Hn) as [Hh Ha].
  destruct (loop_step turn st) as [[waited|waited|why] st']; cbn [fst snd] in *; [|done..].
  specialize (IH st' Ha). destruct (receiveLoop turns st') as [[ws e] st'']. simpl in *. congruence.
Qed.

(** ** A successful start *)

Lemma start_command_parts fs raft pa parse worlds cfgFile sys :
  (start_command fs raft pa parse worlds cfgFile).1 = Ok sys ->
  exists g h node handler,
    load_config fs cfgFile = Ok (sys_config sys, g)
    /\ add_tables (c_ProtectedTables (sys_config sys)) NewHashChainHandler = Ok h
    /\ start_consensus raft (sys_config sys) h = (Ok handler, node)
    /\ start_cdc pa (sys_config sys) handler = Ok (sys_manager sys)
    /\ add_verifier_tables (c_ProtectedTables (sys_config sys)) [] = Ok (sys_tables sys)
    /\ start_intervals parse (sys_tables sys) = Ok (sys_loops sys)
    /\ sys_verifier_stopped sys = false.
Proof.
  unfold start_command. destruct (load_config fs cfgFile) as [[cfg g]| |]; [|done..].
  cbn [or_exit]. destruct (open_storage _ fs cfg) as [store| |]; [|done..].
  cbn [or_exit]. unfold start_opened.
  destruct (add_tables _ NewHashChainHandler) as [h| |] eqn:Ha; [|done..].
  destruct (start_consensus raft cfg h) as [[handler|e|w] node] eqn:Hc; [|done..]. rewrite Ok_bind.
  destruct (start_cdc pa cfg handler) as [m| |] eqn:Hm; [|done..]. rewrite Ok_bind.
  destruct (add_verifier_tables _ []) as [tables| |] eqn:Ht; [|done..]. rewrite Ok_bind.
  unfold verifier_Start. destruct (startup_verification _ _ _ _) as [[[]| |] st]; [|done..].
  rewrite Ok_bind. destruct (start_intervals parse tables) as [loops| |] eqn:Hi; [|done..].
  cbn [wrap_err]. rewrite Ok_bind. intros [= <-]. by exists g, h, node, handler.
Qed.

(** A start that fails leaves nothing open: the store, if it was opened, is
    closed, and the Raft node, if it was started, is stopped. *)
Lemma start_failure_closes fs raft pa parse worlds cfgFile r left_behind :
  start_command fs raft pa parse worlds cfgFile = (r, left_behind) -> is_Ok r = false ->
  match left_behind with
  | None => is_Ok (load_config fs cfgFile) = false
      \/ exists cfg g, load_config fs cfgFile = Ok (cfg, g) /\ is_Ok (New (fs_open fs (db_path cfg)) (fs_commit fs)) = false
  | Some (store, node) => db_open store = false
      /\ forall n, node = Some n -> exists n0, n = (Stop n0).2
  end.
Proof.
  unfold start_command. destruct (load_config fs cfgFile) as [[cfg g]| |];
    [|by intros [= <- <-]; left..].
  cbn [or_exit]. unfold open_storage.
  destruct (New _ _) as [store| |] eqn:Hn; cbn [wrap_err or_exit];
    [|by intros [= <- <-]; right; eexists _, _; rewrite Hn..].
  destruct (start_opened _ _ _ _ _ _ _) as [r' [s node]]. intros [= <- <-] ->. simpl.
  split; [done|]. intros n. destruct node as [n0|]; [|done]. intros [= <-]. by exists n0.
Qed.

(** A system that started stops cleanly: no channel is closed twice, no loop
    is left and the store is closed, even if the connection cannot be. *)
Lemma shutdown_started fs raft pa parse worlds cfgFile sys :
  (start_command fs raft pa parse worlds cfgFile).1 = Ok sys ->
  let '(r, sys') := shutdown_system sys in
  is_Panic r = false /\ mg_running (sys_manager sys') = false /\ sys_loops sys' = []
  /\ db_open (sys_shared sys').1 = false.
Proof.
  intros H. destruct (start_command_parts _ _ _ _ _ _ _ H)
    as (g & h & node & handler & _ & _ & _ & Hm & _ & _ & Hv).
  apply start_cdc_spec in Hm as (_ & _ & Hrun & Hst & _).
  unfold shutdown_system, Manager_Stop, verifier_Stop, close_shared. rewrite Hrun, Hst, Hv. simpl.
  destruct (mg_client (sys_manager sys)) as [client|]; [|done].
  unfold CloseClient, on_conn. simpl.
  destruct (cl_conn client) as [conn|]; [|done]. destruct (close_conn conn) as [[e|] conn']; done.
Qed.

(** ** verify *)

Lemma verify_tables_status g worlds tables st :
  exit_status (verify_tables (R := R) g worlds tables st).1 <> 1.
Proof.
  revert st. induction tables as [|t tables IH]; intros st; [done|]. cbn [verify_tables].
  destruct (verify_in g (worlds t) t st) as [[[]|e|w] st']; [| |done];
    specialize (IH st'); destruct (verify_tables g worlds tables st') as [[rs| |] st'']; done.
Qed.

(** Once its store is open, [verify] exits with 0 whatever the verdicts; only
    a panic changes that.  The store is closed. *)
Lemma verify_exit fs worlds cfgFile args cfg g store :
  load_config fs cfgFile = Ok (cfg, g) ->
  New (fs_open fs (db_path cfg)) (fs_commit fs) = Ok store ->
  let '(r, left_behind) := verify_command (R := R) fs worlds cfgFile args in
  (is_Panic r = false -> exit_status r = 0) /\ exists s, left_behind = Some (Close s).
Proof.
  intros Hc Hn. unfold verify_command, open_storage. rewrite Hc. cbn [or_exit]. rewrite Hn.
  cbn [wrap_err or_exit].
  pose proof (verify_tables_status g worlds (tables_to_verify args cfg)
    (NewMerkleVerifier store)) as H.
  destruct (verify_tables _ _ _ _) as [r st]. split; [|by eexists]. by destruct r.
Qed.

(** ** status *)

Lemma GetLatestHashEntry_total {BL : BoltLaws B} (s : Storage B) t :
  ready storage_buckets s -> is_Panic (GetLatestHashEntry s t) = false.
Proof.
  intros Hs. unfold GetLatestHashEntry. rewrite (View_ready _ _ _ Hs).
  destruct (tx_bucket_ready HashChainBucket _ _ Hs ltac:(set_solver)) as (b & -> & _).
  rewrite !Ok_bind. by destruct (foldl _ _ _).
Qed.

Lemma GetLatestMerkleCheckpoint_total {BL : BoltLaws B} (s : Storage B) t :
  ready storage_buckets s -> is_Panic (GetLatestMerkleCheckpoint s t) = false.
Proof.
  intros Hs. unfold GetLatestMerkleCheckpoint. rewrite (View_ready _ _ _ Hs).
  destruct (tx_bucket_ready MerkleCheckpointBucket _ _ Hs ltac:(set_solver)) as (b & -> & _).
  rewrite !Ok_bind. by destruct (foldl _ _ _).
Qed.

Lemma go_slice_16 s : is_Panic (go_slice s 0 16) = true <-> String.length s < 16.
Proof. unfold go_slice. case_decide; simpl; split; (done || lia). Qed.

Lemma table_status_Panic {BL : BoltLaws B} (s : Storage B) t :
  ready storage_buckets s ->
  is_Panic (table_status s t) = true <->
  exists e, GetLatestHashEntry s t = Ok e /\ String.length (he_DataHash e) < 16.
Proof.
  intros Hs. unfold table_status.
  assert (is_Panic (GetLatestMerkleCheckpoint s t) = false) as Hc.
  { by apply GetLatestMerkleCheckpoint_total. }
  assert (is_Panic (GetLatestHashEntry s t) = false) as Hh by by apply GetLatestHashEntry_total.
  destruct (GetLatestHashEntry s t) as [e|e|]; [| |done].
  - transitivity (String.length (he_DataHash e) < 16); [|naive_solver].
    rewrite <-go_slice_16. destruct (go_slice _ 0 16) as [x|e'|why]; [|done..].
    rewrite !Ok_bind. by destruct (GetLatestMerkleCheckpoint s t).
  - rewrite !Ok_bind. split; [|naive_solver].
    by destruct (GetLatestMerkleCheckpoint s t).
Qed.

Lemma tables_status_Panic {BL : BoltLaws B} (s : Storage B) tables :
  ready storage_buckets s ->
  is_Panic (tables_status s tables) = true <->
  exists t e, t ∈ tables /\ GetLatestHashEntry s t = Ok e /\ String.length (he_DataHash e) < 16.
Proof.
  intros Hs. induction tables as [|t tables IH]; [simpl; set_solver|]. cbn [tables_status].
  pose proof (table_status_Panic s t Hs) as Ht.
  assert (is_Ok (table_status s t) = true \/ is_Panic (table_status s t) = true) as Hcase.
  { unfold table_status. pose proof (GetLatestHashEntry_total s t Hs).
    pose proof (GetLatestMerkleCheckpoint_total s t Hs).
    destruct (GetLatestHashEntry s t) as [e| |]; [|rewrite !Ok_bind|done].
    - destruct (go_slice _ 0 16) eqn:Hg; rewrite ?Ok_bind; [|unfold go_slice in Hg; by case_decide|by right].
      left. by destruct (GetLatestMerkleCheckpoint s t).
    - left. by destruct (GetLatestMerkleCheckpoint s t). }
  setoid_rewrite elem_of_cons. destruct (table_status s t) as [st| |].
  - rewrite Ok_bind. assert (~ exists e, GetLatestHashEntry s t = Ok e
      /\ String.length (he_DataHash e) < 16) as Hno by (by rewrite <-Ht).
    transitivity (is_Panic (tables_status s tables) = true).
    + by destruct (tables_status s tables).
    + rewrite IH. naive_solver.
  - by destruct Hcase.
  - split; [|done]. intros _. destruct (proj1 Ht eq_refl) as (e & He & Hl). eauto 10.
Qed.

Lemma total_entries_total {BL : BoltLaws B} (s : Storage B) tables :
  ready storage_buckets s -> exists n, total_entries s tables = Ok n.
Proof.
  intros Hs. induction tables as [|t tables [n IH]]; [by exists 0|]. cbn [total_entries].
  assert (exists l, GetAllHashEntries s t = Ok l) as [l ->].
  { unfold GetAllHashEntries. rewrite (View_ready _ _ _ Hs).
    destruct (tx_bucket_ready HashChainBucket _ _ Hs ltac:(set_solver)) as (b & -> & _).
    rewrite Ok_bind. eauto. }
  rewrite Ok_bind, IH, Ok_bind. eauto.
Qed.
End running.

(** ** Examples for the witnesses *)

Definition example_files : FileSystem (B := map_bolt) := {|
  fs_exists path := String.eqb path "witnz.yaml"; fs_getenv := example_env; fs_mkdir _ := None;
  fs_open _ := Ok ∅; fs_commit := None |}.

(** Single-node mode asks for nothing of this. *)
Definition no_raft : StartEnv (R := list_raft) := {|
  env_mkdir := Ok tt; env_log_store := Ok tt; env_stable_store := Ok tt;
  env_snapshot_store := Ok tt; env_resolve := Ok tt; env_transport := Ok "127.0.0.1:7000";
  env_new_raft := Err (External "off"); env_has_state := Ok false;
  env_bootstrap r _ := (None, r); env_poll _ := ("", Ok []) |}.

Definition publication : PublicationAnswer :=
  {| pa_connect := None; pa_exists := Ok true; pa_create := None |}.

Definition five_minutes (s : string) : result Z :=
  if String.eqb s "5m" then Ok (300 * second)%Z else Err (External "invalid duration").

Definition empty_table (t : string) : verify_env := {|
  env_now := noon; env_io := None;
  env_pg1 := {| pg_connect := None; pg_query := None; pg_rows := [] |};
  env_pg2 := {| pg_connect := None; pg_query := None; pg_rows := [] |} |}.

Definition example_start : result (System map_bolt list_raft list_repl) :=
  fst (start_command (RO := canonical_order) (HF := length_hash_function) (V := one_file)
    example_files no_raft publication five_minutes empty_table "").

Definition example_system : System map_bolt list_raft list_repl :=
  match example_start with
  | Ok sys => sys
  | _ => {| sys_config := example_yaml; sys_manager := NewManager example_config;
            sys_tables := []; sys_loops := []; sys_verifier_stopped := false; sys_shared := (empty_storage, None) |}
  end.

Lemma example_start_Ok :
  (start_command (RO := canonical_order) (HF := length_hash_function) (V := one_file)
    example_files no_raft publication five_minutes empty_table "").1 = Ok example_system.
Proof.
  assert (is_Ok example_start = true) as H by by_vm. unfold example_system. revert H.
  unfold example_start. by destruct (start_command _ _ _ _ _ _) as [[]?].
Qed.

(** A store whose latest entry for users came from a Raft log without a data
    hash. *)
Definition unhashed_storage : Storage map_bolt :=
  save_all [example_entry "users" 1 ""] empty_storage.

(** ** Properties *)

(** C36: what a successful [start] has wired.  The configuration is complete
    and its algorithm initialized; the manager runs with one handler, which
    guards exactly the protected tables; their names are valid; the verifier
    has the same tables in the same order, and a periodic loop runs for
    exactly those with an interval. *)
Theorem start_command_wires {RO : RangeOrder} {HF : HashFunction} {B : Bolt} {R : RaftLib}
    {L : ReplLib} {V : ViperLib} (fs : FileSystem) (raft : StartEnv) (pa : PublicationAnswer)
    (parse : string -> result Z) (worlds : string -> verify_env) (cfgFile : string)
    (sys : System B R L) :
  (start_command fs raft pa parse worlds cfgFile).1 = Ok sys ->
  let tables := c_ProtectedTables (sys_config sys) in
  (exists g, load_config fs cfgFile = Ok (sys_config sys, g))
  /\ mg_running (sys_manager sys) = true
  /\ (exists handler, mg_handlers (sys_manager sys) = [handler]
        /\ Guards handler (fun t => bool_decide (t ∈ pt_Name <$> tables)))
  /\ Forall (fun t => validTableName t = true) (pt_Name <$> tables)
  /\ sys_tables sys = table_config <$> tables
  /\ (sys_loops sys).*1
     = tc_Name <$> filter (fun t => tc_VerifyInterval t <> "") (table_config <$> tables).
Proof.
  intros H. destruct (start_command_parts _ _ _ _ _ _ _ H)
    as (g & h & node & handler & Hl & Ha & Hc & Hm & Ht & Hi & _). cbv zeta.
  apply add_tables_spec in Ha as [Hval Hdom]. apply start_consensus_spec in Hc as [Hg _].
  apply start_cdc_spec in Hm as (Hh & _ & Hrun & _). apply add_verifier_tables_spec in Ht.
  simpl in Ht. split_and!; [by exists g|done| |done|done|].
  - exists handler. split; [done|]. apply (Guards_ext _ (configured h)); [done|].
    intros t. unfold configured. apply bool_decide_ext. rewrite Hdom.
    split; [|by right]. by intros [[c [=]]|].
  - rewrite <-Ht. by apply (start_intervals_spec parse).
Qed.

Theorem start_command_wires_witness :
  let sys := example_system in
  let tables := c_ProtectedTables (sys_config sys) in
  (exists g, load_config (V := one_file) example_files "" = Ok (sys_config sys, g))
  /\ mg_running (sys_manager sys) = true
  /\ (exists handler, mg_handlers (sys_manager sys) = [handler]
        /\ Guards handler (fun t => bool_decide (t ∈ pt_Name <$> tables)))
  /\ Forall (fun t => validTableName t = true) (pt_Name <$> tables)
  /\ sys_tables sys = table_config <$> tables
  /\ (sys_loops sys).*1
     = tc_Name <$> filter (fun t => tc_VerifyInterval t <> "") (table_config <$> tables).
Proof.
  apply (start_command_wires (RO := canonical_order) (HF := length_hash_function) (B := map_bolt)
    (R := list_raft) (L := list_repl) (V := one_file) example_files no_raft publication
    five_minutes empty_table "" example_system).
  exact example_start_Ok.
Defined.

(** C37: a started node never sends an alert.  Whatever the configuration
    says about alerts, in every run of the receive loop of the system that
    [start] returns, the HTTP client is left as it was: the manager has no
    alert manager, so tampering is only printed. *)
Theorem start_never_alerts {RO : RangeOrder} {HF : HashFunction} {B : Bolt} {R : RaftLib}
    {L : ReplLib} {V : ViperLib} {HC : HttpClient} {FC : FloatConversion} (fs : FileSystem)
    (raft : StartEnv) (pa : PublicationAnswer) (parse : string -> result Z)
    (worlds : string -> verify_env) (cfgFile : string) (sys : System B R L)
    (turns : list loop_turn) (http : Http) :
  (start_command fs raft pa parse worlds cfgFile).1 = Ok sys ->
  ls_http (receiveLoop turns {| ls_manager := sys_manager sys; ls_handlers := sys_shared sys;
                                ls_http := http; ls_errors := 0 |}).2 = http.
Proof.
  intros H. destruct (start_command_parts _ _ _ _ _ _ _ H)
    as (g & h & node & handler & _ & _ & _ & Hm & _).
  apply start_cdc_spec in Hm as (_ & Ham & _). by rewrite receiveLoop_silent.
Qed.

Theorem start_never_alerts_witness :
  let turns := replicate 3 (TReceive at_noon 0 WTimer) in
  let http : Http (HttpClient := recording_client) := [] in
  ls_http (receiveLoop (FC := amd64) turns
    {| ls_manager := sys_manager example_system; ls_handlers := sys_shared example_system;
       ls_http := http; ls_errors := 0 |}).2 = http.
Proof.
  apply (start_never_alerts (RO := canonical_order) (HF := length_hash_function) (B := map_bolt)
    (R := list_raft) (L := list_repl) (V := one_file) (HC := recording_client) (FC := amd64)
    example_files no_raft publication five_minutes empty_table "" example_system
    (replicate 3 (TReceive at_noon 0 WTimer))).
  exact example_start_Ok.
Defined.

(** C40: [status] panics exactly when the latest entry of a protected table
    has a data hash of fewer than 16 bytes, which it slices without a check.
    The handlers never write one, but [FSM.Apply] stores a Raft log without
    a data hash with only a warning. *)
Theorem status_report_panics {B : Bolt} {BL : BoltLaws B} (s : Storage B) (tables : list string) :
  ready storage_buckets s ->
  is_Panic (status_report s tables) = true <->
  exists t e, t ∈ tables /\ GetLatestHashEntry s t = Ok e /\ String.length (he_DataHash e) < 16.
Proof.
  intros Hs. rewrite <-tables_status_Panic by done. unfold status_report.
  destruct (tables_status s tables); [|done..]. rewrite Ok_bind.
  destruct (total_entries_total s tables Hs) as [n ->]. done.
Qed.

Theorem status_report_panics_witness :
  is_Panic (status_report unhashed_storage ["users"]) = true <->
  exists t e, t ∈ ["users"] /\ GetLatestHashEntry unhashed_storage t = Ok e
    /\ String.length (he_DataHash e) < 16.
Proof. apply (status_report_panics (B := map_bolt)). split; by_decide. Defined.
